(* ===== verification/_CoqProject ===== *)
-Q . S2P
Prelude.v
Host.v
Distribution.v
Peers.v
Twap.v
CoreTypes.v
TopPayers.v
CoreStore.v
Access.v
TokenSafety.v
Nft.v
OracleRegistry.v
Pricing.v
ConfigRs.v
Admin.v
Lifecycle.v
Queue.v
Multisig.v
SplitStore.v
Frames.v
CoreSpecs.v
Edits.v
System.v
Invariants.v
Scenario.v
LifecycleProps.v
Escrow.v
Solvency.v
SolvencyProps.v
Guards.v
Footprint.v
Heap.v
QueueProps.v
NftProps.v
MultisigProps.v
GovTypes.v
Governance.v
GovSystem.v
GovScenario.v
DelegationProps.v
GovProps.v
DepositProps.v
Insurance.v
InsuranceProps.v
ClaimPriority.v
ReputationBonus.v
ReputationProps.v
TwapProps.v
PricingProps.v
Moves.v
Chain.v
Composition.v
Accruals.v
CompositionProps.v
ChainScenario.v
ChainWitness.v
SplitProps.v
Views.v
