(* ===== verification/Prelude.v ===== *)
(** * A verification library for the Invoice Liquidity Network contracts

    This library models the Soroban contracts of [src/contracts] and proves what makes
    them correct: the escrow contract [invoice_liquidity], the governance contract
    [iln_governance], the reward contract [iln_distribution], the default-protection pool
    [insurance_pool], the reputation-priced invoices of [reputation_bonus], and the
    system they form.  A reader who knows the Rust sources finds each function under its
    own name in the file listed below.

    ** How contracts are modelled

    - A contract function is a computation [M W E A] of this file: it runs against the
      world [W] (the contract's own ledger entries, the invoking context, the state of
      every other contract, the event log) and returns a value with the world it leaves,
      or a fault.  A fault carries no world, because the host rolls a failing invocation
      back; [commit] is that rule.  [Code e] is a contract error, [Panic] any other trap.
    - Integers are [Z] with the range written out: [chk_u64 (a + b)] is [checked_add] (and
      a plain [+] when followed by [unwrap], since the workspace builds with overflow
      checks), [sat_i128] is [saturating_*].
    - [Host.v] holds the storage (a dependent map from each contract's [DataKey] enum to
      its value type), [require_auth], the clock, events, cross-contract calls
      ([invoke], [try_invoke]) and the token interface.  A token is not in the repository:
      it is the class [TokenInterface], what the contracts rely on is [TokenLaws], and
      [Sac] is the concrete token the witnesses use.  The other contracts a contract calls
      are classes too ([Peers], [GovPeers], [ReputationPeer]) with laws ([PeerLaws],
      [GovPeerLaws]) that only say a callee cannot move the caller's tokens.

    ** The escrow contract, [src/contracts/invoice_liquidity/src]

    - [CoreTypes.v] data, errors, events and storage keys; [TopPayers.v] [top_payers.rs];
      [CoreStore.v] the accessors of [invoice.rs] and [storage.rs], reputation with lazy
      decay; [Access.v] [access.rs]; [TokenSafety.v] [token_safety.rs]; [Nft.v] [nft.rs];
      [Peers.v] the callees; [OracleRegistry.v] and [Pricing.v] [oracle_registry.rs];
      [Twap.v] [twap.rs], [twap_accumulator.rs], [rate_logic.rs]; [ConfigRs.v] [config.rs];
      [Admin.v], [Lifecycle.v], [Queue.v] the entry points of [lib.rs];
      [Multisig.v] [multisig.rs]; [SplitStore.v] the split invoice format of [storage.rs]
      and the rollback rehearsal; [Views.v] the statistics and status reports, with proofs
      that they never fail or write and count exactly.
    - [Frames.v], [CoreSpecs.v], [Edits.v], [Footprint.v] hold what each helper and each
      whole call may write, and the inversion lemmas of the tactic [minv].
    - [System.v] makes the entry points a transition system ([Call], [exec], [step]);
      [Invariants.v] proves by induction on runs that storage stays well formed.
    - [LifecycleProps.v]: every call refines an abstract invoice lifecycle, statuses move
      along legal edges only, finished invoices are frozen, amounts stay in range (at
      every rate; contributions are sums of money paid only at rates below 100%).
    - [Escrow.v], [Solvency.v], [SolvencyProps.v]: for every token the contract holds what
      it owes, over every run without [claim_default] or an upheld dispute of a funded
      invoice; the run that shows why these two are excluded is a theorem as well.
    - [Guards.v]: who must sign each call, what pausing stops, the reentrancy lock.
    - [Heap.v]: the leaderboard is a correct bounded min-heap and its query is the sorted
      leaderboard.  [QueueProps.v]: the LP queue is sorted, a resolution picks a best LP,
      and only that LP funds.  [NftProps.v]: NFTs follow their invoices.
      [MultisigProps.v]: execution needs a quorum of distinct signers and happens once.
    - [TwapProps.v]: the windowed average is the mean over the window and stays within the
      observed prices; the stand-alone accumulator never records anything.
      [PricingProps.v]: the median and its filter resist any minority of sources, and the
      samples kept on every run make the windowed price well defined and bounded.

    ** The other contracts

    - [Distribution.v] [iln_distribution/src/lib.rs]: minted rewards equal the claim
      ledger and never exceed what was earned; a repeated claim pays nothing.
    - [GovTypes.v], [Governance.v], [GovSystem.v] [iln_governance/src/lib.rs] and its
      transition system; [GovScenario.v] a concrete deployment; [GovProps.v] the proposal
      state machine, one vote each, proven weights (the proposer's own excepted), the
      integer square root;
      [DelegationProps.v] the delegation graph and the termination of its walks;
      [DepositProps.v] deposits are covered and a passed proposal executes.
    - [Insurance.v] [insurance_pool/src/lib.rs]; [InsuranceProps.v]: the pool's books are
      covered by its tokens, the exact outcome of a claim on every branch, the solvency
      breaker, the timelock.  [ClaimPriority.v] [claim_prioritization.rs]: constrained
      payouts are in order, within their caps and within the pool.
    - [ReputationBonus.v] [reputation_bonus/src]; [ReputationProps.v]: the counters are
      exact counts of the stored invoices and an invoice closes at most once.

    ** The contracts together

    - [Moves.v]: a call of the escrow contract acts on the rest of the chain only by
      transfers out of itself or out of an address that signed, and by the calls to its
      peers.
    - [Chain.v] runs the pool's and the distribution contract's own code, on their own
      storage and on the shared balances, as the peers of the escrow contract, and
      discharges the laws [PeerLaws] for them.  [Composition.v] is the transition system
      of the whole chain (user calls of the three contracts, tokens moving elsewhere,
      ledgers closing) and its projections to the runs of each contract.
    - [CompositionProps.v]: the projections are runs the single contracts' theorems are
      about, claimed rewards had been earned, both contracts are solvent out of one set of balances, a default is
      compensated exactly and once, nobody's tokens move without a signature.  [Accruals.v]: rewards are earned by financings and
      closing payments only.  [ChainScenario.v], [ChainWitness.v]: a deployment in which the pool
      is handed over to the escrow contract, and the theorems on it.
    - [SplitProps.v]: the two storage layouts of an invoice round trip, and the rollback
      rehearsal passes exactly when no sampled invoice is orphaned.

    ** Bounds and fuel

    Loops whose recursion is not structural take fuel.  [sift_up] and [sift_down] get the
    length of the heap plus one and are proved total with it; [isqrt] gets 129 rounds,
    enough because each halves an interval below [2 ^ 128] ([isqrt_floor]); the cycle
    check of [delegate_votes] and the depth walks get the limit the source compares
    against; the explicit stack of [longest_inbound_depth] gets a budget, the host's
    metering, and is proved to finish on every reachable graph when the budget is large
    enough ([inbound_depth_terminates]).

    ** Not modelled

    Entry TTLs ([extend_ttl]) and temporary-entry expiry in the escrow contract (the
    governance system drops temporary entries between calls); the wasm upgrade
    ([upgrade] checks entry TTLs and hands over to the host);
    the off-chain clients ([sdk], [cli], [indexer], [frontend]); tests, fuzz targets and
    the example oracle.  Names that the sources use without declaring them
    ([MAX_FEE_TIERS], [MAX_IDENTITY_ORACLES_PER_FEED], [MAX_PRICE_SOURCES_PER_FEED], a few
    error variants and keys) are parameters or constructors, said so where they appear.
    [set_min_twap_observations] and
    [get_twap_aware_price] are modelled but no entry point of [lib.rs] calls them.
    A callee outside the repository (an oracle, a pool or distribution contract at an
    address other than the deployed ones) acts on token balances only: it does not call
    back into the modelled contracts within the same invocation. *)
From stdpp Require Export base list gmap strings option.
From Stdlib Require Export ZArith Lia.

#[export] Set Default Goal Selector "!".
Open Scope Z_scope.

(** * Machine integers

    Rust's [u32], [u64] and [i128] are [Z] together with their range.  The
    workspace is built with [overflow-checks = true] (src/Cargo.toml,
    [profile.release]), so a plain [+], [-] or [*] that leaves the range traps;
    the [checked_*] methods return [None] and the [saturating_*] methods clamp. *)

Definition u32_max : Z := 2 ^ 32 - 1.
Definition u64_max : Z := 2 ^ 64 - 1.
Definition i128_min : Z := - 2 ^ 127.
Definition i128_max : Z := 2 ^ 127 - 1.

Definition in_u32 (z : Z) : bool := (0 <=? z) && (z <=? u32_max).
Definition in_u64 (z : Z) : bool := (0 <=? z) && (z <=? u64_max).
Definition in_i128 (z : Z) : bool := (i128_min <=? z) && (z <=? i128_max).

(** [checked_add], [checked_mul], ... : the exact result when it fits. *)
Definition checked (inr : Z → bool) (z : Z) : option Z :=
  if inr z then Some z else None.

(** [saturating_*] : clamp to the range. *)
Definition sat (lo hi z : Z) : Z := Z.max lo (Z.min hi z).

Abbreviation chk_u32 := (checked in_u32).
Abbreviation chk_u64 := (checked in_u64).
Abbreviation chk_i128 := (checked in_i128).
Abbreviation sat_u32 := (sat 0 u32_max).
Abbreviation sat_u64 := (sat 0 u64_max).
Abbreviation sat_i128 := (sat i128_min i128_max).

(** Rust's integer division truncates towards zero. *)
Notation "a ÷ b" := (Z.quot a b) (at level 40, left associativity) : Z_scope.

Lemma sat_id lo hi z : lo ≤ z ≤ hi → sat lo hi z = z.
Proof. unfold sat. lia. Qed.

Lemma sat_range lo hi z : lo ≤ hi → lo ≤ sat lo hi z ≤ hi.
Proof. unfold sat. lia. Qed.

Lemma sat_mono lo hi a b : a ≤ b → sat lo hi a ≤ sat lo hi b.
Proof. unfold sat. lia. Qed.

Lemma checked_Some inr z v : checked inr z = Some v ↔ inr z = true ∧ v = z.
Proof. unfold checked. destruct (inr z); naive_solver. Qed.

Lemma in_i128_spec z : in_i128 z = true ↔ i128_min ≤ z ≤ i128_max.
Proof. unfold in_i128. rewrite andb_true_iff, !Z.leb_le. done. Qed.

Lemma in_u64_spec z : in_u64 z = true ↔ 0 ≤ z ≤ u64_max.
Proof. unfold in_u64. rewrite andb_true_iff, !Z.leb_le. done. Qed.

Lemma in_u32_spec z : in_u32 z = true ↔ 0 ≤ z ≤ u32_max.
Proof. unfold in_u32. rewrite andb_true_iff, !Z.leb_le. done. Qed.

(** [bools]: turn the boolean guards a run has passed into propositions. *)
Ltac bools := repeat match goal with
  | H : negb _ = false |- _ => apply negb_false_iff in H
  | H : negb _ = true |- _ => apply negb_true_iff in H
  | H : (_ || _)%bool = false |- _ => apply orb_false_iff in H as [? ?]
  | H : (_ && _)%bool = true |- _ => apply andb_true_iff in H as [? ?]
  | H : bool_decide _ = true |- _ => apply bool_decide_eq_true in H
  | H : bool_decide _ = false |- _ => apply bool_decide_eq_false in H
  | H : (_ <? _) = false |- _ => apply Z.ltb_ge in H
  | H : (_ <? _) = true |- _ => apply Z.ltb_lt in H
  | H : (_ <=? _) = false |- _ => apply Z.leb_gt in H
  | H : (_ <=? _) = true |- _ => apply Z.leb_le in H
  | H : (_ =? _) = false |- _ => apply Z.eqb_neq in H
  | H : (_ =? _) = true |- _ => apply Z.eqb_eq in H
  | H : checked _ _ = Some _ |- _ => apply checked_Some in H as [? ?]; subst
  end.

(** Basis-point arithmetic: [quot] is [div] on the non-negative side. *)
Lemma quot_nonneg a b : 0 ≤ a → 0 < b → 0 ≤ a ÷ b ∧ a ÷ b = a / b.
Proof.
  intros Ha Hb. rewrite Z.quot_div_nonneg by lia.
  split; [apply Z.div_pos; lia | done].
Qed.

Lemma quot_le_self a b c : 0 ≤ a → 0 ≤ b ≤ c → 0 < c → 0 ≤ (a * b) ÷ c ≤ a.
Proof.
  intros Ha Hb Hc. destruct (quot_nonneg (a * b) c) as [H0 H1]; [nia | lia |].
  split; [done |]. rewrite H1. apply Z.div_le_upper_bound; nia.
Qed.

(** * Addresses, symbols and hashes

    A Soroban [Address] and a [BytesN<32>] are opaque identifiers that the
    contracts only compare. *)
Abbreviation Address := N (only parsing).
Abbreviation BytesN32 := N (only parsing).
Abbreviation Symbol := string (only parsing).

(** * Soroban vectors

    A [Vec] is a list with [u32] indices: [get(i).unwrap()] and [set(i, v)] trap
    out of range, which is [None] here. *)
Definition vlen {A} (h : list A) : Z := Z.of_nat (length h).
Definition vget {A} (h : list A) (i : Z) : option A :=
  if i <? 0 then None else h !! Z.to_nat i.
Definition vset {A} (h : list A) (i : Z) (v : A) : option (list A) :=
  if (0 <=? i) && (i <? vlen h) then Some (<[Z.to_nat i := v]> h) else None.
Definition pop_back {A} (h : list A) : list A := take (length h - 1) h.
(** [insert(i, v)]: traps when [i > len]. *)
Definition vinsert {A} (h : list A) (i : Z) (v : A) : option (list A) :=
  if (0 <=? i) && (i <=? vlen h)
  then Some (take (Z.to_nat i) h ++ v :: drop (Z.to_nat i) h) else None.
Fixpoint zsum (l : list Z) : Z :=
  match l with [] => 0 | x :: l' => x + zsum l' end.

Lemma zsum_nonneg l : Forall (λ n, 0 ≤ n) l → 0 ≤ zsum l.
Proof. induction 1; simpl in *; lia. Qed.

Lemma zsum_app l k : zsum (l ++ k) = zsum l + zsum k.
Proof. induction l; simpl; lia. Qed.

(** Summing a function changed at one point. *)
Lemma zsum_update {A} `{EqDecision A} (f g : A → Z) (a : A) (n : Z) (l : list A) :
  (∀ x, x ≠ a → g x = f x) → g a = f a + n → NoDup l →
  zsum (g <$> l) = zsum (f <$> l) + (if bool_decide (a ∈ l) then n else 0).
Proof.
  intros Hne Ha Hl. induction Hl as [|x l Hx Hl IH]; [done |]. csimpl. rewrite IH.
  destruct (decide (x = a)) as [-> | Hxa].
  - rewrite Ha, (bool_decide_eq_false_2 (a ∈ l)), bool_decide_eq_true_2 by (try left; done). lia.
  - rewrite (Hne x) by done.
    rewrite (bool_decide_ext (a ∈ x :: l) (a ∈ l)); [lia |]. rewrite elem_of_cons. naive_solver.
Qed.

(** * Invocations: an error and state monad

    A contract function runs against a world [W] and either returns a value
    with the world it leaves or faults.  A fault carries no world: the Soroban
    host discards every write and event of an invocation that returns [Err] or
    panics (see [src/contracts/invoice_liquidity/src/access.rs], "Soroban
    transactions are atomic").  [Code e] is the contract error [e], whether it
    comes from [return Err(e)] or from [panic_with_error!]; [Panic] is any
    other trap (an [unwrap] on [None], [panic!], an arithmetic overflow, a
    failing [require_auth] or host call). *)

Inductive fault (E : Type) : Type :=
| Code (e : E)
| Panic.
Arguments Code {E} e.
Arguments Panic {E}.

Inductive outcome (W E A : Type) : Type :=
| Done (a : A) (w : W)
| Fault (f : fault E).
Arguments Done {W E A} a w.
Arguments Fault {W E A} f.

Definition M (W E A : Type) : Type := W → outcome W E A.

#[export] Instance M_ret W E : MRet (M W E) := λ A a w, Done a w.
#[export] Instance M_bind W E : MBind (M W E) := λ A B k m w,
  match m w with
  | Done a w' => k a w'
  | Fault f => Fault f
  end.

Definition throw {W E A} (e : E) : M W E A := λ _, Fault (Code e).
Definition panic {W E A} : M W E A := λ _, Fault Panic.
Definition reads {W E A} (f : W → A) : M W E A := λ w, Done (f w) w.
Definition modify {W E} (f : W → W) : M W E unit := λ w, Done tt (f w).

(** [if b { return Err(e) }] *)
Definition reject_if {W E} (b : bool) (e : E) : M W E unit :=
  if b then throw e else mret tt.
(** [o.ok_or(e)?] *)
Definition ok_or {W E A} (o : option A) (e : E) : M W E A :=
  match o with Some a => mret a | None => throw e end.
(** [o.unwrap()] *)
Definition unwrap {W E A} (o : option A) : M W E A :=
  match o with Some a => mret a | None => panic end.

(** [r.map_err(f)] *)
Definition map_err {W E E' A} (f : E → E') (m : M W E A) : M W E' A := λ w,
  match m w with
  | Done a w' => Done a w'
  | Fault (Code e) => Fault (Code (f e))
  | Fault Panic => Fault Panic
  end.

(** A [for] loop over a list, threading the world. *)
Fixpoint for_each {W E A} (xs : list A) (body : A → M W E unit) : M W E unit :=
  match xs with
  | [] => mret tt
  | x :: xs' => body x ;; for_each xs' body
  end.

(** A top-level invocation: the host commits the world of a [Done] and keeps
    the old one on a fault. *)
Definition commit {W E A} (m : M W E A) (w : W) : W :=
  match m w with Done _ w' => w' | Fault _ => w end.

(** Whether the invocation succeeds. *)
Definition succeeds {W E A} (m : M W E A) (w : W) : bool :=
  match m w with Done _ _ => true | Fault _ => false end.

Definition result_of {W E A} (m : M W E A) (w : W) : option A :=
  match m w with Done a _ => Some a | Fault _ => None end.

Definition fault_of {W E A} (m : M W E A) (w : W) : option (fault E) :=
  match m w with Done _ _ => None | Fault f => Some f end.

(** A run known to succeed, with the world it commits. *)
Lemma run_done {W E A} (m : M W E A) w a :
  result_of m w = Some a → m w = Done a (commit m w).
Proof. unfold result_of, commit. destruct (m w); naive_solver. Qed.

Lemma run_fault {W E A} (m : M W E A) w f : fault_of m w = Some f → m w = Fault f.
Proof. unfold fault_of. destruct (m w); naive_solver. Qed.

(** Inversion of successful runs. *)
Lemma bind_done {W E A B} (m : M W E A) (k : A → M W E B) w b w'' :
  (m ≫= k) w = Done b w'' ↔ ∃ a w', m w = Done a w' ∧ k a w' = Done b w''.
Proof.
  unfold mbind, M_bind. destruct (m w) as [a w' | f]; split.
  - intros H. eauto.
  - intros (a' & w1 & [= -> ->] & H). done.
  - done.
  - intros (? & ? & ? & _). done.
Qed.

(** Running a bind forwards. *)
Lemma done_bind {W E A B} (m : M W E A) (k : A → M W E B) w a w1 o :
  m w = Done a w1 → k a w1 = o → (m ≫= k) w = o.
Proof. intros Hm Hk. unfold mbind, M_bind. by rewrite Hm. Qed.

Lemma reject_pass {W E} (b : bool) (e : E) (w : W) :
  b = false → reject_if b e w = Done tt w.
Proof. by intros ->. Qed.
Lemma ok_or_pass {W E A} (o : option A) (e : E) a (w : W) :
  o = Some a → ok_or o e w = Done a w.
Proof. by intros ->. Qed.
Lemma unwrap_pass {W E A} (o : option A) a (w : W) :
  o = Some a → (unwrap o : M W E A) w = Done a w.
Proof. by intros ->. Qed.

Lemma ret_done {W E A} (a b : A) (w w' : W) :
  (mret a : M W E A) w = Done b w' ↔ b = a ∧ w' = w.
Proof. unfold mret, M_ret. naive_solver. Qed.

Lemma reject_if_done {W E} (c : bool) (e : E) (w w' : W) u :
  reject_if c e w = Done u w' ↔ c = false ∧ w' = w.
Proof.
  unfold reject_if, throw, mret, M_ret. destruct u. destruct c; naive_solver.
Qed.

Lemma ok_or_done {W E A} (o : option A) (e : E) a (w w' : W) :
  ok_or o e w = Done a w' ↔ o = Some a ∧ w' = w.
Proof. unfold ok_or, throw, mret, M_ret. destruct o; naive_solver. Qed.

Lemma unwrap_done {W E A} (o : option A) a (w w' : W) :
  (unwrap o : M W E A) w = Done a w' ↔ o = Some a ∧ w' = w.
Proof. unfold unwrap, panic, mret, M_ret. destruct o; naive_solver. Qed.

Lemma reads_done {W E A} (f : W → A) a (w w' : W) :
  (reads f : M W E A) w = Done a w' ↔ a = f w ∧ w' = w.
Proof. unfold reads. naive_solver. Qed.

Lemma modify_done {W E} (f : W → W) u (w w' : W) :
  (modify f : M W E unit) w = Done u w' ↔ w' = f w.
Proof. unfold modify. destruct u. naive_solver. Qed.

Lemma map_err_done {W E E' A} (f : E → E') (m : M W E A) a (w w' : W) :
  map_err f m w = Done a w' ↔ m w = Done a w'.
Proof. unfold map_err. repeat case_match; naive_solver. Qed.

Lemma throw_done {W E A} (e : E) (a : A) (w w' : W) :
  throw e w = Done a w' ↔ False.
Proof. unfold throw. naive_solver. Qed.

Lemma panic_done {W E A} (a : A) (w w' : W) :
  (panic : M W E A) w = Done a w' ↔ False.
Proof. unfold panic. naive_solver. Qed.

(** A relation between worlds that every step of a loop preserves is preserved
    by the loop. *)
Lemma for_each_rel {W E A} (R : W → W → Prop) (xs : list A) (body : A → M W E unit) :
  Reflexive R → Transitive R →
  (∀ x w w', x ∈ xs → body x w = Done tt w' → R w w') →
  ∀ w w', for_each xs body w = Done tt w' → R w w'.
Proof.
  intros Hr Ht. induction xs as [|x xs IH]; intros Hb w w'; simpl.
  - intros [_ ->]%ret_done. done.
  - intros ([] & w1 & H1 & H2)%bind_done.
    etrans; [eapply Hb; [left | done] |].
    apply IH; [| done]. intros y z z' Hy. apply Hb. by right.
Qed.

(** ** Relations kept by every successful run

    [keeps R m]: whenever [m] succeeds, the worlds before and after are related
    by the preorder [R].  The rules below make it compositional. *)
Definition keeps {W E A} (R : relation W) (m : M W E A) : Prop :=
  ∀ w a w', m w = Done a w' → R w w'.

(** A computation that never returns keeps everything. *)
Definition dead {W E A} (m : M W E A) : Prop := ∀ w a w', m w ≠ Done a w'.
Lemma dead_throw {W E A} (e : E) : dead (throw e : M W E A).
Proof. intros w a w' Hd. by apply throw_done in Hd. Qed.
Lemma dead_bind {W E A B} (m : M W E A) (k : A → M W E B) :
  (∀ a, dead (k a)) → dead (m ≫= k).
Proof. intros Hk w b w'' (a & w' & _ & H)%bind_done. by eapply Hk. Qed.
Lemma keeps_dead {W E A} R (m : M W E A) : dead m → keeps R m.
Proof. intros Hd w a w' H. by apply Hd in H. Qed.

Section keeps.
Context {W E : Type} (R : relation W) `{!PreOrder R}.

Lemma keeps_bind {A B} (m : M W E A) (k : A → M W E B) :
  keeps R m → (∀ a, keeps R (k a)) → keeps R (m ≫= k).
Proof. intros Hm Hk w b w'' (a & w' & H1 & H2)%bind_done. etrans; [by eapply Hm | by eapply Hk]. Qed.
Lemma keeps_ret {A} (a : A) : keeps R (mret a : M W E A).
Proof. by intros w b w' [_ ->]%ret_done. Qed.
Lemma keeps_throw {A} (e : E) : keeps R (throw e : M W E A).
Proof. by intros w b w' ?%throw_done. Qed.
Lemma keeps_panic {A} : keeps R (panic : M W E A).
Proof. by intros w b w' ?%panic_done. Qed.
Lemma keeps_reads {A} (f : W → A) : keeps R (reads f : M W E A).
Proof. by intros w b w' [_ ->]%reads_done. Qed.
Lemma keeps_reject_if (b : bool) (e : E) : keeps R (reject_if b e : M W E unit).
Proof. by intros w u w' [_ ->]%reject_if_done. Qed.
Lemma keeps_ok_or {A} (o : option A) (e : E) : keeps R (ok_or o e : M W E A).
Proof. by intros w a w' [_ ->]%ok_or_done. Qed.
Lemma keeps_unwrap {A} (o : option A) : keeps R (unwrap o : M W E A).
Proof. by intros w a w' [_ ->]%unwrap_done. Qed.
Lemma keeps_map_err {E' A} (f : E → E') (m : M W E A) : keeps R m → keeps R (map_err f m).
Proof. intros Hm w a w' ?%map_err_done. by eapply Hm. Qed.
Lemma keeps_for_each {A} (xs : list A) (body : A → M W E unit) :
  (∀ x, x ∈ xs → keeps R (body x)) → keeps R (for_each xs body).
Proof.
  intros Hb w [] w'. apply (for_each_rel R).
  - apply _.
  - apply _.
  - intros x w1 w2 Hx. by apply Hb.
Qed.
End keeps.

Create HintDb keeps.
#[export] Hint Resolve keeps_ret keeps_throw keeps_panic keeps_reads keeps_reject_if
  keeps_ok_or keeps_unwrap keeps_map_err : keeps.
