(* ===== verification/Host.v ===== *)
(** The Soroban host as the contracts see it: typed ledger storage, the ledger
    clock, [require_auth], the event log, and the Stellar Asset Contract (SAC)
    interface.  The SAC is not part of this repository: it is the parameter
    [TokenInterface], what the contracts rely on is [TokenLaws], and [Sac] is a
    concrete instance used by the witnesses. *)
From S2P Require Import Prelude.

(** * Typed storage

    A contract's ledger entries are keyed by its [DataKey] enum; [val k] is the
    type the source reads and writes under [k].  [env.storage().*.get(k)] is
    [get k], [set] is [put], [has] and [remove] keep their names.  Instance and
    persistent storage are one map, since no key is used in both.  Entry TTLs
    ([extend_ttl]) are not modelled: an entry lives until it is removed. *)

Class Schema (K : Type) : Type := {
  key_dec : EqDecision K;
  val : K → Type
}.
#[export] Existing Instance key_dec.

Definition storage (K : Type) `{Schema K} : Type := ∀ k : K, option (val k).

Definition st_empty {K} `{Schema K} : storage K := λ _, None.

Definition st_set {K} `{Schema K} (s : storage K) (k : K) (v : option (val k)) :
    storage K :=
  λ k', match decide (k = k') with
        | left e => eq_rect k (λ x, option (val x)) v k' e
        | right _ => s k'
        end.

Lemma st_set_eq {K} `{Schema K} (s : storage K) k v : st_set s k v k = v.
Proof.
  unfold st_set. destruct (decide (k = k)) as [e | n]; [| done].
  by rewrite (proof_irrel e eq_refl).
Qed.

Lemma st_set_ne {K} `{Schema K} (s : storage K) k k' v :
  k ≠ k' → st_set s k v k' = s k'.
Proof. intros. unfold st_set. by destruct (decide (k = k')). Qed.

(** * The world an invocation runs in *)

(** What changes from one invocation to the next: the addresses whose
    [require_auth] succeeds, the ledger's close time and its sequence number. *)
Record Ctx : Type := mkCtx {
  auth : Address → bool;
  now : Z;
  ledger_seq : Z
}.

(** [store]: this contract's entries; [ext]: every other contract;
    [events]: the log, newest first. *)
Record world (K X Ev : Type) `{Schema K} : Type := mkWorld {
  self : Address;
  ctx : Ctx;
  store : storage K;
  ext : X;
  events : list Ev
}.
Arguments mkWorld {K X Ev _} self ctx store ext events.
Arguments self {K X Ev _} w.
Arguments ctx {K X Ev _} w.
Arguments store {K X Ev _} w k.
Arguments ext {K X Ev _} w.
Arguments events {K X Ev _} w.

Definition with_ctx {K X Ev} `{Schema K} (c : Ctx) (w : world K X Ev) : world K X Ev :=
  mkWorld (self w) c (store w) (ext w) (events w).
Definition with_store {K X Ev} `{Schema K} (s : storage K) (w : world K X Ev) : world K X Ev :=
  mkWorld (self w) (ctx w) s (ext w) (events w).
Definition with_ext {K X Ev} `{Schema K} (x : X) (w : world K X Ev) : world K X Ev :=
  mkWorld (self w) (ctx w) (store w) x (events w).
Definition with_event {K X Ev} `{Schema K} (e : Ev) (w : world K X Ev) : world K X Ev :=
  mkWorld (self w) (ctx w) (store w) (ext w) (e :: events w).

Section ops.
Context {K X Ev E : Type} `{Schema K}.
Abbreviation W := (world K X Ev).

Definition get (k : K) : M W E (option (val k)) := reads (λ w, store w k).
(** [get(k).unwrap_or(d)] *)
Definition get_or (k : K) (d : val k) : M W E (val k) :=
  reads (λ w, default d (store w k)).
Definition has (k : K) : M W E bool := reads (λ w, bool_decide (is_Some (store w k))).
Definition put (k : K) (v : val k) : M W E unit :=
  modify (λ w, with_store (st_set (store w) k (Some v)) w).
Definition remove (k : K) : M W E unit :=
  modify (λ w, with_store (st_set (store w) k None) w).
Definition publish (e : Ev) : M W E unit := modify (with_event e).

Definition timestamp : M W E Z := reads (λ w, now (ctx w)).
Definition sequence : M W E Z := reads (λ w, ledger_seq (ctx w)).
Definition current_contract : M W E Address := reads self.

(** [a.require_auth()]: a failing authorization traps. *)
Definition require_auth (a : Address) : M W E unit := λ w,
  if auth (ctx w) a then Done tt w else Fault Panic.

(** A cross-contract call that must succeed: a failing callee traps. *)
Definition invoke {A} (f : X → option (A * X)) : M W E A := λ w,
  match f (ext w) with
  | Some (a, x) => Done a (with_ext x w)
  | None => Fault Panic
  end.

(** A [try_*] call: the host rolls the callee back and reports [None]. *)
Definition try_invoke {A} (f : X → option (A * X)) : M W E (option A) := λ w,
  match f (ext w) with
  | Some (a, x) => Done (Some a) (with_ext x w)
  | None => Done None w
  end.

Lemma get_done k v w w' : get k w = Done v w' ↔ v = store w k ∧ w' = w.
Proof. exact (reads_done _ _ _ _). Qed.
Lemma get_or_done k d v w w' : get_or k d w = Done v w' ↔ v = default d (store w k) ∧ w' = w.
Proof. exact (reads_done _ _ _ _). Qed.
Lemma has_done k b w w' :
  has k w = Done b w' ↔ b = bool_decide (is_Some (store w k)) ∧ w' = w.
Proof. exact (reads_done _ _ _ _). Qed.
Lemma put_done k v u w w' :
  put k v w = Done u w' ↔ w' = with_store (st_set (store w) k (Some v)) w.
Proof. exact (modify_done _ _ _ _). Qed.
Lemma remove_done k u w w' :
  remove k w = Done u w' ↔ w' = with_store (st_set (store w) k None) w.
Proof. exact (modify_done _ _ _ _). Qed.
Lemma publish_done e u w w' : publish e w = Done u w' ↔ w' = with_event e w.
Proof. exact (modify_done _ _ _ _). Qed.
Lemma timestamp_done t w w' : timestamp w = Done t w' ↔ t = now (ctx w) ∧ w' = w.
Proof. exact (reads_done _ _ _ _). Qed.
Lemma sequence_done t w w' :
  sequence w = Done t w' ↔ t = ledger_seq (ctx w) ∧ w' = w.
Proof. exact (reads_done _ _ _ _). Qed.
Lemma current_contract_done a w w' :
  current_contract w = Done a w' ↔ a = self w ∧ w' = w.
Proof. exact (reads_done _ _ _ _). Qed.
Lemma require_auth_done a u w w' :
  require_auth a w = Done u w' ↔ auth (ctx w) a = true ∧ w' = w.
Proof. unfold require_auth. destruct u, (auth (ctx w) a); naive_solver. Qed.
Lemma invoke_done {A} (f : X → option (A * X)) a w w' :
  invoke f w = Done a w' ↔ ∃ x, f (ext w) = Some (a, x) ∧ w' = with_ext x w.
Proof. unfold invoke. destruct (f (ext w)) as [[??]|]; naive_solver. Qed.
Lemma try_invoke_done {A} (f : X → option (A * X)) o w w' :
  try_invoke f w = Done o w' ↔
    (∃ a x, f (ext w) = Some (a, x) ∧ o = Some a ∧ w' = with_ext x w) ∨
    (f (ext w) = None ∧ o = None ∧ w' = w).
Proof. unfold try_invoke. destruct (f (ext w)) as [[??]|]; naive_solver. Qed.
End ops.

(** ** Automation

    [minv H] turns [H : m w = Done a w'] into the facts of the run: the guards
    that passed and the world left. *)

(** Inversions of a component's own helpers, added by that component with
    [Ltac minv_ext H ::= ...]. *)
Ltac minv_ext H := fail.

Ltac minv_atom H :=
  first
    [ minv_ext H
    | apply ret_done in H as [? ?]
    | apply reject_if_done in H as [? ?]
    | apply ok_or_done in H as [? ?]
    | apply unwrap_done in H as [? ?]
    | apply get_done in H as [? ?]
    | apply get_or_done in H as [? ?]
    | apply has_done in H as [? ?]
    | apply put_done in H
    | apply remove_done in H
    | apply publish_done in H
    | apply timestamp_done in H as [? ?]
    | apply sequence_done in H as [? ?]
    | apply current_contract_done in H as [? ?]
    | apply require_auth_done in H as [? ?]
    | apply invoke_done in H as (? & ? & ?)
    | apply map_err_done in H
    | apply throw_done in H; contradiction
    | apply panic_done in H; contradiction
    | apply reads_done in H as [? ?]
    | apply modify_done in H ].

Ltac minv_subst := repeat match goal with
  | H : ?x = _ |- _ => is_var x; subst x
  | H : _ = ?x |- _ => is_var x; subst x
  end.

Ltac minv_step H :=
  lazymatch type of H with
  | mbind _ _ _ = Done _ _ =>
      let a := fresh "a" in let w := fresh "w" in let Hm := fresh "Hm" in
      apply bind_done in H as (a & w & Hm & H);
      cbv beta in H; minv_loop Hm
  | (if ?b then _ else _) _ = Done _ _ => destruct b eqn:?
  | (match ?o with _ => _ end) _ = Done _ _ => destruct o eqn:?
  | (let _ := _ in _) _ = Done _ _ => cbv zeta in H
  | (if ?b then _ else _) = Done _ _ => destruct b eqn:?
  | (match ?o with _ => _ end) = Done _ _ => destruct o eqn:?
  | _ => minv_atom H; minv_subst
  end
with minv_loop H := repeat (progress (minv_step H; try (cbv beta in H))).

Ltac minv H := cbv beta in H; minv_loop H; simpl in *;
  repeat match goal with u : unit |- _ => destruct u end; try done.

(** [sto] reads stored entries back through a chain of updates. *)
Ltac sto := repeat (first
  [ rewrite st_set_eq
  | rewrite st_set_ne by (first [done | congruence | naive_solver]) ]; simpl).

Ltac sto_in H := repeat (first
  [ rewrite st_set_eq in H
  | rewrite st_set_ne in H by (first [done | congruence | naive_solver]) ]; simpl in H).

(** Running a bind forwards: [go] when the head computes. *)
Ltac go_by t := eapply done_bind; [t |].
Ltac go := go_by ltac:(reflexivity).

(** ** Frames

    [touches S]: an invocation keeps its address and context and every entry
    whose key is outside [S].  [quiet]: it leaves every other contract alone. *)
Section frames.
Context {K X Ev E : Type} `{Schema K}.
Abbreviation W := (world K X Ev).

Definition touches (S : K → bool) : relation W := λ w w',
  self w' = self w ∧ ctx w' = ctx w ∧ ∀ k, S k = false → store w' k = store w k.
Definition quiet : relation W := λ w w', ext w' = ext w.

#[export] Instance touches_preorder S : PreOrder (touches S).
Proof.
  split; [done |]. intros w1 w2 w3 (? & ? & H12) (? & ? & H23).
  repeat split; [congruence.. |]. intros k Hk. rewrite H23, H12; done.
Qed.
#[export] Instance quiet_preorder : PreOrder quiet.
Proof. split; unfold quiet; [done |]. intros ???. congruence. Qed.

(** [inner S]: both. *)
Definition inner (S : K → bool) : relation W := λ w w', touches S w w' ∧ quiet w w'.
#[export] Instance inner_preorder S : PreOrder (inner S).
Proof.
  split; [done |]. intros w1 w2 w3 [??] [??]. split; by etrans.
Qed.

Lemma keeps_get (R : relation W) `{!PreOrder R} k : keeps R (get k : M W E _).
Proof. by apply keeps_reads. Qed.
Lemma keeps_get_or (R : relation W) `{!PreOrder R} k d : keeps R (get_or k d : M W E _).
Proof. by apply keeps_reads. Qed.
Lemma keeps_has (R : relation W) `{!PreOrder R} k : keeps R (has k : M W E _).
Proof. by apply keeps_reads. Qed.
Lemma keeps_timestamp (R : relation W) `{!PreOrder R} : keeps R (timestamp : M W E _).
Proof. by apply keeps_reads. Qed.
Lemma keeps_sequence (R : relation W) `{!PreOrder R} : keeps R (sequence : M W E _).
Proof. by apply keeps_reads. Qed.
Lemma keeps_current_contract (R : relation W) `{!PreOrder R} :
  keeps R (current_contract : M W E _).
Proof. by apply keeps_reads. Qed.
Lemma keeps_require_auth (R : relation W) `{!PreOrder R} a :
  keeps R (require_auth a : M W E unit).
Proof. by intros w u w' [_ ->]%require_auth_done. Qed.

Lemma touches_put (S : K → bool) k v : S k = true → keeps (touches S) (put k v : M W E _).
Proof.
  intros HS w u w' ->%put_done. repeat split; simpl. intros k' Hk'.
  apply st_set_ne. congruence.
Qed.
Lemma touches_remove (S : K → bool) k : S k = true → keeps (touches S) (remove k : M W E _).
Proof.
  intros HS w u w' ->%remove_done. repeat split; simpl. intros k' Hk'.
  apply st_set_ne. congruence.
Qed.
Lemma touches_publish (S : K → bool) e : keeps (touches S) (publish e : M W E _).
Proof. by intros w u w' ->%publish_done. Qed.
Lemma touches_invoke (S : K → bool) {A} (f : X → option (A * X)) :
  keeps (touches S) (invoke f : M W E A).
Proof. intros w u w' (x & _ & ->)%invoke_done. done. Qed.
Lemma touches_try_invoke (S : K → bool) {A} (f : X → option (A * X)) :
  keeps (touches S) (try_invoke f : M W E (option A)).
Proof. by intros w u w' [(?&?&_&_&->) | (_&_&->)]%try_invoke_done. Qed.

Lemma quiet_put k v : keeps quiet (put k v : M W E _).
Proof. by intros w u w' ->%put_done. Qed.
Lemma quiet_remove k : keeps quiet (remove k : M W E _).
Proof. by intros w u w' ->%remove_done. Qed.
Lemma quiet_publish e : keeps quiet (publish e : M W E _).
Proof. by intros w u w' ->%publish_done. Qed.

Lemma inner_put (S : K → bool) k v : S k = true → keeps (inner S) (put k v : M W E _).
Proof. intros ? w u w' ?. split; [by eapply touches_put | by eapply quiet_put]. Qed.
Lemma inner_remove (S : K → bool) k : S k = true → keeps (inner S) (remove k : M W E _).
Proof. intros ? w u w' ?. split; [by eapply touches_remove | by eapply quiet_remove]. Qed.
Lemma inner_publish (S : K → bool) e : keeps (inner S) (publish e : M W E _).
Proof. intros w u w' ?. split; [by eapply touches_publish | by eapply quiet_publish]. Qed.
Lemma inner_touches (S : K → bool) {A} (m : M W E A) :
  keeps (inner S) m → keeps (touches S) m.
Proof. intros Hm w a w' Hr. apply (Hm _ _ _ Hr). Qed.
Lemma inner_quiet (S : K → bool) {A} (m : M W E A) : keeps (inner S) m → keeps quiet m.
Proof. intros Hm w a w' Hr. apply (Hm _ _ _ Hr). Qed.
Lemma touches_mono (S S' : K → bool) (w w' : W) :
  touches S w w' → (∀ k, S k = true → S' k = true) → touches S' w w'.
Proof.
  intros (? & ? & Hk) HS. repeat split; try done. intros k Hf. apply Hk.
  destruct (S k) eqn:E'; [| done]. apply HS in E'. congruence.
Qed.
Lemma touches_st_set (S : K → bool) (w : W) k v :
  S k = true → touches S w (with_store (st_set (store w) k v) w).
Proof.
  intros HS. repeat split; simpl. intros k' Hk'. apply st_set_ne. congruence.
Qed.
Lemma inner_mono (S S' : K → bool) {A} (m : M W E A) :
  keeps (inner S) m → (∀ k, S k = true → S' k = true) → keeps (inner S') m.
Proof.
  intros Hm HS w a w' Hr. destruct (Hm _ _ _ Hr). split; [by eapply touches_mono | done].
Qed.
End frames.

#[export] Hint Resolve inner_put inner_remove inner_publish : keeps.
#[export] Hint Extern 3 (keeps (touches _) _) => apply inner_touches : keeps.
#[export] Hint Resolve keeps_get keeps_get_or keeps_has keeps_timestamp keeps_sequence
  keeps_current_contract keeps_require_auth touches_put touches_remove touches_publish
  touches_invoke touches_try_invoke quiet_put quiet_remove quiet_publish : keeps.

(** [frame] proves [keeps R m] for an unfolded [m]: through binds, case
    distinctions and loops down to the [keeps] hints. *)
Ltac frame_step :=
  lazymatch goal with
  | |- ∀ _, _ => intro
  | |- keeps _ (mbind _ _) =>
      first [ apply keeps_dead; solve [repeat (apply dead_bind; intro); apply dead_throw]
            | apply keeps_bind; [apply _ | |] ]
  | |- keeps _ (let _ := _ in _) => cbv zeta
  | |- keeps _ (match ?o with _ => _ end) => destruct o
  | |- keeps _ (for_each _ _) => apply keeps_for_each; [apply _ |]
  | |- keeps _ (map_err _ _) => apply keeps_map_err
  | |- keeps _ _ => solve [eauto 6 with keeps typeclass_instances]
  end.
Ltac frame := repeat frame_step.

(** [through S H]: past the first operation of the run [H], which keeps the relation of
    [S : R w0 w]; afterwards [S] reaches the world it leaves.  [stretched] does the same
    for one run. *)
Ltac stretched S m Hm :=
  match type of S with ?R ?w0 _ =>
  match type of Hm with _ = Done _ ?w1 =>
    let K := fresh "K" in let S' := fresh "S" in
    assert (keeps R m) as K by frame;
    assert (R w0 w1) as S' by (etrans; [exact S | by apply K in Hm]);
    clear K Hm S; rename S' into S
  end end.
Ltac through S H :=
  let a := fresh "a" in let w1 := fresh "w" in let Hm := fresh "Hm" in
  apply bind_done in H as (a & w1 & Hm & H);
  match type of Hm with ?m _ = Done _ _ => stretched S m Hm end; cbv beta zeta in H.

(** * The Stellar Asset Contract interface *)

Class TokenInterface (X : Type) : Type := {
  tok_balance : X → Address → Address → Z;
  tok_transfer : X → Address → Address → Address → Z → option X;
  tok_decimals : X → Address → option Z;
  tok_authorized : X → Address → Address → option bool;
  tok_admin : X → Address → option Address;
  tok_mint : X → Address → Address → Z → option X
}.

(** What the SAC documents (SEP-41, CAP-46-6): a transfer moves exactly the
    amount, which must be non-negative and covered; it changes neither any
    other balance nor the authorization flags; a mint adds exactly the amount. *)
Class TokenLaws (X : Type) `{TokenInterface X} : Prop := {
  transfer_covered x x' t a b n :
    tok_transfer x t a b n = Some x' → 0 ≤ n ≤ tok_balance x t a;
  transfer_balance x x' t a b n t' h :
    tok_transfer x t a b n = Some x' →
    tok_balance x' t' h = tok_balance x t' h
      - (if bool_decide (t' = t ∧ h = a) then n else 0)
      + (if bool_decide (t' = t ∧ h = b) then n else 0);
  transfer_authorized x x' t a b n t' h :
    tok_transfer x t a b n = Some x' → tok_authorized x' t' h = tok_authorized x t' h;
  mint_balance x x' t a n t' h :
    tok_mint x t a n = Some x' →
    tok_balance x' t' h = tok_balance x t' h
      + (if bool_decide (t' = t ∧ h = a) then n else 0);
  mint_nonneg x x' t a n : tok_mint x t a n = Some x' → 0 ≤ n
}.

(** [token.transfer(from, to, amount)] on an external state. *)
Definition ext_transfer {X} `{TokenInterface X} (t a b : Address) (n : Z) (x : X) :
    option (unit * X) :=
  x' ← tok_transfer x t a b n; Some (tt, x').

(** ** A reference SAC *)
Module Sac.
Record t : Type := mk {
  balances : gmap (Address * Address) Z;
  frozen : gset (Address * Address);
  admins : gmap Address Address;
  decimals : gmap Address Z
}.

Definition balance (x : t) (tok a : Address) : Z :=
  default 0 (balances x !! (tok, a)).

Definition credit (x : t) (tok a : Address) (n : Z) : t :=
  mk (<[(tok, a) := balance x tok a + n]> (balances x)) (frozen x) (admins x) (decimals x).

Definition transfer (x : t) (tok a b : Address) (n : Z) : option t :=
  if (n <? 0) || (balance x tok a <? n)
     || bool_decide ((tok, a) ∈ frozen x) || bool_decide ((tok, b) ∈ frozen x)
  then None
  else Some (credit (credit x tok a (- n)) tok b n).

Definition mint (x : t) (tok a : Address) (n : Z) : option t :=
  if n <? 0 then None else Some (credit x tok a n).

Definition authorized (x : t) (tok a : Address) : option bool :=
  Some (negb (bool_decide ((tok, a) ∈ frozen x))).
End Sac.

#[export] Instance Sac_token : TokenInterface Sac.t := {|
  tok_balance := Sac.balance;
  tok_transfer := Sac.transfer;
  tok_decimals := λ x t, Sac.decimals x !! t;
  tok_authorized := Sac.authorized;
  tok_admin := λ x t, Sac.admins x !! t;
  tok_mint := Sac.mint
|}.

Lemma Sac_balance_credit x tok a n tok' h :
  Sac.balance (Sac.credit x tok a n) tok' h =
    Sac.balance x tok' h + (if bool_decide (tok' = tok ∧ h = a) then n else 0).
Proof.
  unfold Sac.balance, Sac.credit; simpl. rewrite lookup_insert.
  case_decide; case_bool_decide; simplify_eq/=; naive_solver lia.
Qed.

#[export] Instance Sac_laws : TokenLaws Sac.t.
Proof.
  split; simpl; unfold Sac.transfer, Sac.mint.
  - intros. case_match eqn:Hc; [done |]. simplify_eq.
    rewrite !orb_false_iff, !Z.ltb_ge in Hc. lia.
  - intros. case_match; [done |]. simplify_eq.
    rewrite !Sac_balance_credit. repeat case_bool_decide; lia.
  - intros. case_match; [done |]. by simplify_eq.
  - intros. case_match; [done |]. simplify_eq. apply Sac_balance_credit.
  - intros. case_match eqn:Hc; [done |]. rewrite Z.ltb_ge in Hc. lia.
Qed.
