(* ===== verification/Distribution.v ===== *)
(** The reward distribution contract, [src/contracts/iln_distribution/src/lib.rs]:
    accrual of LP volume and settlements, governance-set reward rates, and
    claims that mint the governance token. *)
From S2P Require Import Prelude Host.

Module Distribution.

Definition HALF_TOKEN : Z := 5000000.
Definition HUNDRED_USDC_STROOPS : Z := 1000000000.
Definition DEFAULT_LP_REWARD_RATE : Z := 10000000.
Definition DEFAULT_FREELANCER_REWARD_RATE : Z := HALF_TOKEN.
Definition DEFAULT_PAYER_REWARD_RATE : Z := HALF_TOKEN.
Definition MAX_LP_ACCRUAL_PER_CALL : Z := 10000000000000.

Inductive DistributionError := AlreadyInitialized.

Inductive StorageKey :=
| Initialized
| IlnContract
| GovToken
| LpFundedVolume (a : Address)
| FreelancerSettled (a : Address)
| PayerOnTimeSettled (a : Address)
| Claimed (a : Address)
| LpRewardRate
| FreelancerRewardRate
| PayerRewardRate.

#[export] Instance StorageKey_eq_dec : EqDecision StorageKey.
Proof. solve_decision. Defined.

Definition entry (k : StorageKey) : Type :=
  match k with
  | Initialized => bool
  | IlnContract | GovToken => Address
  | _ => Z
  end.

#[export] Instance schema : Schema StorageKey := {| val := entry |}.

Inductive Event :=
| ContractInitialized (iln_contract gov_token : Address)
| LpVolumeAccrued (lp : Address) (amount_usdc_equivalent : Z)
| SettlementAccrued (freelancer payer : Address) (settled_on_time : bool)
| TokensClaimed (claimer : Address) (amount : Z)
| RewardRateUpdated (rate_type : Symbol) (old_rate new_rate : Z).

(** Entries with their [unwrap_or] default. *)
Definition entry_or (s : storage StorageKey) (k : StorageKey) (d : entry k) : entry k :=
  default d (s k).

Definition get_lp_reward_rate (s : storage StorageKey) : Z :=
  entry_or s LpRewardRate DEFAULT_LP_REWARD_RATE.
Definition get_freelancer_reward_rate (s : storage StorageKey) : Z :=
  entry_or s FreelancerRewardRate DEFAULT_FREELANCER_REWARD_RATE.
Definition get_payer_reward_rate (s : storage StorageKey) : Z :=
  entry_or s PayerRewardRate DEFAULT_PAYER_REWARD_RATE.

(** [total_earned] (and its public view [get_accrual]) reads three counters and
    three rates and combines them with saturating [i128] arithmetic. *)
Definition total_earned (s : storage StorageKey) (participant : Address) : Z :=
  let lp_volume : Z := entry_or s (LpFundedVolume participant) 0 in
  let freelancer_settled : Z := entry_or s (FreelancerSettled participant) 0 in
  let payer_on_time : Z := entry_or s (PayerOnTimeSettled participant) 0 in
  let lp_reward := sat_i128 (lp_volume ÷ HUNDRED_USDC_STROOPS * get_lp_reward_rate s) in
  let freelancer_reward := sat_i128 (freelancer_settled * get_freelancer_reward_rate s) in
  let payer_reward := sat_i128 (payer_on_time * get_payer_reward_rate s) in
  sat_i128 (sat_i128 (lp_reward + freelancer_reward) + payer_reward).

Definition claimed (s : storage StorageKey) (p : Address) : Z := entry_or s (Claimed p) 0.

Section contract.
Context {X : Type} `{TokenInterface X}.

Abbreviation W := (world StorageKey X Event).
Abbreviation C := (M W DistributionError).

Definition require_iln_invoker : C unit :=
  iln_contract ← (get IlnContract ≫= unwrap);
  require_auth iln_contract.

Definition require_governance_invoker : C unit :=
  iln_contract ← (get IlnContract ≫= unwrap);
  require_auth iln_contract.

Definition require_gov_token_mint_authority (gov_token : Address) : C unit :=
  admin ← (reads (λ w : W, tok_admin (ext w) gov_token) ≫= unwrap);
  me ← current_contract;
  if bool_decide (admin = me) then mret tt else panic.

Definition initialize (iln_contract gov_token : Address) : C unit :=
  done ← has Initialized;
  reject_if done AlreadyInitialized;;
  require_gov_token_mint_authority gov_token;;
  put Initialized true;;
  put IlnContract iln_contract;;
  put GovToken gov_token;;
  put LpRewardRate DEFAULT_LP_REWARD_RATE;;
  put FreelancerRewardRate DEFAULT_FREELANCER_REWARD_RATE;;
  put PayerRewardRate DEFAULT_PAYER_REWARD_RATE;;
  publish (ContractInitialized iln_contract gov_token).

Definition verify_mint_authority : C bool :=
  gov_token ← (get GovToken ≫= unwrap);
  admin ← (reads (λ w : W, tok_admin (ext w) gov_token) ≫= unwrap);
  me ← current_contract;
  mret (bool_decide (admin = me)).

Definition accrue_lp (lp : Address) (amount_usdc_equivalent : Z) : C unit :=
  require_iln_invoker;;
  if (amount_usdc_equivalent <=? 0) || (MAX_LP_ACCRUAL_PER_CALL <? amount_usdc_equivalent)
  then mret tt
  else
    current ← get (LpFundedVolume lp);
    put (LpFundedVolume lp) (sat_i128 (default 0 current + amount_usdc_equivalent));;
    publish (LpVolumeAccrued lp amount_usdc_equivalent).

Definition accrue_settlement (freelancer payer : Address) (settled_on_time : bool) : C unit :=
  require_iln_invoker;;
  freelancer_count ← get (FreelancerSettled freelancer);
  put (FreelancerSettled freelancer) (sat_u64 (default 0 freelancer_count + 1));;
  (if settled_on_time then
     payer_count ← get (PayerOnTimeSettled payer);
     put (PayerOnTimeSettled payer) (sat_u64 (default 0 payer_count + 1))
   else mret tt);;
  publish (SettlementAccrued freelancer payer settled_on_time).

Definition claim_tokens (claimer : Address) : C Z :=
  require_auth claimer;;
  total ← reads (λ w : W, total_earned (store w) claimer);
  already_claimed ← reads (λ w : W, claimed (store w) claimer);
  let claimable := sat_i128 (total - already_claimed) in
  if claimable <=? 0 then mret 0
  else
    gov_token ← (get GovToken ≫= unwrap);
    invoke (λ x, x' ← tok_mint x gov_token claimer claimable; Some (tt, x'));;
    put (Claimed claimer) (sat_i128 (already_claimed + claimable));;
    publish (TokensClaimed claimer claimable);;
    mret claimable.

Definition set_lp_reward_rate (new_rate : Z) : C unit :=
  require_governance_invoker;;
  old_rate ← reads (λ w : W, get_lp_reward_rate (store w));
  put LpRewardRate new_rate;;
  publish (RewardRateUpdated "lp_reward" old_rate new_rate).

Definition set_freelancer_reward_rate (new_rate : Z) : C unit :=
  require_governance_invoker;;
  old_rate ← reads (λ w : W, get_freelancer_reward_rate (store w));
  put FreelancerRewardRate new_rate;;
  publish (RewardRateUpdated "freelancer_reward" old_rate new_rate).

Definition set_payer_reward_rate (new_rate : Z) : C unit :=
  require_governance_invoker;;
  old_rate ← reads (λ w : W, get_payer_reward_rate (store w));
  put PayerRewardRate new_rate;;
  publish (RewardRateUpdated "payer_reward" old_rate new_rate).

(** ** Traces of invocations *)

(** The state-changing entry points. *)
Inductive Call :=
| Initialize (iln_contract gov_token : Address)
| AccrueLp (lp : Address) (amount : Z)
| AccrueSettlement (freelancer payer : Address) (on_time : bool)
| ClaimTokens (claimer : Address)
| SetLpRewardRate (r : Z)
| SetFreelancerRewardRate (r : Z)
| SetPayerRewardRate (r : Z).

Definition exec (c : Call) : C unit :=
  match c with
  | Initialize i g => initialize i g
  | AccrueLp lp n => accrue_lp lp n
  | AccrueSettlement f p b => accrue_settlement f p b
  | ClaimTokens a => _ ← claim_tokens a; mret tt
  | SetLpRewardRate r => set_lp_reward_rate r
  | SetFreelancerRewardRate r => set_freelancer_reward_rate r
  | SetPayerRewardRate r => set_payer_reward_rate r
  end.

(** Each invocation runs in its own ledger context; a faulting one is rolled
    back. *)
Fixpoint run (tr : list (Ctx * Call)) (w : W) : W :=
  match tr with
  | [] => w
  | (c, call) :: tr' => run tr' (commit (exec call) (with_ctx c w))
  end.

(** The largest [total_earned] seen in any state of the trace, and at least 0. *)
Fixpoint high_water (p : Address) (tr : list (Ctx * Call)) (w : W) : Z :=
  Z.max (Z.max 0 (total_earned (store w) p))
    match tr with
    | [] => 0
    | (c, call) :: tr' => high_water p tr' (commit (exec call) (with_ctx c w))
    end.

(** ** What one invocation does *)

Lemma total_earned_range s p : i128_min ≤ total_earned s p ≤ i128_max.
Proof. unfold total_earned. apply sat_range. done. Qed.

(** A claim that pays raises [Claimed] to exactly [total_earned] and mints the
    difference; one that does not pay changes nothing. *)
Lemma claim_tokens_spec claimer n (w w' : W) :
  0 ≤ claimed (store w) claimer →
  claim_tokens claimer w = Done n w' →
  (n = 0 ∧ w' = w ∧ total_earned (store w) claimer ≤ claimed (store w) claimer) ∨
  (∃ gov x', store w GovToken = Some gov ∧
     n = total_earned (store w) claimer - claimed (store w) claimer ∧ 0 < n ∧
     tok_mint (ext w) gov claimer n = Some x' ∧ ext w' = x' ∧ self w' = self w ∧
     store w' = st_set (store w) (Claimed claimer)
                  (Some (total_earned (store w) claimer))).
Proof.
  intros Hpos Hc. pose proof (total_earned_range (store w) claimer) as Hr.
  unfold claim_tokens in Hc. minv Hc.
  - left. rewrite Z.leb_le in *. unfold sat in *. repeat split; try done.
    assert (i128_min ≤ 0) by done. lia.
  - right. rewrite Z.leb_gt in *.
    assert (sat_i128 (total_earned (store w) claimer - claimed (store w) claimer)
            = total_earned (store w) claimer - claimed (store w) claimer) as Heq.
    { apply sat_id. unfold sat in *. assert (i128_min ≤ 0) by done. lia. }
    rewrite Heq in *. unfold mbind, option_bind in *. case_match; simplify_eq.
    eexists _, _. repeat split; try done.
    rewrite sat_id by lia. by rewrite Zplus_minus.
Qed.

(** Every other entry point leaves the claim ledger and the token alone. *)
Definition is_claim (c : Call) : bool :=
  match c with ClaimTokens _ => true | _ => false end.

Lemma exec_non_claim c (w w' : W) :
  is_claim c = false → exec c w = Done tt w' →
  ext w' = ext w ∧ self w' = self w ∧ ∀ p, claimed (store w') p = claimed (store w) p.
Proof.
  intros Hc. unfold claimed, entry_or.
  destruct c; try done; simpl; intros Hx;
    unfold initialize, accrue_lp, accrue_settlement, set_lp_reward_rate,
      set_freelancer_reward_rate, set_payer_reward_rate, require_iln_invoker,
      require_governance_invoker, require_gov_token_mint_authority in Hx;
    minv Hx; repeat split; intros; by sto.
Qed.

(** Once the contract is initialized its token address is fixed. *)
Lemma exec_gov_token c (w w' : W) :
  is_Some (store w Initialized) → exec c w = Done tt w' →
  is_Some (store w' Initialized) ∧ store w' GovToken = store w GovToken.
Proof.
  intros Hi Hx. destruct c; simpl in Hx;
    unfold initialize, accrue_lp, accrue_settlement, claim_tokens, set_lp_reward_rate,
      set_freelancer_reward_rate, set_payer_reward_rate, require_iln_invoker,
      require_governance_invoker in Hx;
    minv Hx; try (split; by sto).
  rewrite bool_decide_eq_false in *. done.
Qed.

(** A participant's minted balance and claim ledger across one invocation. *)
Lemma exec_claimed `{!TokenLaws X} c (w w' : W) (gov p : Address) :
  is_Some (store w Initialized) → store w GovToken = Some gov →
  (∀ a, 0 ≤ claimed (store w) a) →
  exec c w = Done tt w' →
  (∀ a, 0 ≤ claimed (store w') a) ∧
  claimed (store w) p ≤ claimed (store w') p ≤
    Z.max (claimed (store w) p) (total_earned (store w) p) ∧
  tok_balance (ext w') gov p - tok_balance (ext w) gov p
    = claimed (store w') p - claimed (store w) p.
Proof.
  intros Hi Hg Hpos Hx. destruct (is_claim c) eqn:Hc.
  2: { apply exec_non_claim in Hx as (-> & _ & Hcl); [| done].
       rewrite Hcl. split; [intros a; rewrite Hcl; apply Hpos | lia]. }
  destruct c as [| | |claimer| | |]; try done; simpl in Hx.
  apply bind_done in Hx as (n & w1 & Hx & [_ ->]%ret_done).
  apply claim_tokens_spec in Hx as [(_ & -> & _) | Hx]; [| | done].
  { repeat split; try lia. done. }
  destruct Hx as (gov' & x' & Hg' & -> & Hn & Hm & Hext & _ & Hst). simplify_eq.
  assert (∀ a, claimed (store w1) a =
    if decide (claimer = a) then total_earned (store w) a else claimed (store w) a) as Hcl.
  { intros a. unfold claimed, entry_or. rewrite Hst. case_decide; subst; by sto. }
  pose proof (Hpos claimer). rewrite !Hcl, (mint_balance _ _ _ _ _ _ _ Hm).
  split; [intros a; rewrite Hcl; case_decide; subst; [lia | apply Hpos] |].
  case_decide; case_bool_decide; naive_solver lia.
Qed.

End contract.

(** ** Reward conservation (invariant D1 of docs/formal-verification-distribution.md) *)
Section conservation.
Context {X : Type} `{TokenLaws X}.
Abbreviation W := (world StorageKey X Event).

Definition unclaimed (w : W) : Prop := ∀ p, store w (Claimed p) = None.

Lemma commit_claimed c (call : Call) (w : W) (gov p : Address) :
  is_Some (store w Initialized) → store w GovToken = Some gov →
  (∀ a, 0 ≤ claimed (store w) a) →
  let w' := commit (exec call) (with_ctx c w) in
  is_Some (store w' Initialized) ∧ store w' GovToken = Some gov ∧
  (∀ a, 0 ≤ claimed (store w') a) ∧
  claimed (store w) p ≤ claimed (store w') p ≤
    Z.max (claimed (store w) p) (total_earned (store w) p) ∧
  tok_balance (ext w') gov p - tok_balance (ext w) gov p
    = claimed (store w') p - claimed (store w) p.
Proof.
  intros Hi Hg Hpos. simpl. unfold commit.
  destruct (exec call (with_ctx c w)) as [[] w'|f] eqn:Hx.
  2: { repeat split; try done; simpl; lia. }
  pose proof (exec_gov_token _ (with_ctx c w) _ Hi Hx) as [? Hg'].
  pose proof (exec_claimed _ (with_ctx c w) _ gov p Hi Hg Hpos Hx) as (? & ? & ?). simpl in *.
  rewrite Hg'. done.
Qed.

Lemma run_claimed tr : ∀ (w : W) (gov p : Address),
  is_Some (store w Initialized) → store w GovToken = Some gov →
  (∀ a, 0 ≤ claimed (store w) a) →
  claimed (store w) p ≤ claimed (store (run tr w)) p ≤
    Z.max (claimed (store w) p) (high_water p tr w) ∧
  tok_balance (ext (run tr w)) gov p - tok_balance (ext w) gov p
    = claimed (store (run tr w)) p - claimed (store w) p.
Proof.
  induction tr as [|[c call] tr IH]; intros w gov p Hi Hg Hpos; cbn [run high_water].
  { lia. }
  destruct (commit_claimed c call w gov p Hi Hg Hpos) as (Hi' & Hg' & Hpos' & Hle & Hb).
  destruct (IH _ _ p Hi' Hg' Hpos') as [Hle' Hb']. lia.
Qed.

(** C1: Rewards are conserved under every interleaving of initialization
    attempts, accruals, settlements, rate changes and claims, by any callers in
    any ledgers: from an initialized contract on which nothing was claimed, the
    governance tokens minted to a participant equal the contract's claim
    ledger, and never exceed the highest [total_earned] the participant had in
    any state of the trace (or zero). *)
Theorem claims_bounded_by_high_water tr (w : W) (gov p : Address) :
  is_Some (store w Initialized) → store w GovToken = Some gov → unclaimed w →
  tok_balance (ext (run tr w)) gov p - tok_balance (ext w) gov p
    = claimed (store (run tr w)) p ∧
  0 ≤ claimed (store (run tr w)) p ≤ high_water p tr w.
Proof.
  intros Hi Hg Hu.
  assert (∀ a, claimed (store w) a = 0) as Hz
    by (intros a; unfold claimed, entry_or; by rewrite Hu).
  assert (0 ≤ high_water p tr w) by (destruct tr as [|[]]; simpl; lia).
  destruct (run_claimed tr w gov p Hi Hg) as [Hle Hb].
  { intros a. rewrite Hz. lia. }
  rewrite Hz in *. lia.
Qed.

(** A claim is idempotent: right after a successful claim a second claim by
    the same participant returns 0 and leaves the whole world unchanged. *)
Theorem second_claim_pays_nothing claimer n (w w' : W) :
  0 ≤ claimed (store w) claimer →
  claim_tokens claimer w = Done n w' →
  claim_tokens claimer w' = Done 0 w'.
Proof.
  intros Hpos Hc.
  assert (auth (ctx w') claimer = true ∧
          total_earned (store w') claimer ≤ claimed (store w') claimer) as [Ha Hle].
  { pose proof Hc as Hc'. apply claim_tokens_spec in Hc' as [(_ & -> & ?) | Hx]; [| | done].
    - split; [| done]. unfold claim_tokens in Hc. by minv Hc.
    - destruct Hx as (gov & x' & Hg & -> & Hn & _ & _ & _ & Hst).
      split; [unfold claim_tokens in Hc; by minv Hc |].
      rewrite Hst. unfold claimed, entry_or at 1. rewrite st_set_eq. simpl.
      unfold total_earned, get_lp_reward_rate, get_freelancer_reward_rate,
        get_payer_reward_rate, entry_or. by sto. }
  unfold claim_tokens, mbind, M_bind, require_auth, reads. rewrite Ha. simpl.
  rewrite (proj2 (Z.leb_le _ 0)); [done |].
  unfold sat. assert (i128_min ≤ 0) by done. assert (0 ≤ i128_max) by done. lia.
Qed.

End conservation.
End Distribution.

(** * Concrete runs *)
Module DistributionExamples.
Import Distribution.

Definition iln : Address := 1%N.
Definition gov : Address := 2%N.
Definition dist : Address := 3%N.
Definition lp : Address := 7%N.

Definition blank : world StorageKey Sac.t Event :=
  mkWorld dist (mkCtx (λ _, true) 100 10) st_empty
    (Sac.mk ∅ ∅ {[ gov := dist ]} ∅) [].

Definition deployed : world StorageKey Sac.t Event := commit (initialize iln gov) blank.

Definition by_iln : Ctx := mkCtx (λ a, bool_decide (a = iln)) 200 20.
Definition by_lp : Ctx := mkCtx (λ a, bool_decide (a = lp)) 300 30.

(** Two accruals, a claim, a rate cut and a claim that no longer pays. *)
Definition trace : list (Ctx * Call) :=
  [ (by_iln, AccrueLp lp HUNDRED_USDC_STROOPS);
    (by_lp, AccrueLp lp HUNDRED_USDC_STROOPS);
    (by_iln, AccrueLp lp (MAX_LP_ACCRUAL_PER_CALL + 1));
    (by_lp, ClaimTokens lp);
    (by_iln, SetLpRewardRate 1);
    (by_lp, ClaimTokens lp) ].

Lemma claims_bounded_by_high_water_witness :
  claimed (store (run trace deployed)) lp = 10000000 ∧
  total_earned (store (run trace deployed)) lp = 1 ∧
  tok_balance (ext (run trace deployed)) gov lp - tok_balance (ext deployed) gov lp
    = claimed (store (run trace deployed)) lp ∧
  0 ≤ claimed (store (run trace deployed)) lp ≤ high_water lp trace deployed.
Proof.
  split; [vm_compute; reflexivity |]. split; [vm_compute; reflexivity |].
  apply (claims_bounded_by_high_water trace deployed gov lp).
  - vm_compute. eexists. reflexivity.
  - vm_compute. reflexivity.
  - intros p. reflexivity.
Defined.

(** An LP with 250 USDC of funded volume. *)
Definition earned : world StorageKey Sac.t Event :=
  with_ctx by_lp (run [ (by_iln, AccrueLp lp 2500000000) ] deployed).
Definition paid : world StorageKey Sac.t Event := commit (claim_tokens lp) earned.

Lemma second_claim_pays_nothing_witness :
  claim_tokens lp earned = Done 20000000 paid ∧
  claim_tokens lp paid = Done 0 paid.
Proof.
  assert (claim_tokens lp earned = Done 20000000 paid) as Hc
    by (apply run_done; vm_compute; reflexivity).
  split; [exact Hc |].
  apply (second_claim_pays_nothing lp 20000000 earned paid); [| exact Hc].
  vm_compute. discriminate.
Defined.

End DistributionExamples.
