(* ===== verification/Peers.v ===== *)
(** The contracts the escrow contract calls besides tokens: the distribution
    contract, the insurance pool and the oracles.  Oracles are outside the
    repository; the distribution contract and the pool are modelled in their own
    files and enter here only through what the escrow contract relies on. *)
From S2P Require Import Prelude Host.

(** [OracleVerificationResponse] of [lib.rs]. *)
Record OracleVerificationResponse := mkOracleResponse {
  is_verified : bool;
  timestamp_of : Z
}.

Class Peers (X : Type) : Type := {
  dist_accrue_lp : Address → Address → Z → X → option (unit * X);
  dist_accrue_settlement : Address → Address → Address → bool → X → option (unit * X);
  pool_is_enrolled : Address → Address → X → option (bool * X);
  pool_claim : Address → Z → Address → X → option (Z * X);
  oracle_get_payer_data : Address → Address → X → option (OracleVerificationResponse * X);
  oracle_interface_version : Address → X → option (Z * X);
  oracle_get_price : Address → Address → X → option (Z * X)
}.

(** What the escrow contract at address [me] relies on: a call to another
    contract cannot move [me]'s tokens (a transfer from [me] needs [me]'s
    authorization, which a contract gives only to the calls it makes itself). *)
Definition spares {X A} `{TokenInterface X} (me : Address) (f : X → option (A * X)) : Prop :=
  ∀ x a x' t, f x = Some (a, x') → tok_balance x t me ≤ tok_balance x' t me.

Class PeerLaws (X : Type) `{TokenInterface X} `{Peers X} (me : Address) : Prop := {
  accrue_lp_spares d lp n : spares me (dist_accrue_lp d lp n);
  accrue_settlement_spares d f p b : spares me (dist_accrue_settlement d f p b);
  is_enrolled_spares p lp : spares me (pool_is_enrolled p lp);
  pool_claim_spares p i lp : spares me (pool_claim p i lp);
  payer_data_spares o p : spares me (oracle_get_payer_data o p);
  interface_version_spares o : spares me (oracle_interface_version o);
  get_price_spares o t : spares me (oracle_get_price o t)
}.
