(* ===== verification/Twap.v ===== *)
(** Time-weighted average prices: the windowed average of
    [src/contracts/invoice_liquidity/src/twap.rs], the stand-alone accumulator of
    [twap_accumulator.rs] and the discount rule of [rate_logic.rs]. *)
From S2P Require Import Prelude Host.

(** * [twap.rs] *)
Record TwapSample := mkSample {
  sm_timestamp : Z;
  sm_price : Z
}.

Definition MAX_TWAP_SAMPLES : Z := 100.

(** The overlap of the pair [s1], [s2] with the window, when it is not skipped. *)
Definition overlap (s1 s2 : TwapSample) (window_start current_time : Z) : option (Z * Z) :=
  if (sm_timestamp s2 <? window_start) || (current_time <? sm_timestamp s1) then None
  else
    let seg_start := Z.max (sm_timestamp s1) window_start in
    let seg_end := Z.min (sm_timestamp s2) current_time in
    if seg_start <? seg_end then Some (seg_start, seg_end) else None.

(** One round of the loop; [s1.price + s2.price] is checked ([None] is a trap). *)
Definition twap_segment (s1 s2 : TwapSample) (window_start current_time : Z) (acc : Z * Z) :
    option (Z * Z) :=
  match overlap s1 s2 window_start current_time with
  | None => Some acc
  | Some (seg_start, seg_end) =>
      sum ← chk_i128 (sm_price s1 + sm_price s2);
      let duration := seg_end - seg_start in
      let avg_price := sum ÷ 2 in
      Some (sat_i128 (acc.1 + sat_i128 (avg_price * duration)), sat_u64 (acc.2 + duration))
  end.

(** [for i in 0..(n - 1)]: consecutive pairs. *)
Fixpoint twap_loop (samples : list TwapSample) (window_start current_time : Z) (acc : Z * Z) :
    option (Z * Z) :=
  match samples with
  | s1 :: ((s2 :: _) as rest) =>
      acc ← twap_segment s1 s2 window_start current_time acc;
      twap_loop rest window_start current_time acc
  | _ => Some acc
  end.

(** The outer [None] is a trap, the inner one the function's [None]. *)
Definition twap_average (samples : list TwapSample) (window_start current_time : Z) :
    option (option Z) :=
  if (vlen samples <? 2) || (current_time <=? window_start) then Some None
  else
    acc ← twap_loop samples window_start current_time (0, 0);
    let (total_weighted, total_weight) := acc : Z * Z in
    Some (if 0 <? total_weight then Some (total_weighted ÷ total_weight) else None).

(** [push_back], then [remove(0)] while longer than the cap. *)
Definition push_sample (samples : list TwapSample) (sample : TwapSample) (max_samples : Z) :
    list TwapSample :=
  let cap := if max_samples =? 0 then MAX_TWAP_SAMPLES else max_samples in
  let pushed := samples ++ [sample] in
  drop (Z.to_nat (vlen pushed - cap)) pushed.

(** * [rate_logic.rs]: the result is always [Ok] *)
Inductive RateError := ArithmeticUnderflow | ArithmeticOverflow.

Definition calculate_effective_rate (base_rate_bps reputation_score high_rep_threshold bonus_bps
    min_discount_rate_bps : Z) : Z + RateError :=
  if high_rep_threshold <=? reputation_score then
    let reduced_rate := sat_u32 (base_rate_bps - bonus_bps) in
    inl (Z.max reduced_rate min_discount_rate_bps)
  else inl (Z.max base_rate_bps min_discount_rate_bps).

(** * [twap_accumulator.rs] *)
Module Accumulator.

Definition MAX_OBSERVATIONS : Z := 50.
Definition MIN_OBSERVATION_INTERVAL_SECS : Z := 60.

Record TWAPState := mkState {
  accumulated_price : Z;
  observation_count : Z;
  window_start_timestamp : Z;
  last_update_timestamp : Z;
  last_ledger_sequence : Z
}.

Inductive TWAPError :=
| NegativePrice | MonotonicOrderViolation | InsufficientObservationInterval
| MaxObservationsExceeded.

Inductive DataKeyTWAP := State (token : Address).
#[export] Instance DataKeyTWAP_eq_dec : EqDecision DataKeyTWAP.
Proof. solve_decision. Defined.
#[export] Instance twap_schema : Schema DataKeyTWAP := {| val := λ _, TWAPState |}.

Section accumulator.
Context {X Ev : Type}.
Abbreviation IO := (M (world DataKeyTWAP X Ev) TWAPError).

Definition get_twap_state (token : Address) : IO (option TWAPState) := get (State token).
Definition set_twap_state (token : Address) (state : TWAPState) : IO unit :=
  put (State token) state.

Definition initial_state (current_timestamp : Z) : TWAPState :=
  mkState 0 0 current_timestamp current_timestamp 0.

(** The state one observation later. *)
Definition accumulate (state : TWAPState) (price current_timestamp current_ledger_sequence : Z) :
    TWAPState :=
  let time_delta := sat_u64 (current_timestamp - last_update_timestamp state) in
  let price_delta := sat_i128 (price * time_delta) in
  mkState (sat_i128 (accumulated_price state + price_delta))
    (Z.min (sat_u32 (observation_count state + 1)) MAX_OBSERVATIONS)
    (window_start_timestamp state) current_timestamp current_ledger_sequence.

Definition record_observation (token : Address) (price current_timestamp
    current_ledger_sequence : Z) : IO TWAPState :=
  reject_if (price <? 0) NegativePrice;;
  s ← get_twap_state token;
  let state := default (initial_state current_timestamp) s in
  reject_if (current_ledger_sequence <=? last_ledger_sequence state) MonotonicOrderViolation;;
  next ← unwrap (chk_u64 (last_update_timestamp state + MIN_OBSERVATION_INTERVAL_SECS));
  reject_if (current_timestamp <? next) InsufficientObservationInterval;;
  let state := accumulate state price current_timestamp current_ledger_sequence in
  set_twap_state token state;;
  mret state.

Definition get_twap (token : Address) (lookback_seconds : Z) : IO Z :=
  s ← get_twap_state token;
  match s with
  | None => mret 0
  | Some state =>
      current_timestamp ← timestamp;
      let window_start := sat_u64 (current_timestamp - lookback_seconds) in
      if last_update_timestamp state <? window_start then mret 0
      else if lookback_seconds =? 0 then mret 0
      else mret (sat_i128 (accumulated_price state ÷ lookback_seconds))
  end.
End accumulator.
End Accumulator.
