(* ===== verification/CoreTypes.v ===== *)
(** Data model of the escrow contract [src/contracts/invoice_liquidity/src]:
    its errors, records, storage keys ([storage.rs] [DataKey]) and events. *)
From S2P Require Import Prelude Host Twap.

(** * Errors ([errors.rs])

    The last block lists the variants that the sources name but [errors.rs]
    does not declare. *)
Module Err.
Inductive ContractError :=
| InvoiceNotFound | AlreadyFunded | AlreadyPaid | NotFunded | Unauthorized
| InvalidAmount | InvalidDiscountRate | InvalidDueDate | InvoiceDefaulted
| NothingToClaim | NotYetDefaulted | OverfundingRejected | InvoiceExpired
| BatchTooLarge | AlreadyCancelled | AlreadyInitialized | AlreadyAppealed
| AppealWindowClosed | NotDefaulted | AlreadyInQueue | NotApprovedFunder
| InvoiceAppealed | AlreadyDisputed | NotDisputed | InvoiceDisputed
| ContractPaused | DueDateTooSoon | DueDateTooFar | SelfInvoice
| OverpaymentRejected | PayerReputationTooLow | ArithmeticOverflow
| FeeOnTransferToken | PayerUnverified | OracleDataStale | AmountTooSmall
| Reentrancy | RateLimited | QueueNotMature | IncompatibleInterfaceVersion
| OracleCircuitOpen | NoPriceSource | AllPriceSourcesRejected
| MaxInvoiceAmountExceeded | GlobalVolumeCapExceeded | InvalidTwapWindow
| QueueFull | QueueNotStalled
| AccountFrozen | AlreadySigned | DuplicateProposal | FunderIndexOutOfBounds
| InsufficientContractBalance | InvalidDecayRate | InvalidIdentityQuorum
| InvalidMultisigConfig | InvalidRepThreshold | InvalidTokenDecimals
| MultisigAlreadyConfigured | MultisigNotConfigured | NotAuthorizedSigner
| OracleDuplicateUpdate | OracleTimestampRegression | ProposalAlreadyExecuted
| ProposalExpired | ProposalNotFound | QueueIndexOutOfBounds
| QueueStateArchived | RotationAlreadyPending | RotationNotFound
| RotationTimelockNotExpired | ThresholdNotReached
| TokenAuthorizationUnavailable | TokenDecimalsNotConfigured
| TokenDecimalsUnavailable | TooManyFeeTiers | TooManyIdentityOracles
| InsufficientTwapObservations | TooManyPriceSources
| RollbackUnsafe.
End Err.
Abbreviation ContractError := Err.ContractError.

(** * Constants ([constants.rs], [lib.rs]) *)
Definition MAX_DISCOUNT_RATE : Z := 5000.
Definition DEFAULT_PAYER_SCORE : Z := 50.
Definition DEFAULT_LP_SCORE : Z := 50.
Definition TOP_PAYERS_CAPACITY : Z := 50.
Definition DEFAULT_RATE_LIMIT_LEDGERS : Z := 120.
Definition ADMIN_CHANGE_COOLDOWN_LEDGERS : Z := 720.
Definition ECONOMIC_PARAM_COOLDOWN_LEDGERS : Z := 360.
Definition MAX_REPUTATION_DECAY_PERIODS : Z := 1000.
Definition QUEUE_DELAY_LEDGERS : Z := 120.
Definition MAX_FUND_QUEUE_LEN : Z := 50.
Definition QUEUE_RESOLUTION_TTL_LEDGERS : Z := 720.
Definition NEAR_EXPIRY_WINDOW_SECS : Z := 60 * 60 * 24.
Definition APPEAL_WINDOW_SECONDS : Z := 30 * 24 * 60 * 60.
Definition MIN_INVOICE_DURATION : Z := 24 * 60 * 60.
Definition MAX_INVOICE_DURATION : Z := 365 * 24 * 60 * 60.
Definition DEFAULT_MAX_ORACLE_AGE_LEDGERS : Z := 17280.

(** * Invoices ([invoice.rs]) *)
Module Status.
Inductive InvoiceStatus :=
| Pending | Funded | PartiallyFunded | Paid | Defaulted | Appealed | Disputed
| Expired | Cancelled.
#[export] Instance InvoiceStatus_eq_dec : EqDecision InvoiceStatus.
Proof. solve_decision. Defined.
End Status.
Export (hints) Status.
Abbreviation InvoiceStatus := Status.InvoiceStatus.

Inductive ReferralCode :=
| NoReferral
| Present (code : BytesN32).

Record Invoice := mkInvoice {
  i_id : Z;
  i_freelancer : Address;
  i_payer : Address;
  i_token : Address;
  i_amount : Z;
  i_due_date : Z;
  i_discount_rate : Z;
  i_status : InvoiceStatus;
  i_funder : option Address;
  i_funded_at : option Z;
  i_amount_funded : Z;
  i_amount_paid : Z;
  i_referral_code : ReferralCode;
  i_submitter_reputation : Z
}.

(** The hot and cold halves of the split storage format. *)
Record InvoiceCore := mkInvoiceCore {
  c_id : Z;
  c_freelancer : Address;
  c_payer : Address;
  c_token : Address;
  c_amount : Z;
  c_due_date : Z;
  c_discount_rate : Z;
  c_status : InvoiceStatus;
  c_amount_funded : Z;
  c_amount_paid : Z
}.

Record InvoiceMetadata := mkInvoiceMetadata {
  m_funder : option Address;
  m_funded_at : option Z;
  m_referral_code : ReferralCode;
  m_submitter_reputation : Z
}.

Definition to_core (i : Invoice) : InvoiceCore :=
  mkInvoiceCore (i_id i) (i_freelancer i) (i_payer i) (i_token i) (i_amount i)
    (i_due_date i) (i_discount_rate i) (i_status i) (i_amount_funded i) (i_amount_paid i).

Definition to_metadata (i : Invoice) : InvoiceMetadata :=
  mkInvoiceMetadata (i_funder i) (i_funded_at i) (i_referral_code i)
    (i_submitter_reputation i).

Definition with_metadata (c : InvoiceCore) (m : InvoiceMetadata) : Invoice :=
  mkInvoice (c_id c) (c_freelancer c) (c_payer c) (c_token c) (c_amount c)
    (c_due_date c) (c_discount_rate c) (c_status c) (m_funder m) (m_funded_at m)
    (c_amount_funded c) (c_amount_paid c) (m_referral_code m) (m_submitter_reputation m).

(** Field updates ([invoice.status = ...] and the like). *)
Definition set_status (s : InvoiceStatus) (i : Invoice) : Invoice :=
  mkInvoice (i_id i) (i_freelancer i) (i_payer i) (i_token i) (i_amount i)
    (i_due_date i) (i_discount_rate i) s (i_funder i) (i_funded_at i)
    (i_amount_funded i) (i_amount_paid i) (i_referral_code i) (i_submitter_reputation i).
Definition set_terms (amount due_date discount_rate : Z) (i : Invoice) : Invoice :=
  mkInvoice (i_id i) (i_freelancer i) (i_payer i) (i_token i) amount
    due_date discount_rate (i_status i) (i_funder i) (i_funded_at i)
    (i_amount_funded i) (i_amount_paid i) (i_referral_code i) (i_submitter_reputation i).
Definition set_token (token : Address) (i : Invoice) : Invoice :=
  mkInvoice (i_id i) (i_freelancer i) (i_payer i) token (i_amount i)
    (i_due_date i) (i_discount_rate i) (i_status i) (i_funder i) (i_funded_at i)
    (i_amount_funded i) (i_amount_paid i) (i_referral_code i) (i_submitter_reputation i).
Definition set_freelancer (freelancer : Address) (i : Invoice) : Invoice :=
  mkInvoice (i_id i) freelancer (i_payer i) (i_token i) (i_amount i)
    (i_due_date i) (i_discount_rate i) (i_status i) (i_funder i) (i_funded_at i)
    (i_amount_funded i) (i_amount_paid i) (i_referral_code i) (i_submitter_reputation i).
Definition set_funding (funder : option Address) (funded_at : option Z) (i : Invoice) : Invoice :=
  mkInvoice (i_id i) (i_freelancer i) (i_payer i) (i_token i) (i_amount i)
    (i_due_date i) (i_discount_rate i) (i_status i) funder funded_at
    (i_amount_funded i) (i_amount_paid i) (i_referral_code i) (i_submitter_reputation i).
Definition set_amount_funded (n : Z) (i : Invoice) : Invoice :=
  mkInvoice (i_id i) (i_freelancer i) (i_payer i) (i_token i) (i_amount i)
    (i_due_date i) (i_discount_rate i) (i_status i) (i_funder i) (i_funded_at i)
    n (i_amount_paid i) (i_referral_code i) (i_submitter_reputation i).
Definition set_amount_paid (n : Z) (i : Invoice) : Invoice :=
  mkInvoice (i_id i) (i_freelancer i) (i_payer i) (i_token i) (i_amount i)
    (i_due_date i) (i_discount_rate i) (i_status i) (i_funder i) (i_funded_at i)
    (i_amount_funded i) n (i_referral_code i) (i_submitter_reputation i).

Record InvoiceParams := mkInvoiceParams {
  p_freelancer : Address;
  p_payer : Address;
  p_amount : Z;
  p_due_date : Z;
  p_discount_rate : Z;
  p_token : Address;
  p_referral_code : ReferralCode
}.

Record ReputationScore := mkReputationScore {
  rs_score : Z;
  rs_last_activity_ledger : Z
}.

Record ReputationProfile := mkReputationProfile {
  rp_address : Address;
  rp_invoices_submitted : Z;
  rp_invoices_paid : Z;
  rp_invoices_defaulted : Z;
  rp_score : Z
}.

Record AppealRecord := mkAppealRecord {
  ap_evidence_hash : BytesN32;
  ap_appealed_at : Z;
  ap_pre_default_score : Z
}.

Record DisputeRecord := mkDisputeRecord {
  di_reason_hash : BytesN32;
  di_disputed_at : Z
}.

Record TopPayerEntry := mkTopPayerEntry { tp_address : Address; tp_score : Z }.
Record LpFundRequest := mkLpFundRequest { lr_lp : Address; lr_score : Z }.

(** * Configuration ([config.rs]), audit log ([access.rs]), NFTs ([nft.rs]) *)
Record Config := mkConfig {
  high_rep_threshold : Z;
  bonus_bps : Z;
  min_discount_rate_bps : Z;
  decay_rate_bps : Z;
  decay_period_ledgers : Z;
  dispute_timeout_ledgers : Z;
  xlm_sac_address : Address;
  usdc_sac_address : Address;
  eurc_sac_address : Address;
  price_oracle : option Address;
  max_oracle_age_ledgers : Z
}.

Record AdminActionRecord := mkAdminActionRecord {
  aa_seq : Z;
  aa_action : Symbol;
  aa_admin : Address;
  aa_ledger : Z;
  aa_timestamp : Z
}.

Record InvoiceNftMetadata := mkNft {
  nft_invoice_id : Z;
  nft_amount : Z;
  nft_due_date : Z;
  nft_discount_rate : Z;
  nft_token : Address;
  nft_owner : Address;
  nft_minted_at : Z
}.

(** * Oracle registry ([oracle_registry.rs]) *)
Inductive OracleFeedType := Price | Identity | Credit.
#[export] Instance OracleFeedType_eq_dec : EqDecision OracleFeedType.
Proof. solve_decision. Defined.

Record OracleHealthStatus := mkHealth {
  oh_oracle : Address;
  oh_last_checked_ledger : Z;
  oh_last_data_timestamp : Z;
  oh_last_data_age_ledgers : Z;
  oh_is_stale : bool;
  oh_consecutive_stale_count : Z;
  oh_consecutive_duplicate_count : Z
}.

Record CircuitRecoveryState := mkRecovery {
  cr_tripped_oracle : Address;
  cr_consecutive_healthy : Z;
  cr_first_healthy_ledger : Z
}.

(** * Multisig ([multisig.rs]) *)
Inductive AdminAction :=
| Pause
| Unpause
| RemoveToken (token : Address)
| SetFeeRate (rate : Z)
| SetMaxDiscount (rate : Z)
| UpdateMultisig (new_signers : list Address) (new_threshold : Z)
| RotateSigner (old_signer new_signer : Address).
#[export] Instance AdminAction_eq_dec : EqDecision AdminAction.
Proof. solve_decision. Defined.

Record MultisigAdmin := mkMultisigAdmin { ms_signers : list Address; ms_threshold : Z }.

Inductive ProposalState := PPending | PExecuted | PExpired.
#[export] Instance ProposalState_eq_dec : EqDecision ProposalState.
Proof. solve_decision. Defined.

Record MultisigProposal := mkProposal {
  pr_id : Z;
  pr_action : AdminAction;
  pr_signers_approved : list Address;
  pr_state : ProposalState;
  pr_expires_at : Z
}.

Record PendingRotation := mkRotation {
  ro_old_signer : Address;
  ro_new_signer : Address;
  ro_effective_at : Z
}.

(** [RollbackRehearsalReport] of [events.rs]. *)
Record RollbackRehearsalReport := mkRollbackReport {
  invoices_checked : Z;
  split_format_count : Z;
  legacy_format_count : Z;
  orphaned_count : Z;
  rollback_safe : bool
}.

(** * Storage keys ([storage.rs])

    The key of the queue tie-score margin, which no entry point uses, is left out. *)
Module Key.
Inductive DataKey :=
| Admin
| Config
| FeeRate
| MaxDiscountRate
| DistributionContract
| Paused
| MinPayerReputation
| NextInvoiceId
| AdminActionCount
| MaxInvoiceAmount
| Invoice (id : Z)
| InvoiceCore (id : Z)
| InvoiceMetadata (id : Z)
| InvoiceCount
| PayerScore (a : Address)
| InvoiceFunders (id : Z)
| ApprovedToken (t : Address)
| TokenList
| TokenDecimals (t : Address)
| Reputation (a : Address)
| Appeal (id : Z)
| PreDefaultPayerScore (id : Z)
| LpScore (a : Address)
| FundQueue (id : Z)
| QueueResolution (id : Z)
| FundQueueOpenedAt (id : Z)
| QueueResolvedAt (id : Z)
| AdminActionLog (slot : Z)
| TotalInvoices
| TotalFunded
| TotalPaid
| TotalVolumeUsdc
| TotalVolumeEurc
| TotalVolumeXlm
| TokenVolume (t : Address)
| TokenVolumeCap (t : Address)
| ReferralCount (code : BytesN32)
| Dispute (id : Z)
| SubmitterInvoices (a : Address)
| LpInvoices (a : Address)
| TopPayersHeap
| InvoiceNft (id : Z)
| InvoiceNftOwner (id : Z)
| FeeTiers
| StorageVersion
| ReentrancyLock
| RateLimit (fn_name : Symbol)
| OracleRegistry (f : OracleFeedType)
| TokenOracle (f : OracleFeedType) (t : Address)
| OracleHealth (f : OracleFeedType) (t : Address)
| InsurancePool
| OracleInterfaceVersion (f : OracleFeedType)
| OracleCircuitTripped (f : OracleFeedType) (t : Address)
| OracleCircuitRecovery (f : OracleFeedType) (t : Address)
| IdentityOracles (f : OracleFeedType)
| IdentityQuorum
| PriceSources (f : OracleFeedType)
| MaxPriceDeviationBps
| TwapEnabled (f : OracleFeedType)
| TwapWindowLedgers
| MinTwapObservations
| TwapSamples (f : OracleFeedType) (t : Address)
| MultisigAdmin
| MultisigProposal (id : Z)
| NextProposalId
| PendingActionProposal (action : AdminAction)
| PendingSignerRotation
| LastPauseTimestamp
| PendingPayout (recipient token : Address)
| PendingPayoutTotal (token : Address).
End Key.
Abbreviation DataKey := Key.DataKey.

#[export] Instance DataKey_eq_dec : EqDecision DataKey.
Proof. solve_decision. Defined.

(** The type stored under each key. *)
Definition entry (k : DataKey) : Type :=
  match k with
  | Key.Admin | Key.DistributionContract | Key.InsurancePool => Address
  | Key.Config => CoreTypes.Config
  | Key.Paused | Key.ApprovedToken _ | Key.ReentrancyLock => bool
  | Key.Invoice _ => CoreTypes.Invoice
  | Key.InvoiceCore _ => CoreTypes.InvoiceCore
  | Key.InvoiceMetadata _ => CoreTypes.InvoiceMetadata
  | Key.PayerScore _ => ReputationScore
  | Key.InvoiceFunders _ => list (Address * Z)
  | Key.TokenList => list Address
  | Key.Reputation _ => ReputationProfile
  | Key.Appeal _ => AppealRecord
  | Key.Dispute _ => DisputeRecord
  | Key.FundQueue _ => list LpFundRequest
  | Key.QueueResolution _ => Address
  | Key.AdminActionLog _ => AdminActionRecord
  | Key.SubmitterInvoices _ | Key.LpInvoices _ => list Z
  | Key.TopPayersHeap => list TopPayerEntry
  | Key.InvoiceNft _ => InvoiceNftMetadata
  | Key.InvoiceNftOwner _ => Address
  | Key.FeeTiers => list (Z * Z)
  | Key.OracleRegistry _ | Key.TokenOracle _ _ => Address
  | Key.OracleHealth _ _ => OracleHealthStatus
  | Key.OracleCircuitTripped _ _ => bool
  | Key.OracleCircuitRecovery _ _ => CircuitRecoveryState
  | Key.IdentityOracles _ | Key.PriceSources _ => list Address
  | Key.TwapEnabled _ => bool
  | Key.TwapSamples _ _ => list TwapSample
  | Key.MultisigAdmin => CoreTypes.MultisigAdmin
  | Key.MultisigProposal _ => CoreTypes.MultisigProposal
  | Key.PendingSignerRotation => PendingRotation
  | _ => Z
  end.

#[export] Instance DataKey_schema : Schema DataKey := {| val := entry |}.

(** * Events ([events.rs])

    One constructor per event struct, with its fields in the source's order.
    The topics of a published event repeat its name and some of these fields. *)
Module Ev.
Inductive Event :=
| RollbackRehearsalCompleted (admin : Address) (report : RollbackRehearsalReport) (timestamp : Z)
| SignerRotationScheduled (old_signer new_signer : Address) (effective_at : Z)
| SignerRotationFinalized (old_signer new_signer : Address)
| SignerRotationCancelled (old_signer new_signer : Address)
| OracleRegistered (feed_type : OracleFeedType) (token : option Address) (oracle : Address)
| OracleUnregistered (feed_type : OracleFeedType) (token : option Address)
| OracleHealthRecorded (feed_type : OracleFeedType) (token : Address) (is_stale : bool)
    (last_data_age_ledgers consecutive_stale_count consecutive_duplicate_count : Z)
| OracleCircuitTripped (feed_type : OracleFeedType) (token : Address)
    (consecutive_stale_count : Z)
| OracleCircuitReset (feed_type : OracleFeedType) (token : Address)
| OracleCircuitRecovered (feed_type : OracleFeedType) (token : Address)
    (healthy_observations elapsed_ledgers : Z)
| IdentityOracleAdded (feed_type : OracleFeedType) (oracle : Address)
| IdentityOracleRemoved (feed_type : OracleFeedType) (oracle : Address)
| OracleFeederDisagreement (feed_type : OracleFeedType) (token : Address)
    (verified_count required_quorum total_oracles : Z)
| OracleDataStaleRejected (feed_type : OracleFeedType) (token oracle : Address)
    (data_timestamp age_ledgers max_age_ledgers : Z)
| PriceSourceAdded (feed_type : OracleFeedType) (oracle : Address)
| PriceSourceRemoved (feed_type : OracleFeedType) (oracle : Address)
| PriceOutlierRejected (feed_type : OracleFeedType) (token oracle : Address)
    (reported_price median_price deviation_bps : Z)
| TwapEnabledForFeed (feed_type : OracleFeedType) (enabled : bool)
| TwapWindowUpdated (old_window new_window : Z)
| TwapInsufficientData (feed_type : OracleFeedType) (token : Address)
    (observations min_required : Z)
| InsuranceClaimAttempted (invoice_id : Z) (lp : Address) (compensated : bool) (payout : Z)
| TokenAdded (token : Address) (decimals : Z)
| TokenDecimalsCorrected (token : Address) (old_decimals new_decimals : Z)
    (updated_by : Address)
| PayoutEscrowed (invoice_id : Z) (recipient token : Address) (amount total_pending : Z)
| PendingPayoutClaimed (recipient token : Address) (amount : Z)
| TokenRemoved (token : Address)
| InvoiceSubmitted (invoice_id : Z) (freelancer payer token : Address)
    (amount due_date discount_rate : Z) (referral_code : ReferralCode)
    (status : InvoiceStatus) (timestamp : Z)
| InvoiceUpdated (invoice_id : Z) (freelancer payer token : Address)
    (amount due_date discount_rate : Z) (status : InvoiceStatus)
| InvoiceFunded (invoice_id : Z) (funder freelancer payer token : Address)
    (fund_amount amount_funded invoice_amount due_date discount_rate : Z)
    (funded_at : option Z) (status : InvoiceStatus) (lp : Address)
    (effective_yield_bps timestamp : Z)
| InvoicePaid (invoice_id : Z) (payer lp freelancer token : Address)
    (amount_paid lp_earned lp_payout settlement_timestamp : Z) (paid_on_time : bool)
    (status : InvoiceStatus)
| InvoicePartiallyPaid (invoice_id : Z) (payer : Address)
    (amount_paid_now total_amount_paid remaining_amount : Z)
| ContractPaused (timestamp : Z)
| ContractUnpaused (timestamp : Z)
| InvoiceDefaulted (invoice_id : Z) (funder freelancer payer token : Address)
    (amount due_date defaulted_at discount_amount : Z) (status : InvoiceStatus)
| InvoiceTransferred (invoice_id : Z) (old_freelancer new_freelancer : Address)
    (status : InvoiceStatus)
| InvoiceCancelled (invoice_id : Z) (freelancer : Address) (status : InvoiceStatus)
| LPPositionTransferred (invoice_id : Z) (old_lp new_lp : Address) (status : InvoiceStatus)
| AdminChanged (old_admin new_admin : Address) (timestamp : Z)
| ParameterUpdated (param_name : Symbol) (old_value new_value : Z) (updated_by : Address)
| DistributionContractUpdated (old_distribution_contract : option Address)
    (new_distribution_contract updated_by : Address)
| PriceOracleUpdated (old_oracle : option Address) (new_oracle updated_by : Address)
| ContractInitialized (admin usdc_token eurc_token xlm_token : Address) (timestamp : Z)
| DefaultAppealed (invoice_id : Z) (payer : Address) (evidence_hash : BytesN32)
    (appealed_at : Z)
| AppealResolved (invoice_id : Z) (payer : Address) (upheld : bool) (resolved_at : Z)
| InvoiceDisputed (invoice_id : Z) (payer : Address) (reason_hash : BytesN32)
    (disputed_at : Z)
| DisputeResolved (invoice_id : Z) (resolution_hash : BytesN32) (resolution resolved_at : Z)
| DisputeUpheldPayerRefund (invoice_id : Z) (payer : Address) (amount : Z)
| FundRequested (invoice_id : Z) (lp : Address) (score : Z)
| FundQueueEntryDisplaced (invoice_id : Z) (displaced_lp : Address) (displaced_score : Z)
    (new_lp : Address) (new_score : Z)
| FundQueueTieBroken (invoice_id tied_count winner_index : Z) (approved_lp : Address)
| FundQueueResolved (invoice_id : Z) (approved_lp : Address) (score : Z)
| FundQueueResolutionAttempted (invoice_id caller_ledger attempted_at_ledger : Z)
    (success : bool)
| FundQueueRecovered (invoice_id : Z) (evicted_lp : option Address) (remaining_lps : Z)
    (purged : bool)
| InvoiceExpired (invoice_id : Z) (freelancer : Address) (status : InvoiceStatus)
| ReputationUpdated (address : Address)
    (old_score new_score invoices_submitted invoices_paid invoices_defaulted : Z)
| InvoiceTokenChanged (invoice_id : Z) (old_token new_token : Address)
| InvoiceNftMinted (invoice_id : Z) (owner : Address) (amount due_date timestamp : Z)
| InvoiceNftTransferred (invoice_id : Z) (from to : Address) (timestamp : Z)
| InvoiceNftBurned (invoice_id : Z) (owner : Address) (timestamp : Z)
| FeeTiersUpdated (count : Z)
| Migrated (old_version new_version timestamp : Z).
End Ev.
Abbreviation Event := Ev.Event.
