(* ===== verification/TopPayers.v ===== *)
(** The bounded leaderboard of payers, [src/contracts/invoice_liquidity/src/top_payers.rs]:
    a binary min-heap of at most 50 entries kept in a vector and updated on
    every payer score change. *)
From S2P Require Import Prelude Host CoreTypes.

Definition parent_index (index : Z) : Z := sat_u32 (index - 1) ÷ 2.
Definition left_child (index : Z) : Z := sat_u32 (sat_u32 (index * 2) + 1).
Definition right_child (index : Z) : Z := sat_u32 (sat_u32 (index * 2) + 2).
Definition entry_score (e : TopPayerEntry) : Z := tp_score e.

(** The two loops take fuel; [None] is a trap or an exhausted fuel.  The callers
    below supply the vector's length plus one, which
    [sift_up_total] and [sift_down_total] show to be enough. *)
Fixpoint sift_up (fuel : nat) (heap : list TopPayerEntry) (index : Z) :
    option (list TopPayerEntry) :=
  match fuel with
  | O => None
  | S fuel =>
      if 0 <? index then
        let parent := parent_index index in
        current ← vget heap index;
        parent_entry ← vget heap parent;
        if entry_score parent_entry <=? entry_score current then Some heap
        else
          heap ← vset heap parent current;
          heap ← vset heap index parent_entry;
          sift_up fuel heap parent
      else Some heap
  end.

(** One comparison of [sift_down]: the smaller of [smallest] and [child]. *)
Definition pick_smaller (heap : list TopPayerEntry) (smallest child : Z) : option Z :=
  if child <? vlen heap then
    child_entry ← vget heap child;
    smallest_entry ← vget heap smallest;
    Some (if entry_score child_entry <? entry_score smallest_entry then child else smallest)
  else Some smallest.

Fixpoint sift_down (fuel : nat) (heap : list TopPayerEntry) (index : Z) :
    option (list TopPayerEntry) :=
  match fuel with
  | O => None
  | S fuel =>
      smallest ← pick_smaller heap index (left_child index);
      smallest ← pick_smaller heap smallest (right_child index);
      if smallest =? index then Some heap
      else
        current ← vget heap index;
        swap_entry ← vget heap smallest;
        heap ← vset heap index swap_entry;
        heap ← vset heap smallest current;
        sift_down fuel heap smallest
  end.

(** [for i in 0..len { if heap[i].address == payer { ...; break } }] *)
Fixpoint find_payer (heap : list TopPayerEntry) (payer : Address) (i : Z) : option Z :=
  match heap with
  | [] => None
  | e :: heap' => if bool_decide (tp_address e = payer) then Some i
                  else find_payer heap' payer (i + 1)
  end.

Definition remove_payer_from_heap (heap : list TopPayerEntry) (payer : Address) :
    option (list TopPayerEntry) :=
  match find_payer heap payer 0 with
  | None => Some heap
  | Some index =>
      let last_index := sat_u32 (vlen heap - 1) in
      heap ← (if index =? last_index then Some heap
              else last ← vget heap last_index; vset heap index last);
      let heap := pop_back heap in
      if index <? vlen heap then
        current ← vget heap index;
        moved_up ← (if 0 <? index then
                      parent_entry ← vget heap (parent_index index);
                      Some (entry_score current <? entry_score parent_entry)
                    else Some false);
        if (moved_up : bool) then sift_up (S (length heap)) heap index
        else sift_down (S (length heap)) heap index
      else Some heap
  end.

Definition insert_into_heap (heap : list TopPayerEntry) (payer : Address) (score : Z) :
    option (list TopPayerEntry) :=
  let e := mkTopPayerEntry payer score in
  if vlen heap <? TOP_PAYERS_CAPACITY then
    let heap := heap ++ [e] in
    sift_up (S (length heap)) heap (sat_u32 (vlen heap - 1))
  else
    min_entry ← vget heap 0;
    if score <=? tp_score min_entry then Some heap
    else
      heap ← vset heap 0 e;
      sift_down (S (length heap)) heap 0.

(** [get_top_payers]: [take] rounds of selecting the best unused index. *)
Fixpoint best_unused (heap : list TopPayerEntry) (used : list Z) (i : Z)
    (best : option (Z * TopPayerEntry)) : option (Z * TopPayerEntry) :=
  match heap with
  | [] => best
  | candidate :: heap' =>
      let best' :=
        if bool_decide (i ∈ used) then best
        else match best with
             | None => Some (i, candidate)
             | Some (_, best_entry) =>
                 if tp_score best_entry <? tp_score candidate then Some (i, candidate)
                 else best
             end in
      best_unused heap' used (i + 1) best'
  end.

Fixpoint select_top (rounds : nat) (heap : list TopPayerEntry) (used : list Z) :
    list TopPayerEntry :=
  match rounds with
  | O => []
  | S rounds =>
      match best_unused heap used 0 None with
      | None => []
      | Some (index, e) => e :: select_top rounds heap (used ++ [index])
      end
  end.

Definition top_payers_of (heap : list TopPayerEntry) (limit : Z) : list TopPayerEntry :=
  if (vlen heap =? 0) || (limit =? 0) then []
  else select_top (Z.to_nat (Z.min limit (vlen heap))) heap [].

Section contract.
Context {X : Type}.
Abbreviation IO := (M (world DataKey X Event) ContractError).

Definition get_top_payers_heap : IO (list TopPayerEntry) :=
  get_or Key.TopPayersHeap [].

Definition save_top_payers_heap (heap : list TopPayerEntry) : IO unit :=
  match heap with
  | [] =>
      b ← has Key.TopPayersHeap;
      if (b : bool) then remove Key.TopPayersHeap else mret tt
  | _ => put Key.TopPayersHeap heap
  end.

Definition update_top_payers_on_score_change (payer : Address) (new_score : Z) : IO unit :=
  heap ← get_top_payers_heap;
  heap ← unwrap (remove_payer_from_heap heap payer);
  heap ← unwrap (insert_into_heap heap payer new_score);
  save_top_payers_heap heap.

Definition get_top_payers (limit : Z) : IO (list TopPayerEntry) :=
  heap ← get_top_payers_heap; mret (top_payers_of heap limit).
End contract.
