(* ===== verification/CoreStore.v ===== *)
(** Ledger accessors of the escrow contract ([invoice.rs] and the accessors of
    [storage.rs] that [lib.rs] uses): invoices and their indices, funder lists,
    payer and LP reputation with lazy decay, caps, queue records, statistics,
    and the pause flag. *)
From S2P Require Import Prelude Host CoreTypes TopPayers.

(** * Reputation decay

    One iteration of the loop of [get_payer_score], on [u64]. *)
Definition decay_step (decay_rate_bps decayed_score : Z) : Z :=
  let decay_amount := sat_u64 (decayed_score * decay_rate_bps) ÷ 10000 in
  let decay_amount := if (decay_amount =? 0) && (0 <? decayed_score) then 1 else decay_amount in
  sat_u64 (decayed_score - decay_amount).

Definition decay_loop (periods : nat) (decay_rate_bps score : Z) : Z :=
  Nat.iter periods (decay_step decay_rate_bps) score.

(** The score [get_payer_score] computes from a stored record. *)
Definition decayed_score (cfg : Config) (rep : ReputationScore) (current_ledger : Z) : Z :=
  let ledgers_since_activity := sat_u32 (current_ledger - rs_last_activity_ledger rep) in
  if (decay_period_ledgers cfg <=? ledgers_since_activity)
     && (0 <? decay_period_ledgers cfg) && (0 <? decay_rate_bps cfg) then
    let periods_passed := ledgers_since_activity ÷ decay_period_ledgers cfg in
    let decayed :=
      if MAX_REPUTATION_DECAY_PERIODS <? periods_passed then 0
      else decay_loop (Z.to_nat periods_passed) (decay_rate_bps cfg) (rs_score rep) in
    Z.min decayed 100
  else rs_score rep.

Section store.
Context {X : Type}.
Abbreviation W := (world DataKey X Event).
Abbreviation IO := (M W ContractError).

(** ** Configuration ([storage.rs]) *)
Definition get_admin : IO (option Address) := get Key.Admin.
Definition get_config : IO (option Config) := get Key.Config.
Definition set_config (c : Config) : IO unit := put Key.Config c.
Definition get_insurance_pool : IO (option Address) := get Key.InsurancePool.

(** ** Invoice indices *)
Definition get_submitter_invoices (submitter : Address) : IO (list Z) :=
  get_or (Key.SubmitterInvoices submitter) [].
Definition add_invoice_to_submitter (submitter : Address) (invoice_id : Z) : IO unit :=
  invoices ← get_submitter_invoices submitter;
  put (Key.SubmitterInvoices submitter) (invoices ++ [invoice_id]).
Definition remove_invoice_from_submitter (submitter : Address) (invoice_id : Z) : IO unit :=
  invoices ← get_submitter_invoices submitter;
  match filter (λ id, id ≠ invoice_id) invoices with
  | [] =>
      b ← has (Key.SubmitterInvoices submitter);
      if (b : bool) then remove (Key.SubmitterInvoices submitter) else mret tt
  | new_invoices => put (Key.SubmitterInvoices submitter) new_invoices
  end.

Definition get_lp_invoices (lp : Address) : IO (list Z) := get_or (Key.LpInvoices lp) [].
Definition add_invoice_to_lp (lp : Address) (invoice_id : Z) : IO unit :=
  invoices ← get_lp_invoices lp;
  if bool_decide (invoice_id ∈ invoices) then mret tt
  else put (Key.LpInvoices lp) (invoices ++ [invoice_id]).
Definition remove_invoice_from_lp (lp : Address) (invoice_id : Z) : IO unit :=
  invoices ← get_lp_invoices lp;
  match filter (λ id, id ≠ invoice_id) invoices with
  | [] =>
      b ← has (Key.LpInvoices lp);
      if (b : bool) then remove (Key.LpInvoices lp) else mret tt
  | new_invoices => put (Key.LpInvoices lp) new_invoices
  end.

(** ** Invoices *)
Definition save_invoice (invoice : Invoice) : IO unit :=
  put (Key.Invoice (i_id invoice)) invoice.
Definition load_invoice (id : Z) : IO Invoice := get (Key.Invoice id) ≫= unwrap.
Definition invoice_exists (id : Z) : IO bool := has (Key.Invoice id).
Definition try_load_invoice (id : Z) : IO (option Invoice) :=
  core ← get (Key.InvoiceCore id);
  metadata ← get (Key.InvoiceMetadata id);
  match core, metadata with
  | Some core, Some metadata => mret (Some (with_metadata core metadata))
  | _, _ => get (Key.Invoice id)
  end.

Definition read_next_invoice_id : IO Z := get_or Key.NextInvoiceId 1.
Definition write_next_invoice_id (id : Z) : IO unit := put Key.NextInvoiceId id.
Definition next_invoice_id : IO Z :=
  current_id ← read_next_invoice_id;
  next_id ← ok_or (chk_u64 (current_id + 1)) Err.ArithmeticOverflow;
  write_next_invoice_id next_id;;
  mret current_id.

(** ** Reputation profiles *)
Definition get_reputation (address : Address) : IO ReputationProfile :=
  get_or (Key.Reputation address) (mkReputationProfile address 0 0 0 0).

Definition set_reputation (profile : ReputationProfile) : IO unit :=
  old_profile ← get_reputation (rp_address profile);
  (if (rp_invoices_submitted profile =? 0) && (rp_invoices_paid profile =? 0)
      && (rp_invoices_defaulted profile =? 0) && (rp_score profile =? 0) then
     b ← has (Key.Reputation (rp_address profile));
     if (b : bool) then remove (Key.Reputation (rp_address profile)) else mret tt
   else put (Key.Reputation (rp_address profile)) profile);;
  if negb (rp_score old_profile =? rp_score profile)
     || negb (rp_invoices_submitted old_profile =? rp_invoices_submitted profile)
     || negb (rp_invoices_paid old_profile =? rp_invoices_paid profile)
     || negb (rp_invoices_defaulted old_profile =? rp_invoices_defaulted profile)
  then publish (Ev.ReputationUpdated (rp_address profile) (rp_score old_profile)
         (rp_score profile) (rp_invoices_submitted profile) (rp_invoices_paid profile)
         (rp_invoices_defaulted profile))
  else mret tt.

Definition set_profile_score (address : Address) (score : Z) : IO unit :=
  p ← get_reputation address;
  set_reputation (mkReputationProfile (rp_address p) (rp_invoices_submitted p)
                    (rp_invoices_paid p) (rp_invoices_defaulted p) score).

Definition increment_invoices_submitted (address : Address) : IO unit :=
  p ← get_reputation address;
  set_reputation (mkReputationProfile (rp_address p) (sat_u32 (rp_invoices_submitted p + 1))
                    (rp_invoices_paid p) (rp_invoices_defaulted p) (rp_score p)).
Definition increment_invoices_paid (address : Address) : IO unit :=
  p ← get_reputation address;
  set_reputation (mkReputationProfile (rp_address p) (rp_invoices_submitted p)
                    (sat_u32 (rp_invoices_paid p + 1)) (rp_invoices_defaulted p) (rp_score p)).
Definition increment_invoices_defaulted (address : Address) : IO unit :=
  p ← get_reputation address;
  set_reputation (mkReputationProfile (rp_address p) (rp_invoices_submitted p)
                    (rp_invoices_paid p) (sat_u32 (rp_invoices_defaulted p + 1)) (rp_score p)).

(** ** Payer scores

    Reading a score applies the decay and stores the decayed record. *)
Definition get_payer_score (payer : Address) : IO Z :=
  rep ← get (Key.PayerScore payer);
  match rep with
  | None => mret DEFAULT_PAYER_SCORE
  | Some rep =>
      cfg ← get_config;
      match cfg with
      | None => mret (rs_score rep)
      | Some cfg =>
          current_ledger ← sequence;
          let new_score := decayed_score cfg rep current_ledger in
          (if new_score =? rs_score rep then mret tt
           else
             put (Key.PayerScore payer) (mkReputationScore new_score current_ledger);;
             set_profile_score payer new_score);;
          mret new_score
      end
  end.

Definition set_payer_score (payer : Address) (score : Z) : IO unit :=
  let score := Z.min score 100 in
  old_score ← get_payer_score payer;
  (if score =? DEFAULT_PAYER_SCORE then
     b ← has (Key.PayerScore payer);
     if (b : bool) then remove (Key.PayerScore payer) else mret tt
   else
     ledger ← sequence;
     put (Key.PayerScore payer) (mkReputationScore score ledger));;
  set_profile_score payer score;;
  if old_score =? score then mret tt else update_top_payers_on_score_change payer score.

(** ** Thresholds and rollout caps *)
Definition get_min_payer_reputation : IO Z := get_or Key.MinPayerReputation 0.
Definition get_max_invoice_amount : IO Z := get_or Key.MaxInvoiceAmount 0.
Definition get_token_volume_cap (token : Address) : IO Z := get_or (Key.TokenVolumeCap token) 0.
Definition get_token_volume (token : Address) : IO Z := get_or (Key.TokenVolume token) 0.

(** ** Funder lists *)
Definition get_invoice_funders (id : Z) : IO (list (Address * Z)) :=
  get_or (Key.InvoiceFunders id) [].
Definition save_invoice_funders (id : Z) (funders : list (Address * Z)) : IO unit :=
  match funders with
  | [] =>
      b ← has (Key.InvoiceFunders id);
      if (b : bool) then remove (Key.InvoiceFunders id) else mret tt
  | _ => put (Key.InvoiceFunders id) funders
  end.

(** ** Appeals and disputes *)
Definition get_appeal (id : Z) : IO (option AppealRecord) := get (Key.Appeal id).
Definition save_appeal (id : Z) (record : AppealRecord) : IO unit := put (Key.Appeal id) record.
Definition save_pre_default_payer_score (id score : Z) : IO unit :=
  put (Key.PreDefaultPayerScore id) score.
Definition get_pre_default_payer_score (id : Z) : IO (option Z) :=
  get (Key.PreDefaultPayerScore id).
Definition get_dispute (id : Z) : IO (option DisputeRecord) := get (Key.Dispute id).
Definition save_dispute (id : Z) (record : DisputeRecord) : IO unit := put (Key.Dispute id) record.

(** ** LP scores *)
Definition get_lp_score (lp : Address) : IO Z := get_or (Key.LpScore lp) DEFAULT_LP_SCORE.
Definition set_lp_score (lp : Address) (score : Z) : IO unit :=
  let score := Z.min score 100 in
  if score =? DEFAULT_LP_SCORE then
    b ← has (Key.LpScore lp);
    if (b : bool) then remove (Key.LpScore lp) else mret tt
  else put (Key.LpScore lp) score.

(** ** Fund-queue records *)
Definition get_fund_queue (id : Z) : IO (list LpFundRequest) := get_or (Key.FundQueue id) [].
Definition save_fund_queue (id : Z) (queue : list LpFundRequest) : IO unit :=
  put (Key.FundQueue id) queue.
Definition get_queue_resolution (id : Z) : IO (option Address) := get (Key.QueueResolution id).
Definition save_queue_resolution (id : Z) (approved_lp : Address) : IO unit :=
  put (Key.QueueResolution id) approved_lp;;
  ledger ← sequence;
  put (Key.QueueResolvedAt id) ledger.
Definition get_queue_resolved_at (id : Z) : IO (option Z) := get (Key.QueueResolvedAt id).
Definition clear_fund_queue_state (id : Z) : IO unit :=
  remove (Key.FundQueue id);;
  remove (Key.QueueResolution id);;
  remove (Key.QueueResolvedAt id);;
  remove (Key.FundQueueOpenedAt id).
Definition reopen_fund_queue (id : Z) (remaining : list LpFundRequest) : IO unit :=
  remove (Key.QueueResolution id);;
  remove (Key.QueueResolvedAt id);;
  match remaining with
  | [] => remove (Key.FundQueue id);; remove (Key.FundQueueOpenedAt id)
  | _ =>
      put (Key.FundQueue id) remaining;;
      ledger ← sequence;
      put (Key.FundQueueOpenedAt id) ledger
  end.
Definition try_set_fund_queue_opened_at (id : Z) : IO unit :=
  b ← has (Key.FundQueueOpenedAt id);
  if (b : bool) then mret tt
  else ledger ← sequence; put (Key.FundQueueOpenedAt id) ledger.
Definition get_fund_queue_opened_at (id : Z) : IO (option Z) := get (Key.FundQueueOpenedAt id).

(** ** Token identity ([lib.rs]) *)
Definition is_config_token (sac : Config → Address) (token : Address) : IO bool :=
  cfg ← get_config;
  mret (match cfg with Some c => bool_decide (token = sac c) | None => false end).
Definition is_xlm_token (token : Address) : IO bool := is_config_token xlm_sac_address token.
Definition is_usdc_token (token : Address) : IO bool := is_config_token usdc_sac_address token.
Definition is_eurc_token (token : Address) : IO bool := is_config_token eurc_sac_address token.

(** ** Statistics *)
Definition add_volume (token : Address) (amount : Z) : IO unit :=
  current_per_token ← get_or (Key.TokenVolume token) 0;
  put (Key.TokenVolume token) (sat_i128 (current_per_token + amount));;
  xlm ← is_xlm_token token;
  if (xlm : bool) then
    current ← get_or Key.TotalVolumeXlm 0;
    put Key.TotalVolumeXlm (sat_i128 (current + amount))
  else
    usdc ← is_usdc_token token;
    if (usdc : bool) then
      current ← get_or Key.TotalVolumeUsdc 0;
      put Key.TotalVolumeUsdc (sat_i128 (current + amount))
    else
      eurc ← is_eurc_token token;
      if (eurc : bool) then
        current ← get_or Key.TotalVolumeEurc 0;
        put Key.TotalVolumeEurc (sat_i128 (current + amount))
      else mret tt.

Definition increment_total_invoices : IO unit :=
  current ← get_or Key.TotalInvoices 0; put Key.TotalInvoices (sat_u64 (current + 1)).
Definition increment_total_funded : IO unit :=
  current ← get_or Key.TotalFunded 0; put Key.TotalFunded (sat_u64 (current + 1)).
Definition increment_total_paid : IO unit :=
  current ← get_or Key.TotalPaid 0; put Key.TotalPaid (sat_u64 (current + 1)).

(** ** Pause flag *)
Definition is_paused : IO bool := get_or Key.Paused false.
Definition set_paused (paused : bool) : IO unit :=
  put Key.Paused paused;;
  if paused then now ← timestamp; put Key.LastPauseTimestamp now else mret tt.
Definition get_last_pause_timestamp : IO Z := get_or Key.LastPauseTimestamp 0.
End store.
