(* ===== verification/Access.v ===== *)
(** Access control of the escrow contract ([access.rs]): role checks, the
    reentrancy lock, rate limits and the ring-buffer audit log of admin actions. *)
From S2P Require Import Prelude Host CoreTypes TopPayers CoreStore.

Definition ADMIN_ACTION_LOG_CAPACITY : Z := 50.

Section access.
Context {X : Type}.
Abbreviation W := (world DataKey X Event).
Abbreviation IO := (M W ContractError).

(** ** Roles *)
Definition require_admin : IO unit :=
  admin ← get Key.Admin;
  admin ← ok_or admin Err.Unauthorized;
  require_auth admin.

Definition require_submitter (caller : Address) : IO unit := require_auth caller.

Definition require_submitter_by_id (caller : Address) (invoice_id : Z) : IO unit :=
  b ← invoice_exists invoice_id;
  reject_if (negb b) Err.InvoiceNotFound;;
  invoice ← load_invoice invoice_id;
  require_auth caller;;
  reject_if (negb (bool_decide (caller = i_freelancer invoice))) Err.Unauthorized.

Definition require_payer_by_id (invoice_id : Z) : IO unit :=
  b ← invoice_exists invoice_id;
  reject_if (negb b) Err.InvoiceNotFound;;
  invoice ← load_invoice invoice_id;
  require_auth (i_payer invoice).

Definition require_lp (caller : Address) : IO unit := require_auth caller.

(** The scan [for i in 0..funders.len() { if funders.get(i).0 == caller ... }] *)
Definition is_funder (caller : Address) (funders : list (Address * Z)) : bool :=
  existsb (λ p, bool_decide (p.1 = caller)) funders.

Definition require_lp_by_id (caller : Address) (invoice_id : Z) : IO unit :=
  b ← invoice_exists invoice_id;
  reject_if (negb b) Err.InvoiceNotFound;;
  require_auth caller;;
  funders ← get_invoice_funders invoice_id;
  reject_if (negb (is_funder caller funders)) Err.Unauthorized.

(** ** Reentrancy lock *)
Definition lock_reentrancy : IO unit :=
  locked ← get_or Key.ReentrancyLock false;
  reject_if locked Err.Reentrancy;;
  put Key.ReentrancyLock true.
Definition unlock_reentrancy : IO unit := put Key.ReentrancyLock false.

(** ** Rate limits *)
Definition check_rate_limit (fn_name : Symbol) (cooldown_ledgers : Z) : IO unit :=
  last_ledger ← get (Key.RateLimit fn_name);
  current_ledger ← sequence;
  reject_if (match last_ledger with
             | Some last => current_ledger <? sat_u32 (last + cooldown_ledgers)
             | None => false
             end) Err.RateLimited;;
  put (Key.RateLimit fn_name) current_ledger.

Definition clear_rate_limit (fn_name : Symbol) : IO unit := remove (Key.RateLimit fn_name).

(** ** Audit log *)
Definition record_admin_action (action : Symbol) : IO unit :=
  admin ← get Key.Admin;
  match admin with
  | None => mret tt
  | Some admin =>
      seq ← get_or Key.AdminActionCount 0;
      ledger ← sequence;
      now ← timestamp;
      put (Key.AdminActionLog (seq mod ADMIN_ACTION_LOG_CAPACITY))
        (mkAdminActionRecord seq action admin ledger now);;
      next ← unwrap (chk_u64 (seq + 1));
      put Key.AdminActionCount next
  end.

(** The record with sequence number [seq], if its slot is filled. *)
Definition admin_action_at (w : W) (seq : Z) : option AdminActionRecord :=
  store w (Key.AdminActionLog (seq mod ADMIN_ACTION_LOG_CAPACITY)).

Definition get_recent_admin_actions (limit : Z) : IO (list AdminActionRecord) :=
  total ← get_or Key.AdminActionCount 0;
  let count := Z.min (Z.min limit ADMIN_ACTION_LOG_CAPACITY) total in
  reads (λ w, omap (λ i : nat, admin_action_at w (total - 1 - Z.of_nat i))
                (seq 0 (Z.to_nat count))).
End access.
