(* ===== verification/TokenSafety.v ===== *)
(** Token controls of the escrow contract ([token_safety.rs]): decimals,
    SAC authorization, outbound payouts and the escrow of undeliverable ones. *)
From S2P Require Import Prelude Host CoreTypes TopPayers CoreStore Access.

Definition MAX_TOKEN_DECIMALS : Z := 18.

Record TokenDecimalsAudit := mkTokenDecimalsAudit {
  registered : option Z;
  on_chain : option Z
}.
Definition audit_matches (a : TokenDecimalsAudit) : bool :=
  match registered a, on_chain a with
  | Some r, Some o => r =? o
  | _, _ => false
  end.

Section token_safety.
Context {X : Type} `{TokenInterface X}.
Abbreviation W := (world DataKey X Event).
Abbreviation IO := (M W ContractError).

(** ** Decimals *)
Definition validate_token_decimals (token : Address) (declared : Z) : IO unit :=
  reject_if (MAX_TOKEN_DECIMALS <? declared) Err.InvalidTokenDecimals;;
  d ← reads (λ w : W, tok_decimals (ext w) token);
  on_chain ← ok_or d Err.TokenDecimalsUnavailable;
  reject_if (negb (on_chain =? declared)) Err.InvalidTokenDecimals.

Definition registered_token_decimals (token : Address) : IO Z :=
  d ← get (Key.TokenDecimals token);
  ok_or d Err.TokenDecimalsNotConfigured.

Definition audit_token_decimals (token : Address) : IO TokenDecimalsAudit :=
  registered ← get (Key.TokenDecimals token);
  on_chain ← reads (λ w : W, tok_decimals (ext w) token);
  mret (mkTokenDecimalsAudit registered on_chain).

(** ** Authorization flags *)
Definition query_authorized (token id : Address) : IO (option bool) :=
  reads (λ w : W, tok_authorized (ext w) token id).

Definition is_authorized (token id : Address) : IO bool :=
  flag ← query_authorized token id;
  mret (bool_decide (flag = Some true)).

Definition require_authorized (token id : Address) : IO unit :=
  flag ← query_authorized token id;
  match flag with
  | Some true => mret tt
  | Some false => throw Err.AccountFrozen
  | None =>
      me ← current_contract;
      probe ← query_authorized token me;
      match probe with
      | Some _ => throw Err.AccountFrozen
      | None => throw Err.TokenAuthorizationUnavailable
      end
  end.

Definition validate_sac_authorization (token admin : Address) : IO unit :=
  me ← current_contract;
  flag ← query_authorized token me;
  match flag with
  | None => throw Err.TokenAuthorizationUnavailable
  | Some false => throw Err.AccountFrozen
  | Some true => require_authorized token admin
  end.

(** ** Outbound payouts *)
Definition pending_payout_total (token : Address) : IO Z :=
  get_or (Key.PendingPayoutTotal token) 0.
Definition pending_payout (recipient token : Address) : IO Z :=
  get_or (Key.PendingPayout recipient token) 0.

Definition set_pending (recipient token : Address) (amount total : Z) : IO unit :=
  (if 0 <? amount then put (Key.PendingPayout recipient token) amount
   else remove (Key.PendingPayout recipient token));;
  if 0 <? total then put (Key.PendingPayoutTotal token) total
  else remove (Key.PendingPayoutTotal token).

Definition ensure_spendable (token : Address) (amount reserved : Z) : IO unit :=
  me ← current_contract;
  balance ← reads (λ w : W, tok_balance (ext w) token me);
  reject_if (sat_i128 (balance - reserved) <? amount) Err.InsufficientContractBalance.

(** [client.transfer(contract, to, amount)] *)
Definition transfer_from_self (token to : Address) (amount : Z) : IO unit :=
  me ← current_contract;
  invoke (ext_transfer token me to amount).

Definition transfer_out_strict (token to : Address) (amount : Z) : IO unit :=
  if amount <=? 0 then mret tt
  else
    total ← pending_payout_total token;
    ensure_spendable token amount total;;
    require_authorized token to;;
    transfer_from_self token to amount.

Definition pay_or_escrow (token to : Address) (amount invoice_id : Z) : IO bool :=
  if amount <=? 0 then mret true
  else
    total ← pending_payout_total token;
    ensure_spendable token amount total;;
    ok ← is_authorized token to;
    if (ok : bool) then transfer_from_self token to amount;; mret true
    else
      already ← pending_payout to token;
      owed ← ok_or (chk_i128 (already + amount)) Err.ArithmeticOverflow;
      new_total ← ok_or (chk_i128 (total + amount)) Err.ArithmeticOverflow;
      set_pending to token owed new_total;;
      publish (Ev.PayoutEscrowed invoice_id to token amount owed);;
      mret false.

Definition claim_pending (recipient token : Address) : IO Z :=
  amount ← pending_payout recipient token;
  reject_if (amount <=? 0) Err.NothingToClaim;;
  require_authorized token recipient;;
  total ← pending_payout_total token;
  ensure_spendable token amount (sat_i128 (total - amount));;
  set_pending recipient token 0 (sat_i128 (total - amount));;
  transfer_from_self token recipient amount;;
  publish (Ev.PendingPayoutClaimed recipient token amount);;
  mret amount.
End token_safety.
