(* ===== verification/Nft.v ===== *)
(** Invoice NFTs ([nft.rs]): mint, transfer, burn and the synchronisation of an
    invoice's NFT with its status and funders. *)
From S2P Require Import Prelude Host CoreTypes TopPayers CoreStore.

(** The statuses for which the NFT exists ([should_exist]). *)
Definition nft_should_exist (s : InvoiceStatus) : bool :=
  match s with
  | Status.Funded | Status.PartiallyFunded | Status.Defaulted
  | Status.Appealed | Status.Disputed => true
  | _ => false
  end.

(** The funder with the largest contribution, the earliest on ties. *)
Definition lead_lp (first : Address * Z) (rest : list (Address * Z)) : Address :=
  (foldl (λ best p, if best.2 <? p.2 then p else best) first rest).1.

Definition nft_target_owner (invoice : Invoice) (funders : list (Address * Z)) : Address :=
  match i_funder invoice with
  | Some lp => lp
  | None =>
      match funders with
      | [] => i_freelancer invoice
      | f :: rest => lead_lp f rest
      end
  end.

Section nft.
Context {X : Type}.
Abbreviation W := (world DataKey X Event).
Abbreviation IO := (M W ContractError).

Definition mint_invoice_nft (invoice_id : Z) (owner : Address)
    (amount due_date discount_rate : Z) (token : Address) : IO unit :=
  b ← has (Key.InvoiceNft invoice_id);
  reject_if b Err.AlreadyFunded;;
  now ← timestamp;
  put (Key.InvoiceNft invoice_id)
    (mkNft invoice_id amount due_date discount_rate token owner (now mod 2 ^ 32));;
  put (Key.InvoiceNftOwner invoice_id) owner;;
  publish (Ev.InvoiceNftMinted invoice_id owner amount due_date now).

Definition transfer_invoice_nft (invoice_id : Z) (from to : Address) : IO unit :=
  m ← get (Key.InvoiceNft invoice_id);
  m ← ok_or m Err.InvoiceNotFound;
  reject_if (negb (bool_decide (nft_owner m = from))) Err.Unauthorized;;
  put (Key.InvoiceNft invoice_id)
    (mkNft (nft_invoice_id m) (nft_amount m) (nft_due_date m) (nft_discount_rate m)
       (nft_token m) to (nft_minted_at m));;
  put (Key.InvoiceNftOwner invoice_id) to;;
  now ← timestamp;
  publish (Ev.InvoiceNftTransferred invoice_id from to now).

Definition burn_invoice_nft (invoice_id : Z) (owner : Address) : IO unit :=
  m ← get (Key.InvoiceNft invoice_id);
  m ← ok_or m Err.InvoiceNotFound;
  reject_if (negb (bool_decide (nft_owner m = owner))) Err.Unauthorized;;
  remove (Key.InvoiceNft invoice_id);;
  remove (Key.InvoiceNftOwner invoice_id);;
  now ← timestamp;
  publish (Ev.InvoiceNftBurned invoice_id owner now).

Definition get_invoice_nft_metadata (invoice_id : Z) : IO (option InvoiceNftMetadata) :=
  get (Key.InvoiceNft invoice_id).
Definition get_invoice_nft_owner (invoice_id : Z) : IO (option Address) :=
  get (Key.InvoiceNftOwner invoice_id).
Definition invoice_nft_exists (invoice_id : Z) : IO bool := has (Key.InvoiceNft invoice_id).

Definition sync_nft_state (invoice_id : Z) : IO unit :=
  invoice ← try_load_invoice invoice_id;
  match invoice with
  | None =>
      b ← invoice_nft_exists invoice_id;
      if (b : bool) then
        current_owner ← (get_invoice_nft_owner invoice_id ≫= unwrap);
        burn_invoice_nft invoice_id current_owner
      else mret tt
  | Some invoice =>
      if nft_should_exist (i_status invoice) then
        funders ← (match i_funder invoice with
                   | Some _ => mret []
                   | None => get_invoice_funders invoice_id
                   end);
        let target_owner := nft_target_owner invoice funders in
        b ← invoice_nft_exists invoice_id;
        if (b : bool) then
          o ← get_invoice_nft_owner invoice_id;
          current_owner ← ok_or o Err.InvoiceNotFound;
          if bool_decide (current_owner = target_owner) then mret tt
          else transfer_invoice_nft invoice_id current_owner target_owner
        else
          mint_invoice_nft invoice_id target_owner (i_amount invoice) (i_due_date invoice)
            (i_discount_rate invoice) (i_token invoice)
      else
        b ← invoice_nft_exists invoice_id;
        if (b : bool) then
          o ← get_invoice_nft_owner invoice_id;
          current_owner ← ok_or o Err.InvoiceNotFound;
          burn_invoice_nft invoice_id current_owner
        else mret tt
  end.
End nft.
