(* ===== verification/OracleRegistry.v ===== *)
(** The oracle registry of the escrow contract
    ([src/contracts/invoice_liquidity/src/oracle_registry.rs]): registration and
    resolution of identity oracles, freshness, monotonicity and duplicate rules,
    the circuit breaker with its half-open recovery, the N-of-M identity quorum
    and the payer-verification gate of [fund_invoice].  The price-source and
    TWAP parts of the file are not modelled here. *)
From S2P Require Import Prelude Host Peers CoreTypes TopPayers CoreStore Access.

Definition MAX_CONSECUTIVE_STALE_QUERIES : Z := 3.
Definition MAX_CONSECUTIVE_DUPLICATE_UPDATES : Z := 3.
Definition CIRCUIT_RECOVERY_HEALTHY_OBSERVATIONS : Z := 3.
Definition CIRCUIT_RECOVERY_MIN_LEDGERS : Z := 120.
Definition DEFAULT_IDENTITY_QUORUM : Z := 1.
Definition ORACLE_INTERFACE_VERSION : Z := 1.

Inductive OracleResolution :=
| Unconfigured
| Available (oracle : Address)
| CircuitOpen.

Inductive IdentityQuorumOutcome := QNotConfigured | QVerified | QDisagreement.

Inductive IdentityVerificationOutcome :=
| OVerified | OStale | OQuorumDisagreement | OTimestampRegression | ODuplicateUpdate
| OCircuitOpen | OUnverified.

Inductive FeederHealth := FVerified | FUnverified | FStale | FUnreachable.
#[export] Instance FeederHealth_eq_dec : EqDecision FeederHealth.
Proof. solve_decision. Defined.

Record IdentityQuorumHealth := mkQuorumHealth {
  qh_feed_type : OracleFeedType;
  qh_token : Address;
  qh_feeders : list Address;
  qh_observations : list FeederHealth;
  qh_verified_count : Z;
  qh_required_quorum : Z;
  qh_quorum_met : bool
}.

(** ** Pure rules *)
Definition is_oracle_data_stale (current_ledger data_timestamp max_age_ledgers : Z) : bool :=
  if max_age_ledgers =? 0 then false
  else if current_ledger <? data_timestamp then true
  else max_age_ledgers <=? sat_u64 (current_ledger - data_timestamp).

Definition timestamp_regresses (previous : option OracleHealthStatus) (oracle : Address)
    (data_timestamp : Z) : bool :=
  match previous with
  | Some prev => bool_decide (oh_oracle prev = oracle) && (data_timestamp <? oh_last_data_timestamp prev)
  | None => false
  end.

Definition duplicate_update (previous : option OracleHealthStatus) (oracle : Address)
    (data_timestamp : Z) : bool :=
  match previous with
  | Some prev => bool_decide (oh_oracle prev = oracle)
      && (data_timestamp =? oh_last_data_timestamp prev)
      && (MAX_CONSECUTIVE_DUPLICATE_UPDATES <=? oh_consecutive_duplicate_count prev)
  | None => false
  end.

(** The snapshot [record_oracle_health] writes. *)
Definition next_health (previous : option OracleHealthStatus) (oracle : Address)
    (current_ledger data_timestamp max_age_ledgers : Z) : OracleHealthStatus :=
  let age := sat_u64 (current_ledger - data_timestamp) in
  let is_stale := is_oracle_data_stale current_ledger data_timestamp max_age_ledgers in
  let consecutive_stale_count :=
    if is_stale then
      match previous with
      | Some prev => if bool_decide (oh_oracle prev = oracle)
                     then sat_u32 (oh_consecutive_stale_count prev + 1) else 1
      | None => 1
      end
    else 0 in
  let consecutive_duplicate_count :=
    match previous with
    | Some prev => if bool_decide (oh_oracle prev = oracle)
                      && (data_timestamp =? oh_last_data_timestamp prev)
                   then sat_u32 (oh_consecutive_duplicate_count prev + 1) else 0
    | None => 0
    end in
  mkHealth oracle current_ledger data_timestamp age is_stale
    consecutive_stale_count consecutive_duplicate_count.

Section registry.
Context {X : Type} `{Peers X}.
(** [constants::MAX_IDENTITY_ORACLES_PER_FEED] is used by the source but not
    declared in [constants.rs]. *)
Variable MAX_IDENTITY_ORACLES_PER_FEED : Z.

Abbreviation W := (world DataKey X Event).
Abbreviation IO := (M W ContractError).

(** ** Registration *)
Definition verify_oracle_interface_version (oracle : Address) : IO Z :=
  v ← try_invoke (oracle_interface_version oracle);
  version ← ok_or v Err.IncompatibleInterfaceVersion;
  reject_if (negb (version =? ORACLE_INTERFACE_VERSION)) Err.IncompatibleInterfaceVersion;;
  mret version.

Definition register_oracle (feed_type : OracleFeedType) (oracle : Address) : IO unit :=
  require_admin;;
  check_rate_limit "register_oracle" DEFAULT_RATE_LIMIT_LEDGERS;;
  version ← verify_oracle_interface_version oracle;
  put (Key.OracleRegistry feed_type) oracle;;
  put (Key.OracleInterfaceVersion feed_type) version;;
  publish (Ev.OracleRegistered feed_type None oracle).

Definition remove_oracle (feed_type : OracleFeedType) : IO unit :=
  require_admin;;
  check_rate_limit "remove_oracle" DEFAULT_RATE_LIMIT_LEDGERS;;
  remove (Key.OracleRegistry feed_type);;
  publish (Ev.OracleUnregistered feed_type None).

Definition register_token_oracle (feed_type : OracleFeedType) (token oracle : Address) : IO unit :=
  require_admin;;
  check_rate_limit "register_token_oracle" DEFAULT_RATE_LIMIT_LEDGERS;;
  version ← verify_oracle_interface_version oracle;
  put (Key.TokenOracle feed_type token) oracle;;
  put (Key.OracleInterfaceVersion feed_type) version;;
  publish (Ev.OracleRegistered feed_type (Some token) oracle).

Definition remove_token_oracle (feed_type : OracleFeedType) (token : Address) : IO unit :=
  require_admin;;
  check_rate_limit "remove_token_oracle" DEFAULT_RATE_LIMIT_LEDGERS;;
  remove (Key.TokenOracle feed_type token);;
  publish (Ev.OracleUnregistered feed_type (Some token)).

(** The legacy candidate: [Config.price_oracle], for the identity feed only. *)
Definition legacy_oracle (feed_type : OracleFeedType) : IO (option Address) :=
  if bool_decide (feed_type = Identity) then
    c ← get_config; mret (c ≫= price_oracle)
  else mret None.

Definition resolve_oracle (feed_type : OracleFeedType) (token : Address) : IO (option Address) :=
  o ← get (Key.TokenOracle feed_type token);
  match o with
  | Some addr => mret (Some addr)
  | None =>
      o ← get (Key.OracleRegistry feed_type);
      match o with
      | Some addr => mret (Some addr)
      | None => legacy_oracle feed_type
      end
  end.

(** ** Health records and the circuit breaker *)
Definition get_oracle_health (feed_type : OracleFeedType) (token : Address) :
    IO (option OracleHealthStatus) := get (Key.OracleHealth feed_type token).

Definition is_oracle_data_timestamp_regression (feed_type : OracleFeedType)
    (token oracle : Address) (data_timestamp : Z) : IO bool :=
  prev ← get_oracle_health feed_type token;
  mret (timestamp_regresses prev oracle data_timestamp).

Definition is_oracle_data_duplicate_update (feed_type : OracleFeedType)
    (token oracle : Address) (data_timestamp : Z) : IO bool :=
  prev ← get_oracle_health feed_type token;
  mret (duplicate_update prev oracle data_timestamp).

Definition is_oracle_circuit_tripped (feed_type : OracleFeedType) (token : Address) : IO bool :=
  get_or (Key.OracleCircuitTripped feed_type token) false.

Definition get_circuit_recovery_state (feed_type : OracleFeedType) (token : Address) :
    IO (option CircuitRecoveryState) := get (Key.OracleCircuitRecovery feed_type token).

Definition maybe_recover_oracle_circuit (feed_type : OracleFeedType) (token oracle : Address)
    (is_stale : bool) (data_timestamp : Z) (previous : option OracleHealthStatus)
    (current_ledger : Z) : IO unit :=
  tripped ← is_oracle_circuit_tripped feed_type token;
  if negb tripped then mret tt
  else
    st ← get (Key.OracleCircuitRecovery feed_type token);
    match st with
    | None => mret tt
    | Some state =>
        if negb (bool_decide (cr_tripped_oracle state = oracle)) then mret tt
        else
          let advanced :=
            match previous with
            | Some prev => if bool_decide (oh_oracle prev = oracle)
                           then oh_last_data_timestamp prev <? data_timestamp else true
            | None => true
            end in
          if negb (negb is_stale && advanced) then
            if negb (cr_consecutive_healthy state =? 0)
               || negb (cr_first_healthy_ledger state =? 0)
            then put (Key.OracleCircuitRecovery feed_type token)
                   (mkRecovery (cr_tripped_oracle state) 0 0)
            else mret tt
          else
            let first_healthy :=
              if cr_consecutive_healthy state =? 0 then current_ledger
              else cr_first_healthy_ledger state in
            let healthy := sat_u32 (cr_consecutive_healthy state + 1) in
            let elapsed := sat_u64 (current_ledger - first_healthy) in
            if (CIRCUIT_RECOVERY_HEALTHY_OBSERVATIONS <=? healthy)
               && (CIRCUIT_RECOVERY_MIN_LEDGERS <=? elapsed) then
              remove (Key.OracleCircuitRecovery feed_type token);;
              remove (Key.OracleCircuitTripped feed_type token);;
              publish (Ev.OracleCircuitRecovered feed_type token healthy elapsed)
            else
              put (Key.OracleCircuitRecovery feed_type token)
                (mkRecovery (cr_tripped_oracle state) healthy first_healthy)
    end.

Definition record_oracle_health (feed_type : OracleFeedType) (token oracle : Address)
    (data_timestamp max_age_ledgers : Z) : IO unit :=
  current_ledger ← sequence;
  previous ← get (Key.OracleHealth feed_type token);
  let status := next_health previous oracle current_ledger data_timestamp max_age_ledgers in
  put (Key.OracleHealth feed_type token) status;;
  publish (Ev.OracleHealthRecorded feed_type token (oh_is_stale status)
    (oh_last_data_age_ledgers status) (oh_consecutive_stale_count status)
    (oh_consecutive_duplicate_count status));;
  already_tripped ← is_oracle_circuit_tripped feed_type token;
  (if oh_is_stale status
      && (MAX_CONSECUTIVE_STALE_QUERIES <=? oh_consecutive_stale_count status)
      && negb already_tripped then
     put (Key.OracleCircuitTripped feed_type token) true;;
     put (Key.OracleCircuitRecovery feed_type token) (mkRecovery oracle 0 0);;
     publish (Ev.OracleCircuitTripped feed_type token (oh_consecutive_stale_count status))
   else mret tt);;
  maybe_recover_oracle_circuit feed_type token oracle (oh_is_stale status) data_timestamp
    previous current_ledger.

Definition reset_oracle_circuit (feed_type : OracleFeedType) (token : Address) : IO unit :=
  require_admin;;
  check_rate_limit "reset_oracle_circuit" DEFAULT_RATE_LIMIT_LEDGERS;;
  remove (Key.OracleCircuitTripped feed_type token);;
  remove (Key.OracleCircuitRecovery feed_type token);;
  publish (Ev.OracleCircuitReset feed_type token).

(** The priority walk of [resolve_oracle_for_verification]: the first candidate
    that is not excluded, and whether there was any candidate. *)
Fixpoint pick_candidate (is_excluded : Address → bool) (candidates : list (option Address))
    (saw_candidate : bool) : OracleResolution :=
  match candidates with
  | [] => if saw_candidate then CircuitOpen else Unconfigured
  | None :: cs => pick_candidate is_excluded cs saw_candidate
  | Some addr :: cs =>
      if is_excluded addr then pick_candidate is_excluded cs true else Available addr
  end.

Definition resolve_oracle_for_verification (feed_type : OracleFeedType) (token : Address) :
    IO OracleResolution :=
  tripped ← is_oracle_circuit_tripped feed_type token;
  health ← get_oracle_health feed_type token;
  let is_excluded (addr : Address) : bool :=
    if negb tripped then false
    else match health with
         | Some h => bool_decide (addr = oh_oracle h)
         | None => true
         end in
  c1 ← get (Key.TokenOracle feed_type token);
  c2 ← get (Key.OracleRegistry feed_type);
  c3 ← legacy_oracle feed_type;
  mret (pick_candidate is_excluded [c1; c2; c3] false).

Definition max_oracle_age : IO Z :=
  c ← get_config;
  mret (match c with Some c => max_oracle_age_ledgers c | None => DEFAULT_MAX_ORACLE_AGE_LEDGERS end).

Definition check_oracle_health (feed_type : OracleFeedType) (token payer : Address) :
    IO (option OracleHealthStatus) :=
  o ← resolve_oracle feed_type token;
  match o with
  | None => mret None
  | Some oracle_addr =>
      response ← invoke (oracle_get_payer_data oracle_addr payer);
      max_age ← max_oracle_age;
      record_oracle_health feed_type token oracle_addr (timestamp_of response) max_age;;
      get (Key.OracleHealth feed_type token)
  end.

(** ** Identity quorum *)
Definition get_identity_oracles (feed_type : OracleFeedType) : IO (list Address) :=
  get_or (Key.IdentityOracles feed_type) [].
Definition get_identity_quorum : IO Z := get_or Key.IdentityQuorum DEFAULT_IDENTITY_QUORUM.

Definition add_identity_oracle (feed_type : OracleFeedType) (oracle : Address) : IO unit :=
  require_admin;;
  check_rate_limit "add_identity_oracle" DEFAULT_RATE_LIMIT_LEDGERS;;
  oracles ← get_identity_oracles feed_type;
  (if bool_decide (oracle ∈ oracles) then mret tt
   else
     reject_if (MAX_IDENTITY_ORACLES_PER_FEED <=? vlen oracles) Err.TooManyIdentityOracles;;
     put (Key.IdentityOracles feed_type) (oracles ++ [oracle]));;
  publish (Ev.IdentityOracleAdded feed_type oracle).

Definition remove_identity_oracle (feed_type : OracleFeedType) (oracle : Address) : IO unit :=
  require_admin;;
  check_rate_limit "remove_identity_oracle" DEFAULT_RATE_LIMIT_LEDGERS;;
  oracles ← get_identity_oracles feed_type;
  put (Key.IdentityOracles feed_type) (filter (λ o, o ≠ oracle) oracles);;
  publish (Ev.IdentityOracleRemoved feed_type oracle).

Definition set_identity_quorum (quorum : Z) : IO unit :=
  require_admin;;
  check_rate_limit "set_identity_quorum" DEFAULT_RATE_LIMIT_LEDGERS;;
  reject_if ((quorum =? 0) || (MAX_IDENTITY_ORACLES_PER_FEED <? quorum))
    Err.InvalidIdentityQuorum;;
  put Key.IdentityQuorum quorum.

(** What one feeder's answer counts as. *)
Definition feeder_health (response : option OracleVerificationResponse)
    (current_ledger max_age_ledgers : Z) : FeederHealth :=
  match response with
  | Some r =>
      if is_oracle_data_stale current_ledger (timestamp_of r) max_age_ledgers then FStale
      else if is_verified r then FVerified else FUnverified
  | None => FUnreachable
  end.

Definition classify_identity_feeder (oracle payer : Address)
    (current_ledger max_age_ledgers : Z) : IO FeederHealth :=
  result ← try_invoke (oracle_get_payer_data oracle payer);
  mret (feeder_health result current_ledger max_age_ledgers).

(** [for oracle in oracles.iter()]: the observation of every feeder. *)
Fixpoint classify_feeders (oracles : list Address) (payer : Address)
    (current_ledger max_age_ledgers : Z) : IO (list FeederHealth) :=
  match oracles with
  | [] => mret []
  | oracle :: oracles' =>
      h ← classify_identity_feeder oracle payer current_ledger max_age_ledgers;
      hs ← classify_feeders oracles' payer current_ledger max_age_ledgers;
      mret (h :: hs)
  end.

Definition count_verified (hs : list FeederHealth) : Z :=
  vlen (filter (λ h, h = FVerified) hs).

Definition check_identity_quorum (feed_type : OracleFeedType) (token payer : Address)
    (max_age_ledgers : Z) : IO IdentityQuorumOutcome :=
  oracles ← get_identity_oracles feed_type;
  match oracles with
  | [] => mret QNotConfigured
  | _ =>
      required ← get_identity_quorum;
      current_ledger ← sequence;
      hs ← classify_feeders oracles payer current_ledger max_age_ledgers;
      let verified_count := count_verified hs in
      if required <=? verified_count then mret QVerified
      else
        publish (Ev.OracleFeederDisagreement feed_type token verified_count required
                   (vlen oracles));;
        mret QDisagreement
  end.

(** ** The payer-verification gate *)
Definition evaluate_identity_verification (feed_type : OracleFeedType) (token payer : Address)
    (max_age_ledgers : Z) : IO IdentityVerificationOutcome :=
  q ← check_identity_quorum feed_type token payer max_age_ledgers;
  match q with
  | QDisagreement => mret OQuorumDisagreement
  | QVerified => mret OVerified
  | QNotConfigured =>
      resolution ← resolve_oracle_for_verification feed_type token;
      match resolution with
      | CircuitOpen => mret OCircuitOpen
      | Unconfigured => mret OVerified
      | Available oracle_addr =>
          response ← invoke (oracle_get_payer_data oracle_addr payer);
          regression ← is_oracle_data_timestamp_regression feed_type token oracle_addr
                         (timestamp_of response);
          if (regression : bool) then mret OTimestampRegression
          else
            duplicate ← is_oracle_data_duplicate_update feed_type token oracle_addr
                          (timestamp_of response);
            if (duplicate : bool) then mret ODuplicateUpdate
            else
              record_oracle_health feed_type token oracle_addr (timestamp_of response)
                max_age_ledgers;;
              current_ledger ← sequence;
              if is_oracle_data_stale current_ledger (timestamp_of response) max_age_ledgers
              then
                publish (Ev.OracleDataStaleRejected feed_type token oracle_addr
                  (timestamp_of response) (sat_u64 (current_ledger - timestamp_of response))
                  max_age_ledgers);;
                mret OStale
              else if is_verified response then mret OVerified else mret OUnverified
      end
  end.

Definition check_oracle_verification (feed_type : OracleFeedType) (token payer : Address) :
    IO IdentityVerificationOutcome :=
  max_age ← max_oracle_age;
  evaluate_identity_verification feed_type token payer max_age.

Definition check_identity_quorum_health (feed_type : OracleFeedType) (token payer : Address) :
    IO IdentityQuorumHealth :=
  feeders ← get_identity_oracles feed_type;
  required_quorum ← get_identity_quorum;
  current_ledger ← sequence;
  max_age ← max_oracle_age;
  observations ← classify_feeders feeders payer current_ledger max_age;
  let verified_count := count_verified observations in
  mret (mkQuorumHealth feed_type token feeders observations verified_count required_quorum
          (negb (bool_decide (feeders = [])) && (required_quorum <=? verified_count))).
End registry.
