(* ===== verification/Pricing.v ===== *)
(** The price reads of the oracle registry
    ([src/contracts/invoice_liquidity/src/oracle_registry.rs]): the list of price sources, the
    median with its deviation filter, the health gate, and the opt-in windowed average over
    recorded samples.  The average itself is [twap.rs] ([Twap.v]). *)
From S2P Require Import Prelude Host Peers Twap CoreTypes TopPayers CoreStore Access.
From S2P Require Import OracleRegistry.

Definition DEFAULT_MAX_PRICE_DEVIATION_BPS : Z := 500.
Definition LEDGER_SECONDS : Z := 5.
Definition MIN_TWAP_WINDOW_LEDGERS : Z := 360.
Definition MAX_TWAP_WINDOW_LEDGERS : Z := 17280.
Definition DEFAULT_TWAP_WINDOW_LEDGERS : Z := 720.

(** ** The median: an insertion sort on a copy ([None] is a trap) *)

(** [while j > 0 && sorted[j - 1] > key { sorted[j] = sorted[j - 1]; j -= 1 }], then
    [sorted[j] = key]. *)
Fixpoint shift_up (j : nat) (key : Z) (sorted : list Z) : option (list Z) :=
  match j with
  | O => Some (<[O := key]> sorted)
  | S j' =>
      prev ← sorted !! j';
      if key <? prev then shift_up j' key (<[j := prev]> sorted)
      else Some (<[j := key]> sorted)
  end.

(** [for i in 1..len]. *)
Fixpoint insertion_loop (indices : list nat) (sorted : list Z) : option (list Z) :=
  match indices with
  | [] => Some sorted
  | i :: indices' =>
      key ← sorted !! i;
      sorted ← shift_up i key sorted;
      insertion_loop indices' sorted
  end.

Definition median (values : list Z) : option Z :=
  let len := length values in
  sorted ← insertion_loop (seq 1 (len - 1)) values;
  if (Nat.modulo len 2 =? 1)%nat then sorted !! Nat.div len 2
  else
    a ← sorted !! (Nat.div len 2 - 1)%nat;
    b ← sorted !! Nat.div len 2;
    sum ← chk_i128 (a + b);
    Some (sum ÷ 2).

(** Basis points; the subtraction and both [abs] are checked. *)
Definition deviation_bps (price reference : Z) : option Z :=
  if reference =? 0 then Some (if price =? 0 then 0 else u32_max)
  else
    delta ← chk_i128 (price - reference);
    diff ← chk_i128 (Z.abs delta);
    scale ← chk_i128 (Z.abs reference);
    Some (sat_u32 (sat_i128 (diff * 10000) ÷ scale)).

Section pricing.
Context {X : Type} `{Peers X}.
(** [constants::MAX_PRICE_SOURCES_PER_FEED] is used by the source but not declared in
    [constants.rs]. *)
Variable MAX_PRICE_SOURCES_PER_FEED : Z.

Abbreviation W := (world DataKey X Event).
Abbreviation IO := (M W ContractError).

(** ** Price sources *)
Definition get_price_sources (feed_type : OracleFeedType) : IO (list Address) :=
  get_or (Key.PriceSources feed_type) [].

Definition add_price_source (feed_type : OracleFeedType) (oracle : Address) : IO unit :=
  require_admin;;
  check_rate_limit "add_price_source" DEFAULT_RATE_LIMIT_LEDGERS;;
  sources ← get_price_sources feed_type;
  (if bool_decide (oracle ∈ sources) then mret tt
   else
     reject_if (MAX_PRICE_SOURCES_PER_FEED <=? vlen sources) Err.TooManyPriceSources;;
     put (Key.PriceSources feed_type) (sources ++ [oracle]));;
  publish (Ev.PriceSourceAdded feed_type oracle).

Definition remove_price_source (feed_type : OracleFeedType) (oracle : Address) : IO unit :=
  require_admin;;
  check_rate_limit "remove_price_source" DEFAULT_RATE_LIMIT_LEDGERS;;
  sources ← get_price_sources feed_type;
  put (Key.PriceSources feed_type) (filter (λ o, o ≠ oracle) sources);;
  publish (Ev.PriceSourceRemoved feed_type oracle).

Definition set_max_price_deviation_bps (bps : Z) : IO unit :=
  require_admin;;
  check_rate_limit "set_max_price_deviation_bps" DEFAULT_RATE_LIMIT_LEDGERS;;
  reject_if ((bps =? 0) || (10000 <? bps)) Err.InvalidAmount;;
  put Key.MaxPriceDeviationBps bps.

Definition get_max_price_deviation_bps : IO Z :=
  get_or Key.MaxPriceDeviationBps DEFAULT_MAX_PRICE_DEVIATION_BPS.

(** ** The health gate *)
(** Why a price read is refused, if it is. *)
Definition price_feed_fault (feed_type : OracleFeedType) (token : Address) :
    IO (option ContractError) :=
  tripped ← is_oracle_circuit_tripped feed_type token;
  if (tripped : bool) then mret (Some Err.OracleCircuitOpen)
  else
    health ← get_oracle_health feed_type token;
    mret (match health with
          | Some h => if oh_is_stale h then Some Err.OracleDataStale else None
          | None => None
          end).

Definition require_healthy_price_feed (feed_type : OracleFeedType) (token : Address) : IO unit :=
  e ← price_feed_fault feed_type token;
  match e with Some e => throw e | None => mret tt end.

Definition query_price (oracle token : Address) : IO (option Z) :=
  try_invoke (oracle_get_price oracle token).

(** ** Samples and the windowed average *)
Definition is_twap_enabled (feed_type : OracleFeedType) : IO bool :=
  get_or (Key.TwapEnabled feed_type) false.
Definition get_min_twap_observations : IO Z := get_or Key.MinTwapObservations 2.
Definition get_twap_window_ledgers : IO Z :=
  get_or Key.TwapWindowLedgers DEFAULT_TWAP_WINDOW_LEDGERS.

Definition set_min_twap_observations (min_obs : Z) : IO unit :=
  require_admin;;
  put Key.MinTwapObservations min_obs.

Definition set_twap_enabled (feed_type : OracleFeedType) (enabled : bool) : IO unit :=
  require_admin;;
  check_rate_limit "set_twap_enabled" DEFAULT_RATE_LIMIT_LEDGERS;;
  put (Key.TwapEnabled feed_type) enabled;;
  publish (Ev.TwapEnabledForFeed feed_type enabled).

Definition set_twap_window_ledgers (window_ledgers : Z) : IO unit :=
  require_admin;;
  check_rate_limit "set_twap_window" DEFAULT_RATE_LIMIT_LEDGERS;;
  reject_if ((window_ledgers <? MIN_TWAP_WINDOW_LEDGERS)
    || (MAX_TWAP_WINDOW_LEDGERS <? window_ledgers)) Err.InvalidTwapWindow;;
  old_window ← get_twap_window_ledgers;
  put Key.TwapWindowLedgers window_ledgers;;
  publish (Ev.TwapWindowUpdated old_window window_ledgers).

Definition record_twap_sample (feed_type : OracleFeedType) (token : Address) (price : Z) :
    IO unit :=
  require_admin;;
  reject_if (price <=? 0) Err.InvalidAmount;;
  samples ← get_or (Key.TwapSamples feed_type token) [];
  t ← timestamp;
  put (Key.TwapSamples feed_type token)
    (push_sample samples (mkSample t price) MAX_TWAP_SAMPLES).

Definition get_twap_price (feed_type : OracleFeedType) (token : Address) : IO (option Z) :=
  e ← price_feed_fault feed_type token;
  match e with
  | Some _ => mret None
  | None =>
      samples ← get_or (Key.TwapSamples feed_type token) [];
      min_obs ← get_min_twap_observations;
      if vlen samples <? min_obs then
        publish (Ev.TwapInsufficientData feed_type token (vlen samples) min_obs);;
        mret None
      else
        window_ledgers ← get_twap_window_ledgers;
        current_time ← timestamp;
        let window_seconds := sat_u64 (window_ledgers * LEDGER_SECONDS) in
        unwrap (twap_average samples (sat_u64 (current_time - window_seconds)) current_time)
  end.

(** ** The cross-checked price *)

(** The sources that answered, with their answers, in the order of the list. *)
Fixpoint query_sources (sources : list Address) (token : Address) : IO (list (Address * Z)) :=
  match sources with
  | [] => mret []
  | oracle :: sources' =>
      p ← query_price oracle token;
      rest ← query_sources sources' token;
      mret (match p with Some price => (oracle, price) :: rest | None => rest end)
  end.

(** The prices within the allowed deviation; each of the others is reported. *)
Fixpoint keep_survivors (feed_type : OracleFeedType) (token : Address)
    (overall_median max_deviation : Z) (answers : list (Address * Z)) : IO (list Z) :=
  match answers with
  | [] => mret []
  | (oracle, price) :: answers' =>
      dev ← unwrap (deviation_bps price overall_median);
      if max_deviation <? dev then
        publish (Ev.PriceOutlierRejected feed_type token oracle price overall_median dev);;
        keep_survivors feed_type token overall_median max_deviation answers'
      else
        survivors ← keep_survivors feed_type token overall_median max_deviation answers';
        mret (price :: survivors)
  end.

Definition spot_price (feed_type : OracleFeedType) (token : Address) : IO Z :=
  sources ← get_price_sources feed_type;
  answers ← query_sources sources token;
  match answers with
  | [] => throw Err.NoPriceSource
  | [(_, price)] => mret price
  | _ =>
      overall_median ← unwrap (median (answers.*2));
      max_deviation ← get_max_price_deviation_bps;
      survivors ← keep_survivors feed_type token overall_median max_deviation answers;
      reject_if (bool_decide (survivors = [])) Err.AllPriceSourcesRejected;;
      unwrap (median survivors)
  end.

Definition get_verified_price (feed_type : OracleFeedType) (token : Address) : IO Z :=
  require_healthy_price_feed feed_type token;;
  enabled ← is_twap_enabled feed_type;
  avg ← (if (enabled : bool) then get_twap_price feed_type token else mret None);
  match avg with
  | Some avg => mret avg
  | None => spot_price feed_type token
  end.

Definition get_twap_aware_price (feed_type : OracleFeedType) (token : Address) : IO Z :=
  enabled ← is_twap_enabled feed_type;
  if (enabled : bool) then
    require_healthy_price_feed feed_type token;;
    avg ← get_twap_price feed_type token;
    ok_or avg Err.InsufficientTwapObservations
  else get_verified_price feed_type token.

(** ** Footprints: reading a price only calls the sources and publishes events *)
Context (R : W → W → Prop) `{!PreOrder R}.
Context (calls : ∀ o t, keeps R (query_price o t : IO _)).
Context (logs : ∀ e, keeps R (publish e : IO unit)).

Lemma query_sources_keeps sources token : keeps R (query_sources sources token).
Proof.
  induction sources as [|o os IH]; simpl; [frame |].
  apply keeps_bind; [done | apply calls |]. intros p.
  apply keeps_bind; [done | exact IH |]. intros rest. frame.
Qed.
Lemma keep_survivors_keeps f t m d answers : keeps R (keep_survivors f t m d answers).
Proof.
  induction answers as [|[o p] l IH]; simpl; [frame |].
  apply keeps_bind; [done | frame |]. intros dev. destruct (d <? dev).
  - apply keeps_bind; [done | apply logs | intros _; exact IH].
  - apply keeps_bind; [done | exact IH |]. intros. frame.
Qed.
End pricing.
