(* ===== verification/ConfigRs.v ===== *)
(** Governance-tunable parameters of the escrow contract ([config.rs]). *)
From S2P Require Import Prelude Host CoreTypes TopPayers CoreStore.

Inductive ConfigError :=
| CUnauthorized | InvalidBonusBps | InvalidMinDiscountRate | InvalidDecayRate
| InvalidRepThreshold.

Definition MAX_BONUS_BPS : Z := 500.
Definition MAX_DECAY_RATE_BPS : Z := 500.
Definition MAX_REP_THRESHOLD : Z := 100.
Definition MAX_MIN_DISCOUNT_RATE_BPS : Z := 10000.

(** The [map_err] of [lib.rs] [update_config]. *)
Definition config_error (e : ConfigError) : ContractError :=
  match e with
  | CUnauthorized => Err.Unauthorized
  | InvalidBonusBps => Err.InvalidAmount
  | InvalidMinDiscountRate => Err.InvalidDiscountRate
  | InvalidDecayRate => Err.InvalidDecayRate
  | InvalidRepThreshold => Err.InvalidRepThreshold
  end.

Definition with_price_oracle (o : Address) (c : Config) : Config :=
  mkConfig (high_rep_threshold c) (bonus_bps c) (min_discount_rate_bps c) (decay_rate_bps c)
    (decay_period_ledgers c) (dispute_timeout_ledgers c) (xlm_sac_address c)
    (usdc_sac_address c) (eurc_sac_address c) (Some o) (max_oracle_age_ledgers c).
Definition with_max_oracle_age (n : Z) (c : Config) : Config :=
  mkConfig (high_rep_threshold c) (bonus_bps c) (min_discount_rate_bps c) (decay_rate_bps c)
    (decay_period_ledgers c) (dispute_timeout_ledgers c) (xlm_sac_address c)
    (usdc_sac_address c) (eurc_sac_address c) (price_oracle c) n.
Definition with_decay (rate period : Z) (c : Config) : Config :=
  mkConfig (high_rep_threshold c) (bonus_bps c) (min_discount_rate_bps c) rate
    period (dispute_timeout_ledgers c) (xlm_sac_address c)
    (usdc_sac_address c) (eurc_sac_address c) (price_oracle c) (max_oracle_age_ledgers c).

Section config.
Context {X : Type}.
Abbreviation W := (world DataKey X Event).
Abbreviation CO := (M W ConfigError).

Definition config_update_config (caller : Address)
    (high_rep_threshold' bonus_bps' min_discount_rate_bps' decay_rate_bps'
     decay_period_ledgers' dispute_timeout_ledgers' : Z)
    (xlm usdc eurc : Address) : CO unit :=
  admin ← get Key.Admin;
  admin ← ok_or admin CUnauthorized;
  old_config ← get Key.Config;
  old_config ← ok_or old_config CUnauthorized;
  require_auth caller;;
  reject_if (negb (bool_decide (caller = admin))) CUnauthorized;;
  reject_if (MAX_BONUS_BPS <? bonus_bps') InvalidBonusBps;;
  reject_if ((min_discount_rate_bps' =? 0)
             || (MAX_MIN_DISCOUNT_RATE_BPS <=? min_discount_rate_bps')) InvalidMinDiscountRate;;
  reject_if (MAX_DECAY_RATE_BPS <? decay_rate_bps') InvalidDecayRate;;
  reject_if (MAX_REP_THRESHOLD <? high_rep_threshold') InvalidRepThreshold;;
  put Key.Config (mkConfig high_rep_threshold' bonus_bps' min_discount_rate_bps'
    decay_rate_bps' decay_period_ledgers' dispute_timeout_ledgers' xlm usdc eurc
    (price_oracle old_config) (max_oracle_age_ledgers old_config));;
  let emit name old new := publish (Ev.ParameterUpdated name old new caller) in
  emit "high_rep_threshold" (high_rep_threshold old_config) high_rep_threshold';;
  emit "bonus_bps" (bonus_bps old_config) bonus_bps';;
  emit "min_discount_rate_bps" (min_discount_rate_bps old_config) min_discount_rate_bps';;
  emit "decay_rate_bps" (decay_rate_bps old_config) decay_rate_bps';;
  emit "decay_period_ledgers" (decay_period_ledgers old_config) decay_period_ledgers';;
  emit "dispute_timeout_ledgers" (dispute_timeout_ledgers old_config) dispute_timeout_ledgers'.

Definition config_set_price_oracle (caller oracle : Address) : CO unit :=
  admin ← get Key.Admin;
  admin ← ok_or admin CUnauthorized;
  config ← get Key.Config;
  config ← ok_or config CUnauthorized;
  reject_if (negb (bool_decide (caller = admin))) CUnauthorized;;
  put Key.Config (with_price_oracle oracle config).

Definition config_set_max_oracle_age (caller : Address) (max_age_ledgers : Z) : CO unit :=
  admin ← get Key.Admin;
  admin ← ok_or admin CUnauthorized;
  config ← get Key.Config;
  config ← ok_or config CUnauthorized;
  reject_if (negb (bool_decide (caller = admin))) CUnauthorized;;
  put Key.Config (with_max_oracle_age max_age_ledgers config).
End config.
