(* ===== verification/Admin.v ===== *)
(** Initialization and administration of the escrow contract ([lib.rs]):
    [initialize], the admin-only parameter setters, the token allowlist, pausing
    and storage migration. *)
From S2P Require Import Prelude Host Peers CoreTypes TopPayers CoreStore Access TokenSafety.
From S2P Require Import ConfigRs.

Definition CURRENT_STORAGE_VERSION : Z := 3.

Section admin.
Context {X : Type} `{TokenInterface X} `{Peers X}.
(** [constants::MAX_FEE_TIERS] is used by the source but not declared. *)
Variable MAX_FEE_TIERS : Z.

Abbreviation W := (world DataKey X Event).
Abbreviation IO := (M W ContractError).

Definition initial_config (usdc_token eurc_token xlm_token : Address) : Config :=
  mkConfig 70 100 100 50 10000 10000 xlm_token usdc_token eurc_token None
    DEFAULT_MAX_ORACLE_AGE_LEDGERS.

Definition initialize (admin usdc_token eurc_token xlm_token : Address) : IO unit :=
  b ← has Key.InvoiceCount;
  reject_if b Err.AlreadyInitialized;;
  put Key.Admin admin;;
  put Key.FeeRate 0;;
  put Key.MaxDiscountRate 5000;;
  b ← has Key.NextInvoiceId;
  (if (b : bool) then mret tt else put Key.NextInvoiceId 1);;
  set_config (initial_config usdc_token eurc_token xlm_token);;
  put (Key.ApprovedToken usdc_token) true;;
  put (Key.ApprovedToken eurc_token) true;;
  put (Key.TokenDecimals usdc_token) 6;;
  put (Key.TokenDecimals eurc_token) 6;;
  put (Key.ApprovedToken xlm_token) true;;
  put (Key.TokenDecimals xlm_token) 7;;
  put Key.TokenList [usdc_token; xlm_token; eurc_token];;
  now ← timestamp;
  publish (Ev.ContractInitialized admin usdc_token eurc_token xlm_token now).

(** ** Parameters *)
Definition set_admin (new_admin : Address) : IO unit :=
  require_admin;;
  check_rate_limit "set_admin" ADMIN_CHANGE_COOLDOWN_LEDGERS;;
  record_admin_action "set_admin";;
  old_admin ← (get Key.Admin ≫= unwrap);
  put Key.Admin new_admin;;
  now ← timestamp;
  publish (Ev.AdminChanged old_admin new_admin now).

Definition update_fee_rate (rate : Z) : IO unit :=
  require_admin;;
  check_rate_limit "update_fee_rate" ECONOMIC_PARAM_COOLDOWN_LEDGERS;;
  record_admin_action "update_fee_rate";;
  old_rate ← get_or Key.FeeRate 0;
  put Key.FeeRate rate;;
  a ← get_admin;
  updated_by ← ok_or a Err.Unauthorized;
  publish (Ev.ParameterUpdated "protocol_fee_rate_bps" old_rate rate updated_by).

Definition update_max_discount (rate : Z) : IO unit :=
  require_admin;;
  check_rate_limit "update_max_discount" ECONOMIC_PARAM_COOLDOWN_LEDGERS;;
  record_admin_action "update_max_discount";;
  old_rate ← get_or Key.MaxDiscountRate 0;
  put Key.MaxDiscountRate rate;;
  a ← get_admin;
  updated_by ← ok_or a Err.Unauthorized;
  publish (Ev.ParameterUpdated "max_discount_rate_bps" old_rate rate updated_by).

Definition update_decay_params (rate_bps period_ledgers : Z) : IO unit :=
  require_admin;;
  check_rate_limit "update_decay_params" ECONOMIC_PARAM_COOLDOWN_LEDGERS;;
  record_admin_action "update_decay_params";;
  a ← get_admin;
  admin ← ok_or a Err.Unauthorized;
  c ← get_config;
  config ← ok_or c Err.Unauthorized;
  set_config (with_decay rate_bps period_ledgers config);;
  publish (Ev.ParameterUpdated "decay_rate_bps" (decay_rate_bps config) rate_bps admin);;
  publish (Ev.ParameterUpdated "decay_period_ledgers" (decay_period_ledgers config)
             period_ledgers admin).

Definition set_distribution_contract (distribution_contract : Address) : IO unit :=
  require_admin;;
  check_rate_limit "set_distribution_contract" DEFAULT_RATE_LIMIT_LEDGERS;;
  record_admin_action "set_distribution_contract";;
  old ← get Key.DistributionContract;
  put Key.DistributionContract distribution_contract;;
  a ← get_admin;
  updated_by ← ok_or a Err.Unauthorized;
  publish (Ev.DistributionContractUpdated old distribution_contract updated_by).

Definition set_price_oracle (oracle : Address) : IO unit :=
  require_admin;;
  check_rate_limit "set_price_oracle" DEFAULT_RATE_LIMIT_LEDGERS;;
  record_admin_action "set_price_oracle";;
  a ← get_admin;
  admin ← ok_or a Err.Unauthorized;
  c ← get_config;
  map_err (λ _, Err.Unauthorized) (config_set_price_oracle admin oracle);;
  publish (Ev.PriceOracleUpdated (c ≫= price_oracle) oracle admin).

Definition set_max_oracle_age (max_age_ledgers : Z) : IO unit :=
  require_admin;;
  check_rate_limit "set_max_oracle_age" DEFAULT_RATE_LIMIT_LEDGERS;;
  record_admin_action "set_max_oracle_age";;
  a ← get_admin;
  admin ← ok_or a Err.Unauthorized;
  c ← get_config;
  let old_max_age :=
    match c with Some c => max_oracle_age_ledgers c | None => DEFAULT_MAX_ORACLE_AGE_LEDGERS end in
  map_err (λ _, Err.Unauthorized) (config_set_max_oracle_age admin max_age_ledgers);;
  publish (Ev.ParameterUpdated "max_oracle_age_ledgers" old_max_age max_age_ledgers admin).

Definition update_config (caller : Address)
    (high_rep_threshold bonus_bps min_discount_rate_bps decay_rate_bps
     decay_period_ledgers dispute_timeout_ledgers : Z) (xlm usdc eurc : Address) : IO unit :=
  check_rate_limit "update_config" ECONOMIC_PARAM_COOLDOWN_LEDGERS;;
  map_err config_error
    (config_update_config caller high_rep_threshold bonus_bps min_discount_rate_bps
       decay_rate_bps decay_period_ledgers dispute_timeout_ledgers xlm usdc eurc).

Definition set_insurance_pool (pool : Address) : IO unit :=
  require_admin;;
  check_rate_limit "set_insurance_pool" DEFAULT_RATE_LIMIT_LEDGERS;;
  record_admin_action "set_insurance_pool";;
  put Key.InsurancePool pool.

Definition set_min_payer_reputation (value : Z) : IO unit :=
  require_admin;;
  check_rate_limit "set_min_payer_reputation" ECONOMIC_PARAM_COOLDOWN_LEDGERS;;
  record_admin_action "set_min_payer_reputation";;
  a ← get_admin;
  updated_by ← ok_or a Err.Unauthorized;
  old_value ← get_min_payer_reputation;
  put Key.MinPayerReputation value;;
  publish (Ev.ParameterUpdated "min_payer_reputation" old_value value updated_by).

Definition set_max_invoice_amount (value : Z) : IO unit :=
  require_admin;;
  check_rate_limit "set_max_invoice_amount" ECONOMIC_PARAM_COOLDOWN_LEDGERS;;
  a ← get_admin;
  updated_by ← ok_or a Err.Unauthorized;
  old_value ← get_max_invoice_amount;
  put Key.MaxInvoiceAmount value;;
  publish (Ev.ParameterUpdated "max_invoice_amount" old_value value updated_by).

Definition set_token_volume_cap (token : Address) (value : Z) : IO unit :=
  require_admin;;
  check_rate_limit "set_token_volume_cap" ECONOMIC_PARAM_COOLDOWN_LEDGERS;;
  a ← get_admin;
  updated_by ← ok_or a Err.Unauthorized;
  old_value ← get_token_volume_cap token;
  put (Key.TokenVolumeCap token) value;;
  publish (Ev.ParameterUpdated "token_volume_cap" old_value value updated_by).

(** ** Token allowlist *)
Definition is_approved_token (token : Address) : IO bool :=
  flag ← get (Key.ApprovedToken token);
  match flag with
  | Some approved => mret approved
  | None =>
      c ← get_config;
      mret (match c with
            | Some c => bool_decide (token = usdc_sac_address c)
                        || bool_decide (token = eurc_sac_address c)
                        || bool_decide (token = xlm_sac_address c)
            | None => false
            end)
  end.

Definition FEE_PROBE_AMOUNT : Z := 1000000.

Definition add_token (token : Address) (decimals : Z) : IO unit :=
  require_admin;;
  check_rate_limit "add_token" DEFAULT_RATE_LIMIT_LEDGERS;;
  record_admin_action "add_token";;
  admin_address ← (get Key.Admin ≫= unwrap);
  validate_token_decimals token decimals;;
  validate_sac_authorization token admin_address;;
  me ← current_contract;
  before_balance ← reads (λ w : W, tok_balance (ext w) token me);
  invoke (ext_transfer token admin_address me FEE_PROBE_AMOUNT);;
  after_balance ← reads (λ w : W, tok_balance (ext w) token me);
  let received := default 0 (chk_i128 (after_balance - before_balance)) in
  (if received =? FEE_PROBE_AMOUNT then mret tt
   else
     (if 0 <? received then invoke (ext_transfer token me admin_address received)
      else mret tt);;
     throw Err.FeeOnTransferToken);;
  invoke (ext_transfer token me admin_address FEE_PROBE_AMOUNT);;
  put (Key.ApprovedToken token) true;;
  put (Key.TokenDecimals token) decimals;;
  list ← get_or Key.TokenList [];
  (if bool_decide (token ∈ list) then mret tt else put Key.TokenList (list ++ [token]));;
  publish (Ev.TokenAdded token decimals).

(** Dropping a token from the allowlist, shared with the multisig path. *)
Definition delist_token (token : Address) : IO unit :=
  put (Key.ApprovedToken token) false;;
  list ← get_or Key.TokenList [];
  put Key.TokenList (filter (λ t, t ≠ token) list);;
  publish (Ev.TokenRemoved token).

Definition remove_token (token : Address) : IO unit :=
  require_admin;;
  check_rate_limit "remove_token" DEFAULT_RATE_LIMIT_LEDGERS;;
  record_admin_action "remove_token";;
  delist_token token.

Definition correct_token_decimals (token : Address) (decimals : Z) : IO unit :=
  require_admin;;
  b ← is_approved_token token;
  reject_if (negb b) Err.Unauthorized;;
  check_rate_limit "correct_token_decimals" DEFAULT_RATE_LIMIT_LEDGERS;;
  validate_token_decimals token decimals;;
  old_decimals ← get (Key.TokenDecimals token);
  record_admin_action "correct_token_decimals";;
  put (Key.TokenDecimals token) decimals;;
  a ← get_admin;
  updated_by ← ok_or a Err.Unauthorized;
  publish (Ev.TokenDecimalsCorrected token (default decimals old_decimals) decimals updated_by).

(** ** Emergency controls *)
Definition pause : IO unit :=
  require_admin;;
  record_admin_action "pause";;
  set_paused true;;
  now ← timestamp;
  publish (Ev.ContractPaused now).

Definition unpause : IO unit :=
  require_admin;;
  record_admin_action "unpause";;
  set_paused false;;
  now ← timestamp;
  publish (Ev.ContractUnpaused now).

(** ** Storage migration *)
Definition backfill_decimals (p : Address * Z) : IO unit :=
  b ← has (Key.TokenDecimals p.1);
  if (b : bool) then mret tt else put (Key.TokenDecimals p.1) p.2.

Definition migrate : IO Z :=
  require_admin;;
  record_admin_action "migrate";;
  current ← get_or Key.StorageVersion 1;
  if CURRENT_STORAGE_VERSION <=? current then mret current
  else
    (if current <? 3 then
       c ← get_config;
       match c with
       | Some config => for_each [(usdc_sac_address config, 6); (eurc_sac_address config, 6);
                                  (xlm_sac_address config, 7)] backfill_decimals
       | None => mret tt
       end
     else mret tt);;
    put Key.StorageVersion CURRENT_STORAGE_VERSION;;
    now ← timestamp;
    publish (Ev.Migrated current CURRENT_STORAGE_VERSION now);;
    mret CURRENT_STORAGE_VERSION.

(** ** Protocol fees *)
Definition update_fee_tiers (tiers : list (Z * Z)) : IO unit :=
  require_admin;;
  reject_if (MAX_FEE_TIERS <? vlen tiers) Err.TooManyFeeTiers;;
  check_rate_limit "update_fee_tiers" ECONOMIC_PARAM_COOLDOWN_LEDGERS;;
  record_admin_action "update_fee_tiers";;
  a ← get_admin;
  admin ← ok_or a Err.Unauthorized;
  put Key.FeeTiers tiers;;
  publish (Ev.FeeTiersUpdated (vlen tiers)).

(** The rate of the last tier whose [min_amount] the invoice reaches. *)
Definition tier_rate (tiers : list (Z * Z)) (invoice_amount : Z) : Z :=
  foldl (λ best p, if p.1 <=? invoice_amount then p.2 else best) 0 tiers.

Definition effective_fee_rate (invoice_amount : Z) : IO Z :=
  tiers ← get_or Key.FeeTiers [];
  match tiers with
  | [] => get_or Key.FeeRate 0
  | _ => mret (tier_rate tiers invoice_amount)
  end.
End admin.
