(* ===== verification/Lifecycle.v ===== *)
(** The invoice lifecycle of the escrow contract ([lib.rs]): submission, terms
    updates, funding, transfers, cancellation, expiry, settlement, default,
    appeal and dispute. *)
From S2P Require Import Prelude Host Peers CoreTypes TopPayers CoreStore Access TokenSafety Nft.
From S2P Require Import OracleRegistry Pricing ConfigRs Admin.

(** * Amounts *)

(** [ten_pow]: [10^exp], saturating. *)
Definition ten_pow (exp : Z) : Z := Nat.iter (Z.to_nat exp) (λ r, sat_i128 (r * 10)) 1.

(** [amount.checked_mul(rate).unwrap_or(0) / 10_000] *)
Definition bps_of (amount rate : Z) : Z := default 0 (chk_i128 (amount * rate)) ÷ 10000.

(** [fund_amt.saturating_sub(fund_discount)]: what an LP pays for, and is
    refunded on, a contribution. *)
Definition net_of_discount (amount rate : Z) : Z := sat_i128 (amount - bps_of amount rate).

(** A funder's share of a settlement. *)
Definition funder_share (distribute_amount fund_amt invoice_amount : Z) : Z :=
  default 0 (chk_i128 (distribute_amount * fund_amt)) ÷ invoice_amount.

(** Adding [fund_amount] to the funder's entry, or appending a new one. *)
Fixpoint add_contribution (funder : Address) (fund_amount : Z) (funders : list (Address * Z)) :
    list (Address * Z) :=
  match funders with
  | [] => [(funder, fund_amount)]
  | (addr, amt) :: rest =>
      if bool_decide (addr = funder) then (addr, sat_i128 (amt + fund_amount)) :: rest
      else (addr, amt) :: add_contribution funder fund_amount rest
  end.

(** [transfer_lp_position]: every entry of the old LP passes to the new one. *)
Definition move_contributions (old_lp new_lp : Address) (funders : list (Address * Z)) :
    list (Address * Z) :=
  (λ p, if bool_decide (p.1 = old_lp) then (new_lp, p.2) else p) <$> funders.

(** The status a dispute falls back to when it is rejected. *)
Definition restored_status (i : Invoice) : InvoiceStatus :=
  if i_amount_funded i =? i_amount i then Status.Funded
  else if 0 <? i_amount_funded i then Status.PartiallyFunded
  else Status.Pending.

Section lifecycle.
Context {X : Type} `{TokenInterface X} `{Peers X}.
Abbreviation W := (world DataKey X Event).
Abbreviation IO := (M W ContractError).

(** * Status gates *)
Definition require_pending (s : InvoiceStatus) : IO unit :=
  match s with
  | Status.Pending => mret tt
  | Status.PartiallyFunded | Status.Funded => throw Err.AlreadyFunded
  | Status.Paid => throw Err.AlreadyPaid
  | Status.Defaulted => throw Err.InvoiceDefaulted
  | Status.Appealed => throw Err.InvoiceAppealed
  | Status.Disputed => throw Err.InvoiceDisputed
  | Status.Expired => throw Err.InvoiceExpired
  | Status.Cancelled => throw Err.AlreadyCancelled
  end.

Definition require_fundable (s : InvoiceStatus) : IO unit :=
  match s with
  | Status.Pending | Status.PartiallyFunded => mret tt
  | Status.Funded => throw Err.AlreadyFunded
  | Status.Paid => throw Err.AlreadyPaid
  | Status.Defaulted => throw Err.InvoiceDefaulted
  | Status.Appealed => throw Err.InvoiceAppealed
  | Status.Disputed => throw Err.InvoiceDisputed
  | Status.Expired => throw Err.InvoiceExpired
  | Status.Cancelled => throw Err.AlreadyCancelled
  end.

Definition require_funded (s : InvoiceStatus) : IO unit :=
  match s with
  | Status.Funded => mret tt
  | Status.Pending | Status.PartiallyFunded => throw Err.NotFunded
  | Status.Paid => throw Err.AlreadyPaid
  | Status.Defaulted => throw Err.InvoiceDefaulted
  | Status.Appealed => throw Err.InvoiceAppealed
  | Status.Disputed => throw Err.InvoiceDisputed
  | Status.Expired => throw Err.InvoiceExpired
  | Status.Cancelled => throw Err.AlreadyCancelled
  end.

Definition require_disputable (s : InvoiceStatus) : IO unit :=
  match s with
  | Status.Pending | Status.PartiallyFunded | Status.Funded => mret tt
  | Status.Paid => throw Err.AlreadyPaid
  | Status.Defaulted => throw Err.InvoiceDefaulted
  | Status.Appealed => throw Err.InvoiceAppealed
  | Status.Disputed => throw Err.AlreadyDisputed
  | Status.Expired => throw Err.InvoiceExpired
  | Status.Cancelled => throw Err.AlreadyCancelled
  end.

(** [if is_paused(&env) { return Err(ContractPaused) }] *)
Definition require_not_paused : IO unit :=
  paused ← is_paused; reject_if paused Err.ContractPaused.

(** [if !invoice_exists(..) { return Err(InvoiceNotFound) } load_invoice(..)] *)
Definition load_existing (invoice_id : Z) : IO Invoice :=
  b ← invoice_exists invoice_id;
  reject_if (negb b) Err.InvoiceNotFound;;
  load_invoice invoice_id.

(** * Terms *)
Definition validate_invoice_terms_for_min (amount min_amount due_date discount_rate : Z) :
    IO unit :=
  reject_if (amount <? min_amount) Err.InvalidAmount;;
  max_rate ← get_or Key.MaxDiscountRate 5000;
  reject_if ((discount_rate =? 0) || (max_rate <? discount_rate)) Err.InvalidDiscountRate;;
  reject_if (u32_max <? due_date) Err.InvalidDueDate;;
  now ← timestamp;
  reject_if (due_date <=? now) Err.InvalidDueDate;;
  reject_if (due_date <? sat_u64 (now + MIN_INVOICE_DURATION)) Err.DueDateTooSoon;;
  reject_if (sat_u64 (now + MAX_INVOICE_DURATION) <? due_date) Err.DueDateTooFar.

Definition validate_invoice_terms_with_token (amount due_date discount_rate : Z)
    (token : Address) : IO unit :=
  decimals ← registered_token_decimals token;
  validate_invoice_terms_for_min amount (ten_pow decimals) due_date discount_rate.

(** * Submission *)
Definition track_referral (referral_code : ReferralCode) : IO unit :=
  match referral_code with
  | Present code =>
      current ← get_or (Key.ReferralCount code) 0;
      next ← unwrap (chk_u64 (current + 1));
      put (Key.ReferralCount code) next
  | NoReferral => mret tt
  end.

(** The part of [submit_invoice] and of each [submit_invoices_batch] iteration
    after the checks. *)
Definition store_submission (freelancer payer : Address) (amount due_date discount_rate : Z)
    (token : Address) (referral_code : ReferralCode) : IO Z :=
  id ← next_invoice_id;
  submitter_reputation ← get_payer_score freelancer;
  due ← unwrap (chk_u32 due_date);
  let invoice := mkInvoice id freelancer payer token amount due discount_rate
    Status.Pending None None 0 0 referral_code submitter_reputation in
  save_invoice invoice;;
  add_invoice_to_submitter freelancer id;;
  increment_total_invoices;;
  increment_invoices_submitted freelancer;;
  now ← timestamp;
  publish (Ev.InvoiceSubmitted id freelancer payer token amount due discount_rate
    referral_code Status.Pending now);;
  track_referral referral_code;;
  mret id.

Definition submit_invoice (freelancer payer : Address) (amount due_date discount_rate : Z)
    (token : Address) (referral_code : ReferralCode) : IO Z :=
  require_not_paused;;
  require_submitter freelancer;;
  reject_if (bool_decide (freelancer = payer)) Err.SelfInvoice;;
  reject_if ((discount_rate =? 0) || (MAX_DISCOUNT_RATE <? discount_rate))
    Err.InvalidDiscountRate;;
  max_invoice_amount ← get_max_invoice_amount;
  reject_if ((0 <? max_invoice_amount) && (max_invoice_amount <? amount))
    Err.MaxInvoiceAmountExceeded;;
  approved ← is_approved_token token;
  reject_if (negb approved) Err.Unauthorized;;
  validate_invoice_terms_with_token amount due_date discount_rate token;;
  store_submission freelancer payer amount due_date discount_rate token referral_code.

Fixpoint submit_batch_loop (authenticated : list Address) (invoices : list InvoiceParams) :
    IO (list Z) :=
  match invoices with
  | [] => mret []
  | params :: rest =>
      (if bool_decide (p_freelancer params ∈ authenticated) then mret tt
       else require_submitter (p_freelancer params));;
      let authenticated := if bool_decide (p_freelancer params ∈ authenticated)
                           then authenticated else authenticated ++ [p_freelancer params] in
      approved ← is_approved_token (p_token params);
      reject_if (negb approved) Err.Unauthorized;;
      validate_invoice_terms_with_token (p_amount params) (p_due_date params)
        (p_discount_rate params) (p_token params);;
      id ← store_submission (p_freelancer params) (p_payer params) (p_amount params)
             (p_due_date params) (p_discount_rate params) (p_token params)
             (p_referral_code params);
      ids ← submit_batch_loop authenticated rest;
      mret (id :: ids)
  end.

Definition submit_invoices_batch (invoices : list InvoiceParams) : IO (list Z) :=
  require_not_paused;;
  reject_if (10 <? vlen invoices) Err.BatchTooLarge;;
  submit_batch_loop [] invoices.

(** * Changes to a pending invoice *)
Definition update_invoice (freelancer : Address) (invoice_id amount due_date discount_rate : Z) :
    IO unit :=
  require_not_paused;;
  invoice ← load_existing invoice_id;
  require_submitter_by_id freelancer invoice_id;;
  now ← timestamp;
  (if bool_decide (i_status invoice = Status.Pending) && (i_due_date invoice <=? now) then
     save_invoice (set_status Status.Expired invoice);;
     throw Err.InvoiceExpired
   else mret tt);;
  require_pending (i_status invoice);;
  validate_invoice_terms_with_token amount due_date discount_rate (i_token invoice);;
  due ← unwrap (chk_u32 due_date);
  let invoice := set_terms amount due discount_rate invoice in
  save_invoice invoice;;
  publish (Ev.InvoiceUpdated (i_id invoice) (i_freelancer invoice) (i_payer invoice)
    (i_token invoice) (i_amount invoice) (i_due_date invoice) (i_discount_rate invoice)
    (i_status invoice)).

Definition convert_invoice_token (freelancer : Address) (invoice_id : Z) (new_token : Address) :
    IO unit :=
  require_not_paused;;
  invoice ← load_existing invoice_id;
  require_submitter_by_id freelancer invoice_id;;
  match i_status invoice with
  | Status.Pending => mret tt
  | Status.PartiallyFunded | Status.Funded => throw Err.AlreadyFunded
  | Status.Paid => throw Err.AlreadyPaid
  | _ => throw Err.Unauthorized
  end;;
  now ← timestamp;
  (if i_due_date invoice <=? now then
     save_invoice (set_status Status.Expired invoice);;
     throw Err.InvoiceExpired
   else mret tt);;
  approved ← is_approved_token new_token;
  reject_if (negb approved) Err.Unauthorized;;
  _ ← registered_token_decimals new_token;
  save_invoice (set_token new_token invoice);;
  publish (Ev.InvoiceTokenChanged invoice_id (i_token invoice) new_token).

Definition transfer_invoice (invoice_id : Z) (new_freelancer : Address) : IO unit :=
  require_not_paused;;
  invoice ← load_existing invoice_id;
  require_submitter_by_id (i_freelancer invoice) invoice_id;;
  require_pending (i_status invoice);;
  save_invoice (set_freelancer new_freelancer invoice);;
  remove_invoice_from_submitter (i_freelancer invoice) invoice_id;;
  add_invoice_to_submitter new_freelancer invoice_id;;
  publish (Ev.InvoiceTransferred invoice_id (i_freelancer invoice) new_freelancer
    (i_status invoice)).

(** * Funding *)
Definition notify_distribution_funding (lp : Address) (amount_usdc_equivalent : Z) : IO unit :=
  d ← get Key.DistributionContract;
  match d with
  | None => mret tt
  | Some dist_contract => invoke (dist_accrue_lp dist_contract lp amount_usdc_equivalent)
  end.

(** The identity gate of [fund_invoice]. *)
Definition require_identity (invoice : Invoice) : IO unit :=
  max_age ← max_oracle_age;
  outcome ← evaluate_identity_verification Identity (i_token invoice) (i_payer invoice) max_age;
  match outcome with
  | OVerified => mret tt
  | OQuorumDisagreement => throw Err.PayerUnverified
  | OCircuitOpen => throw Err.OracleCircuitOpen
  | OTimestampRegression => throw Err.OracleTimestampRegression
  | ODuplicateUpdate => throw Err.OracleDuplicateUpdate
  | OStale => throw Err.OracleDataStale
  | OUnverified => throw Err.PayerUnverified
  end.

(** Everything before the token transfer; returns the loaded invoice and its
    prospective [amount_funded]. *)
Definition fund_checks (funder : Address) (invoice_id fund_amount : Z)
    (require_oracle_verification : bool) : IO (Invoice * Z) :=
  require_lp funder;;
  inv ← try_load_invoice invoice_id;
  invoice ← ok_or inv Err.InvoiceNotFound;
  resolution ← get_queue_resolution invoice_id;
  reject_if (match resolution with
             | Some approved => negb (bool_decide (approved = funder))
             | None => false
             end) Err.NotApprovedFunder;;
  approved ← is_approved_token (i_token invoice);
  reject_if (negb approved) Err.Unauthorized;;
  min_payer_reputation ← get_min_payer_reputation;
  (if 0 <? min_payer_reputation then
     score ← get_payer_score (i_payer invoice);
     reject_if (score <? min_payer_reputation) Err.PayerReputationTooLow
   else mret tt);;
  (if require_oracle_verification then require_identity invoice else mret tt);;
  now ← timestamp;
  (if bool_decide (i_status invoice = Status.Pending) && (i_due_date invoice <? now) then
     save_invoice (set_status Status.Expired invoice);;
     publish (Ev.InvoiceExpired (i_id invoice) (i_freelancer invoice) Status.Expired);;
     throw Err.InvoiceExpired
   else mret tt);;
  require_fundable (i_status invoice);;
  prospective_funded ← ok_or (chk_i128 (i_amount_funded invoice + fund_amount))
                         Err.ArithmeticOverflow;
  reject_if (i_amount invoice <? prospective_funded) Err.OverfundingRejected;;
  token_volume_cap ← get_token_volume_cap (i_token invoice);
  (if 0 <? token_volume_cap then
     volume ← get_token_volume (i_token invoice);
     prospective_volume ← ok_or (chk_i128 (volume + fund_amount)) Err.ArithmeticOverflow;
     reject_if (token_volume_cap <? prospective_volume) Err.GlobalVolumeCapExceeded
   else mret tt);;
  mret (invoice, prospective_funded).

(** The LP's payment into the contract.  The three [normalize_*_amount] branches
    are all the identity. *)
Definition fund_collect (funder : Address) (invoice : Invoice)
    (fund_amount prospective_funded : Z) : IO unit :=
  me ← current_contract;
  let cost := net_of_discount fund_amount (i_discount_rate invoice) in
  require_authorized (i_token invoice) funder;;
  (if prospective_funded =? i_amount invoice
   then require_authorized (i_token invoice) (i_freelancer invoice) else mret tt);;
  invoke (ext_transfer (i_token invoice) funder me cost).

(** The contributor list, the freelancer payout on full funding, and the new
    invoice state. *)
Definition fund_apply (funder : Address) (invoice_id : Z) (invoice : Invoice)
    (fund_amount prospective_funded : Z) : IO Invoice :=
  funders ← get_invoice_funders invoice_id;
  save_invoice_funders invoice_id (add_contribution funder fund_amount funders);;
  let invoice := set_amount_funded prospective_funded invoice in
  invoice ←
    (if i_amount_funded invoice =? i_amount invoice then
       let freelancer_payout := net_of_discount (i_amount invoice) (i_discount_rate invoice) in
       transfer_out_strict (i_token invoice) (i_freelancer invoice) freelancer_payout;;
       now ← timestamp;
       funded_at ← unwrap (chk_u32 now);
       current_lp_score ← get_lp_score funder;
       set_lp_score funder (sat_u32 (current_lp_score + 1));;
       mret (set_funding (Some funder) (Some funded_at) (set_status Status.Funded invoice))
     else mret (set_status Status.PartiallyFunded invoice));
  save_invoice invoice;;
  sync_nft_state invoice_id;;
  mret invoice.

Definition effective_yield_bps (due_date discount_rate now : Z) : Z :=
  let seconds_to_due := if now <? due_date then due_date - now else 0 in
  let days_to_due := seconds_to_due ÷ (24 * 60 * 60) in
  ((discount_rate * days_to_due) ÷ 365) mod 2 ^ 32.

(** Indices, statistics, the distribution contract and the event. *)
Definition fund_finish (funder : Address) (invoice_id : Z) (invoice : Invoice)
    (fund_amount : Z) : IO unit :=
  add_invoice_to_lp funder invoice_id;;
  (if bool_decide (i_status invoice = Status.Funded) then increment_total_funded
   else mret tt);;
  add_volume (i_token invoice) fund_amount;;
  notify_distribution_funding funder fund_amount;;
  now ← timestamp;
  publish (Ev.InvoiceFunded (i_id invoice) funder (i_freelancer invoice) (i_payer invoice)
    (i_token invoice) fund_amount (i_amount_funded invoice) (i_amount invoice)
    (i_due_date invoice) (i_discount_rate invoice) (i_funded_at invoice) (i_status invoice)
    funder (effective_yield_bps (i_due_date invoice) (i_discount_rate invoice) now) now).

Definition fund_invoice (funder : Address) (invoice_id fund_amount : Z)
    (require_oracle_verification : bool) : IO unit :=
  lock_reentrancy;;
  require_not_paused;;
  '(invoice, prospective_funded) ←
    fund_checks funder invoice_id fund_amount require_oracle_verification;
  fund_collect funder invoice fund_amount prospective_funded;;
  invoice ← fund_apply funder invoice_id invoice fund_amount prospective_funded;
  fund_finish funder invoice_id invoice fund_amount;;
  unlock_reentrancy.

Definition transfer_lp_position (invoice_id : Z) (new_lp : Address) : IO unit :=
  require_not_paused;;
  invoice ← load_existing invoice_id;
  require_funded (i_status invoice);;
  current_lp ← ok_or (i_funder invoice) Err.Unauthorized;
  require_auth current_lp;;
  reject_if (bool_decide (current_lp = new_lp)) Err.Unauthorized;;
  funders ← get_invoice_funders invoice_id;
  save_invoice_funders invoice_id (move_contributions current_lp new_lp funders);;
  save_invoice (set_funding (Some new_lp) (i_funded_at invoice) invoice);;
  sync_nft_state invoice_id;;
  remove_invoice_from_lp current_lp invoice_id;;
  add_invoice_to_lp new_lp invoice_id;;
  publish (Ev.LPPositionTransferred invoice_id current_lp new_lp (i_status invoice)).

(** * Cancellation and expiry *)

(** The refund loop over the contributor list. *)
Definition refund_funders (invoice_id : Z) (invoice : Invoice)
    (funders : list (Address * Z)) : IO unit :=
  for_each funders (λ p,
    _ ← pay_or_escrow (i_token invoice) p.1 (net_of_discount p.2 (i_discount_rate invoice))
          invoice_id;
    mret tt).

Definition cancel_invoice (invoice_id : Z) : IO unit :=
  lock_reentrancy;;
  require_not_paused;;
  invoice ← load_existing invoice_id;
  require_submitter_by_id (i_freelancer invoice) invoice_id;;
  match i_status invoice with
  | Status.Pending => mret tt
  | Status.PartiallyFunded =>
      funders ← get_invoice_funders invoice_id;
      save_invoice (set_status Status.Cancelled invoice);;
      refund_funders invoice_id invoice funders
  | Status.Funded => throw Err.AlreadyFunded
  | Status.Paid => throw Err.AlreadyPaid
  | Status.Defaulted => throw Err.InvoiceDefaulted
  | Status.Appealed => throw Err.InvoiceAppealed
  | Status.Disputed => throw Err.InvoiceDisputed
  | Status.Expired => throw Err.InvoiceExpired
  | Status.Cancelled => throw Err.AlreadyCancelled
  end;;
  let invoice := set_status Status.Cancelled invoice in
  save_invoice invoice;;
  publish (Ev.InvoiceCancelled invoice_id (i_freelancer invoice) (i_status invoice));;
  unlock_reentrancy.

Definition expire_invoice (invoice_id : Z) : IO unit :=
  require_not_paused;;
  invoice ← load_existing invoice_id;
  now ← timestamp;
  reject_if (now <=? i_due_date invoice) Err.NotYetDefaulted;;
  require_pending (i_status invoice);;
  let invoice := set_status Status.Expired invoice in
  save_invoice invoice;;
  publish (Ev.InvoiceExpired (i_id invoice) (i_freelancer invoice) (i_status invoice)).

(** * Settlement *)
Definition notify_distribution_settlement (freelancer payer : Address)
    (settled_on_time : bool) : IO unit :=
  d ← get Key.DistributionContract;
  match d with
  | None => mret tt
  | Some dist_contract =>
      invoke (dist_accrue_settlement dist_contract freelancer payer settled_on_time)
  end.

(** The proportional distribution loop of [mark_paid]. *)
Definition distribute_shares (invoice_id : Z) (invoice : Invoice) (distribute_amount : Z)
    (funders : list (Address * Z)) : IO unit :=
  for_each funders (λ p,
    _ ← pay_or_escrow (i_token invoice) p.1
          (funder_share distribute_amount p.2 (i_amount invoice)) invoice_id;
    mret tt).

(** The full-payment part of [mark_paid]: fee, state change, distribution,
    reputation and event. *)
Definition settle_in_full (invoice_id : Z) (invoice : Invoice)
    (primary : Address * Z) (funders : list (Address * Z)) : IO unit :=
  fee_rate ← effective_fee_rate (i_amount invoice);
  let protocol_fee := bps_of (i_amount invoice) fee_rate in
  (if 0 <? protocol_fee then
     admin ← (get Key.Admin ≫= unwrap);
     _ ← pay_or_escrow (i_token invoice) admin protocol_fee invoice_id;
     mret tt
   else mret tt);;
  let distribute_amount := sat_i128 (i_amount invoice - protocol_fee) in
  payout_num ← ok_or (chk_i128 (distribute_amount * primary.2)) Err.ArithmeticOverflow;
  let primary_lp_payout := payout_num ÷ i_amount invoice in
  let lp_earned := default 0 (chk_i128 (primary_lp_payout - primary.2)) in
  let invoice := set_status Status.Paid invoice in
  save_invoice invoice;;
  sync_nft_state invoice_id;;
  distribute_shares invoice_id invoice distribute_amount funders;;
  increment_total_paid;;
  now ← timestamp;
  let paid_on_time := now <=? i_due_date invoice in
  notify_distribution_settlement (i_freelancer invoice) (i_payer invoice) paid_on_time;;
  current_score ← get_payer_score (i_payer invoice);
  set_payer_score (i_payer invoice) (sat_u32 (current_score + 1));;
  increment_invoices_paid (i_payer invoice);;
  increment_invoices_paid (i_freelancer invoice);;
  publish (Ev.InvoicePaid (i_id invoice) (i_payer invoice) primary.1 (i_freelancer invoice)
    (i_token invoice) (i_amount invoice) lp_earned primary_lp_payout now paid_on_time
    (i_status invoice)).

Definition mark_paid (invoice_id amount : Z) : IO unit :=
  lock_reentrancy;;
  require_not_paused;;
  reject_if (amount <=? 0) Err.InvalidAmount;;
  inv ← try_load_invoice invoice_id;
  invoice ← ok_or inv Err.InvoiceNotFound;
  require_payer_by_id invoice_id;;
  require_funded (i_status invoice);;
  let remaining := sat_i128 (i_amount invoice - i_amount_paid invoice) in
  reject_if (remaining <? amount) Err.OverpaymentRejected;;
  funders ← get_invoice_funders invoice_id;
  primary ← ok_or (head funders) Err.NotFunded;
  amount_paid ← ok_or (chk_i128 (i_amount_paid invoice + amount)) Err.ArithmeticOverflow;
  let invoice := set_amount_paid amount_paid invoice in
  require_authorized (i_token invoice) (i_payer invoice);;
  me ← current_contract;
  invoke (ext_transfer (i_token invoice) (i_payer invoice) me amount);;
  (if i_amount_paid invoice <? i_amount invoice then
     save_invoice invoice;;
     sync_nft_state invoice_id;;
     publish (Ev.InvoicePartiallyPaid (i_id invoice) (i_payer invoice) amount
       (i_amount_paid invoice) (sat_i128 (i_amount invoice - i_amount_paid invoice)))
   else settle_in_full invoice_id invoice primary funders);;
  unlock_reentrancy.

Definition claim_yield (invoice_id : Z) : IO Z :=
  invoice ← load_existing invoice_id;
  funder ← ok_or (i_funder invoice) Err.NothingToClaim;
  require_lp_by_id funder invoice_id;;
  match i_status invoice with
  | Status.Pending | Status.PartiallyFunded | Status.Funded => mret 0
  | Status.Defaulted => throw Err.InvoiceDefaulted
  | Status.Appealed => throw Err.InvoiceAppealed
  | Status.Disputed => throw Err.InvoiceDisputed
  | Status.Expired => throw Err.InvoiceExpired
  | Status.Cancelled => throw Err.AlreadyCancelled
  | Status.Paid => mret (bps_of (i_amount invoice) (i_discount_rate invoice))
  end.

Definition claim_pending_payout (recipient token : Address) : IO Z :=
  lock_reentrancy;;
  require_not_paused;;
  require_auth recipient;;
  amount ← claim_pending recipient token;
  unlock_reentrancy;;
  mret amount.

(** * Default *)
Definition total_refund (rate : Z) (funders : list (Address * Z)) : Z :=
  foldl (λ acc p, sat_i128 (acc + net_of_discount p.2 rate)) 0 funders.

(** The optional insurance top-up of [claim_default]. *)
Definition attempt_insurance (invoice_id : Z) (invoice : Invoice) (funder : Address) : IO unit :=
  pool ← get_insurance_pool;
  match pool with
  | None => mret tt
  | Some pool_addr =>
      enrolled ← try_invoke (pool_is_enrolled pool_addr funder);
      if bool_decide (enrolled = Some true) then
        r ← try_invoke (pool_claim pool_addr invoice_id funder);
        publish (match r with
                 | Some payout => Ev.InsuranceClaimAttempted (i_id invoice) funder true payout
                 | None => Ev.InsuranceClaimAttempted (i_id invoice) funder false 0
                 end)
      else mret tt
  end.

Definition claim_default (funder : Address) (invoice_id : Z) : IO unit :=
  lock_reentrancy;;
  require_not_paused;;
  require_lp funder;;
  invoice ← load_existing invoice_id;
  funders ← get_invoice_funders invoice_id;
  reject_if (negb (is_funder funder funders)) Err.Unauthorized;;
  now ← timestamp;
  reject_if (now <? i_due_date invoice) Err.NotYetDefaulted;;
  require_funded (i_status invoice);;
  let invoice := set_status Status.Defaulted invoice in
  save_invoice invoice;;
  sync_nft_state invoice_id;;
  refund_funders invoice_id invoice funders;;
  attempt_insurance invoice_id invoice funder;;
  current_score ← get_payer_score (i_payer invoice);
  save_pre_default_payer_score invoice_id current_score;;
  set_payer_score (i_payer invoice) (if 5 <? current_score then current_score - 5 else 0);;
  increment_invoices_defaulted (i_payer invoice);;
  publish (Ev.InvoiceDefaulted (i_id invoice) funder (i_freelancer invoice) (i_payer invoice)
    (i_token invoice) (i_amount invoice) (i_due_date invoice) now
    (total_refund (i_discount_rate invoice) funders) (i_status invoice));;
  unlock_reentrancy.

(** * Appeals *)
Definition appeal_default (invoice_id : Z) (evidence_hash : BytesN32) : IO unit :=
  require_not_paused;;
  invoice ← load_existing invoice_id;
  require_payer_by_id invoice_id;;
  appeal ← get_appeal invoice_id;
  reject_if (bool_decide (is_Some appeal)) Err.AlreadyAppealed;;
  reject_if (negb (bool_decide (i_status invoice = Status.Defaulted))) Err.NotDefaulted;;
  now ← timestamp;
  reject_if (sat_u64 (i_due_date invoice + APPEAL_WINDOW_SECONDS) <? now) Err.AppealWindowClosed;;
  snapshot ← get_pre_default_payer_score invoice_id;
  pre_default_score ← (match snapshot with
                       | Some s => mret s
                       | None => get_payer_score (i_payer invoice)
                       end);
  appealed_at ← unwrap (chk_u32 now);
  save_appeal invoice_id (mkAppealRecord evidence_hash appealed_at pre_default_score);;
  save_invoice (set_status Status.Appealed invoice);;
  sync_nft_state invoice_id;;
  publish (Ev.DefaultAppealed invoice_id (i_payer invoice) evidence_hash now).

Definition resolve_appeal (invoice_id : Z) (upheld : bool) : IO unit :=
  require_admin;;
  record_admin_action "resolve_appeal";;
  invoice ← load_existing invoice_id;
  reject_if (negb (bool_decide (i_status invoice = Status.Appealed))) Err.NotDefaulted;;
  a ← get_appeal invoice_id;
  appeal ← ok_or a Err.InvoiceNotFound;
  now ← timestamp;
  (if upheld then
     set_payer_score (i_payer invoice) (ap_pre_default_score appeal);;
     p ← get_reputation (i_payer invoice);
     set_reputation (mkReputationProfile (rp_address p) (rp_invoices_submitted p)
       (rp_invoices_paid p) (sat_u32 (rp_invoices_defaulted p - 1)) (rp_score p))
   else mret tt);;
  save_invoice (set_status Status.Defaulted invoice);;
  sync_nft_state invoice_id;;
  publish (Ev.AppealResolved invoice_id (i_payer invoice) upheld now).

(** * Disputes *)
Definition dispute_invoice (invoice_id : Z) (reason_hash : BytesN32) : IO unit :=
  require_not_paused;;
  invoice ← load_existing invoice_id;
  require_payer_by_id invoice_id;;
  d ← get_dispute invoice_id;
  reject_if (bool_decide (is_Some d)) Err.AlreadyDisputed;;
  require_disputable (i_status invoice);;
  now_ts ← timestamp;
  now_ledger ← sequence;
  save_dispute invoice_id (mkDisputeRecord reason_hash now_ledger);;
  save_invoice (set_status Status.Disputed invoice);;
  sync_nft_state invoice_id;;
  publish (Ev.InvoiceDisputed invoice_id (i_payer invoice) reason_hash now_ts).

(** [resolution = 1]: cancel, refund the LPs and return partial payments. *)
Definition uphold_dispute (invoice_id : Z) (invoice : Invoice) : IO Invoice :=
  let invoice := set_status Status.Cancelled invoice in
  save_invoice invoice;;
  funders ← get_invoice_funders invoice_id;
  refund_funders invoice_id invoice funders;;
  (if 0 <? i_amount_paid invoice then
     _ ← pay_or_escrow (i_token invoice) (i_payer invoice) (i_amount_paid invoice) invoice_id;
     publish (Ev.DisputeUpheldPayerRefund invoice_id (i_payer invoice) (i_amount_paid invoice))
   else mret tt);;
  mret invoice.

Definition resolve_dispute (invoice_id : Z) (resolution_hash : BytesN32) (resolution : Z) :
    IO unit :=
  lock_reentrancy;;
  require_admin;;
  record_admin_action "resolve_dispute";;
  invoice ← load_existing invoice_id;
  reject_if (negb (bool_decide (i_status invoice = Status.Disputed))) Err.NotDisputed;;
  invoice ←
    (if resolution =? 1 then uphold_dispute invoice_id invoice
     else if resolution =? 2 then mret (set_status (restored_status invoice) invoice)
     else throw Err.Unauthorized);
  save_invoice invoice;;
  sync_nft_state invoice_id;;
  now ← timestamp;
  publish (Ev.DisputeResolved invoice_id resolution_hash resolution now);;
  unlock_reentrancy.

Definition auto_resolve_dispute (invoice_id : Z) : IO unit :=
  invoice ← load_existing invoice_id;
  reject_if (negb (bool_decide (i_status invoice = Status.Disputed))) Err.NotDisputed;;
  d ← get_dispute invoice_id;
  dispute ← ok_or d Err.InvoiceNotFound;
  c ← get_config;
  config ← ok_or c Err.Unauthorized;
  now_ledger ← sequence;
  reject_if (now_ledger <? sat_u64 (di_disputed_at dispute + dispute_timeout_ledgers config))
    Err.Unauthorized;;
  save_invoice (set_status (restored_status invoice) invoice);;
  sync_nft_state invoice_id;;
  now ← timestamp;
  publish (Ev.DisputeResolved invoice_id 0%N 2 now).

(** * Views *)
Definition get_invoice (invoice_id : Z) : IO Invoice := load_existing invoice_id.
Definition get_invoice_count : IO Z :=
  n ← read_next_invoice_id; mret (sat_u64 (n - 1)).

(** [suggested_discount_rate]; [100 - capped] cannot underflow. *)
Definition suggested_discount_rate (payer : Address) : IO Z :=
  score ← get_payer_score payer;
  let capped := Z.min score 100 in
  mret (Z.max (500 + (100 - capped) * 5) 50).

(** The page of an index: [start..end] of [ids]. *)
Definition page_of (ids : list Z) (page page_size : Z) : list Z :=
  let page_size := Z.min page_size 50 in
  let start := sat_u32 (page * page_size) in
  if vlen ids <=? start then []
  else
    let stop := Z.min (sat_u32 (start + page_size)) (vlen ids) in
    take (Z.to_nat (stop - start)) (drop (Z.to_nat start) ids).

Fixpoint load_all (ids : list Z) : IO (list Invoice) :=
  match ids with
  | [] => mret []
  | id :: ids' => i ← load_invoice id; rest ← load_all ids'; mret (i :: rest)
  end.

Definition list_invoices_by_submitter (submitter : Address) (page page_size : Z) :
    IO (list Invoice) :=
  ids ← get_submitter_invoices submitter;
  load_all (page_of ids page page_size).
Definition list_invoices_by_lp (lp : Address) (page page_size : Z) : IO (list Invoice) :=
  ids ← get_lp_invoices lp;
  load_all (page_of ids page page_size).
End lifecycle.
