(* ===== verification/Queue.v ===== *)
(** The LP priority queue of the escrow contract ([lib.rs]): joining, resolution
    to the LP with the best current score, and recovery of a stalled queue. *)
From S2P Require Import Prelude Host Peers CoreTypes TopPayers CoreStore Access TokenSafety Nft.
From S2P Require Import OracleRegistry Pricing ConfigRs Admin Lifecycle.

(** The first index whose score is below [score], else the length. *)
Fixpoint insert_position (queue : list LpFundRequest) (score i : Z) : Z :=
  match queue with
  | [] => i
  | r :: rest => if lr_score r <? score then i else insert_position rest score (i + 1)
  end.

(** [best_score] of [resolve_fund_queue], over the current scores. *)
Definition best_of (scores : list Z) : Z :=
  foldl (λ best s, if best <? s then s else best) 0 scores.

(** The indices whose score is the best one. *)
Fixpoint tied_indices (scores : list Z) (best i : Z) : list Z :=
  match scores with
  | [] => []
  | s :: rest => if s =? best then i :: tied_indices rest best (i + 1)
                 else tied_indices rest best (i + 1)
  end.

Section queue.
Context {X : Type} `{TokenInterface X} `{Peers X}.
(** [env.prng().gen_range(0..n)], the host's network-seeded generator. *)
Variable gen_range : Z → Z.

Abbreviation W := (world DataKey X Event).
Abbreviation IO := (M W ContractError).

Definition join_fund_queue (lp : Address) (invoice_id : Z) : IO unit :=
  require_not_paused;;
  require_lp lp;;
  b ← invoice_exists invoice_id;
  reject_if (negb b) Err.InvoiceNotFound;;
  resolution ← get_queue_resolution invoice_id;
  reject_if (bool_decide (is_Some resolution)) Err.NotApprovedFunder;;
  invoice ← load_invoice invoice_id;
  require_fundable (i_status invoice);;
  now ← timestamp;
  reject_if (i_due_date invoice <? now) Err.InvoiceExpired;;
  queue ← get_fund_queue invoice_id;
  reject_if (MAX_FUND_QUEUE_LEN <=? vlen queue) Err.QueueFull;;
  reject_if (existsb (λ r, bool_decide (lr_lp r = lp)) queue) Err.AlreadyInQueue;;
  score ← get_lp_score lp;
  let insert_pos := insert_position queue score 0 in
  queue ←
    (if MAX_FUND_QUEUE_LEN <=? vlen queue then
       tail ← ok_or (vget queue (vlen queue - 1)) Err.QueueFull;
       reject_if (score <=? lr_score tail) Err.QueueFull;;
       publish (Ev.FundQueueEntryDisplaced invoice_id (lr_lp tail) (lr_score tail) lp score);;
       mret (pop_back queue)
     else mret queue);
  queue ← unwrap (vinsert queue insert_pos (mkLpFundRequest lp score));
  save_fund_queue invoice_id queue;;
  try_set_fund_queue_opened_at invoice_id;;
  publish (Ev.FundRequested invoice_id lp score).

Definition require_queueable (invoice : Invoice) : IO unit :=
  require_fundable (i_status invoice);;
  now ← timestamp;
  reject_if (i_due_date invoice <? now) Err.InvoiceExpired.

(** The current LP score of every queued entry. *)
Definition current_scores (queue : list LpFundRequest) : IO (list Z) :=
  reads (λ w, (λ r, default DEFAULT_LP_SCORE (store w (Key.LpScore (lr_lp r)))) <$> queue).

(** The source's [tied_count] is not bound; it is read as [tied.len()]. *)
Definition resolve_fund_queue (invoice_id : Z) : IO Address :=
  require_not_paused;;
  b ← invoice_exists invoice_id;
  reject_if (negb b) Err.InvoiceNotFound;;
  resolution ← get_queue_resolution invoice_id;
  match resolution with
  | Some approved => mret approved
  | None =>
      inv ← try_load_invoice invoice_id;
      invoice ← ok_or inv Err.InvoiceNotFound;
      require_queueable invoice;;
      queue ← get_fund_queue invoice_id;
      reject_if (bool_decide (queue = [])) Err.NotFunded;;
      current ← sequence;
      opened ← get_fund_queue_opened_at invoice_id;
      opened_at ←
        (match opened with
         | Some opened_at => mret opened_at
         | None =>
             publish (Ev.FundQueueResolutionAttempted invoice_id 0 current false);;
             throw Err.QueueStateArchived
         end);
      (if current <? sat_u32 (opened_at + QUEUE_DELAY_LEDGERS) then
         publish (Ev.FundQueueResolutionAttempted invoice_id opened_at current false);;
         throw Err.QueueNotMature
       else mret tt);;
      scores ← current_scores queue;
      let best_score := best_of scores in
      let tied := tied_indices scores best_score 0 in
      winner_index ← unwrap (if 1 <? vlen tied then vget tied (gen_range (vlen tied))
                             else vget tied 0);
      best_entry ← ok_or (vget queue winner_index) Err.QueueIndexOutOfBounds;
      let best_lp := lr_lp best_entry in
      save_queue_resolution invoice_id best_lp;;
      (if 1 <? vlen tied
       then publish (Ev.FundQueueTieBroken invoice_id (vlen tied) winner_index best_lp)
       else mret tt);;
      publish (Ev.FundQueueResolutionAttempted invoice_id opened_at current true);;
      publish (Ev.FundQueueResolved invoice_id best_lp best_score);;
      mret best_lp
  end.

Definition recover_fund_queue (invoice_id : Z) : IO (option Address) :=
  require_not_paused;;
  inv ← try_load_invoice invoice_id;
  invoice ← ok_or inv Err.InvoiceNotFound;
  queue ← get_fund_queue invoice_id;
  resolution ← get_queue_resolution invoice_id;
  reject_if (bool_decide (queue = []) && bool_decide (resolution = None)) Err.QueueNotStalled;;
  queueable ← reads (succeeds (require_queueable invoice));
  if negb queueable then
    clear_fund_queue_state invoice_id;;
    publish (Ev.FundQueueRecovered invoice_id resolution 0 true);;
    mret None
  else
    winner ← ok_or resolution Err.QueueNotStalled;
    resolved_at ← get_or (Key.QueueResolvedAt invoice_id) 0;
    now_ts ← timestamp;
    let near_expiry := sat_u64 (i_due_date invoice - now_ts) <=? NEAR_EXPIRY_WINDOW_SECS in
    let grace := if near_expiry then QUEUE_DELAY_LEDGERS else QUEUE_RESOLUTION_TTL_LEDGERS in
    ledger ← sequence;
    reject_if (ledger <? sat_u32 (resolved_at + grace)) Err.QueueNotStalled;;
    let remaining := filter (λ r, lr_lp r ≠ winner) queue in
    reopen_fund_queue invoice_id remaining;;
    publish (Ev.FundQueueRecovered invoice_id (Some winner) (vlen remaining) false);;
    mret (Some winner).
End queue.
