(* ===== verification/Multisig.v ===== *)
(** The threshold admin of the escrow contract ([multisig.rs] and the multisig
    entry points of [lib.rs]). *)
From S2P Require Import Prelude Host Peers CoreTypes TopPayers CoreStore Access TokenSafety.
From S2P Require Import ConfigRs Admin.

Definition MULTISIG_WINDOW_LEDGERS : Z := 17280.
Definition ROTATION_TIMELOCK_LEDGERS : Z := 34560.

(** The pairwise comparison loop of [is_valid_config]. *)
Fixpoint has_duplicate (signers : list Address) : bool :=
  match signers with
  | [] => false
  | s :: rest => bool_decide (s ∈ rest) || has_duplicate rest
  end.

Definition is_valid_config (signers : list Address) (threshold : Z) : bool :=
  if bool_decide (signers = []) || (threshold =? 0) || (vlen signers <? threshold) then false
  else negb (has_duplicate signers).

Definition is_signer (signers : list Address) (address : Address) : bool :=
  bool_decide (address ∈ signers).
Definition has_signed (p : MultisigProposal) (signer : Address) : bool :=
  bool_decide (signer ∈ pr_signers_approved p).
Definition threshold_reached (p : MultisigProposal) (threshold : Z) : bool :=
  threshold <=? vlen (pr_signers_approved p).
Definition is_expired (ledger : Z) (p : MultisigProposal) : bool := pr_expires_at p <=? ledger.

Definition set_proposal_state (s : ProposalState) (p : MultisigProposal) : MultisigProposal :=
  mkProposal (pr_id p) (pr_action p) (pr_signers_approved p) s (pr_expires_at p).
Definition add_approval (signer : Address) (p : MultisigProposal) : MultisigProposal :=
  mkProposal (pr_id p) (pr_action p) (pr_signers_approved p ++ [signer]) (pr_state p)
    (pr_expires_at p).

(** The signer set after a rotation. *)
Definition rotated (old_signer new_signer : Address) (signers : list Address) : list Address :=
  filter (λ s, s ≠ old_signer) signers ++ [new_signer].

Section multisig.
Context {X : Type} `{TokenInterface X} `{Peers X}.
Abbreviation W := (world DataKey X Event).
Abbreviation IO := (M W ContractError).

Definition initialize_multisig (signers : list Address) (threshold : Z) : IO unit :=
  b ← has Key.MultisigAdmin;
  reject_if b Err.MultisigAlreadyConfigured;;
  reject_if (negb (is_valid_config signers threshold)) Err.InvalidMultisigConfig;;
  require_admin;;
  put Key.MultisigAdmin (mkMultisigAdmin signers threshold);;
  put Key.NextProposalId 1.

Definition load_config : IO MultisigAdmin :=
  c ← get Key.MultisigAdmin; ok_or c Err.MultisigNotConfigured.

Definition require_signer (config : MultisigAdmin) (signer : Address) : IO unit :=
  require_auth signer;;
  reject_if (negb (is_signer (ms_signers config) signer)) Err.NotAuthorizedSigner.

Definition propose (proposer : Address) (action : AdminAction) : IO Z :=
  config ← load_config;
  require_signer config proposer;;
  ledger ← sequence;
  existing_id ← get (Key.PendingActionProposal action);
  (match existing_id with
   | Some existing_id =>
       existing ← get (Key.MultisigProposal existing_id);
       reject_if (match existing with
                  | Some p => bool_decide (pr_state p = PPending) && negb (is_expired ledger p)
                  | None => false
                  end) Err.DuplicateProposal
   | None => mret tt
   end);;
  id ← get_or Key.NextProposalId 1;
  next ← unwrap (chk_u64 (id + 1));
  put Key.NextProposalId next;;
  put (Key.MultisigProposal id)
    (mkProposal id action [proposer] PPending (ledger + MULTISIG_WINDOW_LEDGERS));;
  put (Key.PendingActionProposal action) id;;
  mret id.

(** The checks [sign] and [execute] share: an executed proposal is rejected, an
    expired one is marked and rejected. *)
Definition load_live_proposal (proposal_id : Z) : IO MultisigProposal :=
  p ← get (Key.MultisigProposal proposal_id);
  p ← ok_or p Err.ProposalNotFound;
  reject_if (bool_decide (pr_state p = PExecuted)) Err.ProposalAlreadyExecuted;;
  ledger ← sequence;
  (if is_expired ledger p then
     put (Key.MultisigProposal proposal_id) (set_proposal_state PExpired p);;
     throw Err.ProposalExpired
   else mret tt);;
  mret p.

Definition sign (signer : Address) (proposal_id : Z) : IO unit :=
  config ← load_config;
  require_signer config signer;;
  p ← load_live_proposal proposal_id;
  reject_if (has_signed p signer) Err.AlreadySigned;;
  put (Key.MultisigProposal proposal_id) (add_approval signer p).

Definition execute (caller : Address) (proposal_id : Z) : IO AdminAction :=
  config ← load_config;
  require_signer config caller;;
  p ← load_live_proposal proposal_id;
  reject_if (negb (threshold_reached p (ms_threshold config))) Err.ThresholdNotReached;;
  put (Key.MultisigProposal proposal_id) (set_proposal_state PExecuted p);;
  remove (Key.PendingActionProposal (pr_action p));;
  mret (pr_action p).

Definition schedule_rotation (old_signer new_signer : Address) : IO PendingRotation :=
  b ← has Key.PendingSignerRotation;
  reject_if b Err.RotationAlreadyPending;;
  config ← load_config;
  reject_if (negb (is_signer (ms_signers config) old_signer)) Err.NotAuthorizedSigner;;
  reject_if (bool_decide (old_signer = new_signer) || is_signer (ms_signers config) new_signer)
    Err.InvalidMultisigConfig;;
  ledger ← sequence;
  let rotation := mkRotation old_signer new_signer (ledger + ROTATION_TIMELOCK_LEDGERS) in
  put Key.PendingSignerRotation rotation;;
  mret rotation.

Definition finalize_rotation (caller : Address) : IO PendingRotation :=
  config ← load_config;
  require_signer config caller;;
  r ← get Key.PendingSignerRotation;
  rotation ← ok_or r Err.RotationNotFound;
  ledger ← sequence;
  reject_if (ledger <? ro_effective_at rotation) Err.RotationTimelockNotExpired;;
  put Key.MultisigAdmin
    (mkMultisigAdmin (rotated (ro_old_signer rotation) (ro_new_signer rotation) (ms_signers config))
       (ms_threshold config));;
  remove Key.PendingSignerRotation;;
  mret rotation.

Definition cancel_rotation (caller : Address) : IO PendingRotation :=
  config ← load_config;
  require_signer config caller;;
  r ← get Key.PendingSignerRotation;
  rotation ← ok_or r Err.RotationNotFound;
  remove Key.PendingSignerRotation;;
  mret rotation.

(** ** Entry points of [lib.rs] *)
Definition finalize_signer_rotation (caller : Address) : IO unit :=
  r ← finalize_rotation caller;
  publish (Ev.SignerRotationFinalized (ro_old_signer r) (ro_new_signer r)).

Definition cancel_signer_rotation (caller : Address) : IO unit :=
  r ← cancel_rotation caller;
  publish (Ev.SignerRotationCancelled (ro_old_signer r) (ro_new_signer r)).

Definition execute_proposal (caller : Address) (proposal_id : Z) : IO unit :=
  action ← execute caller proposal_id;
  match action with
  | Pause => set_paused true;; now ← timestamp; publish (Ev.ContractPaused now)
  | Unpause => set_paused false;; now ← timestamp; publish (Ev.ContractUnpaused now)
  | RemoveToken token => delist_token token
  | SetFeeRate rate =>
      old_rate ← get_or Key.FeeRate 0;
      put Key.FeeRate rate;;
      publish (Ev.ParameterUpdated "protocol_fee_rate_bps" old_rate rate caller)
  | SetMaxDiscount rate =>
      old_rate ← get_or Key.MaxDiscountRate 0;
      put Key.MaxDiscountRate rate;;
      publish (Ev.ParameterUpdated "max_discount_rate_bps" old_rate rate caller)
  | UpdateMultisig new_signers new_threshold =>
      reject_if (negb (is_valid_config new_signers new_threshold)) Err.InvalidMultisigConfig;;
      put Key.MultisigAdmin (mkMultisigAdmin new_signers new_threshold)
  | RotateSigner old_signer new_signer =>
      rotation ← schedule_rotation old_signer new_signer;
      publish (Ev.SignerRotationScheduled old_signer new_signer (ro_effective_at rotation))
  end.
End multisig.
