(* ===== verification/SplitStore.v ===== *)
(** The split invoice format of [storage.rs]: an invoice kept as a hot
    [InvoiceCore] and a cold [InvoiceMetadata] entry with a fallback to the
    monolithic [Invoice] entry, the batched statistics accumulator, and the
    rollback-safety check over a sample of recent invoices. *)
From S2P Require Import Prelude Host CoreTypes TopPayers CoreStore Access.

(** In-memory statistics deltas ([i64], saturating). *)
Definition i64_max : Z := 2 ^ 63 - 1.
Record StatsAccumulator := mkStats {
  invoices_delta : Z;
  funded_delta : Z;
  paid_delta : Z
}.
Definition stats_new : StatsAccumulator := mkStats 0 0 0.
Definition sat_i64 (z : Z) : Z := sat (- 2 ^ 63) i64_max z.
Definition add_invoice (s : StatsAccumulator) : StatsAccumulator :=
  mkStats (sat_i64 (invoices_delta s + 1)) (funded_delta s) (paid_delta s).
Definition add_funded (s : StatsAccumulator) : StatsAccumulator :=
  mkStats (invoices_delta s) (sat_i64 (funded_delta s + 1)) (paid_delta s).
Definition add_paid (s : StatsAccumulator) : StatsAccumulator :=
  mkStats (invoices_delta s) (funded_delta s) (sat_i64 (paid_delta s + 1)).

(** How one sampled id counts. *)
Definition classify_layout (has_legacy has_core has_metadata : bool)
    (r : RollbackRehearsalReport) : RollbackRehearsalReport :=
  if negb has_legacy && negb has_core && negb has_metadata then r
  else
    let n := sat_u32 (invoices_checked r + 1) in
    if has_legacy then
      mkRollbackReport n (split_format_count r) (sat_u32 (legacy_format_count r + 1))
        (orphaned_count r) (rollback_safe r)
    else if has_core && has_metadata then
      mkRollbackReport n (sat_u32 (split_format_count r + 1)) (legacy_format_count r)
        (orphaned_count r) (rollback_safe r)
    else
      mkRollbackReport n (split_format_count r) (legacy_format_count r)
        (sat_u32 (orphaned_count r + 1)) (rollback_safe r).

(** [last_id], [last_id - 1], ..., [sample_start]. *)
Definition sample_ids (last_id sample_start : Z) : list Z :=
  (λ i : nat, last_id - Z.of_nat i) <$> seq 0 (Z.to_nat (last_id - sample_start + 1)).

Section split_store.
Context {X : Type}.
(** [constants::ROLLBACK_SAMPLE_SIZE] is used by the source but not declared. *)
Variable ROLLBACK_SAMPLE_SIZE : Z.
Abbreviation W := (world DataKey X Event).
Abbreviation IO := (M W ContractError).

Definition split_save_invoice (invoice : Invoice) : IO unit :=
  put (Key.InvoiceCore (i_id invoice)) (to_core invoice);;
  put (Key.InvoiceMetadata (i_id invoice)) (to_metadata invoice).

Definition split_load_invoice (id : Z) : IO Invoice :=
  core ← get (Key.InvoiceCore id);
  metadata ← get (Key.InvoiceMetadata id);
  match core, metadata with
  | Some core, Some metadata => mret (with_metadata core metadata)
  | _, _ => get (Key.Invoice id) ≫= unwrap
  end.

Definition split_invoice_exists (id : Z) : IO bool :=
  c ← has (Key.InvoiceCore id);
  if (c : bool) then mret true else has (Key.Invoice id).

Definition try_load_invoice_core (id : Z) : IO (option InvoiceCore) :=
  core ← get (Key.InvoiceCore id);
  match core with
  | Some core => mret (Some core)
  | None => invoice ← get (Key.Invoice id); mret (to_core <$> invoice)
  end.

Definition load_invoice_core (id : Z) : IO InvoiceCore :=
  core ← try_load_invoice_core id; unwrap core.

Definition commit_stats (s : StatsAccumulator) : IO unit :=
  (if 0 <? invoices_delta s then
     current ← get_or Key.TotalInvoices 0;
     put Key.TotalInvoices (sat_u64 (current + invoices_delta s))
   else mret tt);;
  (if 0 <? funded_delta s then
     current ← get_or Key.TotalFunded 0;
     put Key.TotalFunded (sat_u64 (current + funded_delta s))
   else mret tt);;
  (if 0 <? paid_delta s then
     current ← get_or Key.TotalPaid 0;
     put Key.TotalPaid (sat_u64 (current + paid_delta s))
   else mret tt).

Definition check_rollback_safety : IO RollbackRehearsalReport :=
  next_id ← get_or Key.NextInvoiceId 1;
  if next_id <=? 1 then mret (mkRollbackReport 0 0 0 0 true)
  else
    let last_id := next_id - 1 in
    let sample_start := sat_u64 (last_id - sat_u64 (ROLLBACK_SAMPLE_SIZE - 1)) in
    report ← reads (λ w : W,
      foldl (λ r id, classify_layout (bool_decide (is_Some (store w (Key.Invoice id))))
                       (bool_decide (is_Some (store w (Key.InvoiceCore id))))
                       (bool_decide (is_Some (store w (Key.InvoiceMetadata id)))) r)
        (mkRollbackReport 0 0 0 0 true) (sample_ids last_id sample_start));
    if orphaned_count report =? 0 then mret report else throw Err.RollbackUnsafe.

Definition rehearse_rollback : IO RollbackRehearsalReport :=
  require_admin;;
  record_admin_action "rehearse_rollback";;
  a ← get_admin;
  admin ← ok_or a Err.Unauthorized;
  report ← check_rollback_safety;
  now ← timestamp;
  publish (Ev.RollbackRehearsalCompleted admin report now);;
  mret report.
End split_store.

(** ** Lemmas *)
Lemma with_metadata_split i : with_metadata (to_core i) (to_metadata i) = i.
Proof. by destruct i. Qed.
