(* ===== verification/Frames.v ===== *)
(** Footprints of the escrow contract's helpers: which ledger entries each of
    them may write, and which of them leave the other contracts alone.  The
    lemmas are registered in the [keeps] hint database, so that [frame] proves
    the footprint of an operation built from them. *)
From S2P Require Import Prelude Host Peers CoreTypes TopPayers CoreStore Access TokenSafety Nft.
From S2P Require Import OracleRegistry Pricing ConfigRs Admin Lifecycle.

Section frames.
Context {X : Type} `{TokenInterface X} `{Peers X}.
Abbreviation W := (world DataKey X Event).
Abbreviation IO := (M W ContractError).
Implicit Types (S : DataKey → bool).

(** ** Reputation and leaderboard *)
Lemma update_top_payers_inner S a n :
  S Key.TopPayersHeap = true →
  keeps (inner S) (update_top_payers_on_score_change a n : IO unit).
Proof.
  intros. unfold update_top_payers_on_score_change, get_top_payers_heap,
    save_top_payers_heap. frame.
Qed.
Hint Resolve update_top_payers_inner : keeps.

Lemma get_reputation_inner S a : keeps (inner S) (get_reputation a : IO _).
Proof. unfold get_reputation. frame. Qed.
Hint Resolve get_reputation_inner : keeps.

Lemma set_reputation_inner S p :
  S (Key.Reputation (rp_address p)) = true → keeps (inner S) (set_reputation p : IO unit).
Proof. intros. unfold set_reputation. frame. Qed.
Hint Resolve set_reputation_inner : keeps.

Lemma set_profile_score_inner S a n :
  (∀ a, S (Key.Reputation a) = true) → keeps (inner S) (set_profile_score a n : IO unit).
Proof. intros. unfold set_profile_score. frame. Qed.
Hint Resolve set_profile_score_inner : keeps.

Lemma increment_invoices_submitted_inner S a :
  (∀ a, S (Key.Reputation a) = true) → keeps (inner S) (increment_invoices_submitted a : IO unit).
Proof. intros. unfold increment_invoices_submitted. frame. Qed.
Lemma increment_invoices_paid_inner S a :
  (∀ a, S (Key.Reputation a) = true) → keeps (inner S) (increment_invoices_paid a : IO unit).
Proof. intros. unfold increment_invoices_paid. frame. Qed.
Lemma increment_invoices_defaulted_inner S a :
  (∀ a, S (Key.Reputation a) = true) → keeps (inner S) (increment_invoices_defaulted a : IO unit).
Proof. intros. unfold increment_invoices_defaulted. frame. Qed.
Hint Resolve increment_invoices_submitted_inner increment_invoices_paid_inner
  increment_invoices_defaulted_inner : keeps.

Lemma get_payer_score_inner S a :
  (∀ a, S (Key.Reputation a) = true) → (∀ a, S (Key.PayerScore a) = true) →
  keeps (inner S) (get_payer_score a : IO Z).
Proof. intros. unfold get_payer_score, get_config. frame. Qed.
Hint Resolve get_payer_score_inner : keeps.

Lemma set_payer_score_inner S a n :
  (∀ a, S (Key.Reputation a) = true) → (∀ a, S (Key.PayerScore a) = true) →
  S Key.TopPayersHeap = true →
  keeps (inner S) (set_payer_score a n : IO unit).
Proof. intros. unfold set_payer_score. frame. Qed.
Hint Resolve set_payer_score_inner : keeps.

Lemma set_lp_score_inner S a n :
  (∀ a, S (Key.LpScore a) = true) → keeps (inner S) (set_lp_score a n : IO unit).
Proof. intros. unfold set_lp_score. frame. Qed.
Hint Resolve set_lp_score_inner : keeps.

(** ** Invoices, indices, statistics *)
Lemma save_invoice_inner S i :
  S (Key.Invoice (i_id i)) = true → keeps (inner S) (save_invoice i : IO unit).
Proof. intros. unfold save_invoice. frame. Qed.
Lemma save_invoice_funders_inner S id fs :
  S (Key.InvoiceFunders id) = true → keeps (inner S) (save_invoice_funders id fs : IO unit).
Proof. intros. unfold save_invoice_funders. frame. Qed.
Lemma next_invoice_id_inner S :
  S Key.NextInvoiceId = true → keeps (inner S) (next_invoice_id : IO Z).
Proof. intros. unfold next_invoice_id, read_next_invoice_id, write_next_invoice_id. frame. Qed.
Lemma try_load_invoice_inner S id : keeps (inner S) (try_load_invoice id : IO _).
Proof. unfold try_load_invoice. frame. Qed.
Lemma load_invoice_inner S id : keeps (inner S) (load_invoice id : IO _).
Proof. unfold load_invoice. frame. Qed.
Lemma load_existing_inner S id : keeps (inner S) (load_existing id : IO _).
Proof. unfold load_existing, invoice_exists, load_invoice. frame. Qed.
Hint Resolve save_invoice_inner save_invoice_funders_inner next_invoice_id_inner
  try_load_invoice_inner load_invoice_inner load_existing_inner : keeps.

Lemma add_invoice_to_submitter_inner S a id :
  (∀ a, S (Key.SubmitterInvoices a) = true) →
  keeps (inner S) (add_invoice_to_submitter a id : IO unit).
Proof. intros. unfold add_invoice_to_submitter, get_submitter_invoices. frame. Qed.
Lemma remove_invoice_from_submitter_inner S a id :
  (∀ a, S (Key.SubmitterInvoices a) = true) →
  keeps (inner S) (remove_invoice_from_submitter a id : IO unit).
Proof. intros. unfold remove_invoice_from_submitter, get_submitter_invoices. frame. Qed.
Lemma add_invoice_to_lp_inner S a id :
  (∀ a, S (Key.LpInvoices a) = true) → keeps (inner S) (add_invoice_to_lp a id : IO unit).
Proof. intros. unfold add_invoice_to_lp, get_lp_invoices. frame. Qed.
Lemma remove_invoice_from_lp_inner S a id :
  (∀ a, S (Key.LpInvoices a) = true) → keeps (inner S) (remove_invoice_from_lp a id : IO unit).
Proof. intros. unfold remove_invoice_from_lp, get_lp_invoices. frame. Qed.
Hint Resolve add_invoice_to_submitter_inner remove_invoice_from_submitter_inner
  add_invoice_to_lp_inner remove_invoice_from_lp_inner : keeps.

Lemma add_volume_inner S t n :
  S (Key.TokenVolume t) = true → S Key.TotalVolumeXlm = true →
  S Key.TotalVolumeUsdc = true → S Key.TotalVolumeEurc = true →
  keeps (inner S) (add_volume t n : IO unit).
Proof.
  intros. unfold add_volume, is_xlm_token, is_usdc_token, is_eurc_token, is_config_token,
    get_config. frame.
Qed.
Lemma increment_total_invoices_inner S :
  S Key.TotalInvoices = true → keeps (inner S) (increment_total_invoices : IO unit).
Proof. intros. unfold increment_total_invoices. frame. Qed.
Lemma increment_total_funded_inner S :
  S Key.TotalFunded = true → keeps (inner S) (increment_total_funded : IO unit).
Proof. intros. unfold increment_total_funded. frame. Qed.
Lemma increment_total_paid_inner S :
  S Key.TotalPaid = true → keeps (inner S) (increment_total_paid : IO unit).
Proof. intros. unfold increment_total_paid. frame. Qed.
Lemma track_referral_inner S c :
  (∀ c, S (Key.ReferralCount c) = true) → keeps (inner S) (track_referral c : IO unit).
Proof. intros. unfold track_referral. frame. Qed.
Hint Resolve add_volume_inner increment_total_invoices_inner increment_total_funded_inner
  increment_total_paid_inner track_referral_inner : keeps.

(** ** Access control *)
Lemma require_admin_inner S : keeps (inner S) (require_admin : IO unit).
Proof. unfold require_admin. frame. Qed.
Lemma require_submitter_by_id_inner S a id : keeps (inner S) (require_submitter_by_id a id : IO unit).
Proof. unfold require_submitter_by_id, invoice_exists. frame. Qed.
Lemma require_payer_by_id_inner S id : keeps (inner S) (require_payer_by_id id : IO unit).
Proof. unfold require_payer_by_id, invoice_exists. frame. Qed.
Lemma require_lp_by_id_inner S a id : keeps (inner S) (require_lp_by_id a id : IO unit).
Proof. unfold require_lp_by_id, invoice_exists, get_invoice_funders. frame. Qed.
Lemma lock_reentrancy_inner S :
  S Key.ReentrancyLock = true → keeps (inner S) (lock_reentrancy : IO unit).
Proof. intros. unfold lock_reentrancy. frame. Qed.
Lemma unlock_reentrancy_inner S :
  S Key.ReentrancyLock = true → keeps (inner S) (unlock_reentrancy : IO unit).
Proof. intros. unfold unlock_reentrancy. frame. Qed.
Lemma check_rate_limit_inner S f n :
  (∀ f, S (Key.RateLimit f) = true) → keeps (inner S) (check_rate_limit f n : IO unit).
Proof. intros. unfold check_rate_limit. frame. Qed.
Lemma record_admin_action_inner S f :
  (∀ n, S (Key.AdminActionLog n) = true) → S Key.AdminActionCount = true →
  keeps (inner S) (record_admin_action f : IO unit).
Proof. intros. unfold record_admin_action. frame. Qed.
Lemma require_not_paused_inner S : keeps (inner S) (require_not_paused : IO unit).
Proof. unfold require_not_paused, is_paused. frame. Qed.
Hint Resolve require_admin_inner require_submitter_by_id_inner require_payer_by_id_inner
  require_lp_by_id_inner lock_reentrancy_inner unlock_reentrancy_inner check_rate_limit_inner
  record_admin_action_inner require_not_paused_inner : keeps.

Lemma require_pending_inner S s : keeps (inner S) (require_pending s : IO unit).
Proof. unfold require_pending. frame. Qed.
Lemma require_fundable_inner S s : keeps (inner S) (require_fundable s : IO unit).
Proof. unfold require_fundable. frame. Qed.
Lemma require_funded_inner S s : keeps (inner S) (require_funded s : IO unit).
Proof. unfold require_funded. frame. Qed.
Lemma require_disputable_inner S s : keeps (inner S) (require_disputable s : IO unit).
Proof. unfold require_disputable. frame. Qed.
Lemma is_approved_token_inner S t : keeps (inner S) (is_approved_token t : IO bool).
Proof. unfold is_approved_token, get_config. frame. Qed.
Lemma validate_terms_inner S a d r t :
  keeps (inner S) (validate_invoice_terms_with_token a d r t : IO unit).
Proof.
  unfold validate_invoice_terms_with_token, validate_invoice_terms_for_min,
    registered_token_decimals. frame.
Qed.
Hint Resolve require_pending_inner require_fundable_inner require_funded_inner
  require_disputable_inner is_approved_token_inner validate_terms_inner : keeps.

(** ** NFTs *)
Lemma sync_nft_state_inner S id :
  S (Key.InvoiceNft id) = true → S (Key.InvoiceNftOwner id) = true →
  keeps (inner S) (sync_nft_state id : IO unit).
Proof.
  intros. unfold sync_nft_state, invoice_nft_exists, get_invoice_nft_owner,
    burn_invoice_nft, transfer_invoice_nft, mint_invoice_nft, get_invoice_funders. frame.
Qed.
Hint Resolve sync_nft_state_inner : keeps.

(** ** Token controls *)
Lemma require_authorized_inner S t a : keeps (inner S) (require_authorized t a : IO unit).
Proof. unfold require_authorized, query_authorized. frame. Qed.
Lemma ensure_spendable_inner S t n r : keeps (inner S) (ensure_spendable t n r : IO unit).
Proof. unfold ensure_spendable. frame. Qed.
Lemma set_pending_inner S r t n m :
  S (Key.PendingPayout r t) = true → S (Key.PendingPayoutTotal t) = true →
  keeps (inner S) (set_pending r t n m : IO unit).
Proof. intros. unfold set_pending. frame. Qed.
Hint Resolve require_authorized_inner ensure_spendable_inner set_pending_inner : keeps.

Lemma transfer_from_self_touches S t a n :
  keeps (touches S) (transfer_from_self t a n : IO unit).
Proof. unfold transfer_from_self. frame. Qed.
Hint Resolve transfer_from_self_touches : keeps.

Lemma transfer_out_strict_touches S t a n :
  keeps (touches S) (transfer_out_strict t a n : IO unit).
Proof. unfold transfer_out_strict, pending_payout_total. frame. Qed.
Lemma pay_or_escrow_touches S t a n id :
  (∀ r t, S (Key.PendingPayout r t) = true) → (∀ t, S (Key.PendingPayoutTotal t) = true) →
  keeps (touches S) (pay_or_escrow t a n id : IO bool).
Proof.
  intros. unfold pay_or_escrow, pending_payout_total, pending_payout, is_authorized,
    query_authorized. frame.
Qed.
Lemma claim_pending_touches S r t :
  (∀ r t, S (Key.PendingPayout r t) = true) → (∀ t, S (Key.PendingPayoutTotal t) = true) →
  keeps (touches S) (claim_pending r t : IO Z).
Proof. intros. unfold claim_pending, pending_payout, pending_payout_total. frame. Qed.
Hint Resolve transfer_out_strict_touches pay_or_escrow_touches claim_pending_touches : keeps.

Lemma refund_funders_touches S id i fs :
  (∀ r t, S (Key.PendingPayout r t) = true) → (∀ t, S (Key.PendingPayoutTotal t) = true) →
  keeps (touches S) (refund_funders id i fs : IO unit).
Proof. intros. unfold refund_funders. frame. Qed.
Lemma distribute_shares_touches S id i d fs :
  (∀ r t, S (Key.PendingPayout r t) = true) → (∀ t, S (Key.PendingPayoutTotal t) = true) →
  keeps (touches S) (distribute_shares id i d fs : IO unit).
Proof. intros. unfold distribute_shares. frame. Qed.
Hint Resolve refund_funders_touches distribute_shares_touches : keeps.

(** ** Oracles and peers *)
Lemma record_oracle_health_inner S f t o d m :
  S (Key.OracleHealth f t) = true → S (Key.OracleCircuitTripped f t) = true →
  S (Key.OracleCircuitRecovery f t) = true →
  keeps (inner S) (record_oracle_health f t o d m : IO unit).
Proof.
  intros. unfold record_oracle_health, maybe_recover_oracle_circuit,
    is_oracle_circuit_tripped. frame.
Qed.
Hint Resolve record_oracle_health_inner : keeps.

Lemma classify_feeders_touches S os p l m :
  keeps (touches S) (classify_feeders os p l m : IO _).
Proof.
  induction os as [|o os IH]; simpl; [frame |].
  unfold classify_identity_feeder. frame.
Qed.
Hint Resolve classify_feeders_touches : keeps.

Lemma query_sources_touches S os t : keeps (touches S) (query_sources os t : IO _).
Proof. apply query_sources_keeps; [apply _ |]. intros. unfold query_price. frame. Qed.
Lemma keep_survivors_touches S f t m d l :
  keeps (touches S) (keep_survivors f t m d l : IO _).
Proof. apply keep_survivors_keeps; [apply _ |]. intros. frame. Qed.

Lemma evaluate_identity_touches S f t p m :
  S (Key.OracleHealth f t) = true → S (Key.OracleCircuitTripped f t) = true →
  S (Key.OracleCircuitRecovery f t) = true →
  keeps (touches S) (evaluate_identity_verification f t p m : IO _).
Proof.
  intros. unfold evaluate_identity_verification, check_identity_quorum,
    get_identity_oracles, get_identity_quorum, resolve_oracle_for_verification,
    is_oracle_circuit_tripped, get_oracle_health, legacy_oracle, get_config,
    is_oracle_data_timestamp_regression, is_oracle_data_duplicate_update, get_oracle_health.
  frame.
Qed.
Hint Resolve evaluate_identity_touches : keeps.

Lemma require_identity_touches S i :
  (∀ f t, S (Key.OracleHealth f t) = true) → (∀ f t, S (Key.OracleCircuitTripped f t) = true) →
  (∀ f t, S (Key.OracleCircuitRecovery f t) = true) →
  keeps (touches S) (require_identity i : IO unit).
Proof. intros. unfold require_identity, max_oracle_age, get_config. frame. Qed.
Hint Resolve require_identity_touches : keeps.
Lemma fund_checks_touches S f id n b :
  (∀ a, S (Key.Reputation a) = true) → (∀ a, S (Key.PayerScore a) = true) →
  (∀ f t, S (Key.OracleHealth f t) = true) → (∀ f t, S (Key.OracleCircuitTripped f t) = true) →
  (∀ f t, S (Key.OracleCircuitRecovery f t) = true) →
  keeps (touches S) (fund_checks f id n b : IO _).
Proof.
  intros. unfold fund_checks, require_lp, get_queue_resolution, get_min_payer_reputation,
    get_token_volume_cap, get_token_volume. frame.
Qed.
Lemma notify_funding_touches S a n :
  keeps (touches S) (notify_distribution_funding a n : IO unit).
Proof. unfold notify_distribution_funding. frame. Qed.
Lemma notify_settlement_touches S a b c :
  keeps (touches S) (notify_distribution_settlement a b c : IO unit).
Proof. unfold notify_distribution_settlement. frame. Qed.
Lemma attempt_insurance_touches S id i a :
  keeps (touches S) (attempt_insurance id i a : IO unit).
Proof. unfold attempt_insurance, get_insurance_pool. frame. Qed.
End frames.

#[export] Hint Resolve update_top_payers_inner get_reputation_inner set_reputation_inner
  set_profile_score_inner increment_invoices_submitted_inner increment_invoices_paid_inner
  increment_invoices_defaulted_inner get_payer_score_inner set_payer_score_inner
  set_lp_score_inner save_invoice_inner save_invoice_funders_inner next_invoice_id_inner
  try_load_invoice_inner load_invoice_inner load_existing_inner
  add_invoice_to_submitter_inner remove_invoice_from_submitter_inner
  add_invoice_to_lp_inner remove_invoice_from_lp_inner add_volume_inner
  increment_total_invoices_inner increment_total_funded_inner increment_total_paid_inner
  track_referral_inner require_admin_inner require_submitter_by_id_inner
  require_payer_by_id_inner require_lp_by_id_inner lock_reentrancy_inner
  unlock_reentrancy_inner check_rate_limit_inner record_admin_action_inner
  require_not_paused_inner require_pending_inner require_fundable_inner require_funded_inner
  require_disputable_inner is_approved_token_inner validate_terms_inner
  sync_nft_state_inner require_authorized_inner ensure_spendable_inner set_pending_inner
  transfer_from_self_touches transfer_out_strict_touches pay_or_escrow_touches
  claim_pending_touches refund_funders_touches distribute_shares_touches
  record_oracle_health_inner classify_feeders_touches query_sources_touches
  keep_survivors_touches evaluate_identity_touches
  require_identity_touches fund_checks_touches notify_funding_touches notify_settlement_touches
  attempt_insurance_touches : keeps.
