(* ===== verification/CoreSpecs.v ===== *)
(** Inversion lemmas for the escrow contract's helpers: what a successful call
    of each guard and accessor says about the world it ran in.  They extend
    [minv]. *)
From S2P Require Import Prelude Host Peers CoreTypes TopPayers CoreStore Access TokenSafety Nft.
From S2P Require Import OracleRegistry Pricing ConfigRs Admin Lifecycle Frames.

(** ** Abstract view of the ledger *)
Section view.
Context {X : Type}.
Abbreviation W := (world DataKey X Event).

Definition invoice_at (w : W) (id : Z) : option Invoice := store w (Key.Invoice id).
Definition funders_at (w : W) (id : Z) : list (Address * Z) :=
  default [] (store w (Key.InvoiceFunders id)).
Definition next_id (w : W) : Z := default 1 (store w Key.NextInvoiceId).
Definition pending_at (w : W) (r t : Address) : Z := default 0 (store w (Key.PendingPayout r t)).
Definition pending_total (w : W) (t : Address) : Z := default 0 (store w (Key.PendingPayoutTotal t)).
Definition locked (w : W) : bool := default false (store w Key.ReentrancyLock).
Definition paused (w : W) : bool := default false (store w Key.Paused).
Definition max_discount (w : W) : Z := default 5000 (store w Key.MaxDiscountRate).

(** What [try_load_invoice] reads. *)
Definition lookup_invoice (w : W) (id : Z) : option Invoice :=
  match store w (Key.InvoiceCore id), store w (Key.InvoiceMetadata id) with
  | Some core, Some metadata => Some (with_metadata core metadata)
  | _, _ => store w (Key.Invoice id)
  end.
End view.
#[global] Arguments invoice_at : simpl never.
#[global] Arguments funders_at : simpl never.
#[global] Arguments next_id : simpl never.
#[global] Arguments pending_at : simpl never.
#[global] Arguments pending_total : simpl never.
#[global] Arguments locked : simpl never.
#[global] Arguments paused : simpl never.
#[global] Arguments max_discount : simpl never.
#[global] Arguments lookup_invoice : simpl never.

Section specs.
Context {X : Type} `{TokenInterface X} `{Peers X}.
Abbreviation W := (world DataKey X Event).
Abbreviation IO := (M W ContractError).
Implicit Types (w : W).

Definition lock_world w : W := with_store (st_set (store w) Key.ReentrancyLock (Some true)) w.
Definition unlock_world w : W := with_store (st_set (store w) Key.ReentrancyLock (Some false)) w.
Definition save_world (i : Invoice) w : W :=
  with_store (st_set (store w) (Key.Invoice (i_id i)) (Some i)) w.

(** The lock does not show in the rest of the view. *)
Lemma invoice_at_lock w id : invoice_at (lock_world w) id = invoice_at w id.
Proof. unfold invoice_at, lock_world; simpl. by sto. Qed.
Lemma invoice_at_unlock w id : invoice_at (unlock_world w) id = invoice_at w id.
Proof. unfold invoice_at, unlock_world; simpl. by sto. Qed.
Lemma funders_at_lock w id : funders_at (lock_world w) id = funders_at w id.
Proof. unfold funders_at, lock_world; simpl. by sto. Qed.
Lemma lookup_invoice_lock w id : lookup_invoice (lock_world w) id = lookup_invoice w id.
Proof. unfold lookup_invoice, lock_world; simpl. by sto. Qed.
Lemma paused_lock w : paused (lock_world w) = paused w.
Proof. unfold paused, lock_world; simpl. by sto. Qed.
Lemma funders_at_save w i id : funders_at (save_world i w) id = funders_at w id.
Proof. unfold funders_at, save_world; simpl. by sto. Qed.

Lemma lock_reentrancy_done u w w' :
  lock_reentrancy w = Done u w' → locked w = false ∧ w' = lock_world w.
Proof. intros Hx. unfold lock_reentrancy in Hx. by minv Hx. Qed.
Lemma unlock_reentrancy_done u w w' :
  unlock_reentrancy w = Done u w' → w' = unlock_world w.
Proof. intros Hx. unfold unlock_reentrancy in Hx. by minv Hx. Qed.
Lemma save_invoice_done i u w w' : save_invoice i w = Done u w' → w' = save_world i w.
Proof. intros Hx. unfold save_invoice in Hx. by minv Hx. Qed.
Lemma require_not_paused_done u w w' :
  require_not_paused w = Done u w' → paused w = false ∧ w' = w.
Proof. intros Hx. unfold require_not_paused, is_paused in Hx. by minv Hx. Qed.
Lemma load_existing_done id i w w' :
  load_existing id w = Done i w' → invoice_at w id = Some i ∧ w' = w.
Proof. intros Hx. unfold load_existing, invoice_exists, load_invoice in Hx. by minv Hx. Qed.
Lemma require_admin_done u w w' :
  require_admin w = Done u w' →
  ∃ a, store w Key.Admin = Some a ∧ auth (ctx w) a = true ∧ w' = w.
Proof. intros Hx. unfold require_admin in Hx. minv Hx. eauto. Qed.
Lemma require_submitter_by_id_done a id u w w' :
  require_submitter_by_id a id w = Done u w' →
  ∃ i, invoice_at w id = Some i ∧ auth (ctx w) a = true ∧ a = i_freelancer i ∧ w' = w.
Proof.
  intros Hx. unfold require_submitter_by_id, invoice_exists, load_invoice in Hx. minv Hx.
  rewrite negb_false_iff, bool_decide_eq_true in *. eauto.
Qed.
Lemma require_payer_by_id_done id u w w' :
  require_payer_by_id id w = Done u w' →
  ∃ i, invoice_at w id = Some i ∧ auth (ctx w) (i_payer i) = true ∧ w' = w.
Proof.
  intros Hx. unfold require_payer_by_id, invoice_exists, load_invoice in Hx. minv Hx. eauto.
Qed.
Lemma require_pending_done s u w w' :
  require_pending s w = Done u w' → s = Status.Pending ∧ w' = w.
Proof. intros Hx. unfold require_pending in Hx. by minv Hx. Qed.
Lemma require_fundable_done s u w w' :
  require_fundable s w = Done u w' →
  (s = Status.Pending ∨ s = Status.PartiallyFunded) ∧ w' = w.
Proof. intros Hx. unfold require_fundable in Hx. minv Hx; auto. Qed.
Lemma require_funded_done s u w w' :
  require_funded s w = Done u w' → s = Status.Funded ∧ w' = w.
Proof. intros Hx. unfold require_funded in Hx. by minv Hx. Qed.
Lemma require_disputable_done s u w w' :
  require_disputable s w = Done u w' →
  (s = Status.Pending ∨ s = Status.PartiallyFunded ∨ s = Status.Funded) ∧ w' = w.
Proof. intros Hx. unfold require_disputable in Hx. minv Hx; auto. Qed.
Lemma try_load_invoice_done id o w w' :
  try_load_invoice id w = Done o w' → o = lookup_invoice w id ∧ w' = w.
Proof.
  intros Hx. unfold try_load_invoice in Hx. unfold lookup_invoice.
  minv Hx; repeat case_match; simplify_eq; done.
Qed.
Lemma try_load_pass id w : (try_load_invoice id : IO _) w = Done (lookup_invoice w id) w.
Proof.
  unfold try_load_invoice, lookup_invoice, mbind, M_bind. simpl.
  by repeat case_match.
Qed.

Lemma is_approved_token_done t b w w' :
  is_approved_token t w = Done b w' → w' = w.
Proof. intros Hx. unfold is_approved_token, get_config in Hx. by minv Hx. Qed.
Lemma get_invoice_funders_done id fs w w' :
  get_invoice_funders id w = Done fs w' → fs = funders_at w id ∧ w' = w.
Proof. intros Hx. unfold get_invoice_funders in Hx. by minv Hx. Qed.
Lemma require_authorized_done t a u w w' :
  require_authorized t a w = Done u w' → tok_authorized (ext w) t a = Some true ∧ w' = w.
Proof.
  intros Hx. unfold require_authorized, query_authorized in Hx. by minv Hx.
Qed.
Lemma validate_terms_done a d r t u w w' :
  validate_invoice_terms_with_token a d r t w = Done u w' →
  w' = w ∧ (∃ dec, store w (Key.TokenDecimals t) = Some dec ∧ ten_pow dec ≤ a) ∧
  r ≠ 0 ∧ r ≤ max_discount w ∧ d ≤ u32_max ∧ now (ctx w) < d.
Proof.
  intros Hx. unfold validate_invoice_terms_with_token, validate_invoice_terms_for_min,
    registered_token_decimals in Hx. minv Hx.
  repeat match goal with
  | H : _ || _ = false |- _ => apply orb_false_iff in H as [??]
  | H : (_ <? _) = false |- _ => apply Z.ltb_ge in H
  | H : (_ <=? _) = false |- _ => apply Z.leb_gt in H
  | H : (_ =? _) = false |- _ => apply Z.eqb_neq in H
  end.
  split; [done |]. split; [eauto |]. split_and!; try done.
Qed.
Lemma save_invoice_funders_done id fs u w w' :
  save_invoice_funders id fs w = Done u w' →
  funders_at w' id = fs ∧ inner (λ k, bool_decide (k = Key.InvoiceFunders id)) w w'.
Proof.
  intros Hx. split.
  - unfold save_invoice_funders in Hx. unfold funders_at. minv Hx; sto; try done.
    rewrite bool_decide_eq_false, <-eq_None_not_Some in *. by simplify_option_eq.
  - revert Hx. apply save_invoice_funders_inner. by rewrite bool_decide_eq_true.
Qed.
End specs.

Create Rewrite HintDb view.
#[export] Hint Rewrite @invoice_at_lock @invoice_at_unlock @funders_at_lock
  @lookup_invoice_lock @paused_lock @funders_at_save : view.

Ltac minv_ext H ::= first
  [ apply lock_reentrancy_done in H as [? ?]
  | apply unlock_reentrancy_done in H
  | apply save_invoice_done in H
  | apply require_not_paused_done in H as [? ?]
  | apply load_existing_done in H as [? ?]
  | apply require_admin_done in H as (? & ? & ? & ?)
  | apply require_submitter_by_id_done in H as (? & ? & ? & ? & ?)
  | apply require_payer_by_id_done in H as (? & ? & ? & ?)
  | apply require_pending_done in H as [? ?]
  | apply require_fundable_done in H as [? ?]
  | apply require_funded_done in H as [? ?]
  | apply require_disputable_done in H as [? ?]
  | apply try_load_invoice_done in H as [? ?]
  | apply is_approved_token_done in H
  | apply get_invoice_funders_done in H as [? ?]
  | apply require_authorized_done in H as [? ?]
  | apply validate_terms_done in H as (? & (? & ? & ?) & ? & ? & ? & ?) ].
