(* ===== verification/Edits.v ===== *)
(** What each lifecycle operation does to the escrow contract's core state: the
    one invoice it edits, its contributor list, and everything it leaves alone. *)
From S2P Require Import Prelude Host Peers CoreTypes TopPayers CoreStore Access TokenSafety Nft.
From S2P Require Import OracleRegistry Pricing ConfigRs Admin Lifecycle Frames CoreSpecs.

(** Entries outside reputation, statistics, indices, NFTs, logs and oracles. *)
Definition core_key (k : DataKey) : bool :=
  match k with
  | Key.Invoice _ | Key.InvoiceCore _ | Key.InvoiceMetadata _ | Key.InvoiceFunders _
  | Key.NextInvoiceId | Key.PendingPayout _ _ | Key.PendingPayoutTotal _
  | Key.Admin | Key.Paused | Key.FeeRate | Key.FeeTiers | Key.MaxDiscountRate
  | Key.ReentrancyLock | Key.Config | Key.DistributionContract => true
  | _ => false
  end.
Definition aux (k : DataKey) : bool := negb (core_key k).
(** [aux] and the payout escrow. *)
Definition paying (k : DataKey) : bool :=
  match k with Key.PendingPayout _ _ | Key.PendingPayoutTotal _ => true | _ => aux k end.

(** [note_frames S]: replace every remaining helper run by its footprint. *)
Ltac note_frame S H :=
  lazymatch type of H with
  | ?m ?w = Done ?a ?w' =>
      let K := fresh "K" in
      assert (keeps (touches S) m) as K by (frame; done);
      apply K in H; clear K
  end.
Ltac note_frames S := repeat match goal with
  | H : _ _ = Done _ _ |- _ => note_frame S H
  end.
(** [outside]: a key is not in a footprint. *)
Ltac outside := first [ reflexivity
  | simpl; rewrite ?orb_false_iff; split_and?;
    first [reflexivity | apply bool_decide_eq_false_2; congruence] ].
(** [chase]: read core entries back through footprints and writes. *)
Ltac chase := simpl; repeat (first
  [ match goal with
    | F : touches _ _ ?w |- context [store ?w ?k] =>
        rewrite (proj2 (proj2 F) k ltac:(outside))
    | F : inner _ _ ?w |- context [store ?w ?k] =>
        rewrite (proj2 (proj2 (proj1 F)) k ltac:(outside))
    end
  | rewrite st_set_eq
  | rewrite st_set_ne by (first [done | congruence | naive_solver]) ];
  simpl).

Section edits.
Context {X : Type} `{TokenInterface X} `{Peers X}.
Abbreviation W := (world DataKey X Event).
Implicit Types (w : W).

(** No invoice, contributor list or id counter changes, nor the split entries. *)
Definition same_invoices (w w' : W) : Prop :=
  (∀ j, invoice_at w' j = invoice_at w j) ∧ (∀ j, funders_at w' j = funders_at w j) ∧
  next_id w' = next_id w ∧ (∀ j, store w' (Key.InvoiceCore j) = store w (Key.InvoiceCore j)).

(** Only invoice [id] changes, from [i] to [i'] with contributors [fs']. *)
Definition edited (id : Z) (i i' : Invoice) (fs' : list (Address * Z)) (w w' : W) : Prop :=
  invoice_at w id = Some i ∧ invoice_at w' id = Some i' ∧ funders_at w' id = fs' ∧
  (∀ j, j ≠ id → invoice_at w' j = invoice_at w j) ∧
  (∀ j, j ≠ id → funders_at w' j = funders_at w j) ∧
  next_id w' = next_id w ∧ (∀ j, store w' (Key.InvoiceCore j) = store w (Key.InvoiceCore j)).

(** Well-formed storage: the split format is unused, an invoice is stored under
    its own id, ids start at 1, and ids from the counter on are free. *)
Record wf (w : W) : Prop := {
  wf_next : 1 ≤ next_id w;
  wf_low j i : invoice_at w j = Some i → 1 ≤ j;
  wf_split j : store w (Key.InvoiceCore j) = None;
  wf_id j i : invoice_at w j = Some i → i_id i = j;
  wf_fresh j : next_id w ≤ j → invoice_at w j = None ∧ funders_at w j = []
}.

Lemma wf_lookup w id : wf w → lookup_invoice w id = invoice_at w id.
Proof. intros Hw. unfold lookup_invoice. by rewrite (wf_split _ Hw). Qed.

Lemma touches_invoice_at S w w' id :
  touches S w w' → S (Key.Invoice id) = false → invoice_at w' id = invoice_at w id.
Proof. intros (_ & _ & Hk) HS. exact (Hk (Key.Invoice id) HS). Qed.
Lemma touches_funders_at S w w' id :
  touches S w w' → S (Key.InvoiceFunders id) = false → funders_at w' id = funders_at w id.
Proof. intros (_ & _ & Hk) HS. unfold funders_at. by rewrite (Hk _ HS). Qed.

End edits.

Ltac own_id Hw := repeat match goal with
  | E : invoice_at _ ?id = Some ?i |- _ => is_var id; pose proof (wf_id _ Hw _ _ E); subst id
  end.

(** Invert a run and name what it loaded. *)
Ltac einv Hw Hx :=
  minv Hx; autorewrite with view in *; try rewrite (wf_lookup _ _ Hw) in *;
  simplify_eq; bools; own_id Hw.

Ltac edit_tac :=
  unfold edited, same_invoices, invoice_at, funders_at, next_id, lock_world, unlock_world,
    save_world in *; simpl in *; split_and!; intros; chase; try done.

(** [pull]: move what was read in a later world back through a footprint. *)
Ltac pull := repeat match goal with
  | F : touches ?S ?w ?w1, E : context [invoice_at ?w1 ?id] |- _ =>
      rewrite (touches_invoice_at S w w1 id F eq_refl) in E
  | F : touches ?S ?w ?w1, E : context [funders_at ?w1 ?id] |- _ =>
      rewrite (touches_funders_at S w w1 id F eq_refl) in E
  end; autorewrite with view in *.

Section operations.
Context {X : Type} `{TokenInterface X} `{Peers X}.
Abbreviation W := (world DataKey X Event).
Implicit Types (w : W).

Lemma expire_invoice_edits id w w' :
  wf w → expire_invoice id w = Done tt w' →
  ∃ i, i_status i = Status.Pending ∧ i_due_date i < now (ctx w) ∧
    edited id i (set_status Status.Expired i) (funders_at w id) w w'.
Proof.
  intros Hw Hx. unfold expire_invoice in Hx. einv Hw Hx.
  eexists. split_and!; [done..|]. edit_tac.
Qed.

Lemma cancel_invoice_edits id w w' :
  wf w → cancel_invoice id w = Done tt w' →
  ∃ i, (i_status i = Status.Pending ∨ i_status i = Status.PartiallyFunded) ∧
    auth (ctx w) (i_freelancer i) = true ∧
    edited id i (set_status Status.Cancelled i) (funders_at w id) w w'.
Proof.
  intros Hw Hx. unfold cancel_invoice in Hx. einv Hw Hx.
  - eexists; split_and!; [by left | done |]. edit_tac.
  - eexists; split_and!; [by right | done |]. note_frames paying. edit_tac.
Qed.

(** *** Terms of a pending invoice *)
Lemma update_invoice_edits f id amount due rate w w' :
  wf w → update_invoice f id amount due rate w = Done tt w' →
  ∃ i dec, i_status i = Status.Pending ∧ f = i_freelancer i ∧ auth (ctx w) f = true ∧
    store w (Key.TokenDecimals (i_token i)) = Some dec ∧ ten_pow dec ≤ amount ∧
    rate ≠ 0 ∧ rate ≤ max_discount w ∧ now (ctx w) < due ∧
    edited id i (set_terms amount due rate i) (funders_at w id) w w'.
Proof.
  intros Hw Hx. unfold update_invoice in Hx. einv Hw Hx.
  eexists _, _. split_and!; [done..|]. edit_tac.
Qed.

Lemma convert_invoice_token_edits f id t w w' :
  wf w → convert_invoice_token f id t w = Done tt w' →
  ∃ i, i_status i = Status.Pending ∧ f = i_freelancer i ∧ auth (ctx w) f = true ∧
    edited id i (set_token t i) (funders_at w id) w w'.
Proof.
  intros Hw Hx. unfold convert_invoice_token, registered_token_decimals in Hx. einv Hw Hx.
  eexists. split_and!; [done..|]. edit_tac.
Qed.

Lemma transfer_invoice_edits id f w w' :
  wf w → transfer_invoice id f w = Done tt w' →
  ∃ i, i_status i = Status.Pending ∧ auth (ctx w) (i_freelancer i) = true ∧
    edited id i (set_freelancer f i) (funders_at w id) w w'.
Proof.
  intros Hw Hx. unfold transfer_invoice in Hx. einv Hw Hx.
  eexists. split_and!; [done..|]. note_frames aux. edit_tac.
Qed.

(** *** Default, appeals and disputes *)
Lemma claim_default_edits f id w w' :
  wf w → claim_default f id w = Done tt w' →
  ∃ i, i_status i = Status.Funded ∧ auth (ctx w) f = true ∧
    is_funder f (funders_at w id) = true ∧ i_due_date i ≤ now (ctx w) ∧
    edited id i (set_status Status.Defaulted i) (funders_at w id) w w'.
Proof.
  intros Hw Hx. unfold claim_default in Hx. einv Hw Hx.
  eexists. split_and!; [done..|].
  note_frames paying. edit_tac.
Qed.

Lemma appeal_default_edits id h w w' :
  wf w → appeal_default id h w = Done tt w' →
  ∃ i, i_status i = Status.Defaulted ∧ auth (ctx w) (i_payer i) = true ∧
    edited id i (set_status Status.Appealed i) (funders_at w id) w w'.
Proof.
  intros Hw Hx. unfold appeal_default in Hx. einv Hw Hx;
  (eexists; split_and!; [done..|]); note_frames aux; edit_tac.
Qed.

Lemma resolve_appeal_edits id b w w' :
  wf w → resolve_appeal id b w = Done tt w' →
  ∃ i, i_status i = Status.Appealed ∧
    (∃ a, store w Key.Admin = Some a ∧ auth (ctx w) a = true) ∧
    edited id i (set_status Status.Defaulted i) (funders_at w id) w w'.
Proof.
  intros Hw Hx. unfold resolve_appeal in Hx. minv Hx; note_frames aux; pull; bools; own_id Hw;
    (eexists; split_and!; [done | by eauto |]); edit_tac.
Qed.

Lemma dispute_invoice_edits id h w w' :
  wf w → dispute_invoice id h w = Done tt w' →
  ∃ i, (i_status i = Status.Pending ∨ i_status i = Status.PartiallyFunded ∨
        i_status i = Status.Funded) ∧ auth (ctx w) (i_payer i) = true ∧
    edited id i (set_status Status.Disputed i) (funders_at w id) w w'.
Proof.
  intros Hw Hx. unfold dispute_invoice in Hx. einv Hw Hx.
  eexists; split_and!; [done..|]. note_frames aux. edit_tac.
Qed.

Lemma auto_resolve_dispute_edits id w w' :
  wf w → auto_resolve_dispute id w = Done tt w' →
  ∃ i, i_status i = Status.Disputed ∧
    edited id i (set_status (restored_status i) i) (funders_at w id) w w'.
Proof.
  intros Hw Hx. unfold auto_resolve_dispute in Hx. einv Hw Hx.
  eexists; split_and!; [done..|]. note_frames aux. edit_tac.
Qed.

Lemma resolve_dispute_edits id h r w w' :
  wf w → resolve_dispute id h r w = Done tt w' →
  ∃ i, i_status i = Status.Disputed ∧ (r = 1 ∨ r = 2) ∧
    (∃ a, store w Key.Admin = Some a ∧ auth (ctx w) a = true) ∧
    edited id i (set_status (if r =? 1 then Status.Cancelled else restored_status i) i)
      (funders_at w id) w w'.
Proof.
  intros Hw Hx. unfold resolve_dispute, uphold_dispute in Hx.
  minv Hx; note_frames paying; pull; bools; own_id Hw;
    (eexists; split_and!; [done | auto | eexists; split; [| done]; by chase |]); edit_tac.
Qed.
(** *** Funding *)
Lemma fund_checks_spec f id n b i p w w1 :
  fund_checks f id n b w = Done (i, p) w1 →
  lookup_invoice w id = Some i ∧ auth (ctx w) f = true ∧
  (∀ a, store w (Key.QueueResolution id) = Some a → a = f) ∧
  (i_status i = Status.Pending ∧ now (ctx w) ≤ i_due_date i ∨
   i_status i = Status.PartiallyFunded) ∧
  p = i_amount_funded i + n ∧ p ≤ i_amount i ∧ touches aux w w1.
Proof.
  intros Hx. assert (touches aux w w1) as Ht by (by apply (fund_checks_touches aux) in Hx).
  unfold fund_checks, require_lp, get_queue_resolution, get_min_payer_reputation,
    get_token_volume_cap, get_token_volume in Hx.
  minv Hx; bools. 
  all: simplify_eq; split_and!; try done.
  all: try (intros ? Hr; rewrite Hr in *; bools; done).
  all: try rewrite (proj1 (proj2 Ht)) in *;
    match goal with E : _ ∨ _ |- _ => destruct E as [Hs | Hs] end; rewrite Hs in *;
    [left | by right]; split; [done |];
    match goal with E : _ && _ = false |- _ => apply andb_false_iff in E as [E | E] end;
    by bools.
Qed.

(** The invoice after a successful [fund_invoice]. *)
Definition funded_invoice (f : Address) (n ts : Z) (i : Invoice) : Invoice :=
  let i1 := set_amount_funded (i_amount_funded i + n) i in
  if i_amount_funded i + n =? i_amount i
  then set_funding (Some f) (Some ts) (set_status Status.Funded i1)
  else set_status Status.PartiallyFunded i1.

Lemma fund_apply_spec f id i n i' w w' :
  i_id i = id →
  fund_apply f id i n (i_amount_funded i + n) w = Done i' w' →
  i' = funded_invoice f n (now (ctx w)) i ∧ invoice_at w' id = Some i' ∧
  funders_at w' id = add_contribution f n (funders_at w id) ∧
  touches (λ k, aux k || bool_decide (k = Key.Invoice id)
                || bool_decide (k = Key.InvoiceFunders id)) w w'.
Proof.
  intros Hid Hx. unfold fund_apply in Hx.
  apply bind_done in Hx as (fs & w0 & [-> ->]%get_invoice_funders_done & Hx).
  apply bind_done in Hx as ([] & w1 & [Hfs Hin]%save_invoice_funders_done & Hx).
  set (S := λ k, aux k || bool_decide (k = Key.Invoice id)
                || bool_decide (k = Key.InvoiceFunders id)).
  assert (touches S w w1) as Ht1.
  { destruct Hin as [(? & ? & Hk) _]. repeat split; try done. intros k HS. apply Hk.
    subst S; simpl in HS. by apply orb_false_iff in HS as [_ ->]. }
  apply bind_done in Hx as (i1 & w2 & H1 & Hx).
  assert (i1 = funded_invoice f n (now (ctx w)) i ∧ touches aux w1 w2) as [-> Ht2].
  { unfold funded_invoice, get_lp_score in *. simpl in H1. rewrite <-(proj1 (proj2 Ht1)).
    minv H1. note_frames aux. bools. split; [| by etrans].
    by rewrite (proj1 (proj2 Hm)). }
  minv Hx. note_frames aux. split; [done |].
  assert (i_id (funded_invoice f n (now (ctx w)) i) = i_id i) as Hid.
  { unfold funded_invoice. by case_match. }
  unfold invoice_at, save_world in *. rewrite Hid in *.
  split; [by chase |]. split; [unfold funders_at in *; by chase |].
  assert (∀ k, aux k = true → S k = true) as HS.
  { intros k Hk. subst S. simpl. by rewrite Hk. }
  etrans; [exact Ht1 |]. etrans; [eapply touches_mono; [exact Ht2 | done] |].
  etrans; [| eapply touches_mono; [exact Hm | done]].
  apply touches_st_set. subst S. simpl. by rewrite bool_decide_eq_true_2.
Qed.

Lemma fund_invoice_edits f id n b w w' :
  wf w → fund_invoice f id n b w = Done tt w' →
  ∃ i, (i_status i = Status.Pending ∧ now (ctx w) ≤ i_due_date i ∨
        i_status i = Status.PartiallyFunded) ∧ auth (ctx w) f = true ∧
    (∀ a, store w (Key.QueueResolution id) = Some a → a = f) ∧
    i_amount_funded i + n ≤ i_amount i ∧
    (∃ x x', tok_transfer x (i_token i) f (self w)
               (net_of_discount n (i_discount_rate i)) = Some x') ∧
    edited id i (funded_invoice f n (now (ctx w)) i)
      (add_contribution f n (funders_at w id)) w w'.
Proof.
  intros Hw Hx. unfold fund_invoice in Hx.
  apply bind_done in Hx as (? & ? & [_ ->]%lock_reentrancy_done & Hx).
  apply bind_done in Hx as (? & ? & [_ ->]%require_not_paused_done & Hx).
  apply bind_done in Hx as ([i p] & w1 & Hc & Hx).
  apply fund_checks_spec in Hc as (Hl & Ha & Hq & Hs & -> & Hle & Ht1).
  autorewrite with view in *. rewrite (wf_lookup _ _ Hw) in Hl. own_id Hw.
  apply bind_done in Hx as (? & w2 & Hc & Hx).
  unfold fund_collect in Hc.
  assert (∃ x x', tok_transfer x (i_token i) f (self w)
            (net_of_discount n (i_discount_rate i)) = Some x') as Hcov.
  { destruct Ht1 as [Hself _]. clear -Hc Hself.
    minv Hc; autorewrite with view in *; simpl in *;
      unfold ext_transfer in *; simplify_option_eq; rewrite Hself in *; eauto. }
  note_frame aux Hc.
  apply bind_done in Hx as (i' & w3 & Hap & Hx).
  apply fund_apply_spec in Hap as (-> & Hi & Hf & Ht3); [| done].
  unfold fund_finish in Hx.
  apply bind_done in Hx as (? & w4 & Hfin & ->%unlock_reentrancy_done).
  note_frame aux Hfin. exists i. split_and!; try done.
  assert (ctx w2 = ctx w) as Hctx.
  { rewrite (proj1 (proj2 Hc)), (proj1 (proj2 Ht1)). done. }
  rewrite Hctx in *. unfold edited, invoice_at, funders_at, next_id, unlock_world in *.
  split_and!; intros; chase; try done.
  - rewrite Hf. by chase.
Qed.

Lemma transfer_lp_position_edits id lp w w' :
  wf w → transfer_lp_position id lp w = Done tt w' →
  ∃ i old, i_status i = Status.Funded ∧ i_funder i = Some old ∧ auth (ctx w) old = true ∧
    old ≠ lp ∧
    edited id i (set_funding (Some lp) (i_funded_at i) i)
      (move_contributions old lp (funders_at w id)) w w'.
Proof.
  intros Hw Hx. unfold transfer_lp_position in Hx. einv Hw Hx.
  match goal with
  | E : save_invoice_funders _ _ _ = Done _ _ |- _ =>
      apply save_invoice_funders_done in E as [Hfs Hin]
  end.
  note_frames aux. eexists _, _. split_and!; [done..|].
  unfold edited, invoice_at, funders_at, next_id, save_world in *.
  split_and!; intros; chase; try done.
Qed.

(** *** Settlement *)
Definition paid_invoice (n : Z) (i : Invoice) : Invoice :=
  let i1 := set_amount_paid (i_amount_paid i + n) i in
  if i_amount_paid i + n <? i_amount i then i1 else set_status Status.Paid i1.

Lemma settle_in_full_edits id i p fs w w' :
  settle_in_full id i p fs w = Done tt w' → i_id i = id →
  edited id i (set_status Status.Paid i) (funders_at w id) (save_world i w) w'.
Proof.
  intros Hx Hid. unfold settle_in_full, effective_fee_rate in Hx.
  minv Hx; note_frames paying; unfold save_world in *; edit_tac.
Qed.

Lemma mark_paid_edits id n w w' :
  wf w → mark_paid id n w = Done tt w' →
  ∃ i, i_status i = Status.Funded ∧ auth (ctx w) (i_payer i) = true ∧
    0 < n ≤ sat_i128 (i_amount i - i_amount_paid i) ∧ funders_at w id ≠ [] ∧
    edited id i (paid_invoice n i) (funders_at w id) w w'.
Proof.
  intros Hw Hx. unfold mark_paid in Hx.
  minv Hx; autorewrite with view in *; rewrite (wf_lookup _ _ Hw) in *; simplify_eq; bools;
    own_id Hw; unfold paid_invoice; eexists; split_and!; try done;
    try (destruct (funders_at w _); naive_solver);
    destruct (i_amount_paid _ + n <? i_amount _) eqn:E; bools; try lia.
  - note_frames aux. edit_tac.
  - match goal with F : settle_in_full _ _ _ _ _ = Done _ _ |- _ =>
      apply settle_in_full_edits in F as (_ & Hi & Hf & Hj & Hfj & Hn & Hs); [| done] end.
    unfold edited, invoice_at, funders_at, next_id, unlock_world, save_world, lock_world in *.
    split_and!; intros; simpl in *; sto; try done.
    + rewrite Hj by done. by sto.
    + rewrite Hfj by done. by sto.
Qed.

(** *** Submission *)

(** The invoice [store_submission] creates. *)
Definition fresh_invoice (id : Z) (f p t : Address) (amount due rate : Z) (rc : ReferralCode)
    (rep : Z) : Invoice :=
  mkInvoice id f p t amount due rate Status.Pending None None 0 0 rc rep.

(** One new invoice at the counter, which advances by one. *)
Definition submitted (i : Invoice) (w w' : W) : Prop :=
  invoice_at w' (next_id w) = Some i ∧ i_id i = next_id w ∧ next_id w' = next_id w + 1 ∧
  (∀ j, j ≠ next_id w → invoice_at w' j = invoice_at w j) ∧
  (∀ j, funders_at w' j = funders_at w j) ∧
  (∀ j, store w' (Key.InvoiceCore j) = store w (Key.InvoiceCore j)).

Definition submission (k : DataKey) : bool :=
  match k with Key.Invoice _ | Key.NextInvoiceId => true | _ => aux k end.

Lemma store_submission_spec f p amount due rate t rc id w w' :
  store_submission f p amount due rate t rc w = Done id w' →
  id = next_id w ∧ touches submission w w' ∧
  ∃ rep, submitted (fresh_invoice id f p t amount due rate rc rep) w w'.
Proof.
  intros Hx. assert (touches submission w w') as Ht.
  { unfold store_submission in Hx. by note_frame submission Hx. }
  unfold store_submission, next_invoice_id, read_next_invoice_id, write_next_invoice_id in Hx.
  minv Hx. note_frames aux. bools. split; [done |]. split; [done |].
  eexists. unfold submitted, save_world, invoice_at, funders_at, next_id in *.
  split_and!; intros; chase; done.
Qed.
End operations.
