(* ===== verification/System.v ===== *)
(** The escrow contract as a transition system: its state-changing entry points,
    runs of them, the status machine every run obeys, and the well-formedness of
    storage. *)
From S2P Require Import Prelude Host Peers CoreTypes TopPayers CoreStore Access TokenSafety Nft.
From S2P Require Import OracleRegistry Pricing ConfigRs Admin Lifecycle Frames CoreSpecs Edits Queue.
From S2P Require Import Multisig SplitStore.

(** * Calls *)
Inductive Call :=
| Initialize (admin usdc eurc xlm : Address)
| SetAdmin (a : Address)
| UpdateFeeRate (rate : Z)
| UpdateMaxDiscount (rate : Z)
| UpdateDecayParams (rate period : Z)
| SetDistributionContract (d : Address)
| SetPriceOracle (o : Address)
| SetMaxOracleAge (n : Z)
| UpdateConfig (caller : Address) (threshold bonus min_rate decay_rate decay_period timeout : Z)
    (xlm usdc eurc : Address)
| SetInsurancePool (p : Address)
| SetMinPayerReputation (n : Z)
| SetMaxInvoiceAmount (n : Z)
| SetTokenVolumeCap (t : Address) (n : Z)
| AddToken (t : Address) (decimals : Z)
| RemoveTokenCall (t : Address)
| CorrectTokenDecimals (t : Address) (decimals : Z)
| PauseCall
| UnpauseCall
| Migrate
| RehearseRollback (sample_size : Z)
| UpdateFeeTiers (tiers : list (Z * Z))
| RegisterOracle (f : OracleFeedType) (o : Address)
| RemoveOracle (f : OracleFeedType)
| RegisterTokenOracle (f : OracleFeedType) (t o : Address)
| RemoveTokenOracle (f : OracleFeedType) (t : Address)
| CheckOracleHealth (f : OracleFeedType) (t p : Address)
| CheckOracleVerification (f : OracleFeedType) (t p : Address)
| ResetOracleCircuit (f : OracleFeedType) (t : Address)
| AddIdentityOracle (f : OracleFeedType) (o : Address)
| RemoveIdentityOracle (f : OracleFeedType) (o : Address)
| SetIdentityQuorum (n : Z)
| AddPriceSource (f : OracleFeedType) (o : Address)
| RemovePriceSource (f : OracleFeedType) (o : Address)
| SetMaxPriceDeviation (bps : Z)
| SetTwapEnabled (f : OracleFeedType) (enabled : bool)
| SetTwapWindow (ledgers : Z)
| RecordTwapSample (f : OracleFeedType) (t : Address) (price : Z)
| GetVerifiedPrice (f : OracleFeedType) (t : Address)
| GetTwapPrice (f : OracleFeedType) (t : Address)
| InitializeMultisig (signers : list Address) (threshold : Z)
| Propose (proposer : Address) (action : AdminAction)
| SignProposal (signer : Address) (proposal_id : Z)
| ExecuteProposal (caller : Address) (proposal_id : Z)
| FinalizeSignerRotation (caller : Address)
| CancelSignerRotation (caller : Address)
| PayerScoreView (payer : Address)
| JoinFundQueue (lp : Address) (id : Z)
| ResolveFundQueue (id : Z)
| RecoverFundQueue (id : Z)
| ClaimPendingPayout (recipient token : Address)
| SubmitInvoice (freelancer payer : Address) (amount due_date discount_rate : Z)
    (token : Address) (referral_code : ReferralCode)
| SubmitInvoicesBatch (invoices : list InvoiceParams)
| UpdateInvoice (freelancer : Address) (id amount due_date discount_rate : Z)
| ConvertInvoiceToken (freelancer : Address) (id : Z) (token : Address)
| TransferInvoice (id : Z) (freelancer : Address)
| FundInvoice (funder : Address) (id amount : Z) (verify : bool)
| TransferLpPosition (id : Z) (lp : Address)
| CancelInvoice (id : Z)
| ExpireInvoice (id : Z)
| MarkPaid (id amount : Z)
| ClaimDefault (funder : Address) (id : Z)
| AppealDefault (id : Z) (evidence : BytesN32)
| ResolveAppeal (id : Z) (upheld : bool)
| DisputeInvoice (id : Z) (reason : BytesN32)
| ResolveDispute (id : Z) (hash : BytesN32) (resolution : Z)
| AutoResolveDispute (id : Z).

(** * The abstract lifecycle

    The specification the entry points implement: how one invoice and its
    contributor list may change at ledger time [t] when the maximal discount rate
    is [cap] and amounts are at most [top].  Every other call leaves every invoice alone. *)
Definition contributors : Type := list (Address * Z).

Inductive revises (top cap t : Z) : Invoice → contributors → Invoice → contributors → Prop :=
| rev_terms i fs amount due rate :
    i_status i = Status.Pending → 0 < amount ≤ top → 0 < rate ≤ cap → t < due →
    revises top cap t i fs (set_terms amount due rate i) fs
| rev_token i fs tok :
    i_status i = Status.Pending → revises top cap t i fs (set_token tok i) fs
| rev_freelancer i fs f :
    i_status i = Status.Pending → revises top cap t i fs (set_freelancer f i) fs
| rev_fund i fs f n :
    (i_status i = Status.Pending ∧ t ≤ i_due_date i ∨ i_status i = Status.PartiallyFunded) →
    i_amount_funded i + n ≤ i_amount i → 0 ≤ net_of_discount n (i_discount_rate i) →
    revises top cap t i fs (funded_invoice f n t i) (add_contribution f n fs)
| rev_position i fs old new :
    i_status i = Status.Funded → i_funder i = Some old → old ≠ new →
    revises top cap t i fs (set_funding (Some new) (i_funded_at i) i)
      (move_contributions old new fs)
| rev_cancel i fs :
    i_status i = Status.Pending ∨ i_status i = Status.PartiallyFunded →
    revises top cap t i fs (set_status Status.Cancelled i) fs
| rev_expire i fs :
    i_status i = Status.Pending → i_due_date i < t →
    revises top cap t i fs (set_status Status.Expired i) fs
| rev_pay i fs n :
    i_status i = Status.Funded → 0 < n ≤ sat_i128 (i_amount i - i_amount_paid i) → fs ≠ [] →
    revises top cap t i fs (paid_invoice n i) fs
| rev_default i fs :
    i_status i = Status.Funded → i_due_date i ≤ t →
    revises top cap t i fs (set_status Status.Defaulted i) fs
| rev_appeal i fs :
    i_status i = Status.Defaulted → revises top cap t i fs (set_status Status.Appealed i) fs
| rev_appeal_closed i fs :
    i_status i = Status.Appealed → revises top cap t i fs (set_status Status.Defaulted i) fs
| rev_dispute i fs :
    i_status i = Status.Pending ∨ i_status i = Status.PartiallyFunded ∨
    i_status i = Status.Funded →
    revises top cap t i fs (set_status Status.Disputed i) fs
| rev_dispute_upheld i fs :
    i_status i = Status.Disputed → revises top cap t i fs (set_status Status.Cancelled i) fs
| rev_dispute_rejected i fs :
    i_status i = Status.Disputed → revises top cap t i fs (set_status (restored_status i) i) fs.

(** A newly submitted invoice. *)
Definition brand_new (top cap t : Z) (i : Invoice) : Prop :=
  i_status i = Status.Pending ∧ 0 < i_amount i ≤ top ∧
  0 < i_discount_rate i ≤ cap ∧ t < i_due_date i ∧ i_amount_funded i = 0 ∧
  i_amount_paid i = 0 ∧ i_funder i = None.

Lemma ten_pow_pos d : 0 < ten_pow d.
Proof.
  unfold ten_pow. induction (Z.to_nat d) as [|n IH]; simpl; [done |].
  unfold sat, i128_min, i128_max in *. lia.
Qed.

(** [open_admin]: the bodies of the administrative calls, down to the helpers with a
    known footprint. *)
Ltac open_admin :=
  unfold set_admin, update_fee_rate, update_max_discount, update_decay_params,
    set_distribution_contract, set_price_oracle, set_max_oracle_age, update_config,
    set_insurance_pool, set_min_payer_reputation, set_max_invoice_amount,
    set_token_volume_cap, add_token, remove_token, delist_token, correct_token_decimals,
    pause, unpause, migrate, rehearse_rollback, check_rollback_safety, backfill_decimals, update_fee_tiers,
    config_set_price_oracle, config_set_max_oracle_age, config_update_config,
    get_admin, get_config, set_config, get_min_payer_reputation, get_max_invoice_amount,
    get_token_volume_cap, set_paused, validate_token_decimals, validate_sac_authorization,
    query_authorized,
    register_oracle, remove_oracle, register_token_oracle, remove_token_oracle,
    verify_oracle_interface_version, check_oracle_health, check_oracle_verification,
    resolve_oracle, legacy_oracle, max_oracle_age, reset_oracle_circuit, add_identity_oracle,
    remove_identity_oracle, set_identity_quorum, get_identity_oracles, get_config,
    add_price_source, remove_price_source, get_price_sources, set_max_price_deviation_bps,
    get_max_price_deviation_bps, set_twap_enabled, set_twap_window_ledgers, record_twap_sample,
    get_verified_price, spot_price, get_twap_price, require_healthy_price_feed, price_feed_fault,
    is_oracle_circuit_tripped, get_oracle_health, is_twap_enabled, get_min_twap_observations,
    get_twap_window_ledgers,
    initialize_multisig, propose, sign, execute_proposal, execute, load_live_proposal,
    schedule_rotation, finalize_signer_rotation,
    finalize_rotation, cancel_signer_rotation, cancel_rotation, delist_token, set_paused,
    join_fund_queue, resolve_fund_queue, recover_fund_queue, require_queueable,
    require_lp, invoice_exists, get_queue_resolution, get_fund_queue, get_lp_score,
    save_fund_queue, try_set_fund_queue_opened_at, get_fund_queue_opened_at,
    current_scores, save_queue_resolution, clear_fund_queue_state, reopen_fund_queue,
    claim_pending_payout, load_config, require_signer.

Section system.
Context {X : Type} `{TokenInterface X} `{Peers X}.
Variables (MAX_FEE_TIERS MAX_IDENTITY_ORACLES_PER_FEED MAX_PRICE_SOURCES_PER_FEED : Z)
  (gen_range : Z → Z).
Abbreviation W := (world DataKey X Event).
Abbreviation IO := (M W ContractError).
Implicit Types (w : W).

Definition ignore {A} (m : IO A) : IO unit := _ ← m; mret tt.

Definition exec (c : Call) : IO unit :=
  match c with
  | Initialize a u e x => initialize a u e x
  | SetAdmin a => set_admin a
  | UpdateFeeRate r => update_fee_rate r
  | UpdateMaxDiscount r => update_max_discount r
  | UpdateDecayParams r p => update_decay_params r p
  | SetDistributionContract d => set_distribution_contract d
  | SetPriceOracle o => set_price_oracle o
  | SetMaxOracleAge n => set_max_oracle_age n
  | UpdateConfig c a1 a2 a3 a4 a5 a6 x u e => update_config c a1 a2 a3 a4 a5 a6 x u e
  | SetInsurancePool p => set_insurance_pool p
  | SetMinPayerReputation n => set_min_payer_reputation n
  | SetMaxInvoiceAmount n => set_max_invoice_amount n
  | SetTokenVolumeCap t n => set_token_volume_cap t n
  | AddToken t d => add_token t d
  | RemoveTokenCall t => remove_token t
  | CorrectTokenDecimals t d => correct_token_decimals t d
  | PauseCall => pause
  | UnpauseCall => unpause
  | Migrate => ignore migrate
  | RehearseRollback n => ignore (rehearse_rollback n)
  | UpdateFeeTiers ts => update_fee_tiers MAX_FEE_TIERS ts
  | RegisterOracle f o => register_oracle f o
  | RemoveOracle f => remove_oracle f
  | RegisterTokenOracle f t o => register_token_oracle f t o
  | RemoveTokenOracle f t => remove_token_oracle f t
  | CheckOracleHealth f t p => ignore (check_oracle_health f t p)
  | CheckOracleVerification f t p => ignore (check_oracle_verification f t p)
  | ResetOracleCircuit f t => reset_oracle_circuit f t
  | AddIdentityOracle f o => add_identity_oracle MAX_IDENTITY_ORACLES_PER_FEED f o
  | RemoveIdentityOracle f o => remove_identity_oracle f o
  | SetIdentityQuorum n => set_identity_quorum MAX_IDENTITY_ORACLES_PER_FEED n
  | AddPriceSource f o => add_price_source MAX_PRICE_SOURCES_PER_FEED f o
  | RemovePriceSource f o => remove_price_source f o
  | SetMaxPriceDeviation n => set_max_price_deviation_bps n
  | SetTwapEnabled f b => set_twap_enabled f b
  | SetTwapWindow n => set_twap_window_ledgers n
  | RecordTwapSample f t p => record_twap_sample f t p
  | GetVerifiedPrice f t => ignore (get_verified_price f t)
  | GetTwapPrice f t => ignore (get_twap_price f t)
  | InitializeMultisig s t => initialize_multisig s t
  | Propose p a => ignore (propose p a)
  | SignProposal s i => sign s i
  | ExecuteProposal c i => execute_proposal c i
  | FinalizeSignerRotation c => finalize_signer_rotation c
  | CancelSignerRotation c => cancel_signer_rotation c
  | PayerScoreView p => ignore (get_payer_score p)
  | JoinFundQueue lp i => join_fund_queue lp i
  | ResolveFundQueue i => ignore (resolve_fund_queue gen_range i)
  | RecoverFundQueue i => ignore (recover_fund_queue i)
  | ClaimPendingPayout r t => ignore (claim_pending_payout r t)
  | SubmitInvoice f p a d r t rc => ignore (submit_invoice f p a d r t rc)
  | SubmitInvoicesBatch l => ignore (submit_invoices_batch l)
  | UpdateInvoice f i a d r => update_invoice f i a d r
  | ConvertInvoiceToken f i t => convert_invoice_token f i t
  | TransferInvoice i f => transfer_invoice i f
  | FundInvoice f i n b => fund_invoice f i n b
  | TransferLpPosition i lp => transfer_lp_position i lp
  | CancelInvoice i => cancel_invoice i
  | ExpireInvoice i => expire_invoice i
  | MarkPaid i n => mark_paid i n
  | ClaimDefault f i => claim_default f i
  | AppealDefault i h => appeal_default i h
  | ResolveAppeal i b => resolve_appeal i b
  | DisputeInvoice i h => dispute_invoice i h
  | ResolveDispute i h r => resolve_dispute i h r
  | AutoResolveDispute i => auto_resolve_dispute i
  end.

(** The argument ranges the host's decoding guarantees ([i128] amounts, [u32]
    rates), with face amounts up to [top]; [top] is [i128_max] in general. *)
Definition typed (top : Z) (c : Call) : bool :=
  match c with
  | SubmitInvoice _ _ amount _ rate _ _ => (amount <=? top) && in_u32 rate
  | SubmitInvoicesBatch l =>
      forallb (λ p, (p_amount p <=? top) && in_u32 (p_discount_rate p)) l
  | UpdateInvoice _ _ amount _ rate => (amount <=? top) && in_u32 rate
  | FundInvoice _ _ amount _ => in_i128 amount
  | MarkPaid _ amount => in_i128 amount
  | _ => true
  end.

(** Calls that edit no invoice. *)
Definition administrative (c : Call) : bool :=
  match c with
  | SubmitInvoice _ _ _ _ _ _ _ | SubmitInvoicesBatch _ | UpdateInvoice _ _ _ _ _
  | ConvertInvoiceToken _ _ _ | TransferInvoice _ _ | FundInvoice _ _ _ _
  | TransferLpPosition _ _ | CancelInvoice _ | ExpireInvoice _ | MarkPaid _ _
  | ClaimDefault _ _ | AppealDefault _ _ | ResolveAppeal _ _ | DisputeInvoice _ _
  | ResolveDispute _ _ _ | AutoResolveDispute _ => false
  | _ => true
  end.

Definition not_invoice (k : DataKey) : bool :=
  match k with
  | Key.Invoice _ | Key.InvoiceCore _ | Key.InvoiceMetadata _ | Key.InvoiceFunders _
  | Key.NextInvoiceId => false
  | _ => true
  end.

Lemma administrative_frame c :
  administrative c = true → (∀ a u e x, c ≠ Initialize a u e x) →
  keeps (touches not_invoice) (exec c).
Proof.
  intros Hc Hi. destruct c; try done; simpl; unfold ignore;
    open_admin; try frame.
  exfalso. by eapply Hi.
Qed.

Lemma initialize_frame a u e x w w' :
  initialize a u e x w = Done tt w' → same_invoices w w'.
Proof.
  intros Hx. unfold initialize, set_config in Hx. minv Hx;
    unfold same_invoices, invoice_at, funders_at, next_id in *; simpl; split_and!;
    intros; sto; try done.
  rename select (bool_decide _ = false) into Hn. revert Hn. sto. intros Hn. bools.
  by apply eq_None_not_Some in Hn as ->.
Qed.

(** What a successful call does to the invoices: nothing, one revision of one
    invoice, or a run of submissions. *)
Variable top : Z.
Inductive submissions : W → W → Prop :=
| sub_none w : submissions w w
| sub_one i w w1 w2 :
    brand_new top (max_discount w) (now (ctx w)) i → submitted i w w1 →
    max_discount w1 = max_discount w → ctx w1 = ctx w →
    submissions w1 w2 → submissions w w2.

Inductive evolves w w' : Prop :=
| ev_same : same_invoices w w' → evolves w w'
| ev_edit id i i' fs' :
    edited id i i' fs' w w' →
    revises top (max_discount w) (now (ctx w)) i (funders_at w id) i' fs' → evolves w w'
| ev_submit : submissions w w' → evolves w w'.

Lemma touches_same_invoices S w w' :
  touches S w w' → (∀ k, S k = true → not_invoice k = true) → same_invoices w w'.
Proof.
  intros Ht HS. apply touches_mono with (S' := not_invoice) in Ht as (_ & _ & Hk); [| done].
  unfold same_invoices, invoice_at, funders_at, next_id. split_and!; intros; by rewrite Hk.
Qed.

Lemma touches_max_discount S w w' :
  touches S w w' → S Key.MaxDiscountRate = false → max_discount w' = max_discount w.
Proof. intros (_ & _ & Hk) HS. unfold max_discount. by rewrite Hk. Qed.

Lemma store_submission_one f p amount due rate t rc id w w1 w2 dec :
  store_submission f p amount due rate t rc w = Done id w1 →
  (amount <=? top) && in_u32 rate = true →
  ten_pow dec ≤ amount → rate ≠ 0 → rate ≤ max_discount w → now (ctx w) < due →
  submissions w1 w2 → submissions w w2.
Proof.
  intros Hs [Ht1%Z.leb_le Ht2%in_u32_spec]%andb_true_iff Ha Hr Hc Hd.
  pose proof (ten_pow_pos dec).
  apply store_submission_spec in Hs as (_ & Ht & rep & Hsub).
  apply sub_one with (fresh_invoice id f p t amount due rate rc rep); [| done | |].
  - unfold brand_new; simpl. split_and!; [done | lia.. | | | |]; done.
  - by eapply touches_max_discount.
  - apply Ht.
Qed.

Lemma submit_batch_loop_evolves auths l ids w w' :
  submit_batch_loop auths l w = Done ids w' →
  forallb (λ p, (p_amount p <=? top) && in_u32 (p_discount_rate p)) l = true →
  submissions w w'.
Proof.
  revert auths ids w. induction l as [|p l IH]; intros auths ids w Hx Ht; simpl in Hx, Ht.
  - minv Hx. constructor.
  - apply andb_true_iff in Ht as [Ht1 Ht].
    minv Hx; (eapply store_submission_one; [done..|]); by eapply IH.
Qed.

Lemma ignore_done {A} (m : IO A) w w' :
  ignore m w = Done tt w' → ∃ a, m w = Done a w'.
Proof. unfold ignore. intros (a & w1 & Hm & [_ ->]%ret_done)%bind_done. eauto. Qed.

Context `{!TokenLaws X}.

Definition submits (c : Call) : bool :=
  match c with SubmitInvoice _ _ _ _ _ _ _ | SubmitInvoicesBatch _ => true | _ => false end.

Lemma submit_submissions c w w' :
  submits c = true → typed top c = true → exec c w = Done tt w' → submissions w w'.
Proof.
  intros Hs Ht Hx. destruct c; try done; simpl in Hx, Ht; apply ignore_done in Hx as [ids Hx].
  - unfold submit_invoice in Hx. minv Hx. eapply store_submission_one; [done..|]. constructor.
  - unfold submit_invoices_batch in Hx. minv Hx. by eapply submit_batch_loop_evolves.
Qed.

Lemma administrative_same c w w' :
  administrative c = true → exec c w = Done tt w' → same_invoices w w'.
Proof.
  intros Hc Hx. destruct c; try done;
    first [ by eapply initialize_frame
          | apply administrative_frame in Hx; [| done..]; by eapply touches_same_invoices ].
Qed.

(** The entry points implement the lifecycle specification. *)
(** The invoice a call edits. *)
Definition subject (c : Call) : option Z :=
  match c with
  | UpdateInvoice _ id _ _ _ | ConvertInvoiceToken _ id _ | TransferInvoice id _
  | FundInvoice _ id _ _ | TransferLpPosition id _ | CancelInvoice id | ExpireInvoice id
  | MarkPaid id _ | ClaimDefault _ id | AppealDefault id _ | ResolveAppeal id _
  | DisputeInvoice id _ | ResolveDispute id _ _ | AutoResolveDispute id => Some id
  | _ => None
  end.

Lemma exec_edits c id w w' :
  wf w → typed top c = true → subject c = Some id → exec c w = Done tt w' →
  ∃ i i' fs', edited id i i' fs' w w' ∧
    revises top (max_discount w) (now (ctx w)) i (funders_at w id) i' fs'.
Proof.
  intros Hw Ht Hs Hx. destruct c; try done; injection Hs as ->; simpl in Hx, Ht.
  - apply update_invoice_edits in Hx as (i & dec & ? & ? & ? & ? & ? & ? & ? & ? & He); [| done].
    pose proof (ten_pow_pos dec).
    apply andb_true_iff in Ht as [Ht1%Z.leb_le Ht2%in_u32_spec].
    eexists _, _, _; split; [exact He |]. constructor; try done; lia.
  - apply convert_invoice_token_edits in Hx as (i & ? & ? & ? & He); [| done].
    eexists _, _, _; split; [exact He |]. by constructor.
  - apply transfer_invoice_edits in Hx as (i & ? & ? & He); [| done].
    eexists _, _, _; split; [exact He |]. by constructor.
  - apply fund_invoice_edits in Hx as (i & ? & ? & ? & ? & (x & x' & Hc1) & He); [| done].
    eexists _, _, _; split; [exact He |]. constructor; try done. by apply transfer_covered in Hc1 as [? _].
  - apply transfer_lp_position_edits in Hx as (i & old & ? & ? & ? & ? & He); [| done].
    eexists _, _, _; split; [exact He |]. by constructor.
  - apply cancel_invoice_edits in Hx as (i & ? & ? & He); [| done].
    eexists _, _, _; split; [exact He |]. by constructor.
  - apply expire_invoice_edits in Hx as (i & ? & ? & He); [| done].
    eexists _, _, _; split; [exact He |]. by constructor.
  - apply mark_paid_edits in Hx as (i & ? & ? & ? & ? & He); [| done].
    eexists _, _, _; split; [exact He |]. by constructor.
  - apply claim_default_edits in Hx as (i & ? & ? & ? & ? & He); [| done].
    eexists _, _, _; split; [exact He |]. by constructor.
  - apply appeal_default_edits in Hx as (i & ? & ? & He); [| done].
    eexists _, _, _; split; [exact He |]. by constructor.
  - apply resolve_appeal_edits in Hx as (i & ? & ? & He); [| done].
    eexists _, _, _; split; [exact He |]. by constructor.
  - apply dispute_invoice_edits in Hx as (i & ? & ? & He); [| done].
    eexists _, _, _; split; [exact He |]. by constructor.
  - apply resolve_dispute_edits in Hx as (i & ? & [-> | ->] & ? & He); [| | done];
      (eexists _, _, _; split; [exact He |]); by constructor.
  - apply auto_resolve_dispute_edits in Hx as (i & ? & He); [| done].
    eexists _, _, _; split; [exact He |]. by constructor.
Qed.

Lemma exec_evolves c w w' :
  wf w → typed top c = true → exec c w = Done tt w' → evolves w w'.
Proof.
  intros Hw Ht Hx. destruct (administrative c) eqn:Hc.
  { apply ev_same. by eapply administrative_same. }
  destruct (submits c) eqn:Hsub; [apply ev_submit; by eapply submit_submissions |].
  destruct (subject c) as [id |] eqn:Hs; [| by destruct c].
  destruct (exec_edits c id w w') as (i & i' & fs' & He & Hr); [done..|]. by eapply ev_edit.
Qed.

(** ** Storage well-formedness is an invariant *)
Lemma revises_id cap t i fs i' fs' : revises top cap t i fs i' fs' → i_id i' = i_id i.
Proof.
  intros Hr. destruct Hr; simpl; try done; unfold funded_invoice, paid_invoice; by case_match.
Qed.

Lemma submissions_wf w w' : submissions w w' → wf w → wf w'.
Proof.
  induction 1 as [|i w w1 w2 _ (Hi & Hid & Hn & Hj & Hf & Hs) _ _ _ IH]; [done |].
  intros [W1 Wl Ws Wi Wf]. apply IH. split.
  - lia.
  - intros j i' Hi'. destruct (decide (j = next_id w)) as [-> | Hne]; [done |].
    rewrite Hj in Hi' by done. by eapply Wl.
  - intros j. by rewrite Hs.
  - intros j i' Hi'. destruct (decide (j = next_id w)) as [-> | Hne]; [by simplify_eq |].
    rewrite Hj in Hi' by done. by apply Wi.
  - intros j Hge. rewrite Hn in Hge. rewrite Hj, Hf by lia. apply Wf. lia.
Qed.

Lemma evolves_wf w w' : evolves w w' → wf w → wf w'.
Proof.
  intros Hev Hw. pose proof Hw as [W1 Wl Ws Wi Wf].
  destruct Hev as [(Hj & Hf & Hn & Hs) | id i i' fs' He Hr | Hsub].
  - split; intros *; rewrite ?Hj, ?Hf, ?Hn, ?Hs; eauto.
  - destruct He as (Hi & Hi' & Hf' & Hj & Hf & Hn & Hs). split.
    + lia.
    + intros j k Hk. destruct (decide (j = id)) as [-> | Hne]; [by eapply Wl |].
      rewrite Hj in Hk by done. by eapply Wl.
    + intros j. by rewrite Hs.
    + intros j k Hk. destruct (decide (j = id)) as [-> | Hne].
      * simplify_eq. rewrite (revises_id _ _ _ _ _ _ Hr). by apply Wi.
      * rewrite Hj in Hk by done. by apply Wi.
    + intros j Hge. rewrite Hn in Hge. destruct (decide (j = id)) as [-> | Hne].
      * destruct (Wf _ Hge) as [? _]. congruence.
      * rewrite Hj, Hf by done. by apply Wf.
  - by eapply submissions_wf.
Qed.
End system.
