(* ===== verification/Invariants.v ===== *)
(** Runs of the escrow contract and what every run preserves: well-formed
    storage, the status machine, the amounts of each invoice. *)
From S2P Require Import Prelude Host Peers CoreTypes TopPayers CoreStore Access TokenSafety Nft.
From S2P Require Import OracleRegistry Pricing ConfigRs Admin Lifecycle Frames CoreSpecs Edits Queue.
From S2P Require Import Multisig System.

(** * The status machine *)

(** The transitions between different statuses. *)
Definition legal (s s' : InvoiceStatus) : bool :=
  match s, s' with
  | Status.Pending, (Status.PartiallyFunded | Status.Funded | Status.Expired
                    | Status.Cancelled | Status.Disputed) => true
  | Status.PartiallyFunded, (Status.Funded | Status.Cancelled | Status.Disputed) => true
  | Status.Funded, (Status.Paid | Status.Defaulted | Status.Disputed) => true
  | Status.Defaulted, Status.Appealed => true
  | Status.Appealed, Status.Defaulted => true
  | Status.Disputed, (Status.Pending | Status.PartiallyFunded | Status.Funded
                     | Status.Cancelled) => true
  | _, _ => false
  end.

Definition terminal (s : InvoiceStatus) : bool :=
  match s with Status.Paid | Status.Expired | Status.Cancelled => true | _ => false end.

(** What no revision changes, and what only a pending invoice may change. *)
Definition same_identity (i i' : Invoice) : Prop :=
  i_id i' = i_id i ∧ i_payer i' = i_payer i ∧ i_referral_code i' = i_referral_code i ∧
  i_submitter_reputation i' = i_submitter_reputation i.
Definition same_terms (i i' : Invoice) : Prop :=
  i_freelancer i' = i_freelancer i ∧ i_token i' = i_token i ∧ i_amount i' = i_amount i ∧
  i_due_date i' = i_due_date i ∧ i_discount_rate i' = i_discount_rate i.

Lemma revises_status top cap t i fs i' fs' :
  revises top cap t i fs i' fs' →
  i_status i' = i_status i ∨ legal (i_status i) (i_status i') = true.
Proof.
  destruct 1; simpl; unfold funded_invoice, paid_invoice, restored_status;
    repeat match goal with
    | E : i_status ?i = _ |- context [i_status ?i] => rewrite E
    | E : _ ∨ _ |- _ => destruct E
    | E : _ ∧ _ |- _ => destruct E
    | |- context [if ?b then _ else _] => destruct b; simpl
    end; auto.
Qed.

Lemma revises_identity top cap t i fs i' fs' : revises top cap t i fs i' fs' → same_identity i i'.
Proof.
  destruct 1; unfold same_identity, funded_invoice, paid_invoice;
    repeat case_match; done.
Qed.

Lemma revises_terms top cap t i fs i' fs' :
  revises top cap t i fs i' fs' → i_status i = Status.Pending ∨ same_terms i i'.
Proof.
  destruct 1; auto; right; unfold same_terms, funded_invoice, paid_invoice;
    repeat case_match; done.
Qed.

Lemma revises_not_terminal top cap t i fs i' fs' :
  revises top cap t i fs i' fs' → terminal (i_status i) = false.
Proof.
  destruct 1; repeat match goal with
    | E : _ ∨ _ |- _ => destruct E
    | E : _ ∧ _ |- _ => destruct E
    | E : i_status _ = _ |- _ => rewrite E
    end; done.
Qed.

(** * Amounts *)

(** The amounts an invoice in each status may carry. *)
Definition status_amounts (i : Invoice) : Prop :=
  match i_status i with
  | Status.Pending | Status.Expired => i_amount_funded i = 0 ∧ i_amount_paid i = 0
  | Status.PartiallyFunded => i_amount_funded i < i_amount i ∧ i_amount_paid i = 0
  | Status.Funded | Status.Defaulted | Status.Appealed =>
      i_amount_funded i = i_amount i ∧ i_amount_paid i < i_amount i
  | Status.Paid => i_amount_funded i = i_amount i ∧ i_amount_paid i = i_amount i
  | Status.Disputed | Status.Cancelled =>
      i_amount_paid i < i_amount i ∧ (i_amount_funded i < i_amount i → i_amount_paid i = 0)
  end.

Record good (top : Z) (i : Invoice) (fs : contributors) : Prop := {
  good_amount : 0 < i_amount i ≤ top;
  good_rate : 0 < i_discount_rate i < 10000;
  good_sum : zsum fs.*2 = i_amount_funded i;
  good_nonneg : Forall (λ n, 0 ≤ n) fs.*2;
  good_funded : 0 ≤ i_amount_funded i ≤ i_amount i;
  good_paid : 0 ≤ i_amount_paid i ≤ i_amount i;
  good_status : status_amounts i
}.

(** What holds of an invoice whatever its rate: with rates above 100% a funder may pay a
    positive net amount for a negative contribution. *)
Definition bounded_status (i : Invoice) : Prop :=
  match i_status i with
  | Status.Pending | Status.Expired => i_amount_funded i ≤ 0 ∧ i_amount_paid i = 0
  | _ => status_amounts i
  end.
Record bounded (top : Z) (i : Invoice) : Prop := {
  bounded_amount : 0 < i_amount i ≤ top;
  bounded_rate : 0 < i_discount_rate i;
  bounded_funded : i_amount_funded i ≤ i_amount i;
  bounded_paid : 0 ≤ i_amount_paid i ≤ i_amount i;
  bounded_by_status : bounded_status i
}.

Lemma net_nonneg_amount n r :
  0 < r < 10000 → 0 ≤ net_of_discount n r → 0 ≤ n.
Proof.
  intros Hr. unfold net_of_discount, bps_of, checked.
  destruct (in_i128 (n * r)); simpl; unfold sat, i128_min, i128_max;
    [| change (0 ÷ 10000) with 0; lia].
  intros Hn. destruct (Z.le_gt_cases 0 n) as [|Hneg]; [done |].
  assert (n < (n * r) ÷ 10000); [| lia].
  rewrite <-(Z.opp_involutive n) at 2.
  rewrite Z.mul_opp_l, Z.quot_opp_l, Z.quot_div_nonneg by nia.
  assert (- n * r / 10000 < - n); [| lia]. apply Z.div_lt_upper_bound; nia.
Qed.

Lemma add_contribution_sum f n fs :
  Forall (λ x, 0 ≤ x) fs.*2 → 0 ≤ n → zsum fs.*2 + n ≤ i128_max →
  zsum (add_contribution f n fs).*2 = zsum fs.*2 + n ∧
  Forall (λ x, 0 ≤ x) (add_contribution f n fs).*2.
Proof.
  intros Hf Hn. induction fs as [|[a m] fs IH]; csimpl in *.
  - split; [lia |]. by repeat constructor.
  - apply Forall_cons_1 in Hf as [Hm Hf]. intros Hle.
    pose proof (zsum_nonneg _ Hf).
    case_bool_decide; csimpl.
    + rewrite sat_id by (unfold i128_min, i128_max in *; lia).
      split; [lia |]. constructor; [lia | done].
    + destruct (IH Hf) as [-> ?]; [lia |]. split; [lia |]. by constructor.
Qed.

Lemma move_contributions_amounts old new fs : (move_contributions old new fs).*2 = fs.*2.
Proof.
  unfold move_contributions. induction fs as [|[a m] fs IH]; csimpl; [done |].
  rewrite IH. f_equal. by case_bool_decide.
Qed.

Ltac amounts :=
  split; simpl in *; try done; try lia; unfold status_amounts; simpl; try done; try lia.

(** Revisions keep the amounts good. *)
Lemma revises_good top cap t i fs i' fs' :
  revises top cap t i fs i' fs' → top ≤ i128_max → cap < 10000 →
  good top i fs → good top i' fs'.
Proof.
  intros Hr Htop Hcap [Ha Hd Hs Hn Hf Hp Hst]. unfold status_amounts in Hst.
  destruct Hr as [i fs am due rate E ??? | i fs tok E | i fs f E | i fs f n E Hle Hnet
    | i fs old new E ?? | i fs E | i fs E ? | i fs n E Hpay ? | i fs E ? | i fs E | i fs E
    | i fs E | i fs E | i fs E].
  - rewrite E in Hst. amounts. by rewrite E.
  - by split.
  - by split.
  - apply net_nonneg_amount in Hnet; [| done].
    destruct (add_contribution_sum f n fs) as [Hs' Hn']; [done | lia | lia |].
    unfold funded_invoice.
    destruct E as [[E _] | E]; rewrite E in Hst; destruct (_ =? _) eqn:Heq; bools; amounts.
  - rewrite E in Hst. rewrite <-(move_contributions_amounts old new) in Hs, Hn.
    amounts. by rewrite E.
  - destruct E as [E | E]; rewrite E in Hst; amounts.
  - rewrite E in Hst. amounts.
  - rewrite E in Hst. rewrite sat_id in Hpay by (unfold i128_min; lia).
    unfold paid_invoice. destruct (_ <? _) eqn:Hlt; bools; amounts. rewrite E. lia.
  - rewrite E in Hst. amounts.
  - rewrite E in Hst. amounts.
  - rewrite E in Hst. amounts.
  - destruct E as [E | [E | E]]; rewrite E in Hst; amounts.
  - rewrite E in Hst. amounts.
  - rewrite E in Hst. unfold restored_status.
    destruct (_ =? _) eqn:Heq; bools; [amounts |]. destruct (_ <? _) eqn:Hlt; bools; amounts.
Qed.

(** They keep the bounds at every rate. *)
Ltac bounds :=
  split; simpl in *; try done; try lia; unfold bounded_status, status_amounts; simpl;
  try done; try lia.

Lemma revises_bounded top cap t i fs i' fs' :
  revises top cap t i fs i' fs' → top ≤ i128_max → bounded top i → bounded top i'.
Proof.
  intros Hr Htop [Ha Hd Hf Hp Hst]. unfold bounded_status, status_amounts in Hst.
  destruct Hr as [i fs am due rate E ??? | i fs tok E | i fs f E | i fs f n E Hle Hnet
    | i fs old new E ?? | i fs E | i fs E ? | i fs n E Hpay ? | i fs E ? | i fs E | i fs E
    | i fs E | i fs E | i fs E].
  - rewrite E in Hst. bounds. by rewrite E.
  - by split.
  - by split.
  - unfold funded_invoice.
    destruct E as [[E _] | E]; rewrite E in Hst; destruct (_ =? _) eqn:Heq; bools; bounds.
  - rewrite E in Hst. bounds. by rewrite E.
  - destruct E as [E | E]; rewrite E in Hst; bounds.
  - rewrite E in Hst. bounds.
  - rewrite E in Hst. rewrite sat_id in Hpay by (unfold i128_min; lia).
    unfold paid_invoice. destruct (_ <? _) eqn:Hlt; bools; bounds. rewrite E. lia.
  - rewrite E in Hst. bounds.
  - rewrite E in Hst. bounds.
  - rewrite E in Hst. bounds.
  - destruct E as [E | [E | E]]; rewrite E in Hst; bounds.
  - rewrite E in Hst. bounds.
  - rewrite E in Hst. unfold restored_status.
    destruct (_ =? _) eqn:Heq; bools; [bounds |]. destruct (_ <? _) eqn:Hlt; bools; bounds.
Qed.

(** * Runs *)
Section runs.
Context {X : Type} `{TokenInterface X} `{Peers X} `{!TokenLaws X}.
Variables (MAX_FEE_TIERS MAX_IDENTITY_ORACLES_PER_FEED MAX_PRICE_SOURCES_PER_FEED : Z)
  (gen_range : Z → Z) (top : Z).
Abbreviation W := (world DataKey X Event).
Abbreviation exec :=
  (exec MAX_FEE_TIERS MAX_IDENTITY_ORACLES_PER_FEED MAX_PRICE_SOURCES_PER_FEED gen_range).
Implicit Types (w : W).

(** Between two calls other contracts act and time passes: nothing of the
    contract's own storage changes and nobody takes its tokens. *)
Definition environment w w' : Prop :=
  self w' = self w ∧ store w' = store w ∧ now (ctx w) ≤ now (ctx w') ∧
  ∀ t, tok_balance (ext w) t (self w) ≤ tok_balance (ext w') t (self w).

(** One committed call admitted by [ok], or the environment. *)
Inductive step (ok : Call → W → Prop) w w' : Prop :=
| step_call c : typed top c = true → ok c w → exec c w = Done tt w' → step ok w w'
| step_env : environment w w' → step ok w w'.

Definition any_call : Call → W → Prop := λ _ _, True.
(** Calls made while the maximal discount is below 100%. *)
Definition discount_below_par : Call → W → Prop := λ _ w, max_discount w < 10000.

(** Before the first call: no storage. *)
Definition deployed w : Prop := ∀ k, store w k = None.

Lemma deployed_wf w : deployed w → wf w.
Proof.
  intros Hd. split; intros *; unfold invoice_at, funders_at, next_id; rewrite ?Hd; done.
Qed.

Lemma environment_same w w' : environment w w' → same_invoices w w'.
Proof.
  intros (_ & Hs & _). unfold same_invoices, invoice_at, funders_at, next_id. by rewrite Hs.
Qed.

Lemma step_evolves ok w w' :
  wf w → step ok w w' → evolves top w w' ∧ ((∃ c, ok c w) ∨ same_invoices w w').
Proof.
  intros Hw [c Ht Hok Hx | He].
  - split; [by eapply exec_evolves | eauto].
  - apply environment_same in He. split; [by apply ev_same | by right].
Qed.

Lemma step_wf ok w w' : wf w → step ok w w' → wf w'.
Proof. intros Hw [Hev _]%step_evolves; [| done]. by eapply evolves_wf. Qed.

(** ** Status *)
Definition status_step (i i' : Invoice) : Prop :=
  (i_status i' = i_status i ∨ legal (i_status i) (i_status i') = true) ∧
  same_identity i i' ∧ (i_status i = Status.Pending ∨ same_terms i i').

Lemma status_step_refl i : status_step i i.
Proof. split; [by left |]. split; [done |]. by right. Qed.

Lemma submissions_old w w' id :
  submissions top w w' → id < next_id w →
  invoice_at w' id = invoice_at w id ∧ funders_at w' id = funders_at w id.
Proof.
  induction 1 as [|i w w1 w2 _ (_ & _ & Hn & Hj & Hf & _) _ _ _ IH]; [done |].
  intros Hlt. destruct IH as [-> ->]; [lia |]. split; [apply Hj; lia | apply Hf].
Qed.

Lemma evolves_invoice w w' id i :
  wf w → evolves top w w' → invoice_at w id = Some i →
  ∃ i', invoice_at w' id = Some i' ∧
    (i' = i ∧ funders_at w' id = funders_at w id ∨
     revises top (max_discount w) (now (ctx w)) i (funders_at w id) i' (funders_at w' id)).
Proof.
  intros Hw Hev Hi. destruct Hev as [(Hj & Hf & _) | id' j j' fs' He Hr | Hsub].
  - exists i. rewrite Hj. auto.
  - destruct He as (Hj & Hj' & Hfs & Hne & Hf & _).
    destruct (decide (id = id')) as [-> | ?].
    + simplify_eq. eauto.
    + exists i. rewrite Hne, Hf by done. auto.
  - exists i. destruct (submissions_old _ _ id Hsub) as [-> ->]; [| by auto].
    destruct (Z.lt_ge_cases id (next_id w)) as [? | Hge]; [done |].
    destruct (wf_fresh _ Hw _ Hge) as [? _]. congruence.
Qed.

Lemma evolves_status w w' id i :
  wf w → evolves top w w' → invoice_at w id = Some i →
  ∃ i', invoice_at w' id = Some i' ∧ status_step i i'.
Proof.
  intros Hw Hev Hi. destruct (evolves_invoice _ _ _ _ Hw Hev Hi) as (i' & Hi' & [[-> _] | Hr]).
  - eauto using status_step_refl.
  - exists i'. split; [done |]. split; [by eapply revises_status |].
    split; [by eapply revises_identity | by eapply revises_terms].
Qed.

Lemma run_frozen ok w w' id i :
  wf w → rtc (step ok) w w' → invoice_at w id = Some i → terminal (i_status i) = true →
  invoice_at w' id = Some i ∧ funders_at w' id = funders_at w id.
Proof.
  intros Hw Hr Hi Ht. revert Hw Hi. induction Hr as [|w w1 w2 Hs _ IH]; [done |].
  intros Hw Hi. destruct (step_evolves _ _ _ Hw Hs) as [Hev _].
  destruct (evolves_invoice _ _ _ _ Hw Hev Hi) as (i' & Hi' & [[-> Hf] | Hrev]).
  - rewrite <-Hf. apply IH; [by eapply step_wf | done].
  - apply revises_not_terminal in Hrev. congruence.
Qed.

(** ** Amounts *)
Hypothesis top_i128 : top ≤ i128_max.

Definition all_good w : Prop :=
  wf w ∧ ∀ id i, invoice_at w id = Some i → good top i (funders_at w id).

Lemma brand_new_good cap t i : brand_new top cap t i → cap < 10000 → good top i [].
Proof.
  intros (Hs & ? & ? & ? & Hf & Hp & _) ?. split; simpl; rewrite ?Hf, ?Hp; try lia; try done.
  unfold status_amounts. rewrite Hs. done.
Qed.

Lemma submissions_good w w' :
  submissions top w w' → max_discount w < 10000 → all_good w → all_good w'.
Proof.
  induction 1 as [|i w w1 w2 Hnew Hsub Hm Hcx Hs IH]; [done |].
  intros Hcap [Hw Hg]. apply IH; [by rewrite Hm |]. split.
  - eapply submissions_wf; [| exact Hw]. eapply sub_one; [done..|]. constructor.
  - destruct Hsub as (Hi & _ & _ & Hj & Hf & _). intros id j Hid. rewrite Hf.
    destruct (decide (id = next_id w)) as [-> | Hne].
    + simplify_eq. rewrite (proj2 (wf_fresh _ Hw (next_id w) ltac:(done))).
      by eapply brand_new_good.
    + apply Hg. by rewrite <-Hj.
Qed.

Lemma evolves_good w w' :
  evolves top w w' → max_discount w < 10000 → all_good w → all_good w'.
Proof.
  intros Hev Hcap [Hw Hg].
  destruct Hev as [Hsame | id i i' fs' He Hr | Hsub]; [.. | by eapply submissions_good].
  - split; [eapply (evolves_wf top); [by apply ev_same | done] |].
    destruct Hsame as (Hj & Hf & _). intros id i. rewrite Hj, Hf. apply Hg.
  - split; [eapply (evolves_wf top); [by eapply ev_edit | done] |].
    destruct He as (Hi & Hi' & Hfs & Hne & Hf & _). intros j k Hk.
    destruct (decide (j = id)) as [-> | ?].
    + simplify_eq. eapply revises_good; [done.. |]. by apply Hg.
    + rewrite Hf by done. apply Hg. by rewrite <-Hne.
Qed.

Lemma same_good w w' : same_invoices w w' → all_good w → all_good w'.
Proof.
  intros Hs [Hw Hg]. split; [eapply (evolves_wf top); [by apply ev_same | done] |].
  destruct Hs as (Hj & Hf & _). intros id i. rewrite Hj, Hf. apply Hg.
Qed.

(** The bounds hold along every run. *)
Definition all_bounded w : Prop := wf w ∧ ∀ id i, invoice_at w id = Some i → bounded top i.

Lemma brand_new_bounded cap t i : brand_new top cap t i → bounded top i.
Proof.
  intros (Hs & ? & ? & ? & Hf & Hp & _). split; rewrite ?Hf, ?Hp; try lia.
  unfold bounded_status. rewrite Hs. lia.
Qed.

Lemma submissions_bounded w w' : submissions top w w' → all_bounded w → all_bounded w'.
Proof.
  induction 1 as [|i w w1 w2 Hnew Hsub Hm Hcx Hs IH]; [done |].
  intros [Hw Hg]. apply IH. split.
  - eapply submissions_wf; [| exact Hw]. eapply sub_one; [done..|]. constructor.
  - destruct Hsub as (Hi & _ & _ & Hj & _). intros id j Hid.
    destruct (decide (id = next_id w)) as [-> | Hne]; [| apply (Hg id); by rewrite <-Hj].
    simplify_eq. by eapply brand_new_bounded.
Qed.

Lemma evolves_bounded w w' : evolves top w w' → all_bounded w → all_bounded w'.
Proof.
  intros Hev [Hw Hg].
  destruct Hev as [Hsame | id i i' fs' He Hr | Hsub]; [.. | by eapply submissions_bounded].
  - split; [eapply (evolves_wf top); [by apply ev_same | done] |].
    destruct Hsame as (Hj & _). intros id i. rewrite Hj. apply Hg.
  - split; [eapply (evolves_wf top); [by eapply ev_edit | done] |].
    destruct He as (Hi & Hi' & _ & Hne & _). intros j k Hk.
    destruct (decide (j = id)) as [-> | ?]; [| apply (Hg j); by rewrite <-Hne].
    simplify_eq. eapply revises_bounded; [done.. |]. by eapply Hg.
Qed.

Lemma run_bounded ok w w' : all_bounded w → rtc (step ok) w w' → all_bounded w'.
Proof.
  intros Hg Hr. induction Hr as [|w w1 w2 Hs _ IH]; [done |]. apply IH.
  destruct (step_evolves _ _ _ (proj1 Hg) Hs) as [Hev _]. by eapply evolves_bounded.
Qed.

Lemma run_good w w' : all_good w → rtc (step discount_below_par) w w' → all_good w'.
Proof.
  intros Hg Hr. induction Hr as [|w w1 w2 Hs _ IH]; [done |]. apply IH.
  destruct (step_evolves _ _ _ (proj1 Hg) Hs) as [Hev [[c Hok] | Hsame]].
  - by eapply evolves_good.
  - by eapply same_good.
Qed.
End runs.
