(* ===== verification/Scenario.v ===== *)
(** A concrete deployment and an invoice's life on it, shared by the witnesses:
    the reference SAC as token, peers that accept every call. *)
From S2P Require Import Prelude Host Peers CoreTypes TopPayers CoreStore Access TokenSafety Nft.
From S2P Require Import OracleRegistry Pricing ConfigRs Admin Lifecycle Frames CoreSpecs Edits Queue.
From S2P Require Import Multisig System Invariants.

#[export] Instance Sac_peers : Peers Sac.t := {|
  dist_accrue_lp := λ _ _ _ x, Some (tt, x);
  dist_accrue_settlement := λ _ _ _ _ x, Some (tt, x);
  pool_is_enrolled := λ _ _ x, Some (false, x);
  pool_claim := λ _ _ _ _, None;
  oracle_get_payer_data := λ _ _ x, Some (mkOracleResponse true 1000, x);
  oracle_interface_version := λ _ x, Some (1, x);
  oracle_get_price := λ _ _ x, Some (10000, x)
|}.

#[export] Instance Sac_peer_laws me : PeerLaws Sac.t me.
Proof. split; unfold spares; simpl; intros; simplify_eq; done. Qed.

Module Scenario.
Definition admin : Address := 1%N.
Definition usdc : Address := 10%N.
Definition eurc : Address := 11%N.
Definition xlm : Address := 12%N.
Definition freelancer : Address := 20%N.
Definition payer : Address := 30%N.
Definition lp1 : Address := 40%N.
Definition lp2 : Address := 41%N.
Definition escrow : Address := 100%N.

Abbreviation W := (world DataKey Sac.t Event).

Definition signed_by_all (t : Z) : Ctx := mkCtx (λ a, negb (bool_decide (a = escrow))) t (t ÷ 5).

Definition bank : Sac.t :=
  Sac.mk {[ (usdc, payer) := 5000000000; (usdc, lp1) := 5000000000;
            (usdc, lp2) := 5000000000 ]}
    ∅ {[ usdc := admin; eurc := admin; xlm := admin ]} {[ usdc := 6; eurc := 6; xlm := 7 ]}.

Definition day : Z := 24 * 60 * 60.
Definition due : Z := 1000 + 30 * day.

Definition w0 : W := mkWorld escrow (signed_by_all 1000) st_empty bank [].

Abbreviation run c := (exec 10 5 8 (λ n, 0) c).

Definition w_ready : W := commit (run (Initialize admin usdc eurc xlm)) w0.
(** Invoice 1: 1000 USDC at a 3% discount. *)
Definition submit1 : Call :=
  SubmitInvoice freelancer payer 1000000000 due 300 usdc NoReferral.
Definition w_pending : W := commit (run submit1) w_ready.
Definition w_partial : W := commit (run (FundInvoice lp1 1 400000000 false)) w_pending.
Definition w_funded : W := commit (run (FundInvoice lp2 1 600000000 false)) w_partial.
Definition w_half_paid : W := commit (run (MarkPaid 1 500000000)) w_funded.
Definition w_paid : W := commit (run (MarkPaid 1 500000000)) w_half_paid.
(** Invoice 2 of another freelancer collects 1455 USDC from [lp2]; then invoice 1
    falls due. *)
Definition freelancer2 : Address := 21%N.
Definition submit2 : Call :=
  SubmitInvoice freelancer2 payer 2000000000 due 300 usdc NoReferral.
Definition w_second : W := commit (run submit2) w_funded.
Definition w_shared : W := commit (run (FundInvoice lp2 2 1500000000 false)) w_second.
Definition w_late : W := with_ctx (signed_by_all (due + day)) w_shared.
Definition w_defaulted : W := commit (run (ClaimDefault lp1 1)) w_late.
Definition w_alone : W := with_ctx (signed_by_all (due + day)) w_funded.
(** [lp1] is frozen on the token when invoice 1 is cancelled, and thawed later. *)
Definition freeze (l : list (Address * Address)) (w : W) : W :=
  with_ext (Sac.mk (Sac.balances (ext w)) (list_to_set l) (Sac.admins (ext w))
              (Sac.decimals (ext w))) w.
Definition w_frozen : W := freeze [(usdc, lp1)] w_partial.
Definition w_escrowed : W := commit (run (CancelInvoice 1)) w_frozen.
Definition w_thawed : W := freeze [] w_escrowed.
Definition w_disputed : W := commit (run (DisputeInvoice 1 7%N)) w_funded.

(** The left side runs to success, the right side names the world it commits. *)
Ltac committed :=
  lazymatch goal with |- _ = Done _ ?w => unfold w end;
  refine (run_done _ _ _ _); vm_compute; reflexivity.

Lemma ready_run : run (Initialize admin usdc eurc xlm) w0 = Done tt w_ready.
Proof. committed. Qed.
Lemma pending_run : run submit1 w_ready = Done tt w_pending.
Proof. committed. Qed.
Lemma partial_run : run (FundInvoice lp1 1 400000000 false) w_pending = Done tt w_partial.
Proof. committed. Qed.
Lemma funded_run : run (FundInvoice lp2 1 600000000 false) w_partial = Done tt w_funded.
Proof. committed. Qed.
Lemma half_paid_run : run (MarkPaid 1 500000000) w_funded = Done tt w_half_paid.
Proof. committed. Qed.
Lemma paid_run : run (MarkPaid 1 500000000) w_half_paid = Done tt w_paid.
Proof. committed. Qed.
Lemma second_run : run submit2 w_funded = Done tt w_second.
Proof. committed. Qed.
Lemma shared_run : run (FundInvoice lp2 2 1500000000 false) w_second = Done tt w_shared.
Proof. committed. Qed.
Lemma defaulted_run : run (ClaimDefault lp1 1) w_late = Done tt w_defaulted.
Proof. committed. Qed.
Lemma escrowed_run : run (CancelInvoice 1) w_frozen = Done tt w_escrowed.
Proof. committed. Qed.
Lemma disputed_run : run (DisputeInvoice 1 7%N) w_funded = Done tt w_disputed.
Proof. committed. Qed.

Abbreviation step ok := (Invariants.step 10 5 8 (λ n, 0) i128_max ok).

Lemma life_of_invoice ok :
  (∀ c w, ok c w) → rtc (step ok) w0 w_half_paid ∧ rtc (step ok) w_half_paid w_paid.
Proof.
  intros Hok.
  assert (∀ c w w', typed i128_max c = true → run c w = Done tt w' → step ok w w') as S.
  { intros c w w' Ht Hr. by eapply step_call. }
  split; [| eapply rtc_l; [by eapply S, paid_run | done]].
  eapply rtc_l; [by eapply S, ready_run |]. eapply rtc_l; [by eapply S, pending_run |].
  eapply rtc_l; [by eapply S, partial_run |]. eapply rtc_l; [by eapply S, funded_run |].
  eapply rtc_l; [by eapply S, half_paid_run |]. done.
Qed.
End Scenario.
