(* ===== verification/LifecycleProps.v ===== *)
(** The lifecycle theorems of the escrow contract: refinement of the abstract
    lifecycle, the status machine, terminal invoices, amounts. *)
From S2P Require Import Prelude Host Peers CoreTypes TopPayers CoreStore Access TokenSafety Nft.
From S2P Require Import OracleRegistry Pricing ConfigRs Admin Lifecycle Frames CoreSpecs Edits Queue.
From S2P Require Import Multisig System Invariants Scenario.

Section props.
Context {X : Type} `{TokenInterface X} `{Peers X} `{!TokenLaws X}.
Variables (MAX_FEE_TIERS MAX_IDENTITY_ORACLES_PER_FEED MAX_PRICE_SOURCES_PER_FEED : Z)
  (gen_range : Z → Z).
Abbreviation W := (world DataKey X Event).
Abbreviation exec :=
  (exec MAX_FEE_TIERS MAX_IDENTITY_ORACLES_PER_FEED MAX_PRICE_SOURCES_PER_FEED gen_range).
Abbreviation step :=
  (step MAX_FEE_TIERS MAX_IDENTITY_ORACLES_PER_FEED MAX_PRICE_SOURCES_PER_FEED gen_range i128_max).

(** C2: refinement.  Every successful call of the contract leaves all invoices
    alone, performs exactly one revision of the abstract lifecycle on exactly one
    invoice, or submits new pending invoices under fresh ids. *)
Theorem lifecycle_refinement c (w w' : W) :
  wf w → typed i128_max c = true → exec c w = Done tt w' → evolves i128_max w w'.
Proof. exact (exec_evolves _ _ _ _ _ c w w'). Qed.

(** C4: the status machine.  Across any successful call an invoice keeps existing,
    its status stays or moves along [legal]; id, payer, referral code and the
    submitter's reputation never change; freelancer, token, amount, due date and
    rate change only while it is pending. *)
Theorem status_machine c (w w' : W) id i :
  wf w → typed i128_max c = true → exec c w = Done tt w' → invoice_at w id = Some i →
  ∃ i', invoice_at w' id = Some i' ∧
    (i_status i' = i_status i ∨ legal (i_status i) (i_status i') = true) ∧
    same_identity i i' ∧ (i_status i = Status.Pending ∨ same_terms i i').
Proof. intros Hw Ht Hx Hi. by eapply evolves_status, Hi; [| eapply exec_evolves]. Qed.

(** Terminal invoices.  Once an invoice is paid, expired or cancelled, no run
    of calls, by anyone and at any later time, changes it or its contributor
    list. *)
Theorem terminal_frozen (w w' : W) id i :
  wf w → rtc (step any_call) w w' → invoice_at w id = Some i →
  terminal (i_status i) = true →
  invoice_at w' id = Some i ∧ funders_at w' id = funders_at w id.
Proof. apply (run_frozen _ _ _ _ _ any_call). Qed.

(** C5: amounts.  From deployment on, on every run, each stored invoice has a positive
    amount within [i128], is funded and paid at most that amount, and has the relation
    between funded, paid and face amount that its status claims: nothing funded or paid
    while pending, fully funded and not fully paid while funded or defaulted, everything
    paid once paid.  If moreover every call was made while the maximal discount was below
    100%, its rate is below 100%, its contributions are non-negative and they add up to
    [amount_funded].  The contract does not enforce that side condition. *)
Theorem amounts_invariant (w0 w : W) id i :
  deployed w0 → rtc (step any_call) w0 w → invoice_at w id = Some i →
  bounded i128_max i ∧
  (rtc (step discount_below_par) w0 w → good i128_max i (funders_at w id)).
Proof.
  intros Hd Hr Hi.
  assert (∀ j, invoice_at w0 j = None) as Hnone by (intros j; unfold invoice_at; by rewrite Hd).
  split.
  - eapply run_bounded with (w := w0); [done | | exact Hr | exact Hi].
    split; [by apply deployed_wf |]. intros j k. by rewrite Hnone.
  - intros Hr'. eapply run_good with (w := w0); [done | | exact Hr' | exact Hi].
    split; [by apply deployed_wf |]. intros j k. by rewrite Hnone.
Qed.
End props.

Module LifecycleWitness.
Import Scenario.

Lemma scenario_wf w : rtc (step any_call) w0 w → wf w.
Proof.
  assert (wf w0) as H0 by (by apply deployed_wf).
  intros Hr. induction Hr as [|w w1 w2 Hs _ IH]; [done |]. by eapply IH, step_wf.
Qed.

Lemma half_paid_wf : wf w_half_paid.
Proof. apply scenario_wf. by apply life_of_invoice. Qed.
Lemma paid_wf : wf w_paid.
Proof. apply scenario_wf. etrans; by apply life_of_invoice. Qed.

Definition invoice1 (w : W) : Invoice :=
  default (mkInvoice 0 0%N 0%N 0%N 0 0 0 Status.Pending None None 0 0 NoReferral 0)
    (invoice_at w 1).

Lemma lifecycle_refinement_witness :
  i_status (invoice1 w_half_paid) = Status.Funded ∧
  i_status (invoice1 w_paid) = Status.Paid ∧ evolves i128_max w_half_paid w_paid.
Proof.
  split; [vm_compute; reflexivity |]. split; [vm_compute; reflexivity |].
  apply (lifecycle_refinement 10 5 8 (λ _, 0) (MarkPaid 1 500000000)).
  - exact half_paid_wf.
  - vm_compute. reflexivity.
  - exact paid_run.
Defined.

Lemma status_machine_witness :
  ∃ i', invoice_at w_paid 1 = Some i' ∧
    (i_status i' = Status.Funded ∨ legal Status.Funded (i_status i') = true) ∧
    same_identity (invoice1 w_half_paid) i' ∧
    (Status.Funded = Status.Pending ∨ same_terms (invoice1 w_half_paid) i').
Proof.
  apply (status_machine 10 5 8 (λ _, 0) (MarkPaid 1 500000000) w_half_paid w_paid 1
           (invoice1 w_half_paid)).
  - exact half_paid_wf.
  - vm_compute. reflexivity.
  - exact paid_run.
  - vm_compute. reflexivity.
Defined.

(** A second invoice is submitted after the first has been paid. *)
Definition w_after : W := commit (run submit2) w_paid.
Lemma after_run : run submit2 w_paid = Done tt w_after.
Proof. committed. Qed.

Lemma terminal_frozen_witness :
  invoice_at w_after 1 = Some (invoice1 w_paid) ∧ funders_at w_after 1 = funders_at w_paid 1.
Proof.
  apply (terminal_frozen 10 5 8 (λ _, 0) w_paid w_after 1 (invoice1 w_paid)).
  - exact paid_wf.
  - eapply rtc_l; [| constructor].
    apply (step_call _ _ _ _ _ any_call _ _ submit2); [vm_compute; reflexivity | exact I |].
    exact after_run.
  - vm_compute. reflexivity.
  - vm_compute. reflexivity.
Defined.

Lemma below_par_run c w w' :
  typed i128_max c = true → (max_discount w <? 10000) = true → run c w = Done tt w' →
  step discount_below_par w w'.
Proof. intros Ht Hm Hr. eapply step_call; [done | | exact Hr]. by apply Z.ltb_lt. Qed.

Lemma par_steps : rtc (Invariants.step 10 5 8 (λ n, 0) i128_max discount_below_par) w0 w_partial.
Proof.
  eapply rtc_l; [eapply below_par_run, ready_run; vm_compute; reflexivity |].
  eapply rtc_l; [eapply below_par_run, pending_run; vm_compute; reflexivity |].
  eapply rtc_l; [eapply below_par_run, partial_run; vm_compute; reflexivity |].
  constructor.
Qed.
Lemma partial_any_steps : rtc (step any_call) w0 w_partial.
Proof.
  eapply rtc_l; [by eapply step_call, ready_run |].
  eapply rtc_l; [by eapply step_call, pending_run |].
  eapply rtc_l; [by eapply step_call, partial_run |]. constructor.
Qed.

Lemma amounts_invariant_witness :
  funders_at w_partial 1 = [(lp1, 400000000)] ∧ bounded i128_max (invoice1 w_partial) ∧
  good i128_max (invoice1 w_partial) (funders_at w_partial 1).
Proof.
  split; [vm_compute; reflexivity |].
  destruct (amounts_invariant 10 5 8 (λ _, 0) w0 w_partial 1 (invoice1 w_partial)) as [Hb Hg].
  - intros k. reflexivity.
  - exact partial_any_steps.
  - vm_compute. reflexivity.
  - split; [exact Hb | exact (Hg par_steps)].
Defined.

(** The side condition matters.  With a maximal discount of 200%, which the contract
    accepts, [update_invoice] takes a rate of 200% where [submit_invoice] alone insists on
    [MAX_DISCOUNT_RATE]; and the invoice can be funded with a negative amount: [lp1] pays
    100 and the invoice counts a contribution of minus 100. *)
Definition w_dear : W :=
  commit (run (UpdateInvoice freelancer 1 1000000000 due 20000))
    (commit (run (UpdateMaxDiscount 20000)) w_pending).
Definition w_negative : W := commit (run (FundInvoice lp1 1 (-100) false)) w_dear.
Theorem over_par_contribution :
  i_discount_rate (invoice1 w_dear) = 20000 ∧
  run (FundInvoice lp1 1 (-100) false) w_dear = Done tt w_negative ∧
  i_amount_funded (invoice1 w_negative) = -100 ∧ funders_at w_negative 1 = [(lp1, -100)] ∧
  tok_balance (ext w_negative) usdc escrow = tok_balance (ext w_dear) usdc escrow + 100.
Proof.
  split; [vm_compute; reflexivity |]. split; [committed |].
  split; [vm_compute; reflexivity |]. split; vm_compute; reflexivity.
Qed.
End LifecycleWitness.
