(* ===== verification/Escrow.v ===== *)
(** Token accounting of the escrow contract: what its balance is worth beyond the
    escrowed payouts, and how each payment operation moves it. *)
From S2P Require Import Prelude Host Peers CoreTypes TopPayers CoreStore Access TokenSafety Nft.
From S2P Require Import OracleRegistry Pricing ConfigRs Admin Lifecycle Frames CoreSpecs Edits.

(** Every entry but the payout escrow. *)
Definition not_pending (k : DataKey) : bool :=
  match k with Key.PendingPayout _ _ | Key.PendingPayoutTotal _ => false | _ => true end.

Section escrow.
Context {X : Type} `{TokenInterface X} `{Peers X} `{!TokenLaws X}.
Context (me : Address) `{!PeerLaws X me}.
Abbreviation W := (world DataKey X Event).
Abbreviation IO := (M W ContractError).
Implicit Types (w : W).

(** The contract's balance of [t] that no escrowed payout reserves. *)
Definition free w (t : Address) : Z := tok_balance (ext w) t (self w) - pending_total w t.

(** The total of a token covers the escrowed payouts of any set of recipients. *)
Definition escrow_ok w : Prop :=
  (∀ r t, 0 ≤ pending_at w r t) ∧
  ∀ t, pending_total w t ≤ i128_max ∧
    ∀ rs, NoDup rs → zsum ((λ r, pending_at w r t) <$> rs) ≤ pending_total w t.

(** [draws t n]: at most [n] of token [t], and nothing of any other token, leaves
    the free balance; the escrow stays consistent. *)
Definition draws (t : Address) (n : Z) : relation W := λ w w',
  self w = me → escrow_ok w →
  self w' = me ∧ escrow_ok w' ∧
  ∀ t', free w t' - (if bool_decide (t' = t) then n else 0) ≤ free w' t'.
Definition safe : relation W := λ w w',
  self w = me → escrow_ok w → self w' = me ∧ escrow_ok w' ∧ ∀ t, free w t ≤ free w' t.

#[export] Instance safe_preorder : PreOrder safe.
Proof.
  split; [intros w ??; split_and!; [done | done | intros; reflexivity] |].
  intros w1 w2 w3 H12 H23 Hme Ho.
  destruct (H12 Hme Ho) as (Hme2 & Ho2 & Hf2). destruct (H23 Hme2 Ho2) as (? & ? & Hf3).
  split_and!; try done. intros t. by etrans; [apply Hf2 | apply Hf3].
Qed.

Lemma draws_trans t n m w1 w2 w3 :
  draws t n w1 w2 → draws t m w2 w3 → draws t (n + m) w1 w3.
Proof.
  intros H12 H23 Hme Ho.
  destruct (H12 Hme Ho) as (Hme2 & Ho2 & Hf2). destruct (H23 Hme2 Ho2) as (? & ? & Hf3).
  split_and!; try done. intros t'. specialize (Hf2 t'). specialize (Hf3 t').
  case_bool_decide; lia.
Qed.
Lemma safe_draws t n w w' : 0 ≤ n → safe w w' → draws t n w w'.
Proof.
  intros Hn Hs Hme Ho. destruct (Hs Hme Ho) as (? & ? & Hf). split_and!; try done.
  intros t'. specialize (Hf t'). case_bool_decide; lia.
Qed.
Lemma draws_safe t n w w' : n ≤ 0 → draws t n w w' → safe w w'.
Proof.
  intros Hn Hs Hme Ho. destruct (Hs Hme Ho) as (? & ? & Hf). split_and!; try done.
  intros t'. specialize (Hf t'). case_bool_decide; lia.
Qed.
Lemma draws_le t n m w w' : n ≤ m → draws t n w w' → draws t m w w'.
Proof.
  intros Hn Hs Hme Ho. destruct (Hs Hme Ho) as (? & ? & Hf). split_and!; try done.
  intros t'. specialize (Hf t'). case_bool_decide; lia.
Qed.
Lemma draws_safe_l t n w1 w2 w3 : safe w1 w2 → draws t n w2 w3 → draws t n w1 w3.
Proof. intros H1 H2. apply (draws_trans t 0 n _ w2); [by apply safe_draws | done]. Qed.
Lemma draws_safe_r t n w1 w2 w3 : draws t n w1 w2 → safe w2 w3 → draws t n w1 w3.
Proof.
  intros H1 H2. replace n with (n + 0) by lia.
  apply (draws_trans t n 0 _ w2); [done | by apply safe_draws].
Qed.

(** ** What leaves the accounts alone *)
Lemma touches_pending S w w' :
  touches S w w' → (∀ k, S k = true → not_pending k = true) →
  (∀ r t, pending_at w' r t = pending_at w r t) ∧
  (∀ t, pending_total w' t = pending_total w t).
Proof.
  intros Ht HS. apply touches_mono with (S' := not_pending) in Ht as (_ & _ & Hk); [| done].
  unfold pending_at, pending_total. split; intros; by rewrite Hk.
Qed.

Lemma touches_safe S w w' :
  touches S w w' → (∀ k, S k = true → not_pending k = true) →
  (self w = me → ∀ t, tok_balance (ext w) t me ≤ tok_balance (ext w') t me) → safe w w'.
Proof.
  intros Ht HS Hb Hme [Hn Ho]. destruct (touches_pending _ _ _ Ht HS) as [Hp Hpt].
  destruct Ht as (Hs & _). split_and!; [congruence | |].
  - split; [intros; by rewrite Hp |]. intros t. rewrite Hpt. destruct (Ho t) as [? Hrs].
    split; [done |]. intros rs Hd. erewrite list_fmap_ext; [by apply Hrs |].
    intros. by rewrite Hp.
  - intros t. unfold free. rewrite Hpt, Hs, Hme. specialize (Hb Hme t). lia.
Qed.

Lemma inner_safe {E A} (m : M W E A) : keeps (inner not_pending) m → keeps safe m.
Proof.
  intros Hk w a w' [Ht Hq]%Hk. eapply touches_safe; [done..|]. intros _ t. by rewrite Hq.
Qed.

Lemma safe_invoke {A} (f : X → option (A * X)) :
  spares me f → keeps safe (invoke f : IO A).
Proof.
  intros Hf w a w' Hx. eapply touches_safe with (S := not_pending); [| done |].
  - by eapply touches_invoke.
  - apply invoke_done in Hx as (x & Hx & ->). intros _ t. by eapply Hf.
Qed.
Lemma safe_try_invoke {A} (f : X → option (A * X)) :
  spares me f → keeps safe (try_invoke f : IO (option A)).
Proof.
  intros Hf w a w' Hx. eapply touches_safe with (S := not_pending); [| done |].
  - by eapply touches_try_invoke.
  - apply try_invoke_done in Hx as [(b & x & Hx & _ & ->) | (_ & _ & ->)]; [| done].
    intros _ t. by eapply Hf.
Qed.

(** ** Transfers *)
Lemma transfer_out_draws t a n (w w' : W) u :
  self w = me → transfer_from_self t a n w = Done u w' → draws t n w w' ∧ 0 ≤ n.
Proof.
  intros Hme Hx. unfold transfer_from_self in Hx. minv Hx.
  unfold ext_transfer in *. simplify_option_eq.
  rename select (tok_transfer _ _ _ _ _ = Some _) into Htr.
  pose proof (transfer_covered _ _ _ _ _ _ Htr) as [Hn _]. split; [| done].
  intros _ Ho. split_and!; [done | done |]. intros t'. unfold free; simpl.
  rewrite (transfer_balance _ _ _ _ _ _ t' (self w) Htr). unfold pending_total; simpl.
  repeat case_bool_decide; naive_solver lia.
Qed.

(** A payment into the contract by somebody else. *)
Lemma transfer_in_draws t a n (w w' : W) u :
  self w = me → a ≠ me → (invoke (ext_transfer t a me n) : IO unit) w = Done u w' →
  draws t (- n) w w' ∧ 0 ≤ n.
Proof.
  intros Hme Ha Hx. apply invoke_done in Hx as (x & Hx & ->).
  unfold ext_transfer in *. simplify_option_eq.
  rename select (tok_transfer _ _ _ _ _ = Some _) into Htr.
  pose proof (transfer_covered _ _ _ _ _ _ Htr) as [Hn _]. split; [| done].
  intros _ Ho. split_and!; [done | done |]. intros t'. unfold free; simpl.
  rewrite (transfer_balance _ _ _ _ _ _ t' (self w) Htr). unfold pending_total; simpl.
  repeat case_bool_decide; naive_solver lia.
Qed.

(** ** The escrow of undeliverable payouts *)

(** Moving [d] of token [t] into (or out of) [r]'s escrow slot. *)
Lemma escrow_shift w w' r t d :
  (∀ r' t', pending_at w' r' t' =
     pending_at w r' t' + (if bool_decide (r' = r ∧ t' = t) then d else 0)) →
  (∀ t', pending_total w' t' = pending_total w t' + (if bool_decide (t' = t) then d else 0)) →
  escrow_ok w → 0 ≤ pending_at w r t + d → pending_total w t + d ≤ i128_max →
  d = - pending_at w r t ∨ 0 ≤ d → escrow_ok w'.
Proof.
  intros Hp Ht [Hn Ho] Hge Hmax Hd. split.
  - intros r' t'. rewrite Hp. specialize (Hn r' t'). case_bool_decide; naive_solver lia.
  - intros t'. destruct (Ho t') as [Hm Hrs]. rewrite Ht.
    split; [case_bool_decide; naive_solver lia |]. intros rs Hnd.
    destruct (decide (t' = t)) as [-> | Hne].
    + rewrite bool_decide_eq_true_2 by done.
      rewrite (zsum_update (λ x, pending_at w x t) _ r d); [| | | done].
      * case_bool_decide; [specialize (Hrs rs Hnd); lia |].
        destruct Hd as [-> | ?]; [| specialize (Hrs rs Hnd); lia].
        specialize (Hrs (r :: rs)). csimpl in Hrs.
        assert (NoDup (r :: rs)) as Hnd' by by constructor. specialize (Hrs Hnd'). lia.
      * intros x Hx. rewrite Hp, bool_decide_eq_false_2 by naive_solver. lia.
      * rewrite Hp, bool_decide_eq_true_2 by done. done.
    + rewrite bool_decide_eq_false_2 by done. specialize (Hrs rs Hnd).
      erewrite list_fmap_ext; [rewrite Z.add_0_r; exact Hrs |].
      intros i x _. simpl. rewrite Hp, bool_decide_eq_false_2 by naive_solver. lia.
Qed.

Lemma set_pending_spec r t a n w w' u :
  set_pending r t a n w = Done u w' → 0 ≤ a → 0 ≤ n →
  self w' = self w ∧ ext w' = ext w ∧ touches (λ k, negb (not_pending k)) w w' ∧
  (∀ r' t', pending_at w' r' t' =
     if bool_decide (r' = r ∧ t' = t) then a else pending_at w r' t') ∧
  (∀ t', pending_total w' t' = if bool_decide (t' = t) then n else pending_total w t').
Proof.
  intros Hx Ha Hn. assert (inner (λ k, negb (not_pending k)) w w') as [Ht Hq].
  { eapply set_pending_inner; [| | done]; done. }
  split; [apply Ht |]. split; [done |]. split; [done |].
  unfold set_pending in Hx. unfold pending_at, pending_total.
  minv Hx; bools; (split; intros; simpl;
    case_bool_decide; destruct_and?; simplify_eq; sto; simpl; try done; try lia).
Qed.

Lemma pending_payout_done r t (n : Z) w w' :
  pending_payout r t w = Done n w' → n = pending_at w r t ∧ w' = w.
Proof. intros Hx. unfold pending_payout in Hx. by minv Hx. Qed.
Lemma pending_payout_total_done t (n : Z) w w' :
  pending_payout_total t w = Done n w' → n = pending_total w t ∧ w' = w.
Proof. intros Hx. unfold pending_payout_total in Hx. by minv Hx. Qed.

Lemma pay_or_escrow_draws t a n id w w' b :
  self w = me → pay_or_escrow t a n id w = Done b w' → draws t (Z.max 0 n) w w'.
Proof.
  intros Hme Hx. unfold pay_or_escrow in Hx.
  destruct (n <=? 0) eqn:Hn; bools.
  { minv Hx. apply safe_draws; [lia | done]. }
  rewrite Z.max_r by lia.
  apply bind_done in Hx as (total & w1 & [-> ->]%pending_payout_total_done & Hx).
  apply bind_done in Hx as ([] & w1 & Hs & Hx).
  assert (w1 = w) as -> by (unfold ensure_spendable in Hs; by minv Hs). clear Hs.
  apply bind_done in Hx as (ok & w1 & Hs & Hx).
  assert (w1 = w) as -> by (unfold is_authorized, query_authorized in Hs; by minv Hs). clear Hs.
  destruct ok.
  - apply bind_done in Hx as ([] & w1 & Hs & [_ ->]%ret_done). by eapply transfer_out_draws.
  - apply bind_done in Hx as (already & w1 & [-> ->]%pending_payout_done & Hx).
    apply bind_done in Hx as (owed & w1 & [Ho ->]%ok_or_done & Hx).
    apply bind_done in Hx as (new & w1 & [Hnew ->]%ok_or_done & Hx).
    apply bind_done in Hx as ([] & w1 & Hset & Hx). minv Hx. bools.
    intros _ Hok. pose proof Hok as [Hpos Htot].
    assert (0 ≤ pending_total w t) by (apply (Htot t) with (rs := []); constructor).
    apply set_pending_spec in Hset as (Hself & Hext & _ & Hp & Ht);
      [| specialize (Hpos a t); lia | lia].
    rewrite in_i128_spec in *.
    split_and!; [simpl; congruence | |].
    + apply (escrow_shift w _ a t n); try done.
      * intros r' t'. change (pending_at (with_event _ w1)) with (pending_at w1). rewrite Hp.
        case_bool_decide; destruct_and?; simplify_eq; [done | lia].
      * intros t'. change (pending_total (with_event _ w1)) with (pending_total w1). rewrite Ht.
        case_bool_decide; destruct_and?; simplify_eq; [done | lia].
      * specialize (Hpos a t). lia.
      * lia.
      * right. lia.
    + intros t'. unfold free; simpl. rewrite Hself, Hext.
      change (pending_total (with_event _ w1)) with (pending_total w1). rewrite Ht.
      case_bool_decide; simplify_eq; lia.
Qed.

Lemma ensure_spendable_done t a r w w' u :
  ensure_spendable t a r w = Done u w' →
  a ≤ sat_i128 (tok_balance (ext w) t (self w) - r) ∧ w' = w.
Proof. intros Hx. unfold ensure_spendable in Hx. minv Hx. by bools. Qed.

Lemma claim_pending_safe r t : keeps safe (claim_pending r t : IO Z).
Proof.
  intros w a w' Hx. unfold claim_pending in Hx.
  apply bind_done in Hx as (amount & w1 & [-> ->]%pending_payout_done & Hx).
  apply bind_done in Hx as ([] & w1 & [Hpos ->]%reject_if_done & Hx). bools.
  apply bind_done in Hx as ([] & w1 & [_ ->]%require_authorized_done & Hx).
  apply bind_done in Hx as (total & w1 & [-> ->]%pending_payout_total_done & Hx).
  apply bind_done in Hx as ([] & w1 & [_ ->]%ensure_spendable_done & Hx).
  apply bind_done in Hx as ([] & w1 & Hset & Hx).
  apply bind_done in Hx as ([] & w2 & Htr & Hx). minv Hx.
  intros Hme Hok. pose proof Hok as [Hp Ht]. destruct (Ht t) as [Hmax Hrs].
  assert (pending_at w r t ≤ pending_total w t) as Hle.
  { specialize (Hrs [r]). csimpl in Hrs. rewrite Z.add_0_r in Hrs. apply Hrs.
    constructor; [by apply not_elem_of_nil | constructor]. }
  rewrite sat_id in Hset by (unfold i128_min; lia).
  apply set_pending_spec in Hset as (Hself & Hext & _ & Hp' & Ht'); [| lia | lia].
  assert (escrow_ok w1) as Hok1.
  { apply (escrow_shift w w1 r t (- pending_at w r t)); try done; try lia.
    - intros r' t'. rewrite Hp'. case_bool_decide; destruct_and?; simplify_eq; lia.
    - intros t'. rewrite Ht'. case_bool_decide; simplify_eq; lia. }
  apply transfer_out_draws in Htr as [Hd _]; [| congruence].
  destruct Hd as (? & ? & Hf); [congruence | done |]. split_and!; [done | done |].
  intros t'. specialize (Hf t'). unfold free in *; simpl. rewrite Ht', Hself, Hext in Hf.
  change (pending_total (with_event _ w2)) with (pending_total w2).
  case_bool_decide; simplify_eq; lia.
Qed.

Lemma transfer_out_strict_draws t a n w w' u :
  self w = me → transfer_out_strict t a n w = Done u w' → draws t (Z.max 0 n) w w'.
Proof.
  intros Hme Hx. unfold transfer_out_strict in Hx. destruct (n <=? 0) eqn:Hn; bools.
  { minv Hx. apply safe_draws; [lia | done]. }
  rewrite Z.max_r by lia.
  apply bind_done in Hx as (total & w1 & [-> ->]%pending_payout_total_done & Hx).
  apply bind_done in Hx as ([] & w1 & [_ ->]%ensure_spendable_done & Hx).
  apply bind_done in Hx as ([] & w1 & [_ ->]%require_authorized_done & Hx).
  by eapply transfer_out_draws.
Qed.

(** A loop of payouts draws the sum of the positive amounts. *)
Lemma payouts_draw t id (f : Address * Z → Z) (ps : list (Address * Z)) w w' :
  self w = me →
  for_each ps (λ p, _ ← pay_or_escrow t p.1 (f p) id; mret tt) w = Done tt w' →
  draws t (zsum ((λ p, Z.max 0 (f p)) <$> ps)) w w'.
Proof.
  revert w. induction ps as [|p ps IH]; intros w Hme Hx; csimpl in *.
  { minv Hx. by apply safe_draws. }
  apply bind_done in Hx as ([] & w1 & Hp & Hx).
  apply bind_done in Hp as (b & w2 & Hp & [_ ->]%ret_done).
  assert (self w2 = me) as Hme2.
  { rewrite <-Hme. by apply (pay_or_escrow_touches (λ _, true)) in Hp as [? _]. }
  eapply draws_trans; [by eapply pay_or_escrow_draws | by apply IH].
Qed.

(** The same as footprints of the operations. *)
Lemma pay_or_escrow_pays t a n id :
  keeps (draws t (Z.max 0 n)) (pay_or_escrow t a n id : IO bool).
Proof. intros w b w' Hx Hme. by eapply pay_or_escrow_draws. Qed.
Lemma transfer_out_strict_pays t a n :
  keeps (draws t (Z.max 0 n)) (transfer_out_strict t a n : IO unit).
Proof. intros w b w' Hx Hme. by eapply transfer_out_strict_draws. Qed.
Lemma refund_funders_pays id i fs :
  keeps (draws (i_token i)
    (zsum ((λ p, Z.max 0 (net_of_discount p.2 (i_discount_rate i))) <$> fs)))
    (refund_funders id i fs : IO unit).
Proof. intros w [] w' Hx Hme. exact (payouts_draw _ _ _ _ _ _ Hme Hx Hme). Qed.
Lemma distribute_shares_pays id i d fs :
  keeps (draws (i_token i) (zsum ((λ p, Z.max 0 (funder_share d p.2 (i_amount i))) <$> fs)))
    (distribute_shares id i d fs : IO unit).
Proof. intros w [] w' Hx Hme. exact (payouts_draw _ _ _ _ _ _ Hme Hx Hme). Qed.

(** An authorized payer is not the contract itself. *)
Lemma transfer_in_pays t a n w w' u :
  auth (ctx w) a = true → auth (ctx w) me = false →
  (invoke (ext_transfer t a (self w) n) : IO unit) w = Done u w' → draws t (- n) w w'.
Proof.
  intros Ha Hf Hx Hme. rewrite Hme in Hx.
  eapply transfer_in_draws in Hx as [Hd _]; [by apply Hd | done |]. congruence.
Qed.

(** Writes and events, peeled off the right end. *)
Lemma safe_put_r k v w w' :
  not_pending k = true → safe w w' → safe w (with_store (st_set (store w') k v) w').
Proof.
  intros Hk Hs. etrans; [exact Hs |].
  eapply touches_safe; [by apply touches_st_set | done | done].
Qed.
Lemma safe_event_r e w w' : safe w w' → safe w (with_event e w').
Proof. done. Qed.
Lemma draws_put_r t n k v w w' :
  not_pending k = true → draws t n w w' →
  draws t n w (with_store (st_set (store w') k v) w').
Proof. intros Hk Hd. eapply draws_safe_r; [exact Hd |]. by apply safe_put_r. Qed.
Lemma draws_event_r t n e w w' : draws t n w w' → draws t n w (with_event e w').
Proof. done. Qed.

(** ** Calls to peers *)
Hint Extern 4 (keeps safe _) => apply inner_safe : keeps.
Hint Resolve safe_invoke safe_try_invoke claim_pending_safe accrue_lp_spares
  accrue_settlement_spares is_enrolled_spares pool_claim_spares payer_data_spares
  interface_version_spares get_price_spares : keeps.

Lemma classify_feeders_safe os p l m : keeps safe (classify_feeders os p l m : IO _).
Proof.
  induction os as [|o os IH]; simpl; [frame |].
  unfold classify_identity_feeder. frame.
Qed.
Hint Resolve classify_feeders_safe : keeps.

Lemma query_sources_safe os t : keeps safe (query_sources os t : IO _).
Proof. apply query_sources_keeps; [apply _ |]. intros. unfold query_price. frame. Qed.
Lemma keep_survivors_safe f t m d l : keeps safe (keep_survivors f t m d l : IO _).
Proof. apply keep_survivors_keeps; [apply _ |]. intros. frame. Qed.

Lemma evaluate_identity_safe f t p m :
  keeps safe (evaluate_identity_verification f t p m : IO _).
Proof.
  unfold evaluate_identity_verification, check_identity_quorum,
    get_identity_oracles, get_identity_quorum, resolve_oracle_for_verification,
    is_oracle_circuit_tripped, get_oracle_health, legacy_oracle, get_config,
    is_oracle_data_timestamp_regression, is_oracle_data_duplicate_update, get_oracle_health.
  frame.
Qed.
Hint Resolve evaluate_identity_safe : keeps.

Lemma fund_checks_safe f id n b : keeps safe (fund_checks f id n b : IO _).
Proof.
  unfold fund_checks, require_lp, get_queue_resolution, get_min_payer_reputation,
    get_token_volume_cap, get_token_volume, require_identity, max_oracle_age, get_config.
  frame.
Qed.
Lemma fund_finish_safe f id i n : keeps safe (fund_finish f id i n : IO _).
Proof. unfold fund_finish, notify_distribution_funding. frame. Qed.
Lemma attempt_insurance_safe id i f : keeps safe (attempt_insurance id i f : IO _).
Proof. unfold attempt_insurance, get_insurance_pool. frame. Qed.
Lemma notify_settlement_safe f p b : keeps safe (notify_distribution_settlement f p b : IO _).
Proof. unfold notify_distribution_settlement. frame. Qed.
End escrow.
#[export] Hint Extern 4 (keeps (safe _) _) => apply inner_safe : keeps.
#[export] Hint Resolve safe_invoke safe_try_invoke claim_pending_safe accrue_lp_spares
  accrue_settlement_spares is_enrolled_spares pool_claim_spares payer_data_spares
  interface_version_spares get_price_spares classify_feeders_safe query_sources_safe
  keep_survivors_safe evaluate_identity_safe fund_checks_safe
  fund_finish_safe attempt_insurance_safe notify_settlement_safe : keeps.

(** [note_safe]: replace every remaining helper run by its safety. *)
Ltac note_safe me := repeat match goal with
  | H : ?m ?w = Done ?a ?w' |- _ =>
      let K := fresh "K" in
      assert (keeps (safe me) m) as K by (frame; done);
      apply K in H; clear K
  end.
(** [safely]: a chain of safe steps. *)
Ltac safely := unfold lock_world, unlock_world, save_world; repeat first
  [ reflexivity | assumption
  | apply safe_put_r; [apply _ | reflexivity |] | apply safe_put_r; [reflexivity |]
  | apply safe_event_r
  | match goal with F : safe _ ?w1 ?w2 |- safe _ _ ?w2 => etrans; [| exact F] end ].
