(* ===== verification/Solvency.v ===== *)
(** Solvency of the escrow contract: for every token, its balance covers the
    escrowed payouts and what its open invoices owe, across every call but the
    two that refund an already paid-out invoice. *)
From S2P Require Import Prelude Host Peers CoreTypes TopPayers CoreStore Access TokenSafety Nft.
From S2P Require Import OracleRegistry Pricing ConfigRs Admin Lifecycle Frames CoreSpecs Edits Queue.
From S2P Require Import Multisig System Invariants Escrow.

(** * Discount arithmetic without overflow *)

(** Face amounts whose basis-point products fit in [i128]. *)
Definition modest : Z := i128_max ÷ 10000.

Lemma modest_i128 : modest ≤ i128_max.
Proof. by vm_compute. Qed.

Lemma bps_of_modest n r : 0 ≤ n ≤ modest → 0 ≤ r ≤ 10000 → bps_of n r = n * r / 10000.
Proof.
  intros Hn Hr. unfold bps_of.
  assert (modest * 10000 ≤ i128_max) by by vm_compute.
  assert (in_i128 (n * r) = true) as Hin.
  { rewrite in_i128_spec. unfold i128_min. nia. }
  unfold checked. rewrite Hin. simpl. apply Z.quot_div_nonneg; lia || nia.
Qed.

Lemma net_modest n r :
  0 ≤ n ≤ modest → 0 ≤ r ≤ 10000 →
  net_of_discount n r = n - n * r / 10000 ∧ 0 ≤ net_of_discount n r ≤ n.
Proof.
  intros Hn Hr. unfold net_of_discount. rewrite bps_of_modest by done.
  assert (0 ≤ n * r / 10000 ≤ n) as Hd.
  { split; [apply Z.div_pos; nia |]. apply Z.div_le_upper_bound; nia. }
  pose proof modest_i128. rewrite sat_id by (unfold i128_min; lia). lia.
Qed.

(** Discounting parts costs no less than discounting the whole. *)
Lemma net_subadditive a b r :
  0 ≤ a → 0 ≤ b → a + b ≤ modest → 0 ≤ r ≤ 10000 →
  net_of_discount (a + b) r ≤ net_of_discount a r + net_of_discount b r.
Proof.
  intros Ha Hb Hs Hr.
  destruct (net_modest (a + b) r) as [-> _]; [lia | done |].
  destruct (net_modest a r) as [-> _]; [lia | done |].
  destruct (net_modest b r) as [-> _]; [lia | done |].
  assert (a * r / 10000 + b * r / 10000 ≤ (a + b) * r / 10000); [| lia].
  rewrite Z.mul_add_distr_r.
  pose proof (Z.div_mod (a * r) 10000). pose proof (Z.div_mod (b * r) 10000).
  pose proof (Z.mod_pos_bound (a * r) 10000). pose proof (Z.mod_pos_bound (b * r) 10000).
  apply Z.div_le_lower_bound; lia.
Qed.

(** What refunding every contributor pays out. *)
Definition refunds (rate : Z) (fs : contributors) : Z :=
  zsum ((λ p, net_of_discount p.2 rate) <$> fs).

Definition all_nonneg (fs : contributors) : Prop := Forall (λ n, 0 ≤ n) fs.*2.

Lemma refunds_cons rate a n fs :
  refunds rate ((a, n) :: fs) = net_of_discount n rate + refunds rate fs.
Proof. done. Qed.

Lemma all_nonneg_cons a n fs : all_nonneg ((a, n) :: fs) ↔ 0 ≤ n ∧ all_nonneg fs.
Proof. unfold all_nonneg. csimpl. split; [by intros ?%Forall_cons_1 | intros [??]; by constructor]. Qed.

Lemma refunds_bounds rate fs :
  all_nonneg fs → zsum fs.*2 ≤ modest → 0 ≤ rate ≤ 10000 →
  0 ≤ refunds rate fs ≤ zsum fs.*2 ∧
  zsum ((λ p, Z.max 0 (net_of_discount p.2 rate)) <$> fs) = refunds rate fs ∧
  net_of_discount (zsum fs.*2) rate ≤ refunds rate fs.
Proof.
  intros Hn Hs Hr. induction fs as [|[a n] fs IH].
  { split_and!; try done. }
  apply all_nonneg_cons in Hn as [Hn Hf]. rewrite refunds_cons. csimpl in *.
  pose proof (zsum_nonneg _ Hf) as H0.
  destruct (IH Hf) as ([? ?] & -> & ?); [lia |].
  destruct (net_modest n rate) as [_ ?]; [lia | done |].
  pose proof (net_subadditive n (zsum fs.*2) rate). lia.
Qed.

Lemma refunds_add f n rate fs :
  all_nonneg fs → 0 ≤ n → zsum fs.*2 + n ≤ modest → 0 ≤ rate ≤ 10000 →
  refunds rate (add_contribution f n fs) ≤ refunds rate fs + net_of_discount n rate.
Proof.
  intros Hf Hn Hs Hr. induction fs as [|[a m] fs IH]; csimpl in *.
  - unfold refunds; csimpl. lia.
  - apply all_nonneg_cons in Hf as [Hm Hf]. pose proof (zsum_nonneg _ Hf) as H0.
    pose proof modest_i128. case_bool_decide; rewrite !refunds_cons.
    + rewrite sat_id by (unfold i128_min; lia).
      pose proof (net_subadditive m n rate). lia.
    + specialize (IH Hf). lia.
Qed.

Lemma refunds_move old new rate fs :
  refunds rate (move_contributions old new fs) = refunds rate fs.
Proof.
  induction fs as [|[a m] fs IH]; [done |]. unfold move_contributions in *. csimpl.
  case_bool_decide; by rewrite !refunds_cons, IH.
Qed.

(** The shares of a settlement add up to at most what is distributed. *)
Lemma shares_bounded d amount fs :
  0 ≤ d → 0 < amount → all_nonneg fs → zsum fs.*2 ≤ amount →
  zsum ((λ p, Z.max 0 (funder_share d p.2 amount)) <$> fs) ≤ d.
Proof.
  intros Hd Ha Hf Hs.
  assert (zsum ((λ p, Z.max 0 (funder_share d p.2 amount)) <$> fs) * amount
          ≤ d * zsum fs.*2) as Hle.
  { clear Hs. induction fs as [|[a n] fs IH]; [csimpl; lia |].
    apply all_nonneg_cons in Hf as [Hn Hf]. csimpl. specialize (IH Hf).
    assert (Z.max 0 (funder_share d n amount) * amount ≤ d * n); [| lia].
    unfold funder_share, checked. destruct (in_i128 _); simpl.
    - rewrite Z.quot_div_nonneg by nia.
      pose proof (Z.mul_div_le (d * n) amount). pose proof (Z.div_pos (d * n) amount). nia.
    - change (0 ÷ amount) with (Z.quot 0 amount). rewrite Z.quot_0_l by lia. nia. }
  nia.
Qed.

(** * What the operations draw *)
Section draws.
Context {X : Type} `{TokenInterface X} `{Peers X} `{!TokenLaws X}.
Context (me : Address) `{!PeerLaws X me}.
Abbreviation W := (world DataKey X Event).
Implicit Types (w : W).
Abbreviation draws := (draws me).
Abbreviation safe := (safe me).

Definition payouts (rate : Z) (fs : contributors) : Z :=
  zsum ((λ p, Z.max 0 (net_of_discount p.2 rate)) <$> fs).

(** The fee rate [effective_fee_rate] reads. *)
Definition fee_rate_at w (amount : Z) : Z :=
  match default [] (store w Key.FeeTiers) with
  | [] => default 0 (store w Key.FeeRate)
  | tiers => tier_rate tiers amount
  end.

Lemma effective_fee_rate_done amount r w w' :
  effective_fee_rate amount w = Done r w' → r = fee_rate_at w amount ∧ w' = w.
Proof.
  intros Hx. unfold effective_fee_rate in Hx. unfold fee_rate_at. minv Hx;
    repeat case_match; simplify_eq; done.
Qed.

Lemma cancel_invoice_draws id i w w' :
  wf w → cancel_invoice id w = Done tt w' → invoice_at w id = Some i →
  draws (i_token i) (match i_status i with
                     | Status.PartiallyFunded => payouts (i_discount_rate i) (funders_at w id)
                     | _ => 0 end) w w'.
Proof.
  intros Hw Hx Hi. unfold cancel_invoice in Hx. einv Hw Hx.
  - rename select (i_status _ = _) into E. rewrite E. apply safe_draws; [done |].
    safely.
  - rename select (i_status _ = _) into E. rewrite E.
    rename select (refund_funders _ _ _ _ = _) into Hr. apply (refund_funders_pays me) in Hr.
    unfold unlock_world, save_world. apply draws_put_r; [done |]. apply draws_event_r.
    apply draws_put_r; [done |]. eapply draws_safe_l; [| exact Hr].
    safely.
Qed.

Lemma resolve_dispute_draws id h r i w w' :
  wf w → resolve_dispute id h r w = Done tt w' → invoice_at w id = Some i →
  draws (i_token i) (if r =? 1 then payouts (i_discount_rate i) (funders_at w id)
                                    + Z.max 0 (i_amount_paid i)
                     else 0) w w'.
Proof.
  intros Hw Hx Hi. unfold resolve_dispute in Hx.
  apply bind_done in Hx as ([] & w1 & [_ ->]%lock_reentrancy_done & Hx).
  apply bind_done in Hx as ([] & w1 & (? & _ & _ & ->)%require_admin_done & Hx).
  apply bind_done in Hx as ([] & w1 & Hrec & Hx).
  apply bind_done in Hx as (i1 & w2 & [Hi1 ->]%load_existing_done & Hx).
  pose proof (record_admin_action_inner aux "resolve_dispute"
                ltac:(done) ltac:(done) _ _ _ Hrec) as [Ht1 _].
  assert (safe w w1) as Hs.
  { clear Ht1 Hi1 Hx. note_safe me. safely. }
  pull. simplify_eq.
  apply bind_done in Hx as ([] & w2 & [_ ->]%reject_if_done & Hx).
  apply bind_done in Hx as (i2 & w2 & Hu & Hx).
  assert (safe w2 w') as Hend. { minv Hx. note_safe me. safely. }
  eapply draws_safe_r; [| exact Hend]. eapply draws_safe_l; [exact Hs |].
  destruct (r =? 1); [| by destruct (r =? 2); minv Hu; apply safe_draws].
  unfold uphold_dispute in Hu.
  apply bind_done in Hu as ([] & w3 & ->%save_invoice_done & Hu).
  apply bind_done in Hu as (fs & w4 & [-> ->]%get_invoice_funders_done & Hu).
  autorewrite with view in Hu. pull.
  apply bind_done in Hu as ([] & w4 & Href & Hu). apply (refund_funders_pays me) in Href.
  eapply draws_trans.
  - eapply draws_safe_l; [| exact Href]. safely.
  - apply bind_done in Hu as ([] & w5 & Hp & [_ ->]%ret_done).
    destruct (0 <? i_amount_paid _).
    + apply bind_done in Hp as (b & w6 & Hp%(pay_or_escrow_pays me) & ->%publish_done).
      by apply draws_event_r.
    + minv Hp. apply safe_draws; [lia | done].
Qed.

(** What a full settlement pays out of the collected amount. *)
Definition settlement_cost (fee_rate : Z) (i : Invoice) (fs : contributors) : Z :=
  let fee := bps_of (i_amount i) fee_rate in
  Z.max 0 fee +
  zsum ((λ p, Z.max 0 (funder_share (sat_i128 (i_amount i - fee)) p.2 (i_amount i))) <$> fs).

Lemma settle_in_full_draws id i p fs w w' :
  settle_in_full id i p fs w = Done tt w' →
  draws (i_token i) (settlement_cost (fee_rate_at w (i_amount i)) i fs) w w'.
Proof.
  intros Hx. unfold settle_in_full in Hx.
  apply bind_done in Hx as (r & w1 & [-> ->]%effective_fee_rate_done & Hx).
  cbv zeta in Hx. unfold settlement_cost.
  set (fee := bps_of _ _) in *.
  apply bind_done in Hx as ([] & w2 & Hfee & Hx).
  apply bind_done in Hx as (num & w3 & [_ ->]%ok_or_done & Hx).
  apply bind_done in Hx as ([] & w3 & ->%save_invoice_done & Hx).
  apply bind_done in Hx as ([] & w3 & Hsync & Hx).
  apply bind_done in Hx as ([] & w4 & Hdist & Hx).
  apply (distribute_shares_pays me) in Hdist.
  eapply draws_trans.
  - destruct (0 <? fee) eqn:Hpos; bools.
    + apply bind_done in Hfee as (a & w5 & Hadm & Hfee).
      apply bind_done in Hfee as (b & w6 & Hp%(pay_or_escrow_pays me) & [_ ->]%ret_done).
      by minv Hadm.
    + minv Hfee. apply safe_draws; [lia | done].
  - assert (safe w2 w3) as H23 by (note_safe me; safely).
    assert (safe w4 w') as H4 by (note_safe me; safely).
    eapply draws_safe_r; [| exact H4]. by eapply draws_safe_l.
Qed.

Lemma mark_paid_draws id n i w w' :
  wf w → mark_paid id n w = Done tt w' → invoice_at w id = Some i →
  auth (ctx w) me = false →
  draws (i_token i)
    (- n + (if i_amount_paid i + n <? i_amount i then 0
            else settlement_cost (fee_rate_at w (i_amount i)) i (funders_at w id))) w w'.
Proof.
  intros Hw Hx Hi Hme. unfold mark_paid in Hx.
  apply bind_done in Hx as ([] & w1 & [_ ->]%lock_reentrancy_done & Hx).
  apply bind_done in Hx as ([] & w1 & [_ ->]%require_not_paused_done & Hx).
  apply bind_done in Hx as ([] & w1 & [_ ->]%reject_if_done & Hx).
  apply bind_done in Hx as (o & w1 & [-> ->]%try_load_invoice_done & Hx).
  apply bind_done in Hx as (i1 & w1 & [Hl ->]%ok_or_done & Hx).
  apply bind_done in Hx as ([] & w1 & (i2 & Hi2 & Ha & ->)%require_payer_by_id_done & Hx).
  autorewrite with view in *. rewrite wf_lookup in Hl by done.
  assert (i1 = i) as -> by congruence. assert (i2 = i) as -> by congruence.
  apply bind_done in Hx as ([] & w1 & [_ ->]%require_funded_done & Hx).
  apply bind_done in Hx as ([] & w1 & [_ ->]%reject_if_done & Hx).
  apply bind_done in Hx as (fs & w1 & [-> ->]%get_invoice_funders_done & Hx).
  apply bind_done in Hx as (p & w1 & [_ ->]%ok_or_done & Hx).
  apply bind_done in Hx as (paid & w1 & [Hpaid ->]%ok_or_done & Hx). bools.
  apply bind_done in Hx as ([] & w1 & [_ ->]%require_authorized_done & Hx).
  apply bind_done in Hx as (self' & w1 & [-> ->]%current_contract_done & Hx).
  apply bind_done in Hx as ([] & w1 & Htr & Hx).
  apply bind_done in Hx as ([] & w2 & Hset & ->%unlock_reentrancy_done).
  assert (fee_rate_at w1 (i_amount i) = fee_rate_at w (i_amount i)) as <-.
  { apply invoke_done in Htr as (x & _ & ->). unfold fee_rate_at, lock_world; simpl. by sto. }
  apply (transfer_in_pays me) in Htr; [| done | done].
  unfold unlock_world. apply draws_put_r; [done |].
  eapply draws_trans; [eapply draws_safe_l; [| exact Htr]; safely |].
  autorewrite with view in Hset. simpl in Hset.
  destruct (_ <? _).
  - assert (safe w1 w2) by (minv Hset; note_safe me; safely). by apply safe_draws.
  - apply settle_in_full_draws in Hset. exact Hset.
Qed.

Lemma fund_collect_draws f i n p w w' :
  fund_collect f i n p w = Done tt w' → auth (ctx w) f = true → auth (ctx w) me = false →
  draws (i_token i) (- net_of_discount n (i_discount_rate i)) w w'.
Proof.
  intros Hx Hf Hme. unfold fund_collect in Hx.
  apply bind_done in Hx as (a & w1 & [-> ->]%current_contract_done & Hx).
  apply bind_done in Hx as ([] & w1 & [_ ->]%require_authorized_done & Hx).
  apply bind_done in Hx as ([] & w1 & Hr & Hx).
  assert (w1 = w) as -> by by minv Hr. by apply (transfer_in_pays me) in Hx.
Qed.

Lemma fund_apply_draws f id i n i' w w' :
  fund_apply f id i n (i_amount_funded i + n) w = Done i' w' →
  draws (i_token i)
    (if i_amount_funded i + n =? i_amount i
     then Z.max 0 (net_of_discount (i_amount i) (i_discount_rate i)) else 0) w w'.
Proof.
  intros Hx. unfold fund_apply in Hx.
  apply bind_done in Hx as (fs & w0 & [-> ->]%get_invoice_funders_done & Hx).
  apply bind_done in Hx as ([] & w1 & Hfs & Hx).
  assert (safe w w1) as H1 by (note_safe me; safely).
  apply bind_done in Hx as (i1 & w2 & Hpay & Hx).
  assert (safe w2 w') as H2 by (clear Hfs Hpay; minv Hx; note_safe me; safely).
  eapply draws_safe_r; [| exact H2]. eapply draws_safe_l; [exact H1 |].
  cbv zeta in Hpay.
  change (i_amount_funded (set_amount_funded (i_amount_funded i + n) i))
    with (i_amount_funded i + n) in Hpay.
  change (i_amount (set_amount_funded _ i)) with (i_amount i) in Hpay.
  destruct (_ =? _).
  - apply bind_done in Hpay as ([] & w3 & Hout & Hpay).
    apply (transfer_out_strict_pays me) in Hout.
    eapply draws_safe_r; [exact Hout |].
    unfold get_lp_score in Hpay. clear Hx Hfs. minv Hpay. note_safe me. safely.
  - minv Hpay. by apply safe_draws.
Qed.

Lemma fund_invoice_draws f id n b i w w' :
  wf w → fund_invoice f id n b w = Done tt w' → invoice_at w id = Some i →
  auth (ctx w) me = false →
  draws (i_token i)
    (- net_of_discount n (i_discount_rate i) +
     (if i_amount_funded i + n =? i_amount i
      then Z.max 0 (net_of_discount (i_amount i) (i_discount_rate i)) else 0)) w w'.
Proof.
  intros Hw Hx Hi Hme. unfold fund_invoice in Hx.
  apply bind_done in Hx as ([] & w1 & [_ ->]%lock_reentrancy_done & Hx).
  apply bind_done in Hx as ([] & w1 & [_ ->]%require_not_paused_done & Hx).
  apply bind_done in Hx as ([i1 p] & w1 & Hc & Hx).
  pose proof (fund_checks_safe me _ _ _ _ _ _ _ Hc) as Hs1.
  apply fund_checks_spec in Hc as (Hl & Ha & _ & _ & -> & _ & Ht1).
  autorewrite with view in Hl. rewrite (wf_lookup _ _ Hw) in Hl.
  assert (i1 = i) as -> by congruence.
  apply bind_done in Hx as ([] & w2 & Hcol & Hx).
  apply bind_done in Hx as (i' & w3 & Hap%fund_apply_draws & Hx).
  apply bind_done in Hx as ([] & w4 & Hfin%(fund_finish_safe me) & ->%unlock_reentrancy_done).
  apply fund_collect_draws in Hcol; [| by rewrite (proj1 (proj2 Ht1))..].
  unfold unlock_world. apply draws_put_r; [done |]. eapply draws_safe_r; [| exact Hfin].
  eapply draws_trans; [| exact Hap]. eapply draws_safe_l; [| exact Hcol].
  etrans; [| exact Hs1]. safely.
Qed.

(** ** Calls that draw nothing *)
Lemma add_token_safe t d : keeps safe (add_token t d : M W ContractError unit).
Proof.
  intros w [] w' Hx. unfold add_token in Hx.
  apply bind_done in Hx as ([] & w1 & (? & _ & _ & ->)%require_admin_done & Hx).
  apply bind_done in Hx as ([] & w1 & Hr & Hx).
  apply bind_done in Hx as ([] & w2 & Hrec & Hx).
  assert (safe w w2) as H2 by (clear Hx; note_safe me; safely).
  clear Hr Hrec. etrans; [exact H2 |]. clear H2.
  apply bind_done in Hx as (adm & w3 & Hadm & Hx).
  assert (w3 = w2) as -> by (clear Hx; by minv Hadm). clear Hadm.
  apply bind_done in Hx as ([] & w3 & Hv & Hx).
  assert (w3 = w2) as -> by (clear Hx; unfold validate_token_decimals in Hv; by minv Hv).
  clear Hv. apply bind_done in Hx as ([] & w3 & Hv & Hx).
  assert (w3 = w2) as ->.
  { clear Hx. unfold validate_sac_authorization, query_authorized in Hv. by minv Hv. }
  clear Hv.
  apply bind_done in Hx as (s & w3 & [-> ->]%current_contract_done & Hx).
  apply bind_done in Hx as (before & w3 & [-> ->]%reads_done & Hx).
  apply bind_done in Hx as ([] & w3 & Hin & Hx).
  apply bind_done in Hx as (after & w4 & [-> ->]%reads_done & Hx). cbv zeta in Hx.
  apply bind_done in Hx as ([] & w4 & Hrec & Hx).
  apply bind_done in Hx as ([] & w5 & Hout & Hx).
  assert (safe w5 w') as H5 by (clear Hin Hrec Hout; minv Hx; note_safe me; safely).
  etrans; [| exact H5]. clear Hx H5.
  apply invoke_done in Hin as (x1 & Hin & ->). apply invoke_done in Hout as (x2 & Hout & Hw5).
  assert (w4 = with_ext x1 w2 ∧
          tok_balance x1 t (self w2) = tok_balance (ext w2) t (self w2) + FEE_PROBE_AMOUNT)
    as [-> Hrecv].
  { simpl in Hrec. destruct (_ =? FEE_PROBE_AMOUNT) eqn:E; bools; [| by minv Hrec].
    minv Hrec. split; [done |]. unfold checked in E.
    destruct (in_i128 _); simpl in E; [lia | done]. }
  subst w5. unfold ext_transfer in Hin, Hout. simpl in Hout.
  destruct (tok_transfer (ext w2) _ _ _ _) as [y|] eqn:Hin1; simplify_eq/=.
  destruct (tok_transfer x1 _ _ _ _) as [y|] eqn:Hout1; simplify_eq/=.
  intros Hme Ho. split_and!; [done | done |]. intros t'. unfold free; simpl.
  change (pending_total (with_ext x2 _) t') with (pending_total w2 t').
  rewrite (transfer_balance _ _ _ _ _ _ t' (self w2) Hout1).
  destruct (decide (t' = t)) as [-> | Hne].
  - rewrite Hrecv. repeat case_bool_decide; unfold FEE_PROBE_AMOUNT in *; naive_solver lia.
  - rewrite (transfer_balance _ _ _ _ _ _ t' (self w2) Hin1).
    repeat case_bool_decide; naive_solver lia.
Qed.

Hint Resolve add_token_safe : keeps.

(** Calls that pay nobody out of the free balance. *)
Definition payless (c : Call) : bool :=
  match c with
  | FundInvoice _ _ _ _ | CancelInvoice _ | MarkPaid _ _ | ClaimDefault _ _
  | ResolveDispute _ _ _ => false
  | _ => true
  end.

Variables (MAX_FEE_TIERS MAX_IDENTITY_ORACLES_PER_FEED MAX_PRICE_SOURCES_PER_FEED : Z)
  (gen_range : Z → Z).

Lemma store_submission_safe f p a d r t rc :
  keeps safe (store_submission f p a d r t rc : M W ContractError Z).
Proof. unfold store_submission. frame. Qed.
Hint Resolve store_submission_safe : keeps.

Lemma submit_batch_loop_safe auths l :
  keeps safe (submit_batch_loop auths l : M W ContractError (list Z)).
Proof.
  revert auths. induction l as [|p l IH]; intros auths; simpl; [frame |].
  unfold require_submitter. frame.
Qed.
Hint Resolve submit_batch_loop_safe : keeps.

Lemma lifecycle_safe c :
  payless c = true → administrative c = false →
  keeps safe (exec MAX_FEE_TIERS MAX_IDENTITY_ORACLES_PER_FEED MAX_PRICE_SOURCES_PER_FEED gen_range c).
Proof.
  intros Hp Ha. destruct c; try done; simpl; unfold ignore;
  unfold submit_invoice, require_submitter, get_max_invoice_amount, submit_invoices_batch,
    update_invoice, convert_invoice_token, registered_token_decimals, transfer_invoice,
    transfer_lp_position, get_invoice_funders, expire_invoice, appeal_default, get_appeal,
    get_pre_default_payer_score, save_appeal, resolve_appeal, dispute_invoice, get_dispute,
    save_dispute, auto_resolve_dispute, get_config; frame.
Qed.

Lemma administrative_safe c :
  administrative c = true →
  keeps safe (exec MAX_FEE_TIERS MAX_IDENTITY_ORACLES_PER_FEED MAX_PRICE_SOURCES_PER_FEED gen_range c).
Proof.
  intros Ha. destruct c; try done; simpl; unfold ignore;
    [unfold initialize; frame | ..];
    try (solve [frame]); open_admin; frame.
Qed.

Lemma payless_safe c :
  payless c = true → keeps safe (exec MAX_FEE_TIERS MAX_IDENTITY_ORACLES_PER_FEED MAX_PRICE_SOURCES_PER_FEED gen_range c).
Proof.
  intros Hp. destruct (administrative c) eqn:Ha; [by apply administrative_safe |].
  by apply lifecycle_safe.
Qed.

(** * Obligations *)

(** What the contract owes on an invoice, in token [t], if everything open were
    unwound: contributions to a partially funded invoice and what the payer has
    paid on a funded one. *)
Definition owes (t : Address) (i : Invoice) (fs : contributors) : Z :=
  if bool_decide (i_token i = t) then
    match i_status i with
    | Status.PartiallyFunded => refunds (i_discount_rate i) fs
    | Status.Funded => i_amount_paid i
    | Status.Disputed =>
        (if i_amount_funded i <? i_amount i then refunds (i_discount_rate i) fs else 0)
        + i_amount_paid i
    | _ => 0
    end
  else 0.
Definition owes_at w (t : Address) (id : Z) : Z :=
  match invoice_at w id with Some i => owes t i (funders_at w id) | None => 0 end.
Definition owed w (t : Address) : Z := zsum (owes_at w t <$> seqZ 1 (next_id w - 1)).

Lemma owed_same w w' t : same_invoices w w' → owed w' t = owed w t.
Proof.
  intros (Hj & Hf & Hn & _). unfold owed. rewrite Hn. f_equal.
  apply list_fmap_ext. intros k id _. unfold owes_at. by rewrite Hj, Hf.
Qed.

Lemma owed_edit id i i' fs' w w' t :
  wf w → edited id i i' fs' w w' →
  owed w' t = owed w t + (owes t i' fs' - owes t i (funders_at w id)).
Proof.
  intros Hw (Hi & Hi' & Hfs & Hj & Hf & Hn & _). unfold owed. rewrite Hn.
  rewrite (zsum_update (owes_at w t) (owes_at w' t) id
             (owes t i' fs' - owes t i (funders_at w id))).
  - rewrite bool_decide_eq_true_2; [done |]. apply elem_of_seqZ.
    pose proof (wf_low _ Hw _ _ Hi).
    destruct (Z.lt_ge_cases id (next_id w)) as [? | Hge]; [lia |].
    destruct (wf_fresh _ Hw _ Hge) as [? _]. congruence.
  - intros j Hne. unfold owes_at. by rewrite Hj, Hf.
  - unfold owes_at. rewrite Hi, Hi', Hfs. lia.
  - apply NoDup_seqZ.
Qed.

Lemma owed_submit i w w' t :
  wf w → submitted i w w' → i_status i = Status.Pending → owed w' t = owed w t.
Proof.
  intros Hw (Hi & _ & Hn & Hj & Hf & _) Hs. unfold owed. pose proof (wf_next _ Hw).
  replace (next_id w' - 1) with (next_id w - 1 + 1) by lia.
  rewrite seqZ_app by lia. rewrite fmap_app, zsum_app.
  replace (1 + (next_id w - 1)) with (next_id w) by lia.
  rewrite (seqZ_cons (next_id w) 1), (seqZ_nil _ (Z.pred 1)) by lia. csimpl.
  assert (owes_at w' t (next_id w) = 0) as ->.
  { unfold owes_at, owes. rewrite Hi, Hs. by case_bool_decide. }
  rewrite Z.add_0_r. f_equal. apply list_fmap_ext. intros k j Hk.
  apply list_elem_of_lookup_2, elem_of_seqZ in Hk.
  unfold owes_at. rewrite Hj, Hf by lia. done.
Qed.

(** * The invariant *)
Definition backed w : Prop :=
  self w = me ∧ all_good modest w ∧ escrow_ok w ∧ ∀ t, owed w t ≤ free w t.

(** Configurations and calls the invariant is about: rates and fees below par, no
    call signed by the contract itself, and no refund of an invoice that has been
    paid out already. *)
Definition prudent (c : Call) w : Prop :=
  max_discount w < 10000 ∧ (∀ amount, 0 ≤ fee_rate_at w amount ≤ 10000) ∧
  auth (ctx w) me = false ∧
  match c with
  | ClaimDefault _ _ => False
  | ResolveDispute id _ r =>
      r = 1 → ∀ i, invoice_at w id = Some i → i_amount_funded i < i_amount i
  | _ => True
  end.

(** An edit that draws no more than it relieves keeps the contract backed. *)
Lemma edit_backed id i i' fs' n w w' :
  backed w → edited id i i' fs' w w' → all_good modest w' →
  draws (i_token i) n w w' →
  (∀ t, owes t i' fs' + (if bool_decide (t = i_token i) then n else 0)
        ≤ owes t i (funders_at w id)) →
  backed w'.
Proof.
  intros (Hme & [Hw _] & Ho & Hf) He Hg Hd Hle.
  destruct (Hd Hme Ho) as (Hme' & Ho' & Hf'). split_and!; try done.
  intros t. rewrite (owed_edit _ _ _ _ _ _ t Hw He).
  specialize (Hf t). specialize (Hf' t). specialize (Hle t). lia.
Qed.

Lemma same_backed w w' :
  backed w → same_invoices w w' → safe w w' → backed w'.
Proof.
  intros (Hme & Hg & Ho & Hf) Hs Hd. destruct (Hd Hme Ho) as (Hme' & Ho' & Hf').
  split_and!; try done; [by eapply same_good |].
  intros t. rewrite (owed_same w w') by done. by etrans; [apply Hf | apply Hf'].
Qed.

(** Revisions that move no money keep what is owed. *)
Lemma owes_token t i fs : t ≠ i_token i → owes t i fs = 0.
Proof. intros Hne. unfold owes. by rewrite bool_decide_eq_false_2. Qed.

Lemma good_refunds i fs :
  good modest i fs →
  0 ≤ refunds (i_discount_rate i) fs ≤ i_amount_funded i ∧
  payouts (i_discount_rate i) fs = refunds (i_discount_rate i) fs ∧
  net_of_discount (i_amount_funded i) (i_discount_rate i) ≤ refunds (i_discount_rate i) fs.
Proof.
  intros [Ha Hr Hs Hn Hf _ _]. rewrite <-Hs. unfold payouts.
  apply refunds_bounds; [done | lia | lia].
Qed.

Lemma settlement_bounded r i fs :
  good modest i fs → i_amount_funded i = i_amount i → 0 ≤ r ≤ 10000 →
  settlement_cost r i fs ≤ i_amount i.
Proof.
  intros [Ha Hd Hs Hn Hf _ _] Hfull Hr. unfold settlement_cost.
  rewrite bps_of_modest by lia.
  assert (0 ≤ i_amount i * r / 10000 ≤ i_amount i) as Hfee.
  { split; [apply Z.div_pos; nia |]. apply Z.div_le_upper_bound; nia. }
  pose proof modest_i128. rewrite sat_id by (unfold i128_min; lia).
  pose proof (shares_bounded (i_amount i - i_amount i * r / 10000) (i_amount i) fs
                ltac:(lia) ltac:(lia) Hn ltac:(lia)). lia.
Qed.

(** [owing]: compare what is owed before and after an edit, by status. *)
Ltac owing :=
  intros t; unfold owes; simpl;
  repeat match goal with
  | E : i_status ?i = _ |- context [i_status ?i] => rewrite E
  end; repeat case_bool_decide; simplify_eq; try done; try lia.

Lemma dispute_owes i fs :
  good modest i fs →
  (i_status i = Status.Pending ∨ i_status i = Status.PartiallyFunded ∨
   i_status i = Status.Funded) →
  ∀ t, owes t (set_status Status.Disputed i) fs
       + (if bool_decide (t = i_token i) then 0 else 0) ≤ owes t i fs.
Proof.
  intros Hg Hs. pose proof (good_refunds _ _ Hg) as (Hr & _ & _).
  destruct Hg as [Ha _ _ _ Hf Hp Hst]. unfold status_amounts in Hst.
  destruct Hs as [E | [E | E]]; rewrite E in Hst; owing;
    destruct (_ <? _) eqn:Hlt; bools; lia.
Qed.

Lemma reject_owes i fs :
  good modest i fs → i_status i = Status.Disputed →
  ∀ t, owes t (set_status (restored_status i) i) fs
       + (if bool_decide (t = i_token i) then 0 else 0) ≤ owes t i fs.
Proof.
  intros Hg E. pose proof (good_refunds _ _ Hg) as (Hr & _ & _).
  destruct Hg as [Ha _ _ _ Hf Hp Hst]. unfold status_amounts in Hst. rewrite E in Hst.
  unfold restored_status.
  destruct (_ =? _) eqn:Heq; [| destruct (0 <? _) eqn:Hlt]; bools; owing;
    destruct (_ <? _) eqn:Hlt'; bools; lia.
Qed.

Lemma fund_owes f n ts i fs :
  good modest i fs → good modest (funded_invoice f n ts i) (add_contribution f n fs) →
  i_status i = Status.Pending ∨ i_status i = Status.PartiallyFunded →
  0 ≤ net_of_discount n (i_discount_rate i) → i_amount_funded i + n ≤ i_amount i →
  ∀ t, owes t (funded_invoice f n ts i) (add_contribution f n fs)
       + (if bool_decide (t = i_token i) then
            - net_of_discount n (i_discount_rate i) +
            (if i_amount_funded i + n =? i_amount i
             then Z.max 0 (net_of_discount (i_amount i) (i_discount_rate i)) else 0)
          else 0) ≤ owes t i fs.
Proof.
  intros Hg Hg' Hs Hnet Hle. pose proof (good_refunds _ _ Hg) as (Hr & _ & Hsub).
  destruct Hg as [Ha Hrate Hsum Hnn Hf Hp Hst].
  apply net_nonneg_amount in Hnet as Hn; [| done].
  assert (i_amount_paid i = 0 ∧ 0 ≤ refunds (i_discount_rate i) fs ∧
          (i_status i = Status.Pending → refunds (i_discount_rate i) fs = 0)) as (Hp0 & _ & Hr0).
  { unfold status_amounts in Hst. destruct Hs as [E | E]; rewrite E in *; split_and!; try lia; done. }
  pose proof (refunds_add f n (i_discount_rate i) fs Hnn ltac:(lia) ltac:(lia) ltac:(lia))
    as Hadd.
  pose proof (net_subadditive (i_amount_funded i) n (i_discount_rate i)) as Hsa.
  assert (∀ t, owes t i fs = if bool_decide (i_token i = t)
                             then refunds (i_discount_rate i) fs else 0) as Ho.
  { intros t. unfold owes. case_bool_decide; [| done].
    destruct Hs as [E | E]; rewrite E; [by rewrite Hr0 | done]. }
  intros t. rewrite Ho. unfold funded_invoice, owes.
  rewrite (bool_decide_ext (t = i_token i) (i_token i = t)) by done.
  destruct (_ =? _) eqn:Heq; bools; simpl; case_bool_decide; try lia.
  rewrite <-Heq in *. lia.
Qed.

Lemma pay_owes r n i fs :
  good modest i fs → i_status i = Status.Funded → 0 ≤ r ≤ 10000 → 0 < n →
  i_amount_paid i + n ≤ i_amount i →
  ∀ t, owes t (paid_invoice n i) fs
       + (if bool_decide (t = i_token i) then
            - n + (if i_amount_paid i + n <? i_amount i then 0 else settlement_cost r i fs)
          else 0) ≤ owes t i fs.
Proof.
  intros Hg E Hr Hn Hle. pose proof (good_status _ _ _ Hg) as Hst.
  unfold status_amounts in Hst. rewrite E in Hst.
  pose proof (settlement_bounded r i fs Hg) as Hc. unfold paid_invoice.
  destruct (_ <? _) eqn:Hlt; bools; owing.
Qed.

Abbreviation exec :=
  (exec MAX_FEE_TIERS MAX_IDENTITY_ORACLES_PER_FEED MAX_PRICE_SOURCES_PER_FEED gen_range).

Lemma submissions_owed w w' t :
  submissions modest w w' → wf w → owed w' t = owed w t.
Proof.
  induction 1 as [|i w w1 w2 Hnew Hsub Hm Hcx Hs IH]; [done |]. intros Hw.
  rewrite IH.
  - eapply owed_submit; [done | done | apply Hnew].
  - eapply (submissions_wf modest); [| exact Hw]. eapply sub_one; [done..|]. constructor.
Qed.

Lemma exec_submission_backed w w' :
  backed w → submissions modest w w' → all_good modest w' → safe w w' → backed w'.
Proof.
  intros (Hme & [Hw Hg] & Ho & Hf) Hs Hg' Hd. destruct (Hd Hme Ho) as (Hme' & Ho' & Hf').
  split_and!; try done. intros t. rewrite (submissions_owed w w') by done.
  etrans; [apply Hf | apply Hf'].
Qed.

(** Every prudent call keeps the contract backed. *)
Lemma exec_backed c w w' :
  backed w → prudent c w → typed modest c = true → exec c w = Done tt w' → backed w'.
Proof.
  intros Hb (Hcap & Hfee & Hauth & Hc) Ht Hx. pose proof Hb as (Hme & [Hw Hg] & Ho & Hf).
  pose proof (exec_evolves _ _ _ _ _ _ _ _ Hw Ht Hx) as Hev.
  assert (all_good modest w') as Hg'.
  { eapply evolves_good; [exact modest_i128 | exact Hev | done | done]. }
  destruct (administrative c) eqn:Hadm.
  { eapply same_backed; [done | by eapply administrative_same | by eapply administrative_safe]. }
  assert (payless c = true → safe w w') as Hsafe by (intros; by eapply payless_safe).
  destruct (submits c) eqn:Hsub.
  { eapply exec_submission_backed; [done | by eapply submit_submissions | done |].
    apply Hsafe. by destruct c. }
  clear Hev. destruct c; try done; simpl in Hx, Ht, Hc; try specialize (Hsafe eq_refl).
  - apply update_invoice_edits in Hx as (i & dec & ? & ? & ? & ? & ? & ? & ? & ? & He); [| done].
    eapply edit_backed; [done.. | by apply safe_draws | owing].
  - apply convert_invoice_token_edits in Hx as (i & ? & ? & ? & He); [| done].
    eapply edit_backed; [done.. | by apply safe_draws | owing].
  - apply transfer_invoice_edits in Hx as (i & ? & ? & He); [| done].
    eapply edit_backed; [done.. | by apply safe_draws | owing].
  - pose proof Hx as Hd.
    apply fund_invoice_edits in Hx as (i & Hs & ? & ? & ? & (x & x' & Hc1) & He); [| done].
    pose proof He as (Hi & _). pose proof (Hg _ _ Hi) as Hgi.
    apply transfer_covered in Hc1 as [? _].
    eapply edit_backed; [done.. | by eapply fund_invoice_draws |].
    apply fund_owes; try done; [| naive_solver].
    destruct He as (_ & Hi' & <- & _). apply (proj2 Hg' _ _ Hi').
  - apply transfer_lp_position_edits in Hx as (i & old & ? & ? & ? & ? & He); [| done].
    eapply edit_backed; [done.. | by apply safe_draws | owing].
  - pose proof Hx as Hd. apply cancel_invoice_edits in Hx as (i & Hs & ? & He); [| done].
    pose proof He as (Hi & _). pose proof (good_refunds _ _ (Hg _ _ Hi)) as (_ & Hpay & _).
    eapply edit_backed; [done.. | by eapply cancel_invoice_draws |].
    destruct Hs as [E | E]; rewrite E; owing.
  - apply expire_invoice_edits in Hx as (i & ? & ? & He); [| done].
    eapply edit_backed; [done.. | by apply safe_draws | owing].
  - pose proof Hx as Hd. apply mark_paid_edits in Hx as (i & ? & ? & [? Hn] & ? & He); [| done].
    pose proof He as (Hi & _). pose proof (Hg _ _ Hi) as Hgi.
    eapply edit_backed; [done.. | by eapply mark_paid_draws |].
    apply pay_owes; try done.
    destruct Hgi as [[??] _ _ _ _ ? _]. pose proof modest_i128.
    rewrite sat_id in Hn by (unfold i128_min; lia). lia.
  - apply appeal_default_edits in Hx as (i & ? & ? & He); [| done].
    eapply edit_backed; [done.. | by apply safe_draws | owing].
  - apply resolve_appeal_edits in Hx as (i & ? & ? & He); [| done].
    eapply edit_backed; [done.. | by apply safe_draws | owing].
  - apply dispute_invoice_edits in Hx as (i & ? & ? & He); [| done].
    pose proof He as (Hi & _).
    eapply edit_backed; [done.. | by apply safe_draws | by apply dispute_owes; [apply Hg |]].
  - pose proof Hx as Hd. apply resolve_dispute_edits in Hx as (i & E & Hr & ? & He); [| done].
    pose proof He as (Hi & _). pose proof (Hg _ _ Hi) as Hgi.
    pose proof (good_refunds _ _ Hgi) as (? & Hpay & _).
    eapply edit_backed; [done.. | by eapply resolve_dispute_draws |].
    destruct Hr as [-> | ->]; [| by apply reject_owes].
    specialize (Hc eq_refl _ Hi). destruct Hgi as [_ _ _ _ _ ? _].
    owing. destruct (_ <? _) eqn:Hlt; bools; lia.
  - apply auto_resolve_dispute_edits in Hx as (i & ? & He); [| done].
    pose proof He as (Hi & _).
    eapply edit_backed; [done.. | by apply safe_draws | by apply reject_owes; [apply Hg |]].
Qed.

(** Runs of prudent calls. *)
Abbreviation step :=
  (step MAX_FEE_TIERS MAX_IDENTITY_ORACLES_PER_FEED MAX_PRICE_SOURCES_PER_FEED gen_range modest).

Lemma deployed_backed w :
  deployed w → self w = me → (∀ t, 0 ≤ tok_balance (ext w) t me) → backed w.
Proof.
  intros Hd Hme Hb. split_and!; [done | | |].
  - split; [by apply deployed_wf |]. intros id i. unfold invoice_at. by rewrite Hd.
  - unfold escrow_ok, pending_at, pending_total. split; [intros; by rewrite Hd |].
    intros t. rewrite Hd. split; [done |]. intros rs _.
    induction rs as [|r rs IH]; csimpl; rewrite !Hd in *; simpl in *; lia.
  - intros t. unfold owed, free, pending_total, next_id. rewrite !Hd, Hme. simpl.
    specialize (Hb t). lia.
Qed.

Lemma environment_safe w w' : environment w w' → safe w w'.
Proof.
  intros (Hs & Hst & _ & Hb). intros Hme Ho. split_and!; [congruence | |].
  - unfold escrow_ok, pending_at, pending_total in *. by rewrite Hst.
  - intros t. unfold free, pending_total. rewrite Hst, Hs. specialize (Hb t). lia.
Qed.

Lemma run_backed w w' : backed w → rtc (step prudent) w w' → backed w'.
Proof.
  intros Hb Hr. induction Hr as [|w w1 w2 Hs _ IH]; [done |]. apply IH.
  destruct Hs as [c Ht Hp Hx | He]; [by eapply exec_backed |].
  eapply same_backed; [done | by apply environment_same | by apply environment_safe].
Qed.

(** A backed contract can always pay an escrowed payout. *)
Lemma owes_nonneg t i fs : good modest i fs → 0 ≤ owes t i fs.
Proof.
  intros Hg. pose proof (good_refunds _ _ Hg) as (? & _ & _). pose proof (good_paid _ _ _ Hg).
  unfold owes. case_bool_decide; [| done]. case_match; try done; try lia. case_match; lia.
Qed.

Lemma backed_free w t : backed w → 0 ≤ free w t.
Proof.
  intros (_ & [_ Hg] & _ & Hf). etrans; [| apply Hf]. apply zsum_nonneg, Forall_forall.
  intros z (id & -> & _)%list_elem_of_In%list_elem_of_fmap. unfold owes_at. case_match; [| done].
  by apply owes_nonneg, Hg.
Qed.

Lemma backed_covers w t r : backed w → pending_at w r t ≤ pending_total w t ≤ tok_balance (ext w) t me.
Proof.
  intros Hb. pose proof (backed_free w t Hb) as Hf. destruct Hb as (Hme & _ & [_ Ho] & _).
  unfold free in Hf. rewrite Hme in Hf. split; [| lia].
  destruct (Ho t) as [_ Hrs]. specialize (Hrs [r]). csimpl in Hrs. rewrite Z.add_0_r in Hrs.
  apply Hrs. constructor; [by apply not_elem_of_nil | constructor].
Qed.
End draws.
