(* ===== verification/SolvencyProps.v ===== *)
(** The solvency theorems of the escrow contract, and the run that shows why the
    default refund is left out of them. *)
From S2P Require Import Prelude Host Peers CoreTypes TopPayers CoreStore Access TokenSafety Nft.
From S2P Require Import OracleRegistry Pricing ConfigRs Admin Lifecycle Frames CoreSpecs Edits Queue.
From S2P Require Import Multisig System Invariants Scenario Escrow Solvency.

Section props.
Context {X : Type} `{TokenInterface X} `{Peers X} `{!TokenLaws X}.
Context (me : Address) `{!PeerLaws X me}.
Variables (MAX_FEE_TIERS MAX_IDENTITY_ORACLES_PER_FEED MAX_PRICE_SOURCES_PER_FEED : Z)
  (gen_range : Z → Z).
Abbreviation W := (world DataKey X Event).
Abbreviation exec :=
  (exec MAX_FEE_TIERS MAX_IDENTITY_ORACLES_PER_FEED MAX_PRICE_SOURCES_PER_FEED gen_range).
Abbreviation step :=
  (step MAX_FEE_TIERS MAX_IDENTITY_ORACLES_PER_FEED MAX_PRICE_SOURCES_PER_FEED gen_range modest).

(** C6: solvency.  From deployment on, through any run of calls and of outside
    activity, the contract's balance of every token covers all escrowed payouts
    and, on top, everything its open invoices owe: the discounted contributions of
    partially funded invoices and the partial payments collected on funded ones.
    The run may not use [claim_default], nor uphold a dispute on a fully funded
    invoice, and keeps rates and fees below par. *)
Theorem solvency (w0 w : W) t :
  deployed w0 → self w0 = me → (∀ t, 0 ≤ tok_balance (ext w0) t me) →
  rtc (step (prudent me)) w0 w →
  pending_total w t + owed w t ≤ tok_balance (ext w) t me.
Proof.
  intros Hd Hme Hb Hr. apply (run_backed me) in Hr as (Hme' & _ & _ & Hf).
  - specialize (Hf t). unfold free in Hf. rewrite Hme' in Hf. lia.
  - by apply deployed_backed.
Qed.

(** One step of solvency with the functional content: any prudent call on a
    backed world leaves a backed world, escrow table, invoices and balances
    included. *)
Theorem prudent_call_keeps_backed c (w w' : W) :
  backed me w → prudent me c w → typed modest c = true → exec c w = Done tt w' →
  backed me w'.
Proof. by eapply exec_backed. Qed.


Lemma claim_pending_succeeds r t (w : W) :
  backed me w → 0 < pending_at w r t → tok_authorized (ext w) t r = Some true →
  is_Some (tok_transfer (ext w) t me r (pending_at w r t)) →
  ∃ w', claim_pending r t w = Done (pending_at w r t) w'.
Proof.
  intros Hb Hpos Hauth [x Hx]. pose proof (backed_covers me w t r Hb) as [Hle Hcov].
  destruct Hb as (Hme & _ & [_ Ho] & _). destruct (Ho t) as [Hmax _].
  assert (∀ a n w1, self w1 = self w → ext w1 = ext w →
            ∃ w', set_pending r t a n w1 = Done tt w' ∧ self w' = self w ∧ ext w' = ext w) as Hset.
  { intros a n w1 Hs1 He1. unfold set_pending, mbind, M_bind. simpl.
    destruct (0 <? a), (0 <? n); eexists; (split; [reflexivity |]); done. }
  destruct (Hset 0 (pending_total w t - pending_at w r t) w eq_refl eq_refl)
    as (w1 & Hrun & Hself & Hext). clear Hset.
  eexists. unfold claim_pending.
  eapply done_bind; [reflexivity |]. change (default 0 (store w (Key.PendingPayout r t))) with (pending_at w r t).
  eapply done_bind.
  { unfold reject_if. rewrite (proj2 (Z.leb_gt _ _)) by done. reflexivity. }
  eapply done_bind.
  { unfold require_authorized. eapply done_bind; [reflexivity |]. by rewrite Hauth. }
  eapply done_bind; [reflexivity |]. 
  change (default 0 (store w (Key.PendingPayoutTotal t))) with (pending_total w t).
  rewrite sat_id by (unfold i128_min; lia).
  eapply done_bind.
  { unfold ensure_spendable. eapply done_bind; [reflexivity |]. eapply done_bind; [reflexivity |].
    unfold reject_if. rewrite Hme. rewrite (proj2 (Z.ltb_ge _ _)); [reflexivity |].
    unfold sat, i128_min. lia. }
  eapply done_bind; [exact Hrun |].
  eapply done_bind; [| reflexivity].
  unfold transfer_from_self. eapply done_bind; [reflexivity |].
  unfold invoke, ext_transfer. by rewrite Hself, Hext, Hme, Hx.
Qed.

(** The entries a claim of [r]'s payout on [t] writes. *)
Definition claim_key (r t : Address) (k : DataKey) : bool :=
  bool_decide (k = Key.PendingPayout r t) || bool_decide (k = Key.PendingPayoutTotal t)
  || bool_decide (k = Key.ReentrancyLock).

(** [n] escrowed units of [t] went from the contract to [r], and nothing else happened. *)
Record paid_out (r t : Address) (n : Z) (w w' : W) : Prop := {
  po_entry : pending_at w' r t = 0;
  po_total : pending_total w' t = pending_total w t - n;
  po_balances t' a : tok_balance (ext w') t' a = tok_balance (ext w) t' a
    - (if bool_decide (t' = t ∧ a = self w) then n else 0)
    + (if bool_decide (t' = t ∧ a = r) then n else 0);
  po_rest : touches (claim_key r t) w w';
  po_unlocked : locked w' = false;
  po_event : events w' = Ev.PendingPayoutClaimed r t n :: events w
}.

Lemma set_pending_touches r t a n (w w' : W) u :
  set_pending r t a n w = Done u w' →
  touches (claim_key r t) w w' ∧ events w' = events w.
Proof.
  intros Hx. unfold set_pending in Hx.
  minv Hx; (split; [| done]; split_and!; try done; intros k Hk; unfold claim_key in Hk;
    rewrite !orb_false_iff in Hk; destruct Hk as [[? ?] _]; bools; simpl;
    by rewrite !st_set_ne by congruence).
Qed.

Lemma claim_pays r t n (w w' : W) :
  claim_pending_payout r t w = Done n w' → 0 ≤ pending_total w t - n ≤ i128_max →
  n = pending_at w r t ∧ paid_out r t n w w'.
Proof.
  intros Hx Htot. unfold claim_pending_payout in Hx.
  apply bind_done in Hx as ([] & w1 & [Hl ->]%lock_reentrancy_done & Hx).
  apply bind_done in Hx as ([] & w1 & [_ ->]%require_not_paused_done & Hx).
  apply bind_done in Hx as ([] & w1 & [_ ->]%require_auth_done & Hx).
  apply bind_done in Hx as (m & w1 & Hc & Hx).
  apply bind_done in Hx as ([] & w2 & ->%unlock_reentrancy_done & [<- ->]%ret_done).
  unfold claim_pending in Hc.
  apply bind_done in Hc as (x & w2 & [-> ->]%pending_payout_done & Hc).
  apply bind_done in Hc as ([] & w2 & [_ ->]%reject_if_done & Hc).
  apply bind_done in Hc as ([] & w2 & [_ ->]%require_authorized_done & Hc).
  apply bind_done in Hc as (total & w2 & [-> ->]%pending_payout_total_done & Hc).
  apply bind_done in Hc as ([] & w2 & [_ ->]%ensure_spendable_done & Hc).
  apply bind_done in Hc as ([] & w2 & Hset & Hc).
  apply bind_done in Hc as ([] & w3 & Htr & Hc).
  apply bind_done in Hc as ([] & w4 & ->%publish_done & [-> ->]%ret_done).
  assert (pending_at (lock_world w) r t = pending_at w r t ∧
    pending_total (lock_world w) t = pending_total w t) as [Ep Et].
  { unfold pending_at, pending_total, lock_world. simpl. by split; sto. }
  rewrite Ep, Et in *. rewrite sat_id in Hset by (unfold i128_min; lia).
  split; [done |].
  apply set_pending_touches in Hset as Hts. destruct Hts as [[Hs1 [Hc1 Hk1]] Hev].
  apply set_pending_spec in Hset as (Hself & Hext & _ & Hp & Ht); [| done | lia].
  unfold transfer_from_self in Htr.
  apply bind_done in Htr as (y & w5 & [-> ->]%current_contract_done & Htr).
  apply invoke_done in Htr as (x' & Hx%bind_Some & ->).
  destruct Hx as (z & Hz & [= ->]). rewrite Hself, Hext in Hz.
  specialize (Hp r t). specialize (Ht t). rewrite bool_decide_eq_true_2 in Hp, Ht by done.
  split; unfold pending_at, pending_total, locked, unlock_world in *; simpl in *.
  - by sto.
  - by sto.
  - intros t' a. exact (transfer_balance _ _ _ _ _ _ t' a Hz).
  - split_and!; [done | done |]. intros k Hk. simpl. rewrite st_set_ne, Hk1; [| done |].
    + unfold claim_key in Hk. rewrite !orb_false_iff in Hk. destruct Hk as [_ ?]. bools.
      by rewrite st_set_ne by congruence.
    + intros <-. unfold claim_key in Hk. by rewrite orb_true_r in Hk.
  - by sto.
  - by rewrite Hev.
Qed.

(** C12: an escrowed payout is always claimable.  On a backed world (the run invariant of
    C6), when the contract is neither paused nor locked, the recipient signs, and the token
    authorizes it again and moves money it has, [claim_pending_payout] succeeds: it cannot
    fail for lack of funds.  It hands the recipient exactly the escrowed amount out of the
    contract's balance, clears the entry, lowers the token's total by that amount, and
    changes nothing else. *)
Theorem escrowed_payout_claimable r t (w : W) :
  backed me w → 0 < pending_at w r t → locked w = false → paused w = false →
  auth (ctx w) r = true → tok_authorized (ext w) t r = Some true →
  (∀ n, 0 ≤ n ≤ tok_balance (ext w) t me → is_Some (tok_transfer (ext w) t me r n)) →
  ∃ w', claim_pending_payout r t w = Done (pending_at w r t) w' ∧
    paid_out r t (pending_at w r t) w w' ∧ backed me w'.
Proof.
  intros Hb Hpos Hl Hp Ha Hauth Hlive.
  pose proof (backed_covers me w t r Hb) as [Hle Hcov].
  assert (pending_at (lock_world w) r t = pending_at w r t) as Hpl.
  { unfold pending_at, lock_world. simpl. by sto. }
  destruct (claim_pending_succeeds r t (lock_world w)) as [w1 Hc]; rewrite ?Hpl; try done.
  - eapply same_backed; [exact Hb | | safely].
    unfold same_invoices, invoice_at, funders_at, next_id, lock_world. simpl.
    split_and!; intros; by sto.
  - apply Hlive. lia.
  - assert (∃ w', claim_pending_payout r t w = Done (pending_at w r t) w') as [w' Hx].
    { eexists. unfold claim_pending_payout.
      eapply done_bind.
      { unfold lock_reentrancy. eapply done_bind; [reflexivity |].
        change (default false (store w Key.ReentrancyLock)) with (locked w).
        rewrite Hl. reflexivity. }
      change (with_store _ w) with (lock_world w).
      eapply done_bind.
      { unfold require_not_paused, is_paused. eapply done_bind; [reflexivity |].
        change (default false _) with (paused (lock_world w)). rewrite paused_lock, Hp. reflexivity. }
      eapply done_bind; [by unfold require_auth; simpl; rewrite Ha |].
      eapply done_bind; [exact Hc |]. rewrite Hpl. reflexivity. }
    exists w'. split; [exact Hx |]. pose proof Hb as (_ & _ & [_ Hmax] & _).
    destruct (Hmax t) as [Hm _].
    split; [apply (claim_pays _ _ _ _ _ Hx); lia |].
    destruct (claim_pays _ _ _ _ _ Hx) as [_ Hpay]; [lia |].
    eapply same_backed; [exact Hb | |].
    + destruct (po_rest _ _ _ _ _ Hpay) as (_ & _ & Hk).
      unfold same_invoices, invoice_at, funders_at, next_id.
      split_and!; intros; by rewrite Hk.
    + assert (keeps (safe me) (claim_pending_payout r t)) as K
        by (unfold claim_pending_payout; frame). by eapply K.
Qed.
End props.

Module SolvencyExamples.
Import Scenario.
Abbreviation step := (Invariants.step 10 5 8 (λ n, 0) modest (prudent escrow)).

Definition refunds_paid_out (c : Call) : bool :=
  match c with ClaimDefault _ _ | ResolveDispute _ _ _ => true | _ => false end.

Lemma prudent_plain c (w : W) :
  (max_discount w <? 10000) = true → store w Key.FeeTiers = None →
  store w Key.FeeRate = Some 0 → auth (ctx w) escrow = false → refunds_paid_out c = false →
  prudent escrow c w.
Proof.
  intros Hm Ht Hf Ha Hc. apply Z.ltb_lt in Hm. split_and!; try done; [| by destruct c].
  intros a. unfold fee_rate_at. by rewrite Ht, Hf.
Qed.

Lemma prudent_step c (w w' : W) :
  (max_discount w <? 10000) = true → store w Key.FeeTiers = None →
  store w Key.FeeRate = Some 0 → auth (ctx w) escrow = false → refunds_paid_out c = false →
  typed modest c = true → run c w = Done tt w' → step w w'.
Proof. intros. eapply step_call; [done | by apply prudent_plain | done]. Qed.

(** At deployment the fee rate is absent, not 0. *)
Lemma boot_step : step w0 w_ready.
Proof.
  eapply step_call; [| | exact ready_run]; [done |]. split_and!; try done.
Qed.

Ltac prudently H := eapply prudent_step, H; vm_compute; reflexivity.

Lemma partial_steps : rtc step w0 w_partial.
Proof.
  eapply rtc_l; [exact boot_step |]. eapply rtc_l; [prudently pending_run |].
  eapply rtc_l; [prudently partial_run | constructor].
Qed.

Lemma freeze_env l (w : W) : environment w (freeze l w).
Proof. split_and!; [reflexivity.. | intros; reflexivity]. Qed.
Lemma later_env t (w : W) :
  now (ctx w) ≤ t → environment w (with_ctx (signed_by_all t) w).
Proof. intros. split_and!; [reflexivity | reflexivity | done | intros; reflexivity]. Qed.

Lemma frozen_steps : rtc step w_partial w_thawed.
Proof.
  eapply rtc_l; [exact (step_env _ _ _ _ _ _ _ _ (freeze_env [(usdc, lp1)] w_partial)) |].
  eapply rtc_l; [prudently escrowed_run |].
  eapply rtc_l; [exact (step_env _ _ _ _ _ _ _ _ (freeze_env [] w_escrowed)) | constructor].
Qed.

Lemma late_steps : rtc step w_partial w_late.
Proof.
  eapply rtc_l; [prudently funded_run |]. eapply rtc_l; [prudently second_run |].
  eapply rtc_l; [prudently shared_run |].
  assert (now (ctx w_shared) ≤ due + day) as Hle by (apply Z.leb_le; vm_compute; reflexivity).
  eapply rtc_l; [exact (step_env _ _ _ _ _ _ _ _ (later_env _ w_shared Hle)) | constructor].
Qed.

Lemma bank_nonneg t : 0 ≤ tok_balance (ext w0) t escrow.
Proof.
  assert (map_Forall (λ _ n, 0 ≤ n) (Sac.balances bank)) as Hall
    by (apply (bool_decide_unpack _); vm_compute; exact I).
  change (0 ≤ default 0 (Sac.balances bank !! (t, escrow))).
  destruct (Sac.balances bank !! (t, escrow)) as [n |] eqn:E; simpl; [| reflexivity].
  exact (Hall _ _ E).
Qed.

Lemma backed_from_deployment w : rtc step w0 w → backed escrow w.
Proof.
  intros Hr. refine (run_backed escrow _ _ _ _ _ _ _ Hr).
  apply deployed_backed; [intros k; reflexivity | reflexivity | exact bank_nonneg].
Qed.

Lemma partial_backed : backed escrow w_partial.
Proof. apply backed_from_deployment, partial_steps. Qed.
Lemma thawed_steps : rtc step w0 w_thawed.
Proof. etrans; [exact partial_steps | exact frozen_steps]. Qed.
Lemma late_backed : backed escrow w_late.
Proof. apply backed_from_deployment. etrans; [exact partial_steps | exact late_steps]. Qed.

Lemma solvency_witness :
  pending_total w_thawed usdc = 388000000 ∧
  pending_total w_thawed usdc + owed w_thawed usdc ≤ tok_balance (ext w_thawed) usdc escrow.
Proof.
  split; [vm_compute; reflexivity |].
  apply (solvency escrow 10 5 8 (λ _, 0) w0 w_thawed usdc).
  - intros k. reflexivity.
  - reflexivity.
  - apply bank_nonneg.
  - exact thawed_steps.
Defined.

Lemma prudent_call_keeps_backed_witness :
  owed w_partial usdc = 388000000 ∧ backed escrow w_funded.
Proof.
  split; [vm_compute; reflexivity |].
  apply (prudent_call_keeps_backed escrow 10 5 8 (λ _, 0) (FundInvoice lp2 1 600000000 false)
           w_partial w_funded).
  - exact partial_backed.
  - apply prudent_plain; vm_compute; reflexivity.
  - vm_compute. reflexivity.
  - exact funded_run.
Defined.

Lemma sac_pays (x : Sac.t) t a b :
  bool_decide ((t, a) ∈ Sac.frozen x) = false → bool_decide ((t, b) ∈ Sac.frozen x) = false →
  ∀ n, 0 ≤ n ≤ tok_balance x t a → is_Some (tok_transfer x t a b n).
Proof.
  intros Ha Hb n [H0 H1]. simpl. unfold Sac.transfer. rewrite Ha, Hb.
  rewrite (proj2 (Z.ltb_ge n 0)), (proj2 (Z.ltb_ge (Sac.balance x t a) n)) by done. eauto.
Qed.

Lemma escrowed_payout_claimable_witness :
  ∃ w', claim_pending_payout lp1 usdc w_thawed = Done (pending_at w_thawed lp1 usdc) w' ∧
    paid_out lp1 usdc (pending_at w_thawed lp1 usdc) w_thawed w' ∧ backed escrow w'.
Proof.
  apply (escrowed_payout_claimable escrow lp1 usdc w_thawed).
  - apply backed_from_deployment, thawed_steps.
  - vm_compute. reflexivity.
  - vm_compute. reflexivity.
  - vm_compute. reflexivity.
  - vm_compute. reflexivity.
  - vm_compute. reflexivity.
  - apply sac_pays; vm_compute; reflexivity.
Defined.

(** The default refund is not backed.  On a world reached by prudent calls,
    [claim_default] succeeds and leaves the contract with less than it owes the
    contributors of another invoice; without such money from others in the contract
    the same call fails, because the funds went to the freelancer when the invoice
    was fully funded. *)
Theorem default_refund_drains :
  backed escrow w_late ∧ run (ClaimDefault lp1 1) w_late = Done tt w_defaulted ∧
  free w_defaulted usdc < owed w_defaulted usdc ∧
  run (ClaimDefault lp1 1) w_alone = Fault (Code Err.InsufficientContractBalance).
Proof.
  split; [exact late_backed |]. split; [exact defaulted_run |].
  split; [apply Z.ltb_lt; vm_compute; reflexivity |].
  apply run_fault. vm_compute. reflexivity.
Qed.
End SolvencyExamples.
