(* ===== verification/Guards.v ===== *)
(** Access guards of the escrow contract's entry points: who must have signed,
    what pausing stops, and the reentrancy lock. *)
From S2P Require Import Prelude Host Peers CoreTypes TopPayers CoreStore Access TokenSafety Nft.
From S2P Require Import OracleRegistry Pricing ConfigRs Admin Lifecycle Frames CoreSpecs Edits Queue.
From S2P Require Import Multisig System Scenario LifecycleProps.

Section guards.
Context {X : Type} `{TokenInterface X} `{Peers X}.
Variables (MAX_FEE_TIERS MAX_IDENTITY_ORACLES_PER_FEED MAX_PRICE_SOURCES_PER_FEED : Z)
  (gen_range : Z → Z).
Abbreviation W := (world DataKey X Event).
Abbreviation IO := (M W ContractError).
Abbreviation exec :=
  (exec MAX_FEE_TIERS MAX_IDENTITY_ORACLES_PER_FEED MAX_PRICE_SOURCES_PER_FEED gen_range).
Implicit Types (w : W).

(** * Signatures *)
Definition signed w (a : Address) : Prop := auth (ctx w) a = true.
Definition admin_signed w : Prop := ∃ a, store w Key.Admin = Some a ∧ signed w a.
Definition multisig_signed w (a : Address) : Prop :=
  signed w a ∧ ∃ c, store w Key.MultisigAdmin = Some c ∧ a ∈ ms_signers c.
Definition party_signed w (id : Z) (party : Invoice → Address → Prop) : Prop :=
  ∃ i a, invoice_at w id = Some i ∧ party i a ∧ signed w a.

(** The signature each entry point demands. *)
Definition authorized (c : Call) w : Prop :=
  match c with
  | SetAdmin _ | UpdateFeeRate _ | UpdateMaxDiscount _ | UpdateDecayParams _ _
  | SetDistributionContract _ | SetPriceOracle _ | SetMaxOracleAge _ | SetInsurancePool _
  | SetMinPayerReputation _ | SetMaxInvoiceAmount _ | SetTokenVolumeCap _ _ | AddToken _ _
  | RemoveTokenCall _ | CorrectTokenDecimals _ _ | PauseCall | UnpauseCall | Migrate
  | RehearseRollback _ | UpdateFeeTiers _ | RegisterOracle _ _ | RemoveOracle _ | RegisterTokenOracle _ _ _
  | RemoveTokenOracle _ _ | ResetOracleCircuit _ _ | AddIdentityOracle _ _
  | RemoveIdentityOracle _ _ | SetIdentityQuorum _ | InitializeMultisig _ _
  | AddPriceSource _ _ | RemovePriceSource _ _ | SetMaxPriceDeviation _ | SetTwapEnabled _ _
  | SetTwapWindow _ | RecordTwapSample _ _ _
  | ResolveAppeal _ _ | ResolveDispute _ _ _ => admin_signed w
  | UpdateConfig caller _ _ _ _ _ _ _ _ _ => signed w caller ∧ store w Key.Admin = Some caller
  | Propose a _ | SignProposal a _ | ExecuteProposal a _ | FinalizeSignerRotation a
  | CancelSignerRotation a => multisig_signed w a
  | JoinFundQueue lp _ => signed w lp
  | ClaimPendingPayout r _ => signed w r
  | SubmitInvoice f _ _ _ _ _ _ => signed w f
  | SubmitInvoicesBatch l => ∀ p, p ∈ l → signed w (p_freelancer p)
  | UpdateInvoice f id _ _ _ | ConvertInvoiceToken f id _ =>
      party_signed w id (λ i a, a = i_freelancer i ∧ a = f)
  | TransferInvoice id _ | CancelInvoice id => party_signed w id (λ i a, a = i_freelancer i)
  | FundInvoice f _ _ _ => signed w f
  | TransferLpPosition id _ => party_signed w id (λ i a, i_funder i = Some a)
  | MarkPaid id _ | AppealDefault id _ | DisputeInvoice id _ =>
      party_signed w id (λ i a, a = i_payer i)
  | ClaimDefault f id => signed w f ∧ is_funder f (funders_at w id) = true
  | Initialize _ _ _ _ | CheckOracleHealth _ _ _ | CheckOracleVerification _ _ _
  | GetVerifiedPrice _ _ | GetTwapPrice _ _
  | PayerScoreView _ | ResolveFundQueue _ | RecoverFundQueue _ | ExpireInvoice _
  | AutoResolveDispute _ => True
  end.

Lemma admin_first {A} (k : unit → IO A) a w w' :
  (require_admin ≫= k) w = Done a w' → admin_signed w.
Proof. intros (? & ? & (b & ? & ? & _)%require_admin_done & _)%bind_done. by exists b. Qed.

Lemma signer_first {A} (k : MultisigAdmin → IO A) s a w w' :
  (config ← load_config; require_signer config s ;; k config) w = Done a w' →
  multisig_signed w s.
Proof.
  intros (config & w1 & Hc & (u & w2 & Hs & _)%bind_done)%bind_done.
  unfold load_config in Hc. minv Hc. unfold require_signer in Hs. minv Hs.
  rewrite negb_false_iff in *. split; [done |]. eexists. split; [done |].
  unfold is_signer in *. by bools.
Qed.

Lemma batch_signed auths l ids w w' :
  (∀ a, a ∈ auths → signed w a) → submit_batch_loop auths l w = Done ids w' →
  ∀ p, p ∈ l → signed w (p_freelancer p).
Proof.
  revert auths ids w w'. induction l as [|p l IH]; intros auths ids w w' Hau Hx q Hq; [by inversion Hq |].
  simpl in Hx. apply bind_done in Hx as ([] & w1 & H1 & Hx).
  assert (w1 = w ∧ signed w (p_freelancer p)) as [-> Hp].
  { destruct (bool_decide _) eqn:Hd; bools.
    - minv H1. split; [done | by apply Hau].
    - unfold require_submitter in H1. by minv H1. }
  apply elem_of_cons in Hq as [-> | Hq]; [done |]. cbv zeta in Hx.
  apply bind_done in Hx as (b & w1 & ->%is_approved_token_done & Hx).
  apply bind_done in Hx as ([] & w1 & [_ ->]%reject_if_done & Hx).
  apply bind_done in Hx as ([] & w1 & (-> & _)%validate_terms_done & Hx).
  apply bind_done in Hx as (id & w1 & Hst & Hx).
  apply store_submission_spec in Hst as (_ & (_ & Hctx & _) & _).
  apply bind_done in Hx as (ids' & w2 & Hx & _).
  assert (signed w1 (p_freelancer q)) as Hq1.
  { refine (IH _ _ _ _ _ Hx q Hq). intros a Ha. unfold signed. rewrite Hctx.
    case_bool_decide; [by apply Hau |].
    apply elem_of_app in Ha as [Ha | ->%list_elem_of_singleton]; [by apply Hau | done]. }
  unfold signed in *. by rewrite Hctx in Hq1.
Qed.

(** From the edit lemma of an operation to the signature of the invoice's party. *)
Lemma party_of id i i' fs' (party : Invoice → Address → Prop) a w w' :
  edited id i i' fs' w w' → party i a → signed w a → party_signed w id party.
Proof. intros (Hi & _) Hp Hs. by exists i, a. Qed.

Lemma call_signed c w w' : wf w → exec c w = Done tt w' → authorized c w.
Proof.
  intros Hw Hx. destruct c; simpl in Hx |- *; try done;
    try (apply ignore_done in Hx as [? Hx]);
    try (by eapply admin_first).
  - unfold update_config, config_update_config in Hx.
    apply bind_done in Hx as ([] & w1 & Hr & Hx).
    assert (touches aux w w1) as (_ & Hctx & Hk) by by note_frame aux Hr.
    apply map_err_done in Hx. minv Hx. rewrite negb_false_iff in *. bools. subst.
    unfold signed. rewrite <-Hctx. rewrite <-(Hk Key.Admin eq_refl). done.
  - unfold initialize_multisig in Hx. minv Hx. by eexists.
  - unfold propose in Hx. eapply signer_first; exact Hx.
  - unfold sign in Hx. eapply signer_first; exact Hx.
  - apply bind_done in Hx as (a & w1 & Hx & _). unfold execute in Hx. eapply signer_first; exact Hx.
  - apply bind_done in Hx as (a & w1 & Hx & _). unfold finalize_rotation in Hx.
    eapply signer_first; exact Hx.
  - apply bind_done in Hx as (a & w1 & Hx & _). unfold cancel_rotation in Hx.
    eapply signer_first; exact Hx.
  - apply bind_done in Hx as ([] & w1 & [_ ->]%require_not_paused_done & Hx).
    by apply bind_done in Hx as ([] & w1 & [? _]%require_auth_done & _).
  - apply bind_done in Hx as ([] & w1 & [_ ->]%lock_reentrancy_done & Hx).
    apply bind_done in Hx as ([] & w1 & [_ ->]%require_not_paused_done & Hx).
    by apply bind_done in Hx as ([] & w1 & [? _]%require_auth_done & _).
  - apply bind_done in Hx as ([] & w1 & [_ ->]%require_not_paused_done & Hx).
    by apply bind_done in Hx as ([] & w1 & [? _]%require_auth_done & _).
  - unfold submit_invoices_batch in Hx.
    apply bind_done in Hx as ([] & w1 & [_ ->]%require_not_paused_done & Hx).
    apply bind_done in Hx as ([] & w1 & [_ ->]%reject_if_done & Hx).
    eapply batch_signed; [| exact Hx]. intros a Ha. by inversion Ha.
  - apply update_invoice_edits in Hx as (i & dec & ? & ? & ? & ? & ? & ? & ? & ? & He); [| done].
    by eapply party_of.
  - apply convert_invoice_token_edits in Hx as (i & ? & ? & ? & He); [| done].
    by eapply party_of.
  - apply transfer_invoice_edits in Hx as (i & ? & ? & He); [| done]. by eapply party_of.
  - by apply fund_invoice_edits in Hx as (i & ? & ? & ?).
  - apply transfer_lp_position_edits in Hx as (i & old & ? & ? & ? & ? & He); [| done].
    by eapply party_of.
  - apply cancel_invoice_edits in Hx as (i & ? & ? & He); [| done]. by eapply party_of.
  - apply mark_paid_edits in Hx as (i & ? & ? & ? & ? & He); [| done]. by eapply party_of.
  - apply claim_default_edits in Hx as (i & ? & ? & ? & ? & He); [| done]. done.
  - apply appeal_default_edits in Hx as (i & ? & ? & He); [| done]. by eapply party_of.
  - apply dispute_invoice_edits in Hx as (i & ? & ? & He); [| done]. by eapply party_of.
  - apply resolve_dispute_edits in Hx as (i & ? & ? & Ha & He); [| done]. done.
Qed.

(** * Pausing and the reentrancy lock *)

(** Entry points that take the reentrancy lock. *)
Definition guarded (c : Call) : bool :=
  match c with
  | FundInvoice _ _ _ _ | CancelInvoice _ | MarkPaid _ _ | ClaimDefault _ _
  | ResolveDispute _ _ _ | ClaimPendingPayout _ _ => true
  | _ => false
  end.

(** Entry points that stop while the contract is paused. *)
Definition pausable (c : Call) : bool :=
  match c with
  | SubmitInvoice _ _ _ _ _ _ _ | SubmitInvoicesBatch _ | UpdateInvoice _ _ _ _ _
  | ConvertInvoiceToken _ _ _ | TransferInvoice _ _ | FundInvoice _ _ _ _
  | TransferLpPosition _ _ | CancelInvoice _ | ExpireInvoice _ | MarkPaid _ _
  | ClaimDefault _ _ | AppealDefault _ _ | DisputeInvoice _ _ | ClaimPendingPayout _ _
  | JoinFundQueue _ _ | ResolveFundQueue _ | RecoverFundQueue _ => true
  | _ => false
  end.

Lemma bind_fault {A B} (m : IO A) (k : A → IO B) w f :
  m w = Fault f → (m ≫= k) w = Fault f.
Proof. intros Hm. unfold mbind, M_bind. by rewrite Hm. Qed.

Lemma bind_step {A B} (m : IO A) (k : A → IO B) w a w1 :
  m w = Done a w1 → (m ≫= k) w = k a w1.
Proof. intros Hm. unfold mbind, M_bind. by rewrite Hm. Qed.

Lemma lock_taken {A} (k : unit → IO A) w :
  locked w = true → (lock_reentrancy ≫= k) w = Fault (Code Err.Reentrancy).
Proof.
  intros Hl. apply bind_fault. unfold lock_reentrancy, mbind, M_bind. simpl.
  change (default false (store w Key.ReentrancyLock)) with (locked w). by rewrite Hl.
Qed.

Lemma pause_stops {A} (k : unit → IO A) w :
  paused w = true → (require_not_paused ≫= k) w = Fault (Code Err.ContractPaused).
Proof.
  intros Hp. apply bind_fault. unfold require_not_paused, is_paused, mbind, M_bind. simpl.
  change (default false (store w Key.Paused)) with (paused w). by rewrite Hp.
Qed.

Lemma lock_free {A} (k : unit → IO A) w :
  locked w = false → (lock_reentrancy ≫= k) w = k tt (lock_world w).
Proof.
  intros Hl. apply bind_step. unfold lock_reentrancy, mbind, M_bind. simpl.
  change (default false (store w Key.ReentrancyLock)) with (locked w). by rewrite Hl.
Qed.

(** A computation after which the lock is free. *)
Definition ends_unlocked {A} (m : IO A) : Prop :=
  ∀ w a w', m w = Done a w' → locked w' = false.
Lemma ends_bind {A B} (m : IO A) (k : A → IO B) :
  (∀ a, ends_unlocked (k a)) → ends_unlocked (m ≫= k).
Proof. intros Hk w b w' (a & w1 & _ & Hx)%bind_done. by eapply Hk. Qed.
Lemma ends_unlock : ends_unlocked unlock_reentrancy.
Proof. intros w a w' ->%unlock_reentrancy_done. unfold locked, unlock_world. simpl. by sto. Qed.
Lemma ends_return {A} (a : A) : ends_unlocked (unlock_reentrancy ;; mret a).
Proof. intros w b w' ([] & w1 & Hu%ends_unlock & [_ ->]%ret_done)%bind_done. done. Qed.

(** Every entry but the lock. *)
Definition not_lock (k : DataKey) : bool :=
  match k with Key.ReentrancyLock => false | _ => true end.

Lemma submit_batch_loop_frame auths l :
  keeps (touches not_lock) (submit_batch_loop auths l : IO (list Z)).
Proof.
  revert auths. induction l as [|p l IH]; intros auths; simpl; [frame |].
  unfold require_submitter, store_submission. frame.
Qed.
Hint Resolve submit_batch_loop_frame : keeps.

Lemma unguarded_frame c : guarded c = false → keeps (touches not_lock) (exec c).
Proof.
  intros Hg. destruct c; try done; simpl; unfold ignore;
    try (solve [unfold initialize; frame]);
    try (solve [open_admin; frame]);
    unfold submit_invoice, require_submitter, get_max_invoice_amount, submit_invoices_batch,
    store_submission,
    update_invoice, convert_invoice_token, registered_token_decimals, transfer_invoice,
    transfer_lp_position, get_invoice_funders, expire_invoice, appeal_default, get_appeal,
    get_pre_default_payer_score, save_appeal, resolve_appeal, dispute_invoice, get_dispute,
    save_dispute, auto_resolve_dispute, get_config; frame.
Qed.

Lemma ends_ignore {A} (m : IO A) : ends_unlocked m → ends_unlocked (ignore m).
Proof. intros Hm w [] w' [a Hx]%ignore_done. by eapply Hm. Qed.

Lemma guarded_ends c : guarded c = true → ends_unlocked (exec c).
Proof.
  intros Hg. destruct c; try done; simpl; try apply ends_ignore;
    repeat first [ apply ends_unlock | apply ends_return | apply ends_bind; intros ?
                 | match goal with p : (_ * _)%type |- _ => destruct p end ].
Qed.

(** The invoice calls that do not look at the pause flag. *)
Definition settles_case (c : Call) : bool :=
  match c with ResolveAppeal _ _ | ResolveDispute _ _ _ | AutoResolveDispute _ => true | _ => false end.

Lemma paused_fails c w :
  paused w = true → pausable c = true →
  exec c w = Fault (Code (if guarded c && locked w then Err.Reentrancy else Err.ContractPaused)).
Proof.
  intros Hp Hc. destruct (locked w) eqn:Hl; destruct c; try done; simpl; unfold ignore;
    first [ by apply lock_taken | by apply bind_fault, lock_taken
          | by apply pause_stops | by apply bind_fault, pause_stops
          | etrans; [by apply lock_free | apply pause_stops; by rewrite paused_lock]
          | apply bind_fault; etrans;
            [by apply lock_free | apply pause_stops; by rewrite paused_lock] ].
Qed.

(** * Properties *)

(** C13: authorization.  Every call that succeeds was signed by the party it
    demands: the admin for configuration, appeals and disputes, a current multisig
    signer for proposals, the invoice's freelancer for its terms, transfer and
    cancellation, its payer for payment, dispute and appeal, its LP for a position
    transfer, a listed contributor for a default claim, and every freelancer of a
    batch.  Only re-initialization, expiry, the automatic dispute resolution, queue
    resolution and recovery, and score or oracle observations are open to anyone. *)
Theorem call_authorized c w w' : wf w → exec c w = Done tt w' → authorized c w.
Proof. apply call_signed. Qed.

(** C14: pausing.  While the contract is paused, each of the seventeen invoice, queue and
    payout entry points that look at the flag ([pausable]) fails with
    [ContractPaused], or with [Reentrancy] where the lock is taken first and held; and no call that succeeds changes, adds or removes
    an invoice or a contributor list, with three exceptions: [resolve_appeal],
    [resolve_dispute] and [auto_resolve_dispute] do not look at the flag. *)
Theorem paused_freezes_invoices c w :
  paused w = true →
  (pausable c = true → exec c w = Fault (Code
    (if guarded c && locked w then Err.Reentrancy else Err.ContractPaused))) ∧
  ∀ w', exec c w = Done tt w' → same_invoices w w' ∨ settles_case c = true.
Proof.
  intros Hp. pose proof (paused_fails c w Hp) as Hs. split; [exact Hs |]. intros w' Hx.
  destruct (administrative c) eqn:Ha; [left; by eapply administrative_same |].
  destruct (settles_case c) eqn:Hr; [by right |].
  assert (exec c w = Fault (Code (if guarded c && locked w then Err.Reentrancy
    else Err.ContractPaused))) by (apply Hs; by destruct c). congruence.
Qed.

(** The reentrancy lock.  While it is held, every entry point that moves tokens
    fails with [Reentrancy]; and any call that succeeds leaves the lock as free as it
    found it, so no run can end locked. *)
Theorem reentrancy_lock c w :
  (locked w = true → guarded c = true → exec c w = Fault (Code Err.Reentrancy)) ∧
  (∀ w', exec c w = Done tt w' → locked w = false → locked w' = false).
Proof.
  split.
  - intros Hl Hg. destruct c; try done; simpl; unfold ignore;
      first [by apply lock_taken | by apply bind_fault, lock_taken].
  - intros w' Hx Hl. destruct (guarded c) eqn:Hg.
    + by eapply guarded_ends.
    + apply unguarded_frame in Hx as (_ & _ & Hk); [| done].
      unfold locked. by rewrite Hk.
Qed.
End guards.

Module GuardsWitness.
Import Scenario.

Lemma call_authorized_witness :
  auth (ctx w_half_paid) payer = true ∧ authorized (MarkPaid 1 500000000) w_half_paid.
Proof.
  split; [vm_compute; reflexivity |].
  apply (call_authorized 10 5 8 (λ _, 0) (MarkPaid 1 500000000) w_half_paid w_paid).
  - exact LifecycleWitness.half_paid_wf.
  - exact paid_run.
Defined.

Definition w_paused : W := commit (run PauseCall) w_funded.
(** Disputed while [lp1]'s 388 USDC are held. *)
Definition w_disputed_partial : W := commit (run (DisputeInvoice 1 7%N)) w_partial.
Lemma paused_freezes_invoices_witness :
  run (MarkPaid 1 500000000) w_paused = Fault (Code
    (if guarded (MarkPaid 1 500000000) && locked w_paused then Err.Reentrancy
     else Err.ContractPaused)) ∧ locked w_paused = false ∧
  (∀ w', run (ExpireInvoice 1) w_paused = Done tt w' →
    same_invoices w_paused w' ∨ settles_case (ExpireInvoice 1) = true).
Proof.
  assert (paused w_paused = true) as Hp by (vm_compute; reflexivity).
  split; [| split; [vm_compute; reflexivity |]].
  - apply (paused_freezes_invoices 10 5 8 (λ _, 0) (MarkPaid 1 500000000) w_paused Hp).
    reflexivity.
  - apply (paused_freezes_invoices 10 5 8 (λ _, 0) (ExpireInvoice 1) w_paused Hp).
Defined.

(** The exceptions are real: with the contract paused, upholding a dispute cancels the
    invoice and pays the contributors back. *)
Definition w_paused_dispute : W := commit (run PauseCall) w_disputed_partial.
Definition w_upheld : W := commit (run (ResolveDispute 1 7%N 1)) w_paused_dispute.
Theorem pause_spares_disputes :
  paused w_paused_dispute = true ∧
  run (ResolveDispute 1 7%N 1) w_paused_dispute = Done tt w_upheld ∧
  i_status <$> invoice_at w_upheld 1 = Some Status.Cancelled ∧
  tok_balance (ext w_upheld) usdc escrow = 0 ∧
  tok_balance (ext w_paused_dispute) usdc escrow = 388000000.
Proof.
  split; [vm_compute; reflexivity |]. split; [committed |].
  split; [vm_compute; reflexivity |]. split; vm_compute; reflexivity.
Qed.

Lemma reentrancy_lock_witness :
  run (MarkPaid 1 500000000) (lock_world w_half_paid) = Fault (Code Err.Reentrancy) ∧
  locked w_paid = false.
Proof.
  split.
  - apply (reentrancy_lock 10 5 8 (λ _, 0) (MarkPaid 1 500000000) (lock_world w_half_paid));
      vm_compute; reflexivity.
  - apply (proj2 (reentrancy_lock 10 5 8 (λ _, 0) (MarkPaid 1 500000000) w_half_paid) w_paid).
    + exact paid_run.
    + vm_compute. reflexivity.
Defined.
End GuardsWitness.
