(* ===== verification/Footprint.v ===== *)
(** Footprints of whole calls: which families of ledger entries a call of the
    escrow contract cannot write.  The run invariants of the queue, the multisig
    and the NFT are built on them. *)
From S2P Require Import Prelude Host Peers CoreTypes TopPayers CoreStore Access TokenSafety Nft.
From S2P Require Import OracleRegistry Pricing ConfigRs Admin Lifecycle Queue Multisig Frames CoreSpecs.
From S2P Require Import Edits System Invariants.

(** ** Families of entries *)
Definition queue_key (k : DataKey) : bool :=
  match k with
  | Key.FundQueue _ | Key.FundQueueOpenedAt _ | Key.QueueResolution _
  | Key.QueueResolvedAt _ => true
  | _ => false
  end.
Definition multisig_key (k : DataKey) : bool :=
  match k with
  | Key.MultisigAdmin | Key.NextProposalId | Key.MultisigProposal _
  | Key.PendingActionProposal _ | Key.PendingSignerRotation => true
  | _ => false
  end.
Definition outside_queue (k : DataKey) : bool := negb (queue_key k).
Definition outside_multisig (k : DataKey) : bool := negb (multisig_key k).

(** ** Calls that write them *)
Definition queue_call (c : Call) : bool :=
  match c with JoinFundQueue _ _ | ResolveFundQueue _ | RecoverFundQueue _ => true | _ => false end.
Definition multisig_call (c : Call) : bool :=
  match c with
  | InitializeMultisig _ _ | Propose _ _ | SignProposal _ _ | ExecuteProposal _ _
  | FinalizeSignerRotation _ | CancelSignerRotation _ => true
  | _ => false
  end.

(** [open_lifecycle]: the bodies of the calls on invoices, down to the helpers with
    a known footprint. *)
Ltac open_lifecycle :=
  unfold submit_invoice, require_submitter, get_max_invoice_amount, submit_invoices_batch,
    store_submission, update_invoice, convert_invoice_token, registered_token_decimals,
    transfer_invoice, transfer_lp_position, get_invoice_funders, expire_invoice, appeal_default,
    get_appeal, get_pre_default_payer_score, save_appeal, resolve_appeal, dispute_invoice,
    get_dispute, save_dispute, auto_resolve_dispute, get_config, fund_invoice, fund_collect,
    fund_apply, get_lp_score, fund_finish, cancel_invoice, mark_paid, settle_in_full,
    effective_fee_rate, claim_default, require_lp, save_pre_default_payer_score,
    resolve_dispute, uphold_dispute, claim_pending_payout.

(** [call_frame]: the footprint of one entry point. *)
Ltac call_frame :=
  simpl; unfold ignore;
  first [ solve [unfold initialize; frame]
        | solve [open_admin; frame]
        | solve [open_lifecycle; frame] ].

Section footprint.
Context {X : Type} `{TokenInterface X} `{Peers X}.
Variables (MAX_FEE_TIERS MAX_IDENTITY_ORACLES_PER_FEED MAX_PRICE_SOURCES_PER_FEED : Z)
  (gen_range : Z → Z).
Abbreviation W := (world DataKey X Event).
Abbreviation IO := (M W ContractError).
Abbreviation exec :=
  (exec MAX_FEE_TIERS MAX_IDENTITY_ORACLES_PER_FEED MAX_PRICE_SOURCES_PER_FEED gen_range).

Lemma batch_outside_queue auths l :
  keeps (touches outside_queue) (submit_batch_loop auths l : IO (list Z)).
Proof.
  revert auths. induction l as [|p l IH]; intros auths; simpl; [frame |].
  unfold require_submitter, store_submission. frame.
Qed.
Lemma batch_outside_multisig auths l :
  keeps (touches outside_multisig) (submit_batch_loop auths l : IO (list Z)).
Proof.
  revert auths. induction l as [|p l IH]; intros auths; simpl; [frame |].
  unfold require_submitter, store_submission. frame.
Qed.
Hint Resolve batch_outside_queue batch_outside_multisig : keeps.

Lemma queue_frame c : queue_call c = false → keeps (touches outside_queue) (exec c).
Proof. intros Hc. destruct c; try done; call_frame. Qed.

Lemma multisig_frame c : multisig_call c = false → keeps (touches outside_multisig) (exec c).
Proof. intros Hc. destruct c; try done; call_frame. Qed.
End footprint.
