(* ===== verification/Heap.v ===== *)
(** Correctness of the leaderboard heap of [TopPayers]: the two sift loops
    terminate and restore the heap order, so a score change keeps the heap a
    bounded min-heap of distinct payers that holds the best scores. *)
From S2P Require Import Prelude Host CoreTypes TopPayers.
From stdpp Require Import list sorting.
Open Scope Z_scope.

#[export] Instance TopPayerEntry_inhabited : Inhabited TopPayerEntry :=
  populate (mkTopPayerEntry 0%N 0).

(** * Indices as naturals *)
Definition parent (i : nat) : nat := ((i - 1) / 2)%nat.
#[global] Arguments parent : simpl never.

Definition sc (h : list TopPayerEntry) (i : nat) : Z := tp_score (h !!! i).
Definition swap (h : list TopPayerEntry) (i j : nat) : list TopPayerEntry :=
  <[j := h !!! i]> (<[i := h !!! j]> h).

(** Every entry but [skip] is at least its parent. *)
Definition ordered_but (skip : nat → Prop) (h : list TopPayerEntry) : Prop :=
  ∀ c, (0 < c < length h)%nat → ¬ skip c → sc h (parent c) ≤ sc h c.
Definition heap_ordered (h : list TopPayerEntry) : Prop := ordered_but (λ _, False) h.

Definition small (h : list TopPayerEntry) : Prop := (length h ≤ 1000)%nat.

Lemma vget_nat {A} (h : list A) i : vget h (Z.of_nat i) = h !! i.
Proof. unfold vget. destruct (Z.of_nat i <? 0) eqn:E; bools; [lia |]. by rewrite Nat2Z.id. Qed.
Lemma vget_total `{Inhabited A} (h : list A) i :
  (i < length h)%nat → vget h (Z.of_nat i) = Some (h !!! i).
Proof. intros Hi. rewrite vget_nat. by apply list_lookup_lookup_total_lt. Qed.
Lemma vset_nat {A} (h : list A) i v :
  (i < length h)%nat → vset h (Z.of_nat i) v = Some (<[i := v]> h).
Proof.
  intros Hi. unfold vset, vlen. rewrite Nat2Z.id.
  rewrite (proj2 (Z.leb_le _ _)), (proj2 (Z.ltb_lt _ _)) by lia. done.
Qed.

Lemma parent_nat i :
  (0 < i ≤ 1000)%nat → parent_index (Z.of_nat i) = Z.of_nat (parent i).
Proof.
  intros Hi. unfold parent_index, parent. rewrite sat_id by (unfold u32_max; lia).
  rewrite Z.quot_div_nonneg by lia. rewrite Nat2Z.inj_div. f_equal. lia.
Qed.
Lemma left_nat i : (i ≤ 1000)%nat → left_child (Z.of_nat i) = Z.of_nat (2 * i + 1).
Proof. intros Hi. unfold left_child, sat, u32_max. lia. Qed.
Lemma right_nat i : (i ≤ 1000)%nat → right_child (Z.of_nat i) = Z.of_nat (2 * i + 2).
Proof. intros Hi. unfold right_child, sat, u32_max. lia. Qed.

Lemma parent_lt i : (0 < i)%nat → (parent i < i)%nat.
Proof. intros Hi. unfold parent. apply Nat.Div0.div_lt_upper_bound. lia. Qed.
Lemma parent_children c i : (0 < c)%nat → parent c = i → (c = 2 * i + 1 ∨ c = 2 * i + 2)%nat.
Proof.
  unfold parent. intros Hc Hp. pose proof (Nat.div_mod_eq (c - 1) 2). pose proof (Nat.mod_upper_bound (c - 1) 2).
  lia.
Qed.
Lemma parent_left i : parent (2 * i + 1) = i.
Proof. unfold parent. replace (2 * i + 1 - 1)%nat with (i * 2)%nat by lia. by apply Nat.div_mul. Qed.
Lemma parent_right i : parent (2 * i + 2) = i.
Proof.
  unfold parent. replace (2 * i + 2 - 1)%nat with (1 + i * 2)%nat by lia.
  rewrite Nat.div_add by done. done.
Qed.

(** * Swapping *)
Lemma swap_length h i j : length (swap h i j) = length h.
Proof. unfold swap. by rewrite !length_insert. Qed.

Lemma sc_insert h i e k :
  (i < length h)%nat → sc (<[i := e]> h) k = if decide (k = i) then tp_score e else sc h k.
Proof.
  intros Hi. unfold sc. rewrite list_lookup_total_insert. repeat case_decide; naive_solver.
Qed.

Lemma sc_swap h i j k :
  (i < length h)%nat → (j < length h)%nat →
  sc (swap h i j) k = sc h (if decide (k = j) then i else if decide (k = i) then j else k).
Proof.
  intros Hi Hj. unfold swap. rewrite !sc_insert by (by rewrite ?length_insert).
  by repeat case_decide.
Qed.

Lemma swap_perm h i j : (i < length h)%nat → (j < length h)%nat → swap h i j ≡ₚ h.
Proof.
  intros Hi Hj. apply Permutation_insert_swap; by apply list_lookup_lookup_total_lt.
Qed.

(** [heap_lia]: case analysis on the swapped indices, then arithmetic. *)
Ltac heap_lia := repeat case_decide; subst; try lia.

(** * The loops *)

(** Moving up from [i]: only [i] may be below its parent, and its children are
    already above its parent. *)
Definition up_ready (h : list TopPayerEntry) (i : nat) : Prop :=
  ordered_but (eq i) h ∧
  ∀ c, (0 < c < length h)%nat → (0 < i)%nat → parent c = i → sc h (parent i) ≤ sc h c.

Lemma up_ready_swap h i :
  small h → (0 < i < length h)%nat → up_ready h i → sc h i < sc h (parent i) →
  up_ready (swap h i (parent i)) (parent i).
Proof.
  intros Hs Hi [H1 H2] Hlt. pose proof (parent_lt i ltac:(lia)) as Hp.
  split.
  - intros c Hc Hne. rewrite swap_length in Hc. rewrite !sc_swap by lia.
    pose proof (parent_lt c ltac:(lia)). specialize (H1 c Hc). specialize (H2 c Hc).
    heap_lia. specialize (H1 ltac:(congruence)).
    replace (parent c) with (parent i) in H1 by done. lia.
  - intros c Hc Hp0 Hcp. rewrite swap_length in Hc. rewrite !sc_swap by lia.
    pose proof (parent_lt (parent i) ltac:(lia)). pose proof (parent_lt c ltac:(lia)).
    pose proof (H1 (parent i) ltac:(lia) ltac:(lia)).
    heap_lia. specialize (H1 c Hc ltac:(congruence)). rewrite Hcp in H1. lia.
Qed.

Lemma up_ready_ordered h i :
  up_ready h i → i = 0%nat ∨ sc h (parent i) ≤ sc h i → heap_ordered h.
Proof.
  intros [H1 _] Hi c Hc _. destruct (decide (i = c)) as [-> | Hne].
  - destruct Hi; [lia | done].
  - by apply H1.
Qed.

Lemma sift_up_total fuel h i :
  small h → (i < length h)%nat → (i < fuel)%nat → up_ready h i →
  ∃ h', sift_up fuel h (Z.of_nat i) = Some h' ∧ h' ≡ₚ h ∧ heap_ordered h'.
Proof.
  revert h i. induction fuel as [|fuel IH]; intros h i Hs Hi Hf Hu; [lia |]. simpl.
  destruct (0 <? Z.of_nat i) eqn:E0; bools.
  2: { exists h. split_and!; [done..|]. eapply up_ready_ordered; [done |]. lia. }
  pose proof (parent_lt i ltac:(lia)) as Hp. unfold small in Hs.
  rewrite parent_nat, !vget_total by lia. simpl. unfold entry_score.
  change (tp_score (h !!! ?k)) with (sc h k).
  destruct (sc h (parent i) <=? sc h i) eqn:E; bools.
  - exists h. split_and!; [done..|]. eapply up_ready_ordered; eauto.
  - rewrite vset_nat by lia. simpl. rewrite vset_nat by (rewrite length_insert; lia). simpl.
    rewrite list_insert_insert_ne by lia. fold (swap h i (parent i)).
    destruct (IH (swap h i (parent i)) (parent i)) as (h' & Hr & Hperm & Ho).
    + unfold small. by rewrite swap_length.
    + rewrite swap_length. lia.
    + lia.
    + apply up_ready_swap; [done | lia | done | done].
    + exists h'. split_and!; [done | | done]. by rewrite Hperm, swap_perm by lia.
Qed.

(** Moving down from [i]: only [i]'s children may be below it, and they are
    above its parent. *)
Definition down_ready (h : list TopPayerEntry) (i : nat) : Prop :=
  ordered_but (λ c, parent c = i) h ∧
  ∀ c, (0 < c < length h)%nat → (0 < i)%nat → parent c = i → sc h (parent i) ≤ sc h c.

(** [s] is the least of [i] and its children. *)
Definition least_child (h : list TopPayerEntry) (i s : nat) : Prop :=
  (s < length h)%nat ∧ (s = i ∨ (0 < s)%nat ∧ parent s = i ∧ sc h s < sc h i) ∧
  ∀ c, (0 < c < length h)%nat → parent c = i → sc h s ≤ sc h c.

Lemma pick_smaller_nat h s c :
  small h → (s < length h)%nat →
  pick_smaller h (Z.of_nat s) (Z.of_nat c) =
    Some (Z.of_nat (if decide ((c < length h)%nat ∧ sc h c < sc h s) then c else s)).
Proof.
  intros Hsm Hs. unfold pick_smaller, vlen.
  destruct (Z.of_nat c <? Z.of_nat (length h)) eqn:E; bools.
  - rewrite !vget_total by lia. simpl. unfold entry_score.
    change (tp_score (h !!! ?k)) with (sc h k).
    destruct (sc h c <? sc h s) eqn:E2; bools; case_decide; try done; lia.
  - case_decide; [lia | done].
Qed.

Lemma pick_children h i :
  small h → (i < length h)%nat →
  ∃ s, least_child h i s ∧
    (pick_smaller h (Z.of_nat i) (left_child (Z.of_nat i)) ≫= λ s,
       pick_smaller h s (right_child (Z.of_nat i))) = Some (Z.of_nat s).
Proof.
  intros Hs Hi. rewrite left_nat, right_nat by (unfold small in Hs; lia).
  rewrite pick_smaller_nat by done. cbn [mbind option_bind].
  rewrite pick_smaller_nat by (try done; case_decide; naive_solver).
  eexists. split; [| done].
  assert (∀ c, (0 < c)%nat → parent c = i → c = 2 * i + 1 ∨ c = 2 * i + 2)%nat as Hch
    by (intros; by apply parent_children).
  pose proof (parent_left i). pose proof (parent_right i).
  unfold least_child.
  split_and!.
  - repeat case_decide; naive_solver.
  - repeat case_decide; destruct_and?; first [by left | right; split_and!; first [done | lia]].
  - intros c Hc Hcp. destruct (Hch c ltac:(lia) Hcp) as [-> | ->];
      repeat case_decide; destruct_and?; lia.
Qed.

Lemma down_ready_swap h i s :
  small h → (i < length h)%nat → down_ready h i → least_child h i s → s ≠ i →
  down_ready (swap h i s) s.
Proof.
  intros Hsm Hi [H1 H2] (Hs & [-> | (Hs0 & Hp & Hlt)] & Hmin) Hne; [done |].
  pose proof (parent_lt s ltac:(lia)) as His. split.
  - intros c Hc Hcp. rewrite swap_length in Hc. rewrite !sc_swap by lia.
    pose proof (parent_lt c ltac:(lia)). specialize (H1 c Hc).
    specialize (H2 s (conj Hs0 Hs)).
    specialize (Hmin c Hc). heap_lia.
  - intros c Hc _ Hcp. rewrite swap_length in Hc. rewrite !sc_swap by lia.
    pose proof (parent_lt c ltac:(lia)). specialize (H1 c Hc ltac:(simpl; lia)). rewrite Hcp in H1.
    heap_lia.
Qed.

Lemma down_ready_ordered h i :
  down_ready h i → least_child h i i → heap_ordered h.
Proof.
  intros [H1 _] (_ & _ & Hmin) c Hc _. destruct (decide (parent c = i)) as [<- | Hne].
  - by apply Hmin.
  - by apply H1.
Qed.

Lemma sift_down_total fuel h i :
  small h → (i < length h)%nat → (length h - i < fuel)%nat → down_ready h i →
  ∃ h', sift_down fuel h (Z.of_nat i) = Some h' ∧ h' ≡ₚ h ∧ heap_ordered h'.
Proof.
  revert h i. induction fuel as [|fuel IH]; intros h i Hs Hi Hf Hd; [lia |].
  destruct (pick_children h i Hs Hi) as (s & Hleast & Hpick). cbn [sift_down].
  destruct (pick_smaller h (Z.of_nat i) (left_child (Z.of_nat i))) as [s1 |]; [| done].
  simpl in Hpick |- *. rewrite Hpick. simpl.
  destruct (Z.of_nat s =? Z.of_nat i) eqn:E; bools.
  - exists h. split_and!; [done..|]. apply Nat2Z.inj in E as ->. by eapply down_ready_ordered.
  - assert (s ≠ i) as Hne by lia. pose proof Hleast as (Hsl & Hor & _).
    rewrite !vget_total by lia. simpl. rewrite vset_nat by lia. simpl.
    rewrite vset_nat by (rewrite length_insert; lia). simpl. fold (swap h i s).
    assert (i < s)%nat by (destruct Hor as [? | (? & <- & _)]; [done | by apply parent_lt]).
    destruct (IH (swap h i s) s) as (h' & Hr & Hperm & Ho).
    + unfold small. by rewrite swap_length.
    + by rewrite swap_length.
    + rewrite swap_length. lia.
    + by apply down_ready_swap.
    + exists h'. split_and!; [done | | done]. by rewrite Hperm, swap_perm by lia.
Qed.

(** * Replacing one entry *)
Lemma heap_ordered_at h c :
  heap_ordered h → (0 < c < length h)%nat → sc h (parent c) ≤ sc h c.
Proof. intros Ho Hc. exact (Ho c Hc (λ x, x)). Qed.

Lemma replaced_up h g i :
  heap_ordered h → (i < length g ≤ length h)%nat → (0 < i)%nat →
  (∀ k, (k < length g)%nat → k ≠ i → sc g k = sc h k) →
  sc g i < sc g (parent i) → up_ready g i.
Proof.
  intros Ho Hi Hi0 Hsame Hlt. pose proof (parent_lt i Hi0).
  rewrite (Hsame (parent i)) in Hlt by lia.
  assert (∀ c, (0 < c < length g)%nat → sc h (parent c) ≤ sc h c) as Hh
    by (intros c Hc; apply heap_ordered_at; [done | lia]).
  split.
  - intros c Hc Hne. pose proof (parent_lt c ltac:(lia)). specialize (Hh c Hc) as Hhc.
    rewrite (Hsame c) by lia. destruct (decide (parent c = i)) as [Hp | Hp].
    + specialize (Hh i ltac:(lia)). rewrite Hp in Hhc |- *. lia.
    + rewrite Hsame by lia. done.
  - intros c Hc _ Hp. pose proof (parent_lt c ltac:(lia)). specialize (Hh c Hc) as Hhc.
    specialize (Hh i ltac:(lia)). rewrite !Hsame by lia. rewrite Hp in Hhc. lia.
Qed.

Lemma replaced_down h g i :
  heap_ordered h → (i < length g ≤ length h)%nat →
  (∀ k, (k < length g)%nat → k ≠ i → sc g k = sc h k) →
  i = 0%nat ∨ sc g (parent i) ≤ sc g i → down_ready g i.
Proof.
  intros Ho Hi Hsame Hor.
  assert (∀ c, (0 < c < length g)%nat → sc h (parent c) ≤ sc h c) as Hh
    by (intros c Hc; apply heap_ordered_at; [done | lia]).
  split.
  - intros c Hc Hne. pose proof (parent_lt c ltac:(lia)). destruct (decide (c = i)) as [-> |].
    + destruct Hor; [lia | done].
    + rewrite !Hsame by lia. by apply Hh.
  - intros c Hc Hi0 Hp. pose proof (parent_lt c ltac:(lia)). pose proof (parent_lt i Hi0).
    pose proof (Hh c Hc) as Hhc. pose proof (Hh i ltac:(lia)). rewrite !Hsame by lia.
    rewrite Hp in Hhc. lia.
Qed.

Lemma heap_ordered_prefix h n : heap_ordered h → heap_ordered (take n h).
Proof.
  intros Ho c Hc _. rewrite length_take in Hc. pose proof (parent_lt c ltac:(lia)).
  unfold sc. rewrite !lookup_total_take_lt by lia. apply heap_ordered_at; [done | lia].
Qed.

(** The root is the least entry. *)
Lemma heap_root_least h i : heap_ordered h → (i < length h)%nat → sc h 0 ≤ sc h i.
Proof.
  intros Ho. induction (lt_wf i) as [i _ IH]. intros Hi.
  destruct (decide (i = 0%nat)) as [-> | Hi0]; [done |].
  pose proof (parent_lt i ltac:(lia)). etrans; [apply (IH (parent i)); lia |].
  apply heap_ordered_at; [done | lia].
Qed.

(** * Removal and insertion *)
Lemma find_payer_spec h p k :
  match find_payer h p k with
  | None => p ∉ tp_address <$> h
  | Some j => ∃ pre e post, h = pre ++ e :: post ∧ j = k + vlen pre ∧ tp_address e = p
  end.
Proof.
  revert k. induction h as [|e h IH]; intros k; simpl; [apply not_elem_of_nil |].
  case_bool_decide as He.
  - exists [], e, h. split_and!; [done | unfold vlen; simpl; lia | done].
  - specialize (IH (k + 1)). destruct (find_payer h p (k + 1)) as [j |].
    + destruct IH as (pre & e' & post & -> & -> & ?). exists (e :: pre), e', post.
      split_and!; [done | unfold vlen; simpl; lia | done].
    + rewrite not_elem_of_cons. split; [by intros -> | done].
Qed.

Definition without (p : Address) (h : list TopPayerEntry) : list TopPayerEntry :=
  filter (λ e, tp_address e ≠ p) h.

Lemma without_absent p h : p ∉ tp_address <$> h → without p h = h.
Proof.
  unfold without. induction h as [|e h IH]; [done |].
  rewrite fmap_cons, not_elem_of_cons. intros [He Hh].
  rewrite filter_cons_True by congruence. by rewrite IH.
Qed.

Lemma without_middle p pre e post :
  NoDup (tp_address <$> pre ++ e :: post) → tp_address e = p →
  without p (pre ++ e :: post) = pre ++ post.
Proof.
  rewrite fmap_app, fmap_cons. intros (_ & Hd & [He _]%NoDup_cons)%list.NoDup_app <-.
  unfold without. rewrite filter_app, filter_cons_False by naive_solver.
  fold (without (tp_address e) pre) (without (tp_address e) post).
  rewrite !without_absent; [done | done |]. intros Hin. apply (Hd _ Hin). by left.
Qed.

Lemma vset_middle {A} (pre : list A) e post l :
  vset (pre ++ e :: post) (vlen pre) l = Some (pre ++ l :: post).
Proof.
  unfold vlen. rewrite vset_nat by (rewrite length_app; simpl; lia).
  rewrite insert_app_r_alt by done. by rewrite Nat.sub_diag.
Qed.

Lemma middle_lookup pre e post l l' k :
  (k < length (pre ++ l :: post))%nat → k ≠ length pre →
  (pre ++ l :: post) !!! k = (pre ++ e :: post ++ [l' : TopPayerEntry]) !!! k.
Proof.
  intros Hk Hne. rewrite length_app in Hk. simpl in Hk.
  rewrite app_comm_cons, app_assoc, (lookup_total_app_l (pre ++ e :: post))
    by (rewrite length_app; simpl; lia).
  assert (pre ++ l :: post = <[length pre := l]> (pre ++ e :: post)) as ->
    by (by rewrite insert_app_r_alt, Nat.sub_diag).
  by rewrite list_lookup_total_insert_ne.
Qed.

Lemma pop_back_snoc {A} (h : list A) e : pop_back (h ++ [e]) = h.
Proof.
  unfold pop_back. rewrite length_app. simpl. rewrite Nat.add_sub, take_app_length. done.
Qed.

Definition heap_ok (h : list TopPayerEntry) : Prop :=
  heap_ordered h ∧ NoDup (tp_address <$> h) ∧ vlen h ≤ TOP_PAYERS_CAPACITY.

Lemma heap_ok_small h : heap_ok h → small h.
Proof. intros (_ & _ & Hl). unfold vlen, TOP_PAYERS_CAPACITY in Hl. unfold small. lia. Qed.

(** Settling a replaced entry at [i], the way [remove_payer_from_heap] ends. *)
Lemma settle_at h g i :
  heap_ordered h → small g → (i < length g ≤ length h)%nat →
  (∀ k, (k < length g)%nat → k ≠ i → sc g k = sc h k) →
  ∃ g', (moved_up ← (if 0 <? Z.of_nat i then
                       parent_entry ← vget g (parent_index (Z.of_nat i));
                       Some (entry_score (g !!! i) <? entry_score parent_entry)
                     else Some false);
         if (moved_up : bool) then sift_up (S (length g)) g (Z.of_nat i)
         else sift_down (S (length g)) g (Z.of_nat i)) = Some g' ∧ g' ≡ₚ g ∧ heap_ordered g'.
Proof.
  intros Ho Hs Hi Hsame. destruct (0 <? Z.of_nat i) eqn:E0; bools.
  - pose proof (parent_lt i ltac:(lia)). unfold small in Hs.
    rewrite parent_nat, vget_total by lia. cbn [mbind option_bind]. unfold entry_score.
    change (tp_score (g !!! ?k)) with (sc g k).
    destruct (sc g i <? sc g (parent i)) eqn:E; bools.
    + apply sift_up_total; [done | lia | lia |]. apply (replaced_up h); [done | lia | lia | done | done].
    + apply sift_down_total; [done | lia | lia |]. apply (replaced_down h); [done | lia | done | by right].
  - apply sift_down_total; [done | lia | lia |].
    apply (replaced_down h); [done | lia | done | left; lia].
Qed.

Lemma remove_payer_spec h p :
  heap_ok h →
  ∃ h', remove_payer_from_heap h p = Some h' ∧ h' ≡ₚ without p h ∧ heap_ordered h'.
Proof.
  intros Hok. pose proof (heap_ok_small _ Hok) as Hs. destruct Hok as (Ho & Hn & _).
  unfold remove_payer_from_heap. pose proof (find_payer_spec h p 0) as Hf.
  destruct (find_payer h p 0) as [j |].
  2: { exists h. by rewrite without_absent. }
  destruct Hf as (pre & e & post & -> & -> & He). rewrite without_middle by done.
  rewrite Z.add_0_l. destruct post as [|l post' _] using rev_ind.
  - assert (sat_u32 (vlen (pre ++ [e]) - 1) = vlen pre) as ->.
    { rewrite sat_id; unfold vlen, u32_max; rewrite length_app; simpl;
        [lia | unfold small in Hs; rewrite length_app in Hs; simpl in Hs; lia]. }
    rewrite Z.eqb_refl. cbn [mbind option_bind]. rewrite pop_back_snoc, Z.ltb_irrefl, app_nil_r.
    exists pre. split_and!; [done..|]. rewrite <- (take_app_length pre [e]).
    by apply heap_ordered_prefix.
  - set (n := length pre). set (h := pre ++ e :: post' ++ [l]) in *.
    assert (length h = S (S (n + length post')))%nat as Hlen
      by (unfold h, n; rewrite !length_app; simpl; rewrite length_app; simpl; lia).
    unfold small in Hs.
    assert (sat_u32 (vlen h - 1) = Z.of_nat (S (n + length post'))) as ->
      by (rewrite sat_id; unfold vlen, u32_max; lia).
    change (vlen pre) with (Z.of_nat n). rewrite (proj2 (Z.eqb_neq _ _)) by lia.
    rewrite vget_total by lia. cbn [mbind option_bind].
    assert (h !!! S (n + length post') = l) as ->.
    { unfold h, n. rewrite app_comm_cons, app_assoc. apply list_lookup_total_middle.
      rewrite length_app. simpl. lia. }
    set (g := pre ++ l :: post').
    assert (vset h (Z.of_nat n) l = Some (g ++ [l])) as ->.
    { unfold h, g. rewrite <- app_assoc. apply vset_middle. }
    cbn [mbind option_bind]. rewrite pop_back_snoc.
    assert (length g = S (n + length post')) as Hg
      by (unfold g, n; rewrite length_app; simpl; lia).
    rewrite (proj2 (Z.ltb_lt _ _)) by (unfold vlen; lia).
    rewrite vget_total by lia. cbn [mbind option_bind].
    destruct (settle_at h g n) as (g' & Hr & Hp & Hog).
    + done.
    + unfold small. lia.
    + lia.
    + intros k Hk Hne. unfold sc. f_equal. by apply middle_lookup.
    + exists g'. split_and!; [done | | done]. rewrite Hp. unfold g.
      by rewrite <- Permutation_middle, Permutation_cons_append, app_assoc.
Qed.

Lemma insert_spec h p s :
  heap_ordered h → vlen h ≤ TOP_PAYERS_CAPACITY →
  ∃ h', insert_into_heap h p s = Some h' ∧ heap_ordered h' ∧
    if vlen h <? TOP_PAYERS_CAPACITY then h' ≡ₚ mkTopPayerEntry p s :: h
    else ∃ m rest, h = m :: rest ∧ (∀ x, x ∈ h → tp_score m ≤ tp_score x) ∧
         h' ≡ₚ (if s <=? tp_score m then h else mkTopPayerEntry p s :: rest).
Proof.
  intros Ho Hl. unfold insert_into_heap, vlen, TOP_PAYERS_CAPACITY in *.
  set (e := mkTopPayerEntry p s).
  destruct (Z.of_nat (length h) <? 50) eqn:Ec; bools.
  - rewrite sat_id by (unfold u32_max; rewrite length_app; simpl; lia).
    replace (Z.of_nat (length (h ++ [e])) - 1) with (Z.of_nat (length h))
      by (rewrite length_app; simpl; lia).
    destruct (sift_up_total (S (length (h ++ [e]))) (h ++ [e]) (length h)) as (h' & Hr & Hp & Ho').
    + unfold small. rewrite length_app. simpl. lia.
    + rewrite length_app. simpl. lia.
    + rewrite length_app. simpl. lia.
    + split; intros c Hc; rewrite length_app in Hc; simpl in Hc; intros Hne;
        pose proof (parent_lt c ltac:(lia)).
      * unfold sc. rewrite !lookup_total_app_l by lia. apply heap_ordered_at; [done | lia].
      * lia.
    + exists h'. split_and!; [done..|]. by rewrite Hp, <- Permutation_cons_append.
  - destruct h as [|m rest]; [simpl in Ec; lia |]. set (h := m :: rest) in *.
    change (vget h 0) with (Some m). cbn [mbind option_bind].
    assert (∀ x, x ∈ h → tp_score m ≤ tp_score x) as Hmin.
    { intros x [i Hi]%list_elem_of_lookup. pose proof (lookup_lt_Some _ _ _ Hi).
      apply list_lookup_total_correct in Hi as <-. by apply (heap_root_least h i). }
    destruct (s <=? tp_score m) eqn:Es; bools.
    + exists h. split_and!; [done..|]. exists m, rest. rewrite (proj2 (Z.leb_le _ _)) by done. done.
    + change (vset h 0 e) with (vset h (Z.of_nat 0) e).
      rewrite vset_nat by (simpl; lia). cbn [mbind option_bind].
      change (<[0%nat := e]> h) with (e :: rest).
      destruct (sift_down_total (S (length (e :: rest))) (e :: rest) 0) as (h' & Hr & Hp & Ho').
      * unfold small. simpl in Hl |- *. lia.
      * simpl. lia.
      * lia.
      * apply (replaced_down h); [done | simpl; lia | | by left].
        intros [|k] Hk Hne; [lia | done].
      * exists h'. split_and!; [done..|]. exists m, rest.
        rewrite (proj2 (Z.leb_gt _ _)) by done. done.
Qed.

(** * The leaderboard entry of the contract *)

(** What recording score [s] for [p] does to the other entries: [p] joins them,
    or replaces a lowest one when the board is full and [s] beats it. *)
Definition ranked (p : Address) (s : Z) (others h' : list TopPayerEntry) : Prop :=
  if vlen others <? TOP_PAYERS_CAPACITY then h' ≡ₚ mkTopPayerEntry p s :: others
  else ∃ m rest, others ≡ₚ m :: rest ∧ (∀ x, x ∈ others → tp_score m ≤ tp_score x) ∧
       h' ≡ₚ (if s <=? tp_score m then others else mkTopPayerEntry p s :: rest).

Lemma without_sublist p h : without p h `sublist_of` h.
Proof. apply sublist_filter. Qed.

Lemma without_absent_after p h : p ∉ tp_address <$> without p h.
Proof. intros (e & -> & [? _]%list_elem_of_filter)%list_elem_of_fmap. done. Qed.

Lemma update_heap_spec h p s :
  heap_ok h →
  ∃ h', (remove_payer_from_heap h p ≫= λ h, insert_into_heap h p s) = Some h' ∧
    heap_ok h' ∧ ranked p s (without p h) h'.
Proof.
  intros Hok. destruct (remove_payer_spec h p Hok) as (h1 & -> & Hp1 & Ho1).
  destruct Hok as (_ & Hn & Hl). cbn [mbind option_bind].
  pose proof (without_absent_after p h) as Ha.
  assert (NoDup (tp_address <$> without p h)) as Hn1.
  { eapply sublist_NoDup; [done |]. apply fmap_sublist, without_sublist. }
  assert (vlen h1 ≤ TOP_PAYERS_CAPACITY) as Hl1.
  { unfold vlen in *. rewrite Hp1. pose proof (sublist_length _ _ (without_sublist p h)). lia. }
  destruct (insert_spec h1 p s Ho1 Hl1) as (h' & -> & Ho' & Hc). exists h'.
  assert (length h1 = length (without p h)) as Hlen by (by rewrite Hp1).
  unfold ranked. unfold heap_ok, vlen in *. rewrite Hlen in Hc, Hl1.
  split_and!; [done..| | |].
  - destruct (Z.of_nat (length (without p h)) <? TOP_PAYERS_CAPACITY).
    + rewrite Hc, Hp1, fmap_cons. by constructor.
    + destruct Hc as (m & rest & -> & _ & ->). destruct (s <=? tp_score m).
      * by rewrite Hp1.
      * rewrite fmap_cons. rewrite <- Hp1 in Hn1, Ha. rewrite fmap_cons in Hn1, Ha.
        apply list.NoDup_cons in Hn1 as [_ Hn1]. rewrite not_elem_of_cons in Ha.
        by constructor; [apply Ha |].
  - destruct (Z.of_nat (length (without p h)) <? TOP_PAYERS_CAPACITY) eqn:E; bools.
    + rewrite Hc. simpl. lia.
    + destruct Hc as (m & rest & -> & _ & ->). destruct (s <=? tp_score m); simpl in *; lia.
  - destruct (Z.of_nat (length (without p h)) <? TOP_PAYERS_CAPACITY) eqn:E; bools.
    + by rewrite Hc, Hp1.
    + destruct Hc as (m & rest & -> & Hmin & Hc). exists m, rest. split_and!.
      * by rewrite Hp1.
      * intros x Hx. apply Hmin. by rewrite Hp1.
      * rewrite Hc. destruct (s <=? tp_score m); [by rewrite Hp1 | done].
Qed.

Section contract.
Context {X : Type}.
Abbreviation W := (world DataKey X Event).
Abbreviation IO := (M W ContractError).
Implicit Types w : W.

Definition leaderboard w : list TopPayerEntry := default [] (store w Key.TopPayersHeap).

Lemma save_heap_done h w :
  ∃ w', (save_top_payers_heap h : IO unit) w = Done tt w' ∧ leaderboard w' = h ∧
    ∀ k, k ≠ Key.TopPayersHeap → store w' k = store w k.
Proof.
  unfold save_top_payers_heap, leaderboard. destruct h as [|e h].
  - unfold has, reads, mbind, M_bind, remove, modify, mret, M_ret. case_bool_decide as Hs.
    + eexists. split_and!; [done | by simpl; sto |]. intros k Hk. simpl. by sto.
    + exists w. split_and!; [done | | done]. by apply eq_None_not_Some in Hs as ->.
  - eexists. split_and!; [done | by simpl; sto |]. intros k Hk. simpl. by sto.
Qed.

(** C15: the leaderboard.  Recording a payer's score always succeeds on a
    well-formed board; it leaves a well-formed board (a min-heap of at most fifty
    distinct payers) with the payer at the new score, in place of a lowest entry
    when the board is full, and every other entry as it was. *)
Theorem leaderboard_update w p s :
  heap_ok (leaderboard w) →
  ∃ w', (update_top_payers_on_score_change p s : IO unit) w = Done tt w' ∧
    heap_ok (leaderboard w') ∧
    ranked p s (without p (leaderboard w)) (leaderboard w') ∧
    ∀ k, k ≠ Key.TopPayersHeap → store w' k = store w k.
Proof.
  intros Hok. destruct (update_heap_spec _ p s Hok) as (h' & Hr & Hok' & Hrank).
  destruct (save_heap_done h' w) as (w' & Hs & Hh & Hk).
  exists w'. rewrite Hh. split_and!; [| done..].
  unfold update_top_payers_on_score_change, get_top_payers_heap, get_or, reads, mbind, M_bind.
  change (default [] (store w Key.TopPayersHeap)) with (leaderboard w).
  destruct (remove_payer_from_heap (leaderboard w) p) as [h1 |]; [| done]. simpl in Hr |- *.
  by rewrite Hr.
Qed.
End contract.

(** * The ranking view *)
Section ranking.
Variable h : list TopPayerEntry.
Definition entry_at (j : Z) : TopPayerEntry := h !!! Z.to_nat j.
Definition in_board (j : Z) : Prop := 0 ≤ j < vlen h.
Definition better (a b : Z) : Prop := tp_score (entry_at b) ≤ tp_score (entry_at a).

(** The inner scan returns a best unused index. *)
Lemma best_unused_spec pre post used best :
  h = pre ++ post →
  match best with
  | None => ∀ k, 0 ≤ k < vlen pre → k ∈ used
  | Some (j, e) => in_board j ∧ (j ∉ used) ∧ e = entry_at j ∧
      ∀ k, 0 ≤ k < vlen pre → k ∉ used → better j k
  end →
  match best_unused post used (vlen pre) best with
  | None => ∀ k, in_board k → k ∈ used
  | Some (j, e) => in_board j ∧ (j ∉ used) ∧ e = entry_at j ∧
      ∀ k, in_board k → k ∉ used → better j k
  end.
Proof.
  revert pre best. induction post as [|c post IH]; intros pre best Hh Hb.
  - rewrite app_nil_r in Hh. subst pre. exact Hb.
  - assert (c = entry_at (vlen pre)) as Hc.
    { unfold entry_at, vlen. rewrite Hh, Nat2Z.id. symmetry. by apply list_lookup_total_middle. }
    assert (vlen (pre ++ [c]) = vlen pre + 1) as Hv
      by (unfold vlen; rewrite length_app; simpl; lia).
    assert (in_board (vlen pre)) as Hin
      by (unfold in_board, vlen; rewrite Hh, length_app; simpl; lia).
    cbn [best_unused]. rewrite <- Hv. apply IH; [by rewrite <- app_assoc |]. rewrite Hv.
    case_bool_decide as Hu.
    + destruct best as [[j e] |].
      * destruct Hb as (? & ? & ? & Hall). split_and!; [done..|]. intros k Hk Hku.
        apply Hall; [| done]. assert (k ≠ vlen pre) by naive_solver. lia.
      * intros k Hk. destruct (decide (k = vlen pre)) as [-> |]; [done |]. apply Hb. lia.
    + destruct best as [[j e] |].
      * destruct Hb as (Hj & Hju & -> & Hall).
        destruct (tp_score (entry_at j) <? tp_score c) eqn:E; bools; rewrite Hc in E.
        -- split_and!; [done..|]. intros k Hk Hku. unfold better in *.
           destruct (decide (k = vlen pre)) as [-> |]; [done |].
           specialize (Hall k ltac:(lia) Hku). lia.
        -- split_and!; [done..|]. intros k Hk Hku. unfold better in *.
           destruct (decide (k = vlen pre)) as [-> |]; [lia |]. apply Hall; [lia | done].
      * split_and!; [done..|]. intros k Hk Hku. unfold better.
        destruct (decide (k = vlen pre)) as [-> |]; [done |]. destruct Hku. apply Hb. lia.
Qed.

Lemma used_short used :
  NoDup used → (∀ j, j ∈ used → in_board j) → (length used ≤ length h)%nat.
Proof.
  intros Hn Hu. replace (length h) with (length (seqZ 0 (vlen h)))
    by (rewrite length_seqZ; unfold vlen; lia).
  apply submseteq_length, NoDup_submseteq; [done |].
  intros j Hj. apply elem_of_seqZ. specialize (Hu j Hj). unfold in_board in Hu. lia.
Qed.

Lemma select_top_spec rounds used :
  NoDup used → (∀ j, j ∈ used → in_board j) →
  ∃ js, select_top rounds h used = entry_at <$> js ∧ NoDup (used ++ js) ∧
    (∀ j, j ∈ js → in_board j) ∧
    length js = Nat.min rounds (length h - length used) ∧
    StronglySorted better js ∧
    ∀ j k, j ∈ js → in_board k → k ∉ used ++ js → better j k.
Proof.
  revert used. induction rounds as [|n IH]; intros used Hn Hu; cbn [select_top].
  { exists []. rewrite app_nil_r. split_and!; try done.
    - by intros j ?%elem_of_nil.
    - constructor.
    - by intros j k ?%elem_of_nil. }
  pose proof (best_unused_spec [] h used None eq_refl) as Hbest.
  change (vlen []) with 0 in Hbest.
  destruct (best_unused h used 0 None) as [[j e] |].
  - destruct Hbest as (Hj & Hju & -> & Hmax); [intros; lia |].
    destruct (IH (used ++ [j])) as (js & -> & Hnd & Hrange & Hlen & Hsort & Hrest).
    + apply NoDup_app. split_and!; [done | | by apply NoDup_singleton].
      intros x Hx ->%list_elem_of_singleton. done.
    + intros x [Hx | ->%list_elem_of_singleton]%elem_of_app; [by apply Hu | done].
    + assert (length used < length h)%nat as Hlt.
      { pose proof (used_short (used ++ [j])) as Hs. rewrite length_app in Hs. simpl in Hs.
        cut (length used + 1 ≤ length h)%nat; [lia |]. apply Hs.
        - rewrite <- app_assoc in Hnd. apply NoDup_app. split_and!;
            [done | | by apply NoDup_singleton]. intros x Hx ->%list_elem_of_singleton. done.
        - intros x [Hx | ->%list_elem_of_singleton]%elem_of_app; [by apply Hu | done]. }
      rewrite <- app_assoc in Hnd, Hrest. rewrite length_app in Hlen. cbn [length app] in *.
      assert (∀ x, x ∈ js → x ∉ used) as Hfresh.
      { intros x Hx Hxu. apply NoDup_app in Hnd as (_ & Hd & _). apply (Hd x Hxu). by right. }
      exists (j :: js). split_and!; [done | done | | cbn [length]; lia | |].
      * intros x [-> | Hx]%elem_of_cons; [done | by apply Hrange].
      * constructor; [done |]. apply Forall_forall. intros x Hx.
        apply Hmax; [by apply Hrange | by apply Hfresh].
      * intros x k [-> | Hx]%elem_of_cons Hk Hku; [| by apply Hrest].
        apply Hmax; [done |]. intros ?. apply Hku, elem_of_app. by left.
  - exists []. rewrite app_nil_r.
    assert (length h ≤ length used)%nat.
    { replace (length h) with (length (seqZ 0 (vlen h)))
        by (rewrite length_seqZ; unfold vlen; lia).
      apply submseteq_length, NoDup_submseteq; [apply NoDup_seqZ |].
      intros j Hj%elem_of_seqZ. apply Hbest; [intros; lia | unfold in_board; lia]. }
    split_and!; try done.
    + by intros j ?%elem_of_nil.
    + cbn [length]. lia.
    + constructor.
    + by intros j k ?%elem_of_nil.
Qed.
End ranking.

Lemma board_entries (h : list TopPayerEntry) : h = entry_at h <$> seqZ 0 (vlen h).
Proof.
  apply list_eq. intros i. rewrite list_lookup_fmap. destruct (decide (i < length h)%nat).
  - rewrite lookup_seqZ_lt by (unfold vlen; lia). simpl. unfold entry_at.
    rewrite Z.add_0_l, Nat2Z.id. by apply list_lookup_lookup_total_lt.
  - rewrite lookup_ge_None_2, lookup_seqZ_ge by (unfold vlen; lia). done.
Qed.

(** C16: the ranking view.  [get_top_payers] returns the [limit] best entries of the
    board in descending order of score: with the entries it leaves out they are
    exactly the board, and none of those left out beats a returned one. *)
Theorem top_payers_sorted (h : list TopPayerEntry) (limit : Z) :
  0 ≤ limit →
  ∃ rest, h ≡ₚ top_payers_of h limit ++ rest ∧
    vlen (top_payers_of h limit) = Z.min limit (vlen h) ∧
    StronglySorted (λ a b, tp_score b ≤ tp_score a) (top_payers_of h limit) ∧
    ∀ a b, a ∈ top_payers_of h limit → b ∈ rest → tp_score b ≤ tp_score a.
Proof.
  intros Hl. unfold top_payers_of. destruct ((vlen h =? 0) || (limit =? 0)) eqn:E.
  - exists h. split_and!; [done | | constructor | by intros a b ?%elem_of_nil].
    apply orb_true_iff in E as [E | E]; bools; unfold vlen in *; simpl; lia.
  - bools. destruct (select_top_spec h (Z.to_nat (Z.min limit (vlen h))) [])
      as (js & -> & Hn & Hrange & Hlen & Hs & Hrest);
      [constructor | by intros j ?%elem_of_nil |]. simpl in *.
    pose (ks := filter (λ k, k ∉ js) (seqZ 0 (vlen h))). exists (entry_at h <$> ks).
    split_and!.
    + rewrite (board_entries h) at 1. rewrite <- fmap_app. f_equiv.
      apply NoDup_Permutation; [apply NoDup_seqZ | |].
      * apply NoDup_app. split_and!; [done | | apply NoDup_filter, NoDup_seqZ].
        by intros x Hx [? _]%list_elem_of_filter.
      * intros x. rewrite elem_of_app. unfold ks. rewrite list_elem_of_filter, elem_of_seqZ.
        split; [destruct (decide (x ∈ js)); naive_solver |].
        intros [Hx%Hrange | [_ Hx]]; [unfold in_board in Hx; lia | done].
    + unfold vlen in *. rewrite length_fmap, Hlen. lia.
    + clear -Hs. induction Hs as [|j js Hs IH Hj]; csimpl; constructor; [done |].
      by apply Forall_fmap.
    + intros a b (j & -> & Hj)%list_elem_of_fmap (k & -> & [Hkj Hk]%list_elem_of_filter)%list_elem_of_fmap.
      apply Hrest; [done | | done]. apply elem_of_seqZ in Hk. unfold in_board. lia.
Qed.

Module HeapExamples.
(** A board of two payers; the second one drops below the first. *)
Definition board : list TopPayerEntry := [mkTopPayerEntry 1%N 40; mkTopPayerEntry 2%N 60].
Definition w_board : world DataKey unit Event :=
  mkWorld 9%N (mkCtx (λ _, true) 0 0) (st_set st_empty Key.TopPayersHeap (Some board)) tt [].

Lemma board_ok : heap_ok (leaderboard w_board).
Proof.
  change (leaderboard w_board) with board. split_and!; [| | by vm_compute].
  - intros [|[|c]] Hc _; simpl in Hc; [lia | by vm_compute | lia].
  - apply (bool_decide_unpack _). vm_compute. done.
Qed.

Example dropped :
  result_of (update_top_payers_on_score_change 2%N 30 ;; get_top_payers 5) w_board =
    Some [mkTopPayerEntry 1%N 40; mkTopPayerEntry 2%N 30].
Proof. vm_compute. reflexivity. Qed.

Lemma leaderboard_update_witness :
  heap_ok (leaderboard w_board) ∧
  ∃ w', (update_top_payers_on_score_change 2%N 30 : M _ ContractError unit) w_board = Done tt w' ∧
    heap_ok (leaderboard w') ∧
    ranked 2%N 30 (without 2%N (leaderboard w_board)) (leaderboard w') ∧
    ∀ k, k ≠ Key.TopPayersHeap → store w' k = store w_board k.
Proof. split; [exact board_ok | exact (leaderboard_update w_board 2%N 30 board_ok)]. Defined.

Lemma top_payers_sorted_witness :
  0 ≤ 1 ∧
  ∃ rest, board ≡ₚ top_payers_of board 1 ++ rest ∧
    vlen (top_payers_of board 1) = Z.min 1 (vlen board) ∧
    StronglySorted (λ a b, tp_score b ≤ tp_score a) (top_payers_of board 1) ∧
    ∀ a b, a ∈ top_payers_of board 1 → b ∈ rest → tp_score b ≤ tp_score a.
Proof. split; [lia | apply (top_payers_sorted board 1); lia]. Defined.
End HeapExamples.
