(* ===== verification/QueueProps.v ===== *)
(** Properties of the LP priority queue of [Queue.v]: a join inserts by score and
    keeps the queue sorted, a resolution picks a best queued LP after the maturity
    delay, only that LP may then fund, and a stalled resolution can be undone. *)
From S2P Require Import Prelude Host Peers CoreTypes TopPayers CoreStore Access TokenSafety Nft.
From S2P Require Import OracleRegistry Pricing ConfigRs Admin Lifecycle Queue Frames CoreSpecs Edits.
From S2P Require Import System Invariants Footprint Scenario LifecycleProps.
From stdpp Require Import list sorting.
Open Scope Z_scope.

Definition higher (a b : LpFundRequest) : Prop := lr_score b ≤ lr_score a.

(** A well-formed queue: highest score first, each LP once, at most fifty. *)
Definition queue_ok (q : list LpFundRequest) : Prop :=
  StronglySorted higher q ∧ NoDup (lr_lp <$> q) ∧ vlen q ≤ MAX_FUND_QUEUE_LEN.

(** * List facts *)
Lemma insert_position_spec q s i :
  ∃ pre post, q = pre ++ post ∧ insert_position q s i = i + vlen pre ∧
    Forall (λ r, s ≤ lr_score r) pre ∧
    match post with [] => True | r :: _ => lr_score r < s end.
Proof.
  revert i. induction q as [|r q IH]; intros i; simpl.
  - exists [], []. split_and!; [done | unfold vlen; simpl; lia | constructor | done].
  - destruct (lr_score r <? s) eqn:E; bools.
    + exists [], (r :: q). split_and!; [done | unfold vlen; simpl; lia | constructor | done].
    + destruct (IH (i + 1)) as (pre & post & -> & Hi & Hpre & Hpost).
      exists (r :: pre), post. split_and!; [done | | by constructor | done].
      unfold vlen in *. simpl. lia.
Qed.

Lemma vinsert_app {A} (pre post : list A) x :
  vinsert (pre ++ post) (vlen pre) x = Some (pre ++ x :: post).
Proof.
  unfold vinsert, vlen. rewrite length_app, (proj2 (Z.leb_le _ _)), (proj2 (Z.leb_le _ _)) by lia.
  simpl. by rewrite Nat2Z.id, take_app_length, drop_app_length.
Qed.

Lemma sorted_middle pre post r :
  StronglySorted higher (pre ++ post) → Forall (λ x, lr_score r ≤ lr_score x) pre →
  match post with [] => True | x :: _ => lr_score x < lr_score r end →
  StronglySorted higher (pre ++ r :: post).
Proof.
  intros Hs Hpre Hpost. induction pre as [|a pre IH]; simpl in *.
  - constructor; [done |]. destruct post as [|x post]; [constructor |].
    apply StronglySorted_inv in Hs as [_ Hx]. constructor; [unfold higher; lia |].
    eapply Forall_impl; [done |]. unfold higher. intros; lia.
  - apply StronglySorted_inv in Hs as [Hs Ha]. apply Forall_cons_1 in Hpre as [Hr Hpre].
    constructor; [by apply IH |]. apply Forall_app in Ha as [Ha1 Ha2].
    apply Forall_app. split; [done |]. by constructor.
Qed.

(** The scan for the best score. *)
Lemma best_of_acc scores a :
  let b := foldl (λ best s, if best <? s then s else best) a scores in
  a ≤ b ∧ Forall (λ s, s ≤ b) scores ∧ (b = a ∨ b ∈ scores).
Proof.
  revert a. induction scores as [|s scores IH]; intros a; simpl.
  - split_and!; [lia | constructor | by left].
  - destruct (IH (if a <? s then s else a)) as (Hle & Hall & Hin).
    destruct (a <? s) eqn:E; bools; split_and!; try lia;
      try (constructor; [lia | done]); rewrite elem_of_cons; naive_solver.
Qed.

Lemma best_of_spec scores :
  scores ≠ [] → Forall (λ s, 0 ≤ s) scores →
  best_of scores ∈ scores ∧ Forall (λ s, s ≤ best_of scores) scores.
Proof.
  intros Hne Hpos. destruct (best_of_acc scores 0) as (Hle & Hall & Hin).
  fold (best_of scores) in *. split; [| done]. destruct Hin as [H0 | Hin]; [| done].
  destruct scores as [|s scores]; [done |]. rewrite H0 in Hall |- *.
  apply Forall_cons_1 in Hall as [? _]. apply Forall_cons_1 in Hpos as [? _].
  assert (s = 0) as -> by lia. left.
Qed.

Lemma tied_indices_spec scores b i j :
  j ∈ tied_indices scores b i ↔ i ≤ j < i + vlen scores ∧ scores !! Z.to_nat (j - i) = Some b.
Proof.
  revert i. induction scores as [|s scores IH]; intros i; simpl.
  - rewrite elem_of_nil. unfold vlen. simpl. lia.
  - assert (vlen (s :: scores) = vlen scores + 1) as -> by (unfold vlen; simpl; lia).
    assert (j ∈ tied_indices scores b (i + 1) ↔
      i < j < i + (vlen scores + 1) ∧ (s :: scores) !! Z.to_nat (j - i) = Some b) as Hrec.
    { rewrite IH. assert (0 ≤ vlen scores) by (unfold vlen; lia).
      split; intros [Hj Hl]; (split; [lia |]);
        replace (Z.to_nat (j - i)) with (S (Z.to_nat (j - (i + 1)))) in * by lia; done. }
    destruct (s =? b) eqn:E; bools.
    + subst s. rewrite elem_of_cons, Hrec. split.
      * intros [-> | [? ?]]; [| split; [lia | done]].
        rewrite Z.sub_diag. unfold vlen. split; [lia | done].
      * intros [Hj Hl]. destruct (decide (j = i)); [by left | right; split; [lia | done]].
    + rewrite Hrec. split; intros [Hj Hl]; (split; [| done]); [lia |].
      destruct (decide (j = i)) as [-> |]; [| lia]. rewrite Z.sub_diag in Hl. simpl in Hl.
      congruence.
Qed.

Lemma tied_indices_nonempty scores b i : b ∈ scores → tied_indices scores b i ≠ [].
Proof.
  intros [k Hk]%list_elem_of_lookup Hn. pose proof (lookup_lt_Some _ _ _ Hk).
  cut (i + Z.of_nat k ∈ tied_indices scores b i); [rewrite Hn; apply not_elem_of_nil |].
  apply tied_indices_spec. unfold vlen. split; [lia |]. by replace (Z.to_nat _) with k by lia.
Qed.

(** * The entry points *)
Section queue_props.
Context {X : Type} `{TokenInterface X} `{Peers X}.
Variables (MAX_FEE_TIERS MAX_IDENTITY_ORACLES_PER_FEED MAX_PRICE_SOURCES_PER_FEED : Z)
  (gen_range : Z → Z) (top : Z).
Abbreviation W := (world DataKey X Event).
Abbreviation IO := (M W ContractError).
Abbreviation exec :=
  (exec MAX_FEE_TIERS MAX_IDENTITY_ORACLES_PER_FEED MAX_PRICE_SOURCES_PER_FEED gen_range).
Abbreviation step :=
  (step MAX_FEE_TIERS MAX_IDENTITY_ORACLES_PER_FEED MAX_PRICE_SOURCES_PER_FEED gen_range top).
Implicit Types w : W.

Definition queue_at w (id : Z) : list LpFundRequest := default [] (store w (Key.FundQueue id)).
Definition resolution_at w (id : Z) : option Address := store w (Key.QueueResolution id).
Definition lp_score w (lp : Address) : Z := default DEFAULT_LP_SCORE (store w (Key.LpScore lp)).

(** [q'] is [q] with a request of [lp] at score [s] behind every request that
    scores at least [s], so earlier requests win ties. *)
Definition joined (lp : Address) (s : Z) (q q' : list LpFundRequest) : Prop :=
  ∃ pre post, q = pre ++ post ∧ q' = pre ++ mkLpFundRequest lp s :: post ∧
    Forall (λ r, s ≤ lr_score r) pre ∧
    match post with [] => True | r :: _ => lr_score r < s end.

Lemma joined_ok lp s q q' :
  queue_ok q → lp ∉ lr_lp <$> q → vlen q < MAX_FUND_QUEUE_LEN → joined lp s q q' → queue_ok q'.
Proof.
  intros (Hs & Hn & _) Hlp Hl (pre & post & -> & -> & Hpre & Hpost). split_and!.
  - by apply sorted_middle.
  - rewrite fmap_app, fmap_cons in *. simpl. rewrite <- Permutation_middle. by constructor.
  - unfold vlen in *. rewrite length_app in *. simpl. lia.
Qed.

Lemma inserted_joined lp s q q' :
  vinsert q (insert_position q s 0) (mkLpFundRequest lp s) = Some q' → joined lp s q q'.
Proof.
  destruct (insert_position_spec q s 0) as (pre & post & -> & -> & Hpre & Hpost).
  rewrite Z.add_0_l, vinsert_app. intros [= <-]. by exists pre, post.
Qed.

Lemma not_queued lp q :
  existsb (λ r, bool_decide (lr_lp r = lp)) q = false → lp ∉ lr_lp <$> q.
Proof.
  intros Hx (r & -> & Hr)%list_elem_of_fmap. apply not_true_iff_false in Hx. apply Hx.
  apply existsb_exists. exists r. split; [by apply list_elem_of_In |].
  by apply bool_decide_eq_true.
Qed.

Lemma join_spec lp id w w' :
  join_fund_queue lp id w = Done tt w' →
  (lp ∉ lr_lp <$> queue_at w id) ∧ vlen (queue_at w id) < MAX_FUND_QUEUE_LEN ∧
  resolution_at w id = None ∧
  joined lp (lp_score w lp) (queue_at w id) (queue_at w' id) ∧
  ∀ id', id' ≠ id → queue_at w' id' = queue_at w id'.
Proof.
  intros Hx. unfold join_fund_queue, require_lp, invoice_exists, get_queue_resolution, load_invoice,
    get_fund_queue, get_lp_score, save_fund_queue, try_set_fund_queue_opened_at in Hx.
  unfold resolution_at, lp_score, queue_at.
  minv Hx; bools; try lia.
  all: split_and!;
    [ by apply not_queued | done | by apply eq_None_not_Some
    | sto; by apply inserted_joined | intros id' Hid; by sto ].
Qed.

(** What one call does to the queues. *)
Definition queues_ok w : Prop := ∀ id, queue_ok (queue_at w id).

Lemma same_queues w w' :
  (∀ id, store w' (Key.FundQueue id) = store w (Key.FundQueue id)) → queues_ok w → queues_ok w'.
Proof. intros Hs Hq id. unfold queue_at. rewrite Hs. apply Hq. Qed.

Lemma queue_ok_filter (P : LpFundRequest → Prop) `{∀ x, Decision (P x)} q :
  queue_ok q → queue_ok (filter P q).
Proof.
  intros (Hs & Hn & Hl). pose proof (sublist_filter P q) as Hf. split_and!.
  - clear -Hs. induction Hs as [|r q Hs IH Hr]; [constructor |]. rewrite filter_cons.
    case_decide; [| done]. constructor; [done |].
    apply list.Forall_forall. intros x [_ Hx]%list_elem_of_filter.
    by eapply (proj1 (list.Forall_forall _ _) Hr).
  - eapply sublist_NoDup; [done |]. by apply fmap_sublist.
  - apply sublist_length in Hf. unfold vlen in *. lia.
Qed.

Lemma queue_ok_nil : queue_ok [].
Proof. split_and!; [constructor | constructor | by vm_compute]. Qed.

Lemma recover_queues id o w w' :
  recover_fund_queue id w = Done o w' → queues_ok w → queues_ok w'.
Proof.
  intros Hx Hq. unfold recover_fund_queue, get_fund_queue, get_queue_resolution,
    clear_fund_queue_state, reopen_fund_queue in Hx.
  minv Hx; intros id'; destruct (decide (id' = id)) as [-> | Hid];
    unfold queue_at; simpl; sto; try apply queue_ok_nil; try apply (Hq id').
  rename select (filter _ _ = _) into Hf. rewrite <- Hf. apply queue_ok_filter, (Hq id).
Qed.

Lemma exec_queues c w w' : exec c w = Done tt w' → queues_ok w → queues_ok w'.
Proof.
  intros Hx Hq. destruct (queue_call c) eqn:Hc.
  - destruct c; try done; simpl in Hx.
    + apply join_spec in Hx as (Hlp & Hl & _ & Hj & Hother). intros id'.
      destruct (decide (id' = id)) as [-> | Hid]; [by eapply joined_ok | by rewrite Hother].
    + apply ignore_done in Hx as [a Hx]. revert Hq. apply same_queues.
      cut (keeps (touches (λ k, match k with Key.FundQueue _ => false | _ => true end))
             (resolve_fund_queue gen_range id : IO Address)).
      { intros Hk i. by apply (Hk _ _ _ Hx). }
      unfold resolve_fund_queue, require_queueable, invoice_exists, get_queue_resolution,
        get_fund_queue, get_fund_queue_opened_at, current_scores, save_queue_resolution. frame.
    + apply ignore_done in Hx as [a Hx]. by eapply recover_queues.
  - apply queue_frame in Hx as (_ & _ & Hk); [| done]. revert Hq. apply same_queues.
    intros id. by apply Hk.
Qed.

Lemma run_queues w w' : rtc (step any_call) w w' → queues_ok w → queues_ok w'.
Proof.
  induction 1 as [|w w1 w2 Hs _ IH]; [done |]. intros Hq. apply IH.
  destruct Hs as [c _ _ Hx | (_ & Hs & _)]; [by eapply exec_queues |].
  revert Hq. apply same_queues. intros i. by rewrite Hs.
Qed.

(** C17: the queues.  From deployment on, through any run of calls, every invoice's
    fund queue is sorted by descending score at joining time, holds no LP twice and
    has at most fifty entries. *)
Theorem queues_well_formed w w' id :
  deployed w → rtc (step any_call) w w' → queue_ok (queue_at w' id).
Proof.
  intros Hd Hr. eapply run_queues; [exact Hr |].
  intros i. unfold queue_at. rewrite Hd. apply queue_ok_nil.
Qed.

(** ** Resolution *)
Definition opened_at w (id : Z) : option Z := store w (Key.FundQueueOpenedAt id).
Definition scores_of w (q : list LpFundRequest) : list Z := (λ r, lp_score w (lr_lp r)) <$> q.

(** The host draws within the range it is given, and scores are [u32]. *)
Definition fair : Prop := ∀ n, 1 < n → 0 ≤ gen_range n < n.
Definition scores_typed w : Prop := ∀ lp n, store w (Key.LpScore lp) = Some n → 0 ≤ n.

Lemma scores_nonneg w q : scores_typed w → Forall (λ s, 0 ≤ s) (scores_of w q).
Proof.
  intros Ht. apply Forall_fmap, Forall_true. intros r. unfold lp_score. simpl.
  destruct (store w (Key.LpScore (lr_lp r))) eqn:E; simpl; [by eapply Ht | by vm_compute].
Qed.

Lemma vget_in {A} (l : list A) i x : vget l i = Some x → x ∈ l.
Proof. unfold vget. destruct (i <? 0); [done |]. apply list_elem_of_lookup_2. Qed.

(** A tied index is that of a best current score. *)
Lemma winner_best w q i r :
  scores_typed w → q ≠ [] → vget q i = Some r →
  i ∈ tied_indices (scores_of w q) (best_of (scores_of w q)) 0 →
  ∀ r', r' ∈ q → lp_score w (lr_lp r') ≤ lp_score w (lr_lp r).
Proof.
  intros Ht Hne Hr Hin.
  apply tied_indices_spec in Hin as [Hir Hil]. rewrite Z.sub_0_r in Hil.
  unfold vget in Hr. destruct (i <? 0); [done |]. unfold scores_of in Hil at 1.
  rewrite list_lookup_fmap, Hr in Hil. injection Hil as Hs.
  intros r' Hr'. rewrite Hs.
  assert (Forall (λ s, s ≤ best_of (scores_of w q)) (scores_of w q)) as Hall.
  { apply best_of_spec; [| by apply scores_nonneg]. unfold scores_of. by destruct q. }
  apply (proj1 (list.Forall_forall _ _) Hall), list_elem_of_fmap. by exists r'.
Qed.

Lemma winner_drawn w q :
  fair → scores_typed w → q ≠ [] →
  let tied := tied_indices (scores_of w q) (best_of (scores_of w q)) 0 in
  is_Some (if 1 <? vlen tied then vget tied (gen_range (vlen tied)) else vget tied 0).
Proof.
  intros Hf Ht Hne tied.
  assert (tied ≠ []) as Htied.
  { apply tied_indices_nonempty, best_of_spec; [| by apply scores_nonneg].
    unfold scores_of. by destruct q. }
  assert (∀ i, 0 ≤ i < vlen tied → is_Some (vget tied i)) as Hget.
  { intros i Hi. unfold vget, vlen in *. rewrite (proj2 (Z.ltb_ge _ _)) by lia.
    apply lookup_lt_is_Some. lia. }
  destruct (1 <? vlen tied) eqn:E; bools.
  - by apply Hget, Hf.
  - apply Hget. destruct tied; [done |]. unfold vlen. simpl. lia.
Qed.

Lemma tied_vget w q k :
  k ∈ tied_indices (scores_of w q) (best_of (scores_of w q)) 0 → is_Some (vget q k).
Proof.
  intros [Hr _]%tied_indices_spec. unfold vget, scores_of, vlen in *.
  rewrite length_fmap in Hr. rewrite (proj2 (Z.ltb_ge _ _)) by lia.
  apply lookup_lt_is_Some. lia.
Qed.

(** The conditions under which an unresolved queue resolves. *)
Definition matured w (id : Z) : Prop :=
  ∃ o, opened_at w id = Some o ∧ sat_u32 (o + QUEUE_DELAY_LEDGERS) ≤ ledger_seq (ctx w).
Definition still_open w (id : Z) : Prop :=
  ∃ i, invoice_at w id = Some i ∧
    (i_status i = Status.Pending ∨ i_status i = Status.PartiallyFunded) ∧
    now (ctx w) ≤ i_due_date i.

(** C18: resolution.  The first successful resolution of a queue happens only after
    its maturity delay and approves a queued LP whose current score no other queued
    LP exceeds; every later resolution answers the same LP and changes nothing. *)
Theorem resolution_selects_best id lp w w' :
  scores_typed w → resolve_fund_queue gen_range id w = Done lp w' →
  match resolution_at w id with
  | Some approved => lp = approved ∧ w' = w
  | None =>
      matured w id ∧ resolution_at w' id = Some lp ∧ lp ∈ lr_lp <$> queue_at w id ∧
      ∀ r, r ∈ queue_at w id → lp_score w (lr_lp r) ≤ lp_score w lp
  end.
Proof.
  intros Hn Hx. unfold resolve_fund_queue, require_queueable, invoice_exists,
    get_queue_resolution, get_fund_queue, get_fund_queue_opened_at, current_scores,
    save_queue_resolution in Hx.
  unfold resolution_at, matured, opened_at.
  minv Hx; bools; rewrite ?Heqo; try done.
  all: change (default [] (store w (Key.FundQueue id))) with (queue_at w id) in *;
    change ((λ r, default DEFAULT_LP_SCORE (store w (Key.LpScore (lr_lp r)))) <$> ?q)
      with (scores_of w q) in *.
  all: match goal with
       | Hi : vget (tied_indices _ _ _) _ = Some ?i, Hr : vget (queue_at ?w _) ?i = Some ?r |- _ =>
           apply vget_in in Hi; pose proof (winner_best w _ i r Hn ltac:(done) Hr Hi);
           apply vget_in in Hr
       end.
  all: split_and!; [by eexists | by sto | apply list_elem_of_fmap; eauto | done].
Qed.

Lemma queueable_run i w :
  i_status i = Status.Pending ∨ i_status i = Status.PartiallyFunded →
  now (ctx w) ≤ i_due_date i → (require_queueable i : IO unit) w = Done tt w.
Proof.
  intros Hst Hdue. unfold require_queueable.
  go_by ltac:(by destruct Hst as [-> | ->]). go. apply reject_pass, Z.ltb_ge, Hdue.
Qed.

(** C19: progress.  A queue that is not empty, belongs to an invoice that is still
    open for funding, and has matured, can be resolved whatever the host draws. *)
Theorem matured_queue_resolves id w :
  fair → scores_typed w → wf w → paused w = false → queue_at w id ≠ [] →
  still_open w id → matured w id →
  ∃ lp w', resolve_fund_queue gen_range id w = Done lp w' ∧ resolution_at w' id = Some lp.
Proof.
  intros Hf Hn Hw Hp Hq (i & Hi & Hst & Hdue) (o & Ho & Hm).
  assert (∀ A (k : unit → IO A), (require_not_paused ≫= k) w = k tt w) as Hpause.
  { intros A k. eapply done_bind; [| done]. unfold require_not_paused, is_paused.
    eapply done_bind; [reflexivity |]. change (default false _) with (paused w).
    by rewrite Hp. }
  assert (require_queueable i w = Done tt w) as Hopen by (by apply queueable_run).
  assert (bool_decide (is_Some (store w (Key.Invoice id))) = true) as Hex
    by (apply bool_decide_eq_true; eauto).
  unfold resolve_fund_queue. rewrite Hpause.
  unfold invoice_exists, get_queue_resolution, get_fund_queue, get_fund_queue_opened_at,
    current_scores, resolution_at, opened_at in *.
  destruct (store w (Key.QueueResolution id)) as [lp |] eqn:Hres.
  { exists lp, w. split; [| done].
    eapply done_bind; [reflexivity |]. rewrite Hex.
    eapply done_bind; [by apply reject_pass |]. eapply done_bind; [reflexivity |].
    by rewrite Hres. }
  destruct (winner_drawn w (queue_at w id) Hf Hn Hq) as [k Hk].
  assert (is_Some (vget (queue_at w id) k)) as [r Hr].
  { apply tied_vget with (w := w). by destruct (1 <? _); eapply vget_in. }
  destruct (1 <? vlen (tied_indices _ _ _)) eqn:E1; eexists _, _; split.
  1, 3: go; rewrite Hex;
    go_by ltac:(by apply reject_pass);
    go;
    rewrite Hres;
    go_by ltac:(apply try_load_pass);
    rewrite (wf_lookup _ _ Hw), Hi;
    go_by ltac:(by apply ok_or_pass);
    go_by ltac:(exact Hopen);
    go;
    change (default [] (store w (Key.FundQueue id))) with (queue_at w id);
    go_by ltac:(by apply reject_pass, bool_decide_eq_false);
    do 2 go;
    rewrite Ho;
    go;
    rewrite (proj2 (Z.ltb_ge _ _)) by done;
    do 2 go;
    change (fmap _ (queue_at w id)) with (scores_of w (queue_at w id));
    go_by ltac:(rewrite E1; apply unwrap_pass, Hk);
    go_by ltac:(apply ok_or_pass, Hr);
    go;
    go_by ltac:(rewrite E1; reflexivity);
    do 2 go;
    reflexivity.
  all: simpl; by sto.
Qed.

(** ** The approved LP *)
Lemma approved_stays c w w' id lp :
  exec c w = Done tt w' → (∀ i, c ≠ RecoverFundQueue i) →
  resolution_at w id = Some lp → resolution_at w' id = Some lp.
Proof.
  intros Hx Hc Hr. unfold resolution_at in *. destruct (queue_call c) eqn:Hq.
  - destruct c; try done; simpl in Hx.
    + rename id0 into j.
      assert (keeps (touches (λ k, match k with Key.QueueResolution _ => false | _ => true end))
                (join_fund_queue lp0 j : IO unit)) as Hk.
      { unfold join_fund_queue, require_lp, invoice_exists, get_queue_resolution, get_fund_queue,
          get_lp_score, save_fund_queue, try_set_fund_queue_opened_at. frame. }
      destruct (Hk _ _ _ Hx) as (_ & _ & Hs). by rewrite Hs.
    + apply ignore_done in Hx as [a Hx]. rename id0 into j.
      unfold resolve_fund_queue, require_queueable, invoice_exists,
        get_queue_resolution, get_fund_queue, get_fund_queue_opened_at, current_scores,
        save_queue_resolution in Hx.
      destruct (decide (j = id)) as [-> | Hj]; minv Hx; try congruence; by sto.
    + exfalso. by eapply Hc.
  - apply queue_frame in Hx as (_ & _ & Hk); [| done]. by rewrite Hk.
Qed.

(** Exclusivity.  Once a queue is resolved, the approved LP stays approved
    through every call but a recovery, and nobody else can fund the invoice. *)
Theorem approved_lp_exclusive c w w' id lp :
  exec c w = Done tt w' → resolution_at w id = Some lp →
  ((∀ i, c ≠ RecoverFundQueue i) → resolution_at w' id = Some lp) ∧
  (∀ f n b, c = FundInvoice f id n b → f = lp).
Proof.
  intros Hx Hr. split; [intros Hc; by eapply approved_stays |].
  intros f n b ->. simpl in Hx. unfold fund_invoice in Hx.
  apply bind_done in Hx as ([] & w1 & [_ ->]%lock_reentrancy_done & Hx).
  apply bind_done in Hx as ([] & w2 & [_ ->]%require_not_paused_done & Hx).
  apply bind_done in Hx as ([i p] & w3 & Hx & _).
  unfold fund_checks, require_lp, get_queue_resolution in Hx.
  apply bind_done in Hx as (? & w4 & [_ ->]%require_auth_done & Hx).
  apply bind_done in Hx as (? & w5 & [-> ->]%try_load_invoice_done & Hx).
  apply bind_done in Hx as (? & w6 & [_ ->]%ok_or_done & Hx).
  apply bind_done in Hx as (? & w7 & Hg & Hx).
  unfold get, reads in Hg. injection Hg as <- <-.
  apply bind_done in Hx as (? & w8 & [Ha _]%reject_if_done & _).
  unfold resolution_at in Hr. unfold lock_world in Ha. simpl in Ha. revert Ha. sto.
  rewrite Hr. by intros ?%negb_false_iff%bool_decide_eq_true.
Qed.

(** Recovery.  Recovering a queue either clears all its state, when the invoice
    can no longer be funded, or, once the approved LP has let the grace period
    pass, withdraws the approval and that LP's request, keeps every other request
    in order, and restarts the maturity delay. *)
Theorem recovery_reopens id w w' o :
  wf w → recover_fund_queue id w = Done o w' →
  resolution_at w' id = None ∧
  match o with
  | None => ¬ still_open w id ∧ queue_at w' id = [] ∧ opened_at w' id = None
  | Some lp => still_open w id ∧ resolution_at w id = Some lp ∧
      sat_u32 (default 0 (store w (Key.QueueResolvedAt id)) + QUEUE_DELAY_LEDGERS)
        ≤ ledger_seq (ctx w) ∧
      queue_at w' id = filter (λ r, lr_lp r ≠ lp) (queue_at w id) ∧
      (queue_at w' id ≠ [] → opened_at w' id = Some (ledger_seq (ctx w)))
  end.
Proof.
  intros Hw Hx.
  assert (∀ i, lookup_invoice w id = Some i →
            (succeeds (require_queueable i : IO unit) w = true ↔ still_open w id)) as Hopen.
  { intros i Hi. rewrite (wf_lookup _ _ Hw) in Hi. unfold succeeds.
    destruct (require_queueable i w) as [u w1 | f] eqn:Hq; split; try done.
    - intros _. unfold require_queueable in Hq. minv Hq. exists i. by bools.
    - intros (j & Hj & Hst & Hdue). rewrite Hi in Hj. injection Hj as <-.
      by rewrite queueable_run in Hq. }
  unfold recover_fund_queue, get_fund_queue, get_queue_resolution,
    clear_fund_queue_state, reopen_fund_queue in Hx.
  unfold resolution_at, queue_at, opened_at in *.
  minv Hx; rename select (lookup_invoice w id = Some _) into Hi; specialize (Hopen _ Hi).
  { bools. rename select (succeeds _ _ = false) into Hf.
    split_and!; [by sto | | by sto | by sto]. intros Ho. apply Hopen in Ho. congruence. }
  all: rename select (negb _ = false) into Hs; apply negb_false_iff, Hopen in Hs.
  all: rename select ((_ <? _) = false) into Hg;
    apply Z.ltb_ge in Hg.
  all: rename select (filter _ _ = _) into Hfilter.
  all: split_and!; [by sto | done | done | | by sto; rewrite Hfilter | sto; by intros].
  all: etrans; [apply sat_mono | exact Hg].
  all: unfold QUEUE_DELAY_LEDGERS, QUEUE_RESOLUTION_TTL_LEDGERS; case_match; lia.
Qed.
End queue_props.

Module QueueWitness.
Import Scenario.
Definition later (n : Z) (w : W) : W :=
  with_ctx (mkCtx (auth (ctx w)) (now (ctx w)) (ledger_seq (ctx w) + n)) w.

(** Both LPs ask to fund invoice 1; the queue matures and is resolved. *)
Definition w_one : W := commit (run (JoinFundQueue lp1 1)) w_pending.
Definition w_two : W := commit (run (JoinFundQueue lp2 1)) w_one.
Definition w_ripe : W := later 120 w_two.
Definition w_resolved : W := commit (resolve_fund_queue (λ n, 0) 1 : M W ContractError Address) w_ripe.
Definition w_stalled : W := later 720 w_resolved.
Definition w_reopened : W := commit (recover_fund_queue 1 : M W ContractError (option Address)) w_stalled.

Lemma one_run : run (JoinFundQueue lp1 1) w_pending = Done tt w_one.
Proof. committed. Qed.
Lemma two_run : run (JoinFundQueue lp2 1) w_one = Done tt w_two.
Proof. committed. Qed.
Lemma resolve_run : resolve_fund_queue (λ n, 0) 1 w_ripe = Done lp1 w_resolved.
Proof. committed. Qed.
Lemma recover_run : recover_fund_queue 1 w_stalled = Done (Some lp1) w_reopened.
Proof. committed. Qed.

Lemma two_steps : rtc (step any_call) w0 w_two.
Proof.
  eapply rtc_l; [by eapply step_call, ready_run |].
  eapply rtc_l; [by eapply step_call, pending_run |].
  eapply rtc_l; [by eapply step_call, one_run |].
  eapply rtc_l; [by eapply step_call, two_run |]. done.
Qed.
Lemma later_step n w : 0 ≤ n → step any_call w (later n w).
Proof. intros Hn. apply step_env. split_and!; [done | done | simpl; lia | done]. Qed.

Lemma queues_well_formed_witness : queue_ok (queue_at w_two 1).
Proof.
  apply (queues_well_formed 10 5 8 (λ _, 0) i128_max w0 w_two 1).
  - intros k. reflexivity.
  - exact two_steps.
Defined.

Lemma no_scores (w : W) : (∀ lp, store w (Key.LpScore lp) = None) → scores_typed w.
Proof. intros Hn lp n. by rewrite Hn. Qed.

Lemma ripe_steps : rtc (step any_call) w0 w_ripe.
Proof. eapply rtc_r; [exact two_steps |]. by apply later_step. Qed.
Lemma ripe_wf : wf w_ripe.
Proof. apply LifecycleWitness.scenario_wf, ripe_steps. Qed.
Lemma stalled_wf : wf w_stalled.
Proof.
  apply LifecycleWitness.scenario_wf. eapply rtc_r; [| by apply later_step].
  eapply rtc_r; [exact ripe_steps |]. apply (step_call _ _ _ _ _ _ _ _ (ResolveFundQueue 1)).
  - reflexivity.
  - exact I.
  - change (ignore (resolve_fund_queue (λ n, 0) 1) w_ripe = Done tt w_resolved).
    eapply done_bind; [exact resolve_run | reflexivity].
Qed.
Lemma ripe_open : still_open w_ripe 1.
Proof.
  exists (default (LifecycleWitness.invoice1 w_ripe) (invoice_at w_ripe 1)).
  split_and!; [vm_compute; reflexivity | left; vm_compute; reflexivity | vm_compute; discriminate].
Qed.
Lemma ripe_matured : matured w_ripe 1.
Proof. exists (ledger_seq (ctx w_two)). split; vm_compute; [reflexivity | discriminate]. Qed.

Lemma resolution_selects_best_witness :
  matured w_ripe 1 ∧ resolution_at w_resolved 1 = Some lp1 ∧ lp1 ∈ lr_lp <$> queue_at w_ripe 1 ∧
  ∀ r, r ∈ queue_at w_ripe 1 → lp_score w_ripe (lr_lp r) ≤ lp_score w_ripe lp1.
Proof.
  apply (resolution_selects_best (λ _, 0) 1 lp1 w_ripe w_resolved).
  - apply no_scores. intros lp. reflexivity.
  - exact resolve_run.
Defined.

Lemma matured_queue_resolves_witness :
  ∃ lp w', resolve_fund_queue (λ _, 0) 1 w_ripe = Done lp w' ∧ resolution_at w' 1 = Some lp.
Proof.
  apply (matured_queue_resolves (λ _, 0) 1 w_ripe).
  - intros n Hn. lia.
  - apply no_scores. intros lp. reflexivity.
  - exact ripe_wf.
  - vm_compute. reflexivity.
  - vm_compute. discriminate.
  - exact ripe_open.
  - exact ripe_matured.
Defined.

(** [lp2] asks to fund although [lp1] is approved. *)
Definition w_taken : W := commit (run (FundInvoice lp1 1 400000000 false)) w_resolved.
Lemma taken_run : run (FundInvoice lp1 1 400000000 false) w_resolved = Done tt w_taken.
Proof. committed. Qed.
Example other_lp_rejected :
  fault_of (run (FundInvoice lp2 1 400000000 false)) w_resolved = Some (Code Err.NotApprovedFunder).
Proof. vm_compute. reflexivity. Qed.

Lemma approved_lp_exclusive_witness : resolution_at w_taken 1 = Some lp1.
Proof.
  apply (proj1 (approved_lp_exclusive 10 5 8 (λ _, 0) (FundInvoice lp1 1 400000000 false)
           w_resolved w_taken 1 lp1 taken_run ltac:(vm_compute; reflexivity))).
  intros i. discriminate.
Defined.

Lemma recovery_reopens_witness :
  resolution_at w_reopened 1 = None ∧ still_open w_stalled 1 ∧
  queue_at w_reopened 1 = filter (λ r, lr_lp r ≠ lp1) (queue_at w_stalled 1).
Proof.
  destruct (recovery_reopens 1 w_stalled w_reopened (Some lp1) stalled_wf recover_run)
    as (Hr & Ho & _ & _ & Hq & _).
  split; [exact Hr |]. split; [exact Ho | exact Hq].
Defined.
End QueueWitness.
