(* ===== verification/NftProps.v ===== *)
(** The invoice NFTs of [Nft.v] follow their invoices: what [sync_nft_state]
    establishes, and the invariant every run of the contract keeps. *)
From S2P Require Import Prelude Host Peers CoreTypes TopPayers CoreStore Access TokenSafety Nft.
From S2P Require Import OracleRegistry Pricing ConfigRs Admin Lifecycle Queue Multisig Frames CoreSpecs.
From S2P Require Import Edits System Invariants Footprint Scenario LifecycleProps.

(** The NFT entries of invoice [id]. *)
Definition nft_of (id : Z) (k : DataKey) : bool :=
  match k with Key.InvoiceNft j | Key.InvoiceNftOwner j => bool_decide (j = id) | _ => false end.
Definition nft_key (k : DataKey) : bool :=
  match k with Key.InvoiceNft _ | Key.InvoiceNftOwner _ => true | _ => false end.
(** What a call may write once it has synchronised invoice [id]. *)
Definition unsynced (k : DataKey) : bool :=
  match k with
  | Key.InvoiceNft _ | Key.InvoiceNftOwner _ | Key.Invoice _ | Key.InvoiceCore _
  | Key.InvoiceMetadata _ | Key.InvoiceFunders _ => false
  | _ => true
  end.
Definition not_nft (k : DataKey) : bool := negb (nft_key k).
Definition other_nfts_kept (id : Z) (k : DataKey) : bool := not_nft k || nft_of id k.

(** Calls that change an invoice without synchronising its NFT. *)
Definition unsyncing (c : Call) : bool :=
  match c with
  | UpdateInvoice _ _ _ _ _ | ConvertInvoiceToken _ _ _ | TransferInvoice _ _
  | CancelInvoice _ | ExpireInvoice _ => true
  | _ => false
  end.

Section nft.
Context {X : Type} `{TokenInterface X} `{Peers X} `{!TokenLaws X}.
Variables (MAX_FEE_TIERS MAX_IDENTITY_ORACLES_PER_FEED MAX_PRICE_SOURCES_PER_FEED : Z)
  (gen_range : Z → Z) (top : Z).
Abbreviation W := (world DataKey X Event).
Abbreviation IO := (M W ContractError).
Abbreviation exec :=
  (exec MAX_FEE_TIERS MAX_IDENTITY_ORACLES_PER_FEED MAX_PRICE_SOURCES_PER_FEED gen_range).
Abbreviation step :=
  (step MAX_FEE_TIERS MAX_IDENTITY_ORACLES_PER_FEED MAX_PRICE_SOURCES_PER_FEED gen_range top).
Implicit Types w : W.

Definition nft_at w (id : Z) : option InvoiceNftMetadata := store w (Key.InvoiceNft id).
Definition owner_at w (id : Z) : option Address := store w (Key.InvoiceNftOwner id).
(** The owner entry repeats the owner in the metadata. *)
Definition owners_agree w (id : Z) : Prop := owner_at w id = nft_owner <$> nft_at w id.

(** The owner the NFT of an invoice should have, if it should exist at all. *)
Definition wanted_owner (i : option Invoice) (fs : contributors) : option Address :=
  match i with
  | Some i => if nft_should_exist (i_status i) then Some (nft_target_owner i fs) else None
  | None => None
  end.

Lemma target_owner_funded i fs :
  nft_target_owner i (match i_funder i with Some _ => [] | None => fs end) = nft_target_owner i fs.
Proof. unfold nft_target_owner. by destruct (i_funder i). Qed.

(** The three writes. *)
Lemma mint_run id o amount due rate t w :
  nft_at w id = None →
  ∃ w', mint_invoice_nft id o amount due rate t w = Done tt w' ∧
    owners_agree w' id ∧ owner_at w' id = Some o.
Proof.
  intros Hn. eexists. split.
  - unfold mint_invoice_nft. go. go_by ltac:(apply reject_pass; unfold nft_at in Hn; by rewrite Hn).
    do 3 go. reflexivity.
  - unfold owners_agree, owner_at, nft_at. simpl. by sto.
Qed.
Lemma transfer_run id m to w :
  nft_at w id = Some m →
  ∃ w', transfer_invoice_nft id (nft_owner m) to w = Done tt w' ∧
    owners_agree w' id ∧ owner_at w' id = Some to.
Proof.
  intros Hm. eexists. split.
  - unfold transfer_invoice_nft. go. go_by ltac:(apply ok_or_pass; exact Hm).
    go_by ltac:(apply reject_pass; by rewrite bool_decide_eq_true_2). do 3 go. reflexivity.
  - unfold owners_agree, owner_at, nft_at. simpl. by sto.
Qed.
Lemma burn_run id m w :
  nft_at w id = Some m →
  ∃ w', burn_invoice_nft id (nft_owner m) w = Done tt w' ∧
    owners_agree w' id ∧ owner_at w' id = None.
Proof.
  intros Hm. eexists. split.
  - unfold burn_invoice_nft. go. go_by ltac:(apply ok_or_pass; exact Hm).
    go_by ltac:(apply reject_pass; by rewrite bool_decide_eq_true_2). do 3 go. reflexivity.
  - unfold owners_agree, owner_at, nft_at. simpl. by sto.
Qed.

Lemma funders_for_target id i w :
  (match i_funder i with Some _ => mret [] | None => get_invoice_funders id end : IO _) w =
    Done (match i_funder i with Some _ => [] | None => funders_at w id end) w.
Proof. by destruct (i_funder i). Qed.

(** One synchronisation: it cannot fail, and the NFT exists exactly when it should,
    with the wanted owner. *)
Lemma sync_spec id w :
  owners_agree w id →
  ∃ w', sync_nft_state id w = Done tt w' ∧ owners_agree w' id ∧
    owner_at w' id = wanted_owner (lookup_invoice w id) (funders_at w id).
Proof.
  intros Ha. pose proof Ha as Ho. unfold owners_agree, owner_at in Ho.
  assert (invoice_nft_exists id w = Done (bool_decide (is_Some (nft_at w id))) w) as Hex by done.
  assert (∀ A (k : bool → IO A), (invoice_nft_exists id ≫= k) w =
            k (bool_decide (is_Some (nft_at w id))) w) as Hexk by done.
  unfold sync_nft_state, wanted_owner. unfold mbind at 1, M_bind at 1. rewrite try_load_pass.
  destruct (lookup_invoice w id) as [i |].
  2: { rewrite Hexk. destruct (nft_at w id) as [m |] eqn:Em; simpl in Ho |- *.
    - destruct (burn_run id m w Em) as (w' & Hr & ?). exists w'. split; [| done].
      go_by ltac:(go; apply unwrap_pass; exact Ho). exact Hr.
    - by exists w. }
  destruct (nft_should_exist (i_status i)) eqn:Es.
  - unfold mbind at 1, M_bind at 1. rewrite funders_for_target, target_owner_funded. cbv zeta.
    rewrite Hexk. destruct (nft_at w id) as [m |] eqn:Em; simpl in Ho |- *.
    + destruct (bool_decide (nft_owner m = nft_target_owner i (funders_at w id))) eqn:Eo.
      * exists w. split; [| by bools; rewrite <- Eo].
        go. go_by ltac:(apply ok_or_pass; exact Ho). by rewrite Eo.
      * destruct (transfer_run id m (nft_target_owner i (funders_at w id)) w Em) as (w' & Hr & ?).
        exists w'. split; [| done]. go. go_by ltac:(apply ok_or_pass; exact Ho). by rewrite Eo.
    + by apply mint_run.
  - rewrite Hexk. destruct (nft_at w id) as [m |] eqn:Em; simpl in Ho |- *.
    + destruct (burn_run id m w Em) as (w' & Hr & ?). exists w'. split; [| done].
      go. go_by ltac:(apply ok_or_pass; exact Ho). exact Hr.
    + by exists w.
Qed.

(** ** Calls that synchronise

    [syncs id m]: a run of [m] writes no NFT before it synchronises invoice [id],
    and nothing the NFT depends on afterwards. *)
Definition syncs {A} (id : Z) (m : IO A) : Prop :=
  ∀ w a w', m w = Done a w' → ∃ w1 w2,
    touches not_nft w w1 ∧ sync_nft_state id w1 = Done tt w2 ∧ touches unsynced w2 w'.

Lemma syncs_here id : syncs id (sync_nft_state id).
Proof. intros w [] w' Hx. exists w, w'. by split_and!. Qed.
Lemma syncs_l {A B} id (m : IO A) (k : A → IO B) :
  syncs id m → (∀ a, keeps (touches unsynced) (k a)) → syncs id (m ≫= k).
Proof.
  intros Hm Hk w b w' (a & w3 & Hx & Hy)%bind_done. apply Hm in Hx as (w1 & w2 & ? & ? & ?).
  apply Hk in Hy. exists w1, w2. split_and!; [done | done |]. by etrans.
Qed.
Lemma syncs_r {A B} id (m : IO A) (k : A → IO B) :
  keeps (touches not_nft) m → (∀ a, syncs id (k a)) → syncs id (m ≫= k).
Proof.
  intros Hm Hk w b w' (a & w3 & Hx & Hy)%bind_done. apply Hk in Hy as (w1 & w2 & ? & ? & ?).
  apply Hm in Hx. exists w1, w2. split_and!; [by etrans | done | done].
Qed.
Lemma syncs_dead {A} id (e : ContractError) : syncs id (throw e : IO A).
Proof. intros w a w' Hx. by apply throw_done in Hx. Qed.

Ltac find_sync := repeat first
  [ apply syncs_here
  | apply syncs_dead
  | match goal with
    | |- syncs _ (match ?x with _ => _ end) => destruct x
    | |- syncs _ (let _ := _ in _) => cbv zeta
    | |- forall _, _ => intros ?
    end
  | apply syncs_r; [solve [frame] |]
  | apply syncs_l; [| solve [frame]] ].

Lemma subject_syncs c id :
  subject c = Some id → unsyncing c = false → syncs id (exec c).
Proof.
  intros Hs Hu. destruct c; try done; injection Hs as ->; simpl; open_lifecycle.
  all: find_sync.
Qed.

(** Footprints on the NFT entries. *)
Lemma batch_not_nft auths l : keeps (touches not_nft) (submit_batch_loop auths l : IO (list Z)).
Proof.
  revert auths. induction l as [|p l IH]; intros auths; simpl; [frame |].
  unfold require_submitter, store_submission. frame.
Qed.
Hint Resolve batch_not_nft : keeps.

Lemma not_nft_frame c :
  subject c = None ∨ unsyncing c = true → keeps (touches not_nft) (exec c).
Proof. intros [Hc | Hc]; destruct c; try done; call_frame. Qed.

Lemma own_nft_frame c id :
  subject c = Some id → keeps (touches (other_nfts_kept id)) (exec c).
Proof.
  intros Hs.
  assert (other_nfts_kept id (Key.InvoiceNft id) = true) by by apply bool_decide_eq_true.
  assert (other_nfts_kept id (Key.InvoiceNftOwner id) = true) by by apply bool_decide_eq_true.
  destruct c; try done; injection Hs as ->; call_frame.
Qed.

(** ** The invariant *)
Definition nft_ok w (id : Z) : Prop :=
  owners_agree w id ∧
  (owner_at w id = wanted_owner (invoice_at w id) (funders_at w id) ∨
   ∃ i, invoice_at w id = Some i ∧ i_status i = Status.Cancelled).

Lemma nft_same w w' id :
  nft_at w' id = nft_at w id → owner_at w' id = owner_at w id →
  invoice_at w' id = invoice_at w id → funders_at w' id = funders_at w id →
  nft_ok w id → nft_ok w' id.
Proof. unfold nft_ok, owners_agree. by intros -> -> -> ->. Qed.

Lemma not_nft_same w w' id :
  touches not_nft w w' → nft_at w' id = nft_at w id ∧ owner_at w' id = owner_at w id.
Proof. intros (_ & _ & Hk). unfold nft_at, owner_at. by rewrite !Hk. Qed.

(** A synchronising call leaves its invoice's NFT as wanted. *)
Lemma syncs_ok id (m : IO unit) w w' :
  syncs id m → m w = Done tt w' → wf w' → owners_agree w id → nft_ok w' id.
Proof.
  intros Hm Hx Hw Ha. apply Hm in Hx as (w1 & w2 & H1 & H2 & (_ & _ & H3)).
  assert (owners_agree w1 id) as Ha1.
  { unfold owners_agree. by destruct (not_nft_same _ _ id H1) as [-> ->]. }
  destruct (sync_spec id w1 Ha1) as (w2' & Hs & Ha2 & Ho). rewrite H2 in Hs.
  injection Hs as <-.
  assert (touches nft_key w1 w2) as (_ & _ & Hk2).
  { eapply inner_touches; [apply sync_nft_state_inner; done | exact H2]. }
  assert (lookup_invoice w1 id = invoice_at w' id) as Hi.
  { rewrite <- (wf_lookup _ _ Hw). unfold lookup_invoice. by rewrite !H3, !Hk2. }
  assert (funders_at w1 id = funders_at w' id) as Hf by (unfold funders_at; by rewrite H3, Hk2).
  split.
  - unfold owners_agree, owner_at, nft_at in *. by rewrite !H3.
  - left. rewrite <- Hi, <- Hf, <- Ho. unfold owner_at. by rewrite H3.
Qed.

(** The calls that do not synchronise move between statuses without an NFT, or to
    [Cancelled]. *)
Lemma unsyncing_status c id w w' :
  subject c = Some id → unsyncing c = true → exec c w = Done tt w' → wf w →
  ∃ i i', invoice_at w id = Some i ∧ invoice_at w' id = Some i' ∧
    (i_status i' = Status.Cancelled ∨
     i_status i = Status.Pending ∧ nft_should_exist (i_status i') = false).
Proof.
  intros Hs Hu Hx Hw. destruct c; try done; injection Hs as ->; simpl in Hx.
  - apply update_invoice_edits in Hx as (i & dec & Hp & ? & ? & ? & ? & ? & ? & ? & (? & ? & _)); [| done].
    eexists _, _. split_and!; [done..|]. right. split; [done |]. simpl. by rewrite Hp.
  - apply convert_invoice_token_edits in Hx as (i & Hp & ? & ? & (? & ? & _)); [| done].
    eexists _, _. split_and!; [done..|]. right. split; [done |]. simpl. by rewrite Hp.
  - apply transfer_invoice_edits in Hx as (i & Hp & ? & (? & ? & _)); [| done].
    eexists _, _. split_and!; [done..|]. right. split; [done |]. simpl. by rewrite Hp.
  - apply cancel_invoice_edits in Hx as (i & ? & ? & (? & ? & _)); [| done].
    eexists _, _. split_and!; [done..|]. by left.
  - apply expire_invoice_edits in Hx as (i & Hp & ? & (? & ? & _)); [| done].
    eexists _, _. split_and!; [done..|]. by right.
Qed.

Lemma unsyncing_ok c id w w' :
  subject c = Some id → unsyncing c = true → exec c w = Done tt w' → wf w →
  nft_ok w id → nft_ok w' id.
Proof.
  intros Hs Hu Hx Hw [Ha Hor].
  destruct (not_nft_same w w' id) as [Hn Ho]; [eapply not_nft_frame; eauto |].
  split; [unfold owners_agree; by rewrite Ho, Hn |].
  destruct (unsyncing_status c id w w') as (i & i' & Hi & Hi' & [Hc | [Hp Hne]]); [done..| |].
  - right. eauto.
  - left. rewrite Ho, Hi'. simpl. rewrite Hne. destruct Hor as [-> | (j & Hj & Hc)].
    + rewrite Hi. simpl. by rewrite Hp.
    + simplify_eq. congruence.
Qed.

Lemma submissions_status w w' id i :
  submissions top w w' → invoice_at w' id = Some i →
  invoice_at w id = Some i ∨ i_status i = Status.Pending.
Proof.
  induction 1 as [|j w w1 w2 (Hp & _) (Hj & _ & _ & Hother & _) _ _ _ IH]; [by left |].
  intros Hi. destruct (IH Hi) as [Hi1 | ?]; [| by right].
  destruct (decide (id = next_id w)) as [-> | Hne].
  - right. congruence.
  - left. by rewrite <- Hother.
Qed.

Lemma same_or_new_ok w w' id :
  wf w → same_invoices w w' ∨ submissions top w w' → touches not_nft w w' →
  nft_ok w id → nft_ok w' id.
Proof.
  intros Hw Hor Ht Hok. destruct (not_nft_same _ _ id Ht) as [Hn Ho].
  destruct Hor as [(Hi & Hf & _) | Hs]; [by apply (nft_same w) |].
  destruct (Z.lt_ge_cases id (next_id w)) as [Hlt | Hge].
  - destruct (submissions_old top _ _ id Hs Hlt). by apply (nft_same w).
  - destruct (wf_fresh _ Hw _ Hge) as [Hi _]. destruct Hok as [Ha Hown].
    split; [unfold owners_agree; by rewrite Ho, Hn |]. left. rewrite Ho.
    destruct Hown as [-> | (i & Hi' & _)]; [| congruence]. rewrite Hi.
    destruct (invoice_at w' id) as [i |] eqn:E; [| done].
    destruct (submissions_status _ _ _ _ Hs E) as [? | Hp]; [congruence |].
    simpl. by rewrite Hp.
Qed.

Lemma exec_nft_ok c w w' :
  wf w → typed top c = true → exec c w = Done tt w' →
  (∀ id, nft_ok w id) → ∀ id, nft_ok w' id.
Proof.
  intros Hw Ht Hx Hok id. destruct (subject c) as [sid |] eqn:Hs.
  - destruct (decide (id = sid)) as [-> | Hne].
    + destruct (unsyncing c) eqn:Hu; [by eapply unsyncing_ok |].
      eapply syncs_ok; [by eapply subject_syncs | exact Hx | | apply Hok].
      eapply (evolves_wf top); [| done]. by eapply (exec_evolves _ _ _ _ top).
    + destruct (exec_edits MAX_FEE_TIERS MAX_IDENTITY_ORACLES_PER_FEED MAX_PRICE_SOURCES_PER_FEED gen_range top c sid w w')
        as (i & i' & fs' & (_ & _ & _ & Hi & Hf & _) & _); [done..|].
      pose proof (own_nft_frame c sid Hs _ _ _ Hx) as (_ & _ & Hk).
      apply (nft_same w); [| | by apply Hi | by apply Hf | done];
        unfold nft_at, owner_at; rewrite Hk; by try apply bool_decide_eq_false.
  - apply (same_or_new_ok w); [done | | by eapply not_nft_frame; eauto | done].
    destruct (administrative c) eqn:Hc.
    + left. exact (administrative_same _ _ _ _ c w w' Hc Hx).
    + right. apply (submit_submissions MAX_FEE_TIERS MAX_IDENTITY_ORACLES_PER_FEED MAX_PRICE_SOURCES_PER_FEED gen_range top c);
        [by destruct c | done | done].
Qed.

Lemma run_nft_ok w w' :
  wf w → rtc (step any_call) w w' → (∀ id, nft_ok w id) → ∀ id, nft_ok w' id.
Proof.
  intros Hw Hr. induction Hr as [|w w1 w2 Hs _ IH]; [done |]. intros Hok.
  apply IH; [by eapply step_wf |]. destruct Hs as [c Ht _ Hx | He].
  - by eapply exec_nft_ok.
  - intros id. apply environment_same in He as Hsame. destruct Hsame as (Hi & Hf & _).
    destruct He as (_ & He & _). apply (nft_same w); [| | done | done | done];
      unfold nft_at, owner_at; by rewrite He.
Qed.

(** C20: the NFTs.  From deployment on, through any run of calls, an invoice's NFT
    exists exactly while the invoice is (partially) funded, defaulted, appealed or
    disputed, and belongs to its funder, to the contributor with the largest share,
    or to the freelancer; the only exception is a cancelled invoice.  This is the
    invariant in the status update of ADR-007; [docs/events.md] still says that
    [submit_invoice] mints, but a pending invoice has no NFT. *)
Theorem nfts_follow_invoices w w' id :
  deployed w → rtc (step any_call) w w' →
  owner_at w' id = nft_owner <$> nft_at w' id ∧
  (owner_at w' id = wanted_owner (invoice_at w' id) (funders_at w' id) ∨
   ∃ i, invoice_at w' id = Some i ∧ i_status i = Status.Cancelled).
Proof.
  intros Hd Hr. apply (run_nft_ok w w'); [by apply deployed_wf | exact Hr |].
  intros j. unfold nft_ok, owners_agree, owner_at, nft_at, invoice_at. rewrite !Hd.
  split; [done | by left].
Qed.
End nft.

Module NftWitness.
Import Scenario.

Lemma nfts_follow_invoices_witness : owner_at w_half_paid 1 = Some lp2.
Proof.
  destruct (nfts_follow_invoices 10 5 8 (λ _, 0) i128_max w0 w_half_paid 1) as [_ [Ho | Hc]].
  - intros k. reflexivity.
  - apply life_of_invoice. intros c w. exact I.
  - rewrite Ho. vm_compute. reflexivity.
  - exfalso. destruct Hc as (i & Hi & Hs). revert Hs.
    assert (i_status <$> invoice_at w_half_paid 1 = Some Status.Funded) as Hf
      by (vm_compute; reflexivity).
    rewrite Hi in Hf. injection Hf as ->. discriminate.
Defined.

(** The exception is real.  Cancelling a partially funded invoice leaves its NFT
    with the lead LP, although the invoice no longer exists for the market. *)
Theorem cancelled_nft_survives :
  ∃ w', cancel_invoice 1 w_partial = Done tt w' ∧
    i_status <$> invoice_at w' 1 = Some Status.Cancelled ∧
    owner_at w' 1 = Some lp1 ∧ wanted_owner (invoice_at w' 1) (funders_at w' 1) = None.
Proof.
  exists (commit (cancel_invoice 1 : M W ContractError unit) w_partial).
  split; [refine (run_done _ _ _ _); vm_compute; reflexivity |].
  split; [vm_compute; reflexivity |]. split; vm_compute; reflexivity.
Qed.
End NftWitness.
