(* ===== verification/MultisigProps.v ===== *)
(** Properties of the threshold admin of [Multisig.v]: how a proposal may change,
    that executing one takes a quorum of distinct approvals and happens once, and
    what an interleaved signer rotation does to the signer set. *)
From S2P Require Import Prelude Host Peers CoreTypes TopPayers CoreStore Access TokenSafety Nft.
From S2P Require Import OracleRegistry Pricing ConfigRs Admin Lifecycle Queue Multisig Frames CoreSpecs.
From S2P Require Import Edits System Invariants Guards Footprint Scenario.

Section multisig_props.
Context {X : Type} `{TokenInterface X} `{Peers X}.
Variables (MAX_FEE_TIERS MAX_IDENTITY_ORACLES_PER_FEED MAX_PRICE_SOURCES_PER_FEED : Z)
  (gen_range : Z → Z) (top : Z).
Abbreviation W := (world DataKey X Event).
Abbreviation IO := (M W ContractError).
Abbreviation exec :=
  (exec MAX_FEE_TIERS MAX_IDENTITY_ORACLES_PER_FEED MAX_PRICE_SOURCES_PER_FEED gen_range).
Abbreviation step :=
  (step MAX_FEE_TIERS MAX_IDENTITY_ORACLES_PER_FEED MAX_PRICE_SOURCES_PER_FEED gen_range top).
Implicit Types w : W.

Definition proposal_at w (id : Z) : option MultisigProposal := store w (Key.MultisigProposal id).
Definition config_at w : option MultisigAdmin := store w Key.MultisigAdmin.
Definition next_proposal w : Z := default 1 (store w Key.NextProposalId).

(** [s] is a current signer and signed the call. *)
Definition signer_acts w (s : Address) : Prop :=
  ∃ cfg, config_at w = Some cfg ∧ s ∈ ms_signers cfg ∧ signed w s.

(** How one call may change one proposal. *)
Inductive proposal_step w (id : Z) :
    Call → option MultisigProposal → option MultisigProposal → Prop :=
| prop_same c p : proposal_step w id c p p
| prop_proposed s a :
    signer_acts w s → id = next_proposal w →
    proposal_step w id (Propose s a) (proposal_at w id)
      (Some (mkProposal id a [s] PPending (ledger_seq (ctx w) + MULTISIG_WINDOW_LEDGERS)))
| prop_signed s p :
    signer_acts w s → s ∉ pr_signers_approved p → pr_state p ≠ PExecuted →
    ledger_seq (ctx w) < pr_expires_at p →
    proposal_step w id (SignProposal s id) (Some p) (Some (add_approval s p))
| prop_executed s p cfg :
    signer_acts w s → config_at w = Some cfg → ms_threshold cfg ≤ vlen (pr_signers_approved p) →
    pr_state p ≠ PExecuted → ledger_seq (ctx w) < pr_expires_at p →
    proposal_step w id (ExecuteProposal s id) (Some p) (Some (set_proposal_state PExecuted p)).

(** ** The multisig calls *)
Lemma require_signer_done cfg s u w w' :
  require_signer cfg s w = Done u w' → signed w s ∧ s ∈ ms_signers cfg ∧ w' = w.
Proof.
  intros Hx. unfold require_signer in Hx. minv Hx. rewrite negb_false_iff in *.
  unfold is_signer in *. by bools.
Qed.
Lemma load_config_done cfg w w' :
  load_config w = Done cfg w' → config_at w = Some cfg ∧ w' = w.
Proof. intros Hx. unfold load_config in Hx. by minv Hx. Qed.
Lemma load_live_done id p w w' :
  load_live_proposal id w = Done p w' →
  proposal_at w id = Some p ∧ pr_state p ≠ PExecuted ∧ ledger_seq (ctx w) < pr_expires_at p ∧ w' = w.
Proof.
  intros Hx. unfold load_live_proposal, is_expired in Hx. minv Hx. by bools.
Qed.

Lemma sign_spec s id w w' :
  sign s id w = Done tt w' →
  ∃ p, signer_acts w s ∧ proposal_at w id = Some p ∧ (s ∉ pr_signers_approved p) ∧
    pr_state p ≠ PExecuted ∧ ledger_seq (ctx w) < pr_expires_at p ∧
    w' = with_store (st_set (store w) (Key.MultisigProposal id) (Some (add_approval s p))) w.
Proof.
  intros Hx. unfold sign in Hx.
  apply bind_done in Hx as (cfg & ? & [Hc ->]%load_config_done & Hx).
  apply bind_done in Hx as (? & ? & (Hs & Hin & ->)%require_signer_done & Hx).
  apply bind_done in Hx as (p & ? & (Hp & He & Hl & ->)%load_live_done & Hx).
  minv Hx. exists p. unfold has_signed in *. bools. split_and!; try done. by exists cfg.
Qed.

Lemma execute_spec s id a w w' :
  execute s id w = Done a w' →
  ∃ p cfg, signer_acts w s ∧ config_at w = Some cfg ∧ proposal_at w id = Some p ∧
    ms_threshold cfg ≤ vlen (pr_signers_approved p) ∧ a = pr_action p ∧
    pr_state p ≠ PExecuted ∧ ledger_seq (ctx w) < pr_expires_at p ∧
    proposal_at w' id = Some (set_proposal_state PExecuted p) ∧
    (∀ j, j ≠ id → proposal_at w' j = proposal_at w j) ∧
    config_at w' = config_at w ∧ next_proposal w' = next_proposal w.
Proof.
  intros Hx. unfold execute in Hx.
  apply bind_done in Hx as (cfg & ? & [Hc ->]%load_config_done & Hx).
  apply bind_done in Hx as (? & ? & (Hs & Hin & ->)%require_signer_done & Hx).
  apply bind_done in Hx as (p & ? & (Hp & He & Hl & ->)%load_live_done & Hx).
  minv Hx. rewrite negb_false_iff in *. unfold threshold_reached in *. bools.
  exists p, cfg. unfold proposal_at, config_at, next_proposal. simpl.
  split_and!; try done; intros; try (by sto). by exists cfg.
Qed.

(** The rest of a call after [execute] leaves proposals alone. *)
Definition not_proposal (k : DataKey) : bool :=
  match k with Key.MultisigProposal _ | Key.NextProposalId => false | _ => true end.

(** ... nor the configuration. *)
Definition config_kept (k : DataKey) : bool :=
  match k with Key.MultisigAdmin => false | _ => true end.

Lemma not_proposal_same w w' id :
  touches not_proposal w w' →
  proposal_at w' id = proposal_at w id ∧ next_proposal w' = next_proposal w.
Proof. intros (_ & _ & Hk). unfold proposal_at, next_proposal. by rewrite !Hk. Qed.

Lemma propose_spec s a id w w' :
  propose s a w = Done id w' →
  signer_acts w s ∧ id = next_proposal w ∧ next_proposal w' = next_proposal w + 1 ∧
  proposal_at w' id =
    Some (mkProposal id a [s] PPending (ledger_seq (ctx w) + MULTISIG_WINDOW_LEDGERS)) ∧
  (∀ j, j ≠ id → proposal_at w' j = proposal_at w j) ∧ config_at w' = config_at w.
Proof.
  intros Hx. unfold propose in Hx.
  apply bind_done in Hx as (cfg & ? & [Hc ->]%load_config_done & Hx).
  apply bind_done in Hx as (? & ? & (Hs & Hin & ->)%require_signer_done & Hx).
  unfold proposal_at, next_proposal, config_at.
  minv Hx; bools; split_and!; try (by exists cfg); intros; sto; done.
Qed.

Lemma execute_proposal_spec s id w w' :
  execute_proposal s id w = Done tt w' →
  ∃ p cfg, signer_acts w s ∧ config_at w = Some cfg ∧ proposal_at w id = Some p ∧
    ms_threshold cfg ≤ vlen (pr_signers_approved p) ∧
    pr_state p ≠ PExecuted ∧ ledger_seq (ctx w) < pr_expires_at p ∧
    proposal_at w' id = Some (set_proposal_state PExecuted p) ∧
    (∀ j, j ≠ id → proposal_at w' j = proposal_at w j) ∧ is_Some (config_at w') ∧
    next_proposal w' = next_proposal w.
Proof.
  intros Hx. unfold execute_proposal in Hx.
  apply bind_done in Hx as (a & w1 & (p & cfg & Hs & Hc & Hp & Hth & -> & He & Hl & Hp1 & Hj & Hc1 & Hn)
    %execute_spec & Hx).
  assert (touches not_proposal w1 w' ∧ is_Some (config_at w')) as [Ht Hsome].
  { destruct (pr_action p) as [| | | | | signers threshold | old new];
      unfold set_paused, delist_token, schedule_rotation, load_config in Hx.
    6: { minv Hx. split; [by apply touches_st_set | unfold config_at; simpl; sto; eauto]. }
    all: pose proof Hx as Hx2; note_frame not_proposal Hx2; split; [exact Hx2 |].
    all: note_frame config_kept Hx; destruct Hx as (_ & _ & Hk).
    all: unfold config_at in *; rewrite Hk, Hc1 by done; by eexists. }
  exists p, cfg. split_and!; try done.
  - rewrite <- Hp1. by apply not_proposal_same.
  - intros j Hne. rewrite <- (Hj j Hne). by apply not_proposal_same.
  - rewrite <- Hn. by apply (not_proposal_same w1 w' 0).
Qed.

(** ** Every call *)
Lemma outside_multisig_same w w' id :
  touches outside_multisig w w' →
  proposal_at w' id = proposal_at w id ∧ next_proposal w' = next_proposal w ∧
  config_at w' = config_at w.
Proof. intros (_ & _ & Hk). unfold proposal_at, next_proposal, config_at. by rewrite !Hk. Qed.

Lemma rotation_calls_same c w w' id :
  (∃ s, c = FinalizeSignerRotation s ∨ c = CancelSignerRotation s) → exec c w = Done tt w' →
  proposal_at w' id = proposal_at w id ∧ next_proposal w' = next_proposal w ∧
  (is_Some (config_at w) → is_Some (config_at w')).
Proof.
  intros (s & [-> | ->]) Hx; simpl in Hx;
    unfold finalize_signer_rotation, cancel_signer_rotation, finalize_rotation, cancel_rotation,
      load_config, require_signer in Hx.
  - pose proof Hx as Ht. note_frame not_proposal Ht.
    destruct (not_proposal_same _ _ id Ht). split_and!; [done..|]. intros _.
    unfold config_at. minv Hx; sto; by eexists.
  - pose proof Hx as Ht. note_frame not_proposal Ht. note_frame config_kept Hx.
    destruct (not_proposal_same _ _ id Ht). split_and!; [done..|].
    unfold config_at. destruct Hx as (_ & _ & Hk). by rewrite Hk.
Qed.

Lemma exec_proposal_step c id w w' :
  exec c w = Done tt w' → proposal_step w id c (proposal_at w id) (proposal_at w' id).
Proof.
  intros Hx. destruct (multisig_call c) eqn:Hm.
  2: { apply multisig_frame in Hx; [| done].
       destruct (outside_multisig_same _ _ id Hx) as [-> _]. constructor. }
  destruct c; try done; simpl in Hx.
  - unfold initialize_multisig in Hx.
    assert (proposal_at w' id = proposal_at w id) as ->; [| constructor].
    unfold proposal_at. minv Hx; by sto.
  - apply ignore_done in Hx as [j (Hs & -> & _ & Hp & Hj & _)%propose_spec].
    destruct (decide (id = next_proposal w)) as [-> | Hne].
    + rewrite Hp. by constructor.
    + rewrite Hj by done. constructor.
  - apply sign_spec in Hx as (p & Hs & Hp & Hn & He & Hl & ->).
    destruct (decide (id = proposal_id)) as [-> | Hne].
    + rewrite Hp. unfold proposal_at. simpl. sto. by constructor.
    + unfold proposal_at. simpl. sto. constructor.
  - apply execute_proposal_spec in Hx as (p & cfg & Hs & Hc & Hp & Hth & He & Hl & Hp' & Hj & _).
    destruct (decide (id = proposal_id)) as [-> | Hne].
    + rewrite Hp, Hp'. by econstructor.
    + rewrite Hj by done. constructor.
  - apply (rotation_calls_same (FinalizeSignerRotation caller) w w' id) in Hx as [-> _]; [| eauto].
    constructor.
  - apply (rotation_calls_same (CancelSignerRotation caller) w w' id) in Hx as [-> _]; [| eauto].
    constructor.
Qed.

(** ** The run invariant *)
Definition proposals_ok w : Prop :=
  (config_at w = None → ∀ id, proposal_at w id = None) ∧
  ∀ id p, proposal_at w id = Some p →
    id < next_proposal w ∧ NoDup (pr_signers_approved p) ∧ pr_signers_approved p ≠ [].

(** The counter and the presence of a configuration only grow. *)
Lemma exec_counter c w w' :
  exec c w = Done tt w' →
  (is_Some (config_at w) → is_Some (config_at w')) ∧
  (next_proposal w ≤ next_proposal w' ∨ config_at w = None) ∧
  (∀ s a, c = Propose s a → next_proposal w' = next_proposal w + 1 ∧ is_Some (config_at w)).
Proof.
  intros Hx. destruct (multisig_call c) eqn:Hm.
  2: { apply multisig_frame in Hx; [| done].
       destruct (outside_multisig_same _ _ 0 Hx) as (_ & -> & ->). split_and!; [done | left; lia |].
       by intros ? ? ->. }
  destruct c; try done; simpl in Hx.
  - unfold initialize_multisig in Hx. unfold config_at, next_proposal. minv Hx. bools.
    split_and!; [done | right; by apply eq_None_not_Some | done].
  - apply ignore_done in Hx as [j ((cfg & Hc & _) & _ & Hn & _ & _ & ->)%propose_spec].
    rewrite Hn, Hc. split_and!; [done | left; lia | by eauto].
  - apply sign_spec in Hx as (p & _ & _ & _ & _ & _ & ->).
    unfold config_at, next_proposal. simpl. sto. split_and!; [done | left; lia | done].
  - apply execute_proposal_spec in Hx as (p & cfg & _ & _ & _ & _ & _ & _ & _ & _ & ? & ->).
    split_and!; [done | left; lia | done].
  - apply (rotation_calls_same (FinalizeSignerRotation caller) w w' 0) in Hx as (_ & -> & ?);
      [| eauto]. split_and!; [done | left; lia | done].
  - apply (rotation_calls_same (CancelSignerRotation caller) w w' 0) in Hx as (_ & -> & ?);
      [| eauto]. split_and!; [done | left; lia | done].
Qed.

Lemma exec_proposals_ok c w w' : exec c w = Done tt w' → proposals_ok w → proposals_ok w'.
Proof.
  intros Hx [Hnone Hok]. destruct (exec_counter c w w' Hx) as (Hgrow & Hnext & Hprop).
  assert (∀ id p, proposal_at w id = Some p → id < next_proposal w') as Hbound.
  { intros id p Hp. destruct Hnext as [Hle | Hc]; [| by rewrite Hnone in Hp].
    destruct (Hok id p Hp). lia. }
  split.
  - intros Hc id. assert (config_at w = None) as Hc0.
    { apply eq_None_not_Some. intros Hs%Hgrow. rewrite Hc in Hs. by destruct Hs. }
    pose proof (exec_proposal_step c id w w' Hx) as Hstep. rewrite (Hnone Hc0 id) in Hstep.
    inversion Hstep; try congruence.
    rename select (signer_acts _ _) into Hs. destruct Hs as (cfg & Hcfg & _). congruence.
  - intros id p' Hp'. pose proof (exec_proposal_step c id w w' Hx) as Hstep.
    rewrite Hp' in Hstep. inversion Hstep; simplify_eq.
    2: { edestruct Hprop as [-> _]; [done |]. simpl. split_and!;
           [lia | apply NoDup_singleton | done]. }
    all: match goal with
         | Hp : proposal_at _ _ = Some _ |- _ =>
             pose proof (Hbound _ _ Hp); destruct (Hok _ _ Hp) as (_ & Hnd & Hne)
         | Hp : Some _ = proposal_at _ _ |- _ =>
             pose proof (Hbound _ _ (eq_sym Hp)); destruct (Hok _ _ (eq_sym Hp)) as (_ & Hnd & Hne)
         end.
    1, 3: done.
    simpl. split_and!; [done | | by destruct (pr_signers_approved p)].
    apply list.NoDup_app. split_and!; [done | | apply NoDup_singleton].
    by intros x Hx1 ->%list_elem_of_singleton.
Qed.

Lemma run_proposals_ok w w' : rtc (step any_call) w w' → proposals_ok w → proposals_ok w'.
Proof.
  induction 1 as [|w w1 w2 Hs _ IH]; [done |]. intros Hok. apply IH.
  destruct Hs as [c _ _ Hx | (_ & Hs & _)]; [by eapply exec_proposals_ok |].
  revert Hok. unfold proposals_ok, config_at, proposal_at, next_proposal. by rewrite Hs.
Qed.

(** C21: the proposal lifecycle.  A call changes a proposal only by proposing it anew
    with the proposer's approval, by adding the approval of a current signer who signs
    the call and had not approved, or by marking it executed, and the last two only
    while it is neither executed nor expired. *)
Theorem proposal_lifecycle c id w w' :
  exec c w = Done tt w' → proposal_step w id c (proposal_at w id) (proposal_at w' id).
Proof. apply exec_proposal_step. Qed.

(** C22: quorum.  On any run from deployment, a proposal that is executed had not been
    executed, has not expired, and carries approvals of at least [threshold] distinct
    addresses; a current signer signed the execution. *)
Theorem execution_needs_quorum w0 w w' s id :
  deployed w0 → rtc (step any_call) w0 w → exec (ExecuteProposal s id) w = Done tt w' →
  ∃ p cfg, proposal_at w id = Some p ∧ config_at w = Some cfg ∧
    NoDup (pr_signers_approved p) ∧ ms_threshold cfg ≤ vlen (pr_signers_approved p) ∧
    pr_state p ≠ PExecuted ∧ ledger_seq (ctx w) < pr_expires_at p ∧
    s ∈ ms_signers cfg ∧ signed w s ∧
    proposal_at w' id = Some (set_proposal_state PExecuted p).
Proof.
  intros Hd Hr Hx.
  assert (proposals_ok w) as [_ Hok].
  { eapply run_proposals_ok; [exact Hr |]. unfold proposals_ok, proposal_at, config_at.
    split; [by intros; rewrite Hd |]. intros j p. by rewrite Hd. }
  simpl in Hx.
  apply execute_proposal_spec in Hx as (p & cfg & (cfg' & Hc' & Hin & Hs) & Hc & Hp & Hth & He & Hl & Hp' & _).
  simplify_eq. destruct (Hok _ _ Hp) as (_ & Hnd & _). exists p, cfg'. by split_and!.
Qed.

(** An executed proposal is final. *)
Lemma executed_stays c id p w w' :
  exec c w = Done tt w' → proposals_ok w → proposal_at w id = Some p → pr_state p = PExecuted →
  proposal_at w' id = Some p.
Proof.
  intros Hx [_ Hok] Hp He. pose proof (exec_proposal_step c id w w' Hx) as Hstep.
  rewrite Hp in Hstep. destruct (Hok _ _ Hp) as [Hlt _].
  inversion Hstep; simplify_eq; try done. lia.
Qed.

(** At most once.  Once a proposal is executed, no later call on any run changes it,
    and executing or signing it again fails. *)
Theorem executed_once w w' id p :
  proposals_ok w → rtc (step any_call) w w' →
  proposal_at w id = Some p → pr_state p = PExecuted →
  proposal_at w' id = Some p ∧
  ∀ s w'', exec (ExecuteProposal s id) w' ≠ Done tt w'' ∧ exec (SignProposal s id) w' ≠ Done tt w''.
Proof.
  intros Hok Hr Hp He.
  assert (proposal_at w' id = Some p) as Hp'.
  { induction Hr as [|w w1 w2 Hs _ IH]; [done |]. apply IH.
    - eapply run_proposals_ok; [eapply rtc_once; exact Hs | done].
    - destruct Hs as [c _ _ Hx | (_ & Hs & _)]; [by eapply executed_stays |].
      unfold proposal_at in *. by rewrite Hs. }
  split; [done |]. intros s w''. split; intros Hx; simpl in Hx.
  - apply execute_proposal_spec in Hx as (q & cfg & _ & _ & Hq & _ & Hne & _). congruence.
  - apply sign_spec in Hx as (q & _ & Hq & _ & Hne & _). congruence.
Qed.
End multisig_props.

Module MultisigWitness.
Import Scenario.
Definition s1 : Address := 50%N.
Definition s2 : Address := 51%N.
Definition s3 : Address := 52%N.

(** A 2-of-2 admin raises the fee. *)
Definition w_ms : W := commit (run (InitializeMultisig [s1; s2] 2)) w_ready.
Definition w_prop : W := commit (run (Propose s1 (SetFeeRate 150))) w_ms.
Definition w_sign : W := commit (run (SignProposal s2 1)) w_prop.
Definition w_exec : W := commit (run (ExecuteProposal s1 1)) w_sign.
Lemma ms_run : run (InitializeMultisig [s1; s2] 2) w_ready = Done tt w_ms.
Proof. committed. Qed.
Lemma prop_run : run (Propose s1 (SetFeeRate 150)) w_ms = Done tt w_prop.
Proof. committed. Qed.
Lemma sign_run : run (SignProposal s2 1) w_prop = Done tt w_sign.
Proof. committed. Qed.
Lemma exec_run : run (ExecuteProposal s1 1) w_sign = Done tt w_exec.
Proof. committed. Qed.
Example too_few : fault_of (run (ExecuteProposal s1 1)) w_prop = Some (Code Err.ThresholdNotReached).
Proof. vm_compute. reflexivity. Qed.

Lemma sign_steps : rtc (step any_call) w0 w_sign.
Proof.
  eapply rtc_l; [by eapply step_call, ready_run |]. eapply rtc_l; [by eapply step_call, ms_run |].
  eapply rtc_l; [by eapply step_call, prop_run |]. eapply rtc_l; [by eapply step_call, sign_run |].
  done.
Qed.
Definition sample : MultisigProposal := mkProposal 0 Pause [] PPending 0.
Definition prop1 (w : W) : MultisigProposal := default sample (proposal_at w 1).

Lemma proposal_lifecycle_witness :
  proposal_step w_prop 1 (SignProposal s2 1) (proposal_at w_prop 1) (proposal_at w_sign 1) ∧
  pr_signers_approved (prop1 w_sign) = [s1; s2].
Proof.
  split; [| vm_compute; reflexivity].
  exact (proposal_lifecycle 10 5 8 (λ _, 0) (SignProposal s2 1) 1 w_prop w_sign sign_run).
Defined.

Lemma execution_needs_quorum_witness :
  ∃ p cfg, proposal_at w_sign 1 = Some p ∧ config_at w_sign = Some cfg ∧
    NoDup (pr_signers_approved p) ∧ ms_threshold cfg ≤ vlen (pr_signers_approved p) ∧
    pr_state p ≠ PExecuted ∧ ledger_seq (ctx w_sign) < pr_expires_at p ∧
    s1 ∈ ms_signers cfg ∧ signed w_sign s1 ∧
    proposal_at w_exec 1 = Some (set_proposal_state PExecuted p).
Proof.
  apply (execution_needs_quorum 10 5 8 (λ _, 0) i128_max w0 w_sign w_exec s1 1).
  - intros k. reflexivity.
  - exact sign_steps.
  - exact exec_run.
Defined.

Lemma executed_once_witness :
  pr_state (prop1 w_exec) = PExecuted ∧ proposal_at w_exec 1 = Some (prop1 w_exec).
Proof.
  split; [vm_compute; reflexivity |].
  apply (executed_once 10 5 8 (λ _, 0) i128_max w_exec w_exec 1 (prop1 w_exec)).
  - eapply run_proposals_ok; [eapply rtc_r; [exact sign_steps | by eapply step_call, exec_run] |].
    split; [intros _ id; reflexivity |]. intros id p Hp. discriminate.
  - apply rtc_refl.
  - vm_compute. reflexivity.
  - vm_compute. reflexivity.
Defined.

(** ** Rotation against reconfiguration

    [s2] is to be replaced by [s3]; while the timelock runs, a second proposal sets
    the signers to [s2; s3] itself, and the rotation is then finalized. *)
Definition calls : list Call :=
  [ Propose s1 (RotateSigner s2 s3); SignProposal s2 1; ExecuteProposal s1 1;
    Propose s1 (UpdateMultisig [s2; s3] 2); SignProposal s2 2; ExecuteProposal s1 2 ].
Definition run_all (cs : list Call) (w : W) : W := foldl (λ w c, commit (run c) w) w cs.
Definition w_race : W :=
  let w := run_all calls w_ms in
  commit (run (FinalizeSignerRotation s3))
    (with_ctx (mkCtx (auth (ctx w)) (now (ctx w)) (ledger_seq (ctx w) + 40000)) w).

(** A lockout.  [finalize_rotation] does not check the configuration it writes: a
    rotation finalized after an interleaved [UpdateMultisig] leaves [s3] as both
    signers of a 2-of-2 admin, so no proposal can ever reach the threshold again. *)
Theorem rotation_lockout :
  config_at w_race = Some (mkMultisigAdmin [s3; s3] 2) ∧
  is_valid_config [s3; s3] 2 = false ∧
  ∀ approvals, NoDup approvals → approvals ⊆ [s3; s3] → vlen approvals < 2.
Proof.
  split; [vm_compute; reflexivity |]. split; [reflexivity |].
  intros approvals Hn Hsub.
  assert (length approvals ≤ length [s3])%nat as Hl.
  { apply submseteq_length, NoDup_submseteq; [done |]. intros x Hx%Hsub. set_solver. }
  unfold vlen. simpl in Hl. lia.
Qed.
End MultisigWitness.
