(* ===== verification/GovTypes.v ===== *)
(** Data of the governance contract, [src/contracts/iln_governance/src/lib.rs]: its
    errors, proposals, events and storage schema.

    The source uses several error variants and storage keys its enums do not
    declare ([ProposalCancelled], [VoteReceipt], [BalanceCheckpoint], ...); they are
    constructors here. *)
From S2P Require Import Prelude Host.

Definition DEFAULT_MIN_QUORUM_BPS : Z := 1000.
Definition VOTING_PERIOD_SECS : Z := 259200.
Definition DEFAULT_MIN_PROPOSAL_BALANCE : Z := 1000.
Definition DEFAULT_PROPOSAL_DEPOSIT : Z := 0.
Definition MIN_VOTE_HOLD_LEDGERS : Z := 10.
Definition MAX_EXECUTION_DELAY_LEDGERS : Z := 518400.
Definition DEFAULT_MAX_DELEGATION_DEPTH : Z := 10.
Definition MIN_PRODUCTION_EXECUTION_DELAY_LEDGERS : Z := 17280.

Module GErr.
Inductive GovernanceError :=
| AlreadyInitialized | ProposalNotFound | VotingEnded | ProposalNotActive | NoVotingPower
| AlreadyVoted | VotingOngoing | QuorumNotReached | ProposalRejected | AlreadyResolved
| CannotDelegateToSelf | DelegationCyclePrevented | TimelockNotExpired | Unauthorized
| InvalidQuorumBps | NotAdmin | NotVetoable | VetoPowerDisabled | InsufficientProposerBalance
| ExecutionFailed | MaxDelegationDepthExceeded | VetoMultisigNotConfigured | NotVetoSigner
| VetoAlreadyApproved | InvalidVetoMultisigConfig | InvalidProposalDeposit
| DepositAlreadySettled | NotInitialized | InvalidStateTransition | InvalidTimelock
| InvalidExecutionDelay
| ProposalStorageCorrupt | SnapshotLedgerMissing | ExecutionDelayOutOfBounds
| ProposalCancelled | ProposalAlreadyExecuted | InvalidVoteAccounting | QuorumDataMissing
| ConsentRequired | InvalidVetoTransition | VetoPowerAlreadyDisabled
| ProposerIdentityMismatch | InsufficientHoldingPeriod.
End GErr.
Abbreviation GovernanceError := GErr.GovernanceError.

Inductive GovFeedType := Price | Identity | Credit.
#[export] Instance GovFeedType_eq_dec : EqDecision GovFeedType.
Proof. solve_decision. Defined.

Record FeeTierConfig : Type := mkFeeTier { min_amount : Z; fee_rate_bps : Z }.
#[export] Instance FeeTierConfig_eq_dec : EqDecision FeeTierConfig.
Proof. solve_decision. Defined.

Inductive ProposalAction :=
| UpdateFeeRate (rate : Z)
| AddToken (token : Address) (decimals : Z)
| RemoveToken (token : Address)
| UpdateMaxDiscountRate (rate : Z)
| UpdateDecayParams (rate_bps period_ledgers : Z)
| UpdateDistributionRewardParams (half_token hundred_usdc_stroops lp_multiplier : Z)
| UpdateFeeTiers (tiers : list FeeTierConfig)
| Upgrade (new_wasm_hash : BytesN32)
| UpdateLpRewardRate (rate : Z)
| UpdateFreelancerRewardRate (rate : Z)
| UpdatePayerRewardRate (rate : Z)
| UpdateInsuranceCoverageCap (cap : Z)
| UpdateInsurancePremiumRate (rate : Z)
| RegisterOracle (feed_type : GovFeedType) (oracle : Address)
| RemoveOracle (feed_type : GovFeedType)
| RegisterTokenOracle (feed_type : GovFeedType) (token oracle : Address)
| UpdateReputationBonusParams (high_rep_threshold bonus_bps min_discount_rate_bps : Z)
| UpdateMaxInvoiceAmount (cap : Z)
| UpdateTokenVolumeCap (token : Address) (cap : Z).

(** [action_kind]: the discriminant of an action. *)
Definition action_kind (action : ProposalAction) : Z :=
  match action with
  | UpdateFeeRate _ => 0 | AddToken _ _ => 1 | RemoveToken _ => 2
  | UpdateMaxDiscountRate _ => 3 | UpdateDecayParams _ _ => 4
  | UpdateDistributionRewardParams _ _ _ => 5 | UpdateFeeTiers _ => 6 | Upgrade _ => 7
  | UpdateLpRewardRate _ => 8 | UpdateFreelancerRewardRate _ => 9
  | UpdatePayerRewardRate _ => 10 | UpdateInsuranceCoverageCap _ => 11
  | UpdateInsurancePremiumRate _ => 12 | RegisterOracle _ _ => 13 | RemoveOracle _ => 14
  | RegisterTokenOracle _ _ _ => 15 | UpdateReputationBonusParams _ _ _ => 16
  | UpdateMaxInvoiceAmount _ => 17 | UpdateTokenVolumeCap _ _ => 18
  end.

Inductive ProposalStatus := Active | Passed | Rejected | Executed | Vetoed.
#[export] Instance ProposalStatus_eq_dec : EqDecision ProposalStatus.
Proof. solve_decision. Defined.

Record GovernanceProposal : Type := mkGovProposal {
  gp_id : Z; gp_proposer : Address; gp_description_hash : BytesN32;
  gp_action_type : ProposalAction; gp_proposed_value : Z; gp_status : ProposalStatus;
  gp_votes_for : Z; gp_votes_against : Z; gp_created_at : Z; gp_voting_end : Z;
  gp_eta_ledger : Z
}.
Definition set_gov_status (s : ProposalStatus) (p : GovernanceProposal) : GovernanceProposal :=
  mkGovProposal (gp_id p) (gp_proposer p) (gp_description_hash p) (gp_action_type p)
    (gp_proposed_value p) s (gp_votes_for p) (gp_votes_against p) (gp_created_at p)
    (gp_voting_end p) (gp_eta_ledger p).
Definition set_votes (yes no : Z) (p : GovernanceProposal) : GovernanceProposal :=
  mkGovProposal (gp_id p) (gp_proposer p) (gp_description_hash p) (gp_action_type p)
    (gp_proposed_value p) (gp_status p) yes no (gp_created_at p)
    (gp_voting_end p) (gp_eta_ledger p).
Definition set_eta (eta : Z) (p : GovernanceProposal) : GovernanceProposal :=
  mkGovProposal (gp_id p) (gp_proposer p) (gp_description_hash p) (gp_action_type p)
    (gp_proposed_value p) (gp_status p) (gp_votes_for p) (gp_votes_against p)
    (gp_created_at p) (gp_voting_end p) eta.

(** [is_legal_transition]: the forward edges of the proposal lifecycle. *)
Definition is_legal_transition (from to : ProposalStatus) : bool :=
  match from, to with
  | Active, Passed | Active, Rejected | Active, Vetoed | Passed, Executed | Passed, Vetoed => true
  | _, _ => false
  end.

Record TimelockStatus : Type := mkTimelock {
  execution_delay : Z; veto_enabled : bool; veto_signer_count : Z; veto_threshold : Z
}.
Record Checkpoint : Type := mkCheckpoint { cp_balance : Z; cp_ledger : Z }.

Inductive VetoStatus := Uninitiated | Pending | VetoExecuted.
#[export] Instance VetoStatus_eq_dec : EqDecision VetoStatus.
Proof. solve_decision. Defined.
Record VetoState : Type := mkVetoState {
  vs_status : VetoStatus; vs_approvals_count : Z; vs_threshold : Z; vs_reason_hash : BytesN32
}.
Record VetoDisableRecord : Type := mkVetoDisable {
  authorized_by : Address; disabled_at_ledger : Z; disable_reason_hash : BytesN32
}.
Inductive RejectionReason := LowQuorum | MajorityAgainst.

(** * Storage *)
Module GKey.
Inductive StorageKey :=
| IlnContract | GovToken | MinQuorumBps | GovTokenTotalSupply
| Proposal (id : Z) | ProposalCount
| VoteWeightSnapshot (id : Z) (a : Address)
| HasVoted (id : Z) (a : Address)
| QuadraticVotingEnabled
| AppliedVoteWeight (id : Z) (a : Address)
| Delegation (a : Address) | DelegatedToMe (a : Address)
| ExecutionDelay | Admin | MaxDelegationDepth | VetoPowerEnabled | MinProposalBalance
| DistributionContract | ReputationBonusContract | VetoSigners | VetoThreshold
| VetoApprovals (id : Z)
| MinProposalDeposit | ProposalDepositSink
| ProposalDeposit (id : Z) | ProposalDepositSettled (id : Z)
| LastExecuted (kind : Z)
| ProposalCreatedLedger (id : Z)
| BalanceCheckpoint (a : Address) | PriorBalanceCheckpoint (a : Address)
| ProposalProposer (id : Z)
| VoteReceipt (id : Z) (a : Address)
| VetoState (id : Z) | VetoApprovalReceipt (id : Z) (a : Address) | VetoReasonHash (id : Z)
| VetoDisableRecord | ProposalExecutedRecord (id : Z) | ExecutionNonce
| Delegators (a : Address).
End GKey.
Abbreviation GovKey := GKey.StorageKey.

#[export] Instance GovKey_eq_dec : EqDecision GovKey.
Proof. solve_decision. Defined.

(** [ProposalDepositSink] is written as an [Option<Address>]. *)
Definition gov_entry (k : GovKey) : Type :=
  match k with
  | GKey.IlnContract | GKey.GovToken | GKey.Admin | GKey.DistributionContract
  | GKey.ReputationBonusContract | GKey.Delegation _ | GKey.ProposalProposer _ => Address
  | GKey.Proposal _ => GovernanceProposal
  | GKey.HasVoted _ _ | GKey.QuadraticVotingEnabled | GKey.VetoPowerEnabled
  | GKey.ProposalDepositSettled _ | GKey.VetoApprovalReceipt _ _
  | GKey.ProposalExecutedRecord _ => bool
  | GKey.VetoSigners | GKey.VetoApprovals _ | GKey.Delegators _ => list Address
  | GKey.ProposalDepositSink => option Address
  | GKey.LastExecuted _ => Z * Z
  | GKey.BalanceCheckpoint _ | GKey.PriorBalanceCheckpoint _ => Checkpoint
  | GKey.VetoState _ => VetoState
  | GKey.VetoReasonHash _ => BytesN32
  | GKey.VetoDisableRecord => VetoDisableRecord
  | _ => Z
  end.
#[export] Instance GovKey_schema : Schema GovKey := {| val := gov_entry |}.

(** * Events *)
Module GEv.
Inductive Event :=
| VoteCast (proposal_id : Z) (voter : Address) (support : bool) (weight : Z)
| VotesDelegated (delegator delegate : Address)
| VotesUndelegated (delegator : Address)
| ProposalExecuted (proposal_id : Z) (action_type : ProposalAction)
    (proposed_value votes_for votes_against : Z)
| ProposalExecutionFailed (proposal_id : Z) (action_type : ProposalAction)
| ProposalRejectedEvent (proposal_id : Z) (reason : RejectionReason)
    (votes_for votes_against quorum : Z)
| ProposalVetoed (proposal_id : Z) (admin : Address) (reason_hash : BytesN32)
| ProposalCreated (proposal_id : Z) (proposer : Address) (action_type : ProposalAction)
    (proposed_value voting_end : Z)
| GovernanceInitialized (iln_contract gov_token admin : Address)
| GovernanceParameterUpdated (param_name : Symbol) (old_value new_value : Z)
| MaxDelegationDepthUpdated (old_value new_value : Z)
| VetoPowerDisabled (disabled_by : Address)
| VetoDisableRecorded (authorized_by : Address) (disabled_at_ledger : Z) (reason_hash : BytesN32)
| VetoStateTransition (proposal_id : Z) (previous_status new_status : VetoStatus)
    (approvals_count threshold : Z)
| VetoMultisigConfigured (signers : list Address) (threshold : Z)
| ProposalDepositEscrowed (proposal_id : Z) (proposer : Address) (amount : Z)
| ProposalDepositRefunded (proposal_id : Z) (proposer : Address) (amount : Z)
| ProposalDepositForfeited (proposal_id : Z) (proposer : Address) (amount : Z)
    (sink : option Address)
| VetoApproved (proposal_id : Z) (signer : Address) (approvals threshold : Z).
End GEv.
Abbreviation GovEvent := GEv.Event.

(** * The contracts a proposal calls

    [gov_remote x target func action] is [try_invoke_contract] on [target] with the
    fields of [action] as arguments: [None] when the callee traps or returns an
    error, in which case the host rolls it back; otherwise whether the value it
    returned decodes as [()], with its effects. *)
Class GovPeers (X : Type) : Type := {
  gov_remote : Address → Symbol → ProposalAction → X → option (bool * X)
}.
