(* ===== verification/Governance.v ===== *)
(** The governance contract, [src/contracts/iln_governance/src/lib.rs]: proposals and
    their deposits, vote checkpoints and votes, delegation, the timelock, the veto
    multisig, and execution through cross-contract calls. *)
From S2P Require Import Prelude Host GovTypes.

(** [isqrt]: floor square root by binary search.  [None] is an exhausted fuel. *)
Fixpoint isqrt_loop (fuel : nat) (n lo hi : Z) : option Z :=
  match fuel with
  | O => None
  | S fuel =>
      if lo <? hi then
        let mid := sat_i128 (lo + sat_i128 (sat_i128 (hi - lo) + 1) ÷ 2) in
        match chk_i128 (mid * mid) with
        | Some sq => if sq <=? n then isqrt_loop fuel n mid hi
                     else isqrt_loop fuel n lo (sat_i128 (mid - 1))
        | None => isqrt_loop fuel n lo (sat_i128 (mid - 1))
        end
      else Some lo
  end.
(** An [i128] interval halves at each step: 129 rounds are enough. *)
Definition isqrt (n : Z) : option Z :=
  if n <=? 1 then Some (Z.max n 0) else isqrt_loop 129 n 0 n.

(** [compute_eta]: [sequence + delay], wrapping, never 0. *)
Definition compute_eta (sequence delay : Z) : Z :=
  let eta := (sequence + delay) mod 2 ^ 32 in if eta =? 0 then 1 else eta.

(** The pairwise comparison of [configure_veto_multisig]. *)
Fixpoint repeats (signers : list Address) : bool :=
  match signers with
  | [] => false
  | s :: rest => bool_decide (s ∈ rest) || repeats rest
  end.

(** ** The delegation graph, read off storage *)
Definition delegate_of (s : storage GovKey) (a : Address) : option Address :=
  s (GKey.Delegation a).
Definition delegators_of (s : storage GovKey) (a : Address) : list Address :=
  default [] (s (GKey.Delegators a)).

(** The cycle walk of [delegate_votes]: [n] hops are still allowed. *)
Fixpoint cycle_walk (n : nat) (s : storage GovKey) (delegator : Address)
    (cursor : option Address) : option GovernanceError :=
  match cursor with
  | None => None
  | Some next =>
      if bool_decide (next = delegator) then Some GErr.DelegationCyclePrevented
      else match n with
           | O => Some GErr.MaxDelegationDepthExceeded
           | S n => cycle_walk n s delegator (delegate_of s next)
           end
  end.

(** [forward_delegation_depth]: at most [max_depth] hops. *)
Fixpoint forward_depth (max_depth : nat) (s : storage GovKey) (current : Address) : Z :=
  match max_depth with
  | O => 0
  | S n => match delegate_of s current with
              | Some next => 1 + forward_depth n s next
              | None => 0
              end
  end.

(** [resolve_terminal]: follow at most [max_depth] pointers. *)
Fixpoint resolve_terminal (max_depth : nat) (s : storage GovKey) (current : Address) : Address :=
  match max_depth with
  | O => current
  | S n => match delegate_of s current with
              | Some next => resolve_terminal n s next
              | None => current
              end
  end.

(** The height of a node over its recorded predecessors, as [longest_inbound_depth]
    combines it. *)
Definition node_best (best : gmap Address Z) (preds : list Address) : Z :=
  foldl (λ b p, let candidate := sat_u32 (default 0 (best !! p) + 1) in
                if b <? candidate then candidate else b) 0 preds.

(** The explicit-stack loop of [longest_inbound_depth]; the head of [stack] is its back.
    [None] is an exhausted fuel: the host's budget ends such an invocation. *)
Fixpoint inbound_loop (fuel : nat) (s : storage GovKey) (best : gmap Address Z)
    (stack : list (Address * bool)) : option (gmap Address Z) :=
  match fuel with
  | O => None
  | S fuel =>
      match stack with
      | [] => Some best
      | (node, true) :: stack =>
          inbound_loop fuel s (<[node := node_best best (delegators_of s node)]> best) stack
      | (node, false) :: stack =>
          if bool_decide (is_Some (best !! node)) then inbound_loop fuel s best stack
          else
            let stack := (node, true) :: stack in
            let stack := foldl (λ st p, if bool_decide (is_Some (best !! p)) then st
                                        else (p, false) :: st)
                           stack (delegators_of s node) in
            inbound_loop fuel s best stack
      end
  end.
Definition longest_inbound_depth (fuel : nat) (s : storage GovKey) (start : Address) : option Z :=
  best ← inbound_loop fuel s ∅ [(start, false)]; Some (default 0 (best !! start)).

Section governance.
Context {X : Type} `{TokenInterface X} `{GovPeers X}.
(** The host's budget, in iterations of the delegation walk. *)
Variable budget : nat.
Abbreviation W := (world GovKey X GovEvent).
Abbreviation IO := (M W GovernanceError).

(** ** Configuration reads *)
Definition get_iln_contract : IO Address :=
  a ← get GKey.IlnContract; ok_or a GErr.NotInitialized.
Definition get_gov_token : IO Address := a ← get GKey.GovToken; ok_or a GErr.NotInitialized.
Definition get_distribution_contract : IO Address :=
  a ← get GKey.DistributionContract; ok_or a GErr.NotInitialized.
Definition get_reputation_bonus_contract : IO Address :=
  a ← get GKey.ReputationBonusContract; ok_or a GErr.NotInitialized.
Definition get_min_quorum_bps : IO Z := get_or GKey.MinQuorumBps DEFAULT_MIN_QUORUM_BPS.
Definition get_max_delegation_depth : IO Z :=
  get_or GKey.MaxDelegationDepth DEFAULT_MAX_DELEGATION_DEPTH.
Definition get_gov_token_total_supply : IO Z := get_or GKey.GovTokenTotalSupply 0.
Definition get_min_proposal_deposit : IO Z :=
  get_or GKey.MinProposalDeposit DEFAULT_PROPOSAL_DEPOSIT.
Definition get_min_proposal_balance : IO Z :=
  get_or GKey.MinProposalBalance DEFAULT_MIN_PROPOSAL_BALANCE.
Definition is_quadratic_voting_enabled : IO bool := get_or GKey.QuadraticVotingEnabled false.
Definition get_execution_delay : IO Z := get_or GKey.ExecutionDelay 0.
Definition is_veto_power_enabled : IO bool := get_or GKey.VetoPowerEnabled false.
Definition get_veto_signers : IO (list Address) := get_or GKey.VetoSigners [].
Definition get_veto_threshold : IO Z := get_or GKey.VetoThreshold 0.

(** [token.balance(a)] of the governance token. *)
Definition gov_balance (token a : Address) : IO Z := reads (λ w, tok_balance (ext w) token a).

Definition load_proposal (proposal_id : Z) : IO GovernanceProposal :=
  count ← get_or GKey.ProposalCount 0;
  reject_if ((proposal_id =? 0) || (count <? proposal_id)) GErr.ProposalNotFound;;
  p ← get (GKey.Proposal proposal_id);
  proposal ← ok_or p GErr.ProposalStorageCorrupt;
  reject_if (negb (gp_id proposal =? proposal_id)) GErr.ProposalStorageCorrupt;;
  mret proposal.

(** ** Initialization and parameters *)
Definition initialize (iln_contract distribution_contract reputation_bonus_contract gov_token
    admin : Address) (gov_token_total_supply : Z) : IO unit :=
  b ← has GKey.IlnContract;
  reject_if b GErr.AlreadyInitialized;;
  put GKey.IlnContract iln_contract;;
  put GKey.DistributionContract distribution_contract;;
  put GKey.ReputationBonusContract reputation_bonus_contract;;
  put GKey.GovToken gov_token;;
  put GKey.Admin admin;;
  put GKey.VetoPowerEnabled true;;
  put GKey.MinQuorumBps DEFAULT_MIN_QUORUM_BPS;;
  put GKey.MaxDelegationDepth DEFAULT_MAX_DELEGATION_DEPTH;;
  put GKey.ProposalCount 0;;
  put GKey.GovTokenTotalSupply gov_token_total_supply;;
  publish (GEv.GovernanceInitialized iln_contract gov_token admin).

Definition set_max_delegation_depth (max_depth : Z) : IO unit :=
  iln_contract ← get_iln_contract;
  require_auth iln_contract;;
  old_value ← get_max_delegation_depth;
  put GKey.MaxDelegationDepth max_depth;;
  publish (GEv.MaxDelegationDepthUpdated old_value max_depth).

Definition set_gov_token_total_supply (total_supply : Z) : IO unit :=
  iln_contract ← get_iln_contract;
  require_auth iln_contract;;
  old_value ← get_or GKey.GovTokenTotalSupply 0;
  put GKey.GovTokenTotalSupply total_supply;;
  publish (GEv.GovernanceParameterUpdated "gov_token_total_supply" old_value total_supply).

Definition set_min_quorum_bps (min_quorum_bps : Z) : IO unit :=
  reject_if ((min_quorum_bps =? 0) || (10000 <? min_quorum_bps)) GErr.InvalidQuorumBps;;
  iln_contract ← get_iln_contract;
  require_auth iln_contract;;
  old_value ← get_or GKey.MinQuorumBps DEFAULT_MIN_QUORUM_BPS;
  put GKey.MinQuorumBps min_quorum_bps;;
  publish (GEv.GovernanceParameterUpdated "min_quorum_bps" old_value min_quorum_bps).

Definition set_min_proposal_deposit (amount : Z) : IO unit :=
  reject_if (amount <? 0) GErr.InvalidProposalDeposit;;
  iln_contract ← get_iln_contract;
  require_auth iln_contract;;
  old_value ← get_or GKey.MinProposalDeposit DEFAULT_PROPOSAL_DEPOSIT;
  put GKey.MinProposalDeposit amount;;
  publish (GEv.GovernanceParameterUpdated "min_proposal_deposit" old_value amount).

Definition set_proposal_deposit_sink (sink : option Address) : IO unit :=
  iln_contract ← get_iln_contract;
  require_auth iln_contract;;
  put GKey.ProposalDepositSink sink.

Definition set_quadratic_voting_enabled (enabled : bool) : IO unit :=
  iln_contract ← get_iln_contract;
  require_auth iln_contract;;
  old_value ← get_or GKey.QuadraticVotingEnabled false;
  put GKey.QuadraticVotingEnabled enabled;;
  publish (GEv.GovernanceParameterUpdated "quadratic_voting_enabled"
    (Z.b2z old_value) (Z.b2z enabled)).

Definition set_min_proposal_balance (min_balance : Z) : IO unit :=
  iln_contract ← get_iln_contract;
  require_auth iln_contract;;
  old_value ← get_or GKey.MinProposalBalance DEFAULT_MIN_PROPOSAL_BALANCE;
  put GKey.MinProposalBalance min_balance;;
  publish (GEv.GovernanceParameterUpdated "min_proposal_balance" old_value min_balance).

Definition set_execution_delay (admin : Address) (delay : Z) : IO unit :=
  require_auth admin;;
  a ← get GKey.Admin;
  stored_admin ← ok_or a GErr.NotInitialized;
  reject_if (negb (bool_decide (admin = stored_admin))) GErr.Unauthorized;;
  reject_if (MAX_EXECUTION_DELAY_LEDGERS <? delay) GErr.InvalidExecutionDelay;;
  old_value ← get_or GKey.ExecutionDelay 0;
  reject_if (MAX_EXECUTION_DELAY_LEDGERS <? delay) GErr.ExecutionDelayOutOfBounds;;
  veto ← is_veto_power_enabled;
  reject_if (negb veto && (delay <? MIN_PRODUCTION_EXECUTION_DELAY_LEDGERS))
    GErr.ExecutionDelayOutOfBounds;;
  put GKey.ExecutionDelay delay;;
  publish (GEv.GovernanceParameterUpdated "execution_delay" old_value delay).

(** ** Proposals *)
Definition create_proposal (proposer : Address) (action_type : ProposalAction)
    (description_hash : BytesN32) (proposed_value : Z) : IO Z :=
  require_auth proposer;;
  token ← get_gov_token;
  proposer_balance ← gov_balance token proposer;
  min_balance ← get_or GKey.MinProposalBalance DEFAULT_MIN_PROPOSAL_BALANCE;
  reject_if (proposer_balance <? min_balance) GErr.InsufficientProposerBalance;;
  deposit ← get_or GKey.MinProposalDeposit DEFAULT_PROPOSAL_DEPOSIT;
  reject_if (deposit <? 0) GErr.InvalidProposalDeposit;;
  reject_if ((0 <? deposit) && (proposer_balance <? deposit)) GErr.InsufficientProposerBalance;;
  count ← get_or GKey.ProposalCount 0;
  let id := sat_u64 (count + 1) in
  now ← timestamp;
  let voting_end := sat_u64 (now + VOTING_PERIOD_SECS) in
  put (GKey.VoteWeightSnapshot id proposer) proposer_balance;;
  created_ledger ← sequence;
  put (GKey.ProposalCreatedLedger id) created_ledger;;
  b ← has (GKey.BalanceCheckpoint proposer);
  (if (b : bool) then mret tt
   else put (GKey.BalanceCheckpoint proposer) (mkCheckpoint proposer_balance created_ledger));;
  put (GKey.Proposal id)
    (mkGovProposal id proposer description_hash action_type proposed_value Active 0 0 now
       voting_end 0);;
  put (GKey.ProposalProposer id) proposer;;
  put GKey.ProposalCount id;;
  (if 0 <? deposit then
     this ← current_contract;
     (invoke (ext_transfer token proposer this deposit) : IO unit);;
     put (GKey.ProposalDeposit id) deposit;;
     publish (GEv.ProposalDepositEscrowed id proposer deposit)
   else mret tt);;
  publish (GEv.ProposalCreated id proposer action_type proposed_value voting_end);;
  mret id.

Definition transition_status (proposal : GovernanceProposal) (next : ProposalStatus) :
    IO GovernanceProposal :=
  reject_if (negb (is_legal_transition (gp_status proposal) next)) GErr.InvalidStateTransition;;
  let proposal := set_gov_status next proposal in
  put (GKey.Proposal (gp_id proposal)) proposal;;
  mret proposal.

Definition assert_executable (proposal : GovernanceProposal) : IO unit :=
  reject_if (negb (bool_decide (gp_status proposal = Passed))) GErr.InvalidStateTransition;;
  now ← timestamp;
  reject_if (now <? gp_voting_end proposal) GErr.VotingOngoing;;
  ledger ← sequence;
  reject_if (ledger <? gp_eta_ledger proposal) GErr.TimelockNotExpired.

(** ** Deposits *)
Definition get_proposal_deposit_sink : IO (option Address) :=
  s ← get GKey.ProposalDepositSink;
  (* a stored [None] does not decode as an [Address] and traps *)
  match s with
  | None => mret None
  | Some None => panic
  | Some (Some a) => mret (Some a)
  end.
Definition get_proposal_deposit (proposal_id : Z) : IO Z :=
  get_or (GKey.ProposalDeposit proposal_id) 0.
Definition is_proposal_deposit_settled (proposal_id : Z) : IO bool :=
  get_or (GKey.ProposalDepositSettled proposal_id) false.

Definition refund_proposal_deposit (proposal_id : Z) (proposer : Address) : IO bool :=
  settled ← get_or (GKey.ProposalDepositSettled proposal_id) false;
  if (settled : bool) then mret false
  else
    amount ← get_or (GKey.ProposalDeposit proposal_id) 0;
    put (GKey.ProposalDepositSettled proposal_id) true;;
    if amount <=? 0 then
      remove (GKey.ProposalDeposit proposal_id);;
      mret false
    else
      remove (GKey.ProposalDeposit proposal_id);;
      token ← get_gov_token;
      this ← current_contract;
      (invoke (ext_transfer token this proposer amount) : IO unit);;
      publish (GEv.ProposalDepositRefunded proposal_id proposer amount);;
      mret true.

Definition forfeit_proposal_deposit (proposal_id : Z) (proposer : Address) : IO bool :=
  settled ← get_or (GKey.ProposalDepositSettled proposal_id) false;
  if (settled : bool) then mret false
  else
    amount ← get_or (GKey.ProposalDeposit proposal_id) 0;
    put (GKey.ProposalDepositSettled proposal_id) true;;
    if amount <=? 0 then
      remove (GKey.ProposalDeposit proposal_id);;
      mret false
    else
      remove (GKey.ProposalDeposit proposal_id);;
      sink ← get_proposal_deposit_sink;
      (match sink with
       | Some dest =>
           token ← get_gov_token;
           this ← current_contract;
           (invoke (ext_transfer token this dest amount) : IO unit)
       | None => mret tt
       end);;
      publish (GEv.ProposalDepositForfeited proposal_id proposer amount sink);;
      mret true.

(** The helper [reject_proposal], which no entry point calls. *)
Definition reject_proposal (proposal : GovernanceProposal) (reason : RejectionReason)
    (quorum : Z) : IO unit :=
  put (GKey.Proposal (gp_id proposal)) (set_gov_status Rejected proposal);;
  _ ← forfeit_proposal_deposit (gp_id proposal) (gp_proposer proposal);
  publish (GEv.ProposalRejectedEvent (gp_id proposal) reason (gp_votes_for proposal)
    (gp_votes_against proposal) quorum).

(** ** Checkpoints *)
Definition checkpoint_balance (voter : Address) : IO unit :=
  require_auth voter;;
  token ← get_gov_token;
  balance ← gov_balance token voter;
  old ← get (GKey.BalanceCheckpoint voter);
  ledger ← sequence;
  (match old with
   | Some old => if cp_ledger old <? ledger then put (GKey.PriorBalanceCheckpoint voter) old
                 else mret tt
   | None => mret tt
   end);;
  put (GKey.BalanceCheckpoint voter) (mkCheckpoint balance ledger).

(** Newest slot old enough for [ref_ledger]; [max_by_key] keeps the later of two equal keys. *)
Definition aged (ref_ledger : Z) (c : Checkpoint) : bool :=
  sat_u32 (cp_ledger c + MIN_VOTE_HOLD_LEDGERS) <=? ref_ledger.
Definition eligible_checkpoint (s : storage GovKey) (voter : Address) (ref_ledger : Z) :
    option Checkpoint :=
  let keep (o : option Checkpoint) :=
    match o with Some c => if aged ref_ledger c then Some c else None | None => None end in
  match keep (s (GKey.BalanceCheckpoint voter)), keep (s (GKey.PriorBalanceCheckpoint voter)) with
  | Some latest, Some prior => Some (if cp_ledger prior <? cp_ledger latest then latest else prior)
  | Some latest, None => Some latest
  | None, o => o
  end.

Definition proven_own_balance (voter : Address) (current ref_ledger : Z) : IO Z :=
  c ← reads (λ w, eligible_checkpoint (store w) voter ref_ledger);
  c ← ok_or c GErr.InsufficientHoldingPeriod;
  mret (Z.min (cp_balance c) current).

(** ** Delegation *)
Definition adjust_delegated_to_me (addr : Address) (delta : Z) : IO unit :=
  current ← get_or (GKey.DelegatedToMe addr) 0;
  let updated := sat_i128 (current + delta) in
  if updated <=? 0 then remove (GKey.DelegatedToMe addr)
  else put (GKey.DelegatedToMe addr) updated.

Definition get_delegators (addr : Address) : IO (list Address) :=
  get_or (GKey.Delegators addr) [].
Definition add_delegator (delegate delegator : Address) : IO unit :=
  l ← get_delegators delegate;
  if bool_decide (delegator ∈ l) then mret tt
  else put (GKey.Delegators delegate) (l ++ [delegator]).
Definition remove_delegator (delegate delegator : Address) : IO unit :=
  l ← get_delegators delegate;
  match filter (λ a, a ≠ delegator) l with
  | [] => remove (GKey.Delegators delegate)
  | filtered => put (GKey.Delegators delegate) filtered
  end.

Definition get_own_balance_for_delegation (addr : Address) : IO Z :=
  token ← get_gov_token; gov_balance token addr.

Definition delegate_votes (delegator delegate : Address) : IO unit :=
  require_auth delegator;;
  reject_if (bool_decide (delegator = delegate)) GErr.CannotDelegateToSelf;;
  now_ledger ← sequence;
  live_balance ← get_own_balance_for_delegation delegator;
  proven_balance ← proven_own_balance delegator live_balance now_ledger;
  max_depth ← get_max_delegation_depth;
  let depth := Z.to_nat max_depth in
  cycle ← reads (λ w, cycle_walk depth (store w) delegator (delegate_of (store w) delegate));
  (match cycle with Some e => throw e | None => mret tt end);;
  downstream ← reads (λ w, forward_depth depth (store w) delegate);
  upstream ← (reads (λ w, longest_inbound_depth budget (store w) delegator) ≫= unwrap);
  reject_if (max_depth <? sat_u32 (sat_u32 (upstream + 1) + downstream))
    GErr.MaxDelegationDepthExceeded;;
  terminal ← reads (λ w, resolve_terminal depth (store w) delegate);
  old ← get (GKey.Delegation delegator);
  (match old with
   | Some old_delegate =>
       old_terminal ← reads (λ w, resolve_terminal depth (store w) old_delegate);
       adjust_delegated_to_me old_terminal (- proven_balance);;
       remove_delegator old_delegate delegator
   | None => mret tt
   end);;
  put (GKey.Delegation delegator) delegate;;
  add_delegator delegate delegator;;
  adjust_delegated_to_me terminal proven_balance;;
  publish (GEv.VotesDelegated delegator delegate).

Definition undelegate_votes (delegator : Address) : IO unit :=
  require_auth delegator;;
  old ← get (GKey.Delegation delegator);
  (match old with
   | Some old_delegate =>
       max_depth ← get_max_delegation_depth;
       old_terminal ← reads (λ w, resolve_terminal (Z.to_nat max_depth) (store w) old_delegate);
       delegator_balance ← get_own_balance_for_delegation delegator;
       adjust_delegated_to_me old_terminal (- delegator_balance);;
       remove_delegator old_delegate delegator;;
       remove (GKey.Delegation delegator)
   | None => mret tt
   end);;
  publish (GEv.VotesUndelegated delegator).

Definition get_delegate (addr : Address) : IO (option Address) := get (GKey.Delegation addr).

(** ** Voting *)
Definition has_voted (voter : Address) (proposal_id : Z) : IO bool :=
  t ← has (GKey.HasVoted proposal_id voter);
  p ← has (GKey.VoteReceipt proposal_id voter);
  mret ((t : bool) || p).

(** The voter's own weight: the proposer's snapshot, an earlier snapshot, or an
    aged checkpoint. *)
Definition own_vote_weight (voter : Address) (proposal_id : Z) (token : Address) : IO Z :=
  snapshot ← get (GKey.VoteWeightSnapshot proposal_id voter);
  match snapshot with
  | Some w => mret w
  | None =>
      current ← gov_balance token voter;
      c ← get (GKey.ProposalCreatedLedger proposal_id);
      created_ledger ← ok_or c GErr.SnapshotLedgerMissing;
      proven ← proven_own_balance voter current created_ledger;
      put (GKey.VoteWeightSnapshot proposal_id voter) proven;;
      mret proven
  end.

Definition cast_vote (voter : Address) (proposal_id : Z) (support : bool) : IO unit :=
  require_auth voter;;
  proposal ← load_proposal proposal_id;
  now ← timestamp;
  reject_if (gp_voting_end proposal <=? now) GErr.VotingEnded;;
  reject_if (negb (bool_decide (gp_status proposal = Active))) GErr.ProposalNotActive;;
  voted ← has_voted voter proposal_id;
  reject_if voted GErr.AlreadyVoted;;
  token ← get_gov_token;
  own_balance ← own_vote_weight voter proposal_id token;
  delegated ← get_or (GKey.DelegatedToMe voter) 0;
  let raw_weight := sat_i128 (own_balance + delegated) in
  quadratic ← is_quadratic_voting_enabled;
  weight ← (if (quadratic : bool) then unwrap (isqrt raw_weight) else mret raw_weight);
  reject_if (weight =? 0) GErr.NoVotingPower;;
  let proposal :=
    if support
    then set_votes (sat_i128 (gp_votes_for proposal + weight)) (gp_votes_against proposal) proposal
    else set_votes (gp_votes_for proposal) (sat_i128 (gp_votes_against proposal + weight)) proposal in
  put (GKey.HasVoted proposal_id voter) true;;
  put (GKey.AppliedVoteWeight proposal_id voter) weight;;
  put (GKey.VoteReceipt proposal_id voter) weight;;
  put (GKey.Proposal proposal_id) proposal;;
  publish (GEv.VoteCast proposal_id voter support weight).

Definition get_applied_vote_weight (proposal_id : Z) (voter : Address) : IO (option Z) :=
  t ← get (GKey.AppliedVoteWeight proposal_id voter);
  match t with
  | Some _ => mret t
  | None => get (GKey.VoteReceipt proposal_id voter)
  end.

(** ** Execution *)

(** [invoke_and_check]: [Ok(Ok(()))]. *)
Definition invoke_and_check (contract : Address) (func_name : Symbol) (action : ProposalAction) :
    IO bool :=
  r ← try_invoke (gov_remote contract func_name action);
  mret (bool_decide (r = Some true)).

(** The contract and function a passed proposal calls. *)
Definition call_of_action (iln_contract : Address) (action : ProposalAction) :
    IO (Address * Symbol) :=
  match action with
  | UpdateFeeRate _ => mret (iln_contract, "update_fee_rate"%string)
  | AddToken _ _ => mret (iln_contract, "add_token"%string)
  | RemoveToken _ => mret (iln_contract, "remove_token"%string)
  | UpdateMaxDiscountRate _ => mret (iln_contract, "update_max_discount"%string)
  | UpdateDecayParams _ _ => mret (iln_contract, "update_decay_params"%string)
  | UpdateDistributionRewardParams _ _ _ =>
      d ← get_distribution_contract; mret (d, "update_reward_params"%string)
  | UpdateFeeTiers _ => mret (iln_contract, "update_fee_tiers"%string)
  | Upgrade _ => mret (iln_contract, "upgrade"%string)
  | UpdateLpRewardRate _ =>
      d ← get_distribution_contract; mret (d, "set_lp_reward_rate"%string)
  | UpdateFreelancerRewardRate _ =>
      d ← get_distribution_contract; mret (d, "set_freelancer_reward_rate"%string)
  | UpdatePayerRewardRate _ =>
      d ← get_distribution_contract; mret (d, "set_payer_reward_rate"%string)
  | UpdateInsuranceCoverageCap _ =>
      i ← get_iln_contract; mret (i, "set_coverage_via_governance"%string)
  | UpdateInsurancePremiumRate _ =>
      i ← get_iln_contract; mret (i, "set_premium_rate_via_governance"%string)
  | RegisterOracle _ _ => mret (iln_contract, "register_oracle"%string)
  | RemoveOracle _ => mret (iln_contract, "remove_oracle"%string)
  | RegisterTokenOracle _ _ _ => mret (iln_contract, "register_token_oracle"%string)
  | UpdateReputationBonusParams _ _ _ =>
      r ← get_reputation_bonus_contract; mret (r, "update_config"%string)
  | UpdateMaxInvoiceAmount _ => mret (iln_contract, "set_max_invoice_amount"%string)
  | UpdateTokenVolumeCap _ _ => mret (iln_contract, "set_token_volume_cap"%string)
  end.

(** The quorum, in votes, and its guards. *)
Definition required_quorum : IO Z :=
  q ← get GKey.MinQuorumBps;
  min_quorum_bps ← ok_or q GErr.QuorumDataMissing;
  total_supply ← get_or GKey.GovTokenTotalSupply 0;
  reject_if ((total_supply <=? 0) || (min_quorum_bps =? 0) || (10000 <? min_quorum_bps))
    GErr.QuorumDataMissing;;
  mret (sat_i128 (total_supply * min_quorum_bps) ÷ 10000).

(** The [Active] branch: the outcome of the vote.  The two rejections end in [Err], so
    the host discards what they wrote. *)
Definition close_vote (proposal_id : Z) (proposal : GovernanceProposal) : IO unit :=
  reject_if ((gp_votes_for proposal <? 0) || (gp_votes_against proposal <? 0))
    GErr.InvalidVoteAccounting;;
  total_votes ← ok_or (chk_i128 (gp_votes_for proposal + gp_votes_against proposal))
                  GErr.InvalidVoteAccounting;
  quorum ← required_quorum;
  (if total_votes <? quorum then
     proposal ← transition_status proposal Rejected;
     _ ← forfeit_proposal_deposit proposal_id (gp_proposer proposal);
     throw GErr.QuorumNotReached
   else mret tt);;
  (if gp_votes_for proposal <=? gp_votes_against proposal then
     proposal ← transition_status proposal Rejected;
     _ ← forfeit_proposal_deposit proposal_id (gp_proposer proposal);
     throw GErr.ProposalRejected
   else mret tt);;
  delay ← get_or GKey.ExecutionDelay 0;
  ledger ← sequence;
  eta ← ok_or (chk_u32 (ledger + delay)) GErr.InvalidTimelock;
  proposal ← transition_status (set_eta eta proposal) Passed;
  _ ← refund_proposal_deposit proposal_id (gp_proposer proposal);
  mret tt.

(** The [Passed] branch: the cross-contract call, retried until it succeeds. *)
Definition run_passed (proposal_id : Z) (proposal : GovernanceProposal) : IO unit :=
  assert_executable proposal;;
  iln_contract ← get_iln_contract;
  target ← call_of_action iln_contract (gp_action_type proposal);
  succeeded ← invoke_and_check target.1 target.2 (gp_action_type proposal);
  if negb (succeeded : bool) then
    publish (GEv.ProposalExecutionFailed proposal_id (gp_action_type proposal))
  else
    proposal ← transition_status proposal Executed;
    put (GKey.ProposalExecutedRecord proposal_id) true;;
    nonce ← get_or GKey.ExecutionNonce 0;
    put GKey.ExecutionNonce (sat_u64 (nonce + 1));;
    _ ← refund_proposal_deposit proposal_id (gp_proposer proposal);
    publish (GEv.ProposalExecuted proposal_id (gp_action_type proposal)
      (gp_proposed_value proposal) (gp_votes_for proposal) (gp_votes_against proposal)).

Definition execute_proposal (proposal_id : Z) : IO unit :=
  proposal ← load_proposal proposal_id;
  reject_if (bool_decide (gp_status proposal = Vetoed)) GErr.ProposalCancelled;;
  reject_if (bool_decide (gp_status proposal = Executed)) GErr.ProposalAlreadyExecuted;;
  now ← timestamp;
  reject_if (now <? gp_voting_end proposal) GErr.VotingOngoing;;
  match gp_status proposal with
  | Active => close_vote proposal_id proposal
  | Passed => run_passed proposal_id proposal
  | Vetoed => throw GErr.ProposalCancelled
  | _ => throw GErr.AlreadyResolved
  end.

(** ** Veto *)
Definition configure_veto_multisig (signers : list Address) (threshold : Z) : IO unit :=
  reject_if (bool_decide (signers = []) || (threshold =? 0) || (vlen signers <? threshold))
    GErr.InvalidVetoMultisigConfig;;
  reject_if (repeats signers) GErr.InvalidVetoMultisigConfig;;
  b ← has GKey.VetoSigners;
  (if (b : bool) then iln_contract ← get_iln_contract; require_auth iln_contract
   else admin ← get GKey.Admin; admin ← ok_or admin GErr.NotInitialized; require_auth admin);;
  put GKey.VetoSigners signers;;
  put GKey.VetoThreshold threshold;;
  publish (GEv.VetoMultisigConfigured signers threshold).

(** [veto_approvals_from_persistent]: the configured signers with a receipt. *)
Definition veto_approvals (s : storage GovKey) (proposal_id : Z) : list Address :=
  filter (λ a, is_Some (s (GKey.VetoApprovalReceipt proposal_id a)))
    (default [] (s GKey.VetoSigners)).

Definition verified_proposer (proposal : GovernanceProposal) : IO Address :=
  bound ← get (GKey.ProposalProposer (gp_id proposal));
  match bound with
  | Some bound => if bool_decide (bound = gp_proposer proposal) then mret bound
                  else throw GErr.ProposerIdentityMismatch
  | None => put (GKey.ProposalProposer (gp_id proposal)) (gp_proposer proposal);;
            mret (gp_proposer proposal)
  end.

Definition empty_hash : BytesN32 := 0%N.

Definition veto_proposal (signer : Address) (proposal_id : Z) (reason_hash : BytesN32) : IO unit :=
  require_auth signer;;
  reject_if (bool_decide (reason_hash = empty_hash)) GErr.ConsentRequired;;
  enabled ← get_or GKey.VetoPowerEnabled false;
  reject_if (negb enabled) GErr.VetoPowerDisabled;;
  signers ← get GKey.VetoSigners;
  signers ← ok_or signers GErr.VetoMultisigNotConfigured;
  reject_if (negb (bool_decide (signer ∈ signers))) GErr.NotVetoSigner;;
  threshold ← get_or GKey.VetoThreshold 0;
  proposal ← load_proposal proposal_id;
  _ ← verified_proposer proposal;
  (match gp_status proposal with
   | Active | Passed => mret tt
   | _ => throw GErr.NotVetoable
   end);;
  current_veto_state ← get_or (GKey.VetoState proposal_id)
                         (mkVetoState Uninitiated 0 threshold reason_hash);
  reject_if (bool_decide (vs_status current_veto_state = VetoExecuted)
             || bool_decide (gp_status proposal = Vetoed)) GErr.InvalidVetoTransition;;
  let prev_status := vs_status current_veto_state in
  b ← has (GKey.VetoApprovalReceipt proposal_id signer);
  reject_if b GErr.VetoAlreadyApproved;;
  put (GKey.VetoApprovalReceipt proposal_id signer) true;;
  approvals ← reads (λ w, veto_approvals (store w) proposal_id);
  put (GKey.VetoApprovals proposal_id) approvals;;
  if vlen approvals <? threshold then
    put (GKey.VetoState proposal_id) (mkVetoState Pending (vlen approvals) threshold reason_hash);;
    publish (GEv.VetoStateTransition proposal_id prev_status Pending (vlen approvals) threshold);;
    publish (GEv.VetoApproved proposal_id signer (vlen approvals) threshold)
  else
    remove (GKey.VetoApprovals proposal_id);;
    for_each approvals (λ approved, remove (GKey.VetoApprovalReceipt proposal_id approved));;
    proposal ← transition_status proposal Vetoed;
    put (GKey.VetoState proposal_id)
      (mkVetoState VetoExecuted (vlen approvals) threshold reason_hash);;
    publish (GEv.VetoStateTransition proposal_id prev_status VetoExecuted (vlen approvals)
      threshold);;
    _ ← forfeit_proposal_deposit proposal_id (gp_proposer proposal);
    publish (GEv.ProposalVetoed proposal_id signer reason_hash).

Definition internal_disable_veto_power (reason_hash : BytesN32) : IO unit :=
  iln_contract ← get_iln_contract;
  require_auth iln_contract;;
  enabled ← is_veto_power_enabled;
  reject_if (negb enabled) GErr.VetoPowerAlreadyDisabled;;
  put GKey.VetoPowerEnabled false;;
  ledger ← sequence;
  put GKey.VetoDisableRecord (mkVetoDisable iln_contract ledger reason_hash);;
  publish (GEv.VetoPowerDisabled iln_contract);;
  publish (GEv.VetoDisableRecorded iln_contract ledger reason_hash).
Definition disable_veto_power : IO unit := internal_disable_veto_power empty_hash.
Definition disable_veto_power_with_reason (reason_hash : BytesN32) : IO unit :=
  reject_if (bool_decide (reason_hash = empty_hash)) GErr.ConsentRequired;;
  internal_disable_veto_power reason_hash.

(** ** Views *)
Definition get_proposal (proposal_id : Z) : IO GovernanceProposal := load_proposal proposal_id.
Definition get_proposal_eta (proposal_id : Z) : IO Z :=
  p ← get_proposal proposal_id; mret (gp_eta_ledger p).
Definition get_voter_checkpoint (voter : Address) : IO (option Checkpoint) :=
  get (GKey.BalanceCheckpoint voter).
Definition get_voter_prior_checkpoint (voter : Address) : IO (option Checkpoint) :=
  get (GKey.PriorBalanceCheckpoint voter).
Definition get_eligible_checkpoint (voter : Address) (proposal_id : Z) : IO (option Checkpoint) :=
  snapshot ← get (GKey.ProposalCreatedLedger proposal_id);
  match snapshot with
  | Some snapshot => reads (λ w, eligible_checkpoint (store w) voter snapshot)
  | None => mret None
  end.
Definition get_proposal_proposer (proposal_id : Z) : IO (option Address) :=
  get (GKey.ProposalProposer proposal_id).
Definition get_proposal_created_ledger (proposal_id : Z) : IO (option Z) :=
  get (GKey.ProposalCreatedLedger proposal_id).
Definition get_veto_approvals (proposal_id : Z) : IO (list Address) :=
  reads (λ w, veto_approvals (store w) proposal_id).
Definition get_veto_reason_hash (proposal_id : Z) : IO (option BytesN32) :=
  get (GKey.VetoReasonHash proposal_id).
Definition get_veto_disable_record : IO (option VetoDisableRecord) := get GKey.VetoDisableRecord.
Definition get_timelock_status : IO TimelockStatus :=
  delay ← get_execution_delay;
  enabled ← is_veto_power_enabled;
  signers ← get_veto_signers;
  threshold ← get_veto_threshold;
  mret (mkTimelock delay enabled (vlen signers) threshold).

Definition get_veto_state (proposal_id : Z) : IO VetoState :=
  st ← get (GKey.VetoState proposal_id);
  match st with
  | Some st => mret st
  | None =>
      threshold ← get_or GKey.VetoThreshold 0;
      p ← get (GKey.Proposal proposal_id);
      mret (match p with
            | Some p => if bool_decide (gp_status p = Vetoed)
                        then mkVetoState VetoExecuted threshold threshold empty_hash
                        else mkVetoState Uninitiated 0 threshold empty_hash
            | None => mkVetoState Uninitiated 0 threshold empty_hash
            end)
  end.

Definition effective_execution_delay : IO Z :=
  stored ← get_or GKey.ExecutionDelay 0;
  veto ← get_or GKey.VetoPowerEnabled false;
  mret (if negb veto && (stored <? MIN_PRODUCTION_EXECUTION_DELAY_LEDGERS)
        then MIN_PRODUCTION_EXECUTION_DELAY_LEDGERS else stored).

(** [for id in (1..=start_id).rev()], [id] counting down. *)
Fixpoint page_down (s : storage GovKey) (status : option ProposalStatus) (id : nat) (room : nat) :
    list GovernanceProposal :=
  match room, id with
  | O, _ | _, O => []
  | S room', S id' =>
      match s (GKey.Proposal (Z.of_nat id)) with
      | Some p =>
          if match status with Some st => bool_decide (gp_status p = st) | None => true end
          then p :: page_down s status id' room'
          else page_down s status id' room
      | None => page_down s status id' room
      end
  end.
Definition list_proposals (status : option ProposalStatus) (cursor : option Z) (page_size : Z) :
    IO (list GovernanceProposal) :=
  count ← get_or GKey.ProposalCount 0;
  if (count =? 0) || (page_size =? 0) then mret []
  else
    let actual_page_size := if 20 <? page_size then 20 else page_size in
    match cursor with
    | Some c =>
        if c <=? 1 then mret []
        else reads (λ w, page_down (store w) status (Z.to_nat (Z.min (c - 1) count))
                           (Z.to_nat actual_page_size))
    | None => reads (λ w, page_down (store w) status (Z.to_nat count) (Z.to_nat actual_page_size))
    end.

End governance.
