(* ===== verification/GovSystem.v ===== *)
(** The governance contract as a transition system: its entry points, runs of them
    interleaved with the rest of the ledger, and which entries each call writes. *)
From S2P Require Import Prelude Host GovTypes Governance.

Inductive GovCall :=
| GInitialize (iln dist rep token admin : Address) (supply : Z)
| GSetMaxDelegationDepth (n : Z)
| GSetTotalSupply (n : Z)
| GSetMinQuorumBps (n : Z)
| GSetMinProposalDeposit (n : Z)
| GSetDepositSink (sink : option Address)
| GSetQuadratic (b : bool)
| GSetMinProposalBalance (n : Z)
| GSetExecutionDelay (admin : Address) (n : Z)
| GCreateProposal (proposer : Address) (action : ProposalAction) (h : BytesN32) (value : Z)
| GCheckpoint (voter : Address)
| GDelegate (delegator delegate : Address)
| GUndelegate (delegator : Address)
| GVote (voter : Address) (proposal_id : Z) (support : bool)
| GExecute (proposal_id : Z)
| GConfigureVeto (signers : list Address) (threshold : Z)
| GVeto (signer : Address) (proposal_id : Z) (reason : BytesN32)
| GDisableVeto (reason : option BytesN32).

(** ** Families of entries *)
Definition graph_key (k : GovKey) : bool :=
  match k with GKey.Delegation _ | GKey.Delegators _ => true | _ => false end.
Definition proposal_key (k : GovKey) : bool :=
  match k with GKey.Proposal _ | GKey.ProposalCount => true | _ => false end.
Definition receipt_key (k : GovKey) : bool :=
  match k with GKey.VoteReceipt _ _ => true | _ => false end.
Definition deposit_key (k : GovKey) : bool :=
  match k with GKey.ProposalDeposit _ | GKey.ProposalDepositSettled _ => true | _ => false end.
Definition token_key (k : GovKey) : bool :=
  match k with GKey.GovToken | GKey.IlnContract => true | _ => false end.
Definition limit_key (k : GovKey) : bool :=
  match k with GKey.MaxDelegationDepth | GKey.IlnContract => true | _ => false end.
(** Temporary entries, which the ledger may drop between calls. *)
Definition temporary (k : GovKey) : bool :=
  match k with
  | GKey.HasVoted _ _ | GKey.AppliedVoteWeight _ _ | GKey.VetoApprovals _
  | GKey.VetoReasonHash _ => true
  | _ => false
  end.
Definition outside (S : GovKey → bool) (k : GovKey) : bool := negb (S k).

Definition delegation_call (c : GovCall) : bool :=
  match c with GDelegate _ _ | GUndelegate _ => true | _ => false end.
Definition depth_call (c : GovCall) : bool :=
  match c with GInitialize _ _ _ _ _ _ | GSetMaxDelegationDepth _ => true | _ => false end.
Definition proposal_call (c : GovCall) : bool :=
  match c with
  | GInitialize _ _ _ _ _ _ | GCreateProposal _ _ _ _ | GVote _ _ _ | GExecute _ | GVeto _ _ _ => true
  | _ => false
  end.
Definition vote_call (c : GovCall) : bool := match c with GVote _ _ _ => true | _ => false end.
Definition deposit_call (c : GovCall) : bool :=
  match c with GCreateProposal _ _ _ _ | GExecute _ | GVeto _ _ _ => true | _ => false end.
Definition init_call (c : GovCall) : bool :=
  match c with GInitialize _ _ _ _ _ _ => true | _ => false end.

(** The ranges the host's decoding guarantees. *)
Definition gov_typed (c : GovCall) : bool :=
  match c with
  | GSetMaxDelegationDepth n | GSetMinQuorumBps n | GSetExecutionDelay _ n
  | GConfigureVeto _ n => in_u32 n
  | GSetTotalSupply n | GSetMinProposalDeposit n | GSetMinProposalBalance n
  | GInitialize _ _ _ _ _ n | GCreateProposal _ _ _ n => in_i128 n
  | GVote _ n _ | GExecute n | GVeto _ n _ => in_u64 n
  | _ => true
  end.

(** [open_gov]: the bodies of the calls, down to storage operations. *)
Ltac open_gov :=
  unfold Governance.initialize, set_max_delegation_depth, set_gov_token_total_supply,
    set_min_quorum_bps,
    set_min_proposal_deposit, set_proposal_deposit_sink, set_quadratic_voting_enabled,
    set_min_proposal_balance, set_execution_delay, create_proposal, checkpoint_balance,
    delegate_votes, undelegate_votes, cast_vote, execute_proposal, configure_veto_multisig,
    veto_proposal, disable_veto_power, disable_veto_power_with_reason,
    internal_disable_veto_power, close_vote, run_passed, assert_executable,
    refund_proposal_deposit, forfeit_proposal_deposit, get_proposal_deposit_sink,
    transition_status, load_proposal, verified_proposer, required_quorum, call_of_action,
    invoke_and_check, has_voted, own_vote_weight, proven_own_balance, adjust_delegated_to_me,
    add_delegator, remove_delegator, get_delegators, get_own_balance_for_delegation,
    get_iln_contract, get_gov_token, get_distribution_contract, get_reputation_bonus_contract,
    get_max_delegation_depth, is_veto_power_enabled, is_quadratic_voting_enabled, gov_balance.

Definition gov_ignore {X A} (m : M (world GovKey X GovEvent) GovernanceError A) :
    M (world GovKey X GovEvent) GovernanceError unit := _ ← m; mret tt.

(** [gov_frame]: the footprint of one call. *)
Ltac gov_frame c :=
  destruct c as [| | | | | | | | | | | | | | | | |[]]; try done;
  simpl; unfold gov_ignore; open_gov; frame.

Section gov_system.
Context {X : Type} `{TokenInterface X} `{GovPeers X}.
Variable budget : nat.
Abbreviation W := (world GovKey X GovEvent).
Abbreviation IO := (M W GovernanceError).
Implicit Types w : W.

Definition gov_exec (c : GovCall) : IO unit :=
  match c with
  | GInitialize i d r t a n => initialize i d r t a n
  | GSetMaxDelegationDepth n => set_max_delegation_depth n
  | GSetTotalSupply n => set_gov_token_total_supply n
  | GSetMinQuorumBps n => set_min_quorum_bps n
  | GSetMinProposalDeposit n => set_min_proposal_deposit n
  | GSetDepositSink s => set_proposal_deposit_sink s
  | GSetQuadratic b => set_quadratic_voting_enabled b
  | GSetMinProposalBalance n => set_min_proposal_balance n
  | GSetExecutionDelay a n => set_execution_delay a n
  | GCreateProposal p a h v => gov_ignore (create_proposal p a h v)
  | GCheckpoint v => checkpoint_balance v
  | GDelegate d e => delegate_votes budget d e
  | GUndelegate d => undelegate_votes d
  | GVote v i b => cast_vote v i b
  | GExecute i => execute_proposal i
  | GConfigureVeto s t => configure_veto_multisig s t
  | GVeto s i h => veto_proposal s i h
  | GDisableVeto (Some h) => disable_veto_power_with_reason h
  | GDisableVeto None => disable_veto_power
  end.

Lemma gov_ignore_done {A} (m : IO A) w w' :
  gov_ignore m w = Done tt w' → ∃ a, m w = Done a w'.
Proof. unfold gov_ignore. intros (a & w1 & Hm & [_ ->]%ret_done)%bind_done. eauto. Qed.

(** The rest of the ledger between two calls: another context, other contracts'
    calls, temporary entries that expire. *)
Definition gov_environment w w' : Prop :=
  self w' = self w ∧
  ∀ k, store w' k = store w k ∨ temporary k = true ∧ store w' k = None.

(** A successful call [c] allowed by [ok] in the world before it, or the rest of the
    ledger as [env] allows it. *)
Inductive gov_step (ok : GovCall → W → Prop) (env : relation W) w w' : Prop :=
| gov_call c :
    gov_typed c = true → ok c w → gov_exec c w = Done tt w' → gov_step ok env w w'
| gov_env : gov_environment w w' → env w w' → gov_step ok env w w'.

Definition gov_any (c : GovCall) w : Prop := True.
Definition gov_free w w' : Prop := True.
(** A contract just deployed. *)
Definition gov_deployed w : Prop := ∀ k, store w k = None.

Lemma gov_env_keeps w w' k : gov_environment w w' → temporary k = false → store w' k = store w k.
Proof. intros [_ He] Ht. destruct (He k) as [? | [? _]]; [done | congruence]. Qed.

(** ** Footprints *)
Lemma gov_graph_frame c :
  delegation_call c = false → keeps (touches (outside graph_key)) (gov_exec c).
Proof. intros Hc. gov_frame c. Qed.
Lemma gov_proposal_frame c :
  proposal_call c = false → keeps (touches (outside proposal_key)) (gov_exec c).
Proof. intros Hc. gov_frame c. Qed.
Lemma gov_receipt_frame c :
  vote_call c = false → keeps (touches (outside receipt_key)) (gov_exec c).
Proof. intros Hc. gov_frame c. Qed.
Lemma gov_limit_frame c : depth_call c = false → keeps (touches (outside limit_key)) (gov_exec c).
Proof. intros Hc. gov_frame c. Qed.
Lemma gov_token_frame c : init_call c = false → keeps (touches (outside token_key)) (gov_exec c).
Proof. intros Hc. gov_frame c. Qed.
Lemma gov_deposit_frame c :
  deposit_call c = false → keeps (touches (outside deposit_key)) (gov_exec c).
Proof. intros Hc. gov_frame c. Qed.
End gov_system.
