(* ===== verification/GovScenario.v ===== *)
(** A concrete governance deployment on the reference SAC, and the scripts the
    witnesses of the governance properties run on it. *)
From S2P Require Import Prelude Host GovTypes Governance GovSystem.

(** Callees that accept every action but fee rates above 100%. *)
#[export] Instance Sac_gov_peers : GovPeers Sac.t := {|
  gov_remote := λ _ _ action x,
    match action with
    | UpdateFeeRate rate => if rate <=? 10000 then Some (true, x) else None
    | _ => Some (true, x)
    end
|}.

Module GovScenario.
Definition iln : Address := 1%N.
Definition dist : Address := 2%N.
Definition rep : Address := 3%N.
Definition token : Address := 4%N.
Definition admin : Address := 5%N.
Definition alice : Address := 10%N.
Definition bob : Address := 11%N.
Definition carol : Address := 12%N.
Definition gov : Address := 100%N.

Abbreviation W := (world GovKey Sac.t GovEvent).

(** Everyone but the contract itself signs; a ledger closes every five seconds. *)
Definition at_ledger (n : Z) : Ctx := mkCtx (λ a, negb (bool_decide (a = gov))) (5 * n) n.
Definition bank : Sac.t :=
  Sac.mk {[ (token, alice) := 3000; (token, bob) := 2000; (token, carol) := 200000 ]}
    ∅ {[ token := admin ]} {[ token := 7 ]}.
Definition w0 : W := mkWorld gov (at_ledger 100) st_empty bank [].

Abbreviation run c := (gov_exec 50 c).
Abbreviation step ok := (gov_step 50 ok gov_free).
(** An environment that lets the clock move. *)
Definition clocked (env : relation W) : Prop := ∀ c w, env w (with_ctx c w).

(** [play l w]: the calls of [l], each at its ledger; [None] when one fails. *)
Fixpoint play (l : list (Z * GovCall)) (w : W) : option W :=
  match l with
  | [] => Some w
  | (n, c) :: l =>
      if gov_typed c then
        match run c (with_ctx (at_ledger n) w) with
        | Done _ w' => play l w'
        | Fault _ => None
        end
      else None
  end.
Definition played (l : list (Z * GovCall)) (w : W) : W := default w (play l w).

Lemma play_run ok env l w w' :
  clocked env → (∀ n c w, (n, c) ∈ l → ok c w) → play l w = Some w' →
  rtc (gov_step 50 ok env) w w'.
Proof.
  intros He. revert w. induction l as [|[n c] l IH]; intros w Hok Hp; simpl in Hp; [by simplify_eq |].
  destruct (gov_typed c) eqn:Ht; [| done].
  destruct (run c _) as [[] w1 | f] eqn:Hx; [| done].
  eapply rtc_l with (with_ctx (at_ledger n) w);
    [apply gov_env; [| apply He]; split; [reflexivity | by left] |].
  eapply rtc_l; [eapply gov_call; [exact Ht | | exact Hx] |].
  - eapply Hok. left.
  - apply IH; [| done]. intros. eapply Hok. by right.
Qed.

Lemma played_run ok env l w :
  clocked env → (∀ n c w, (n, c) ∈ l → ok c w) →
  match play l w with Some _ => true | None => false end = true →
  rtc (gov_step 50 ok env) w (played l w).
Proof.
  intros He Hok Hp. unfold played. destruct (play l w) as [w'|] eqn:Hw; [| done].
  by eapply play_run.
Qed.

Lemma free_clocked : clocked gov_free.
Proof. done. Qed.
Lemma deployed : gov_deployed w0.
Proof. intros k. reflexivity. Qed.

Definition setup : list (Z * GovCall) :=
  [ (100, GInitialize iln dist rep token admin 210000);
    (101, GCheckpoint alice); (101, GCheckpoint bob); (101, GCheckpoint carol) ].
(** [alice] delegates to [bob], who delegates to [carol]. *)
Definition delegations : list (Z * GovCall) :=
  setup ++ [ (120, GDelegate alice bob); (121, GDelegate bob carol) ].
(** Proposal 1 of [bob], with a deposit of 500; [carol] and [alice] vote. *)
Definition proposed : list (Z * GovCall) :=
  setup ++ [ (110, GSetMinProposalDeposit 500);
             (120, GCreateProposal bob (UpdateFeeRate 200) 9%N 200) ].
Definition voted : list (Z * GovCall) :=
  proposed ++ [ (130, GVote carol 1 true); (131, GVote alice 1 false) ].
Definition closed : list (Z * GovCall) :=
  voted ++ [ (140, GSetExecutionDelay admin 100); (60000, GExecute 1) ].
Definition executed : list (Z * GovCall) := closed ++ [ (60100, GExecute 1) ].

Definition w_delegated : W := played delegations w0.
Definition w_proposed : W := played proposed w0.
Definition w_voted : W := played voted w0.
Definition w_closed : W := played closed w0.
Definition w_executed : W := played executed w0.

End GovScenario.
