(* ===== verification/DelegationProps.v ===== *)
(** Properties of the delegation graph of [Governance.v]: it stays a forest mirrored by
    its reverse adjacency, the memoised walk over the inbound edges terminates with the
    exact height, and no chain grows past the configured depth. *)
From S2P Require Import Prelude Host GovTypes Governance GovSystem GovScenario.
From Stdlib Require Import Wellfounded.

(** * The graph *)
Definition edge (s : storage GovKey) (x y : Address) : Prop := delegate_of s x = Some y.

Inductive path (s : storage GovKey) : nat → Address → Address → Prop :=
| path_nil x : path s 0 x x
| path_cons n x y z : edge s x y → path s n y z → path s (S n) x z.

(** The reverse adjacency lists exactly the edges, and following delegators backwards
    always ends: in particular there is no cycle. *)
Record forest (s : storage GovKey) : Prop := {
  mirror : ∀ x y, edge s x y ↔ x ∈ delegators_of s y;
  grounded : well_founded (edge s)
}.

(** [h] is the length of the longest chain that ends in [a]. *)
Definition inbound_height (s : storage GovKey) (a : Address) (h : Z) : Prop :=
  0 ≤ h ≤ u32_max ∧ (∃ x, path s (Z.to_nat h) x a) ∧
  (h < u32_max → ∀ k x, path s k x a → Z.of_nat k ≤ h).

(** No chain is longer than [d]. *)
Definition chains_within (s : storage GovKey) (d : Z) : Prop :=
  ∀ k x y, path s k x y → Z.of_nat k ≤ d.

Section graph.
Variable s : storage GovKey.

Lemma path_app n m x y z : path s n x y → path s m y z → path s (n + m) x z.
Proof. induction 1; simpl; [done |]. intros. econstructor; eauto. Qed.
Lemma path_snoc n x y z : path s n x y → edge s y z → path s (S n) x z.
Proof.
  intros Hp He. replace (S n) with (n + 1)%nat by lia.
  eapply path_app; [done |]. econstructor; [done | constructor].
Qed.
Lemma path_last n x z : path s (S n) x z → ∃ y, path s n x y ∧ edge s y z.
Proof.
  revert x. induction n as [|n IH]; intros x Hp; inversion Hp as [|? ? y ? He Hr]; subst.
  - inversion Hr; subst. exists x. split; [constructor | done].
  - destruct (IH _ Hr) as (u & Hu & Hz). exists u. split; [by econstructor | done].
Qed.

(** Chains are functional. *)
Lemma path_det n x y z : path s n x y → path s n x z → y = z.
Proof.
  induction 1 as [|n x u y He _ IH]; inversion 1; subst; [done |].
  unfold edge in *. simplify_eq. auto.
Qed.

(** ** Forward walks *)
Lemma cycle_walk_clear n d c :
  cycle_walk n s d c = None →
  ∀ k y z, c = Some y → path s k y z → z ≠ d ∧ (S k ≤ n)%nat.
Proof.
  revert c. induction n as [|n IH]; intros c Hc k y z -> Hp; simpl in Hc; case_bool_decide; try done.
  inversion Hp as [|? ? u ? He Hr]; subst; [split; [done | lia] |].
  destruct (IH _ Hc _ _ _ He Hr). split; [done | lia].
Qed.

Lemma walk_clear n d e :
  cycle_walk n s d (delegate_of s e) = None → e ≠ d →
  ∀ k z, path s k e z → z ≠ d ∧ (k ≤ n)%nat.
Proof.
  intros Hc Hne k z Hp. inversion Hp as [|? ? u ? He Hr]; subst; [split; [done | lia] |].
  destruct (cycle_walk_clear _ _ _ Hc _ _ _ He Hr). done.
Qed.

Lemma forward_depth_exact n x :
  (∀ k z, path s k x z → (k ≤ n)%nat) →
  ∃ m, forward_depth n s x = Z.of_nat m ∧ path s m x (resolve_terminal n s x) ∧
    delegate_of s (resolve_terminal n s x) = None.
Proof.
  revert x. induction n as [|n IH]; intros x Hb; simpl.
  - exists 0%nat. split_and!; [done | constructor |].
    destruct (delegate_of s x) as [y|] eqn:He; [| done].
    specialize (Hb 1%nat y). exfalso. apply (Nat.nle_succ_0 0), Hb.
    econstructor; [done | constructor].
  - destruct (delegate_of s x) as [y|] eqn:He.
    + destruct (IH y) as (m & -> & Hp & Hn).
      { intros k z Hp. specialize (Hb (S k) z). apply le_S_n, Hb. by econstructor. }
      exists (S m). split_and!; [lia | by econstructor | done].
    + exists 0%nat. split_and!; [done | constructor | done].
Qed.

Lemma path_to_terminal m x t k z :
  path s m x t → delegate_of s t = None → path s k x z → (k ≤ m)%nat.
Proof.
  intros Hp Ht. revert k z. induction Hp as [|m x y t He _ IH]; intros k z Hk.
  - inversion Hk as [|? ? ? ? He]; subst; [lia |]. unfold edge in He. congruence.
  - inversion Hk as [|? ? ? ? He' Hr]; subst; [lia |]. unfold edge in *. simplify_eq.
    apply IH in Hr; [lia | done].
Qed.
End graph.

(** ** The inbound walk *)
Section inbound.
Variable s : storage GovKey.
Hypothesis Hforest : forest s.

Definition memo_ok (best : gmap Address Z) : Prop :=
  ∀ p h, best !! p = Some h → inbound_height s p h.
Definition extends (best best' : gmap Address Z) : Prop :=
  ∀ p, is_Some (best !! p) → is_Some (best' !! p).

Lemma node_best_height best a :
  memo_ok best → (∀ p, p ∈ delegators_of s a → is_Some (best !! p)) →
  inbound_height s a (node_best best (delegators_of s a)).
Proof.
  intros Hm Hall.
  assert (∀ l h, (∀ p, p ∈ l → p ∈ delegators_of s a) →
    0 ≤ h ≤ u32_max → (∃ x, path s (Z.to_nat h) x a) →
    let r := foldl (λ b p, let candidate := sat_u32 (default 0 (best !! p) + 1) in
                if b <? candidate then candidate else b) h l in
    0 ≤ r ≤ u32_max ∧ (∃ x, path s (Z.to_nat r) x a) ∧ h ≤ r ∧
    ∀ p hp, p ∈ l → best !! p = Some hp → sat_u32 (hp + 1) ≤ r) as Hfold.
  { induction l as [|p l IH]; intros h Hl Hh Hx; simpl.
    - split_and!; [lia | lia | done | lia |]. by intros ? ? ?%list_elem_of_In.
    - destruct (Hall p) as [hp Hp]; [apply Hl; left |]. rewrite Hp; simpl.
      pose proof (Hm _ _ Hp) as (Hhp & (x & Hxp) & _).
      pose proof (sat_range 0 u32_max (hp + 1) ltac:(by vm_compute)) as Hc.
      set (h' := if h <? sat_u32 (hp + 1) then sat_u32 (hp + 1) else h).
      assert (h ≤ h' ∧ sat_u32 (hp + 1) ≤ h' ∧ h' ≤ u32_max) as (Hh1 & Hh2 & Hh3).
      { subst h'. destruct (h <? sat_u32 (hp + 1)) eqn:Hlt; bools; lia. }
      destruct (IH h') as (H1 & H2 & H3 & H4).
      + intros q Hq. apply Hl. by right.
      + lia.
      + subst h'. destruct (h <? sat_u32 (hp + 1)) eqn:Hlt; [| done]. apply Z.ltb_lt in Hlt.
        destruct (Z.eq_dec hp u32_max) as [-> |].
        * (* saturated: a suffix of the chain has that length *)
          assert (edge s p a) as He by (apply Hforest, Hl; left).
          pose proof (path_snoc _ _ _ _ _ Hxp He) as Hlong.
          inversion Hlong as [| n0 x0 y0 z0 Hfst Hrest]; subst.
          exists y0. replace (sat_u32 (u32_max + 1)) with u32_max by (by vm_compute). done.
        * exists x. rewrite sat_id by lia.
          replace (Z.to_nat (hp + 1)) with (S (Z.to_nat hp)) by lia.
          eapply path_snoc; [done |]. apply Hforest, Hl. left.
      + split; [exact H1 |]. split; [exact H2 |].
        split; [etrans; [exact Hh1 | exact H3] |].
        intros q hq [-> | Hq]%elem_of_cons Hbq; [| by eapply H4].
        simplify_eq. etrans; [exact Hh2 | exact H3]. }
  destruct (Hfold (delegators_of s a) 0) as (H1 & H2 & _ & H4); [done | | |].
  - split; [lia | by vm_compute].
  - exists a. constructor.
  - unfold node_best. cbv zeta in *.
    match goal with |- inbound_height _ _ ?r => generalize dependent r end.
    intros r H1 H2 H4. split; [exact H1 |]. split; [exact H2 |]. intros Hlt k x Hp.
    destruct k as [|k]; [simpl in *; lia |].
    apply path_last in Hp as (p & Hp & He). apply Hforest in He.
    destruct (Hall p He) as [hp Hbp]. specialize (H4 _ _ He Hbp).
    destruct (Hm _ _ Hbp) as (Hr & _ & Hmax).
    assert (hp < u32_max).
    { destruct (Z.lt_ge_cases hp u32_max); [done |].
      assert (hp = u32_max) as -> by lia.
      assert (sat_u32 (u32_max + 1) = u32_max) by by vm_compute. lia. }
    rewrite sat_id in H4 by lia. specialize (Hmax ltac:(done) _ _ Hp). lia.
Qed.

(** [settles stack best best']: enough fuel takes the walk from the entries [stack] on
    top of any rest to that rest, with the memo grown from [best] to [best']. *)
Definition settles (stack : list (Address * bool)) (best best' : gmap Address Z) : Prop :=
  ∃ n, ∀ fuel rest, inbound_loop (n + fuel) s best (stack ++ rest) = inbound_loop fuel s best' rest.

Lemma settles_nil best : settles [] best best.
Proof. by exists 0%nat. Qed.
Lemma settles_app st1 st2 b1 b2 b3 :
  settles st1 b1 b2 → settles st2 b2 b3 → settles (st1 ++ st2) b1 b3.
Proof.
  intros [n Hn] [m Hm]. exists (n + m)%nat. intros fuel rest.
  by rewrite <- Nat.add_assoc, <- app_assoc, Hn, Hm.
Qed.

Lemma push_preds (best : gmap Address Z) (l : list Address) (st : list (Address * bool)) :
  foldl (λ st p, if bool_decide (is_Some (best !! p)) then st else (p, false) :: st) st l =
  reverse ((λ p, (p, false)) <$> filter (λ p, ¬ is_Some (best !! p)) l) ++ st.
Proof.
  revert st. induction l as [|p l IH]; intros st; [done |]. simpl. rewrite IH.
  case_bool_decide as Hp.
  - by rewrite filter_cons_False by tauto.
  - rewrite filter_cons_True by done. csimpl. rewrite reverse_cons, <- app_assoc. done.
Qed.

Lemma visit a :
  ∀ best, memo_ok best →
  ∃ best', settles [(a, false)] best best' ∧ memo_ok best' ∧ extends best best' ∧
    is_Some (best' !! a).
Proof.
  induction (grounded _ Hforest a) as [a _ IH]. intros best Hm.
  destruct (decide (is_Some (best !! a))) as [Ha | Ha].
  { exists best. split_and!; [| done | by intros ? | done].
    exists 1%nat. intros fuel rest. simpl. by rewrite bool_decide_eq_true_2. }
  set (todo := reverse (filter (λ p, ¬ is_Some (best !! p)) (delegators_of s a))).
  assert (∀ l best0, (∀ p, p ∈ l → edge s p a) → memo_ok best0 →
    ∃ best', settles ((λ p, (p, false)) <$> l) best0 best' ∧ memo_ok best' ∧
      extends best0 best' ∧ ∀ p, p ∈ l → is_Some (best' !! p)) as Hlist.
  { induction l as [|p l IHl]; intros best0 Hl Hm0.
    - exists best0. split_and!; [apply settles_nil | done | by intros ? |].
      by intros p ?%list_elem_of_In.
    - destruct (IH p (Hl p ltac:(left)) best0 Hm0) as (b1 & Hs1 & Hm1 & He1 & Hp1).
      destruct (IHl b1) as (b2 & Hs2 & Hm2 & He2 & Hp2); [|done|].
      + intros q Hq. apply Hl. by right.
      + exists b2. csimpl. split_and!; [| done | |].
        * change ((p, false) :: ((λ q, (q, false)) <$> l))
            with ([(p, false)] ++ ((λ q, (q, false)) <$> l)). by eapply settles_app.
        * intros q Hq. by apply He2, He1.
        * intros q [-> | Hq]%elem_of_cons; [by apply He2 | by apply Hp2]. }
  destruct (Hlist todo best) as (b1 & Hs1 & Hm1 & He1 & Hp1); [| done |].
  { intros p Hp. apply elem_of_reverse, list_elem_of_filter in Hp as [_ Hp]. by apply Hforest. }
  exists (<[a := node_best b1 (delegators_of s a)]> b1). split_and!.
  - destruct Hs1 as [n Hn]. exists (S (n + 1))%nat. intros fuel rest. simpl.
    rewrite bool_decide_eq_false_2 by done. rewrite push_preds, <- fmap_reverse.
    fold todo. rewrite <- Nat.add_assoc. rewrite Hn. done.
  - intros p h. rewrite lookup_insert_Some. intros [[<- <-] | [_ Hp]]; [| by apply Hm1].
    apply node_best_height; [done |]. intros p Hp.
    destruct (decide (is_Some (best !! p))) as [Hb | Hb]; [by apply He1 |].
    apply Hp1. unfold todo. apply elem_of_reverse, list_elem_of_filter. done.
  - intros p Hp. rewrite lookup_insert_is_Some'. right. by apply He1.
  - rewrite lookup_insert_eq. by eexists.
Qed.

Lemma inbound_depth_exact a :
  ∃ n h, (∀ fuel, (n ≤ fuel)%nat → longest_inbound_depth fuel s a = Some h) ∧
    inbound_height s a h.
Proof.
  destruct (visit a ∅) as (best & [n Hn] & Hm & _ & h & Ha); [by intros ? ? ?|].
  exists (S n), h. split; [| by apply Hm]. intros fuel Hf.
  unfold longest_inbound_depth. specialize (Hn (S (fuel - S n)) []).
  rewrite app_nil_r in Hn. replace (n + S (fuel - S n))%nat with fuel in Hn by lia.
  rewrite Hn. simpl. by rewrite Ha.
Qed.
End inbound.

(** ** Changing one pointer *)

(** [s'] is [s] with the pointer of [d] set to [o]. *)
Record relinked (s s' : storage GovKey) (d : Address) (o : option Address) : Prop := {
  relink_at : delegate_of s' d = o;
  relink_ne x : x ≠ d → delegate_of s' x = delegate_of s x;
  relink_back x y :
    x ∈ delegators_of s' y ↔ x ≠ d ∧ x ∈ delegators_of s y ∨ x = d ∧ o = Some y
}.

Section relink.
Context (s s' : storage GovKey) (d : Address) (o : option Address).
Hypotheses (Hforest : forest s) (Hrel : relinked s s' d o).
Hypothesis clear : ∀ e k z, o = Some e → path s k e z → z ≠ d.

Lemma relink_edge x y : edge s' x y → x ≠ d ∧ edge s x y ∨ x = d ∧ o = Some y.
Proof.
  unfold edge. intros He. destruct (decide (x = d)) as [-> | Hne].
  - rewrite (relink_at _ _ _ _ Hrel) in He. auto.
  - rewrite (relink_ne _ _ _ _ Hrel) in He by done. auto.
Qed.

Lemma relink_forest : forest s'.
Proof.
  assert (Acc (edge s') d) as Hd.
  { assert (∀ y k, path s k y d → Acc (edge s') y) as Hup; [| apply (Hup d 0%nat); constructor].
    induction y as [y IH] using (well_founded_induction (grounded _ Hforest)).
    intros k Hk. constructor. intros x [[_ He] | [-> Ho]]%relink_edge.
    - eapply IH; [done |]. by econstructor.
    - by edestruct clear. }
  split.
  - intros x y. rewrite (relink_back _ _ _ _ Hrel), <- (mirror _ Hforest). unfold edge. split.
    + apply relink_edge.
    + intros [[Hne He] | [-> Ho]];
        [by rewrite (relink_ne _ _ _ _ Hrel) | by rewrite (relink_at _ _ _ _ Hrel)].
  - intros y. induction y as [y IH] using (well_founded_induction (grounded _ Hforest)).
    constructor. intros x [[_ He] | [-> Ho]]%relink_edge; [by apply IH | done].
Qed.

Lemma relink_tail e j u k y :
  o = Some e → path s j e u → path s' k u y → path s k u y.
Proof.
  intros Ho Hj Hp. revert j Hj. induction Hp as [|k u v y He _ IH]; intros j Hj; [constructor |].
  apply relink_edge in He as [[_ He] | [-> _]].
  - econstructor; [done |]. eapply IH. by eapply path_snoc.
  - by edestruct clear.
Qed.

(** A chain of [s'] is a chain of [s], or one into [d] followed by one from its target. *)
Lemma relink_path k x y :
  path s' k x y →
  path s k x y ∨
  ∃ e a b, o = Some e ∧ k = (a + S b)%nat ∧ path s a x d ∧ path s b e y.
Proof.
  induction 1 as [|k x u y He Hp IH]; [left; constructor |].
  apply relink_edge in He as [[_ He] | [-> Ho]].
  - destruct IH as [? | (e & a & b & -> & -> & Ha & Hb)]; [left; by econstructor |].
    right. exists e, (S a), b. split_and!; [done | lia | by econstructor | done].
  - right. exists u, 0%nat, k. split_and!; [done | done | constructor |].
    eapply relink_tail; [done | constructor | done].
Qed.
End relink.

(** * The two calls *)
Section delegation.
Context {X : Type} `{TokenInterface X} `{GovPeers X}.
Variable budget : nat.
Abbreviation W := (world GovKey X GovEvent).
Abbreviation IO := (M W GovernanceError).
Implicit Types w : W.

Definition depth_limit w : Z := default DEFAULT_MAX_DELEGATION_DEPTH (store w GKey.MaxDelegationDepth).

Definition tally_key (k : GovKey) : bool :=
  match k with GKey.DelegatedToMe _ => true | _ => false end.

Lemma adjust_frame a n : keeps (touches tally_key) (adjust_delegated_to_me a n : IO unit).
Proof. unfold adjust_delegated_to_me. frame. Qed.

Lemma tally_graph w w' :
  touches tally_key w w' →
  (∀ x, delegate_of (store w') x = delegate_of (store w) x) ∧
  (∀ x, delegators_of (store w') x = delegators_of (store w) x) ∧ depth_limit w' = depth_limit w.
Proof.
  intros (_ & _ & Hk). unfold delegate_of, delegators_of, depth_limit.
  split_and!; intros; by rewrite Hk.
Qed.

Lemma remove_delegator_spec o d w w' :
  remove_delegator o d w = Done tt w' →
  (∀ x, delegate_of (store w') x = delegate_of (store w) x) ∧ depth_limit w' = depth_limit w ∧
  ∀ x y, x ∈ delegators_of (store w') y ↔
    x ∈ delegators_of (store w) y ∧ (y = o → x ≠ d).
Proof.
  intros Hx. unfold remove_delegator, get_delegators in Hx. minv Hx;
    unfold delegate_of, delegators_of, depth_limit in *; simpl in *.
  all: split_and!; [intros; by sto | by sto |]; intros x y.
  all: destruct (decide (o = y)) as [-> | Hne]; sto; [| naive_solver].
  all: match goal with E : filter _ ?l = _ |- _ =>
         assert (x ∈ filter (λ a, a ≠ d) l ↔ x ∈ l ∧ x ≠ d) as Hf
           by (rewrite list_elem_of_filter; tauto); rewrite E in Hf end.
  - rewrite elem_of_nil in *. naive_solver.
  - rewrite Hf. naive_solver.
Qed.

Lemma add_delegator_spec e d w w' :
  add_delegator e d w = Done tt w' →
  (∀ x, delegate_of (store w') x = delegate_of (store w) x) ∧ depth_limit w' = depth_limit w ∧
  ∀ x y, x ∈ delegators_of (store w') y ↔ x ∈ delegators_of (store w) y ∨ x = d ∧ y = e.
Proof.
  intros Hx. unfold add_delegator, get_delegators in Hx. minv Hx;
    unfold delegate_of, delegators_of, depth_limit in *; simpl in *; bools.
  - split_and!; [done..|]. naive_solver.
  - split_and!; [intros; by sto | by sto |]. intros x y.
    destruct (decide (e = y)) as [-> | Hne]; sto; [| naive_solver].
    rewrite elem_of_app, list_elem_of_singleton. naive_solver.
Qed.

(** [d] has been taken out of the reverse adjacency; its pointer still stands. *)
Definition detached w w0 (d : Address) : Prop :=
  (∀ x, delegate_of (store w0) x = delegate_of (store w) x) ∧ depth_limit w0 = depth_limit w ∧
  ∀ x y, x ∈ delegators_of (store w0) y ↔ x ∈ delegators_of (store w) y ∧ x ≠ d.

Lemma detached_none d w : forest (store w) → store w (GKey.Delegation d) = None → detached w w d.
Proof.
  intros Hf Hd. split_and!; [done..|]. intros x y. split; [| tauto]. intros Hx.
  split; [done |]. intros ->. apply (mirror _ Hf) in Hx. unfold edge, delegate_of in Hx. congruence.
Qed.

Lemma detached_some d v a n w w1 w0 :
  forest (store w) → store w (GKey.Delegation d) = Some v →
  adjust_delegated_to_me a n w = Done tt w1 → remove_delegator v d w1 = Done tt w0 →
  detached w w0 d.
Proof.
  intros Hf Hd (Ha & Hb & Hc)%adjust_frame%tally_graph (Hr1 & Hr2 & Hr3)%remove_delegator_spec.
  split_and!; [intros; by rewrite Hr1 | congruence |]. intros x y. rewrite Hr3, Hb.
  split; [| tauto]. intros [Hx Hy]. split; [done |]. intros ->. apply (mirror _ Hf) in Hx as He.
  unfold edge, delegate_of in He. simplify_eq. by apply Hy.
Qed.

Lemma attach_relinked d e a n w w0 w2 w3 :
  detached w w0 d →
  add_delegator e d (with_store (st_set (store w0) (GKey.Delegation d) (Some e)) w0) = Done tt w2 →
  adjust_delegated_to_me a n w2 = Done tt w3 →
  relinked (store w) (store w3) d (Some e) ∧ depth_limit w3 = depth_limit w.
Proof.
  intros (Hd1 & Hd2 & Hd3) (Ha1 & Ha2 & Ha3)%add_delegator_spec (Hb & Hc & He)%adjust_frame%tally_graph.
  unfold depth_limit, delegate_of, delegators_of in *; simpl in *. sto_in Ha2.
  split; [split | congruence].
  - unfold delegate_of. rewrite Hb, Ha1. by sto.
  - intros x Hx. unfold delegate_of. rewrite Hb, Ha1. sto. apply Hd1.
  - intros x y. unfold delegators_of. rewrite Hc, Ha3. sto. rewrite Hd3. naive_solver.
Qed.

Lemma delegate_votes_spec d e w w' :
  delegate_votes budget d e w = Done tt w' → forest (store w) →
  d ≠ e ∧ relinked (store w) (store w') d (Some e) ∧ depth_limit w' = depth_limit w ∧
  cycle_walk (Z.to_nat (depth_limit w)) (store w) d (delegate_of (store w) e) = None ∧
  ∃ up, longest_inbound_depth budget (store w) d = Some up ∧
    sat_u32 (sat_u32 (up + 1) + forward_depth (Z.to_nat (depth_limit w)) (store w) e)
      ≤ depth_limit w.
Proof.
  intros Hx Hf. unfold delegate_votes, get_own_balance_for_delegation, get_gov_token, gov_balance,
    proven_own_balance, get_max_delegation_depth in Hx.
  minv Hx; bools.
  - eapply attach_relinked in Hm1 as [? ?]; [| by eapply detached_some | done].
    split_and!; [done..|]. by exists a1.
  - eapply attach_relinked in Hm as [? ?]; [| by apply detached_none | done].
    split_and!; [done..|]. by exists a1.
Qed.

Lemma undelegate_votes_spec d w w' :
  undelegate_votes d w = Done tt w' → forest (store w) →
  relinked (store w) (store w') d None ∧ depth_limit w' = depth_limit w.
Proof.
  intros Hx Hf. unfold undelegate_votes, get_own_balance_for_delegation, get_gov_token, gov_balance,
    get_max_delegation_depth in Hx.
  minv Hx.
  - eapply detached_some in Hm1 as (Hd1 & Hd2 & Hd3); [| done..].
    unfold depth_limit, delegate_of, delegators_of in *; simpl in *.
    split; [split |]; unfold delegate_of, delegators_of; simpl.
    + by sto.
    + intros x Hx. sto. apply Hd1.
    + intros x y. sto. rewrite Hd3. naive_solver.
    + by sto.
  - split; [split |]; try done. intros x y. destruct (decide (x = d)) as [-> |]; [| naive_solver].
    rewrite <- (mirror _ Hf). unfold edge, delegate_of. naive_solver congruence.
Qed.

(** Both calls keep the forest; only [delegate_votes] may lengthen chains, and not past
    the limit. *)
Lemma delegate_clear d e w w' :
  delegate_votes budget d e w = Done tt w' → forest (store w) →
  ∀ k z, path (store w) k e z → z ≠ d ∧ (k ≤ Z.to_nat (depth_limit w))%nat.
Proof.
  intros Hx Hf. destruct (delegate_votes_spec d e w w' Hx Hf) as (Hne & _ & _ & Hc & _).
  eapply walk_clear; [exact Hc | done].
Qed.

Lemma gov_forest c w w' : gov_exec budget c w = Done tt w' → forest (store w) → forest (store w').
Proof.
  intros Hx Hf. destruct (delegation_call c) eqn:Hc.
  - destruct c; try discriminate Hc; simpl in Hx.
    + pose proof (delegate_clear _ _ _ _ Hx Hf) as Hclear.
      apply delegate_votes_spec in Hx as (_ & Hr & _); [| done].
      eapply relink_forest; [done | exact Hr |]. intros ? k z [= <-] Hp. by eapply Hclear.
    + apply undelegate_votes_spec in Hx as [Hr _]; [| done].
      by eapply relink_forest.
  - apply gov_graph_frame in Hx as (_ & _ & Hk); [| done].
    destruct Hf as [Hm Hg]. split.
    + intros x y. unfold edge, delegate_of, delegators_of in *. rewrite !Hk by done. apply Hm.
    + intros y. specialize (Hg y). induction Hg as [y _ IH]. constructor. intros x Hx.
      apply IH. unfold edge, delegate_of in *. by rewrite Hk in Hx by done.
Qed.

(** ** The depth limit *)
Lemma same_graph_forest s1 s2 :
  (∀ x, delegate_of s2 x = delegate_of s1 x) → (∀ x, delegators_of s2 x = delegators_of s1 x) →
  forest s1 → forest s2.
Proof.
  intros Hd Hb [Hm Hg]. split; unfold edge in *.
  - intros x y. rewrite Hd, Hb. apply Hm.
  - intros y. specialize (Hg y). induction Hg as [y _ IH]. constructor. intros x Hx.
    apply IH. by rewrite <- Hd.
Qed.

Lemma same_graph_path s1 s2 k x y :
  (∀ x, delegate_of s2 x = delegate_of s1 x) → path s2 k x y → path s1 k x y.
Proof.
  intros Hd. induction 1 as [|k x u y He _ IH]; [constructor |].
  econstructor; [| exact IH]. unfold edge in *. by rewrite <- Hd.
Qed.

Lemma delegate_chains d e w w' :
  delegate_votes budget d e w = Done tt w' → forest (store w) → 0 ≤ depth_limit w < u32_max →
  chains_within (store w) (depth_limit w) → chains_within (store w') (depth_limit w').
Proof.
  intros Hx Hf Hlim Hch. pose proof (delegate_clear _ _ _ _ Hx Hf) as Hclear.
  apply delegate_votes_spec in Hx as (_ & Hr & -> & _ & up & Hup & Hle); [| done].
  destruct (inbound_depth_exact _ Hf d) as (n & h & Hn & Hh & _ & Hmax).
  destruct (forward_depth_exact (store w) (Z.to_nat (depth_limit w)) e) as (m & Hm & Hpm & Hend).
  { intros k z Hp. by eapply Hclear. }
  intros k x y Hp. eapply relink_path in Hp; [| exact Hr |].
  2: { intros ? j z [= <-] Hj. by eapply Hclear. }
  destruct Hp as [Hp | (? & a & b & [= <-] & -> & Ha & Hb)]; [by eapply Hch |].
  assert (longest_inbound_depth (n `max` budget) (store w) d = Some h) as Hbig by (apply Hn; lia).
  assert (up = h) as ->.
  { assert (∀ f1 f2 best st r, inbound_loop f1 (store w) best st = Some r → (f1 ≤ f2)%nat →
      inbound_loop f2 (store w) best st = Some r) as Hmono.
    { induction f1 as [|f1 IH]; intros [|f2] best st r; simpl; try done; [lia |].
      intros Hl ?. repeat case_match; try done; (eapply IH; [eassumption | lia]). }
    unfold longest_inbound_depth in *.
    destruct (inbound_loop budget _ _ _) as [r|] eqn:Hb1; [| done]. simpl in Hup.
    rewrite (Hmono _ (n `max` budget)%nat _ _ _ Hb1) in Hbig by lia. simpl in Hbig. congruence. }
  rewrite Hm in Hle. pose proof (path_to_terminal _ _ _ _ _ _ Hpm Hend Hb) as Hbm.
  unfold sat in Hle.
  assert (Z.of_nat a ≤ h) by (apply (Hmax ltac:(lia) a x Ha)). lia.
Qed.

(** The run invariant: before initialization the limit is the default. *)
Definition delegation_ok w : Prop :=
  forest (store w) ∧ chains_within (store w) (depth_limit w) ∧ 0 ≤ depth_limit w < u32_max ∧
  (store w GKey.IlnContract = None → depth_limit w = DEFAULT_MAX_DELEGATION_DEPTH).

(** The owner never lowers the limit, nor switches it off. *)
Definition raises_limit (c : GovCall) w : Prop :=
  ∀ n, c = GSetMaxDelegationDepth n → depth_limit w ≤ n < u32_max.

Lemma gov_delegation_ok c w w' :
  gov_exec budget c w = Done tt w' → raises_limit c w → delegation_ok w → delegation_ok w'.
Proof.
  intros Hx Hok (Hf & Hch & Hlim & Hi). pose proof (gov_forest c _ _ Hx Hf) as Hf'.
  split; [done |]. destruct (delegation_call c) eqn:Hc.
  - pose proof Hx as Ht. apply gov_limit_frame in Ht as (_ & _ & Hk); [| by destruct c].
    assert (depth_limit w' = depth_limit w) as Hd by (unfold depth_limit; by rewrite Hk).
    rewrite Hd, Hk by done. split; [| done]. rewrite <- Hd.
    destruct c; try discriminate Hc; simpl in Hx.
    + by eapply delegate_chains.
    + apply undelegate_votes_spec in Hx as [Hr ->]; [| done].
      intros k x y Hp. eapply relink_path in Hp; [| exact Hr | done].
      destruct Hp as [Hp | (? & ? & ? & ? & _)]; [by eapply Hch | done].
  - pose proof Hx as Hg. apply gov_graph_frame in Hg as (_ & _ & Hg); [| done].
    assert (∀ k x y, path (store w') k x y → path (store w) k x y) as Hpath.
    { intros k x y. apply same_graph_path. intros z. by apply (Hg (GKey.Delegation z)). }
    destruct (depth_call c) eqn:Hdc.
    + assert (depth_limit w ≤ depth_limit w' < u32_max ∧ is_Some (store w' GKey.IlnContract))
        as [Hle Hs].
      { destruct c; try discriminate Hdc; simpl in Hx.
        - unfold initialize in Hx. minv Hx. bools. apply eq_None_not_Some in H1.
          unfold depth_limit in *; simpl. sto. rewrite Hi by done. split; [by vm_compute | by eexists].
        - specialize (Hok _ eq_refl).
          unfold set_max_delegation_depth, get_iln_contract, get_max_delegation_depth in Hx.
          minv Hx; unfold depth_limit in *; simpl in *; sto; (split; [done | by eexists]). }
      split_and!; [| lia | lia | by intros Hn; rewrite Hn in Hs; destruct Hs].
      intros k x y Hp%Hpath%Hch. lia.
    + apply gov_limit_frame in Hx as (_ & _ & Hk); [| done].
      assert (depth_limit w' = depth_limit w) as -> by (unfold depth_limit; by rewrite Hk).
      rewrite Hk by done. split; [| done]. intros k x y Hp%Hpath. by eapply Hch.
Qed.

Lemma delegation_ok_deployed w : gov_deployed w → delegation_ok w.
Proof.
  intros Hd. assert (∀ x, delegate_of (store w) x = None) as Hn by (intros x; apply (Hd (GKey.Delegation x))).
  unfold delegation_ok, depth_limit. rewrite Hd. simpl.
  split; [| split; [| split; [by vm_compute | done]]].
  - split.
    + intros x y. unfold edge, delegators_of. rewrite Hn, Hd. simpl. by rewrite elem_of_nil.
    + intros y. constructor. intros x Hx. unfold edge in Hx. by rewrite Hn in Hx.
  - intros k x y Hp. inversion Hp as [|? ? ? ? He]; subst; [by vm_compute |].
    unfold edge in He. by rewrite Hn in He.
Qed.

Lemma run_delegation_ok w w' :
  rtc (gov_step budget raises_limit gov_free) w w' → delegation_ok w → delegation_ok w'.
Proof.
  induction 1 as [|w w1 w2 Hs _ IH]; [done |]. intros Hok. apply IH.
  destruct Hs as [c _ Hr Hx | He _]; [by eapply gov_delegation_ok |].
  destruct Hok as (Hf & Hch & Hlim & Hi).
  assert (∀ k, temporary k = false → store w1 k = store w k) as Hk
    by (intros k; by apply gov_env_keeps).
  assert (depth_limit w1 = depth_limit w) as Hd by (unfold depth_limit; by rewrite Hk).
  unfold delegation_ok. rewrite Hd, Hk by done.
  split; [| split; [| split; [exact Hlim | exact Hi]]].
  - eapply same_graph_forest; [| | exact Hf]; intros x; unfold delegate_of, delegators_of; by rewrite Hk.
  - intros k x y Hp. eapply same_graph_path in Hp; [by eapply Hch |].
    intros z. unfold delegate_of. by rewrite Hk.
Qed.

(** C29: the delegation graph.  On any run from deployment on which the owner never lowers
    the limit, the reverse adjacency lists exactly the delegations, no delegation chain
    is cyclic, and none is longer than [MaxDelegationDepth]. *)
Theorem delegation_graph w0 w :
  gov_deployed w0 → rtc (gov_step budget raises_limit gov_free) w0 w →
  forest (store w) ∧ chains_within (store w) (depth_limit w).
Proof.
  intros Hd Hr. destruct (run_delegation_ok _ _ Hr) as (? & ? & _); [| done].
  by apply delegation_ok_deployed.
Qed.

(** The forest does not depend on the depth limit, so it survives every run. *)
Lemma run_forest ok env w w' :
  rtc (gov_step budget ok env) w w' → forest (store w) → forest (store w').
Proof.
  induction 1 as [|w w1 w2 Hs _ IH]; [done |]. intros Hf. apply IH.
  destruct Hs as [c _ _ Hx | He _]; [by eapply gov_forest |].
  eapply same_graph_forest; [| | exact Hf]; intros x; unfold delegate_of, delegators_of;
    by rewrite (gov_env_keeps w w1 _ He).
Qed.

(** C30: termination of [longest_inbound_depth].  On every run from deployment, whatever is
    called and however the depth limit is moved, the explicit-stack walk from any address
    ends, whatever larger budget it is given, and answers the length of the longest
    delegation chain into that address, clipped at [u32::MAX]. *)
Theorem inbound_depth_terminates w0 w a :
  gov_deployed w0 → rtc (gov_step budget gov_any gov_free) w0 w →
  ∃ n h, (∀ fuel, (n ≤ fuel)%nat → longest_inbound_depth fuel (store w) a = Some h) ∧
    inbound_height (store w) a h.
Proof.
  intros Hd Hr. apply inbound_depth_exact, (run_forest _ _ _ _ Hr).
  by destruct (delegation_ok_deployed _ Hd).
Qed.
End delegation.

(** * Witnesses *)
Module DelegationWitness.
Import GovScenario.

Lemma keeps_limit l :
  forallb (λ p : Z * GovCall, init_call p.2 || negb (depth_call p.2)) l = true →
  ∀ n c (w : W), (n, c) ∈ l → raises_limit c w.
Proof.
  intros Hl n c w Hc k ->. rewrite forallb_forall in Hl.
  apply list_elem_of_In in Hc. by apply Hl in Hc.
Qed.
Lemma delegated_steps : rtc (step raises_limit) w0 w_delegated.
Proof. apply played_run; [done | by apply keeps_limit | vm_compute; reflexivity]. Qed.

Lemma delegation_graph_witness :
  (forest (store w_delegated) ∧ chains_within (store w_delegated) (depth_limit w_delegated)) ∧
  edge (store w_delegated) alice bob ∧ edge (store w_delegated) bob carol.
Proof.
  split; [| by vm_compute].
  apply (delegation_graph 50 w0 w_delegated); [exact deployed | exact delegated_steps].
Defined.

(** The limit is lowered below the chain that is already there. *)
Definition w_tightened : W := played [(60, GSetMaxDelegationDepth 1)] w_delegated.
Lemma any_delegated : rtc (step gov_any) w0 w_delegated.
Proof. apply played_run; [done | done | vm_compute; reflexivity]. Qed.
Lemma tightened_steps : rtc (step gov_any) w0 w_tightened.
Proof.
  etrans; [exact any_delegated |]. apply played_run; [done | done | vm_compute; reflexivity].
Qed.

Lemma inbound_depth_terminates_witness :
  (∃ n h, (∀ fuel, (n ≤ fuel)%nat → longest_inbound_depth fuel (store w_tightened) carol = Some h)
    ∧ inbound_height (store w_tightened) carol h) ∧
  longest_inbound_depth 9 (store w_tightened) carol = Some 2 ∧ depth_limit w_tightened = 1.
Proof.
  split; [| by vm_compute].
  apply (inbound_depth_terminates 50 w0 w_tightened); [exact deployed | exact tightened_steps].
Defined.

(** [alice] delegates to [bob], sells her tokens and undelegates; then [bob] votes. *)
Definition w_sold : W :=
  let w := played (setup ++ [(115, GDelegate alice bob)]) w0 in
  with_ext (Sac.credit (Sac.credit (ext w) token alice (-3000)) token carol 3000) w.
Definition w_phantom : W :=
  played [ (118, GUndelegate alice); (120, GCreateProposal bob (UpdateFeeRate 200) 9%N 200);
           (121, GVote bob 1 true) ] w_sold.
(** [alice] delegates to [bob]; both vote. *)
Definition w_twice : W :=
  played (setup ++ [ (115, GDelegate alice bob);
                     (120, GCreateProposal bob (UpdateFeeRate 200) 9%N 200);
                     (121, GVote bob 1 true); (122, GVote alice 1 true) ]) w0.

Definition votes_for (w : W) : option Z :=
  p ← store w (GKey.Proposal 1); Some (gp_votes_for p).

(** Delegated weight is counted twice and outlives its tokens.  [bob] holds 2000
    tokens and [alice] 3000.  Undelegating subtracts the delegator's live balance, so
    after [alice] has sold her tokens and left, [bob], to whom nobody delegates, still
    votes with 5000; and since a delegator keeps its own vote, both voting on one
    proposal yields 8000 votes from their 5000 tokens. *)
Theorem delegation_overcounts :
  (delegators_of (store w_phantom) bob = [] ∧ tok_balance (ext w_phantom) token bob = 2000 ∧
   votes_for w_phantom = Some 5000) ∧
  (tok_balance (ext w_twice) token bob + tok_balance (ext w_twice) token alice = 5000 ∧
   votes_for w_twice = Some 8000).
Proof. vm_compute. repeat split; reflexivity. Qed.
End DelegationWitness.
