(* ===== verification/GovProps.v ===== *)
(** Properties of proposals and votes in [Governance.v]: the proposal state machine, one
    vote per voter, proven vote weights, the gates in front of execution and veto, and
    the integer square root of quadratic voting. *)
From S2P Require Import Prelude Host GovTypes Governance GovSystem GovScenario.

(** * The integer square root *)
Lemma isqrt_loop_spec fuel n lo hi :
  n ≤ i128_max → 0 ≤ lo ≤ hi → hi < i128_max → hi - lo < 2 ^ Z.of_nat fuel →
  lo * lo ≤ n < (hi + 1) * (hi + 1) →
  ∃ r, isqrt_loop (S fuel) n lo hi = Some r ∧ 0 ≤ r ∧ r * r ≤ n < (r + 1) * (r + 1).
Proof.
  intros Hn. revert lo hi. induction fuel as [|fuel IH]; intros lo hi Hlh Hhi Hf Hsq.
  - simpl in Hf. assert (hi = lo) as -> by lia.
    exists lo. simpl. rewrite Z.ltb_irrefl. split; [done | lia].
  - remember (S fuel) as f. simpl. destruct (lo <? hi) eqn:Hlt; bools.
    2: { assert (hi = lo) as -> by lia. exists lo. split; [done | lia]. }
    rewrite (sat_id _ _ (hi - lo)), (sat_id _ _ (hi - lo + 1)), Z.quot_div_nonneg
      by (unfold i128_min; lia).
    pose proof (Z.div_mod (hi - lo + 1) 2 ltac:(lia)) as Hdm.
    pose proof (Z.mod_pos_bound (hi - lo + 1) 2 ltac:(lia)) as Hmb.
    rewrite (sat_id _ _ (lo + _)) by (unfold i128_min; lia).
    set (mid := lo + (hi - lo + 1) / 2) in *.
    rewrite (sat_id _ _ (mid - 1)) by (unfold i128_min; lia).
    assert (2 ^ Z.of_nat f = 2 * 2 ^ Z.of_nat fuel) as Hpow
      by (subst f; rewrite Nat2Z.inj_succ; apply Z.pow_succ_r; lia).
    subst f.
    assert (n < mid * mid → ∃ r, isqrt_loop (S fuel) n lo (mid - 1) = Some r ∧ 0 ≤ r ∧
      r * r ≤ n < (r + 1) * (r + 1)) as Hbelow.
    { intros Hm. apply IH; replace (mid - 1 + 1) with mid by lia; lia. }
    unfold checked. destruct (in_i128 (mid * mid)) eqn:Hin.
    + destruct (mid * mid <=? n) eqn:Hle; bools; [apply IH; lia | by apply Hbelow].
    + apply Hbelow.
      assert (in_i128 (mid * mid) ≠ true) as Hne by congruence. rewrite in_i128_spec in Hne.
      assert (0 ≤ mid * mid) by nia. unfold i128_min in *. lia.
Qed.

(** C36: [isqrt] is total on [i128] and answers the floor of the square root: the
    binary search ends within its 129 rounds, and no rounding or saturation is visible. *)
Theorem isqrt_floor n :
  i128_min ≤ n ≤ i128_max →
  ∃ r, isqrt n = Some r ∧ 0 ≤ r ∧ (n ≤ 0 → r = 0) ∧ (0 ≤ n → r * r ≤ n < (r + 1) * (r + 1)).
Proof.
  intros Hn. unfold isqrt. destruct (n <=? 1) eqn:H1; bools.
  - exists (Z.max n 0). split; [done |]. assert (n ≤ 0 ∨ n = 1) as [? | ->] by lia; [nia | lia].
  - destruct (Z.eq_dec n i128_max) as [-> | Hne].
    + exists 13043817825332782212. by vm_compute.
    + destruct (isqrt_loop_spec 128 n 0 n) as (r & -> & Hr & Hs); [lia.. | | |].
      * assert (i128_max < 2 ^ Z.of_nat 128) by by vm_compute. lia.
      * nia.
      * exists r. split; [done |]. lia.
Qed.

(** [footprint S H as N]: the frame of the run [H] as the fact [N]. *)
Tactic Notation "footprint" constr(S) hyp(H) "as" ident(N) :=
  lazymatch type of H with ?m ?w = Done ?a ?w' =>
    assert (touches S w w') as N;
    [ let K := fresh in assert (keeps (touches S) m) as K; [frame | exact (K _ _ _ H)] |]
  end.

(** * Proposals *)
Section gov_props.
Context {X : Type} `{TokenInterface X} `{GovPeers X}.
Variable budget : nat.
Abbreviation W := (world GovKey X GovEvent).
Abbreviation IO := (M W GovernanceError).
Abbreviation gov_exec := (gov_exec budget).
Implicit Types w : W.

Definition gov_proposal_at w (id : Z) : option GovernanceProposal := store w (GKey.Proposal id).
Definition proposal_count w : Z := default 0 (store w GKey.ProposalCount).
Definition gov_signed w (a : Address) : Prop := auth (ctx w) a = true.
(** The votes a proposal needs. *)
Definition quorum_votes w : Z :=
  sat_i128 (default 0 (store w GKey.GovTokenTotalSupply) * default 0 (store w GKey.MinQuorumBps))
    ÷ 10000.
(** [a] has approved vetoing [id]. *)
Definition has_approved w (id : Z) (a : Address) : Prop :=
  is_Some (store w (GKey.VetoApprovalReceipt id a)).

Definition new_proposal w (id : Z) (p : Address) (a : ProposalAction) (h : BytesN32) (v : Z) :
    GovernanceProposal :=
  mkGovProposal id p h a v Active 0 0 (now (ctx w)) (sat_u64 (now (ctx w) + VOTING_PERIOD_SECS)) 0.
Definition tallied (b : bool) (n : Z) (p : GovernanceProposal) : GovernanceProposal :=
  if b then set_votes (sat_i128 (gp_votes_for p + n)) (gp_votes_against p) p
  else set_votes (gp_votes_for p) (sat_i128 (gp_votes_against p + n)) p.

(** How one call may change one proposal.  There is no edge into [Rejected]. *)
Inductive gov_proposal_step w (id : Z) :
    GovCall → option GovernanceProposal → option GovernanceProposal → Prop :=
| gps_same c p : gov_proposal_step w id c p p
| gps_created pr a h v :
    gov_signed w pr → id = sat_u64 (proposal_count w + 1) → is_Some (store w GKey.GovToken) →
    gov_proposal_step w id (GCreateProposal pr a h v) (gov_proposal_at w id)
      (Some (new_proposal w id pr a h v))
| gps_voted v b n p :
    gov_signed w v → gp_status p = Active → now (ctx w) < gp_voting_end p →
    store w (GKey.VoteReceipt id v) = None → n ≠ 0 →
    gov_proposal_step w id (GVote v id b) (Some p) (Some (tallied b n p))
| gps_passed p delay :
    gp_status p = Active → gp_voting_end p ≤ now (ctx w) →
    0 ≤ gp_votes_against p < gp_votes_for p →
    quorum_votes w ≤ gp_votes_for p + gp_votes_against p →
    delay = default 0 (store w GKey.ExecutionDelay) → ledger_seq (ctx w) + delay ≤ u32_max →
    gov_proposal_step w id (GExecute id) (Some p)
      (Some (set_gov_status Passed (set_eta (ledger_seq (ctx w) + delay) p)))
| gps_executed p :
    gp_status p = Passed → gp_voting_end p ≤ now (ctx w) → gp_eta_ledger p ≤ ledger_seq (ctx w) →
    gov_proposal_step w id (GExecute id) (Some p) (Some (set_gov_status Executed p))
| gps_vetoed s h p signers threshold :
    gov_signed w s → gp_status p = Active ∨ gp_status p = Passed →
    store w GKey.VetoPowerEnabled = Some true → store w GKey.VetoSigners = Some signers →
    threshold = default 0 (store w GKey.VetoThreshold) → s ∈ signers → ¬ has_approved w id s →
    threshold ≤ vlen (filter (λ a, a = s ∨ has_approved w id a) signers) →
    gov_proposal_step w id (GVeto s id h) (Some p) (Some (set_gov_status Vetoed p)).

(** ** What the helpers leave alone *)
Lemma load_proposal_done id p w w' :
  load_proposal id w = Done p w' →
  w' = w ∧ gov_proposal_at w id = Some p ∧ gp_id p = id ∧ id ≤ proposal_count w.
Proof.
  intros Hx. unfold load_proposal in Hx. minv Hx. bools. unfold gov_proposal_at, proposal_count in *.
  done.
Qed.

Lemma refund_frame id a : keeps (touches deposit_key) (refund_proposal_deposit id a : IO bool).
Proof. unfold refund_proposal_deposit, get_gov_token. frame. Qed.
Lemma forfeit_frame id a : keeps (touches deposit_key) (forfeit_proposal_deposit id a : IO bool).
Proof. unfold forfeit_proposal_deposit, get_gov_token, get_proposal_deposit_sink. frame. Qed.

Lemma deposit_same w w' k : touches deposit_key w w' → deposit_key k = false → store w' k = store w k.
Proof. intros (_ & _ & Hk). apply Hk. Qed.

Lemma create_proposal_spec pr a h v id w w' :
  create_proposal pr a h v w = Done id w' →
  gov_signed w pr ∧ id = sat_u64 (proposal_count w + 1) ∧ is_Some (store w GKey.GovToken) ∧
  proposal_count w' = id ∧ gov_proposal_at w' id = Some (new_proposal w id pr a h v) ∧
  ∀ j, j ≠ id → gov_proposal_at w' j = gov_proposal_at w j.
Proof.
  intros Hx. unfold create_proposal, get_gov_token, gov_balance in Hx.
  unfold gov_proposal_at, proposal_count, gov_signed, new_proposal.
  minv Hx; split_and!; try done; try (by eexists); intros; by sto.
Qed.

Lemma has_voted_done v id b w w' :
  has_voted v id w = Done b w' → w' = w ∧ (b = false → store w (GKey.VoteReceipt id v) = None).
Proof.
  intros Hx. unfold has_voted in Hx. minv Hx. split; [done |].
  intros [_ Hb]%orb_false_iff. bools. by apply eq_None_not_Some.
Qed.

(** The weight a vote carries: [own] tokens, the delegated tally, square-rooted when
    quadratic voting is on. *)
Definition weighs w (v : Address) (own n : Z) : Prop :=
  let raw := sat_i128 (own + default 0 (store w (GKey.DelegatedToMe v))) in
  n ≠ 0 ∧ (if default false (store w GKey.QuadraticVotingEnabled) then isqrt raw = Some n else n = raw).

Lemma own_vote_weight_done v id t own w w1 :
  own_vote_weight v id t w = Done own w1 →
  (store w (GKey.VoteWeightSnapshot id v) = Some own ∧ w1 = w ∨
   store w (GKey.VoteWeightSnapshot id v) = None ∧
   ∃ created c, store w (GKey.ProposalCreatedLedger id) = Some created ∧
     eligible_checkpoint (store w) v created = Some c ∧
     own = Z.min (cp_balance c) (tok_balance (ext w) t v) ∧
     w1 = with_store (st_set (store w) (GKey.VoteWeightSnapshot id v) (Some own)) w).
Proof.
  intros Hx. unfold own_vote_weight, gov_balance, proven_own_balance in Hx.
  minv Hx; [by left | right]. split; [done |]. eauto 8.
Qed.

Lemma cast_vote_spec v id b w w' :
  cast_vote v id b w = Done tt w' →
  ∃ p t own n w1,
    gov_signed w v ∧ gov_proposal_at w id = Some p ∧ gp_id p = id ∧ id ≤ proposal_count w ∧
    now (ctx w) < gp_voting_end p ∧ gp_status p = Active ∧ store w (GKey.VoteReceipt id v) = None ∧
    store w GKey.GovToken = Some t ∧ own_vote_weight v id t w = Done own w1 ∧ weighs w v own n ∧
    w' = with_event (GEv.VoteCast id v b n)
      (with_store (st_set (st_set (st_set (st_set (store w1) (GKey.HasVoted id v) (Some true))
         (GKey.AppliedVoteWeight id v) (Some n)) (GKey.VoteReceipt id v) (Some n))
         (GKey.Proposal id) (Some (tallied b n p))) w1).
Proof.
  intros Hx. unfold cast_vote in Hx.
  apply bind_done in Hx as (? & ? & [Ha ->]%require_auth_done & Hx).
  apply bind_done in Hx as (p & ? & (-> & Hp & Hid & Hc)%load_proposal_done & Hx).
  revert Hid.
  apply bind_done in Hx as (t & ? & [-> ->]%timestamp_done & Hx).
  apply bind_done in Hx as (? & ? & [Ht ->]%reject_if_done & Hx).
  apply bind_done in Hx as (? & ? & [Hs ->]%reject_if_done & Hx).
  apply bind_done in Hx as (voted & ? & [-> Hv]%has_voted_done & Hx).
  apply bind_done in Hx as (? & ? & [-> ->]%reject_if_done & Hx).
  unfold get_gov_token in Hx.
  apply bind_done in Hx as (token & w0 & Htok & Hx). minv Htok.
  apply bind_done in Hx as (own & w1 & Hown & Hx).
  assert (store w1 (GKey.DelegatedToMe v) = store w (GKey.DelegatedToMe v) ∧
    store w1 GKey.QuadraticVotingEnabled = store w GKey.QuadraticVotingEnabled) as [Hd Hq].
  { apply own_vote_weight_done in Hown as [[_ ->] | (_ & ? & ? & _ & _ & _ & ->)]; [done |].
    simpl. by sto. }
  unfold is_quadratic_voting_enabled in Hx.
  assert (∃ n, weighs w v own n ∧
    w' = with_event (GEv.VoteCast id v b n)
      (with_store (st_set (st_set (st_set (st_set (store w1) (GKey.HasVoted id v) (Some true))
         (GKey.AppliedVoteWeight id v) (Some n)) (GKey.VoteReceipt id v) (Some n))
         (GKey.Proposal id) (Some (tallied b n p))) w1)) as (n & Hn & ->).
  { unfold weighs. rewrite <- Hd, <- Hq.
    minv Hx; bools; (eexists; split; [split; [eassumption |] | reflexivity]);
      rename select (default false _ = _) into Hb; by rewrite Hb. }
  bools. intros Hid. exists p, token, own, n, w1. split_and!; auto.
Qed.

Lemma transition_done p s q w w' :
  transition_status p s w = Done q w' →
  is_legal_transition (gp_status p) s = true ∧ q = set_gov_status s p ∧
  w' = with_store (st_set (store w) (GKey.Proposal (gp_id p)) (Some q)) w.
Proof. intros Hx. unfold transition_status in Hx. by minv Hx; bools. Qed.

Lemma required_quorum_done q w w' :
  required_quorum w = Done q w' → w' = w ∧ q = quorum_votes w.
Proof.
  intros Hx. unfold required_quorum in Hx. minv Hx. unfold quorum_votes.
  split; [done |]. by match goal with E : _ = Some _ |- _ => rewrite E end.
Qed.

(** Every call writes the proposals through these two shapes. *)
Definition only_proposal w w' (id : Z) (p : GovernanceProposal) : Prop :=
  gov_proposal_at w' id = Some p ∧ (∀ j, j ≠ id → gov_proposal_at w' j = gov_proposal_at w j) ∧
  proposal_count w' = proposal_count w.

Lemma only_proposal_touches S w w1 w' id p :
  only_proposal w w1 id p → touches S w1 w' → (∀ k, S k = true → proposal_key k = false) →
  only_proposal w w' id p.
Proof.
  intros (Hp & Hj & Hc) (_ & _ & Hk) HS. unfold only_proposal, gov_proposal_at, proposal_count in *.
  assert (∀ k, proposal_key k = true → store w' k = store w1 k) as Hk'.
  { intros k Hpk. apply Hk. destruct (S k) eqn:E; [| done]. apply HS in E. congruence. }
  split_and!; [by rewrite Hk' | intros j ?; rewrite Hk' by done; by apply Hj | by rewrite Hk'].
Qed.

Lemma only_proposal_set w id p :
  only_proposal w (with_store (st_set (store w) (GKey.Proposal id) (Some p)) w) id p.
Proof. unfold only_proposal, gov_proposal_at, proposal_count. simpl. by split_and!; intros; sto. Qed.

Lemma close_vote_spec id p w w' :
  close_vote id p w = Done tt w' → gp_id p = id → gp_status p = Active →
  ∃ delay, 0 ≤ gp_votes_against p < gp_votes_for p ∧
    quorum_votes w ≤ gp_votes_for p + gp_votes_against p ∧
    delay = default 0 (store w GKey.ExecutionDelay) ∧ ledger_seq (ctx w) + delay ≤ u32_max ∧
    only_proposal w w' id (set_gov_status Passed (set_eta (ledger_seq (ctx w) + delay) p)).
Proof.
  intros Hx Hid Hs. unfold close_vote in Hx.
  apply bind_done in Hx as (? & ? & [Hneg ->]%reject_if_done & Hx).
  apply bind_done in Hx as (total & ? & [Ht ->]%ok_or_done & Hx).
  apply bind_done in Hx as (q & ? & [-> ->]%required_quorum_done & Hx).
  apply bind_done in Hx as ([] & w1 & Hq & Hx).
  destruct (total <? quorum_votes w) eqn:Hlt.
  { repeat (apply bind_done in Hq as (? & ? & _ & Hq)). by apply throw_done in Hq. }
  apply ret_done in Hq as [_ ->].
  apply bind_done in Hx as ([] & w1 & Hq & Hx).
  destruct (gp_votes_for p <=? gp_votes_against p) eqn:Hmaj.
  { repeat (apply bind_done in Hq as (? & ? & _ & Hq)). by apply throw_done in Hq. }
  apply ret_done in Hq as [_ ->].
  apply bind_done in Hx as (delay & ? & Hdl & Hx). minv Hdl.
  apply bind_done in Hx as (ledger & ? & [-> ->]%sequence_done & Hx).
  apply bind_done in Hx as (eta & ? & [He ->]%ok_or_done & Hx).
  apply bind_done in Hx as (p' & w1 & (_ & -> & Hw1)%transition_done & Hx).
  apply bind_done in Hx as (r & w2 & Hr%refund_frame & [_ ->]%ret_done).
  bools. rename select (in_u32 _ = true) into Hu. apply in_u32_spec in Hu.
  eexists. split_and!; [lia | lia | lia | reflexivity | lia |].
  eapply only_proposal_touches; [| exact Hr | by intros []].
  apply only_proposal_set.
Qed.

Lemma run_passed_spec id p w w' :
  run_passed id p w = Done tt w' → gp_id p = id →
  gp_status p = Passed ∧ gp_voting_end p ≤ now (ctx w) ∧ gp_eta_ledger p ≤ ledger_seq (ctx w) ∧
  (store w' = store w ∨ only_proposal w w' id (set_gov_status Executed p)).
Proof.
  intros Hx <-. unfold run_passed in Hx.
  apply bind_done in Hx as (? & w0 & Ha & Hx). unfold assert_executable in Ha. minv Ha.
  apply bind_done in Hx as (iln & ? & Hi & Hx). unfold get_iln_contract in Hi. minv Hi.
  apply bind_done in Hx as (target & w1 & Hc & Hx).
  assert (w1 = w) as -> by (unfold call_of_action, get_iln_contract, get_distribution_contract,
    get_reputation_bonus_contract in Hc; by minv Hc).
  apply bind_done in Hx as (b & w1 & Hv & Hx).
  assert (store w1 = store w) as Hw1.
  { unfold invoke_and_check in Hv. apply bind_done in Hv as (r & w2 & Hr & [_ ->]%ret_done).
    by apply try_invoke_done in Hr as [(? & ? & _ & _ & ->) | (_ & _ & ->)]. }
  bools. split_and!; try done. destruct b; simpl in Hx.
  - right. apply bind_done in Hx as (p' & w2 & (_ & -> & Hw2)%transition_done & Hx).
    apply only_proposal_touches with (w1 := w2)
      (S := λ k, match k with GKey.ProposalExecutedRecord _ | GKey.ExecutionNonce => true
                 | _ => deposit_key k end); [| | by intros []].
    + subst w2. unfold only_proposal, gov_proposal_at, proposal_count. simpl. rewrite Hw1.
      by split_and!; intros; sto.
    + revert Hx. apply (λ K : keeps (touches _) _, K w2 tt w').
      unfold refund_proposal_deposit, get_gov_token. frame.
  - left. apply publish_done in Hx as ->. exact Hw1.
Qed.

Lemma execute_proposal_step id w w' j :
  execute_proposal id w = Done tt w' →
  gov_proposal_step w j (GExecute id) (gov_proposal_at w j) (gov_proposal_at w' j) ∧
  proposal_count w' = proposal_count w.
Proof.
  intros Hx. unfold execute_proposal in Hx.
  apply bind_done in Hx as (p & ? & (-> & Hp & Hid & Hc)%load_proposal_done & Hx).
  apply bind_done in Hx as (? & ? & [Hv ->]%reject_if_done & Hx).
  apply bind_done in Hx as (? & ? & [He ->]%reject_if_done & Hx).
  apply bind_done in Hx as (t & ? & [-> ->]%timestamp_done & Hx).
  apply bind_done in Hx as (? & ? & [Ht ->]%reject_if_done & Hx). bools.
  destruct (gp_status p) eqn:Hs; try by apply throw_done in Hx.
  - apply close_vote_spec in Hx as (delay & Hm & Hq & Hd & Hl & Ho & Hj & Hn); [| done..].
    split; [| done]. destruct (decide (j = id)) as [-> | Hne]; [| rewrite Hj by done; constructor].
    rewrite Hp, Ho. by constructor.
  - apply run_passed_spec in Hx as (_ & _ & Heta & [Hst | (Ho & Hj & Hn)]); [| | done].
    + unfold gov_proposal_at, proposal_count. rewrite Hst. split; [constructor | done].
    + split; [| done]. destruct (decide (j = id)) as [-> | Hne]; [| rewrite Hj by done; constructor].
      rewrite Hp, Ho. by constructor.
Qed.

#[local] Instance has_approved_dec w id a : Decision (has_approved w id a).
Proof. unfold has_approved. apply _. Defined.

(** What a veto writes besides the proposal. *)
Definition veto_key (k : GovKey) : bool :=
  match k with
  | GKey.ProposalProposer _ | GKey.VetoState _ | GKey.VetoApprovals _
  | GKey.VetoApprovalReceipt _ _ => true
  | _ => deposit_key k
  end.
Lemma veto_key_same w w' j :
  touches veto_key w w' →
  gov_proposal_at w' j = gov_proposal_at w j ∧ proposal_count w' = proposal_count w.
Proof. intros (_ & _ & Hk). unfold gov_proposal_at, proposal_count. by rewrite !Hk. Qed.

Lemma verified_proposer_frame p :
  keeps (touches (λ k, match k with GKey.ProposalProposer _ => true | _ => false end))
    (verified_proposer p : IO Address).
Proof. unfold verified_proposer. frame. Qed.

Lemma veto_proposal_step s id h w w' j :
  veto_proposal s id h w = Done tt w' →
  gov_proposal_step w j (GVeto s id h) (gov_proposal_at w j) (gov_proposal_at w' j) ∧
  proposal_count w' = proposal_count w.
Proof.
  intros Hx. unfold veto_proposal in Hx.
  apply bind_done in Hx as (? & ? & [Ha ->]%require_auth_done & Hx).
  apply bind_done in Hx as (? & ? & [Hh ->]%reject_if_done & Hx).
  apply bind_done in Hx as (en & ? & Hen & Hx). minv Hen.
  apply bind_done in Hx as (? & ? & [Hen ->]%reject_if_done & Hx).
  apply bind_done in Hx as (o & ? & Ho & Hx). minv Ho.
  apply bind_done in Hx as (signers & ? & [Hs ->]%ok_or_done & Hx).
  apply bind_done in Hx as (? & ? & [Hin ->]%reject_if_done & Hx).
  apply bind_done in Hx as (threshold & ? & Hth & Hx). minv Hth.
  apply bind_done in Hx as (p & ? & (-> & Hp & Hid & Hc)%load_proposal_done & Hx).
  revert Hid.
  apply bind_done in Hx as (? & w1 & Hw1%verified_proposer_frame & Hx).
  apply bind_done in Hx as (? & w1' & Hst & Hx).
  assert (w1' = w1 ∧ (gp_status p = Active ∨ gp_status p = Passed)) as [-> Hact].
  { destruct (gp_status p); try by apply throw_done in Hst.
    all: apply ret_done in Hst as [_ ->]; auto. }
  assert (∀ k, (∀ i, k ≠ GKey.ProposalProposer i) → store w1 k = store w k) as Hsame.
  { intros k Hk. apply Hw1. by destruct k; try (exfalso; by eapply Hk). }
  assert (touches veto_key w w1) as Ht1 by (eapply touches_mono; [exact Hw1 | by intros []]).
  apply bind_done in Hx as (vs & ? & Hvs & Hx). minv Hvs.
  apply bind_done in Hx as (? & ? & [_ ->]%reject_if_done & Hx).
  apply bind_done in Hx as (b & ? & Hb & Hx). minv Hb.
  apply bind_done in Hx as (? & ? & [Hb ->]%reject_if_done & Hx).
  apply bind_done in Hx as (? & w2 & Hw2 & Hx).
  footprint veto_key Hw2 as Ht2.
  minv Hw2.
  apply bind_done in Hx as (approvals & ? & [-> ->]%reads_done & Hx).
  apply bind_done in Hx as (? & w3 & Hw3 & Hx).
  footprint veto_key Hw3 as Ht3. pose proof (transitivity Ht1 (transitivity Ht2 Ht3)) as Ht.
  clear Hw3. bools.
  match type of Hx with context [vlen ?l <? _] =>
    assert (l = filter (λ a, a = s ∨ has_approved w id a) signers) as Hl end.
  { unfold veto_approvals. simpl. sto. rewrite (Hsame GKey.VetoSigners), Hs by done. simpl.
    apply list_filter_iff. intros a. unfold has_approved.
    destruct (decide (s = a)) as [-> | Hne]; sto; [naive_solver |]. rewrite Hsame by done. naive_solver. }
  rewrite Hl in Hx. destruct (vlen _ <? _) eqn:Hlt in Hx.
  - footprint veto_key Hx as Ht4.
    destruct (veto_key_same w w' j) as [-> ->]; [by etrans |]. intros _. split; [constructor | done].
  - bools. apply bind_done in Hx as (? & w4 & Hw4 & Hx).
    apply bind_done in Hx as (? & w5 & Hw5 & Hx).
    footprint veto_key Hw4 as Ht4. footprint veto_key Hw5 as Ht5.
    pose proof (transitivity Ht (transitivity Ht4 Ht5)) as Ht0.
    apply bind_done in Hx as (p' & w6 & (_ & -> & Hw6)%transition_done & Hx).
    intros Hid. unfold forfeit_proposal_deposit, get_gov_token, get_proposal_deposit_sink in Hx.
    footprint veto_key Hx as Ht6.
    destruct (veto_key_same w6 w' j Ht6) as [Hj6 Hc6]. destruct (veto_key_same w w5 j Ht0) as [Hj5 Hc5].
    rewrite Hj6, Hc6, Hw6. unfold gov_proposal_at, proposal_count in *. simpl. sto.
    split; [| done]. rewrite Hid. destruct (decide (j = id)) as [-> | Hne].
    + sto. rewrite Hp. eapply gps_vetoed; [done.. | | exact Hs | reflexivity | done | | exact Hlt].
      * by destruct (store w GKey.VetoPowerEnabled) as [[]|].
      * unfold has_approved. by rewrite <- Hsame by done.
    + sto. rewrite Hj5. constructor.
Qed.

(** ** Every call *)
Lemma initialize_spec i d r t a n w w' :
  initialize i d r t a n w = Done tt w' →
  store w GKey.IlnContract = None ∧ store w' GKey.IlnContract = Some i ∧
  store w' GKey.GovToken = Some t ∧ proposal_count w' = 0 ∧ self w' = self w ∧ ext w' = ext w ∧
  ∀ k, (∀ id, k = GKey.Proposal id ∨ k = GKey.ProposalDeposit id ∨ k = GKey.ProposalDepositSettled id
        → store w' k = store w k).
Proof.
  intros Hx. unfold initialize in Hx. minv Hx. bools. unfold proposal_count. simpl.
  split_and!; try (by sto); [by apply eq_None_not_Some |].
  intros k id [-> | [-> | ->]]; by sto.
Qed.

Lemma initialize_proposals i d r t a n w w' id :
  initialize i d r t a n w = Done tt w' → gov_proposal_at w' id = gov_proposal_at w id.
Proof. intros (_ & _ & _ & _ & _ & _ & Hk)%initialize_spec. apply (Hk (GKey.Proposal id) id). by left. Qed.

Lemma gov_exec_step c w w' id :
  gov_exec c w = Done tt w' →
  gov_proposal_step w id c (gov_proposal_at w id) (gov_proposal_at w' id) ∧
  match c with
  | GCreateProposal _ _ _ _ => proposal_count w' = sat_u64 (proposal_count w + 1)
  | GInitialize _ _ _ _ _ _ => store w GKey.IlnContract = None
  | _ => proposal_count w' = proposal_count w
  end.
Proof.
  intros Hx. destruct (proposal_call c) eqn:Hc.
  2: { apply gov_proposal_frame in Hx as (_ & _ & Hk); [| done].
       unfold gov_proposal_at, proposal_count. rewrite !Hk by done. split; [constructor |].
       by destruct c. }
  destruct c; try discriminate Hc; simpl in Hx.
  - split; [| by apply initialize_spec in Hx as [? _]].
    rewrite (initialize_proposals _ _ _ _ _ _ _ _ id Hx). constructor.
  - apply gov_ignore_done in Hx as [j (Hs & -> & Ht & Hn & Hp & Hj)%create_proposal_spec]. split.
    + destruct (decide (id = sat_u64 (proposal_count w + 1))) as [-> | Hne].
      * rewrite Hp. by constructor.
      * rewrite Hj by done. constructor.
    + exact Hn.
  - pose proof Hx as (p & t & own & n & w1 & Hs & Hp & Hid & _ & Hend & Hact & Hr & _ & Hown & Hn & ->)%cast_vote_spec.
    assert (∀ k, proposal_key k = true → store w1 k = store w k) as Hk.
    { intros k Hk. apply own_vote_weight_done in Hown as [[_ ->] | (_ & ? & ? & _ & _ & _ & ->)]; [done |].
      simpl. rewrite st_set_ne; [done |]. by intros <-. }
    unfold gov_proposal_at, proposal_count in *. simpl.
    split; [| sto; by rewrite (Hk GKey.ProposalCount)].
    destruct (decide (proposal_id = id)) as [<- | Hne]; sto.
    + rewrite Hp. constructor; try done. apply Hn.
    + rewrite (Hk (GKey.Proposal id)) by done. constructor.
  - apply execute_proposal_step with (j := id) in Hx as [Hs ->]. done.
  - apply veto_proposal_step with (j := id) in Hx as [Hs ->]. done.
Qed.

(** ** Along a run *)
Definition same_content (p p' : GovernanceProposal) : Prop :=
  gp_id p' = gp_id p ∧ gp_proposer p' = gp_proposer p ∧
  gp_description_hash p' = gp_description_hash p ∧ gp_action_type p' = gp_action_type p ∧
  gp_proposed_value p' = gp_proposed_value p ∧ gp_created_at p' = gp_created_at p ∧
  gp_voting_end p' = gp_voting_end p.

(** [p'] is a later state of [p]. *)
Definition advanced (p p' : GovernanceProposal) : Prop :=
  same_content p p' ∧
  match gp_status p with
  | Active => True
  | Passed => p' = p ∨ p' = set_gov_status Executed p ∨ p' = set_gov_status Vetoed p
  | _ => p' = p
  end.

(** A proposal that passed had the majority. *)
Definition upheld (p : GovernanceProposal) : Prop :=
  gp_status p = Passed ∨ gp_status p = Executed → 0 ≤ gp_votes_against p < gp_votes_for p.

Record gov_wf w : Prop := {
  wf_start : store w GKey.IlnContract = None →
    store w GKey.GovToken = None ∧ ∀ id, gov_proposal_at w id = None;
  wf_proposal id p : gov_proposal_at w id = Some p → id ≤ proposal_count w ∧ upheld p
}.

(** Fewer than 2^64 proposals are created. *)
Definition room (c : GovCall) w : Prop :=
  ∀ pr a h v, c = GCreateProposal pr a h v → 0 ≤ proposal_count w < u64_max.

Lemma advanced_refl p : advanced p p.
Proof. split; [done |]. destruct (gp_status p); auto. Qed.

Lemma advanced_trans p q r : advanced p q → advanced q r → advanced p r.
Proof.
  intros [Hc Hs] [Hc' Hs']. split; [unfold same_content in *; naive_solver congruence |].
  destruct (gp_status p) eqn:E; [done | | subst q; by rewrite E in Hs'..].
  destruct Hs as [-> | [-> | ->]]; simpl in Hs'; [by rewrite E in Hs' | auto..].
Qed.

Lemma gov_step_advanced c w w' id p :
  gov_exec c w = Done tt w' → room c w → gov_wf w → gov_proposal_at w id = Some p →
  ∃ p', gov_proposal_at w' id = Some p' ∧ advanced p p' ∧ upheld p'.
Proof.
  intros Hx Hroom Hw Hp. destruct (wf_proposal _ Hw _ _ Hp) as [Hle Hup].
  destruct (gov_exec_step c w w' id Hx) as [Hs _]. rewrite Hp in Hs. inversion Hs; simplify_eq.
  - exists p. split; [done |]. split; [apply advanced_refl | done].
  - exfalso. specialize (Hroom _ _ _ _ eq_refl). rewrite sat_id in * by lia. lia.
  - eexists. split; [done |]. rename select (gp_status _ = Active) into Ha.
    assert (gp_status (tallied b n p) = Active) as Hst by (by destruct b).
    split; [split; [by destruct b | by rewrite Ha] |].
    unfold upheld. rewrite Hst. by intros [|].
  - eexists. split; [done |]. rename select (gp_status _ = Active) into Ha.
    split; [split; [done | by rewrite Ha] |]. intros _. simpl. lia.
  - eexists. split; [done |]. rename select (gp_status _ = Passed) into Ha.
    split; [split; [done | rewrite Ha; auto] |]. intros _. apply Hup. auto.
  - eexists. split; [done |].
    split; [split; [done |]; destruct (gp_status p) eqn:Ha; naive_solver |].
    by intros [|].
Qed.

Lemma gov_step_wf c w w' :
  gov_exec c w = Done tt w' → room c w → gov_wf w → gov_wf w'.
Proof.
  intros Hx Hroom Hw. destruct (init_call c) eqn:Hi.
  { destruct c; try discriminate Hi; simpl in Hx.
    pose proof (λ id, initialize_proposals _ _ _ _ _ _ _ _ id Hx) as Hp.
    apply initialize_spec in Hx as (Hn & Hn' & _). split; [by rewrite Hn' |].
    intros id p. rewrite Hp. destruct (wf_start _ Hw Hn) as [_ ->]. done. }
  pose proof Hx as (_ & _ & Hk)%gov_token_frame; [| done].
  split.
  - rewrite !Hk by done. intros Hn. destruct (wf_start _ Hw Hn) as [Ht Hnone].
    split; [done |]. intros id. destruct (gov_exec_step c w w' id Hx) as [Hs _].
    rewrite Hnone in Hs. inversion Hs; simplify_eq; [done |].
    rename select (is_Some _) into Hs'. rewrite Ht in Hs'. by destruct Hs'.
  - assert (proposal_count w ≤ proposal_count w' ∨ store w GKey.IlnContract = None) as Hgrow.
    { destruct (gov_exec_step c w w' 0 Hx) as [_ Hc].
      destruct c; try (rewrite Hc; left; lia); [by right |].
      left. specialize (Hroom _ _ _ _ eq_refl). rewrite Hc, sat_id by lia. lia. }
    intros id p' Hp'. destruct (gov_proposal_at w id) as [p|] eqn:Hp.
    + destruct (wf_proposal _ Hw _ _ Hp) as [Hle _].
      destruct (gov_step_advanced c w w' id p) as (q & Hq & _ & Hup); [done..|]. simplify_eq.
      split; [| done]. destruct Hgrow as [? | Hn]; [lia |].
      destruct (wf_start _ Hw Hn) as [_ Hnone]. by rewrite Hnone in Hp.
    + destruct (gov_exec_step c w w' id Hx) as [Hs Hc]. rewrite Hp, Hp' in Hs.
      inversion Hs; simplify_eq. rewrite Hc.
      split; [done | by intros [|]].
Qed.

Lemma gov_wf_deployed w : gov_deployed w → gov_wf w.
Proof.
  intros Hd. split.
  - intros _. split; [apply (Hd GKey.GovToken) | intros id; apply (Hd (GKey.Proposal id))].
  - intros id p Hp. unfold gov_proposal_at in Hp. by rewrite Hd in Hp.
Qed.

Lemma gov_env_wf w w' : gov_environment w w' → gov_wf w → gov_wf w'.
Proof.
  intros He Hw. pose proof (λ k, gov_env_keeps w w' k He) as Hk.
  assert (∀ id, gov_proposal_at w' id = gov_proposal_at w id) as Hp by (intros id; by apply (Hk (GKey.Proposal id))).
  split.
  - rewrite !Hk by done. intros Hn. destruct (wf_start _ Hw Hn) as [? Hnone].
    split; [done |]. intros id. by rewrite Hp.
  - intros id p. rewrite Hp. unfold proposal_count. rewrite Hk by done. apply (wf_proposal _ Hw).
Qed.

Lemma run_gov_wf w w' : rtc (gov_step budget room gov_free) w w' → gov_wf w → gov_wf w'.
Proof.
  induction 1 as [|w w1 w2 Hs _ IH]; [done |]. intros Hw. apply IH.
  destruct Hs as [c _ Hr Hx | He _]; [by eapply gov_step_wf | by eapply gov_env_wf].
Qed.

Lemma run_advanced w w' id p :
  rtc (gov_step budget room gov_free) w w' → gov_wf w → gov_proposal_at w id = Some p →
  ∃ p', gov_proposal_at w' id = Some p' ∧ advanced p p'.
Proof.
  intros Hr. revert p. induction Hr as [w|w w1 w2 Hs _ IH]; intros p Hw Hp.
  - exists p. split; [done |]. apply advanced_refl.
  - destruct Hs as [c _ Hroom Hx | He _].
    + destruct (gov_step_advanced c w w1 id p) as (q & Hq & Ha & _); [done..|].
      destruct (IH q) as (r & Hr & Ha'); [by eapply gov_step_wf | done |].
      exists r. split; [done | by eapply advanced_trans].
    + apply IH; [by eapply gov_env_wf |]. unfold gov_proposal_at in *.
      by rewrite (gov_env_keeps w w1 _ He).
Qed.

(** C23: the proposal lifecycle.  A successful call changes a proposal only by creating it,
    tallying one vote of someone who signed and holds no receipt while the voting
    window is open, passing it after the window with a majority and the quorum and a
    timelock of the configured delay, executing it after its timelock, or vetoing it
    with enough approvals of the current veto signers. *)
Theorem gov_proposal_lifecycle c w w' id :
  gov_exec c w = Done tt w' →
  gov_proposal_step w id c (gov_proposal_at w id) (gov_proposal_at w' id).
Proof. apply gov_exec_step. Qed.

(** C24: proposals over time.  On any run from deployment a proposal is never lost and its
    content never changes; one that passed has a strict majority, and from then on its
    tally and timelock are frozen and it only moves to executed or vetoed; an executed,
    vetoed or rejected proposal never changes again. *)
Theorem proposals_over_time w0 w w' id p :
  gov_deployed w0 → rtc (gov_step budget room gov_free) w0 w →
  rtc (gov_step budget room gov_free) w w' → gov_proposal_at w id = Some p →
  ∃ p', gov_proposal_at w' id = Some p' ∧ advanced p p' ∧ upheld p'.
Proof.
  intros Hd Hr0 Hr Hp. pose proof (run_gov_wf _ _ Hr0 (gov_wf_deployed _ Hd)) as Hw.
  destruct (run_advanced _ _ _ _ Hr Hw Hp) as (p' & Hp' & Ha). exists p'. split_and!; try done.
  apply (wf_proposal _ (run_gov_wf _ _ Hr Hw) _ _ Hp').
Qed.

(** ** Votes *)
Lemma receipt_kept c w w' id v :
  gov_exec c w = Done tt w' → is_Some (store w (GKey.VoteReceipt id v)) →
  is_Some (store w' (GKey.VoteReceipt id v)).
Proof.
  intros Hx Hr. destruct (vote_call c) eqn:Hc.
  2: { apply gov_receipt_frame in Hx as (_ & _ & Hk); [| done]. by rewrite Hk. }
  destruct c as [| | | | | | | | | | | | |voter j b| | | |]; try discriminate Hc; simpl in Hx.
  apply cast_vote_spec in Hx as (p & t & own & n & w1 & _ & _ & _ & _ & _ & _ & _ & _ & Hown & _ & ->).
  simpl. destruct (decide (GKey.VoteReceipt j voter = GKey.VoteReceipt id v)) as [He | Hne].
  - injection He as -> ->. sto. by eexists.
  - rewrite st_set_ne by done. rewrite st_set_ne by done. sto.
    apply own_vote_weight_done in Hown as [[_ ->] | (_ & ? & ? & _ & _ & _ & ->)]; simpl; by sto.
Qed.

Lemma run_receipt ok env w w' id v :
  rtc (gov_step budget ok env) w w' → is_Some (store w (GKey.VoteReceipt id v)) →
  is_Some (store w' (GKey.VoteReceipt id v)).
Proof.
  induction 1 as [|w w1 w2 Hs _ IH]; [done |]. intros Hr. apply IH.
  destruct Hs as [c _ _ Hx | He _]; [by eapply receipt_kept |].
  by rewrite (gov_env_keeps w w1 _ He).
Qed.

(** C25: one vote each.  Once a voter's vote on a proposal has been counted, every later vote
    of that voter on that proposal fails, whatever happens in between, the expiry of
    the temporary [HasVoted] receipt included. *)
Theorem one_vote_each ok env w w1 w2 v id b :
  gov_exec (GVote v id b) w = Done tt w1 → rtc (gov_step budget ok env) w1 w2 →
  ∀ b' w3, gov_exec (GVote v id b') w2 ≠ Done tt w3.
Proof.
  intros Hv Hr b' w3 Hx. simpl in Hv, Hx.
  apply cast_vote_spec in Hv as (p & t & own & n & w0 & _ & _ & _ & _ & _ & _ & _ & _ & _ & _ & ->).
  apply cast_vote_spec in Hx as (p' & t' & own' & n' & w0' & _ & _ & _ & _ & _ & _ & Hn & _).
  apply (run_receipt _ _ _ _ id v) in Hr; [rewrite Hn in Hr; by destruct Hr |].
  simpl. sto. by eexists.
Qed.

(** A checkpoint of [v] taken [MIN_VOTE_HOLD_LEDGERS] before [ledger]. *)
Definition held_since w (v : Address) (ledger : Z) (c : Checkpoint) : Prop :=
  (store w (GKey.BalanceCheckpoint v) = Some c ∨ store w (GKey.PriorBalanceCheckpoint v) = Some c) ∧
  sat_u32 (cp_ledger c + MIN_VOTE_HOLD_LEDGERS) ≤ ledger.

Lemma eligible_held w v ledger c :
  eligible_checkpoint (store w) v ledger = Some c → held_since w v ledger c.
Proof.
  unfold eligible_checkpoint, aged, held_since.
  destruct (store w (GKey.BalanceCheckpoint v)) as [a|],
    (store w (GKey.PriorBalanceCheckpoint v)) as [b|]; repeat case_match; intros; simplify_eq; bools;
    auto.
Qed.

(** ** Where a recorded weight comes from *)
Definition snapshot_key (k : GovKey) : bool :=
  match k with GKey.VoteWeightSnapshot _ _ => true | _ => false end.
Definition weighing_call (c : GovCall) : bool :=
  match c with GCreateProposal _ _ _ _ | GVote _ _ _ => true | _ => false end.
Lemma gov_snapshot_frame c :
  weighing_call c = false → keeps (touches (outside snapshot_key)) (gov_exec c).
Proof. intros Hc. gov_frame c. Qed.

Definition snapshot_at w (id : Z) (v : Address) : option Z :=
  store w (GKey.VoteWeightSnapshot id v).

Lemma create_proposal_snapshot pr a h v id w w' :
  create_proposal pr a h v w = Done id w' →
  ∃ t, store w GKey.GovToken = Some t ∧
    snapshot_at w' id pr = Some (tok_balance (ext w) t pr) ∧
    ∀ j u, (j, u) ≠ (id, pr) → snapshot_at w' j u = snapshot_at w j u.
Proof.
  intros Hx. unfold create_proposal, get_gov_token, gov_balance in Hx. unfold snapshot_at.
  minv Hx; (eexists; split; [eassumption |]; split; [by sto |]; intros j u Hne;
    by repeat (sto || (rewrite st_set_ne by congruence))).
Qed.

(** [v] proposed [id] in the run, with a balance of [own] at that moment. *)
Definition proposed_with (ok : GovCall → W → Prop) w0 w (v : Address) (id own : Z) : Prop :=
  ∃ a h n wa wb t, rtc (gov_step budget ok gov_free) w0 wa ∧
    create_proposal v a h n wa = Done id wb ∧ rtc (gov_step budget ok gov_free) wb w ∧
    store wa GKey.GovToken = Some t ∧ own = tok_balance (ext wa) t v.

(** A snapshot was taken of the proposer, or of somebody whose vote was counted. *)
Definition snapshots_traced (ok : GovCall → W → Prop) w0 w : Prop :=
  ∀ id v own, snapshot_at w id v = Some own →
    proposed_with ok w0 w v id own ∨ is_Some (store w (GKey.VoteReceipt id v)).

Lemma proposed_later ok w0 w w' v id own :
  gov_step budget ok gov_free w w' → proposed_with ok w0 w v id own → proposed_with ok w0 w' v id own.
Proof.
  intros Hs (a & h & n & wa & wb & t & Ha & Hx & Hb & Ht & Ho).
  exists a, h, n, wa, wb, t. split_and!; try done. by eapply rtc_r.
Qed.

Lemma vote_snapshots v id b w w' j u own :
  cast_vote v id b w = Done tt w' → snapshot_at w' j u = Some own →
  snapshot_at w j u = Some own ∨ is_Some (store w' (GKey.VoteReceipt j u)).
Proof.
  intros (p & t & o & n & w1 & _ & _ & _ & _ & _ & _ & _ & _ & Hown & _ & ->)%cast_vote_spec Hs.
  unfold snapshot_at in *. simpl in *.
  destruct (decide ((j, u) = (id, v))) as [[= -> ->] | Hne]; [right; sto; by eexists | left].
  revert Hs. sto. apply own_vote_weight_done in Hown as [[_ ->] | (_ & ? & ? & _ & _ & _ & ->)];
    [done |]. simpl. by rewrite st_set_ne by congruence.
Qed.

Lemma run_snapshots ok w0 w :
  gov_deployed w0 → rtc (gov_step budget ok gov_free) w0 w → snapshots_traced ok w0 w.
Proof.
  intros Hd. revert w. apply (rtc_ind_r (snapshots_traced ok w0)).
  { intros id v own Hs. unfold snapshot_at in Hs. by rewrite Hd in Hs. }
  intros w w' Hr Hs IH.
  assert (∀ id v own, snapshot_at w id v = Some own →
    proposed_with ok w0 w' v id own ∨ is_Some (store w' (GKey.VoteReceipt id v))) as Hold.
  { intros id v own [Hp | Hv]%IH; [left; by eapply proposed_later | right].
    by apply (run_receipt ok gov_free w w' id v (rtc_once _ _ Hs)). }
  intros id v own Hv. pose proof Hs as [c Ht Hc Hx | He _].
  2: { apply Hold. unfold snapshot_at in *. by rewrite <-(gov_env_keeps w w' _ He). }
  destruct (weighing_call c) eqn:Hk.
  2: { apply gov_snapshot_frame in Hx as (_ & _ & Hf); [| done]. apply Hold.
       unfold snapshot_at in *. by rewrite <-Hf. }
  destruct c; try discriminate Hk; simpl in Hx.
  - apply gov_ignore_done in Hx as [j Hx].
    destruct (create_proposal_snapshot _ _ _ _ _ _ _ Hx) as (t & Htok & Hnew & Hne).
    destruct (decide ((id, v) = (j, proposer))) as [[= -> ->] | Hn]; [| apply Hold; by rewrite <-Hne].
    left. rewrite Hnew in Hv. simplify_eq. unfold proposed_with. eauto 12 using rtc_refl.
  - destruct (vote_snapshots _ _ _ _ _ _ _ _ Hx Hv) as [Hw | ?]; [by apply Hold | by right].
Qed.

(** C26: what a vote weighs.  On any run from deployment a counted vote adds to one tally
    the voter's own weight plus the weight delegated to it, square-rooted under quadratic
    voting.  The own weight is the smaller of the live balance and the balance of a
    checkpoint taken ten ledgers before the proposal was created, so that tokens borrowed
    for the vote weigh nothing, with one exception: whoever created the proposal votes with
    its whole balance at that moment, checkpointed or not. *)
Theorem vote_weight_proven ok w0 w w' v id b :
  gov_deployed w0 → rtc (gov_step budget ok gov_free) w0 w →
  gov_exec (GVote v id b) w = Done tt w' →
  ∃ p t own n, gov_proposal_at w id = Some p ∧ store w GKey.GovToken = Some t ∧ weighs w v own n ∧
    gov_proposal_at w' id = Some (tallied b n p) ∧ store w' (GKey.VoteReceipt id v) = Some n ∧
    (snapshot_at w id v = Some own ∧ proposed_with ok w0 w v id own ∨
     snapshot_at w id v = None ∧
     ∃ created c, store w (GKey.ProposalCreatedLedger id) = Some created ∧
       held_since w v created c ∧ own = Z.min (cp_balance c) (tok_balance (ext w) t v)).
Proof.
  intros Hd Hr Hx. simpl in Hx. pose proof (run_snapshots _ _ _ Hd Hr) as Htr.
  apply cast_vote_spec in Hx
    as (p & t & own & n & w1 & _ & Hp & _ & _ & _ & _ & Hrc & Ht & Hown & Hn & ->).
  exists p, t, own, n. unfold gov_proposal_at in *. simpl. split_and!; try done; try by sto.
  apply own_vote_weight_done in Hown as [[Hs _] | (Hs & created & c & Hc & He & Ho & _)];
    [left | right]; (split; [exact Hs |]).
  - destruct (Htr _ _ _ Hs) as [? | [? Hsome]]; [done | congruence].
  - exists created, c. split_and!; try done. by eapply eligible_held.
Qed.
End gov_props.

(** * Witnesses *)
Module GovWitness.
Import GovScenario.

Definition w_open : W := played [(110, GSetMinProposalDeposit 500)] (played setup w0).
Definition ballots : list (Z * GovCall) := [ (130, GVote carol 1 true); (131, GVote alice 1 false) ].

Lemma isqrt_floor_witness :
  (∃ r, isqrt i128_max = Some r ∧ 0 ≤ r ∧ (i128_max ≤ 0 → r = 0) ∧
    (0 ≤ i128_max → r * r ≤ i128_max < (r + 1) * (r + 1))) ∧ isqrt 202000 = Some 449.
Proof. split; [apply (isqrt_floor i128_max); by vm_compute | by vm_compute]. Defined.

Lemma vote_run : run (GVote carol 1 true) (with_ctx (at_ledger 130) w_proposed) =
  Done tt (commit (run (GVote carol 1 true)) (with_ctx (at_ledger 130) w_proposed)).
Proof. refine (run_done _ _ _ _). vm_compute. reflexivity. Qed.
Definition w_vote : W := commit (run (GVote carol 1 true)) (with_ctx (at_ledger 130) w_proposed).

Lemma gov_proposal_lifecycle_witness :
  gov_proposal_step (with_ctx (at_ledger 130) w_proposed) 1 (GVote carol 1 true)
    (gov_proposal_at (with_ctx (at_ledger 130) w_proposed) 1) (gov_proposal_at w_vote 1).
Proof. exact (gov_proposal_lifecycle 50 (GVote carol 1 true) _ w_vote 1 vote_run). Defined.

Lemma env_ctx (c : Ctx) (w : W) : gov_environment w (with_ctx c w).
Proof. split; [done |]. by left. Qed.
Lemma proposed_run : rtc (step gov_any) w0 w_proposed.
Proof. apply played_run; [done | done | vm_compute; reflexivity]. Qed.
Lemma asked_steps : rtc (step gov_any) w0 (with_ctx (at_ledger 130) w_proposed).
Proof.
  refine (rtc_r _ _ _ proposed_run _).
  exact (gov_env 50 _ _ _ _ (env_ctx (at_ledger 130) w_proposed) I).
Qed.

Lemma vote_weight_proven_witness :
  let w := with_ctx (at_ledger 130) w_proposed in
  ∃ p t own n, gov_proposal_at w 1 = Some p ∧ store w GKey.GovToken = Some t ∧ weighs w carol own n ∧
    gov_proposal_at w_vote 1 = Some (tallied true n p) ∧
    store w_vote (GKey.VoteReceipt 1 carol) = Some n ∧
    (snapshot_at w 1 carol = Some own ∧ proposed_with 50 gov_any w0 w carol 1 own ∨
     snapshot_at w 1 carol = None ∧
     ∃ created c, store w (GKey.ProposalCreatedLedger 1) = Some created ∧
       held_since w carol created c ∧ own = Z.min (cp_balance c) (tok_balance (ext w) t carol)).
Proof.
  exact (vote_weight_proven 50 gov_any w0 _ w_vote carol 1 true deployed asked_steps vote_run).
Defined.

(** The temporary entries expire. *)
Definition archive (w : W) : W := with_store (λ k, if temporary k then None else store w k) w.
Lemma archived_env w : gov_environment w (archive w).
Proof. split; [done |]. intros k. simpl. destruct (temporary k); auto. Qed.
Definition w_archived : W := archive w_vote.

Lemma one_vote_each_witness :
  (∀ b w3, run (GVote carol 1 b) w_archived ≠ Done tt w3) ∧
  store w_archived (GKey.HasVoted 1 carol) = None.
Proof.
  split; [| reflexivity].
  apply (one_vote_each 50 gov_any gov_free (with_ctx (at_ledger 130) w_proposed) w_vote w_archived
    carol 1 true vote_run).
  eapply rtc_l; [apply gov_env; [exact (archived_env w_vote) | done] | apply rtc_refl].
Defined.

(** Proposal 1 from deployment to execution. *)
Definition create1 : GovCall := GCreateProposal bob (UpdateFeeRate 200) 9%N 200.
Definition w_created : W := commit (run create1) (with_ctx (at_ledger 120) w_open).
Definition to_end : list (Z * GovCall) :=
  ballots ++ [ (140, GSetExecutionDelay admin 100); (60000, GExecute 1); (60100, GExecute 1) ].
Definition w_end : W := played to_end w_created.

Lemma created_run : run create1 (with_ctx (at_ledger 120) w_open) = Done tt w_created.
Proof. refine (run_done _ _ _ _). vm_compute. reflexivity. Qed.

(** The run to [w_created] and on from it, under any side conditions that allow it. *)
Section steps.
Context (ok : GovCall → W → Prop) (env : relation W).
Hypotheses (Hclock : clocked env) (Hfree : ∀ c w, (∀ pr a h v, c ≠ GCreateProposal pr a h v) → ok c w).
Hypothesis Hcreate : ok create1 (with_ctx (at_ledger 120) w_open).

Definition creates (p : Z * GovCall) : bool :=
  match p.2 with GCreateProposal _ _ _ _ => true | _ => false end.
Lemma script_steps l w :
  forallb (λ p, negb (creates p)) l = true →
  match play l w with Some _ => true | None => false end = true →
  rtc (gov_step 50 ok env) w (played l w).
Proof.
  intros Hl. apply played_run; [done |]. intros n c w' Hc. apply Hfree. intros pr a h v ->.
  rewrite forallb_forall in Hl. apply list_elem_of_In in Hc. by apply Hl in Hc.
Qed.
Lemma setup_steps : rtc (gov_step 50 ok env) w0 (played setup w0).
Proof. apply script_steps; [done | vm_compute; reflexivity]. Qed.
Lemma open_steps : rtc (gov_step 50 ok env) (played setup w0) w_open.
Proof. apply script_steps; [done | vm_compute; reflexivity]. Qed.
Lemma created_steps : rtc (gov_step 50 ok env) w0 w_created.
Proof.
  refine (transitivity setup_steps (transitivity open_steps _)).
  refine (rtc_l _ _ _ _ (gov_env _ _ _ _ _ (env_ctx (at_ledger 120) w_open) (Hclock _ _)) _).
  exact (rtc_once _ _ (gov_call _ _ _ _ _ create1 eq_refl Hcreate created_run)).
Qed.
Lemma end_steps : rtc (gov_step 50 ok env) w_created w_end.
Proof. apply script_steps; [done | vm_compute; reflexivity]. Qed.
End steps.

Lemma open_room : room create1 (with_ctx (at_ledger 120) w_open).
Proof. intros pr a h v _. vm_compute. split; congruence. Qed.
Lemma free_room c (w : W) : (∀ pr a h v, c ≠ GCreateProposal pr a h v) → room c w.
Proof. intros Hc pr a h v ->. by edestruct Hc. Qed.

Definition proposal1 (w : W) : GovernanceProposal :=
  default (new_proposal w0 0 0%N (AddToken 0%N 0) 0%N 0) (gov_proposal_at w 1).

Lemma proposals_over_time_witness :
  (∃ p', gov_proposal_at w_end 1 = Some p' ∧ advanced (proposal1 w_created) p' ∧ upheld p') ∧
  gp_status (proposal1 w_end) = Executed.
Proof.
  split; [| vm_compute; reflexivity].
  apply (proposals_over_time 50 w0 w_created w_end 1);
    [exact deployed | | | vm_compute; reflexivity].
  - apply created_steps; [done | exact free_room | exact open_room].
  - apply end_steps; [done | exact free_room].
Defined.

(** ** The weight of the proposer *)
(** Nobody is checkpointed; [bob] proposes and votes in one ledger. *)
Definition w_hasty : W :=
  played [ (100, GInitialize iln dist rep token admin 210000);
           (120, GCreateProposal bob (UpdateFeeRate 200) 9%N 200); (120, GVote bob 1 true) ] w0.

(** The proposer's exception is real: its 2000 tokens count without a checkpoint, while
    everybody else's vote fails for want of one. *)
Theorem proposer_weight_unproven :
  gp_votes_for (proposal1 w_hasty) = 2000 ∧
  fault_of (run (GVote alice 1 true)) w_hasty = Some (Code GErr.InsufficientHoldingPeriod).
Proof. vm_compute. split; reflexivity. Qed.

(** ** A rejection leaves no trace *)
Definition w_missed : W :=
  with_ctx (at_ledger 60000) (played (proposed ++ [(131, GVote alice 1 true)]) w0).
Definition w_lowered : W := played [(60001, GSetMinQuorumBps 100); (60002, GExecute 1)] w_missed.

(** Rejection is discarded.  With 3000 of the 21000 votes it needs, executing proposal
    1 after the voting window fails with [QuorumNotReached], so the host discards the
    [Rejected] status and the forfeited deposit: the proposal is still [Active], its
    deposit still escrowed, and once the quorum is lowered the same proposal passes. *)
Theorem rejection_discarded :
  fault_of (run (GExecute 1)) w_missed = Some (Code GErr.QuorumNotReached) ∧
  gp_status (proposal1 w_missed) = Active ∧
  store w_missed (GKey.ProposalDeposit 1) = Some 500 ∧
  gp_status (proposal1 w_lowered) = Passed ∧
  tok_balance (ext w_lowered) token bob = 2000.
Proof. vm_compute. repeat split; reflexivity. Qed.
End GovWitness.
