(* ===== verification/DepositProps.v ===== *)
(** Proposal deposits of [Governance.v]: what the contract holds covers every deposit not
    yet settled, a deposit is settled once, and a passed proposal executes. *)
From stdpp Require Import numbers list.
From S2P Require Import Prelude Host GovTypes Governance GovSystem GovScenario GovProps.

(** What the contract relies on: a callee cannot move its tokens. *)
Class GovPeerLaws (X : Type) `{TokenInterface X} `{GovPeers X} (me : Address) : Prop := {
  gov_remote_spares target f action x b x' t :
    gov_remote target f action x = Some (b, x') → tok_balance x t me ≤ tok_balance x' t me
}.

(** Entries the accounting of deposits reads. *)
Definition ledger_key (k : GovKey) : bool :=
  match k with GKey.GovToken | GKey.IlnContract => true | _ => deposit_key k end.

Section deposits.
Context {X : Type} `{TokenLaws X} `{GovPeers X}.
Variables (budget : nat) (me : Address).
Context `{!GovPeerLaws X me}.
Abbreviation W := (world GovKey X GovEvent).
Abbreviation IO := (M W GovernanceError).
Abbreviation gov_exec := (gov_exec budget).
Implicit Types w : W.

(** The rest of the accounting is untouched and no token left the contract. *)
Definition calm w w' : Prop :=
  self w = me → self w' = me ∧ (∀ k, ledger_key k = true → store w' k = store w k) ∧
  ∀ t, tok_balance (ext w) t me ≤ tok_balance (ext w') t me.
#[local] Instance calm_preorder : PreOrder calm.
Proof.
  split; [done |]. intros w1 w2 w3 H12 H23 Hs. destruct (H12 Hs) as (Hs2 & Hk & Hb).
  destruct (H23 Hs2) as (Hs3 & Hk' & Hb'). split_and!; [done | |].
  - intros k Hl. by rewrite Hk', Hk.
  - intros t. specialize (Hb t). specialize (Hb' t). lia.
Qed.

Lemma calm_put k v : ledger_key k = false → keeps calm (put k v : IO unit).
Proof.
  intros Hk w u w' ->%put_done Hs. split_and!; simpl; try done. intros k' Hk'.
  rewrite st_set_ne; [done |]. congruence.
Qed.
Lemma calm_remove k : ledger_key k = false → keeps calm (remove k : IO unit).
Proof.
  intros Hk w u w' ->%remove_done Hs. split_and!; simpl; try done. intros k' Hk'.
  rewrite st_set_ne; [done |]. congruence.
Qed.
Lemma calm_publish e : keeps calm (publish e : IO unit).
Proof. by intros w u w' ->%publish_done. Qed.
Lemma calm_remote target f action :
  keeps calm (try_invoke (gov_remote target f action) : IO (option bool)).
Proof.
  intros w u w' [(b & x & Hr & _ & ->) | (_ & _ & ->)]%try_invoke_done; [| done].
  intros Hs. split_and!; simpl; try done. intros t. by eapply gov_remote_spares.
Qed.
Hint Resolve calm_put calm_remove calm_publish calm_remote : keeps.

Lemma calm_call c :
  deposit_call c = false → init_call c = false → keeps calm (gov_exec c).
Proof. intros Hc Hi. gov_frame c. Qed.

(** ** Settling *)
Definition deposit_of w (id : Z) : Z := default 0 (store w (GKey.ProposalDeposit id)).
Definition is_settled w (id : Z) : bool :=
  default false (store w (GKey.ProposalDepositSettled id)).

(** The deposit of [id] is settled: paid out unless it had been already. *)
Definition settles (id : Z) w w' : Prop :=
  self w = me → self w' = me ∧ is_settled w' id = true ∧
  (∀ k, k ≠ GKey.ProposalDeposit id → k ≠ GKey.ProposalDepositSettled id → ledger_key k = true →
     store w' k = store w k) ∧
  store w' (GKey.ProposalDeposit id) =
    (if is_settled w id then store w (GKey.ProposalDeposit id) else None) ∧
  ∀ t, tok_balance (ext w) t me -
    (if negb (is_settled w id) && bool_decide (store w GKey.GovToken = Some t)
     then Z.max 0 (deposit_of w id) else 0) ≤ tok_balance (ext w') t me.

Lemma pay_out_balance t a n x x' t' :
  ext_transfer t me a n x = Some (tt, x') →
  tok_balance x t' me - (if bool_decide (Some t = Some t') then n else 0) ≤ tok_balance x' t' me.
Proof.
  unfold ext_transfer. intros Hx. apply bind_Some in Hx as (y & Hy & [= <-]).
  pose proof (transfer_covered _ _ _ _ _ _ Hy). rewrite (transfer_balance _ _ _ _ _ _ t' me Hy).
  repeat case_bool_decide; try lia; naive_solver.
Qed.

(** What remains after the branches of [refund_proposal_deposit] and
    [forfeit_proposal_deposit] have been opened. *)
Ltac settle_tac :=
  let Hs := fresh "Hs" in let t := fresh "t" in
  intros Hs; unfold is_settled, deposit_of in *; simpl in *; rewrite ?Hs in *;
  match goal with
  | E : default false _ = true |- _ => rewrite E
  | E : default false _ = false |- _ => rewrite E
  end; simpl;
  (split; [done |]); (split; [by sto |]); (split; [intros; by sto |]); (split; [by sto |]);
  intros t;
  first [ lia | case_bool_decide; lia
        | match goal with
          | E : st_set _ _ _ GKey.GovToken = Some _, P : ext_transfer _ _ _ _ _ = Some _ |- _ =>
              sto_in E; rewrite E; pose proof (pay_out_balance _ _ _ _ _ t P); case_bool_decide; lia
          end ].

Lemma refund_settles id a w b w' : refund_proposal_deposit id a w = Done b w' → settles id w w'.
Proof.
  intros Hx. unfold refund_proposal_deposit, get_gov_token in Hx. minv Hx; bools; settle_tac.
Qed.
Lemma forfeit_settles id a w b w' : forfeit_proposal_deposit id a w = Done b w' → settles id w w'.
Proof.
  intros Hx. unfold forfeit_proposal_deposit, get_gov_token, get_proposal_deposit_sink in Hx.
  minv Hx; bools; settle_tac.
Qed.

(** [advance R C H]: run the prefix of [H] that keeps [R], extending the run [C : R w _]. *)
Ltac advance R C H := repeat (
  let Hm := fresh "Hm" in let K := fresh "K" in let N := fresh "N" in
  apply bind_done in H as (? & ? & Hm & H);
  lazymatch type of Hm with ?m _ = Done _ _ =>
    assert (keeps R m) as K by (frame; done);
    pose proof (transitivity C (K _ _ _ Hm)) as N; clear C K; rename N into C
  end).
Ltac calmly C H := advance calm C H.

(** A settlement between calm parts is a settlement. *)
Lemma settles_between id w w1 w2 w' :
  calm w w1 → settles id w1 w2 → calm w2 w' → settles id w w'.
Proof.
  intros C1 S C2 Hs. destruct (C1 Hs) as (Hs1 & Hk1 & Hb1).
  destruct (S Hs1) as (Hs2 & Hf & Hk & Hd & Hb). destruct (C2 Hs2) as (Hs3 & Hk2 & Hb2).
  unfold is_settled, deposit_of in *. rewrite !Hk2, Hf by done.
  split; [done |]. split; [done |]. split; [| split].
  - intros k H3 H4 Hl. by rewrite Hk2, Hk, Hk1.
  - by rewrite Hd, !Hk1.
  - intros t. specialize (Hb1 t). specialize (Hb t). specialize (Hb2 t).
    rewrite !Hk1 in Hb by done. lia.
Qed.

Lemma keeps_run {A} R (m : IO A) a w w' : keeps R m → m w = Done a w' → R w w'.
Proof. intros K Hm. by eapply K. Qed.

Lemma close_vote_settles id p w w' :
  close_vote id p w = Done tt w' → settles id w w'.
Proof.
  intros Hx. unfold close_vote, required_quorum, transition_status in Hx.
  assert (calm w w) as C by done. calmly C Hx.
  apply bind_done in Hx as (? & w2 & Hr%refund_settles & [_ ->]%ret_done).
  by eapply settles_between.
Qed.

Lemma run_passed_settles id p w w' :
  run_passed id p w = Done tt w' → store w' = store w ∧ calm w w' ∨ settles id w w'.
Proof.
  intros Hx. unfold run_passed, assert_executable, get_iln_contract in Hx.
  apply bind_done in Hx as (? & w1 & Hx1 & Hx). assert (w1 = w) as -> by (by minv Hx1).
  apply bind_done in Hx as (? & w2 & Hx2 & Hx). assert (w2 = w) as -> by (by minv Hx2).
  apply bind_done in Hx as (target & w1 & Hx3 & Hx).
  assert (w1 = w) as -> by (unfold call_of_action, get_iln_contract, get_distribution_contract,
    get_reputation_bonus_contract in Hx3; by minv Hx3).
  apply bind_done in Hx as (b & w2 & Hx4 & Hx). unfold invoke_and_check in Hx4.
  assert (calm w w2) as C by (eapply keeps_run, Hx4; frame).
  assert (store w2 = store w) as Hst.
  { apply bind_done in Hx4 as (r & w3 & Hr & [_ ->]%ret_done).
    by apply try_invoke_done in Hr as [(? & ? & _ & _ & ->) | (_ & _ & ->)]. }
  destruct b; simpl in Hx.
  - right. unfold transition_status in Hx. calmly C Hx.
    apply bind_done in Hx as (? & w9 & Hr%refund_settles & Hx).
    eapply settles_between; [exact C | exact Hr |]. eapply keeps_run, Hx. frame.
  - left. split; [by apply publish_done in Hx as -> |]. etrans; [exact C |].
    eapply keeps_run, Hx. frame.
Qed.

Lemma execute_settles id w w' :
  execute_proposal id w = Done tt w' → store w' = store w ∧ calm w w' ∨ settles id w w'.
Proof.
  intros Hx. unfold execute_proposal in Hx.
  apply bind_done in Hx as (p & ? & (-> & _)%load_proposal_done & Hx).
  apply bind_done in Hx as (? & ? & [_ ->]%reject_if_done & Hx).
  apply bind_done in Hx as (? & ? & [_ ->]%reject_if_done & Hx).
  apply bind_done in Hx as (t & ? & [_ ->]%timestamp_done & Hx).
  apply bind_done in Hx as (? & ? & [_ ->]%reject_if_done & Hx).
  destruct (gp_status p); try by apply throw_done in Hx.
  - right. by eapply close_vote_settles.
  - by eapply run_passed_settles.
Qed.

(** A veto either leaves all proposals alone or settles the deposit. *)
Definition calm_veto w w' : Prop := calm w w' ∧ touches veto_key w w'.
#[local] Instance calm_veto_preorder : PreOrder calm_veto.
Proof.
  split; [done |]. intros w1 w2 w3 [? ?] [? ?]. split; by etrans.
Qed.
Lemma calm_veto_keeps {A} (m : IO A) :
  keeps calm m → keeps (touches veto_key) m → keeps calm_veto m.
Proof. intros K1 K2 w a w' Hm. split; [by eapply K1 | by eapply K2]. Qed.
Hint Extern 1 (keeps calm_veto _) => apply calm_veto_keeps : keeps.

Lemma veto_settles s id h w w' :
  veto_proposal s id h w = Done tt w' →
  calm w w' ∧ (∀ j, gov_proposal_at w' j = gov_proposal_at w j) ∨ settles id w w'.
Proof.
  intros Hx. unfold veto_proposal, load_proposal, verified_proposer, transition_status in Hx.
  assert (calm_veto w w) as C by done. advance calm_veto C Hx.
  destruct (vlen _ <? _).
  - left. assert (calm_veto w w') as [? ?].
    { etrans; [exact C |]. eapply keeps_run, Hx. frame. }
    split; [done |]. intros j. by apply veto_key_same.
  - right. destruct C as [C _]. calmly C Hx.
    apply bind_done in Hx as (? & w9 & Hr%forfeit_settles & Hx).
    eapply settles_between; [exact C | exact Hr |]. eapply keeps_run, Hx. frame.
Qed.

(** ** Creation *)
Lemma pay_in_balance t a n x x' t' :
  a ≠ me → ext_transfer t a me n x = Some (tt, x') →
  tok_balance x t' me + (if bool_decide (Some t = Some t') then n else 0) ≤ tok_balance x' t' me.
Proof.
  unfold ext_transfer. intros Ha Hx. apply bind_Some in Hx as (y & Hy & [= <-]).
  pose proof (transfer_covered _ _ _ _ _ _ Hy). rewrite (transfer_balance _ _ _ _ _ _ t' me Hy).
  repeat case_bool_decide; try lia; naive_solver.
Qed.

(** A deposit of [n] for [id] has come in. *)
Definition escrows (id n : Z) w w' : Prop :=
  self w = me → self w' = me ∧ 0 < n ∧ store w' (GKey.ProposalDeposit id) = Some n ∧
  (∀ k, k ≠ GKey.ProposalDeposit id → ledger_key k = true → store w' k = store w k) ∧
  ∀ t, tok_balance (ext w) t me +
    (if bool_decide (store w GKey.GovToken = Some t) then n else 0) ≤ tok_balance (ext w') t me.

Lemma create_escrows pr a h v id w w' :
  create_proposal pr a h v w = Done id w' → pr ≠ me →
  calm w w' ∨ ∃ n, escrows id n w w'.
Proof.
  intros Hx Hpr. unfold create_proposal in Hx.
  apply bind_done in Hx as (? & ? & [_ ->]%require_auth_done & Hx).
  apply bind_done in Hx as (token & ? & Ht & Hx). unfold get_gov_token in Ht. minv Ht.
  unfold gov_balance in Hx.
  apply bind_done in Hx as (bal & ? & [-> ->]%reads_done & Hx).
  apply bind_done in Hx as (mb & ? & Hm & Hx). minv Hm.
  apply bind_done in Hx as (? & ? & [_ ->]%reject_if_done & Hx).
  apply bind_done in Hx as (deposit & ? & Hm & Hx). minv Hm.
  set (deposit := default DEFAULT_PROPOSAL_DEPOSIT _) in Hx.
  assert (calm w w) as C by done. calmly C Hx.
  destruct (0 <? deposit) eqn:Hd.
  2: { left. calmly C Hx. apply ret_done in Hx as [_ ->]. exact C. }
  right. exists deposit. apply Z.ltb_lt in Hd. clearbody deposit.
  minv Hx. intros Hs. destruct (C Hs) as (Hme & Hk & Hb).
  rename select (ext_transfer _ _ _ _ _ = _) into Hp. rewrite Hme in Hp.
  split_and!; simpl; try done; [by sto | intros; sto; by apply Hk |].
  intros t. specialize (Hb t). pose proof (pay_in_balance _ _ _ _ _ t Hpr Hp) as Hin.
  rewrite H2. lia.
Qed.

(** * The run invariant *)
Definition deposits w : Z := zsum (deposit_of w <$> seqZ 1 (proposal_count w)).

Record dep_ok w : Prop := {
  dep_self : self w = me;
  dep_wf : gov_wf w;
  dep_count : 0 ≤ proposal_count w;
  dep_start id : store w GKey.IlnContract = None →
    store w (GKey.ProposalDeposit id) = None ∧ is_settled w id = false;
  dep_entry id n : store w (GKey.ProposalDeposit id) = Some n →
    0 < n ∧ 1 ≤ id ≤ proposal_count w ∧ is_settled w id = false;
  dep_flag id : is_settled w id = true → id ≤ proposal_count w;
  dep_finished id p :
    gov_proposal_at w id = Some p → gp_status p ≠ Active → is_settled w id = true;
  dep_cover t :
    (if bool_decide (store w GKey.GovToken = Some t) then deposits w else 0)
      ≤ tok_balance (ext w) t me
}.

(** The contract does not propose to itself, and ids do not run out. *)
Definition from_outside (c : GovCall) w : Prop :=
  room c w ∧ ∀ pr a h v, c = GCreateProposal pr a h v → pr ≠ me.
(** Nothing else moves the contract's tokens. *)
Definition spared w w' : Prop := ∀ t, tok_balance (ext w) t me ≤ tok_balance (ext w') t me.

Lemma deposit_nonneg w id : dep_ok w → 0 ≤ deposit_of w id.
Proof.
  intros Hok. unfold deposit_of. destruct (store w (GKey.ProposalDeposit id)) as [n|] eqn:He; [| done].
  apply (dep_entry _ Hok) in He. simpl. lia.
Qed.

(** A calm part that finishes no proposal keeps the invariant. *)
Lemma calm_dep_ok w w' :
  dep_ok w → calm w w' → gov_wf w' → proposal_count w ≤ proposal_count w' →
  (∀ id p', gov_proposal_at w' id = Some p' → gp_status p' ≠ Active →
     ∃ p, gov_proposal_at w id = Some p ∧ gp_status p ≠ Active) →
  dep_ok w'.
Proof.
  intros Hok HC Hwf Hn Hfin. destruct (HC (dep_self _ Hok)) as (Hs & Hk & Hb).
  assert (∀ id, deposit_of w' id = deposit_of w id) as Hd
    by (intros; unfold deposit_of; by rewrite Hk).
  assert (∀ id, is_settled w' id = is_settled w id) as Hst
    by (intros; unfold is_settled; by rewrite Hk).
  pose proof (dep_count _ Hok) as Hc0.
  split; try done.
  - lia.
  - intros id. rewrite !Hk, Hst by done. apply (dep_start _ Hok).
  - intros id n. rewrite Hk, Hst by done. intros (? & ? & ?)%(dep_entry _ Hok).
    split_and!; [done | lia | lia | done].
  - intros id. rewrite Hst. intros ?%(dep_flag _ Hok). lia.
  - intros id p' Hp' Hne. destruct (Hfin _ _ Hp' Hne) as (p & Hp & ?).
    rewrite Hst. by eapply (dep_finished _ Hok).
  - intros t. rewrite Hk by done. etrans; [| apply Hb]. etrans; [| apply (dep_cover _ Hok)].
    assert (deposits w' = deposits w) as ->; [| done].
    unfold deposits.
    replace (proposal_count w') with (proposal_count w + (proposal_count w' - proposal_count w)) by lia.
    rewrite seqZ_app, fmap_app, zsum_app by lia.
    rewrite (list_fmap_ext (deposit_of w') (deposit_of w)) by (intros; apply Hd).
    assert (∀ l, (∀ j, j ∈ l → proposal_count w < j) → zsum (deposit_of w' <$> l) = 0) as ->; [| lia |].
    + induction l as [|j l IH]; intros Hl; [done |]. csimpl. rewrite Hd.
      rewrite IH by (intros; apply Hl; by right). specialize (Hl j ltac:(left)).
      unfold deposit_of. destruct (store w _) as [n|] eqn:He; [| done].
      apply (dep_entry _ Hok) in He. lia.
    + intros j ?%elem_of_seqZ. lia.
Qed.

(** Changing the deposit of one proposal. *)
Lemma deposits_update w w' id :
  proposal_count w' = proposal_count w → 1 ≤ id ≤ proposal_count w →
  (∀ j, j ≠ id → deposit_of w' j = deposit_of w j) →
  deposits w' = deposits w + (deposit_of w' id - deposit_of w id).
Proof.
  intros Hn Hid Hj. unfold deposits. rewrite Hn.
  rewrite (zsum_update (deposit_of w) (deposit_of w') id (deposit_of w' id - deposit_of w id));
    [| done | lia | apply NoDup_seqZ].
  rewrite bool_decide_eq_true_2; [done |]. apply elem_of_seqZ. lia.
Qed.

(** Settling the deposit of an existing proposal. *)
Lemma settles_dep_ok id w w' :
  dep_ok w → settles id w w' → is_Some (gov_proposal_at w id) → gov_wf w' →
  proposal_count w' = proposal_count w →
  (∀ j p', gov_proposal_at w' j = Some p' → gp_status p' ≠ Active →
     j = id ∨ ∃ p, gov_proposal_at w j = Some p ∧ gp_status p ≠ Active) →
  dep_ok w'.
Proof.
  intros Hok Hset [p0 Hp0] Hwf Hn Hfin. destruct (Hset (dep_self _ Hok)) as (Hs & Hflag & Hk & Hd & Hb).
  destruct (wf_proposal _ (dep_wf _ Hok) _ _ Hp0) as [Hid _].
  assert (store w GKey.IlnContract ≠ None) as Hi.
  { intros Hi. destruct (wf_start _ (dep_wf _ Hok) Hi) as [_ Hnone]. by rewrite Hnone in Hp0. }
  pose proof (deposit_nonneg _ id Hok) as Hnn.
  assert (∀ j, j ≠ id → is_settled w' j = is_settled w j ∧
    store w' (GKey.ProposalDeposit j) = store w (GKey.ProposalDeposit j)) as Hj.
  { intros j Hne. unfold is_settled. rewrite !Hk by first [congruence | reflexivity]. done. }
  assert (∀ j, is_settled w j = true → is_settled w' j = true) as Hgrow.
  { intros j. destruct (decide (j = id)) as [-> | Hne]; [done |]. by destruct (Hj j Hne) as [-> _]. }
  assert (∀ n, store w' (GKey.ProposalDeposit id) ≠ Some n) as Hgone.
  { intros n Hn'. rewrite Hd in Hn'. destruct (is_settled w id) eqn:Hst; [| done].
    apply (dep_entry _ Hok) in Hn' as (_ & _ & ?). congruence. }
  split; try done.
  - rewrite Hn. apply Hok.
  - intros j Hi'. by rewrite Hk in Hi'.
  - intros j n He. rewrite Hn. destruct (decide (j = id)) as [-> | Hne]; [by apply Hgone in He |].
    destruct (Hj j Hne) as [-> Hje]. rewrite Hje in He. by apply (dep_entry _ Hok).
  - intros j. rewrite Hn. destruct (decide (j = id)) as [-> | Hne]; [done |].
    destruct (Hj j Hne) as [-> _]. apply (dep_flag _ Hok).
  - intros j p' Hp' Hst. destruct (Hfin _ _ Hp' Hst) as [-> | (p & Hp & ?)]; [done |].
    by eapply Hgrow, (dep_finished _ Hok).
  - intros t. rewrite Hk by done. specialize (Hb t). pose proof (dep_cover _ Hok t) as Hc.
    assert (deposit_of w' id = 0) as Hz.
    { unfold deposit_of. destruct (store w' _) as [n|] eqn:He; [by destruct (Hgone n) | done]. }
    assert (deposits w' = deposits w - deposit_of w id) as ->.
    { destruct (Z.le_gt_cases 1 id) as [Hge | Hlt].
      - rewrite (deposits_update w w' id); [lia | done | lia |].
        intros j Hne. unfold deposit_of. by destruct (Hj j Hne) as [_ ->].
      - assert (deposit_of w id = 0) as ->.
        { unfold deposit_of. destruct (store w _) as [n|] eqn:He; [| done].
          apply (dep_entry _ Hok) in He. lia. }
        unfold deposits. rewrite Hn. rewrite (list_fmap_ext _ (deposit_of w)); [lia |].
        intros k j Hk'. apply list_elem_of_lookup_2, elem_of_seqZ in Hk'.
        unfold deposit_of. by destruct (Hj j ltac:(lia)) as [_ ->]. }
    assert (is_settled w id = true → deposit_of w id = 0) as Hst0.
    { intros Hst. unfold deposit_of. destruct (store w _) as [n|] eqn:He; [| done].
      apply (dep_entry _ Hok) in He as (_ & _ & ?). congruence. }
    destruct (is_settled w id); simpl in Hb; repeat case_bool_decide; try tauto;
      first [lia | specialize (Hst0 eq_refl); lia].
Qed.

(** ** Every call *)
(** A call finishes only the proposal it names. *)
Lemma step_finishes c w w' j p' :
  gov_exec c w = Done tt w' → gov_proposal_at w' j = Some p' → gp_status p' ≠ Active →
  c = GExecute j ∨ (∃ s h, c = GVeto s j h) ∨
  ∃ p, gov_proposal_at w j = Some p ∧ gp_status p ≠ Active.
Proof.
  intros Hx Hp' Hne. destruct (gov_exec_step budget c w w' j Hx) as [Hs _].
  rewrite Hp' in Hs. inversion Hs as [| | ? b n p ? Ha | | |]; simplify_eq; eauto.
  exfalso. apply Hne. by destruct b.
Qed.

Lemma create_dep_ok pr a h v id n w w' :
  dep_ok w → escrows id n w w' → id = proposal_count w + 1 → proposal_count w' = id →
  gov_exec (GCreateProposal pr a h v) w = Done tt w' → gov_wf w' → is_Some (store w GKey.GovToken) →
  dep_ok w'.
Proof.
  intros Hok He Hid Hn Hx Hwf Htok. destruct (He (dep_self _ Hok)) as (Hs & Hpos & Hd & Hk & Hb).
  assert (∀ j, is_settled w' j = is_settled w j) as Hst by (intros; unfold is_settled; by rewrite Hk).
  assert (∀ j, j ≠ id → store w' (GKey.ProposalDeposit j) = store w (GKey.ProposalDeposit j)) as Hj.
  { intros j Hne. rewrite Hk; [done | congruence | done]. }
  assert (is_settled w id = false) as Hfresh.
  { destruct (is_settled w id) eqn:Hf; [| done]. apply (dep_flag _ Hok) in Hf. lia. }
  pose proof (dep_count _ Hok) as Hc0.
  split; try done.
  - lia.
  - intros j. rewrite Hk by done. intros Hi. destruct (wf_start _ (dep_wf _ Hok) Hi) as [Ht _].
    rewrite Ht in Htok. by destruct Htok.
  - intros j m. rewrite Hst, Hn. destruct (decide (j = id)) as [-> | Hne].
    + rewrite Hd. intros [= <-]. split_and!; [done | lia | lia | done].
    + rewrite Hj by done. intros (? & ? & ?)%(dep_entry _ Hok). split_and!; [done | lia | lia | done].
  - intros j. rewrite Hst, Hn. intros Hf%(dep_flag _ Hok). lia.
  - intros j p' Hp' Hne. rewrite Hst.
    destruct (step_finishes _ _ _ _ _ Hx Hp' Hne) as [? | [(? & ? & ?) | (p & Hp & Hpa)]]; [done.. |].
    by eapply (dep_finished _ Hok).
  - intros t. rewrite Hk by done. specialize (Hb t). pose proof (dep_cover _ Hok t) as Hc.
    assert (deposits w' = deposits w + n) as ->.
    { unfold deposits. rewrite Hn, Hid, seqZ_app, fmap_app, zsum_app by lia.
      assert (deposit_of w' <$> seqZ (1 + proposal_count w) 1 = [n]) as ->.
      { change (seqZ (1 + proposal_count w) 1) with [1 + proposal_count w].
        replace (1 + proposal_count w) with id by lia. csimpl. unfold deposit_of. by rewrite Hd. }
      rewrite (list_fmap_ext (deposit_of w') (deposit_of w)); [simpl; lia |].
      intros k j Hk'%list_elem_of_lookup_2%elem_of_seqZ. unfold deposit_of. rewrite Hj; [done | lia]. }
    repeat case_bool_decide; try tauto; lia.
Qed.

Lemma init_dep_ok i d r t a n w w' :
  dep_ok w → initialize i d r t a n w = Done tt w' → gov_wf w' → dep_ok w'.
Proof.
  intros Hok Hx Hwf. pose proof (λ id, initialize_proposals _ _ _ _ _ _ _ _ id Hx) as Hp.
  apply initialize_spec in Hx as (Hi & Hi' & Ht & Hn & Hs & He & Hk).
  assert (∀ id, store w' (GKey.ProposalDeposit id) = None ∧ is_settled w' id = false) as Hnone.
  { intros id. destruct (dep_start _ Hok id Hi) as [H1' H2'].
    rewrite (Hk (GKey.ProposalDeposit id) id) by auto. split; [done |].
    unfold is_settled. by rewrite (Hk (GKey.ProposalDepositSettled id) id) by auto. }
  destruct (wf_start _ (dep_wf _ Hok) Hi) as [Htok Hnop].
  split; try done.
  - by rewrite Hs, (dep_self _ Hok).
  - by rewrite Hn.
  - intros id m Hm. destruct (Hnone id). congruence.
  - intros id Hf. destruct (Hnone id). congruence.
  - intros id p. by rewrite Hp, Hnop.
  - intros t'. rewrite He. pose proof (dep_cover _ Hok t') as Hc. rewrite Htok in Hc.
    rewrite bool_decide_eq_false_2 in Hc by done.
    unfold deposits. rewrite Hn. simpl. by case_bool_decide.
Qed.

Lemma veto_loads s id h w w' :
  veto_proposal s id h w = Done tt w' → is_Some (gov_proposal_at w id).
Proof.
  intros Hx. unfold veto_proposal in Hx.
  apply bind_done in Hx as (? & ? & [_ ->]%require_auth_done & Hx).
  apply bind_done in Hx as (? & ? & [_ ->]%reject_if_done & Hx).
  apply bind_done in Hx as (en & ? & Hm & Hx). minv Hm.
  apply bind_done in Hx as (? & ? & [_ ->]%reject_if_done & Hx).
  apply bind_done in Hx as (o & ? & Hm & Hx). minv Hm.
  apply bind_done in Hx as (signers & ? & [_ ->]%ok_or_done & Hx).
  apply bind_done in Hx as (? & ? & [_ ->]%reject_if_done & Hx).
  apply bind_done in Hx as (threshold & ? & Hm & Hx). minv Hm.
  apply bind_done in Hx as (p & ? & (_ & Hp & _)%load_proposal_done & _). by eexists.
Qed.

Lemma gov_dep_ok c w w' :
  gov_exec c w = Done tt w' → from_outside c w → dep_ok w → dep_ok w'.
Proof.
  intros Hx [Hroom Hout] Hok. pose proof (gov_step_wf budget c w w' Hx Hroom (dep_wf _ Hok)) as Hwf.
  pose proof (λ j p', step_finishes c w w' j p' Hx) as Hfin.
  destruct (gov_exec_step budget c w w' 0 Hx) as [_ Hcount].
  assert (deposit_call c = false → init_call c = false → dep_ok w') as Hother.
  { intros Hd Hi. eapply calm_dep_ok; [exact Hok | by eapply (calm_call c) | exact Hwf | |].
    - destruct c; try done; rewrite Hcount; lia.
    - intros id p' Hp' Hne. destruct (Hfin id p' Hp' Hne) as [-> | [(? & ? & ->) | ?]]; done. }
  destruct c as [| | | | | | | | |pr a h v| | | | |id| |s id h|]; try by apply Hother.
  - by eapply init_dep_ok.
  - specialize (Hout _ _ _ _ eq_refl). specialize (Hroom _ _ _ _ eq_refl).
    pose proof Hx as [id Hc]%gov_ignore_done.
    pose proof Hc as (_ & Hid & Htok & Hn & _)%create_proposal_spec.
    rewrite sat_id in Hid by lia.
    destruct (create_escrows _ _ _ _ _ _ _ Hc Hout) as [HC | [n He]].
    + eapply calm_dep_ok; [exact Hok | exact HC | exact Hwf | lia |].
      intros j p' Hp' Hne. destruct (Hfin j p' Hp' Hne) as [? | [(? & ? & ?) | ?]]; done.
    + by eapply create_dep_ok.
  - destruct (execute_settles _ _ _ Hx) as [[Hst HC] | Hset].
    + eapply calm_dep_ok; [exact Hok | exact HC | exact Hwf | simpl in Hcount; lia |].
      intros j p'. unfold gov_proposal_at. rewrite Hst. eauto.
    + eapply settles_dep_ok; [exact Hok | exact Hset | | exact Hwf | simpl in Hcount; lia |].
      * simpl in Hx. unfold execute_proposal in Hx.
        apply bind_done in Hx as (p & ? & (_ & Hp & _)%load_proposal_done & _). by eexists.
      * intros j p' Hp' Hne. destruct (Hfin j p' Hp' Hne) as [[= ->] | [(? & ? & ?) | ?]]; auto; done.
  - destruct (veto_settles _ _ _ _ _ Hx) as [[HC Hst] | Hset].
    + eapply calm_dep_ok; [exact Hok | exact HC | exact Hwf | simpl in Hcount; lia |].
      intros j p'. rewrite Hst. eauto.
    + eapply settles_dep_ok; [exact Hok | exact Hset | | exact Hwf | simpl in Hcount; lia |].
      * by eapply veto_loads.
      * intros j p' Hp' Hne. destruct (Hfin j p' Hp' Hne) as [? | [(? & ? & [= -> -> ->]) | ?]]; auto; done.
Qed.

Lemma dep_ok_deployed w :
  gov_deployed w → self w = me → (∀ t, 0 ≤ tok_balance (ext w) t me) → dep_ok w.
Proof.
  intros Hd Hs Hb. split; unfold is_settled, proposal_count, gov_proposal_at; rewrite ?Hd; try done.
  - by apply gov_wf_deployed.
  - intros id. by rewrite !Hd.
  - intros id n. by rewrite Hd.
  - intros id. by rewrite Hd.
  - intros id p. by rewrite Hd.
Qed.

Lemma run_dep_ok w w' : rtc (gov_step budget from_outside spared) w w' → dep_ok w → dep_ok w'.
Proof.
  induction 1 as [|w w1 w2 Hs _ IH]; [done |]. intros Hok. apply IH.
  destruct Hs as [c _ Hout Hx | He Hsp]; [by eapply gov_dep_ok |].
  assert (∀ k, temporary k = false → store w1 k = store w k) as Hk
    by (intros; by eapply gov_env_keeps).
  eapply calm_dep_ok; [exact Hok | | by eapply gov_env_wf, Hok | | ].
  - intros Hme. destruct He as [Hs _]. split; [congruence |]. split; [| exact Hsp].
    intros k Hl. apply Hk. by destruct k.
  - unfold proposal_count. rewrite Hk by done. lia.
  - intros id p. unfold gov_proposal_at. rewrite Hk by done. eauto.
Qed.

(** C27: deposits are covered.  On any run from deployment, the governance tokens the
    contract holds cover the deposits of all proposals, and a proposal that has left
    [Active] has no deposit: it was refunded or forfeited exactly once. *)
Theorem deposits_covered w0 w :
  gov_deployed w0 → self w0 = me → (∀ t, 0 ≤ tok_balance (ext w0) t me) →
  rtc (gov_step budget from_outside spared) w0 w →
  (∀ t, store w GKey.GovToken = Some t → deposits w ≤ tok_balance (ext w) t me) ∧
  ∀ id p, gov_proposal_at w id = Some p → gp_status p ≠ Active →
    is_settled w id = true ∧ store w (GKey.ProposalDeposit id) = None.
Proof.
  intros Hd Hs Hb Hr. pose proof (run_dep_ok _ _ Hr (dep_ok_deployed _ Hd Hs Hb)) as Hok. split.
  - intros t Ht. pose proof (dep_cover _ Hok t) as Hc. by rewrite bool_decide_eq_true_2 in Hc.
  - intros id p Hp Hne. pose proof (dep_finished _ Hok _ _ Hp Hne) as Hf. split; [done |].
    destruct (store w (GKey.ProposalDeposit id)) as [n|] eqn:He; [| done].
    apply (dep_entry _ Hok) in He as (_ & _ & ?). congruence.
Qed.

(** C28: a passed proposal executes.  On any such run, once the timelock of a passed proposal
    has elapsed and its callee accepts the action, [execute_proposal] succeeds, marks it
    [Executed] and leaves the callee's effect as the only change to other contracts. *)
Theorem passed_executes w0 w id p iln target x :
  gov_deployed w0 → self w0 = me → (∀ t, 0 ≤ tok_balance (ext w0) t me) →
  rtc (gov_step budget from_outside spared) w0 w →
  result_of (get_proposal id) w = Some p → gp_status p = Passed →
  gp_voting_end p ≤ now (ctx w) → gp_eta_ledger p ≤ ledger_seq (ctx w) →
  store w GKey.IlnContract = Some iln → result_of (call_of_action iln (gp_action_type p)) w = Some target →
  gov_remote target.1 target.2 (gp_action_type p) (ext w) = Some (true, x) →
  ∃ w', gov_exec (GExecute id) w = Done tt w' ∧
    gov_proposal_at w' id = Some (set_gov_status Executed p) ∧ ext w' = x.
Proof.
  intros Hd Hs Hb Hr Hget%run_done Hst Hend Heta Hiln Hcall%run_done Hrem.
  assert (load_proposal id w = Done p w) as Hload.
  { pose proof Hget as (Hw & _)%load_proposal_done. by rewrite Hw in Hget. }
  assert (call_of_action iln (gp_action_type p) w = Done target w) as Hcall'.
  { revert Hcall. generalize (commit (call_of_action iln (gp_action_type p)) w). intros w1 Hc.
    assert (w1 = w) as ->; [| done]. unfold call_of_action, get_iln_contract,
      get_distribution_contract, get_reputation_bonus_contract in Hc. by minv Hc. }
  pose proof (run_dep_ok _ _ Hr (dep_ok_deployed _ Hd Hs Hb)) as Hok.
  pose proof (load_proposal_done _ _ _ _ Hload) as (_ & Hp & Hid & _).
  pose proof (dep_finished _ Hok id p Hp ltac:(by rewrite Hst)) as Hset. unfold is_settled in Hset.
  assert (assert_executable p w = Done tt w) as Hexe.
  { unfold assert_executable. go_by ltac:(apply reject_pass; by rewrite bool_decide_eq_true_2).
    go. go_by ltac:(apply reject_pass; lia). go. apply reject_pass. lia. }
  eexists. split.
  { simpl. unfold execute_proposal.
    go_by ltac:(exact Hload). rewrite Hst.
    go. go. go. go_by ltac:(apply reject_pass; lia).
    unfold run_passed. go_by ltac:(exact Hexe).
    go_by ltac:(unfold get_iln_contract; go; rewrite Hiln; reflexivity).
    go_by ltac:(exact Hcall').
    go_by ltac:(unfold invoke_and_check, try_invoke; go_by ltac:(rewrite Hrem; reflexivity); reflexivity).
    rewrite (bool_decide_eq_true_2 (Some true = Some true)) by done. cbv beta iota.
    unfold transition_status, refund_proposal_deposit.
    go_by ltac:(rewrite Hst; go; go; reflexivity). go. go. go.
    go_by ltac:(go; unfold get_or, reads; simpl; sto; rewrite Hid, Hset; reflexivity).
    reflexivity. }
  split; [| done]. unfold gov_proposal_at. simpl. rewrite ?Hid. by sto.
Qed.
End deposits.

(** * Witnesses *)
#[export] Instance Sac_gov_laws me : GovPeerLaws Sac.t me.
Proof. split. intros t f [] x b x' tok; simpl; repeat case_match; naive_solver. Qed.

Module DepositWitness.
Import GovScenario GovWitness.

Lemma spared_clocked : clocked (spared gov).
Proof. intros c w t. simpl. lia. Qed.
Lemma outside_free c (w : W) :
  (∀ pr a h v, c ≠ GCreateProposal pr a h v) → from_outside gov c w.
Proof. intros Hc. split; [by apply free_room |]. intros pr a h v ->. by edestruct Hc. Qed.
Lemma outside_create : from_outside gov create1 (with_ctx (at_ledger 120) w_open).
Proof. split; [exact open_room |]. by intros pr a h v [= <- _ _ _]. Qed.

(** Proposal 1 has passed and its timelock has elapsed. *)
Definition to_passed : list (Z * GovCall) :=
  ballots ++ [ (140, GSetExecutionDelay admin 100); (60000, GExecute 1) ].
Definition w_passed : W := with_ctx (at_ledger 60100) (played to_passed w_created).

Lemma created_deposit_steps : rtc (gov_step 50 (from_outside gov) (spared gov)) w0 w_created.
Proof. apply created_steps; [exact spared_clocked | exact outside_free | exact outside_create]. Qed.
Lemma passed_steps : rtc (gov_step 50 (from_outside gov) (spared gov)) w0 w_passed.
Proof.
  refine (transitivity created_deposit_steps (transitivity (y := played to_passed w_created) _ _)).
  - apply script_steps; [exact spared_clocked | exact outside_free | done | vm_compute; reflexivity].
  - refine (rtc_once _ _ (gov_env _ _ _ _ _ (env_ctx _ _) (spared_clocked _ _))).
Qed.
Lemma gov_bank_nonneg t : 0 ≤ tok_balance (ext w0) t gov.
Proof. simpl. unfold Sac.balance, bank. simpl. by rewrite !lookup_insert_ne, lookup_singleton_ne by naive_solver. Qed.

Lemma deposits_covered_witness :
  ((∀ t, store w_created GKey.GovToken = Some t → deposits w_created ≤ tok_balance (ext w_created) t gov)
   ∧ ∀ id p, gov_proposal_at w_created id = Some p → gp_status p ≠ Active →
       is_settled w_created id = true ∧ store w_created (GKey.ProposalDeposit id) = None) ∧
  deposits w_created = 500.
Proof.
  split; [| vm_compute; reflexivity].
  apply (deposits_covered 50 gov w0 w_created);
    [exact deployed | reflexivity | exact gov_bank_nonneg | exact created_deposit_steps].
Defined.

Lemma passed_executes_witness :
  ∃ w', run (GExecute 1) w_passed = Done tt w' ∧
    gov_proposal_at w' 1 = Some (set_gov_status Executed (proposal1 w_passed)) ∧
    ext w' = ext w_passed.
Proof.
  apply (passed_executes 50 gov w0 w_passed 1 (proposal1 w_passed) iln
           (iln, "update_fee_rate"%string) (ext w_passed)).
  - exact deployed.
  - reflexivity.
  - exact gov_bank_nonneg.
  - exact passed_steps.
  - vm_compute. reflexivity.
  - vm_compute. reflexivity.
  - vm_compute. congruence.
  - vm_compute. congruence.
  - vm_compute. reflexivity.
  - vm_compute. reflexivity.
  - vm_compute. reflexivity.
Defined.
End DepositWitness.
