(* ===== verification/Insurance.v ===== *)
(** The default-protection pool, [src/contracts/insurance_pool/src/lib.rs]: premiums
    and tiered coverage, claims, timelocked parameter changes, the solvency circuit
    breaker, the capital backstop, claim evidence and the per-pair default counters. *)
From S2P Require Import Prelude Host.

Module Pool.

Definition INSURANCE_INTERFACE_VERSION : Z := 1.
Definition MIN_PAIR_DEFAULTS_TO_FLAG : Z := 3.
Definition COLLUSION_PAIR_SHARE_FLAG_BPS : Z := 5000.
Definition TIMELOCK_DELAY_SECONDS : Z := 3 * 24 * 60 * 60.
Definition SECONDS_PER_MONTH : Z := 30 * 24 * 60 * 60.

Module PoolErr.
Inductive InsuranceError :=
| NotInitialized | AlreadyClaimed | InvalidAmount | PoolEmpty | AlreadyInitialized
| NoPendingProposal | TimelockNotExpired | ArithmeticOverflow | BalanceCapExceeded
| SolvencyCircuitOpen | InvalidReserveRatio | EvidenceRequired | ReviewWindowNotElapsed
| InvalidBackstopAmount.
End PoolErr.
Export PoolErr (InsuranceError).

Record PoolHealth := mkPoolHealth {
  ph_balance : Z;
  ph_enrolled_lp_count : Z;
  ph_monthly_claim_rate : Z;
  ph_months_of_coverage : option Z
}.

Record ClaimEvidence := mkClaimEvidence {
  ce_evidence_hash : BytesN32;
  ce_submitted_at : Z
}.

(** [DataKey].  [CoverageTiers] is declared by the source and never used. *)
Module PoolKey.
Inductive DataKey :=
| Admin | Balance | Coverage | TokenAddress
| Enrolled (lp : Address) | Premiums (lp : Address) | Claimed (invoice_id : Z)
| PendingCoverage | PendingAdmin | CoverageEta | AdminEta
| BasePremiumRateBps | RiskMultiplierNumerator | RiskMultiplierDenominator
| PendingRiskMultiplierNumerator | PendingRiskMultiplierDenominator | RiskMultiplierEta
| DefaultCount (lp : Address) | ClaimCount (lp : Address)
| BalanceCap | InitializedAt | EnrolledCount | TotalDefaultCount
| MinReserveRatioBps | SolvencyCircuitOpenFlag
| BackstopBalance | BackstopFundingBps
| EvidenceOf (invoice_id : Z) | ReviewWindowSeconds
| PairDefaultCount (lp payer : Address)
| ReputationContract.
End PoolKey.
Export PoolKey (DataKey).

#[global] Instance PoolKey_eq_dec : EqDecision DataKey.
Proof. solve_decision. Defined.

Definition pool_entry (k : DataKey) : Type :=
  match k with
  | PoolKey.Admin | PoolKey.TokenAddress | PoolKey.PendingAdmin
  | PoolKey.ReputationContract => Address
  | PoolKey.Enrolled _ | PoolKey.Claimed _ | PoolKey.SolvencyCircuitOpenFlag => bool
  | PoolKey.EvidenceOf _ => ClaimEvidence
  | _ => Z
  end.
#[global] Instance pool_schema : Schema DataKey := {| val := pool_entry |}.

(** The published topics with their payloads. *)
Inductive PoolEvent :=
| PoolInitialized (admin : Address) (coverage : Z)
| RiskProposed (numerator denominator eta : Z)
| RiskExecuted (old_num old_den numerator denominator : Z)
| RiskCancelled
| CoverageProposed (new_coverage eta : Z)
| CoverageExecuted (new_coverage : Z)
| CoverageCancelled
| AdminProposed (new_admin : Address) (eta : Z)
| AdminExecuted (new_admin : Address)
| AdminCancelled
| CoverageByGovernance (old_coverage new_coverage : Z)
| PremiumByGovernance (old_rate rate_bps : Z)
| CapSet (cap : Z)
| MinReserveSet (bps : Z)
| SolvencyCircuitReset (ratio_bps reserve : Z)
| SolvencyCircuitTripped (ratio_bps reserve : Z)
| BackstopBpsSet (bps : Z)
| BackstopTopUp (from : Address) (amount backstop_balance : Z)
| EvidenceSubmitted (invoice_id : Z) (evidence : ClaimEvidence)
| ReviewWindowSet (seconds : Z)
| PairDefaultRecorded (lp payer : Address) (pair_count : Z)
| EnrolledEvent (lp : Address)
| PremiumEvent (lp : Address) (amount : Z)
| ClaimedEvent (invoice_id payout : Z).

(** The reputation contract the pool may be pointed at: [get_reputation] of the
    contract at the given address, with the answer decoded as a [u32] ([None]
    when it does not decode).  A failing call is [None] of the outer option. *)
Class ReputationPeer (X : Type) : Type := {
  peer_get_reputation : Address → Address → X → option (option Z * X)
}.

Section pool.
Context {X : Type} `{TokenInterface X} `{ReputationPeer X}.
Abbreviation W := (world DataKey X PoolEvent).
Abbreviation IO := (M W InsuranceError).

Definition require_admin : IO Address :=
  admin ← get PoolKey.Admin;
  match admin with
  | Some admin => require_auth admin;; mret admin
  | None => throw PoolErr.NotInitialized
  end.

(** [get_token_client]: only the address is read. *)
Definition get_token_client : IO Address :=
  token ← get PoolKey.TokenAddress;
  ok_or token PoolErr.NotInitialized.

Definition initialize (admin : Address) (coverage : Z) (token : Address) : IO unit :=
  done ← has PoolKey.Admin;
  reject_if done PoolErr.AlreadyInitialized;;
  reject_if (coverage <=? 0) PoolErr.InvalidAmount;;
  require_auth admin;;
  put PoolKey.Admin admin;;
  put PoolKey.Balance 0;;
  put PoolKey.Coverage coverage;;
  put PoolKey.TokenAddress token;;
  t ← timestamp;
  put PoolKey.InitializedAt t;;
  publish (PoolInitialized admin coverage).

(** ** Views *)
Definition get_premiums_paid (lp : Address) : IO Z := get_or (PoolKey.Premiums lp) 0.
Definition get_coverage : IO Z := get_or PoolKey.Coverage 0.
Definition get_token_address : IO Address :=
  token ← get PoolKey.TokenAddress;
  ok_or token PoolErr.NotInitialized.
Definition get_base_premium_rate_bps : IO Z := get_or PoolKey.BasePremiumRateBps 500.
Definition get_risk_multiplier_numerator : IO Z := get_or PoolKey.RiskMultiplierNumerator 1.
Definition get_risk_multiplier_denominator : IO Z :=
  get_or PoolKey.RiskMultiplierDenominator 1.
Definition get_reputation_contract : IO (option Address) := get PoolKey.ReputationContract.
Definition get_default_count (lp : Address) : IO Z := get_or (PoolKey.DefaultCount lp) 0.
Definition get_claim_count (lp : Address) : IO Z := get_or (PoolKey.ClaimCount lp) 0.
Definition is_claimed (invoice_id : Z) : IO bool := get_or (PoolKey.Claimed invoice_id) false.
Definition get_balance_cap : IO (option Z) := get PoolKey.BalanceCap.
Definition get_min_reserve_ratio_bps : IO Z := get_or PoolKey.MinReserveRatioBps 0.
Definition is_solvency_circuit_open : IO bool := get_or PoolKey.SolvencyCircuitOpenFlag false.
Definition get_backstop_funding_bps : IO Z := get_or PoolKey.BackstopFundingBps 0.
Definition get_backstop_balance : IO Z := get_or PoolKey.BackstopBalance 0.
Definition get_claim_evidence (invoice_id : Z) : IO (option ClaimEvidence) :=
  get (PoolKey.EvidenceOf invoice_id).
Definition get_review_window_seconds : IO Z := get_or PoolKey.ReviewWindowSeconds 0.
Definition get_pair_default_count (lp payer : Address) : IO Z :=
  get_or (PoolKey.PairDefaultCount lp payer) 0.
Definition interface_version : IO Z := mret INSURANCE_INTERFACE_VERSION.
Definition is_enrolled (lp : Address) : IO bool := get_or (PoolKey.Enrolled lp) false.
Definition get_pool_balance : IO Z := get_or PoolKey.Balance 0.

Definition get_pending_coverage : IO (option (Z * Z)) :=
  c ← get PoolKey.PendingCoverage;
  match c with
  | None => mret None
  | Some c => eta ← get PoolKey.CoverageEta; mret (pair c <$> eta)
  end.
Definition get_pending_admin : IO (option (Address * Z)) :=
  a ← get PoolKey.PendingAdmin;
  match a with
  | None => mret None
  | Some a => eta ← get PoolKey.AdminEta; mret (pair a <$> eta)
  end.

(** ** Premium pricing and coverage *)
Definition set_base_premium_rate_bps (rate_bps : Z) : IO unit :=
  require_admin;;
  reject_if ((rate_bps =? 0) || (10000 <? rate_bps)) PoolErr.InvalidAmount;;
  put PoolKey.BasePremiumRateBps rate_bps.

Definition set_risk_multiplier (numerator denominator : Z) : IO unit :=
  require_admin;;
  reject_if ((numerator <? 0) || (denominator <=? 0)) PoolErr.InvalidAmount;;
  put PoolKey.RiskMultiplierNumerator numerator;;
  put PoolKey.RiskMultiplierDenominator denominator.

Definition set_reputation_contract (contract : Address) : IO unit :=
  require_admin;;
  put PoolKey.ReputationContract contract.

(** [default_count.checked_mul(100 - score).and_then(checked_div(100))], falling back
    to the count itself. *)
Definition discounted_count (default_count score : Z) : Z :=
  match chk_i128 (default_count * (100 - score)) with
  | Some v => v ÷ 100
  | None => default_count
  end.

Definition apply_reputation_discount (lp : Address) (default_count : Z) : IO Z :=
  rep_contract ← get PoolKey.ReputationContract;
  match rep_contract with
  | None => mret default_count
  | Some rep_contract =>
      result ← try_invoke (peer_get_reputation rep_contract lp);
      match result with
      | Some score => mret (discounted_count default_count (default 0 score))
      | None => mret default_count
      end
  end.

(** The checked chain of [calculate_premium_rate_bps]; [checked_div] fails on
    [i128::MIN / -1] as well, which a positive denominator excludes. *)
Definition risk_adjustment (effective_default_count numerator denominator : Z) : Z :=
  default 10000
    (v ← chk_i128 (effective_default_count * numerator);
     v ← chk_i128 (v * 10000);
     if denominator =? 0 then None else chk_i128 (v ÷ denominator)).

(** [total_rate as u32]. *)
Definition as_u32 (z : Z) : Z := z mod 2 ^ 32.

Definition calculate_premium_rate_bps (lp : Address) : IO Z :=
  base_rate ← get_base_premium_rate_bps;
  default_count ← get_default_count lp;
  numerator ← get_risk_multiplier_numerator;
  denominator ← get_risk_multiplier_denominator;
  if denominator =? 0 then mret base_rate
  else
    effective ← apply_reputation_discount lp default_count;
    let total_rate := sat_i128 (base_rate + risk_adjustment effective numerator denominator) in
    mret (if 10000 <? total_rate then 10000 else as_u32 total_rate).

Definition calculate_premium_amount (lp : Address) (invoice_amount : Z) : IO Z :=
  rate_bps ← calculate_premium_rate_bps lp;
  mret (sat_i128 (invoice_amount * rate_bps) ÷ 10000).

(** The tier table of [get_tiered_coverage]. *)
Definition tier_of (premiums_paid default_coverage : Z) : Z :=
  if default_coverage ÷ 2 <=? premiums_paid then sat_i128 (default_coverage * 150) ÷ 100
  else if default_coverage ÷ 4 <=? premiums_paid then default_coverage
  else if default_coverage ÷ 10 <=? premiums_paid then sat_i128 (default_coverage * 75) ÷ 100
  else sat_i128 (default_coverage * 50) ÷ 100.

Definition get_tiered_coverage (lp : Address) : IO Z :=
  premiums_paid ← get_premiums_paid lp;
  default_coverage ← get_coverage;
  mret (tier_of premiums_paid default_coverage).

(** ** Timelocked changes *)
Definition propose_risk_multiplier (numerator denominator : Z) : IO Z :=
  require_admin;;
  reject_if ((numerator <? 0) || (denominator <=? 0)) PoolErr.InvalidAmount;;
  t ← timestamp;
  let eta := sat_u64 (t + TIMELOCK_DELAY_SECONDS) in
  put PoolKey.PendingRiskMultiplierNumerator numerator;;
  put PoolKey.PendingRiskMultiplierDenominator denominator;;
  put PoolKey.RiskMultiplierEta eta;;
  publish (RiskProposed numerator denominator eta);;
  mret eta.

Definition execute_risk_multiplier : IO unit :=
  numerator ← (get PoolKey.PendingRiskMultiplierNumerator
               ≫= λ o, ok_or o PoolErr.NoPendingProposal);
  denominator ← (get PoolKey.PendingRiskMultiplierDenominator
                 ≫= λ o, ok_or o PoolErr.NoPendingProposal);
  eta ← (get PoolKey.RiskMultiplierEta ≫= λ o, ok_or o PoolErr.NoPendingProposal);
  t ← timestamp;
  reject_if (t <? eta) PoolErr.TimelockNotExpired;;
  old_num ← get_risk_multiplier_numerator;
  old_den ← get_risk_multiplier_denominator;
  put PoolKey.RiskMultiplierNumerator numerator;;
  put PoolKey.RiskMultiplierDenominator denominator;;
  remove PoolKey.PendingRiskMultiplierNumerator;;
  remove PoolKey.PendingRiskMultiplierDenominator;;
  remove PoolKey.RiskMultiplierEta;;
  publish (RiskExecuted old_num old_den numerator denominator).

Definition cancel_risk_multiplier : IO unit :=
  require_admin;;
  pending ← has PoolKey.PendingRiskMultiplierNumerator;
  reject_if (negb pending) PoolErr.NoPendingProposal;;
  remove PoolKey.PendingRiskMultiplierNumerator;;
  remove PoolKey.PendingRiskMultiplierDenominator;;
  remove PoolKey.RiskMultiplierEta;;
  publish RiskCancelled.

Definition propose_coverage_change (new_coverage : Z) : IO Z :=
  require_admin;;
  reject_if (new_coverage <=? 0) PoolErr.InvalidAmount;;
  t ← timestamp;
  let eta := sat_u64 (t + TIMELOCK_DELAY_SECONDS) in
  put PoolKey.PendingCoverage new_coverage;;
  put PoolKey.CoverageEta eta;;
  publish (CoverageProposed new_coverage eta);;
  mret eta.

Definition execute_coverage_change : IO unit :=
  new_coverage ← (get PoolKey.PendingCoverage ≫= λ o, ok_or o PoolErr.NoPendingProposal);
  eta ← (get PoolKey.CoverageEta ≫= λ o, ok_or o PoolErr.NoPendingProposal);
  t ← timestamp;
  reject_if (t <? eta) PoolErr.TimelockNotExpired;;
  put PoolKey.Coverage new_coverage;;
  remove PoolKey.PendingCoverage;;
  remove PoolKey.CoverageEta;;
  publish (CoverageExecuted new_coverage).

Definition cancel_coverage_change : IO unit :=
  require_admin;;
  pending ← has PoolKey.PendingCoverage;
  reject_if (negb pending) PoolErr.NoPendingProposal;;
  remove PoolKey.PendingCoverage;;
  remove PoolKey.CoverageEta;;
  publish CoverageCancelled.

Definition propose_admin_transfer (new_admin : Address) : IO Z :=
  require_admin;;
  t ← timestamp;
  let eta := sat_u64 (t + TIMELOCK_DELAY_SECONDS) in
  put PoolKey.PendingAdmin new_admin;;
  put PoolKey.AdminEta eta;;
  publish (AdminProposed new_admin eta);;
  mret eta.

Definition execute_admin_transfer : IO unit :=
  new_admin ← (get PoolKey.PendingAdmin ≫= λ o, ok_or o PoolErr.NoPendingProposal);
  eta ← (get PoolKey.AdminEta ≫= λ o, ok_or o PoolErr.NoPendingProposal);
  t ← timestamp;
  reject_if (t <? eta) PoolErr.TimelockNotExpired;;
  put PoolKey.Admin new_admin;;
  remove PoolKey.PendingAdmin;;
  remove PoolKey.AdminEta;;
  publish (AdminExecuted new_admin).

Definition cancel_admin_transfer : IO unit :=
  require_admin;;
  pending ← has PoolKey.PendingAdmin;
  reject_if (negb pending) PoolErr.NoPendingProposal;;
  remove PoolKey.PendingAdmin;;
  remove PoolKey.AdminEta;;
  publish AdminCancelled.

(** ** Direct governance setters *)
Definition set_coverage_via_governance (new_coverage : Z) : IO unit :=
  reject_if (new_coverage <=? 0) PoolErr.InvalidAmount;;
  admin ← (get PoolKey.Admin ≫= λ o, ok_or o PoolErr.NotInitialized);
  require_auth admin;;
  old_coverage ← get_or PoolKey.Coverage 0;
  put PoolKey.Coverage new_coverage;;
  publish (CoverageByGovernance old_coverage new_coverage).

Definition set_premium_rate_via_governance (rate_bps : Z) : IO unit :=
  admin ← (get PoolKey.Admin ≫= λ o, ok_or o PoolErr.NotInitialized);
  require_auth admin;;
  reject_if ((rate_bps =? 0) || (10000 <? rate_bps)) PoolErr.InvalidAmount;;
  old_rate ← get_base_premium_rate_bps;
  put PoolKey.BasePremiumRateBps rate_bps;;
  publish (PremiumByGovernance old_rate rate_bps).

Definition set_balance_cap (cap : Z) : IO unit :=
  require_admin;;
  reject_if (cap <? 0) PoolErr.InvalidAmount;;
  (if cap =? 0 then remove PoolKey.BalanceCap else put PoolKey.BalanceCap cap);;
  publish (CapSet cap).

(** ** Health, reserve ratio and the solvency circuit *)
Definition monthly_claim_rate (total_defaults coverage elapsed_seconds : Z) : Z :=
  sat_i128 (total_defaults * coverage) ÷ Z.max (elapsed_seconds ÷ SECONDS_PER_MONTH) 1.

Definition get_pool_health : IO PoolHealth :=
  balance ← get_or PoolKey.Balance 0;
  enrolled_lp_count ← get_or PoolKey.EnrolledCount 0;
  total_defaults ← get_or PoolKey.TotalDefaultCount 0;
  t ← timestamp;
  initialized_at ← get_or PoolKey.InitializedAt t;
  coverage ← get_coverage;
  let rate := if total_defaults =? 0 then 0
              else monthly_claim_rate total_defaults coverage (sat_u64 (t - initialized_at)) in
  mret (mkPoolHealth balance enrolled_lp_count rate
          (if rate <=? 0 then None else Some (Z.max 0 (Z.min u32_max (balance ÷ rate))))).

Definition get_total_reserve : IO Z :=
  balance ← get_or PoolKey.Balance 0;
  backstop ← get_or PoolKey.BackstopBalance 0;
  mret (sat_i128 (balance + backstop)).

(** [ratio.min(u32::MAX as i128) as u32]. *)
Definition ratio_of (reserve coverage : Z) : Z :=
  if coverage <=? 0 then 0
  else as_u32 (Z.min (sat_i128 (reserve * 10000) ÷ coverage) u32_max).

Definition get_reserve_ratio_bps : IO Z :=
  coverage ← get_coverage;
  reserve ← get_total_reserve;
  mret (ratio_of reserve coverage).

Definition set_min_reserve_ratio_bps (bps : Z) : IO unit :=
  require_admin;;
  reject_if (10000 <? bps) PoolErr.InvalidReserveRatio;;
  put PoolKey.MinReserveRatioBps bps;;
  publish (MinReserveSet bps).

Definition reset_solvency_circuit : IO unit :=
  require_admin;;
  open ← is_solvency_circuit_open;
  if negb open then mret tt
  else
    ratio_bps ← get_reserve_ratio_bps;
    reserve ← get_total_reserve;
    remove PoolKey.SolvencyCircuitOpenFlag;;
    publish (SolvencyCircuitReset ratio_bps reserve).

Definition gate_solvency_circuit : IO unit :=
  open ← is_solvency_circuit_open;
  reject_if open PoolErr.SolvencyCircuitOpen.

Definition trip_circuit_if_breached : IO unit :=
  min_bps ← get_min_reserve_ratio_bps;
  if min_bps =? 0 then mret tt
  else
    already_open ← is_solvency_circuit_open;
    if already_open : bool then mret tt
    else
      ratio_bps ← get_reserve_ratio_bps;
      if min_bps <=? ratio_bps then mret tt
      else
        reserve ← get_total_reserve;
        put PoolKey.SolvencyCircuitOpenFlag true;;
        publish (SolvencyCircuitTripped ratio_bps reserve).

(** ** The capital backstop *)
Definition set_backstop_funding_bps (bps : Z) : IO unit :=
  require_admin;;
  reject_if (10000 <? bps) PoolErr.InvalidReserveRatio;;
  put PoolKey.BackstopFundingBps bps;;
  publish (BackstopBpsSet bps).

Definition top_up_backstop (from : Address) (amount : Z) : IO unit :=
  require_admin;;
  reject_if (amount <=? 0) PoolErr.InvalidBackstopAmount;;
  require_auth from;;
  backstop ← get_backstop_balance;
  new_backstop ← ok_or (chk_i128 (backstop + amount)) PoolErr.ArithmeticOverflow;
  put PoolKey.BackstopBalance new_backstop;;
  token ← get_token_client;
  me ← current_contract;
  invoke (ext_transfer token from me amount);;
  publish (BackstopTopUp from amount new_backstop).

(** ** Claim evidence and the review window *)
Definition submit_claim_evidence (invoice_id : Z) (evidence_hash : BytesN32) : IO unit :=
  require_admin;;
  t ← timestamp;
  let evidence := mkClaimEvidence evidence_hash t in
  put (PoolKey.EvidenceOf invoice_id) evidence;;
  publish (EvidenceSubmitted invoice_id evidence).

Definition set_review_window_seconds (seconds : Z) : IO unit :=
  require_admin;;
  put PoolKey.ReviewWindowSeconds seconds;;
  publish (ReviewWindowSet seconds).

(** [checked_add(window_seconds).unwrap_or(u64::MAX)] is a saturating addition. *)
Definition enforce_claim_review_gate (invoice_id : Z) : IO unit :=
  window_seconds ← get_review_window_seconds;
  if window_seconds =? 0 then mret tt
  else
    evidence ← (get (PoolKey.EvidenceOf invoice_id)
                ≫= λ o, ok_or o PoolErr.EvidenceRequired);
    t ← timestamp;
    let payout_eta := default u64_max (chk_u64 (ce_submitted_at evidence + window_seconds)) in
    reject_if (t <? payout_eta) PoolErr.ReviewWindowNotElapsed.

(** ** Default counters *)
Definition increment_default_count (lp : Address) : IO unit :=
  require_admin;;
  count ← get_default_count lp;
  count' ← unwrap (chk_u32 (count + 1));
  put (PoolKey.DefaultCount lp) count';;
  total ← get_or PoolKey.TotalDefaultCount 0;
  total' ← unwrap (chk_u32 (total + 1));
  put PoolKey.TotalDefaultCount total'.

Definition record_pair_default (lp payer : Address) : IO unit :=
  require_admin;;
  increment_default_count lp;;
  pair_count ← get_or (PoolKey.PairDefaultCount lp payer) 0;
  let new_pair_count := sat_u32 (pair_count + 1) in
  put (PoolKey.PairDefaultCount lp payer) new_pair_count;;
  publish (PairDefaultRecorded lp payer new_pair_count).

Definition get_pair_collusion_flag (lp payer : Address) : IO bool :=
  pair_count ← get_pair_default_count lp payer;
  if pair_count <? MIN_PAIR_DEFAULTS_TO_FLAG then mret false
  else
    lp_defaults ← get_default_count lp;
    if lp_defaults =? 0 then mret false
    else mret (COLLUSION_PAIR_SHARE_FLAG_BPS <=? sat_u64 (pair_count * 10000) ÷ lp_defaults).

(** ** Enrollment, premiums and claims *)
Definition mark_enrolled (lp : Address) : IO unit :=
  already_enrolled ← get_or (PoolKey.Enrolled lp) false;
  if already_enrolled : bool then mret tt
  else
    put (PoolKey.Enrolled lp) true;;
    count ← get_or PoolKey.EnrolledCount 0;
    count' ← unwrap (chk_u32 (count + 1));
    put PoolKey.EnrolledCount count'.

Definition enroll (lp : Address) : IO unit :=
  require_auth lp;;
  mark_enrolled lp;;
  publish (EnrolledEvent lp).

(** The part of a premium diverted to the backstop. *)
Definition backstop_share (amount funding_bps : Z) : Z :=
  sat_i128 (amount * funding_bps) ÷ 10000.

(** [if backstop_share > 0 { ... }] *)
Definition book_backstop (lp : Address) (share : Z) : IO unit :=
  if 0 <? share then
    backstop ← get_backstop_balance;
    new_backstop ← ok_or (chk_i128 (backstop + share)) PoolErr.ArithmeticOverflow;
    put PoolKey.BackstopBalance new_backstop;;
    publish (BackstopTopUp lp share new_backstop)
  else mret tt.

Definition deposit_premium (lp : Address) (amount : Z) : IO unit :=
  require_auth lp;;
  reject_if (amount <=? 0) PoolErr.InvalidAmount;;
  mark_enrolled lp;;
  prev_premium ← get_or (PoolKey.Premiums lp) 0;
  new_premium ← ok_or (chk_i128 (prev_premium + amount)) PoolErr.ArithmeticOverflow;
  put (PoolKey.Premiums lp) new_premium;;
  funding_bps ← get_backstop_funding_bps;
  let share := backstop_share amount funding_bps in
  let liquid_share := sat_i128 (amount - share) in
  balance ← get_or PoolKey.Balance 0;
  new_balance ← ok_or (chk_i128 (balance + liquid_share)) PoolErr.ArithmeticOverflow;
  cap ← get PoolKey.BalanceCap;
  reject_if (match cap with Some cap => cap <? new_balance | None => false end)
    PoolErr.BalanceCapExceeded;;
  put PoolKey.Balance new_balance;;
  book_backstop lp share;;
  token ← get_token_client;
  me ← current_contract;
  invoke (ext_transfer token lp me amount);;
  publish (PremiumEvent lp amount).

(** The payout and its split: from the liquid balance first. *)
Definition claim_payout (coverage available : Z) : Z :=
  if coverage <? available then coverage else available.
Definition draw_liquid (payout balance : Z) : Z := if payout <? balance then payout else balance.

(** The writes and the transfer of a claim that pays [payout]. *)
Definition pay_claim (invoice_id : Z) (lp : Address) (payout balance backstop : Z) : IO unit :=
  let from_balance := draw_liquid payout balance in
  let from_backstop := sat_i128 (payout - from_balance) in
  new_balance ← unwrap (chk_i128 (balance - from_balance));
  put PoolKey.Balance new_balance;;
  (if 0 <? from_backstop then
     new_backstop ← unwrap (chk_i128 (backstop - from_backstop));
     put PoolKey.BackstopBalance new_backstop
   else mret tt);;
  put (PoolKey.Claimed invoice_id) true;;
  token ← get_token_client;
  me ← current_contract;
  invoke (ext_transfer token me lp payout);;
  publish (ClaimedEvent invoice_id payout).

Definition claim (invoice_id : Z) (lp : Address) : IO Z :=
  require_admin;;
  done ← is_claimed invoice_id;
  reject_if done PoolErr.AlreadyClaimed;;
  gate_solvency_circuit;;
  enforce_claim_review_gate invoice_id;;
  balance ← get_pool_balance;
  backstop ← get_backstop_balance;
  let available := sat_i128 (balance + backstop) in
  if 0 <? available then
    coverage ← get_tiered_coverage lp;
    let payout := claim_payout coverage available in
    pay_claim invoice_id lp payout balance backstop;;
    trip_circuit_if_breached;;
    mret payout
  else throw PoolErr.PoolEmpty.
End pool.
End Pool.
