(* ===== verification/InsuranceProps.v ===== *)
(** Properties of the default-protection pool of [Insurance.v]: its books are covered
    by the tokens it holds, an invoice is compensated once, what a claim pays, the
    timelock on sensitive parameters and the solvency circuit breaker. *)
From stdpp Require Import numbers list.
From S2P Require Import Prelude Host Insurance.
Import Pool.

(** * Runs *)
Inductive PoolCall :=
| PInitialize (admin : Address) (coverage : Z) (token : Address)
| PSetBaseRate (rate_bps : Z)
| PSetRisk (numerator denominator : Z)
| PSetReputationContract (contract : Address)
| PProposeRisk (numerator denominator : Z)
| PExecuteRisk
| PCancelRisk
| PIncrementDefault (lp : Address)
| PProposeCoverage (new_coverage : Z)
| PExecuteCoverage
| PCancelCoverage
| PProposeAdmin (new_admin : Address)
| PExecuteAdmin
| PCancelAdmin
| PSetCoverageNow (new_coverage : Z)
| PSetRateNow (rate_bps : Z)
| PSetBalanceCap (cap : Z)
| PSetMinReserve (bps : Z)
| PResetCircuit
| PSetBackstopBps (bps : Z)
| PTopUp (from : Address) (amount : Z)
| PEvidence (invoice_id : Z) (h : BytesN32)
| PSetReviewWindow (seconds : Z)
| PRecordPair (lp payer : Address)
| PEnroll (lp : Address)
| PDeposit (lp : Address) (amount : Z)
| PClaim (invoice_id : Z) (lp : Address).

(** The ranges the host's decoding guarantees; a claim needs none. *)
Definition pool_typed (c : PoolCall) : bool :=
  match c with
  | PInitialize _ n _ | PProposeCoverage n | PSetCoverageNow n | PSetBalanceCap n
  | PTopUp _ n | PDeposit _ n => in_i128 n
  | PSetRisk a b | PProposeRisk a b => in_i128 a && in_i128 b
  | PSetBaseRate n | PSetRateNow n | PSetMinReserve n | PSetBackstopBps n => in_u32 n
  | PSetReviewWindow n | PEvidence n _ => in_u64 n
  | _ => true
  end.

(** Entries of the books. *)
Definition money_key (k : DataKey) : bool :=
  match k with
  | PoolKey.Admin | PoolKey.TokenAddress | PoolKey.Balance | PoolKey.BackstopBalance
  | PoolKey.BackstopFundingBps => true
  | _ => false
  end.
Definition claim_key (k : DataKey) : bool := match k with PoolKey.Claimed _ => true | _ => false end.
(** The parameters behind the timelock, and the proposals to change them. *)
Definition sensitive_key (k : DataKey) : bool :=
  match k with
  | PoolKey.Admin | PoolKey.Coverage | PoolKey.RiskMultiplierNumerator
  | PoolKey.RiskMultiplierDenominator | PoolKey.PendingCoverage | PoolKey.CoverageEta
  | PoolKey.PendingAdmin | PoolKey.AdminEta | PoolKey.PendingRiskMultiplierNumerator
  | PoolKey.PendingRiskMultiplierDenominator | PoolKey.RiskMultiplierEta => true
  | _ => false
  end.
Definition circuit_key (k : DataKey) : bool :=
  match k with PoolKey.SolvencyCircuitOpenFlag => true | _ => false end.
Definition but (S : DataKey → bool) (k : DataKey) : bool := negb (S k).

Definition money_call (c : PoolCall) : bool :=
  match c with
  | PInitialize _ _ _ | PExecuteAdmin | PSetBackstopBps _ | PTopUp _ _ | PDeposit _ _
  | PClaim _ _ => true
  | _ => false
  end.
Definition claim_call (c : PoolCall) : bool := match c with PClaim _ _ => true | _ => false end.
Definition sensitive_call (c : PoolCall) : bool :=
  match c with
  | PInitialize _ _ _ | PSetRisk _ _ | PProposeRisk _ _ | PExecuteRisk | PCancelRisk
  | PProposeCoverage _ | PExecuteCoverage | PCancelCoverage | PProposeAdmin _ | PExecuteAdmin
  | PCancelAdmin | PSetCoverageNow _ => true
  | _ => false
  end.
Definition circuit_call (c : PoolCall) : bool :=
  match c with PResetCircuit | PClaim _ _ => true | _ => false end.

(** [open_pool]: the bodies of the calls, down to storage operations. *)
Ltac open_pool :=
  unfold Pool.initialize, set_base_premium_rate_bps, set_risk_multiplier,
    set_reputation_contract,
    propose_risk_multiplier, execute_risk_multiplier, cancel_risk_multiplier,
    increment_default_count, propose_coverage_change, execute_coverage_change,
    cancel_coverage_change, propose_admin_transfer, execute_admin_transfer,
    cancel_admin_transfer, set_coverage_via_governance, set_premium_rate_via_governance,
    set_balance_cap, set_min_reserve_ratio_bps, reset_solvency_circuit,
    set_backstop_funding_bps, top_up_backstop, submit_claim_evidence,
    set_review_window_seconds, record_pair_default, enroll, deposit_premium, claim, pay_claim,
    increment_default_count, mark_enrolled, book_backstop, trip_circuit_if_breached,
    gate_solvency_circuit, enforce_claim_review_gate, get_reserve_ratio_bps,
    get_total_reserve, get_tiered_coverage, get_premiums_paid, get_coverage,
    get_default_count, get_pool_balance, get_backstop_balance, get_backstop_funding_bps,
    get_review_window_seconds, get_min_reserve_ratio_bps, is_solvency_circuit_open,
    is_claimed, get_base_premium_rate_bps, get_risk_multiplier_numerator,
    get_risk_multiplier_denominator, get_token_client.

Ltac open_in H := revert H; open_pool; intros H.

Section pool_runs.
Context {X : Type} `{TokenInterface X}.
Abbreviation W := (world DataKey X PoolEvent).
Abbreviation IO := (M W InsuranceError).
Implicit Types w : W.

Lemma pool_admin_done a w w' :
  Pool.require_admin w = Done a w' ↔
    w' = w ∧ store w PoolKey.Admin = Some a ∧ auth (ctx w) a = true.
Proof.
  unfold Pool.require_admin. split.
  - intros Hx. by minv Hx; simplify_eq.
  - intros (-> & Ha & Hs). go. rewrite Ha. eapply (done_bind _ _ _ tt); [by apply require_auth_done |]. done.
Qed.
Lemma pool_keeps_admin (R : relation W) `{!PreOrder R} :
  keeps R (Pool.require_admin : IO Address).
Proof. by intros w a w' (-> & _)%pool_admin_done. Qed.

(** A call's result is the payout of a claim, and zero otherwise. *)
Definition quietly {A} (m : IO A) : IO Z := _ ← m; mret 0.

Definition pool_exec (c : PoolCall) : IO Z :=
  match c with
  | PInitialize a n t => quietly (initialize a n t)
  | PSetBaseRate n => quietly (set_base_premium_rate_bps n)
  | PSetRisk a b => quietly (set_risk_multiplier a b)
  | PSetReputationContract a => quietly (set_reputation_contract a)
  | PProposeRisk a b => quietly (propose_risk_multiplier a b)
  | PExecuteRisk => quietly execute_risk_multiplier
  | PCancelRisk => quietly cancel_risk_multiplier
  | PIncrementDefault lp => quietly (increment_default_count lp)
  | PProposeCoverage n => quietly (propose_coverage_change n)
  | PExecuteCoverage => quietly execute_coverage_change
  | PCancelCoverage => quietly cancel_coverage_change
  | PProposeAdmin a => quietly (propose_admin_transfer a)
  | PExecuteAdmin => quietly execute_admin_transfer
  | PCancelAdmin => quietly cancel_admin_transfer
  | PSetCoverageNow n => quietly (set_coverage_via_governance n)
  | PSetRateNow n => quietly (set_premium_rate_via_governance n)
  | PSetBalanceCap n => quietly (set_balance_cap n)
  | PSetMinReserve n => quietly (set_min_reserve_ratio_bps n)
  | PResetCircuit => quietly reset_solvency_circuit
  | PSetBackstopBps n => quietly (set_backstop_funding_bps n)
  | PTopUp a n => quietly (top_up_backstop a n)
  | PEvidence i h => quietly (submit_claim_evidence i h)
  | PSetReviewWindow n => quietly (set_review_window_seconds n)
  | PRecordPair l p => quietly (record_pair_default l p)
  | PEnroll lp => quietly (enroll lp)
  | PDeposit lp n => quietly (deposit_premium lp n)
  | PClaim i lp => claim i lp
  end.

Lemma quietly_done {A} (m : IO A) n w w' :
  quietly m w = Done n w' → n = 0 ∧ ∃ a, m w = Done a w'.
Proof. intros (a & w1 & Hm & [-> ->]%ret_done)%bind_done. eauto. Qed.

(** A call runs in a later ledger, in which the pool has not signed; the rest of the
    chain may do anything but take the pool's tokens. *)
Definition admissible (c : Ctx) (call : PoolCall) w : Prop :=
  auth c (self w) = false ∧ now (ctx w) ≤ now c ∧ now c + TIMELOCK_DELAY_SECONDS ≤ u64_max ∧
  pool_typed call = true.
Definition elsewhere w w' : Prop :=
  self w' = self w ∧ ctx w' = ctx w ∧ (∀ k, store w' k = store w k) ∧
  ∀ t, tok_balance (ext w) t (self w) ≤ tok_balance (ext w') t (self w).

(** A successful call with its context and result. *)
Definition entry : Type := Ctx * PoolCall * Z.
(** The history lists the successful calls, newest first. *)
Inductive pool_run w0 : list entry → W → Prop :=
| run_start : pool_run w0 [] w0
| run_call tr w c call n w' :
    pool_run w0 tr w → admissible c call w →
    pool_exec call (with_ctx c w) = Done n w' → pool_run w0 ((c, call, n) :: tr) w'
| run_elsewhere tr w w' : pool_run w0 tr w → elsewhere w w' → pool_run w0 tr w'.

(** ** Footprints *)
#[local] Hint Resolve pool_keeps_admin : keeps.
Lemma money_frame c : money_call c = false → keeps (inner (but money_key)) (pool_exec c).
Proof. intros Hc. destruct c; try done; simpl; unfold quietly; open_pool; frame. Qed.
Lemma claim_frame c : claim_call c = false → keeps (touches (but claim_key)) (pool_exec c).
Proof. intros Hc. destruct c; try done; simpl; unfold quietly; open_pool; frame. Qed.
Lemma sensitive_frame c :
  sensitive_call c = false → keeps (touches (but sensitive_key)) (pool_exec c).
Proof. intros Hc. destruct c; try done; simpl; unfold quietly; open_pool; frame. Qed.
Lemma circuit_frame c :
  circuit_call c = false → keeps (touches (but circuit_key)) (pool_exec c).
Proof. intros Hc. destruct c; try done; simpl; unfold quietly; open_pool; frame. Qed.
Lemma any_frame c : keeps (touches (λ _, true)) (pool_exec c).
Proof. destruct c; simpl; unfold quietly; open_pool; frame. Qed.
End pool_runs.
#[export] Hint Resolve pool_keeps_admin : keeps.

Ltac minv_ext H ::= apply pool_admin_done in H as (? & ? & ?).

(** * The books *)
Section books.
Context {X : Type} `{TokenLaws X}.
Abbreviation W := (world DataKey X PoolEvent).
Abbreviation IO := (M W InsuranceError).
Implicit Types w : W.

Definition liquid w : Z := default 0 (store w PoolKey.Balance).
Definition backstop w : Z := default 0 (store w PoolKey.BackstopBalance).
Definition funding_bps w : Z := default 0 (store w PoolKey.BackstopFundingBps).
Definition holds w (t : Address) : Z := tok_balance (ext w) t (self w).

Definition inflow (e : entry) : Z :=
  match e.1.2 with PTopUp _ n | PDeposit _ n => n | _ => 0 end.
Definition outflow (e : entry) : Z := match e.1.2 with PClaim _ _ => e.2 | _ => 0 end.
(** What the pool has taken in and paid out in a history. *)
Definition received (tr : list entry) : Z := zsum (inflow <$> tr).
Definition paid (tr : list entry) : Z := zsum (outflow <$> tr).

(** Both balances are non-negative, and what they book is held in the pool's token. *)
Definition books_ok w : Prop :=
  (is_Some (store w PoolKey.TokenAddress) → is_Some (store w PoolKey.Admin)) ∧
  0 ≤ liquid w ∧ 0 ≤ backstop w ∧ 0 ≤ funding_bps w ≤ 10000 ∧
  (∀ t, 0 ≤ holds w t) ∧
  match store w PoolKey.TokenAddress with
  | Some t => liquid w + backstop w ≤ holds w t
  | None => liquid w + backstop w = 0
  end.

Lemma share_range n bps :
  0 < n ≤ i128_max → 0 ≤ bps ≤ 10000 → 0 ≤ backstop_share n bps ≤ n.
Proof.
  intros Hn Hb. unfold backstop_share, sat. set (m := Z.max _ _).
  assert (0 ≤ m ≤ n * 10000) as Hm.
  { assert (0 ≤ n * bps ≤ n * 10000) by nia. assert (i128_min ≤ 0 ≤ i128_max) by done.
    unfold m. lia. }
  rewrite Z.quot_div_nonneg by lia. split; [apply Z.div_pos; lia |].
  apply Z.div_le_upper_bound; lia.
Qed.

(** A transfer into or out of the pool, seen in every token. *)
Lemma transfer_in t a me n x x' t' :
  ext_transfer t a me n x = Some (tt, x') → a ≠ me →
  tok_balance x' t' me = tok_balance x t' me + (if bool_decide (t' = t) then n else 0).
Proof.
  unfold ext_transfer. intros (y & Hy & [= <-])%bind_Some Hne.
  rewrite (transfer_balance _ _ _ _ _ _ t' me Hy).
  repeat case_bool_decide; destruct_and?; subst; try lia; tauto.
Qed.
Lemma transfer_out t a me n x x' t' :
  ext_transfer t me a n x = Some (tt, x') →
  0 ≤ n ∧ tok_balance x t' me - (if bool_decide (t' = t) then n else 0) ≤ tok_balance x' t' me.
Proof.
  unfold ext_transfer. intros (y & Hy & [= <-])%bind_Some.
  pose proof (transfer_covered _ _ _ _ _ _ Hy). split; [lia |].
  rewrite (transfer_balance _ _ _ _ _ _ t' me Hy). repeat case_bool_decide; try lia; naive_solver.
Qed.

(** What a call does to the books: [dl] and [db] are booked, and the pool's tokens
    change accordingly. *)
Definition books_move (dl db : Z) w w' : Prop :=
  self w' = self w ∧ ctx w' = ctx w ∧
  store w' PoolKey.Admin = store w PoolKey.Admin ∧
  store w' PoolKey.TokenAddress = store w PoolKey.TokenAddress ∧
  is_Some (store w PoolKey.TokenAddress) ∧
  funding_bps w' = funding_bps w ∧
  liquid w' = liquid w + dl ∧ backstop w' = backstop w + db ∧
  ∀ t, holds w t +
    (if bool_decide (store w PoolKey.TokenAddress = Some t) then dl + db else 0) ≤ holds w' t.

Lemma books_move_ok dl db w w' :
  books_ok w → books_move dl db w w' → 0 ≤ liquid w + dl → 0 ≤ backstop w + db → books_ok w'.
Proof.
  intros (Ha & Hl & Hb & Hf & Hh & Hc) (Hs & _ & Ea & Et & [t Hst] & Ef & El & Eb & Em) Hl' Hb'.
  unfold books_ok. rewrite Ea, Et, Ef, El, Eb.
  pose proof (Em t) as Emt. rewrite Hst in *. rewrite bool_decide_eq_true_2 in Emt by done.
  refine (conj Ha (conj Hl' (conj Hb' (conj Hf (conj _ _))))); [| lia].
  intros t'. specialize (Em t'). specialize (Hh t'). case_bool_decide; simplify_eq; lia.
Qed.

(** What the opened run of an operation leaves to show of its books. *)
Ltac books_tac :=
  unfold books_move, holds, liquid, backstop, funding_bps; simpl; sto;
  try rewrite !sat_id by lia; repeat match goal with |- _ ∧ _ => split end; try done; try (by eauto); try lia.

(** The token side: what entered from [a], or left. *)
Ltac token_read := repeat match goal with
  | E : context [st_set _ _ _ _] |- _ => progress sto_in E
  end.
Ltac drop_guards := repeat match goal with
  | E : in_i128 _ = true |- _ => clear E
  | E : match _ with _ => _ end = false |- _ => clear E
  end.
Ltac tokens_in Hne :=
  token_read;
  match goal with
  | P : ext_transfer _ _ _ _ _ = Some (?u, _) |- _ =>
      let t := fresh "t" in destruct u; intros t; pose proof (transfer_in _ _ _ _ _ _ t P Hne);
      simpl in *; repeat case_bool_decide; simplify_eq; try lia
  end.

Lemma top_up_moves a n w w' :
  top_up_backstop a n w = Done tt w' → auth (ctx w) (self w) = false →
  books_move 0 n w w' ∧ 0 < n.
Proof.
  intros Hx Hs. open_in Hx. minv Hx; bools. token_read.
  assert (a ≠ self w) as Hne by (intros ->; congruence). books_tac. tokens_in Hne.
Qed.

Lemma books_move_from dl db w w1 w' :
  inner (but money_key) w w1 → books_move dl db w1 w' → books_move dl db w w'.
Proof.
  intros [(Es & Ec & Ek) Ex]. unfold quiet in Ex.
  unfold books_move, holds, liquid, backstop, funding_bps. by rewrite Es, Ec, Ex, !Ek.
Qed.

Lemma books_move_to dl db w w1 w' :
  books_move dl db w w1 → inner (but money_key) w1 w' → books_move dl db w w'.
Proof.
  intros Hm [(Es & Ec & Ek) Ex]. unfold quiet in Ex. revert Hm.
  unfold books_move, holds, liquid, backstop, funding_bps. by rewrite Es, Ec, Ex, !Ek.
Qed.

(** Enrolling writes no money entry. *)
Lemma mark_enrolled_frame a : keeps (inner (but money_key)) (mark_enrolled a : IO unit).
Proof. unfold mark_enrolled. frame. Qed.

Lemma deposit_moves a n w w' :
  deposit_premium a n w = Done tt w' → auth (ctx w) (self w) = false → n ≤ i128_max → 0 ≤ funding_bps w ≤ 10000 →
  let db := backstop_share n (funding_bps w) in
  0 < n ∧ 0 ≤ db ≤ n ∧ books_move (n - db) db w w'.
Proof.
  intros Hx Hs Hn Hf db. unfold deposit_premium, book_backstop in Hx.
  apply bind_done in Hx as ([] & w1 & [Ha ->]%require_auth_done & Hx).
  assert (a ≠ self w) as Hne by (intros ->; congruence).
  apply bind_done in Hx as ([] & w1 & [Hp ->]%reject_if_done & Hx). bools.
  pose proof (share_range n (funding_bps w) ltac:(lia) Hf) as Hdb. fold db in Hdb.
  split; [done |]. split; [done |].
  apply bind_done in Hx as ([] & w1 & Hm & Hx).
  pose proof (mark_enrolled_frame _ _ _ _ Hm) as Hi. eapply books_move_from; [done |].
  destruct Hi as [(Es & _ & Ek) _]. rewrite <- Es in Hne.
  assert (funding_bps w1 = funding_bps w) as Ef by (unfold funding_bps; by rewrite Ek).
  unfold db in *. rewrite <- Ef in *. clear Ef Ek Es Hm Ha db. open_in Hx.
  assert (i128_min ≤ 0) by done.
  minv Hx; unfold funding_bps in *; bools; drop_guards; token_read; books_tac; tokens_in Hne.
Qed.

(** ** Claims *)
Definition claimed w (id : Z) : bool := default false (store w (PoolKey.Claimed id)).
Definition circuit_open w : bool := default false (store w PoolKey.SolvencyCircuitOpenFlag).
Definition coverage_for w (lp : Address) : Z :=
  tier_of (default 0 (store w (PoolKey.Premiums lp))) (default 0 (store w PoolKey.Coverage)).
Definition reserve_ratio w : Z :=
  ratio_of (sat_i128 (liquid w + backstop w)) (default 0 (store w PoolKey.Coverage)).
Definition min_ratio w : Z := default 0 (store w PoolKey.MinReserveRatioBps).
(** The reserve ratio is below the configured floor; a floor of zero is no floor. *)
Definition breached w : bool := negb (min_ratio w =? 0) && (reserve_ratio w <? min_ratio w).
(** The review gate lets invoice [id] through. *)
Definition reviewed w (id : Z) : Prop :=
  let window := default 0 (store w PoolKey.ReviewWindowSeconds) in
  window = 0 ∨ ∃ e, store w (PoolKey.EvidenceOf id) = Some e ∧
    Z.min u64_max (ce_submitted_at e + window) ≤ now (ctx w).

Lemma trip_spec w w' :
  trip_circuit_if_breached w = Done tt w' →
  inner circuit_key w w' ∧ circuit_open w' = circuit_open w || breached w.
Proof.
  intros Hx. open_in Hx. unfold breached, min_ratio, reserve_ratio, liquid, backstop, circuit_open.
  minv Hx; rewrite ?Z.ltb_antisym;
    repeat match goal with E : _ = ?b :> bool |- _ => rewrite E; clear E end; simpl.
  1-3: by rewrite ?orb_false_r.
  sto. split; [| done]. split; [by apply (touches_st_set circuit_key) | done].
Qed.

(** A successful claim on every point: the gates it passed, what it paid and from which
    balance, and what it left. *)
Record claim_outcome (id : Z) (lp : Address) (n : Z) w w' : Prop := {
  co_admin : ∃ a, store w PoolKey.Admin = Some a ∧ auth (ctx w) a = true;
  co_first : claimed w id = false;
  co_closed : circuit_open w = false;
  co_reviewed : reviewed w id;
  co_funds : 0 < liquid w + backstop w;
  co_payout : n = Z.min (coverage_for w lp) (sat_i128 (liquid w + backstop w));
  co_nonneg : 0 ≤ n;
  co_books : let dl := Z.min n (liquid w) in books_move (- dl) (- (n - dl)) w w';
  co_marked : ∀ j, claimed w' j = bool_decide (j = id) || claimed w j;
  co_breaker : circuit_open w' = breached w'
}.

Lemma gate_spec id w w' : enforce_claim_review_gate id w = Done tt w' → w' = w ∧ reviewed w id.
Proof.
  intros Hx. open_in Hx. unfold reviewed. minv Hx; bools; split; try done; [by left | right].
  eexists. split; [done |]. unfold checked, in_u64 in *. repeat case_match; simpl in *; bools; lia.
Qed.

(** The gates of a claim, and the world it leaves by paying. *)
Lemma claim_gates id lp n w w' :
  claim id lp w = Done n w' →
  (∃ a, store w PoolKey.Admin = Some a ∧ auth (ctx w) a = true) ∧ claimed w id = false ∧
  circuit_open w = false ∧ reviewed w id ∧
  let av := sat_i128 (liquid w + backstop w) in
  0 < av ∧ n = claim_payout (coverage_for w lp) av ∧
  ∃ w1, pay_claim id lp n (liquid w) (backstop w) w = Done tt w1 ∧
        trip_circuit_if_breached w1 = Done tt w'.
Proof.
  intros Hx. unfold claim, is_claimed, get_pool_balance, get_backstop_balance,
    gate_solvency_circuit, is_solvency_circuit_open, get_tiered_coverage, get_premiums_paid,
    get_coverage in Hx.
  minv Hx; bools. apply gate_spec in Hm as [-> Hr]. unfold liquid, backstop, coverage_for.
  eauto 20.
Qed.

(** The entries a payment writes. *)
Definition paying_key (k : DataKey) : bool :=
  match k with PoolKey.Balance | PoolKey.BackstopBalance | PoolKey.Claimed _ => true | _ => false end.

Lemma pay_moves id lp n w w' :
  0 ≤ liquid w → 0 ≤ backstop w → n ≤ liquid w + backstop w → n ≤ i128_max →
  pay_claim id lp n (liquid w) (backstop w) w = Done tt w' →
  0 ≤ n ∧ books_move (- Z.min n (liquid w)) (- (n - Z.min n (liquid w))) w w' ∧
  touches paying_key w w' ∧ ∀ j, claimed w' j = bool_decide (j = id) || claimed w j.
Proof.
  intros Hl Hb Hn Hn' Hx.
  assert (keeps (touches paying_key)
            (pay_claim id lp n (liquid w) (backstop w) : IO unit)) as K
    by (unfold pay_claim, get_token_client; frame).
  specialize (K _ _ _ Hx). unfold pay_claim in Hx. cbv zeta in Hx.
  assert (draw_liquid n (liquid w) = Z.min n (liquid w)) as Ed
    by (unfold draw_liquid; destruct (Z.ltb_spec n (liquid w)); lia).
  rewrite Ed in Hx. assert (i128_min ≤ 0 ≤ i128_max) by done.
  rewrite (sat_id _ _ (n - _)) in Hx by lia. clear Ed. revert Hx K.
  assert (Z.min n (liquid w) ≤ liquid w ∧ 0 ≤ n - Z.min n (liquid w) ≤ backstop w) as Hd by lia.
  revert Hd. generalize (Z.min n (liquid w)) as dl. intros dl Hd Hx K.
  unfold get_token_client in Hx. minv Hx; bools; drop_guards; token_read.
  all: match goal with P : ext_transfer _ _ _ _ _ = _ |- _ =>
         pose proof (λ t, transfer_out _ _ _ _ _ _ t P) as Ht end.
  all: split; [apply (Ht 0%N) |]; split; [| split; [exact K |]].
  1,3: books_tac; intros t; destruct (Ht t); repeat case_bool_decide; simplify_eq; lia.
  all: intros j; unfold claimed; simpl; case_bool_decide; subst; by sto.
Qed.

Lemma claim_spec id lp n w w' :
  0 ≤ liquid w → 0 ≤ backstop w →
  claim id lp w = Done n w' → claim_outcome id lp n w w'.
Proof.
  intros Hl Hb Hx. apply claim_gates in Hx as (Ha & Hc & Ho & Hr & Hav & En & w1 & Hp & Ht).
  assert (i128_min ≤ 0) by done.
  pose proof (sat_range i128_min i128_max (liquid w + backstop w) ltac:(done)) as Hsr.
  assert (sat_i128 (liquid w + backstop w) ≤ liquid w + backstop w) as Hle by (unfold sat; lia).
  remember (sat_i128 (liquid w + backstop w)) as av eqn:Eav.
  assert (n = Z.min (coverage_for w lp) av) as En' by (subst n; unfold claim_payout;
    destruct (Z.ltb_spec (coverage_for w lp) av); lia).
  apply pay_moves in Hp as (Hn & Hm & (Es & Ec & Ek) & Hcl); [| lia..].
  apply trip_spec in Ht as [Hi Hb']. pose proof Hi as [(_ & _ & Ek') _].
  assert (circuit_open w1 = false) as Ho1 by (unfold circuit_open in *; by rewrite Ek).
  split; try done; try lia.
  - eapply books_move_to; [exact Hm |]. destruct Hi as [Hi1 Hi2]. split; [| done].
    eapply touches_mono; [done | by intros []].
  - intros j. rewrite <- Hcl. unfold claimed. by rewrite Ek'.
  - rewrite Hb', Ho1. unfold breached, reserve_ratio, min_ratio, liquid, backstop.
    by rewrite !Ek'.
Qed.

(** ** The books over time *)
Definition total w : Z := liquid w + backstop w.

(** [books_step]: the books stay in order and change by what came in and went out. *)
Definition books_step (dn : Z) w w' : Prop := books_ok w' ∧ total w' = total w + dn.

Lemma books_unmoved w w' : books_ok w → inner (but money_key) w w' → books_step 0 w w'.
Proof.
  intros Hb [(Es & _ & Ek) Ex]. unfold quiet in Ex. unfold books_step, books_ok, total in *.
  unfold liquid, backstop, funding_bps, holds in *. rewrite Es, Ex, !Ek by done.
  split; [done | lia].
Qed.

Lemma books_moved dl db w w' :
  books_ok w → books_move dl db w w' → 0 ≤ liquid w + dl → 0 ≤ backstop w + db →
  books_step (dl + db) w w'.
Proof.
  intros Hb Hm Hl Hd. split; [by eapply books_move_ok |].
  destruct Hm as (_ & _ & _ & _ & _ & _ & El & Eb & _). unfold total. lia.
Qed.

Lemma books_initialize a n t w w' :
  books_ok w → initialize a n t w = Done tt w' → books_step 0 w w'.
Proof.
  intros (Ha & Hl & Hb & Hf & Hh & Hc) Hx. open_in Hx. minv Hx; bools.
  assert (store w PoolKey.TokenAddress = None) as Et.
  { destruct (store w PoolKey.TokenAddress); naive_solver. }
  rewrite Et in Hc. simpl in Hc. unfold books_step, books_ok, total, liquid, backstop, funding_bps, holds in *.
  pose proof (Hh t). simpl in *. sto. split; [| lia]. split_and!; eauto; lia.
Qed.

Lemma books_execute_admin w w' :
  books_ok w → execute_admin_transfer w = Done tt w' → books_step 0 w w'.
Proof.
  intros (Ha & Hl & Hb & Hf & Hh & Hc) Hx. open_in Hx. minv Hx; bools.
  unfold books_step, books_ok, total, liquid, backstop, funding_bps, holds in *. simpl in *. sto.
  split; [| lia]. split_and!; eauto; lia.
Qed.

Lemma books_set_bps n w w' :
  0 ≤ n → books_ok w → set_backstop_funding_bps n w = Done tt w' → books_step 0 w w'.
Proof.
  intros Hn (Ha & Hl & Hb & Hf & Hh & Hc) Hx. open_in Hx. minv Hx; bools.
  unfold books_step, books_ok, total, liquid, backstop, funding_bps, holds in *. simpl in *. sto.
  split; [| lia]. split_and!; eauto; lia.
Qed.

Lemma books_call c call n w w' :
  books_ok w → admissible c call w → pool_exec call (with_ctx c w) = Done n w' →
  books_step (inflow (c, call, n) - outflow (c, call, n)) w w'.
Proof.
  intros Hb (Hs & _ & _ & Hty) Hx. change (books_ok (with_ctx c w)) in Hb.
  change (books_step (inflow (c, call, n) - outflow (c, call, n)) (with_ctx c w) w').
  change (auth (ctx (with_ctx c w)) (self (with_ctx c w)) = false) in Hs.
  revert Hb Hs Hx. generalize (with_ctx c w) as w1. clear w. intros w Hb Hs Hx.
  destruct (money_call call) eqn:Hk.
  2: { pose proof (books_unmoved _ _ Hb (money_frame _ Hk _ _ _ Hx)) as Hu.
       by destruct call. }
  destruct call; try done; simpl in Hx; try apply quietly_done in Hx as (-> & [] & Hx);
    unfold inflow, outflow; simpl in *; rewrite ?Z.sub_0_r.
  - by eapply books_initialize.
  - by eapply books_execute_admin.
  - eapply books_set_bps; [| done..]. unfold in_u32 in Hty. bools. lia.
  - apply top_up_moves in Hx as [Hm Hn]; [| done]. pose proof Hb as (_ & ? & ? & _).
    apply (books_moved 0); [done.. | lia | lia].
  - unfold in_i128 in Hty. bools. pose proof Hb as (_ & ? & ? & ? & _).
    apply deposit_moves in Hx as (Hn & Hd & Hm); [| done..].
    pose proof (books_moved _ _ _ _ Hb Hm ltac:(lia) ltac:(lia)) as Hr.
    by rewrite Z.sub_add in Hr.
  - pose proof Hb as (_ & ? & ? & _). apply claim_spec in Hx as []; [| done..].
    pose proof (sat_range i128_min i128_max (liquid w + backstop w) ltac:(done)).
    assert (sat_i128 (liquid w + backstop w) ≤ liquid w + backstop w).
    { assert (i128_min ≤ 0) by done. unfold sat. lia. }
    pose proof (books_moved _ _ _ _ Hb co_books0 ltac:(lia) ltac:(lia)) as [Hr1 Hr2].
    split; [done | lia].
Qed.

Lemma received_cons e tr : received (e :: tr) = inflow e + received tr.
Proof. done. Qed.
Lemma paid_cons e tr : paid (e :: tr) = outflow e + paid tr.
Proof. done. Qed.

(** A pool about to be deployed: an empty store at an address holding what it may. *)
Definition fresh w : Prop := (∀ k, store w k = None) ∧ ∀ t, 0 ≤ holds w t.

Lemma fresh_books w : fresh w → books_ok w ∧ total w = 0.
Proof.
  intros [Hk Hh]. unfold books_ok, total, liquid, backstop, funding_bps. rewrite !Hk. simpl.
  by split_and!.
Qed.

Lemma run_books w0 tr w :
  fresh w0 → pool_run w0 tr w → books_ok w ∧ total w = received tr - paid tr.
Proof.
  intros Hf. induction 1 as [|tr w c call n w' _ [IH IHt] Ha Hx | tr w w' _ [IH IHt] He].
  - destruct (fresh_books _ Hf) as [? Ht]. by rewrite Ht.
  - destruct (books_call _ _ _ _ _ IH Ha Hx) as [? Ht].
    rewrite received_cons, paid_cons. split; [done | lia].
  - destruct He as (Es & _ & Ek & Eh). destruct IH as (Ht & Hl & Hb & Hf' & Hh & Hc).
    unfold books_ok, total, liquid, backstop, funding_bps, holds in *. rewrite !Es, !Ek.
    refine (conj (conj Ht (conj Hl (conj Hb (conj Hf' (conj _ _))))) IHt).
    + intros t. specialize (Hh t). specialize (Eh t). lia.
    + destruct (store w PoolKey.TokenAddress) as [t|]; [| done]. specialize (Eh t). simpl in *. lia.
Qed.

(** C31: The pool is solvent after every interleaving of calls with the rest of the
    chain, from its deployment on: neither balance is negative, the two book exactly what
    was received less what was paid, so claims never exceed deposits (invariants S1 and
    S2), and the pool holds at least that much of its token. *)
Theorem pool_solvent w0 tr w :
  fresh w0 → pool_run w0 tr w →
  0 ≤ liquid w ∧ 0 ≤ backstop w ∧
  liquid w + backstop w = received tr - paid tr ∧ paid tr ≤ received tr ∧
  ∀ t, store w PoolKey.TokenAddress = Some t → liquid w + backstop w ≤ holds w t.
Proof.
  intros Hf Hr. destruct (run_books _ _ _ Hf Hr) as [(_ & Hl & Hb & _ & _ & Hc) Ht].
  unfold total in Ht. refine (conj Hl (conj Hb (conj Ht (conj _ _)))); [lia |].
  intros t Et. by rewrite Et in Hc.
Qed.

(** ** One compensation per invoice *)
Definition claim_ids (tr : list entry) : list Z :=
  omap (λ e : entry, match e.1.2 with PClaim id _ => Some id | _ => None end) tr.

Lemma pool_run_claimed w0 tr w :
  fresh w0 → pool_run w0 tr w →
  NoDup (claim_ids tr) ∧ ∀ id, claimed w id = bool_decide (id ∈ claim_ids tr).
Proof.
  intros Hf Hr.
  induction Hr as [|tr w c call n w' Hr [IHd IHc] Ha Hx | tr w w' Hr [IHd IHc] He].
  - split; [constructor |]. intros id. unfold claimed. by rewrite (proj1 Hf).
  - destruct (run_books _ _ _ Hf Hr) as [(_ & Hl & Hb & _) _].
    destruct (claim_call call) eqn:Hk.
    + destruct call as [| | | | | | | | | | | | | | | | | | | | | | | | | |id lp]; try done.
      apply (claim_spec id lp n (with_ctx c w) w' Hl Hb) in Hx as [].
      change (claimed (with_ctx c w)) with (claimed w) in *. rewrite IHc in co_first0.
      bools. unfold claim_ids in *. csimpl. split; [by constructor |].
      intros j. rewrite co_marked0, IHc.
      repeat case_bool_decide; set_solver.
    + destruct (claim_frame _ Hk _ _ _ Hx) as (_ & _ & Ek).
      assert (claim_ids ((c, call, n) :: tr) = claim_ids tr) as -> by (by destruct call).
      split; [done |]. intros id. rewrite <- IHc. unfold claimed. by rewrite Ek.
  - destruct He as (_ & _ & Ek & _). split; [done |]. intros id. rewrite <- IHc.
    unfold claimed. by rewrite Ek.
Qed.

(** ** The solvency circuit breaker *)
Definition is_reset (e : entry) : bool := match e.1.2 with PResetCircuit => true | _ => false end.

Lemma open_call c call n w w' :
  circuit_open w = true → is_reset (c, call, n) = false →
  pool_exec call (with_ctx c w) = Done n w' →
  circuit_open w' = true ∧ claim_call call = false.
Proof.
  intros Ho Hn Hx. destruct (circuit_call call) eqn:Hk.
  - destruct call; try done. apply claim_gates in Hx as (_ & _ & Hc & _).
    unfold circuit_open in *. simpl in *. congruence.
  - destruct (circuit_frame _ Hk _ _ _ Hx) as (_ & _ & Ek).
    split; [unfold circuit_open in *; by rewrite Ek | by destruct call].
Qed.

Lemma open_run w tr w' :
  pool_run w tr w' → circuit_open w = true → Forall (λ e, is_reset e = false) tr →
  circuit_open w' = true ∧ claim_ids tr = [].
Proof.
  intros Hr Ho. induction Hr as [|tr w1 c call n w' _ IH _ Hx | tr w1 w' _ IH He]; intros Hf.
  - done.
  - inversion_clear Hf as [|?? He Hf']. destruct (IH Hf') as [Ho1 Hi].
    destruct (open_call _ _ _ _ _ Ho1 He Hx) as [Ho' Hk]. split; [done |].
    by destruct call.
  - destruct (IH Hf) as [Ho1 Hi]. split; [| done]. destruct He as (_ & _ & Ek & _).
    unfold circuit_open in *. by rewrite Ek.
Qed.

(** C33: The solvency breaker holds.  When a claim leaves the reserve ratio below the
    configured floor, the breaker is open, and no invoice is compensated in any
    continuation until the admin resets it, however the pool is refilled or
    reconfigured in between. *)
Theorem breaker_stops_claims c id lp n w w1 tr w' :
  0 ≤ liquid w → 0 ≤ backstop w →
  claim id lp (with_ctx c w) = Done n w1 → breached w1 = true →
  pool_run w1 tr w' → Forall (λ e, is_reset e = false) tr →
  circuit_open w' = true ∧ claim_ids tr = [].
Proof.
  intros Hl Hb Hx Hbr Hr Hf. apply (claim_spec id lp n (with_ctx c w) w1 Hl Hb) in Hx.
  apply (open_run _ _ _ Hr); [| done]. by rewrite (co_breaker _ _ _ _ _ Hx).
Qed.

(** ** The verdict on a claim *)

(** Why the review gate holds a claim back. *)
Definition review_verdict (id : Z) w : option InsuranceError :=
  let window := default 0 (store w PoolKey.ReviewWindowSeconds) in
  if window =? 0 then None
  else match store w (PoolKey.EvidenceOf id) with
       | None => Some PoolErr.EvidenceRequired
       | Some e =>
           if now (ctx w) <? Z.min u64_max (ce_submitted_at e + window)
           then Some PoolErr.ReviewWindowNotElapsed else None
       end.

(** Why a claim the admin signed is refused, in the order of the checks; [None] lets it
    pay. *)
Definition claim_verdict (id : Z) w : option InsuranceError :=
  if claimed w id then Some PoolErr.AlreadyClaimed
  else if circuit_open w then Some PoolErr.SolvencyCircuitOpen
  else match review_verdict id w with
       | Some e => Some e
       | None => if liquid w + backstop w <=? 0 then Some PoolErr.PoolEmpty else None
       end.

(** What the ledger guarantees of the stored balances. *)
Definition in_range w : Prop :=
  0 ≤ liquid w ≤ i128_max ∧ 0 ≤ backstop w ≤ i128_max ∧
  ∀ id e, store w (PoolKey.EvidenceOf id) = Some e → 0 ≤ ce_submitted_at e.

Lemma gate_verdict id w :
  0 ≤ default 0 (store w PoolKey.ReviewWindowSeconds) → in_range w →
  enforce_claim_review_gate id w =
    match review_verdict id w with Some e => Fault (Code e) | None => Done tt w end.
Proof.
  intros Hw (_ & _ & He). unfold enforce_claim_review_gate, get_review_window_seconds.
  unfold review_verdict, mbind, M_bind, get_or, get, timestamp, reads.
  destruct (_ =? 0) eqn:E0; [done |].
  destruct (store w (PoolKey.EvidenceOf id)) as [e|] eqn:Ee; [| done]. simpl.
  pose proof (He _ _ Ee).
  replace (default u64_max (chk_u64 (ce_submitted_at e + default 0 (store w PoolKey.ReviewWindowSeconds))))
    with (Z.min u64_max (ce_submitted_at e + default 0 (store w PoolKey.ReviewWindowSeconds))).
  - by destruct (_ <? _).
  - unfold checked, in_u64. destruct (_ && _) eqn:E; simpl; bools; [lia |].
    apply andb_false_iff in E as [E|E]; bools; lia.
Qed.

Lemma pool_bind {A B} (m : IO A) (k : A → IO B) w a w1 :
  m w = Done a w1 → (m ≫= k) w = k a w1.
Proof. intros Hm. unfold mbind, M_bind. by rewrite Hm. Qed.
Lemma pool_bind_fault {A B} (m : IO A) (k : A → IO B) w f :
  m w = Fault f → (m ≫= k) w = Fault f.
Proof. intros Hm. unfold mbind, M_bind. by rewrite Hm. Qed.

Lemma claim_by_verdict id lp a w :
  in_range w → 0 ≤ default 0 (store w PoolKey.ReviewWindowSeconds) →
  store w PoolKey.Admin = Some a → auth (ctx w) a = true →
  let n := claim_payout (coverage_for w lp) (sat_i128 (liquid w + backstop w)) in
  claim id lp w =
    match claim_verdict id w with
    | Some e => Fault (Code e)
    | None => (pay_claim id lp n (liquid w) (backstop w);;
               trip_circuit_if_breached;; mret n) w
    end.
Proof.
  intros Hr Hw Ha Hs n. unfold claim, claim_verdict, claimed, circuit_open.
  rewrite (pool_bind _ _ _ _ _ (proj2 (pool_admin_done a w w) (conj eq_refl (conj Ha Hs)))).
  erewrite (pool_bind _ _ w (default false (store w (PoolKey.Claimed id)))); [| reflexivity].
  destruct (default false (store w (PoolKey.Claimed id))); [done |].
  erewrite (pool_bind _ _ w tt); [| reflexivity].
  destruct (default false (store w PoolKey.SolvencyCircuitOpenFlag)) eqn:Eo.
  { apply pool_bind_fault. unfold gate_solvency_circuit, is_solvency_circuit_open.
    erewrite (pool_bind _ _ w true); [done |]. exact (f_equal (λ b : bool, Done b w) Eo). }
  erewrite (pool_bind _ _ w tt).
  2: { unfold gate_solvency_circuit, is_solvency_circuit_open.
       erewrite (pool_bind _ _ w false); [done |]. exact (f_equal (λ b : bool, Done b w) Eo). }
  destruct (review_verdict id w) as [e|] eqn:Ev.
  { apply pool_bind_fault. by rewrite gate_verdict, Ev. }
  erewrite (pool_bind _ _ w tt); [| by rewrite gate_verdict, Ev].
  erewrite (pool_bind _ _ w (liquid w)), (pool_bind _ _ w (backstop w)); [| reflexivity..].
  cbv zeta. destruct Hr as (Hl & Hb & _). assert (i128_min ≤ 0 < i128_max) by done.
  destruct (Z.leb_spec (liquid w + backstop w) 0), (Z.ltb_spec 0 (sat_i128 (liquid w + backstop w)));
    try (unfold sat in *; lia); [done |].
  by erewrite (pool_bind _ _ w (coverage_for w lp)); [| reflexivity].
Qed.

Lemma claim_payout_min a b : claim_payout a b = Z.min a b.
Proof. unfold claim_payout. destruct (Z.ltb_spec a b); lia. Qed.
Lemma draw_liquid_min a b : draw_liquid a b = Z.min a b.
Proof. unfold draw_liquid. destruct (Z.ltb_spec a b); lia. Qed.

Lemma chk_i128_pass z : 0 ≤ z ≤ i128_max → chk_i128 z = Some z.
Proof.
  intros Hz. unfold checked. assert (i128_min ≤ 0) by done.
  by rewrite (proj2 (in_i128_spec z)) by lia.
Qed.

Lemma pay_claim_total id lp n t x w :
  in_range w → 0 ≤ n ≤ i128_max → n ≤ liquid w + backstop w →
  store w PoolKey.TokenAddress = Some t → tok_transfer (ext w) t (self w) lp n = Some x →
  ∃ w1, pay_claim id lp n (liquid w) (backstop w) w = Done tt w1.
Proof.
  intros (Hl & Hb & _) Hn Hle Ht Hx. unfold pay_claim. rewrite draw_liquid_min.
  assert (i128_min ≤ 0) by done. rewrite (sat_id _ _ (n - _)) by lia.
  rewrite !chk_i128_pass by lia. cbv zeta.
  assert (ext_transfer t (self w) lp n (ext w) = Some (tt, x)) as Hx' by (unfold ext_transfer; by rewrite Hx).
  destruct (0 <? n - Z.min n (liquid w)); eexists.
  all: do 4 go; unfold get_token_client; go_by ltac:(go; simpl; sto; by rewrite Ht);
    go; go_by ltac:(unfold invoke; simpl; by rewrite Hx'); done.
Qed.

Lemma trip_total w : ∃ w', trip_circuit_if_breached w = Done tt w'.
Proof.
  unfold trip_circuit_if_breached, mbind, M_bind. simpl. repeat case_match; simplify_eq; eauto.
Qed.

(** C32: A claim signed by the admin is decided by the stored state: it is refused with
    the error of the first check that fails, or else, when the token lets the pool pay,
    it succeeds with the LP's tiered coverage, capped by the reserve. *)
Theorem claim_decided id lp a t w :
  in_range w → 0 ≤ default 0 (store w PoolKey.ReviewWindowSeconds) →
  store w PoolKey.Admin = Some a → auth (ctx w) a = true →
  store w PoolKey.TokenAddress = Some t →
  let n := Z.min (coverage_for w lp) (sat_i128 (liquid w + backstop w)) in
  is_Some (tok_transfer (ext w) t (self w) lp n) →
  match claim_verdict id w with
  | Some e => claim id lp w = Fault (Code e)
  | None => ∃ w', claim id lp w = Done n w' ∧ claim_outcome id lp n w w'
  end.
Proof.
  intros Hr Hw Ha Hs Ht n [x Hx]. rewrite (claim_by_verdict _ _ _ _ Hr Hw Ha Hs).
  rewrite claim_payout_min. fold n. pose proof Hr as (Hl & Hb & _).
  destruct (claim_verdict id w) as [e|] eqn:Hv; [done |].
  pose proof (transfer_covered _ _ _ _ _ _ Hx) as [Hn _].
  assert (n ≤ i128_max ∧ n ≤ liquid w + backstop w) as [Hn1 Hn2].
  { unfold n. assert (i128_min ≤ 0) by done. pose proof (sat_range i128_min i128_max (liquid w + backstop w) ltac:(done)).
    assert (sat_i128 (liquid w + backstop w) ≤ liquid w + backstop w) by (unfold sat; lia). lia. }
  destruct (pay_claim_total id lp n t x w Hr ltac:(lia) Hn2 Ht Hx) as [w1 H1].
  destruct (trip_total w1) as [w2 H2]. exists w2.
  assert (claim id lp w = Done n w2) as Hc.
  { rewrite (claim_by_verdict _ _ _ _ Hr Hw Ha Hs), Hv, claim_payout_min. fold n.
    rewrite (pool_bind _ _ _ _ _ H1). by rewrite (pool_bind _ _ _ _ _ H2). }
  split; [| apply claim_spec; [lia | lia | done]].
  rewrite (pool_bind _ _ _ _ _ H1). by rewrite (pool_bind _ _ _ _ _ H2).
Qed.
End books.

(** * The timelock *)
Section timelock.
Context {X : Type} `{TokenInterface X}.
Abbreviation W := (world DataKey X PoolEvent).
Abbreviation IO := (M W InsuranceError).
Implicit Types w : W.

(** Proposal [p] is pending with the execution time [eta]. *)
Definition pending (p : PoolCall) (eta : Z) w : Prop :=
  match p with
  | PProposeCoverage v => store w PoolKey.PendingCoverage = Some v ∧ store w PoolKey.CoverageEta = Some eta
  | PProposeAdmin a => store w PoolKey.PendingAdmin = Some a ∧ store w PoolKey.AdminEta = Some eta
  | PProposeRisk a b =>
      store w PoolKey.PendingRiskMultiplierNumerator = Some a ∧
      store w PoolKey.PendingRiskMultiplierDenominator = Some b ∧
      store w PoolKey.RiskMultiplierEta = Some eta
  | _ => False
  end.
(** The parameters proposal [p] asks for are in force. *)
Definition in_force (p : PoolCall) w : Prop :=
  match p with
  | PProposeCoverage v => store w PoolKey.Coverage = Some v
  | PProposeAdmin a => store w PoolKey.Admin = Some a
  | PProposeRisk a b =>
      store w PoolKey.RiskMultiplierNumerator = Some a ∧
      store w PoolKey.RiskMultiplierDenominator = Some b
  | _ => False
  end.
Definition execution_of (p : PoolCall) : option PoolCall :=
  match p with
  | PProposeCoverage _ => Some PExecuteCoverage
  | PProposeAdmin _ => Some PExecuteAdmin
  | PProposeRisk _ _ => Some PExecuteRisk
  | _ => None
  end.
Definition parameter_key (k : DataKey) : bool :=
  match k with
  | PoolKey.Admin | PoolKey.Coverage | PoolKey.RiskMultiplierNumerator
  | PoolKey.RiskMultiplierDenominator => true
  | _ => false
  end.
(** The calls that set a parameter at once: deployment and the admin's direct setters. *)
Definition direct_call (c : PoolCall) : bool :=
  match c with PInitialize _ _ _ | PSetRisk _ _ | PSetCoverageNow _ => true | _ => false end.
Definition executing (c : PoolCall) : bool :=
  match c with PExecuteCoverage | PExecuteAdmin | PExecuteRisk => true | _ => false end.

Lemma parameter_frame c :
  direct_call c = false → executing c = false → keeps (touches (but parameter_key)) (pool_exec c).
Proof.
  intros Hd He. destruct c; try done; simpl; unfold quietly; open_pool; frame.
Qed.

(** Executing installs exactly the pending values, once their time has come. *)
Lemma executing_spec c n w w' :
  executing c = true → pool_exec c w = Done n w' →
  ∃ p eta, execution_of p = Some c ∧ pending p eta w ∧ eta ≤ now (ctx w) ∧ in_force p w'.
Proof.
  intros Hc Hx. destruct c; try done; simpl in Hx; apply quietly_done in Hx as (_ & [] & Hx);
    open_in Hx; minv Hx; bools.
  - eexists (PProposeRisk _ _), _. simpl. sto. by eauto 10.
  - eexists (PProposeCoverage _), _. simpl. sto. by eauto 10.
  - eexists (PProposeAdmin _), _. simpl. sto. by eauto 10.
Qed.

(** A proposal becomes pending by being made, three days ahead. *)
Lemma pending_step c call n w w' p eta :
  admissible c call w → pool_exec call (with_ctx c w) = Done n w' → pending p eta w' →
  pending p eta w ∨ call = p ∧ now c + TIMELOCK_DELAY_SECONDS ≤ eta.
Proof.
  intros (_ & _ & Hc & _) Hx Hp. destruct (sensitive_call call) eqn:Hs.
  2: { left. destruct (sensitive_frame _ Hs _ _ _ Hx) as (_ & _ & Ek). revert Hp.
       destruct p; simpl; rewrite ?Ek by done; done. }
  assert (∀ z, z ≤ u64_max → z ≤ sat_u64 z) as Hsat by (unfold sat; lia).
  specialize (Hsat _ Hc).
  destruct call; try done; simpl in Hx; apply quietly_done in Hx as (_ & u & Hx);
    open_in Hx; minv Hx; bools; destruct p; simpl in Hp; try done; revert Hp; sto;
    intros Hp; destruct_and?; simplify_eq; eauto.
Qed.

Lemma pending_history w0 tr w :
  (∀ k, store w0 k = None) → pool_run w0 tr w →
  ∀ p eta, pending p eta w →
    ∃ c n, (c, p, n) ∈ tr ∧ now c + TIMELOCK_DELAY_SECONDS ≤ eta.
Proof.
  intros H0. induction 1 as [|tr w c call n w' Hr IH Ha Hx | tr w w' Hr IH He]; intros p eta Hp.
  - destruct p; simpl in Hp; rewrite ?H0 in Hp; naive_solver.
  - destruct (pending_step _ _ _ _ _ _ _ Ha Hx Hp) as [Hp' | [-> Hle]].
    + destruct (IH _ _ Hp') as (c0 & n0 & Hin & ?). exists c0, n0. split; [by right | done].
    + exists c, n. split; [by left | done].
  - apply IH. destruct He as (_ & _ & Ek & _). destruct p; simpl in *; by rewrite <- ?Ek.
Qed.

(** C34: Sensitive parameters change behind a timelock.  In every history of a pool from
    its deployment on, a call that is not a direct admin setter leaves the admin, the
    coverage and the risk multiplier as they are, or executes a proposal that was made at
    least three days earlier, installing exactly the values it proposed. *)
Theorem timelock_respected w0 tr w c call n w' :
  (∀ k, store w0 k = None) → pool_run w0 tr w → admissible c call w →
  pool_exec call (with_ctx c w) = Done n w' → direct_call call = false →
  (∀ k, parameter_key k = true → store w' k = store w k) ∨
  ∃ p c0 n0, execution_of p = Some call ∧ (c0, p, n0) ∈ tr ∧
    now c0 + TIMELOCK_DELAY_SECONDS ≤ now c ∧ in_force p w'.
Proof.
  intros H0 Hr Ha Hx Hd. destruct (executing call) eqn:He.
  - right. destruct (executing_spec _ _ _ _ He Hx) as (p & eta & Hp & Hpe & Hle & Hf).
    assert (pending p eta w) as Hpw by (by destruct p). simpl in Hle.
    destruct (pending_history _ _ _ H0 Hr _ _ Hpw) as (c0 & n0 & Hin & ?).
    exists p, c0, n0. repeat split; [done | done | lia | done].
  - left. intros k Hk. destruct (parameter_frame _ Hd He _ _ _ Hx) as (_ & _ & Ek).
    apply (Ek k). unfold but. by rewrite Hk.
Qed.
End timelock.

(** * A concrete pool *)
Module PoolWitness.
Definition pool : Address := 50%N.
Definition admin : Address := 51%N.
Definition token : Address := 52%N.
Definition alice : Address := 53%N.
Definition bob : Address := 54%N.

Abbreviation W := (world DataKey Sac.t PoolEvent).

(** Everyone but the pool signs. *)
Definition at_time (t : Z) : Ctx := mkCtx (λ a, negb (bool_decide (a = pool))) t (t / 5).
Definition bank : Sac.t :=
  Sac.mk {[ (token, alice) := 1000; (token, bob) := 1000 ]} ∅ ∅ {[ token := 7 ]}.
Definition blank : W := mkWorld pool (at_time 0) st_empty bank [].

Definition admissibleb (c : Ctx) (call : PoolCall) (w : W) : bool :=
  negb (auth c (self w)) && (now (ctx w) <=? now c) &&
  (now c + TIMELOCK_DELAY_SECONDS <=? u64_max) && pool_typed call.

(** [play h s w]: the calls of [s] from [w], with the history [h] so far; [None] when one
    fails. *)
Fixpoint play (h : list entry) (s : list (Z * PoolCall)) (w : W) : option (list entry * W) :=
  match s with
  | [] => Some (h, w)
  | (t, call) :: s =>
      if admissibleb (at_time t) call w then
        match pool_exec call (with_ctx (at_time t) w) with
        | Done n w' => play ((at_time t, call, n) :: h) s w'
        | Fault _ => None
        end
      else None
  end.

Lemma pool_play_run v s h w r :
  pool_run v h w → play h s w = Some r → pool_run v r.1 r.2.
Proof.
  revert h w. induction s as [|[t call] s IH]; intros h w Hr Hp; simpl in Hp; [by simplify_eq |].
  destruct (admissibleb _ _ _) eqn:Ha; [| done].
  destruct (pool_exec call _) as [n w1|] eqn:Hx; [| done].
  eapply IH; [| exact Hp]. eapply run_call; [exact Hr | | exact Hx].
  unfold admissibleb in Ha. bools. by repeat split.
Qed.

Definition played (s : list (Z * PoolCall)) (w : W) : list entry * W :=
  default ([], w) (play [] s w).

Lemma pool_played_run s w :
  match play [] s w with Some _ => true | None => false end = true →
  pool_run w (played s w).1 (played s w).2.
Proof.
  intros Hp. unfold played. destruct (play [] s w) as [r|] eqn:Hs; [| done].
  exact (pool_play_run w s [] w r (run_start w) Hs).
Qed.

Lemma blank_fresh : fresh blank.
Proof.
  split; [intros k; reflexivity |]. intros t. unfold holds. simpl. unfold Sac.balance. simpl.
  by rewrite lookup_insert_ne, lookup_singleton_ne by (unfold alice, bob, pool; congruence).
Qed.

(** Deployment, a backstop share of 25%, a premium, a floor of 50% on the reserve. *)
Definition setup : list (Z * PoolCall) :=
  [ (1000, PInitialize admin 400 token); (1100, PSetBackstopBps 2500);
    (1200, PDeposit alice 300); (1300, PSetMinReserve 5000) ].
(** The claim on invoice 7 empties the pool. *)
Definition drained : list (Z * PoolCall) := setup ++ [ (1400, PClaim 7 alice) ].
Definition refill : list (Z * PoolCall) := [ (1500, PDeposit bob 900) ].
Definition proposed : list (Z * PoolCall) := setup ++ [ (2000, PProposeCoverage 500) ].

Definition w_setup : W := (played setup blank).2.
Definition w_drained : W := (played drained blank).2.

Lemma pool_solvent_witness :
  pool_run blank (played (drained ++ refill) blank).1 (played (drained ++ refill) blank).2 ∧
  received (played (drained ++ refill) blank).1 = 1200 ∧
  paid (played (drained ++ refill) blank).1 = 300 ∧
  0 ≤ liquid (played (drained ++ refill) blank).2.
Proof.
  assert (pool_run blank (played (drained ++ refill) blank).1 (played (drained ++ refill) blank).2)
    as Hr by (apply pool_played_run; vm_compute; reflexivity).
  split; [exact Hr |]. split; [vm_compute; reflexivity |]. split; [vm_compute; reflexivity |].
  exact (proj1 (pool_solvent blank _ _ blank_fresh Hr)).
Defined.

Lemma breaker_stops_claims_witness :
  claim 7 alice (with_ctx (at_time 1400) w_setup) = Done 300 w_drained ∧
  liquid (played refill w_drained).2 = 675 ∧
  circuit_open (played refill w_drained).2 = true.
Proof.
  assert (claim 7 alice (with_ctx (at_time 1400) w_setup) = Done 300 w_drained) as Hc
    by (vm_compute; reflexivity).
  split; [exact Hc |]. split; [vm_compute; reflexivity |].
  refine (proj1 (breaker_stops_claims (at_time 1400) 7 alice 300 w_setup w_drained
    (played refill w_drained).1 (played refill w_drained).2 _ _ Hc _ _ _)).
  - vm_compute. discriminate.
  - vm_compute. discriminate.
  - vm_compute. reflexivity.
  - apply pool_played_run. vm_compute. reflexivity.
  - vm_compute. repeat constructor.
Defined.

Lemma setup_in_range t : in_range (with_ctx (at_time t) w_setup).
Proof.
  split; [| split]; [split; vm_compute; discriminate.. |].
  intros id e. vm_compute. discriminate.
Qed.

Lemma claim_decided_witness :
  claim_verdict 7 (with_ctx (at_time 1400) w_setup) = None ∧
  ∃ w', claim 7 alice (with_ctx (at_time 1400) w_setup) = Done 300 w'.
Proof.
  split; [vm_compute; reflexivity |].
  destruct (claim_decided 7 alice admin token (with_ctx (at_time 1400) w_setup)
    (setup_in_range 1400)) as (w' & Hc & _).
  - vm_compute. discriminate.
  - vm_compute. reflexivity.
  - vm_compute. reflexivity.
  - vm_compute. reflexivity.
  - vm_compute. eexists. reflexivity.
  - exists w'. exact Hc.
Defined.

Definition w_proposed : W := (played proposed blank).2.
Definition w_executed : W := (played (proposed ++ [ (261200, PExecuteCoverage) ]) blank).2.

Lemma timelock_respected_witness :
  succeeds (pool_exec PExecuteCoverage) (with_ctx (at_time 261199) w_proposed) = false ∧
  ((∀ k, parameter_key k = true → store w_executed k = store w_proposed k) ∨
   ∃ p c0 n0, execution_of p = Some PExecuteCoverage ∧ (c0, p, n0) ∈ (played proposed blank).1 ∧
     now c0 + TIMELOCK_DELAY_SECONDS ≤ 261200 ∧ in_force p w_executed).
Proof.
  split; [vm_compute; reflexivity |].
  apply (timelock_respected blank (played proposed blank).1 w_proposed (at_time 261200)
    PExecuteCoverage 0 w_executed).
  - intros k. reflexivity.
  - apply pool_played_run. vm_compute. reflexivity.
  - split; [vm_compute; reflexivity |]. split; [vm_compute; discriminate |].
    split; [vm_compute; discriminate | reflexivity].
  - vm_compute. reflexivity.
  - reflexivity.
Defined.
End PoolWitness.
