(* ===== verification/ClaimPriority.v ===== *)
(** Payout priority when simultaneous defaults exceed the pool's balance,
    [src/contracts/insurance_pool/src/claim_prioritization.rs]. *)
From stdpp Require Import numbers list sorting.
From S2P Require Import Prelude.
Open Scope Z_scope.

Inductive PayoutStrategy := ProRata | RiskWeighted | FIFO.

Record PendingClaim := mkPendingClaim {
  pc_lp : Address;
  pc_invoice_id : Z;
  pc_claim_timestamp : Z;
  pc_lp_total_premiums : Z;
  pc_lp_default_count : Z;
  pc_coverage_cap : Z
}.

(** [PayoutOverflow] and [NoClaimsToPrioritize] are declared and never returned. *)
Inductive ClaimPrioritizationError :=
| InvalidPoolBalance | PayoutOverflow | NoClaimsToPrioritize.

(** The functions read and write no ledger: their world is [unit]. *)
Abbreviation P := (M unit ClaimPrioritizationError).

(** [i128::saturating_div]: a zero divisor traps. *)
Definition saturating_div (a b : Z) : P Z :=
  if b =? 0 then panic else mret (sat_i128 (a ÷ b)).

Definition calculate_pro_rata (claim : PendingClaim) (base_payout total_lp_premiums : Z) : P Z :=
  if total_lp_premiums <=? 0 then mret 0
  else saturating_div (sat_i128 (base_payout * pc_lp_total_premiums claim)) total_lp_premiums.

Definition calculate_risk_weighted (claim : PendingClaim) (base_payout total_lp_premiums : Z) :
    P Z :=
  pro_rata ← calculate_pro_rata claim base_payout total_lp_premiums;
  saturating_div (sat_i128 (pro_rata * 100)) (sat_i128 (100 + pc_lp_default_count claim)).

(** [total_pending_claims] is an argument the body ignores. *)
Definition calculate_payout (claim : PendingClaim) (strategy : PayoutStrategy)
    (pool_balance total_pending_claims total_lp_premiums : Z) : P Z :=
  reject_if (pool_balance <? 0) InvalidPoolBalance;;
  let base_payout := Z.min (pc_coverage_cap claim) pool_balance in
  if base_payout <=? 0 then mret 0
  else
    payout ← (match strategy with
              | ProRata => calculate_pro_rata claim base_payout total_lp_premiums
              | RiskWeighted => calculate_risk_weighted claim base_payout total_lp_premiums
              | FIFO => mret base_payout
              end);
    mret (Z.max payout 0).

(** [sort_by_key] and [sort_by] are stable: equal keys keep their order.  [before a b] is
    "a may stay in front of b". *)
Fixpoint stable_insert {A} (before : A → A → bool) (x : A) (l : list A) : list A :=
  match l with
  | [] => [x]
  | y :: l' => if before x y then x :: l else y :: stable_insert before x l'
  end.
Fixpoint stable_sort {A} (before : A → A → bool) (l : list A) : list A :=
  match l with
  | [] => []
  | x :: l' => stable_insert before x (stable_sort before l')
  end.

Definition priority (strategy : PayoutStrategy) (a b : PendingClaim) : bool :=
  match strategy with
  | FIFO => pc_claim_timestamp a <=? pc_claim_timestamp b
  | ProRata | RiskWeighted => pc_lp_total_premiums b <=? pc_lp_total_premiums a
  end.

(** [iter().sum()] on [i128]: an overflowing partial sum traps. *)
Fixpoint checked_sum (acc : Z) (l : list Z) : option Z :=
  match l with
  | [] => Some acc
  | x :: l' => match chk_i128 (acc + x) with Some acc => checked_sum acc l' | None => None end
  end.

(** The loop over the sorted claims. *)
Fixpoint allocate_loop (strategy : PayoutStrategy) (total_lp_premiums remaining_balance : Z)
    (sorted_claims : list PendingClaim) : P (list (Address * Z)) :=
  match sorted_claims with
  | [] => mret []
  | claim :: rest =>
      if remaining_balance <=? 0 then mret []
      else
        payout ← calculate_payout claim strategy remaining_balance 0 total_lp_premiums;
        let actual_payout := Z.min payout remaining_balance in
        if 0 <? actual_payout then
          allocations ← allocate_loop strategy total_lp_premiums
                          (sat_i128 (remaining_balance - actual_payout)) rest;
          mret ((pc_lp claim, actual_payout) :: allocations)
        else allocate_loop strategy total_lp_premiums remaining_balance rest
  end.

Definition allocate_payouts (claims : list PendingClaim) (strategy : PayoutStrategy)
    (pool_balance : Z) : P (list (Address * Z)) :=
  reject_if (pool_balance <? 0) InvalidPoolBalance;;
  if bool_decide (claims = []) then mret []
  else
    let sorted_claims := stable_sort (priority strategy) claims in
    total_lp_premiums ← unwrap (checked_sum 0 (pc_lp_total_premiums <$> claims));
    allocate_loop strategy total_lp_premiums pool_balance sorted_claims.

(** * The sort *)
Section sort.
Context {A : Type} (before : A → A → bool).
Hypothesis before_total : ∀ x y, before x y = false → before y x = true.
Hypothesis before_trans : ∀ x y z, before x y = true → before y z = true → before x z = true.

Lemma stable_insert_perm x l : stable_insert before x l ≡ₚ x :: l.
Proof.
  induction l as [|y l IH]; simpl; [done |]. destruct (before x y); [done |].
  rewrite IH. by rewrite Permutation_swap.
Qed.
Lemma stable_sort_perm l : stable_sort before l ≡ₚ l.
Proof. induction l as [|x l IH]; simpl; [done |]. by rewrite stable_insert_perm, IH. Qed.

Lemma stable_insert_sorted x l :
  StronglySorted (λ a b, before a b = true) l →
  StronglySorted (λ a b, before a b = true) (stable_insert before x l).
Proof.
  induction 1 as [|y l Hl IH Hy]; simpl; [by repeat constructor |].
  destruct (before x y) eqn:E.
  - constructor; [by constructor |]. constructor; [done |].
    eapply Forall_impl; [| exact Hy]. intros z. by apply before_trans.
  - constructor; [done |]. rewrite stable_insert_perm. constructor; [| done]. by apply before_total.
Qed.
Lemma stable_sort_sorted l : StronglySorted (λ a b, before a b = true) (stable_sort before l).
Proof. induction l as [|x l IH]; simpl; [constructor |]. by apply stable_insert_sorted. Qed.
End sort.

Lemma priority_total s a b : priority s a b = false → priority s b a = true.
Proof. destruct s; simpl; intros H; bools; apply Z.leb_le; lia. Qed.
Lemma priority_trans s a b c : priority s a b = true → priority s b c = true → priority s a c = true.
Proof. destruct s; simpl; intros H1 H2; bools; apply Z.leb_le; lia. Qed.

(** * One payout *)

(** What the pool records of an LP: no negative premiums, a count of defaults. *)
Definition sound_claim (c : PendingClaim) : Prop :=
  0 ≤ pc_lp_total_premiums c ≤ i128_max ∧ 0 ≤ pc_lp_default_count c ≤ 2 ^ 31.

Lemma div_pass a b : 0 ≤ a ≤ i128_max → 0 < b → saturating_div a b tt = Done (a ÷ b) tt.
Proof.
  intros Ha Hb. unfold saturating_div. destruct (Z.eqb_spec b 0); [lia |].
  rewrite sat_id; [done |]. assert (i128_min ≤ 0) by done.
  rewrite Z.quot_div_nonneg by lia. split; [transitivity 0; [lia | apply Z.div_pos; lia] |].
  transitivity a; [| lia]. apply Z.div_le_upper_bound; nia.
Qed.

Lemma sat_nonneg a : 0 ≤ a → 0 ≤ sat_i128 a ≤ i128_max ∧ sat_i128 a ≤ a.
Proof. intros Ha. assert (i128_min ≤ 0 ≤ i128_max) by done. unfold sat. lia. Qed.

Lemma pro_rata_spec c base total :
  sound_claim c → 0 ≤ base → pc_lp_total_premiums c ≤ total →
  ∃ n, calculate_pro_rata c base total tt = Done n tt ∧ 0 ≤ n ≤ base.
Proof.
  intros [Hp _] Hb Ht. unfold calculate_pro_rata.
  destruct (Z.leb_spec total 0); [exists 0; split; [done | lia] |].
  pose proof (sat_nonneg (base * pc_lp_total_premiums c) ltac:(nia)) as [Hs Hle].
  rewrite div_pass by lia. eexists. split; [done |].
  rewrite Z.quot_div_nonneg by lia. split; [apply Z.div_pos; lia |].
  apply Z.div_le_upper_bound; nia.
Qed.

Lemma risk_weighted_spec c base total :
  sound_claim c → 0 ≤ base → pc_lp_total_premiums c ≤ total →
  ∃ n, calculate_risk_weighted c base total tt = Done n tt ∧ 0 ≤ n ≤ base.
Proof.
  intros Hc Hb Ht. destruct (pro_rata_spec c base total Hc Hb Ht) as (r & Hr & Hn).
  destruct Hc as [_ Hd]. unfold calculate_risk_weighted.
  pose proof (sat_nonneg (r * 100) ltac:(lia)) as [Hs Hle].
  assert (2 ^ 31 + 100 ≤ i128_max ∧ i128_min ≤ 0) as [? ?] by done.
  exists (sat_i128 (r * 100) ÷ (100 + pc_lp_default_count c)). split.
  - eapply done_bind; [exact Hr |]. rewrite (sat_id _ _ (100 + _)) by lia. apply div_pass; lia.
  - rewrite Z.quot_div_nonneg by lia. split; [apply Z.div_pos; lia |].
    apply Z.div_le_upper_bound; nia.
Qed.

Lemma payout_spec c s b k total :
  sound_claim c → 0 ≤ b → pc_lp_total_premiums c ≤ total →
  ∃ n, calculate_payout c s b k total tt = Done n tt ∧ 0 ≤ n ≤ Z.max 0 (Z.min (pc_coverage_cap c) b) ∧
    (s = FIFO → n = Z.max 0 (Z.min (pc_coverage_cap c) b)).
Proof.
  intros Hc Hb Ht. unfold calculate_payout.
  assert (∀ (B : Type) (f : unit → P B) o, f tt tt = o →
    (reject_if (b <? 0) InvalidPoolBalance ≫= f) tt = o) as Hrej.
  { intros B f o Ho. eapply done_bind; [apply reject_pass; by apply Z.ltb_ge | done]. }
  destruct (Z.leb_spec (Z.min (pc_coverage_cap c) b) 0) as [Hz | Hz].
  { exists 0. split; [by apply Hrej | lia]. }
  destruct s.
  - destruct (pro_rata_spec c (Z.min (pc_coverage_cap c) b) total Hc ltac:(lia) Ht) as (n & Hn & ?).
    exists n. split; [| split; [lia | done]]. apply Hrej. eapply done_bind; [exact Hn |].
    by rewrite Z.max_l by lia.
  - destruct (risk_weighted_spec c (Z.min (pc_coverage_cap c) b) total Hc ltac:(lia) Ht) as (n & Hn & ?).
    exists n. split; [| split; [lia | done]]. apply Hrej. eapply done_bind; [exact Hn |].
    by rewrite Z.max_l by lia.
  - eexists. split; [by apply Hrej |]. lia.
Qed.

(** * The allocation *)

(** The claims served, with what each received. *)
Definition serves (c : PendingClaim) (a : Address * Z) : Prop :=
  a.1 = pc_lp c ∧ 0 < a.2 ≤ pc_coverage_cap c.

Lemma allocate_loop_spec s total cs : ∀ b,
  0 ≤ b ≤ i128_max → Forall (λ c, sound_claim c ∧ pc_lp_total_premiums c ≤ total) cs →
  ∃ al served, allocate_loop s total b cs tt = Done al tt ∧
    served `sublist_of` cs ∧ Forall2 serves served al ∧ zsum (al.*2) ≤ b ∧
    (s = FIFO → zsum (al.*2) = Z.min b (zsum ((λ c, Z.max 0 (pc_coverage_cap c)) <$> cs))).
Proof.
  induction cs as [|c cs IH]; intros b Hb Hcs; cbn [allocate_loop].
  { exists [], []. split; [done |]. split; [constructor |]. split; [constructor |]. csimpl. lia. }
  inversion_clear Hcs as [|?? [Hc Ht] Hcs'].
  assert (0 ≤ zsum ((λ c, Z.max 0 (pc_coverage_cap c)) <$> cs)) as Hz.
  { apply zsum_nonneg, Forall_fmap, Forall_true. intros. simpl. lia. }
  destruct (Z.leb_spec b 0) as [H0 | H0].
  { exists [], []. split; [done |]. split; [apply sublist_nil_l |]. split; [constructor |].
    csimpl. lia. }
  destruct (payout_spec c s b 0 total Hc ltac:(lia) Ht) as (n & Hn & Hr & Hf).
  destruct (Z.ltb_spec 0 (Z.min n b)) as [H1 | H1].
  - assert (i128_min ≤ 0) by done.
    destruct (IH (b - Z.min n b) ltac:(lia) Hcs') as (al & sv & Ha & Hs & H2 & Hsum & Hfi).
    exists ((pc_lp c, Z.min n b) :: al), (c :: sv). split; [| split; [| split; [| split]]].
    + eapply done_bind; [exact Hn |]. simpl. destruct (Z.ltb_spec 0 (Z.min n b)); [| lia].
      rewrite sat_id by lia. by eapply done_bind; [exact Ha |].
    + by constructor.
    + constructor; [| done]. split; simpl; [done | lia].
    + csimpl. lia.
    + intros E. specialize (Hf E). specialize (Hfi E). csimpl. lia.
  - destruct (IH b Hb Hcs') as (al & sv & Ha & Hs & H2 & Hsum & Hfi).
    exists al, sv. split; [| split; [| split; [| split]]]; try done.
    + eapply done_bind; [exact Hn |]. simpl. destruct (Z.ltb_spec 0 (Z.min n b)); [lia | done].
    + by constructor.
    + intros E. specialize (Hf E). specialize (Hfi E). csimpl. lia.
Qed.

Lemma checked_sum_spec l acc :
  0 ≤ acc → Forall (λ n, 0 ≤ n) l → acc + zsum l ≤ i128_max → checked_sum acc l = Some (acc + zsum l).
Proof.
  intros Ha Hl. revert acc Ha. induction Hl as [|x l Hx Hl IH]; intros acc Ha Hs; simpl in *.
  { f_equal. lia. }
  assert (i128_min ≤ 0) by done. pose proof (zsum_nonneg _ Hl).
  unfold checked. rewrite (proj2 (in_i128_spec (acc + x))) by lia. rewrite IH by lia. f_equal. lia.
Qed.

Lemma zsum_elem x l : Forall (λ n, 0 ≤ n) l → x ∈ l → x ≤ zsum l.
Proof.
  induction 1 as [|y l Hy Hl IH]; intros Hx; [by apply elem_of_nil in Hx |].
  pose proof (zsum_nonneg _ Hl). apply elem_of_cons in Hx as [-> | Hx]; simpl; [lia |].
  specialize (IH Hx). lia.
Qed.

(** Constrained payouts are safe and in order.  For claims with sound records, the
    allocation always answers; it serves claims in priority order (by filing time, or by
    premiums, ties in filing order), pays each a positive amount within its coverage cap,
    never more than the pool holds in total, and first-in-first-out leaves money in the
    pool only when every cap is paid in full. *)
Theorem allocation_sound claims s b :
  0 ≤ b ≤ i128_max → Forall sound_claim claims →
  zsum (pc_lp_total_premiums <$> claims) ≤ i128_max →
  ∃ al served, allocate_payouts claims s b tt = Done al tt ∧
    served `sublist_of` stable_sort (priority s) claims ∧
    StronglySorted (λ c d, priority s c d = true) (stable_sort (priority s) claims) ∧
    stable_sort (priority s) claims ≡ₚ claims ∧
    Forall2 serves served al ∧ zsum (al.*2) ≤ b ∧
    (s = FIFO → zsum (al.*2) = Z.min b (zsum ((λ c, Z.max 0 (pc_coverage_cap c)) <$> claims))).
Proof.
  intros Hb Hcs Hsum.
  assert (Forall (λ n, 0 ≤ n) (pc_lp_total_premiums <$> claims)) as Hnn.
  { apply Forall_fmap. eapply Forall_impl; [| exact Hcs]. intros c [Hc _]. simpl. lia. }
  pose proof (stable_sort_perm (priority s) claims) as Hp.
  destruct (allocate_loop_spec s (0 + zsum (pc_lp_total_premiums <$> claims))
    (stable_sort (priority s) claims) b Hb) as (al & sv & Ha & Hs & H2 & Hle & Hf).
  { rewrite Hp. apply Forall_forall. intros c Hc. split; [by eapply Forall_forall in Hcs |].
    rewrite Z.add_0_l. apply zsum_elem; [done |]. by apply list_elem_of_fmap_2, list_elem_of_In. }
  exists al, sv. split; [| split_and!; try done].
  - unfold allocate_payouts.
    eapply done_bind; [apply reject_pass; apply Z.ltb_ge; lia |].
    case_bool_decide as Hn; [subst; simpl in Ha; exact Ha |].
    eapply done_bind; [apply unwrap_pass, checked_sum_spec; [done | done | lia] | exact Ha].
  - apply stable_sort_sorted; [apply priority_total | apply priority_trans].
  - intros E. rewrite (Hf E). f_equal.
    assert (∀ l l' : list Z, l ≡ₚ l' → zsum l = zsum l') as Hzp by (induction 1; simpl; lia).
    apply Hzp. by rewrite Hp.
Qed.

(** * Concrete claims *)
Module ClaimPriorityWitness.
Definition c1 : PendingClaim := mkPendingClaim 1%N 1 1000 500 0 1000.
Definition c2 : PendingClaim := mkPendingClaim 2%N 2 900 500 5 1000.

Lemma allocation_sound_witness :
  allocate_payouts [c1; c2] FIFO 1200 tt = Done [(2%N, 1000); (1%N, 200)] tt ∧
  ∃ al, allocate_payouts [c1; c2] FIFO 1200 tt = Done al tt ∧ zsum (al.*2) ≤ 1200.
Proof.
  split; [vm_compute; reflexivity |].
  destruct (allocation_sound [c1; c2] FIFO 1200) as (al & sv & Ha & _ & _ & _ & _ & Hle & _).
  - split; vm_compute; discriminate.
  - repeat constructor; vm_compute; discriminate.
  - vm_compute. discriminate.
  - exists al. split; [exact Ha | exact Hle].
Defined.

(** Two LPs with the same premiums: the second share is taken from what the first left. *)
Example pro_rata_is_sequential :
  allocate_payouts [mkPendingClaim 1%N 1 1000 1000 0 10000; mkPendingClaim 2%N 2 1001 1000 0 10000]
    ProRata 1000 tt = Done [(1%N, 500); (2%N, 250)] tt.
Proof. vm_compute. reflexivity. Qed.
End ClaimPriorityWitness.
