(* ===== verification/ReputationBonus.v ===== *)
(** The reputation-priced invoice contract, [src/contracts/reputation_bonus/src]: its
    configuration, the per-address reputation counters, and invoices whose discount rate
    depends on the submitter's reputation. *)
From S2P Require Import Prelude Host.

Module Rep.

Inductive ContractError :=
| ArithmeticError | InvoiceNotFound | IllegalState | ConfigErrorUnauthorized
| ConfigErrorInvalidBonusBps | ConfigErrorInvalidMinDiscountRate
| RateErrorArithmeticUnderflow | RateErrorArithmeticOverflow
| ConfigErrorInvalidHighRepThreshold.

Inductive ConfigError :=
| Unauthorized | InvalidBonusBps | InvalidMinDiscountRate | InvalidHighRepThreshold.

Definition MAX_BONUS_BPS : Z := 500.
Definition MAX_REPUTATION_SCORE : Z := 100.

Record Config := mkConfig {
  high_rep_threshold : Z;
  bonus_bps : Z;
  min_discount_rate_bps : Z
}.

Record ReputationScore := mkScore {
  invoices_submitted : Z;
  invoices_paid : Z;
  invoices_defaulted : Z;
  score : Z
}.

Inductive InvoiceStatus := Pending | Funded | Paid | Defaulted.
#[global] Instance InvoiceStatus_eq_dec : EqDecision InvoiceStatus.
Proof. solve_decision. Defined.

Record Invoice := mkInvoice {
  id : Z;
  freelancer : Address;
  payer : Address;
  amount : Z;
  due_date : Z;
  base_discount_rate_bps : Z;
  effective_discount_rate_bps : Z;
  status : InvoiceStatus
}.

(** [ConfigKey], [ReputationKey] and [InvoiceKey]; no two of their variants share a name. *)
Module RKey.
Inductive DataKey :=
| Config | Admin | Reputation (a : Address) | Invoice (id : Z) | InvoiceCount.
End RKey.
Export RKey (DataKey).

#[global] Instance RKey_eq_dec : EqDecision DataKey.
Proof. solve_decision. Defined.

Definition rep_entry (k : DataKey) : Type :=
  match k with
  | RKey.Config => Config
  | RKey.Admin => Address
  | RKey.Reputation _ => ReputationScore
  | RKey.Invoice _ => Invoice
  | RKey.InvoiceCount => Z
  end.
#[global] Instance rep_schema : Schema DataKey := {| val := rep_entry |}.

Inductive RepEvent :=
| ParameterUpdated (param_name : Symbol) (old_value new_value : Z) (updated_by : Address)
| ContractInitialized (admin : Address)
| ConfigSet (high_rep_threshold bonus_bps min_discount_rate_bps : Z)
| InvoiceSubmitted (invoice_id : Z) (freelancer payer : Address)
    (amount due_date effective_discount_rate_bps : Z)
| InvoiceStatusChanged (invoice_id : Z) (freelancer payer : Address) (status : InvoiceStatus)
| ReputationUpdated (a : Address) (submitted paid defaulted score : Z).

Definition PARAM_HIGH_REP_THRESHOLD : Symbol := "high_rep_threshold".
Definition PARAM_BONUS_BPS : Symbol := "bonus_bps".
Definition PARAM_MIN_DISCOUNT_RATE_BPS : Symbol := "min_discount_rate_bps".

(** The [map_err] of [lib.rs]. *)
Definition of_config_error (e : ConfigError) : ContractError :=
  match e with
  | InvalidHighRepThreshold => ConfigErrorInvalidHighRepThreshold
  | InvalidBonusBps => ConfigErrorInvalidBonusBps
  | InvalidMinDiscountRate => ConfigErrorInvalidMinDiscountRate
  | Unauthorized => ConfigErrorUnauthorized
  end.

(** [rate_logic.rs]: the result is always [Ok]. *)
Definition calculate_effective_rate (base_rate_bps reputation_score high_rep_threshold bonus_bps
    min_discount_rate_bps : Z) : Z :=
  if high_rep_threshold <=? reputation_score then
    let reduced_rate := sat_u32 (base_rate_bps - bonus_bps) in
    Z.max reduced_rate min_discount_rate_bps
  else Z.max base_rate_bps min_discount_rate_bps.

(** ** Reputation ([reputation.rs]) *)
Definition new_score : ReputationScore := mkScore 0 0 0 0.

(** [(paid as u64).checked_mul(100)...map(|v| v as u32).unwrap_or(0).min(100)]. *)
Definition paid_percentage (submitted paid : Z) : Z :=
  Z.min (default 0 (v ← chk_u64 (paid * 100); Some ((v ÷ Z.max submitted 1) mod 2 ^ 32))) 100.

Definition recalculate_score (r : ReputationScore) : ReputationScore :=
  mkScore (invoices_submitted r) (invoices_paid r) (invoices_defaulted r)
    (paid_percentage (invoices_submitted r) (invoices_paid r)).

Definition add_submitted (r : ReputationScore) : ReputationScore :=
  mkScore (sat_u32 (invoices_submitted r + 1)) (invoices_paid r) (invoices_defaulted r) (score r).
Definition add_paid (r : ReputationScore) : ReputationScore :=
  mkScore (invoices_submitted r) (sat_u32 (invoices_paid r + 1)) (invoices_defaulted r) (score r).
Definition add_defaulted (r : ReputationScore) : ReputationScore :=
  mkScore (invoices_submitted r) (invoices_paid r) (sat_u32 (invoices_defaulted r + 1)) (score r).

Definition set_status (s : InvoiceStatus) (i : Invoice) : Invoice :=
  mkInvoice (id i) (freelancer i) (payer i) (amount i) (due_date i) (base_discount_rate_bps i)
    (effective_discount_rate_bps i) s.

Section contract.
Context {X : Type}.
Abbreviation W := (world DataKey X RepEvent).
Abbreviation IO := (M W ContractError).
Abbreviation CO := (M W ConfigError).

Definition read_reputation (a : Address) : IO ReputationScore :=
  get_or (RKey.Reputation a) new_score.

Definition write_reputation (a : Address) (r : ReputationScore) : IO unit :=
  let r := recalculate_score r in
  put (RKey.Reputation a) r;;
  publish (ReputationUpdated a (invoices_submitted r) (invoices_paid r) (invoices_defaulted r)
    (score r)).

(** The three statements that update one counter of one party. *)
Definition bump (f : ReputationScore → ReputationScore) (a : Address) : IO unit :=
  r ← read_reputation a;
  write_reputation a (f r).

(** ** Configuration ([config.rs]) *)
Definition get_admin : CO Address := a ← get RKey.Admin; ok_or a Unauthorized.
Definition config_get : CO Config := c ← get RKey.Config; ok_or c Unauthorized.

Definition config_set (config : Config) : CO unit :=
  reject_if (MAX_REPUTATION_SCORE <? high_rep_threshold config) InvalidHighRepThreshold;;
  reject_if (MAX_BONUS_BPS <? bonus_bps config) InvalidBonusBps;;
  reject_if (min_discount_rate_bps config =? 0) InvalidMinDiscountRate;;
  put RKey.Config config.

Definition config_update (caller : Address) (threshold bonus min_rate : Z) : CO unit :=
  admin ← get_admin;
  old_config ← config_get;
  require_auth caller;;
  reject_if (negb (bool_decide (caller = admin))) Unauthorized;;
  config_set (mkConfig threshold bonus min_rate);;
  publish (ParameterUpdated PARAM_HIGH_REP_THRESHOLD (high_rep_threshold old_config) threshold
    caller);;
  publish (ParameterUpdated PARAM_BONUS_BPS (bonus_bps old_config) bonus caller);;
  publish (ParameterUpdated PARAM_MIN_DISCOUNT_RATE_BPS (min_discount_rate_bps old_config)
    min_rate caller).

(** ** Entry points ([lib.rs]) *)
Definition init (admin : Address) : IO unit :=
  put RKey.Admin admin;;
  publish (ContractInitialized admin).

Definition set_config (config : Config) : IO unit :=
  map_err of_config_error (config_set config);;
  publish (ConfigSet (high_rep_threshold config) (bonus_bps config)
    (min_discount_rate_bps config)).

Definition get_config : IO Config :=
  map_err (λ _, ConfigErrorUnauthorized) config_get.

Definition update_config (caller : Address) (threshold bonus min_rate : Z) : IO unit :=
  map_err of_config_error (config_update caller threshold bonus min_rate).

Definition get_reputation (a : Address) : IO ReputationScore := read_reputation a.

(** ** Invoices ([invoice.rs]) *)
Definition submit_invoice (freelancer payer : Address) (amount due_date base_rate : Z) :
    IO Invoice :=
  require_auth freelancer;;
  config ← get_config;
  rep_score ← read_reputation freelancer;
  let effective_rate :=
    calculate_effective_rate base_rate (score rep_score) (high_rep_threshold config)
      (bonus_bps config) (min_discount_rate_bps config) in
  count ← get_or RKey.InvoiceCount 0;
  next_id ← ok_or (chk_u64 (count + 1)) ArithmeticError;
  put RKey.InvoiceCount next_id;;
  let invoice :=
    mkInvoice next_id freelancer payer amount due_date base_rate effective_rate Pending in
  put (RKey.Invoice next_id) invoice;;
  bump add_submitted freelancer;;
  bump add_submitted payer;;
  publish (InvoiceSubmitted next_id freelancer payer amount due_date effective_rate);;
  mret invoice.

(** [status != Pending && status != Funded] *)
Definition closed (s : InvoiceStatus) : bool :=
  match s with Pending | Funded => false | Paid | Defaulted => true end.

Definition mark_paid (invoice_id : Z) : IO unit :=
  i ← get (RKey.Invoice invoice_id);
  invoice ← ok_or i InvoiceNotFound;
  reject_if (closed (status invoice)) IllegalState;;
  require_auth (payer invoice);;
  let invoice := set_status Paid invoice in
  put (RKey.Invoice invoice_id) invoice;;
  bump add_paid (payer invoice);;
  bump add_paid (freelancer invoice);;
  publish (InvoiceStatusChanged (id invoice) (freelancer invoice) (payer invoice)
    (status invoice)).

Definition handle_default (invoice_id : Z) : IO unit :=
  i ← get (RKey.Invoice invoice_id);
  invoice ← ok_or i InvoiceNotFound;
  reject_if (closed (status invoice)) IllegalState;;
  let invoice := set_status Defaulted invoice in
  put (RKey.Invoice invoice_id) invoice;;
  bump add_defaulted (payer invoice);;
  bump add_defaulted (freelancer invoice);;
  publish (InvoiceStatusChanged (id invoice) (freelancer invoice) (payer invoice)
    (status invoice)).
End contract.
End Rep.
