(* ===== verification/ReputationProps.v ===== *)
(** Properties of [ReputationBonus.v]: the reputation counters are exact counts of the
    stored invoices, and a closed invoice never changes. *)
From stdpp Require Import numbers list.
From S2P Require Import Prelude Host ReputationBonus.
Import Rep.

Inductive RepCall :=
| RInit (admin : Address)
| RSetConfig (config : Config)
| RUpdateConfig (caller : Address) (threshold bonus min_rate : Z)
| RSubmit (freelancer payer : Address) (amount due_date base_rate : Z)
| RMarkPaid (invoice_id : Z)
| RDefault (invoice_id : Z).

(** Entries of invoices and reputations. *)
Definition record_key (k : DataKey) : bool :=
  match k with RKey.Config | RKey.Admin => false | _ => true end.

Section reputation.
Context {X : Type}.
Abbreviation W := (world DataKey X RepEvent).
Abbreviation IO := (M W ContractError).
Implicit Types w : W.

Definition rep_exec (c : RepCall) : IO unit :=
  match c with
  | RInit a => init a
  | RSetConfig c => set_config c
  | RUpdateConfig a t b m => update_config a t b m
  | RSubmit f p n d r => _ ← submit_invoice f p n d r; mret tt
  | RMarkPaid i => mark_paid i
  | RDefault i => handle_default i
  end.

(** A successful call in some ledger; anything may happen to the rest of the chain. *)
Definition rep_step w w' : Prop :=
  (∃ c call, rep_exec call (with_ctx c w) = Done tt w') ∨ ∃ x, w' = with_ext x w.

(** ** What the counters count *)
Definition reputation_of w (a : Address) : ReputationScore :=
  default new_score (store w (RKey.Reputation a)).
Definition invoice_count w : Z := default 0 (store w RKey.InvoiceCount).
(** How often [a] is a party of an invoice: twice when it invoices itself. *)
Definition parts (i : Invoice) (a : Address) : Z :=
  (if bool_decide (a = freelancer i) then 1 else 0) + (if bool_decide (a = payer i) then 1 else 0).
Definition part_in w (p : InvoiceStatus → bool) (a : Address) (j : Z) : Z :=
  match store w (RKey.Invoice j) with
  | Some i => if p (status i) then parts i a else 0
  | None => 0
  end.
(** The parts [a] has in the stored invoices whose status satisfies [p]. *)
Definition tally w (p : InvoiceStatus → bool) (a : Address) : Z :=
  zsum (part_in w p a <$> seqZ 1 (invoice_count w)).
Definition any_status (s : InvoiceStatus) : bool := true.
Definition is_paid (s : InvoiceStatus) : bool := bool_decide (s = Paid).
Definition is_defaulted (s : InvoiceStatus) : bool := bool_decide (s = Defaulted).

Definition exact (s p d : Z) : ReputationScore :=
  mkScore (sat_u32 s) (sat_u32 p) (sat_u32 d) (paid_percentage (sat_u32 s) (sat_u32 p)).

Definition counted (S P D : Address → Z) w : Prop :=
  ∀ a, reputation_of w a = exact (S a) (P a) (D a).

Definition rep_ok w : Prop :=
  0 ≤ invoice_count w ∧
  (∀ j, is_Some (store w (RKey.Invoice j)) ↔ 1 ≤ j ≤ invoice_count w) ∧
  counted (tally w any_status) (tally w is_paid) (tally w is_defaulted) w.

(** ** One counter *)
Lemma sat_succ n : 0 ≤ n → sat_u32 (sat_u32 n + 1) = sat_u32 (n + 1).
Proof. assert (0 ≤ u32_max) by done. unfold sat. lia. Qed.

Definition one (x a : Address) : Z := if bool_decide (a = x) then 1 else 0.

Lemma bump_spec f x w w' :
  bump f x w = Done tt w' →
  self w' = self w ∧ ctx w' = ctx w ∧
  store w' = st_set (store w) (RKey.Reputation x)
               (Some (recalculate_score (f (reputation_of w x)))).
Proof. intros Hx. unfold bump, read_reputation, write_reputation in Hx. by minv Hx. Qed.

(** [f] adds [i], [j] and [k] to the three counters. *)
Definition adds (f : ReputationScore → ReputationScore) (i j k : Z) : Prop :=
  ∀ s p d, 0 ≤ s → 0 ≤ p → 0 ≤ d →
    recalculate_score (f (exact s p d)) = exact (s + i) (p + j) (d + k).

Lemma adds_submitted : adds add_submitted 1 0 0.
Proof.
  intros s p d Hs Hp Hd. unfold add_submitted, recalculate_score, exact. simpl.
  by rewrite sat_succ, !Z.add_0_r.
Qed.
Lemma adds_paid : adds add_paid 0 1 0.
Proof.
  intros s p d Hs Hp Hd. unfold add_paid, recalculate_score, exact. simpl.
  by rewrite sat_succ, !Z.add_0_r.
Qed.
Lemma adds_defaulted : adds add_defaulted 0 0 1.
Proof.
  intros s p d Hs Hp Hd. unfold add_defaulted, recalculate_score, exact. simpl.
  by rewrite sat_succ, !Z.add_0_r.
Qed.

Definition nonneg (S : Address → Z) : Prop := ∀ a, 0 ≤ S a.

Lemma counted_ext S P D S' P' D' w :
  (∀ a, S a = S' a ∧ P a = P' a ∧ D a = D' a) → counted S P D w → counted S' P' D' w.
Proof. intros He Hc a. destruct (He a) as (<- & <- & <-). apply Hc. Qed.

Lemma bump_counted f i j k x S P D w w' :
  adds f i j k → nonneg S → nonneg P → nonneg D →
  counted S P D w → bump f x w = Done tt w' →
  counted (λ a, S a + i * one x a) (λ a, P a + j * one x a) (λ a, D a + k * one x a) w'.
Proof.
  intros Hf HS HP HD Hc (_ & _ & Es)%bump_spec a. unfold reputation_of. rewrite Es.
  unfold one. case_bool_decide as E.
  - subst a. rewrite st_set_eq. simpl. rewrite Hc, Hf by done. f_equal; lia.
  - rewrite st_set_ne by congruence. fold (reputation_of w a). rewrite Hc. f_equal; lia.
Qed.

(** Both parties of an invoice get the counter. *)
Lemma bump_parties f i j k x y inv S P D w w1 w' :
  adds f i j k → 0 ≤ i → 0 ≤ j → 0 ≤ k → nonneg S → nonneg P → nonneg D →
  (∀ a, parts inv a = one x a + one y a) →
  counted S P D w → bump f x w = Done tt w1 → bump f y w1 = Done tt w' →
  counted (λ a, S a + i * parts inv a) (λ a, P a + j * parts inv a) (λ a, D a + k * parts inv a) w'.
Proof.
  intros Hf Hi Hj Hk HS HP HD Hp Hc H1 H2.
  assert (∀ a, 0 ≤ one x a) as H01 by (intros a; unfold one; case_bool_decide; lia).
  pose proof (bump_counted _ _ _ _ _ _ _ _ _ _ Hf HS HP HD Hc H1) as Hc1.
  assert (∀ S n, nonneg S → 0 ≤ n → nonneg (λ a, S a + n * one x a)) as Hnn.
  { intros S0 n HS0 Hn a. specialize (HS0 a). specialize (H01 a). nia. }
  pose proof (bump_counted _ _ _ _ _ _ _ _ _ _ Hf (Hnn _ _ HS Hi) (Hnn _ _ HP Hj) (Hnn _ _ HD Hk)
    Hc1 H2) as Hc2.
  eapply counted_ext; [| exact Hc2]. intros a. simpl. rewrite Hp. repeat split; lia.
Qed.

(** ** The tallies *)
Lemma parts_nonneg i a : 0 ≤ parts i a.
Proof. unfold parts. repeat case_bool_decide; lia. Qed.
Lemma tally_nonneg w p : nonneg (tally w p).
Proof.
  intros a. apply zsum_nonneg, Forall_fmap, Forall_true. intros j. simpl. unfold part_in.
  repeat case_match; try lia. apply parts_nonneg.
Qed.

Lemma zsum_ext (f g : Z → Z) l : (∀ j, j ∈ l → f j = g j) → zsum (f <$> l) = zsum (g <$> l).
Proof.
  induction l as [|x l IH]; intros He; [done |]. csimpl. rewrite He by left.
  f_equal. apply IH. intros j Hj. apply He. by right.
Qed.

(** A new invoice under the next number. *)
Lemma tally_submit w w' inv p a :
  0 ≤ invoice_count w → invoice_count w' = invoice_count w + 1 →
  store w' (RKey.Invoice (invoice_count w + 1)) = Some inv →
  (∀ j, j ≠ invoice_count w + 1 → store w' (RKey.Invoice j) = store w (RKey.Invoice j)) →
  tally w' p a = tally w p a + (if p (status inv) then parts inv a else 0).
Proof.
  intros Hn Hc Hi Ho. unfold tally. rewrite Hc, seqZ_app, fmap_app, zsum_app by lia. f_equal.
  - apply zsum_ext. intros j [? ?]%elem_of_seqZ. unfold part_in. rewrite Ho by lia. done.
  - unfold part_in. rewrite seqZ_cons by lia. csimpl.
    replace (1 + invoice_count w) with (invoice_count w + 1) by lia. rewrite Hi.
    replace (Z.pred 1) with 0 by lia. simpl. lia.
Qed.

(** An invoice whose status changes. *)
Lemma tally_close w w' j inv s p a :
  1 ≤ j ≤ invoice_count w → invoice_count w' = invoice_count w →
  store w (RKey.Invoice j) = Some inv → store w' (RKey.Invoice j) = Some (set_status s inv) →
  (∀ i, i ≠ j → store w' (RKey.Invoice i) = store w (RKey.Invoice i)) →
  tally w' p a = tally w p a +
    ((if p s then parts inv a else 0) - (if p (status inv) then parts inv a else 0)).
Proof.
  intros Hj Hc Hi Hi' Ho. unfold tally. rewrite Hc.
  rewrite (zsum_update (part_in w p a) (part_in w' p a) j
    ((if p s then parts inv a else 0) - (if p (status inv) then parts inv a else 0))).
  - rewrite bool_decide_eq_true_2; [done |]. apply elem_of_seqZ. lia.
  - intros i Hne. unfold part_in. by rewrite Ho.
  - unfold part_in. rewrite Hi, Hi'. simpl. unfold parts at 1. simpl. fold (parts inv a).
    destruct (p s), (p (status inv)); lia.
  - apply NoDup_seqZ.
Qed.

(** ** The calls *)
#[local] Opaque bump.
Lemma rep_ok_same w w' :
  (∀ k, record_key k = true → store w' k = store w k) → rep_ok w → rep_ok w'.
Proof.
  intros Hk (Hn & Hi & Hc).
  assert (invoice_count w' = invoice_count w) as Ec by (unfold invoice_count; by rewrite Hk).
  assert (∀ p a, tally w' p a = tally w p a) as Et.
  { intros p a. unfold tally. rewrite Ec. apply zsum_ext. intros j _. unfold part_in.
    by rewrite Hk. }
  split; [by rewrite Ec |]. split; [intros j; rewrite Hk, Ec by done; apply Hi |].
  intros a. unfold reputation_of. rewrite Hk by done. rewrite !Et. apply Hc.
Qed.

Definition not_reputation (k : DataKey) : bool :=
  match k with RKey.Reputation _ => false | _ => true end.
Lemma bump_other f x w w' k :
  bump f x w = Done tt w' → not_reputation k = true → store w' k = store w k.
Proof. intros (_ & _ & ->)%bump_spec Hk. apply st_set_ne. by intros <-. Qed.

(** The invoices of [v] differ from those of [w] by the parts of [inv], and both its
    parties get the matching counter. *)
Lemma recounted f i j k x y inv w v w1 w2 :
  adds f i j k → 0 ≤ i → 0 ≤ j → 0 ≤ k → (∀ a, parts inv a = one x a + one y a) →
  rep_ok w → (∀ a, store v (RKey.Reputation a) = store w (RKey.Reputation a)) →
  0 ≤ invoice_count v →
  (∀ j, is_Some (store v (RKey.Invoice j)) ↔ 1 ≤ j ≤ invoice_count v) →
  (∀ a, tally v any_status a = tally w any_status a + i * parts inv a ∧
        tally v is_paid a = tally w is_paid a + j * parts inv a ∧
        tally v is_defaulted a = tally w is_defaulted a + k * parts inv a) →
  bump f x v = Done tt w1 → bump f y w1 = Done tt w2 → rep_ok w2.
Proof.
  intros Hf Hi Hj Hk Hp (_ & _ & Hc) Hr Hn Hinv Ht H1 H2.
  assert (counted (tally w any_status) (tally w is_paid) (tally w is_defaulted) v) as Hcv
    by (intros a; unfold reputation_of; rewrite Hr; apply Hc).
  pose proof (bump_parties _ _ _ _ _ _ inv _ _ _ _ _ _ Hf Hi Hj Hk
    (tally_nonneg _ _) (tally_nonneg _ _) (tally_nonneg _ _) Hp Hcv H1 H2) as Hc2.
  assert (∀ k, not_reputation k = true → store w2 k = store v k) as Ek.
  { intros l Hl. by rewrite (bump_other _ _ _ _ _ H2 Hl), (bump_other _ _ _ _ _ H1 Hl). }
  assert (invoice_count w2 = invoice_count v) as En by (unfold invoice_count; by rewrite Ek).
  assert (∀ p a, tally w2 p a = tally v p a) as Et.
  { intros p a. unfold tally. rewrite En. apply zsum_ext. intros l _. unfold part_in. by rewrite Ek. }
  split; [by rewrite En |]. split; [intros l; rewrite Ek, En by done; apply Hinv |].
  eapply counted_ext; [| exact Hc2]. intros a. simpl. rewrite !Et.
  destruct (Ht a) as (-> & -> & ->). done.
Qed.

Lemma event_rep_ok e w : rep_ok w → rep_ok (with_event e w).
Proof. by apply rep_ok_same. Qed.

Lemma submit_rep_ok f p n d r inv w w' :
  submit_invoice f p n d r w = Done inv w' → rep_ok w → rep_ok w'.
Proof.
  intros Hx Hok. pose proof Hok as (Hn & Hi & _).
  unfold submit_invoice, get_config, config_get, read_reputation in Hx. minv Hx; bools.
  apply event_rep_ok.
  match type of Hm with bump _ _ ?v = _ => set (v0 := v) in Hm end.
  assert (invoice_count v0 = invoice_count w + 1) as Ec by (unfold v0, invoice_count; simpl; by sto).
  match goal with x := context [Some (mkInvoice ?a ?b ?c ?d ?e ?f ?g ?h)] |- _ =>
    set (inv := mkInvoice a b c d e f g h) in x end.
  assert (store v0 (RKey.Invoice (invoice_count w + 1)) = Some inv) as Ei
    by (unfold v0, invoice_count; simpl; by sto).
  assert (∀ j, j ≠ invoice_count w + 1 → store v0 (RKey.Invoice j) = store w (RKey.Invoice j)) as Eo
    by (intros j Hj; unfold v0, invoice_count in *; simpl; by sto).
  eapply (recounted _ _ _ _ _ _ inv w v0 _ _ adds_submitted); try done.
  - lia.
  - intros j. rewrite Ec. destruct (decide (j = invoice_count w + 1)) as [-> | Hj].
    + rewrite Ei. split; [lia | done].
    + rewrite Eo, Hi by done. lia.
  - intros a. rewrite !(tally_submit w v0 inv) by done. simpl. repeat split; lia.
Qed.

Lemma close_rep_ok f i j k s inv id w w1 w2 :
  adds f i j k → 0 ≤ i → 0 ≤ j → 0 ≤ k →
  store w (RKey.Invoice id) = Some inv → closed (status inv) = false →
  i = 0 ∧ j = (if is_paid s then 1 else 0) ∧ k = (if is_defaulted s then 1 else 0) →
  bump f (payer inv) (with_store (st_set (store w) (RKey.Invoice id) (Some (set_status s inv))) w)
    = Done tt w1 →
  bump f (freelancer inv) w1 = Done tt w2 → rep_ok w → rep_ok w2.
Proof.
  intros Hf Hi Hj Hk Hs Ho Hijk H1 H2 Hok. pose proof Hok as (Hn & Hinv & _).
  revert H1. set (v0 := with_store _ w). intros H1.
  assert (invoice_count v0 = invoice_count w) as Ec by (unfold v0, invoice_count; simpl; by sto).
  assert (store v0 (RKey.Invoice id) = Some (set_status s inv)) as Ei by (unfold v0; simpl; by sto).
  assert (∀ l, l ≠ id → store v0 (RKey.Invoice l) = store w (RKey.Invoice l)) as Eo
    by (intros l Hl; unfold v0; simpl; by sto).
  assert (1 ≤ id ≤ invoice_count w) as Hid by (apply Hinv; by rewrite Hs).
  eapply (recounted f i j k (payer inv) (freelancer inv) inv w v0); try done.
  - intros a. unfold parts, one. lia.
  - intros l. rewrite Ec. destruct (decide (l = id)) as [-> | Hl]; [rewrite Ei; split; [done | by eexists] |].
    rewrite Eo by done. apply Hinv.
  - intros a. rewrite !(tally_close w v0 id inv s) by done. destruct Hijk as (-> & -> & ->).
    destruct s, (status inv); try done; simpl; repeat split; lia.
Qed.

Lemma mark_paid_rep_ok id w w' : mark_paid id w = Done tt w' → rep_ok w → rep_ok w'.
Proof.
  intros Hx Hok. unfold mark_paid in Hx. minv Hx. apply event_rep_ok.
  by eapply (close_rep_ok add_paid 0 1 0 Paid); [apply adds_paid | ..].
Qed.
Lemma default_rep_ok id w w' : handle_default id w = Done tt w' → rep_ok w → rep_ok w'.
Proof.
  intros Hx Hok. unfold handle_default in Hx. minv Hx. apply event_rep_ok.
  by eapply (close_rep_ok add_defaulted 0 0 1 Defaulted); [apply adds_defaulted | ..].
Qed.

Definition administrative_rep (c : RepCall) : bool :=
  match c with RInit _ | RSetConfig _ | RUpdateConfig _ _ _ _ => true | _ => false end.
Lemma record_frame c : administrative_rep c = true →
  keeps (touches (λ k, negb (record_key k))) (rep_exec c).
Proof.
  intros Hc. destruct c; try done; simpl;
    unfold init, set_config, update_config, config_update, config_set, get_admin, config_get; frame;
    unfold config_set; frame.
Qed.

Lemma rep_step_ok w w' : rep_step w w' → rep_ok w → rep_ok w'.
Proof.
  intros [(c & call & Hx) | [x ->]] Hok; [| by eapply rep_ok_same; [| exact Hok]].
  assert (rep_ok (with_ctx c w)) as Hok' by (by eapply rep_ok_same; [| exact Hok]).
  destruct (administrative_rep call) eqn:Ha.
  - destruct (record_frame _ Ha _ _ _ Hx) as (_ & _ & Ek). eapply rep_ok_same; [| exact Hok'].
    intros k Hk. apply Ek. by rewrite Hk.
  - destruct call; try done; simpl in Hx.
    + apply bind_done in Hx as (i & w1 & Hx & [_ ->]%ret_done). by eapply submit_rep_ok.
    + by eapply mark_paid_rep_ok.
    + by eapply default_rep_ok.
Qed.

Lemma rep_ok_init w : (∀ k, store w k = None) → rep_ok w.
Proof.
  intros Hw. assert (invoice_count w = 0) as Ec by (unfold invoice_count; by rewrite Hw).
  split; [by rewrite Ec |]. split.
  - intros j. rewrite Hw, Ec. split; [by intros [? ?] | lia].
  - intros a. unfold reputation_of, tally. by rewrite Hw, Ec.
Qed.

Lemma rep_ok_run w0 w : (∀ k, store w0 k = None) → rtc rep_step w0 w → rep_ok w.
Proof.
  intros H0%rep_ok_init Hr. induction Hr as [|w1 w2 w3 Hs _ IH]; [done |].
  by eapply IH, rep_step_ok.
Qed.

Lemma zsum_le (f g h : Z → Z) l :
  (∀ j, f j + g j ≤ h j) → zsum (f <$> l) + zsum (g <$> l) ≤ zsum (h <$> l).
Proof. intros He. induction l as [|x l IH]; [done |]. csimpl. specialize (He x). lia. Qed.

Lemma tally_closed w a : tally w is_paid a + tally w is_defaulted a ≤ tally w any_status a.
Proof.
  unfold tally. apply zsum_le. intros j. unfold part_in.
  destruct (store w (RKey.Invoice j)) as [i|]; [| done]. pose proof (parts_nonneg i a).
  unfold is_paid, is_defaulted, any_status. repeat case_bool_decide; try congruence; lia.
Qed.

Lemma paid_percentage_range s p : 0 ≤ s → 0 ≤ p → 0 ≤ paid_percentage s p ≤ 100.
Proof.
  intros Hs Hp. unfold paid_percentage. split; [| lia]. apply Z.min_glb; [| done].
  destruct (chk_u64 (p * 100)) as [v|]; [| done]. simpl.
  apply Z.mod_pos_bound. done.
Qed.

(** C35: reputation counters are exact. From an empty store, through any sequence of calls by
    any callers, an address's submitted, paid and defaulted counters are the numbers of its
    parts in the stored invoices (two for an invoice it issued to itself), of those paid and
    of those defaulted, saturated at [u32::MAX]; paid and defaulted parts never exceed the
    submitted ones; the score is the paid percentage, between 0 and 100; and the invoices
    are exactly those numbered from 1 to the counter. *)
Theorem reputation_exact w0 w a :
  (∀ k, store w0 k = None) → rtc rep_step w0 w →
  let r := reputation_of w a in
  invoices_submitted r = sat_u32 (tally w any_status a) ∧
  invoices_paid r = sat_u32 (tally w is_paid a) ∧
  invoices_defaulted r = sat_u32 (tally w is_defaulted a) ∧
  tally w is_paid a + tally w is_defaulted a ≤ tally w any_status a ∧
  score r = paid_percentage (invoices_submitted r) (invoices_paid r) ∧ 0 ≤ score r ≤ 100 ∧
  ∀ j, is_Some (store w (RKey.Invoice j)) ↔ 1 ≤ j ≤ invoice_count w.
Proof.
  intros H0 Hr r. destruct (rep_ok_run _ _ H0 Hr) as (_ & Hi & Hc). unfold r. rewrite Hc. simpl.
  assert (∀ n, 0 ≤ n → 0 ≤ sat_u32 n) as Hs by (intros n Hn; assert (0 ≤ u32_max) by done;
    unfold sat; lia).
  split; [done |]. split; [done |]. split; [done |]. split; [apply tally_closed |].
  split; [done |]. split; [| done].
  apply paid_percentage_range; apply Hs, tally_nonneg.
Qed.

(** ** The life of an invoice *)
(** [i'] is [i], or [i] closed. *)
Definition progressed (i i' : Invoice) : Prop :=
  i' = i ∨ closed (status i) = false ∧ ∃ s, closed s = true ∧ i' = set_status s i.
Lemma progressed_trans i1 i2 i3 : progressed i1 i2 → progressed i2 i3 → progressed i1 i3.
Proof.
  intros [-> | (H1 & s & Hs & ->)]; [done |]. intros [-> | (H2 & t & Ht & ->)].
  - right. split; [done |]. by exists s.
  - simpl in H2. congruence.
Qed.

Lemma close_progress f s inv id j i w w1 w2 :
  closed s = true → store w (RKey.Invoice id) = Some inv → closed (status inv) = false →
  bump f (payer inv) (with_store (st_set (store w) (RKey.Invoice id) (Some (set_status s inv))) w)
    = Done tt w1 →
  bump f (freelancer inv) w1 = Done tt w2 → store w (RKey.Invoice j) = Some i →
  ∃ i', store w2 (RKey.Invoice j) = Some i' ∧ progressed i i'.
Proof.
  intros Hs Hi Ho H1 H2 Hj. rewrite (bump_other _ _ _ _ _ H2), (bump_other _ _ _ _ _ H1) by done.
  simpl. destruct (decide (j = id)) as [-> | Hne].
  - rewrite st_set_eq. rewrite Hi in Hj. simplify_eq. eexists. split; [done |]. right. eauto.
  - rewrite st_set_ne by congruence. exists i. split; [done | by left].
Qed.

Lemma step_progress w w' j i :
  rep_ok w → rep_step w w' → store w (RKey.Invoice j) = Some i →
  ∃ i', store w' (RKey.Invoice j) = Some i' ∧ progressed i i'.
Proof.
  intros (_ & Hids & _) [(c & call & Hx) | [x ->]] Hj; [| by exists i; split; [| left]].
  destruct (administrative_rep call) eqn:Ha.
  { destruct (record_frame _ Ha _ _ _ Hx) as (_ & _ & Ek). exists i. split; [| by left].
    rewrite <- Hj. by apply (Ek (RKey.Invoice j)). }
  assert (1 ≤ j ≤ invoice_count w) as Hr by (apply Hids; by eexists).
  destruct call as [| | | f p n d r | k | k]; try done; simpl in Hx.
  - apply bind_done in Hx as (v & w1 & Hx & [_ ->]%ret_done).
    unfold submit_invoice, get_config, config_get, read_reputation in Hx. minv Hx; bools.
    exists i. split; [| by left].
    rewrite (bump_other _ _ _ _ _ Hm0), (bump_other _ _ _ _ _ Hm) by done. simpl.
    unfold invoice_count in Hr. simpl in Hr.
    rewrite !st_set_ne; [done | done | intros E; injection E as E; simpl in *; lia].
  - unfold mark_paid in Hx. minv Hx.
    exact (close_progress _ Paid _ _ _ _ (with_ctx c w) _ _ eq_refl H H0 Hm Hm0 Hj).
  - unfold handle_default in Hx. minv Hx.
    exact (close_progress _ Defaulted _ _ _ _ (with_ctx c w) _ _ eq_refl H H0 Hm Hm0 Hj).
Qed.

(** An invoice closes at most once. From an empty store on, whatever is called by whom, a
    stored invoice stays stored with its parties, amount, due date and both rates; its status
    only ever moves from pending (or funded) to paid or defaulted, and a paid or defaulted
    invoice never changes again. *)
Theorem invoice_closes_once w0 w w' j i :
  (∀ k, store w0 k = None) → rtc rep_step w0 w → rtc rep_step w w' →
  store w (RKey.Invoice j) = Some i →
  ∃ i', store w' (RKey.Invoice j) = Some i' ∧ progressed i i'.
Proof.
  intros H0 H1 H2. revert i. pose proof (rep_ok_run _ _ H0 H1) as Hok. clear H1.
  induction H2 as [w | w w1 w2 Hs _ IH]; intros i Hi.
  - exists i. split; [done | by left].
  - destruct (step_progress _ _ _ _ Hok Hs Hi) as (i1 & Hi1 & Hp).
    destruct (IH (rep_step_ok _ _ Hs Hok) i1 Hi1) as (i2 & Hi2 & Hp2).
    exists i2. split; [done | by eapply progressed_trans].
Qed.
End reputation.

(** * A concrete history *)
Module RepWitness.
Definition admin : Address := 60%N.
Definition ann : Address := 61%N.
Definition ben : Address := 62%N.

Abbreviation W := (world DataKey unit RepEvent).
Definition signed : Ctx := mkCtx (λ _, true) 1000 200.
Definition empty : W := mkWorld 63%N signed st_empty tt [].

Fixpoint play (s : list RepCall) (w : W) : option W :=
  match s with
  | [] => Some w
  | c :: s => match rep_exec c (with_ctx signed w) with Done _ w' => play s w' | Fault _ => None end
  end.

Lemma rep_play_run s w w' : play s w = Some w' → rtc rep_step w w'.
Proof.
  revert w. induction s as [|c s IH]; intros w Hp; simpl in Hp; [by simplify_eq |].
  destruct (rep_exec c _) as [[] w1|] eqn:Hx; [| done].
  eapply rtc_l; [left; exists signed, c; exact Hx | by apply IH].
Qed.

(** Ann invoices Ben twice and herself once; Ben pays one, the other defaults. *)
Definition history : list RepCall :=
  [ RInit admin; RSetConfig (mkConfig 50 200 100); RSubmit ann ben 500 9000 300;
    RSubmit ann ben 700 9000 300; RMarkPaid 1; RSubmit ann ann 40 9000 300; RDefault 2 ].
Definition after : W := default empty (play history empty).

Lemma reputation_exact_witness :
  reputation_of after ann = mkScore 4 1 1 25 ∧ reputation_of after ben = mkScore 2 1 1 50 ∧
  invoices_submitted (reputation_of after ann) = sat_u32 (tally after any_status ann).
Proof.
  split; [vm_compute; reflexivity |]. split; [vm_compute; reflexivity |].
  apply (reputation_exact empty after ann (λ _, eq_refl)).
  apply (rep_play_run history). vm_compute. reflexivity.
Defined.

Lemma invoice_closes_once_witness :
  store after (RKey.Invoice 1) = Some (mkInvoice 1 ann ben 500 9000 300 300 Paid) ∧
  ∃ i', store after (RKey.Invoice 1) = Some i' ∧
    progressed (mkInvoice 1 ann ben 500 9000 300 300 Pending) i'.
Proof.
  split; [vm_compute; reflexivity |].
  apply (invoice_closes_once empty (default empty (play (take 3 history) empty)) after).
  - intros k. reflexivity.
  - apply (rep_play_run (take 3 history)). vm_compute. reflexivity.
  - apply (rep_play_run (drop 3 history)). vm_compute. reflexivity.
  - vm_compute. reflexivity.
Defined.

(** Ben's score of 50 reaches the threshold and earns the discount; Ann's 25 does not. *)
Example score_earns_discount :
  (∃ w, submit_invoice ann ben 500 9000 300 (with_ctx signed after)
     = Done (mkInvoice 4 ann ben 500 9000 300 300 Pending) w) ∧
  ∃ w, submit_invoice ben ann 500 9000 300 (with_ctx signed after)
     = Done (mkInvoice 4 ben ann 500 9000 300 100 Pending) w.
Proof. split; eexists; vm_compute; reflexivity. Qed.
End RepWitness.
