(* ===== verification/TwapProps.v ===== *)
(** Properties of [Twap.v]: the windowed average is the average of the clipped segments and
    lies between the extreme prices; the stand-alone accumulator never starts. *)
From stdpp Require Import numbers list.
From S2P Require Import Prelude Host Twap.

(** * The windowed average *)

(** The reference: adjacent samples, each pair with its mean price and the time it covers
    inside the window. *)
Fixpoint segments (samples : list TwapSample) (window_start current_time : Z) : list (Z * Z) :=
  match samples with
  | s1 :: ((s2 :: _) as rest) =>
      let d := Z.min (sm_timestamp s2) current_time - Z.max (sm_timestamp s1) window_start in
      (if 0 <? d then [((sm_price s1 + sm_price s2) / 2, d)] else []) ++
      segments rest window_start current_time
  | _ => []
  end.
Definition weights (l : list (Z * Z)) : Z := zsum (snd <$> l).
Definition weighted (l : list (Z * Z)) : Z := zsum ((λ s, s.1 * s.2) <$> l).

(** Samples in the order they were taken. *)
Fixpoint in_order (samples : list TwapSample) : bool :=
  match samples with
  | s1 :: ((s2 :: _) as rest) => (sm_timestamp s1 <=? sm_timestamp s2) && in_order rest
  | _ => true
  end.

Definition plus_sums (acc : Z * Z) (l : list (Z * Z)) : Z * Z :=
  (acc.1 + weighted l, acc.2 + weights l).

Section average.
Context (ws ct lo hi : Z).
Hypothesis window : 0 ≤ ws < ct ∧ ct ≤ u64_max.
Hypothesis low : 0 ≤ lo.
Hypothesis fits : 2 * hi ≤ i128_max ∧ hi * (ct - ws) ≤ i128_max.

Definition priced (s : TwapSample) : Prop := lo ≤ sm_price s ≤ hi.
(** The part of the window that lies before [t]. *)
Definition elapsed (t : Z) : Z := Z.max 0 (Z.min t ct - ws).

(** The running totals when the samples up to one at time [t] are integrated. *)
Definition totals_ok (acc : Z * Z) (t : Z) : Prop :=
  0 ≤ acc.2 ≤ elapsed t ∧ lo * acc.2 ≤ acc.1 ≤ hi * acc.2.

Lemma mean_range a b : lo ≤ a ≤ hi → lo ≤ b ≤ hi → lo ≤ (a + b) / 2 ≤ hi.
Proof.
  intros Ha Hb. split; [apply Z.div_le_lower_bound; lia |].
  assert ((a + b) / 2 < hi + 1) by (apply Z.div_lt_upper_bound; lia). lia.
Qed.

Lemma segment_sums s1 s2 acc :
  priced s1 → priced s2 → sm_timestamp s1 ≤ sm_timestamp s2 → totals_ok acc (sm_timestamp s1) →
  twap_segment s1 s2 ws ct acc = Some (plus_sums acc (segments [s1; s2] ws ct)) ∧
  totals_ok (plus_sums acc (segments [s1; s2] ws ct)) (sm_timestamp s2).
Proof.
  unfold priced, totals_ok, elapsed. intros H1 H2 Ht (Hw & Ha).
  unfold twap_segment, overlap, plus_sums, weighted, weights. simpl. rewrite app_nil_r.
  destruct acc as [A V]. simpl in *.
  set (d := Z.min (sm_timestamp s2) ct - Z.max (sm_timestamp s1) ws).
  destruct (Z.ltb_spec 0 d) as [Hd | Hd]; simpl.
  - replace (sm_timestamp s2 <? ws) with false by (symmetry; apply Z.ltb_ge; lia).
    replace (ct <? sm_timestamp s1) with false by (symmetry; apply Z.ltb_ge; lia). simpl.
    rewrite (proj2 (Z.ltb_lt _ _)) by lia. simpl.
    assert (i128_min ≤ 0) by done. pose proof (mean_range _ _ H1 H2) as Hm.
    unfold checked. rewrite (proj2 (in_i128_spec _)) by lia. simpl.
    rewrite Z.quot_div_nonneg by lia. set (m := (sm_price s1 + sm_price s2) / 2) in *.
    assert (V + d ≤ ct - ws) by lia. assert (0 ≤ m * d ≤ hi * d) by nia.
    assert (hi * (V + d) ≤ i128_max) by nia.
    fold d. assert (lo * d ≤ m * d) by nia.
    assert (V + d ≤ Z.max 0 (Z.min (sm_timestamp s2) ct - ws)) by lia.
    clearbody d m. rewrite (sat_id _ _ (m * d)) by nia. rewrite !sat_id by nia. rewrite !Z.add_0_r.
    split; [done |]. split; [lia | nia].
  - rewrite !Z.add_0_r. assert ((sm_timestamp s2 <? ws) = true ∨ (ct <? sm_timestamp s1) = true ∨
      (Z.max (sm_timestamp s1) ws <? Z.min (sm_timestamp s2) ct) = false) as Hs
      by (rewrite !Z.ltb_lt, Z.ltb_ge; lia).
    split; [| lia].
    destruct (_ <? ws), (ct <? _), (Z.max _ _ <? _); simpl; try done; naive_solver.
Qed.

Lemma plus_sums_app acc l k : plus_sums acc (l ++ k) = plus_sums (plus_sums acc l) k.
Proof.
  unfold plus_sums, weighted, weights. rewrite !fmap_app, !zsum_app. simpl. f_equal; lia.
Qed.
Lemma segments_cons s1 s2 l :
  segments (s1 :: s2 :: l) ws ct = segments [s1; s2] ws ct ++ segments (s2 :: l) ws ct.
Proof. simpl. by rewrite app_nil_r. Qed.

Lemma loop_sums l s acc :
  Forall priced (s :: l) → in_order (s :: l) = true → totals_ok acc (sm_timestamp s) →
  twap_loop (s :: l) ws ct acc = Some (plus_sums acc (segments (s :: l) ws ct)) ∧
  ∃ t, totals_ok (plus_sums acc (segments (s :: l) ws ct)) t.
Proof.
  revert s acc. induction l as [|s2 l IH]; intros s acc Hp Ho Hacc.
  - unfold plus_sums, weighted, weights. simpl. rewrite !Z.add_0_r.
    destruct acc. split; [done | by eexists].
  - apply Forall_cons_iff in Hp as [Hs Hp]. simpl in Ho. apply andb_true_iff in Ho as [Ht Ho].
    pose proof (Forall_inv Hp) as Hs2. apply Z.leb_le in Ht.
    destruct (segment_sums s s2 acc Hs Hs2 Ht Hacc) as [He Hok].
    rewrite segments_cons, plus_sums_app.
    simpl twap_loop. rewrite He. simpl.
    exact (IH s2 _ Hp Ho Hok).
Qed.

Lemma first_totals t : totals_ok (0, 0) t.
Proof. unfold totals_ok, elapsed. simpl. lia. Qed.

Lemma segments_positive l : Forall (λ g, 0 < g.2) (segments l ws ct).
Proof.
  induction l as [|s1 [|s2 l] IH]; [constructor.. |]. rewrite segments_cons.
  apply Forall_app. split; [| exact IH]. simpl. rewrite app_nil_r.
  destruct (Z.ltb_spec 0 (Z.min (sm_timestamp s2) ct - Z.max (sm_timestamp s1) ws)); [| constructor].
  by repeat constructor.
Qed.

Lemma weights_positive l : (0 <? weights (segments l ws ct)) = negb (bool_decide (segments l ws ct = [])).
Proof.
  pose proof (segments_positive l) as Hp. unfold weights. induction Hp as [|g gs Hg Hgs IH]; [done |].
  rewrite bool_decide_eq_false_2 by done. csimpl. simpl in Hg. apply Z.ltb_lt.
  assert (0 ≤ zsum (snd <$> gs)); [| lia]. apply zsum_nonneg.
  apply Forall_fmap. eapply Forall_impl; [| exact Hgs]. intros x Hx. simpl in *. lia.
Qed.

(** C37: the windowed average is the average over the window, and no price outside the
    observed range can come out of it. For samples in time order with prices between
    [lo] and [hi], small enough for the products to fit [i128], [twap_average] never traps;
    it answers [None] exactly when no adjacent pair overlaps the window, and otherwise the
    mean of the pair averages weighted by the time they cover, which lies between [lo] and
    [hi]. *)
Theorem twap_within_range samples :
  Forall priced samples → in_order samples = true →
  let g := segments samples ws ct in
  twap_average samples ws ct = Some (if bool_decide (g = []) then None
                                     else Some (weighted g ÷ weights g)) ∧
  ∀ avg, twap_average samples ws ct = Some (Some avg) → lo ≤ avg ≤ hi.
Proof.
  intros Hp Ho g. destruct samples as [|s l].
  { unfold g. split; [done |]. intros avg. unfold twap_average. simpl. done. }
  destruct (loop_sums l s (0, 0) Hp Ho (first_totals _)) as (Hl & t & (Hw & Ha)).
  pose proof (weights_positive (s :: l)) as Hpos. fold g in Hl, Hw, Ha, Hpos.
  assert (twap_average (s :: l) ws ct = Some (if bool_decide (g = []) then None
                                     else Some (weighted g ÷ weights g))) as He.
  { unfold twap_average. replace (ct <=? ws) with false by (symmetry; apply Z.leb_gt; lia).
    rewrite orb_false_r. destruct (Z.ltb_spec (vlen (s :: l)) 2) as [Hlen | Hlen].
    - destruct l as [|s2 l]; [done |]. unfold vlen in Hlen. simpl in Hlen. lia.
    - rewrite Hl. unfold plus_sums. cbn [mbind option_bind fst snd]. rewrite !Z.add_0_l, Hpos.
      by destruct (bool_decide (g = [])). }
  split; [exact He |]. intros avg. rewrite He. destruct (bool_decide (g = [])); [done |]. apply Z.ltb_lt in Hpos.
  intros [= <-]. simpl in Hw, Ha. rewrite Z.quot_div_nonneg by nia.
  split; [apply Z.div_le_lower_bound; lia |].
  assert (weighted g / weights g < hi + 1) by (apply Z.div_lt_upper_bound; lia). lia.
Qed.
End average.

(** * The accumulator of [twap_accumulator.rs] *)
Import Accumulator.

Section accumulator.
Context {X Ev : Type}.
Abbreviation W := (world DataKeyTWAP X Ev).
Implicit Types w : W.

(** One call of [record_observation], by anyone at any time; the rest of the chain moves. *)
Definition observe_step w w' : Prop :=
  (∃ c token price t seq s, record_observation token price t seq (with_ctx c w) = Done s w') ∨
  (∃ x, w' = with_ext x w).

(** The first observation of a token is always refused: the fresh state's last update is the
    observation's own time, which never lies a minute in the past. *)
Lemma first_observation_refused token price t seq w s w' :
  store w (State token) = None → record_observation token price t seq w = Done s w' → False.
Proof.
  intros Hs Hx. unfold record_observation, get_twap_state, set_twap_state in Hx. minv Hx.
  rewrite Hs in *. simpl in *. bools. unfold MIN_OBSERVATION_INTERVAL_SECS in *. lia.
Qed.

(** From a fresh contract no observation is ever recorded, and the average stays 0. *)
Theorem accumulator_never_starts w0 w token lookback :
  (∀ t, store w0 (State t) = None) → rtc observe_step w0 w →
  store w (State token) = None ∧ get_twap token lookback w = Done 0 w.
Proof.
  intros H0 Hr. assert (∀ t, store w (State t) = None) as Hn.
  { induction Hr as [|w1 w2 w3 Hs _ IH]; [done |]. apply IH. intros t.
    destruct Hs as [(c & tk & p & ts & seq & s & Hx) | [x ->]]; [| by apply H0].
    exfalso. eapply first_observation_refused; [| exact Hx]. apply H0. }
  split; [apply Hn |]. unfold get_twap, get_twap_state, get, reads. simpl.
  unfold mbind, M_bind. by rewrite Hn.
Qed.

(** The accumulated price never turns negative, wherever the state came from. *)
Lemma accumulate_nonneg s price t seq :
  0 ≤ accumulated_price s → 0 ≤ price → 0 ≤ accumulated_price (accumulate s price t seq).
Proof.
  intros Hs Hp. unfold accumulate. simpl. set (d := sat_u64 _).
  assert (0 ≤ d) by (apply (sat_range 0 u64_max); done).
  assert (i128_min ≤ 0 ≤ i128_max) by done. unfold sat. nia.
Qed.
End accumulator.

(** * The documented spike *)
Module TwapWitness.
(** An hour at 10.00, five seconds at 20.00. *)
Definition spike : list TwapSample :=
  [mkSample 0 10000; mkSample 3600 10000; mkSample 3605 20000; mkSample 3610 10000].

Lemma twap_within_range_witness :
  twap_average spike 0 3610 = Some (Some 10013) ∧ 10000 ≤ 10013 ≤ 20000.
Proof.
  split; [vm_compute; reflexivity |].
  destruct (twap_within_range 0 3610 10000 20000) with (samples := spike) as [_ Hr].
  - repeat split; vm_compute; congruence.
  - vm_compute. congruence.
  - split; vm_compute; congruence.
  - repeat constructor; vm_compute; congruence.
  - reflexivity.
  - apply Hr. vm_compute. reflexivity.
Defined.
End TwapWitness.
