(* ===== verification/PricingProps.v ===== *)
(** Properties of the price reads ([Pricing.v]): the in-place sort, where the median can lie,
    what an honest majority of price sources guarantees, and the recorded samples behind the
    windowed average. *)
From stdpp Require Import numbers list sorting.
From S2P Require Import Prelude Host Peers Twap CoreTypes TopPayers CoreStore Access TokenSafety.
From S2P Require Import Nft OracleRegistry Pricing ConfigRs Admin Lifecycle Queue Multisig Frames.
From S2P Require Import CoreSpecs Edits System Invariants Footprint TwapProps Scenario.

(** * The insertion sort *)
Abbreviation ascending := (StronglySorted Z.le).

Lemma ascending_snoc l x : ascending l → Forall (λ y, y ≤ x) l → ascending (l ++ [x]).
Proof.
  induction 1 as [|y l Hl IH Hy]; intros Hx; simpl; [by repeat constructor |].
  apply Forall_cons_iff in Hx as [Hyx Hx]. constructor; [by apply IH |].
  apply Forall_app. split; [done | by repeat constructor].
Qed.

Lemma ascending_snoc_inv l x : ascending (l ++ [x]) → ascending l ∧ Forall (λ y, y ≤ x) l.
Proof.
  induction l as [|y l IH]; simpl; [by repeat constructor |]. intros Hs.
  apply StronglySorted_inv in Hs as [Hs Hy]. destruct (IH Hs) as [Hl Hx].
  apply Forall_app in Hy as [Hy Hyx]. apply Forall_cons_iff in Hyx as [Hyx _].
  split; by constructor.
Qed.

(** [key] finds its place among the sorted [pre]; [hole] is overwritten. *)
Lemma shift_up_spec pre hole post key :
  ascending pre →
  ∃ ins, shift_up (length pre) key (pre ++ hole :: post) = Some (ins ++ post) ∧
    ins ≡ₚ key :: pre ∧ ascending ins.
Proof.
  revert hole post. induction pre as [|p pre IH] using rev_ind; intros hole post Hs.
  { exists [key]. by repeat constructor. }
  apply ascending_snoc_inv in Hs as [Hs Hp]. rewrite length_app. simpl.
  replace (length pre + 1)%nat with (S (length pre)) by lia. simpl.
  rewrite <- app_assoc. simpl. rewrite list_lookup_middle by done. simpl.
  destruct (Z.ltb_spec key p) as [Hlt | Hge].
  - destruct (IH p (p :: post) Hs) as (ins & He & Hins & Ha).
    exists (ins ++ [p]). rewrite insert_app_r_alt by lia.
    replace (S (length pre) - length pre)%nat with 1%nat by lia. simpl.
    rewrite He, <- app_assoc. split; [done |]. split.
    + by rewrite Hins.
    + apply ascending_snoc; [done |]. rewrite Hins. constructor; [lia | done].
  - exists ((pre ++ [p]) ++ [key]). rewrite insert_app_r_alt by lia.
    replace (S (length pre) - length pre)%nat with 1%nat by lia. simpl.
    rewrite <- !app_assoc. split; [done |]. split; [by rewrite app_assoc, Permutation_app_comm |].
    rewrite app_assoc. apply ascending_snoc; [by apply ascending_snoc |].
    apply Forall_app. split; [| by repeat constructor].
    eapply Forall_impl; [| exact Hp]. intros y Hy. simpl in Hy. lia.
Qed.

Lemma insertion_loop_spec rest pre :
  ascending pre →
  ∃ s, insertion_loop (seq (length pre) (length rest)) (pre ++ rest) = Some s ∧
    s ≡ₚ pre ++ rest ∧ ascending s.
Proof.
  revert pre. induction rest as [|x rest IH]; intros pre Hs; simpl.
  { exists pre. by rewrite app_nil_r. }
  rewrite list_lookup_middle by done. simpl.
  destruct (shift_up_spec pre x rest x Hs) as (ins & -> & Hins & Ha). simpl.
  destruct (IH ins Ha) as (s & He & Hp & Hsa).
  rewrite (Permutation_length Hins) in He. exists s. split; [exact He |]. split; [| done].
  rewrite Hp, Hins. simpl. by rewrite Permutation_middle.
Qed.

(** The loop sorts every input. *)
Lemma insertion_sorts l :
  ∃ s, insertion_loop (seq 1 (length l - 1)) l = Some s ∧ s ≡ₚ l ∧ ascending s.
Proof.
  destruct l as [|x l]; [exists []; by repeat constructor |]. simpl. rewrite Nat.sub_0_r.
  apply (insertion_loop_spec l [x]). by repeat constructor.
Qed.

(** * Where the median lies *)
Definition within (lo hi p : Z) : Prop := lo ≤ p ≤ hi.
#[export] Instance within_dec lo hi p : Decision (within lo hi p).
Proof. unfold within. apply _. Defined.
Definition honest (lo hi : Z) (l : list Z) : nat := length (filter (within lo hi) l).

Lemma honest_app lo hi l k : honest lo hi (l ++ k) = (honest lo hi l + honest lo hi k)%nat.
Proof. unfold honest. by rewrite list.filter_app, length_app. Qed.
Lemma honest_le lo hi l : (honest lo hi l ≤ length l)%nat.
Proof. apply length_filter. Qed.
Lemma honest_perm lo hi l k : l ≡ₚ k → honest lo hi l = honest lo hi k.
Proof. intros Hp. unfold honest. by rewrite Hp. Qed.
Lemma honest_none lo hi l : Forall (λ p, ¬ within lo hi p) l → honest lo hi l = 0%nat.
Proof.
  unfold honest. induction 1 as [|x l Hx Hl IH]; [done |]. by rewrite filter_cons_False.
Qed.

Lemma ascending_split l k x :
  ascending l → l !! k = Some x →
  Forall (λ y, y ≤ x) (take k l) ∧ Forall (λ y, x ≤ y) (drop k l).
Proof.
  intros Hs. revert k. induction Hs as [|y l Hl IH Hy]; intros k Hk; [done |].
  destruct k as [|k]; simpl in *.
  - simplify_eq. split; [constructor |]. by constructor.
  - destruct (IH k Hk) as [H1 H2]. split; [| done]. constructor; [| done].
    rewrite Stdlib.Lists.List.Forall_forall in Hy. apply Hy.
    by apply list_elem_of_In, (list_elem_of_lookup_2 _ k).
Qed.

(** An element of a sorted list with fewer than [honest] entries on either side is honest. *)
Lemma ranked_within lo hi l k x :
  ascending l → l !! k = Some x → (k < honest lo hi l)%nat →
  (length l ≤ honest lo hi l + k)%nat → within lo hi x.
Proof.
  intros Hs Hk H1 H2. destruct (ascending_split _ _ _ Hs Hk) as [Ht Hd].
  pose proof (take_drop k l) as Hl. pose proof (lookup_lt_Some _ _ _ Hk) as Hlen.
  assert (honest lo hi l = honest lo hi (take k l) + honest lo hi (drop k l))%nat as Hh
    by (rewrite <- honest_app, Hl; done).
  pose proof (honest_le lo hi (take k l)) as Hlt. rewrite length_take in Hlt.
  destruct (decide (within lo hi x)) as [|Hn]; [done |]. exfalso. unfold within in Hn.
  destruct (decide (x < lo)) as [Hx | Hx].
  - rewrite (honest_none lo hi (take k l)) in Hh
      by (eapply Forall_impl; [| exact Ht]; unfold within; simpl; lia).
    rewrite (drop_S _ _ _ Hk) in Hh. unfold honest at 2 in Hh.
    rewrite filter_cons_False in Hh by (unfold within; lia). fold (honest lo hi (drop (S k) l)) in Hh.
    pose proof (honest_le lo hi (drop (S k) l)) as Hld. rewrite length_drop in Hld. lia.
  - rewrite (honest_none lo hi (drop k l)) in Hh
      by (eapply Forall_impl; [| exact Hd]; unfold within; simpl; lia).
    lia.
Qed.

(** The median of a list whose majority lies in a range lies in it: a minority cannot move it
    outside. *)
Lemma median_within lo hi l :
  0 ≤ lo → 2 * hi ≤ i128_max → (length l < 2 * honest lo hi l)%nat →
  ∃ m, median l = Some m ∧ within lo hi m.
Proof.
  intros Hlo Hhi Hmaj. destruct (insertion_sorts l) as (s & He & Hp & Hs).
  unfold median. rewrite He. cbn [mbind option_bind].
  rewrite <- (Permutation_length Hp) in Hmaj |- *. rewrite <- (honest_perm _ _ _ _ Hp) in Hmaj.
  pose proof (honest_le lo hi s) as Hle. set (h := honest lo hi s) in *. set (n := length s) in *.
  assert (∀ k, (k < h)%nat → (n ≤ h + k)%nat → ∃ x, s !! k = Some x ∧ within lo hi x) as Hr.
  { intros k H1 H2. destruct (lookup_lt_is_Some_2 s k) as [x Hx]; [fold n; lia |].
    exists x. split; [done |]. by eapply ranked_within. }
  pose proof (Nat.div_mod n 2 ltac:(lia)) as Hdm.
  pose proof (Nat.mod_upper_bound n 2 ltac:(lia)) as Hmod.
  destruct (Nat.eqb_spec (n mod 2) 1) as [Hodd | Heven].
  - destruct (Hr (n / 2)%nat) as (x & -> & Hx); [lia.. |]. by exists x.
  - destruct (Hr (n / 2 - 1)%nat) as (x & -> & Hx); [lia.. |].
    destruct (Hr (n / 2)%nat) as (y & -> & Hy); [lia.. |]. cbn [mbind option_bind]. unfold within in *.
    assert (i128_min ≤ 0) by done.
    unfold checked. rewrite (proj2 (in_i128_spec _)) by lia. cbn [mbind option_bind].
    eexists. split; [done |]. rewrite Z.quot_div_nonneg by lia.
    split; [apply Z.div_le_lower_bound; lia |].
    assert ((x + y) / 2 < hi + 1) by (apply Z.div_lt_upper_bound; lia). lia.
Qed.

(** * The deviation filter *)
Definition passes (m d p : Z) : bool :=
  match deviation_bps p m with Some dev => dev <=? d | None => false end.
Definition sane (p : Z) : Prop := 0 ≤ p ≤ i128_max.

Lemma chk_i128_in z : i128_min ≤ z ≤ i128_max → chk_i128 z = Some z.
Proof. intros Hz. unfold checked. by rewrite (proj2 (in_i128_spec z)) by done. Qed.

Lemma deviation_defined p m :
  sane p → 0 < m ≤ i128_max →
  deviation_bps p m = Some (sat_u32 (sat_i128 (Z.abs (p - m) * 10000) ÷ m)).
Proof.
  intros Hp Hm. unfold sane in Hp. assert (i128_min = - i128_max - 1) by done.
  unfold deviation_bps. replace (m =? 0) with false by (symmetry; apply Z.eqb_neq; lia).
  do 3 (rewrite chk_i128_in by lia; cbn [mbind option_bind]).
  by rewrite (Z.abs_eq m) by lia.
Qed.

Lemma honest_passes lo hi m d p :
  0 < lo → hi ≤ i128_max → 0 ≤ d → (hi - lo) * 10000 ≤ d * lo →
  within lo hi m → within lo hi p → passes m d p = true.
Proof.
  unfold within. intros Hlo Hhi Hd Hs Hm Hp. unfold passes.
  rewrite deviation_defined by (unfold sane; lia).
  apply Z.leb_le. assert (0 ≤ Z.abs (p - m) * 10000 ≤ d * m) as Hb by nia.
  assert (i128_min ≤ 0 ≤ i128_max) by done. assert (0 ≤ u32_max) by done.
  set (x := sat_i128 _). assert (0 ≤ x ≤ d * m) as Hx by (unfold x, sat; lia).
  rewrite Z.quot_div_nonneg by lia. assert (x / m ≤ d) by (apply Z.div_le_upper_bound; lia).
  assert (0 ≤ x / m) by (apply Z.div_pos; lia). unfold sat. lia.
Qed.

Section reads.
Context {X : Type} `{Peers X}.
Abbreviation W := (world DataKey X Event).
Abbreviation IO := (M W ContractError).
Implicit Types w : W.

Definition no_entry (k : DataKey) : bool := false.

Lemma keep_survivors_spec f t m d answers w :
  0 < m ≤ i128_max → Forall sane answers.*2 →
  ∃ w', (keep_survivors f t m d answers : IO _) w
    = Done (filter (λ p, passes m d p = true) answers.*2) w'.
Proof.
  intros Hm. revert w. induction answers as [|[o p] l IH]; intros w Hs; [by eexists |].
  csimpl in Hs. apply Forall_cons_iff in Hs as [Hp Hs]. csimpl.
  pose proof (deviation_defined p m Hp Hm) as Hd. set (dev := sat_u32 _) in Hd.
  assert (passes m d p = (dev <=? d)) as Epass by (unfold passes; by rewrite Hd).
  rewrite Hd. destruct (Z.ltb_spec d dev) as [Hlt | Hge].
  - rewrite filter_cons_False by (rewrite Epass, Z.leb_le; lia).
    destruct (IH (with_event (Ev.PriceOutlierRejected f t o p m dev) w) Hs) as [w' Hw'].
    exists w'. go_by ltac:(reflexivity). rewrite (proj2 (Z.ltb_lt _ _)) by lia.
    go_by ltac:(reflexivity). exact Hw'.
  - rewrite filter_cons_True by (rewrite Epass, Z.leb_le; lia).
    destruct (IH w Hs) as [w' Hw']. exists w'. go_by ltac:(reflexivity).
    rewrite (proj2 (Z.ltb_ge _ _)) by lia. go_by ltac:(exact Hw'). done.
Qed.

(** Why a price read of a healthy feed without averaging goes to the sources. *)
Definition spot_feed (f : OracleFeedType) (t : Address) w : Prop :=
  store w (Key.OracleCircuitTripped f t) ≠ Some true ∧
  (∀ h, store w (Key.OracleHealth f t) = Some h → oh_is_stale h = false) ∧
  store w (Key.TwapEnabled f) ≠ Some true.

Lemma verified_is_spot f t w :
  spot_feed f t w → (get_verified_price f t : IO Z) w = spot_price f t w.
Proof.
  intros (Hc & Hh & Ht). unfold get_verified_price, require_healthy_price_feed, price_feed_fault,
    is_oracle_circuit_tripped, get_oracle_health, is_twap_enabled, get_or, get, reads.
  unfold mbind, M_bind. simpl.
  destruct (store w (Key.OracleCircuitTripped f t)) as [[]|]; [done | |]; simpl;
    (destruct (store w (Key.OracleHealth f t)) as [h|]; simpl; [rewrite (Hh h) by done; simpl |]);
    destruct (store w (Key.TwapEnabled f)) as [[]|]; done.
Qed.

Lemma query_sources_store os t w answers w1 :
  query_sources os t w = Done answers w1 → store w1 = store w.
Proof.
  assert (PreOrder (λ w w' : W, store w' = store w)) as HR
    by (split; [intros ?; done | intros ??? E1 E2; by rewrite E2]).
  apply (query_sources_keeps (λ w w', store w' = store w)).
  intros o t' w2 a w3 [(? & ? & _ & _ & ->) | (_ & _ & ->)]%try_invoke_done; done.
Qed.

Lemma survivors_majority lo hi m d l :
  (∀ p, within lo hi p → passes m d p = true) → (length l < 2 * honest lo hi l)%nat →
  let s := filter (λ p, passes m d p = true) l in
  (length s < 2 * honest lo hi s)%nat ∧ s ≠ [].
Proof.
  intros Hp Hl s. assert (honest lo hi s = honest lo hi l) as E.
  { unfold s, honest. clear Hl s. induction l as [|x l IH]; [done |].
    destruct (decide (within lo hi x)) as [Hx | Hx].
    - rewrite (filter_cons_True _ x l Hx), (filter_cons_True _ x l (Hp x Hx)), filter_cons_True by done.
      simpl. by rewrite IH.
    - rewrite (filter_cons_False _ x l Hx). rewrite <- IH.
      destruct (decide (passes m d x = true)) as [Hy | Hy].
      + by rewrite filter_cons_True, filter_cons_False by done.
      + by rewrite (filter_cons_False _ x l Hy). }
  assert (length s ≤ length l)%nat by apply length_filter. rewrite E. split; [lia |].
  intros Es. rewrite Es in E. unfold honest at 1 in E. simpl in E. lia.
Qed.

(** C38: a minority of price sources can neither move the price nor block it. When a feed is
    healthy and reads spot prices, more than half of the sources that answer report prices in
    [lo, hi], that range is narrow enough for the configured deviation, and the others answer
    any non-negative numbers, [get_verified_price] succeeds with a price in [lo, hi]. *)
Theorem honest_majority_price f t w answers w1 lo hi :
  spot_feed f t w →
  query_sources (default [] (store w (Key.PriceSources f))) t w = Done answers w1 →
  0 < lo → 2 * hi ≤ i128_max → Forall sane answers.*2 →
  (length answers < 2 * honest lo hi answers.*2)%nat →
  let d := default DEFAULT_MAX_PRICE_DEVIATION_BPS (store w Key.MaxPriceDeviationBps) in
  0 ≤ d → (hi - lo) * 10000 ≤ d * lo →
  ∃ r w', (get_verified_price f t : IO Z) w = Done r w' ∧ lo ≤ r ≤ hi.
Proof.
  intros Hf Hq Hlo Hhi Hs Hmaj d Hd Hspread. rewrite verified_is_spot by done.
  pose proof (query_sources_store _ _ _ _ _ Hq) as Est.
  rewrite <- (length_fmap snd answers) in Hmaj.
  destruct (median_within lo hi answers.*2) as (m & Em & Hm); [lia | done | done |].
  assert (lo ≤ hi) by (unfold within in Hm; lia).
  assert (∀ p, within lo hi p → passes m d p = true) as Hp
    by (intros p; apply (honest_passes lo hi); first [done | lia]).
  destruct (survivors_majority lo hi m d _ Hp Hmaj) as [Hmaj' Hne].
  destruct (median_within lo hi (filter (λ p, passes m d p = true) answers.*2))
    as (r & Er & Hr); [lia | done | done |].
  destruct (keep_survivors_spec f t m d answers w1) as [w2 Hk]; [unfold within in Hm; lia | done |].
  unfold spot_price, get_price_sources.
  destruct answers as [|[o1 p1] [|[o2 p2] answers]].
  - simpl in Hmaj. lia.
  - exists p1, w1. split; [by go_by ltac:(reflexivity); go_by ltac:(exact Hq) |].
    destruct (decide (within lo hi p1)) as [|Hn]; [done |].
    csimpl in Hmaj. unfold honest in Hmaj. rewrite filter_cons_False in Hmaj by done.
    simpl in Hmaj. lia.
  - exists r, w2. split; [| done]. go_by ltac:(reflexivity). go_by ltac:(exact Hq).
    rewrite Em. go_by ltac:(reflexivity). go_by ltac:(reflexivity). rewrite Est. fold d.
    go_by ltac:(exact Hk). rewrite bool_decide_eq_false_2 by done.
    go_by ltac:(reflexivity). by rewrite Er.
Qed.
End reads.

(** * The recorded samples *)
Definition sample_key (k : DataKey) : bool :=
  match k with Key.TwapSamples _ _ => true | _ => false end.
Definition outside_samples (k : DataKey) : bool := negb (sample_key k).

Lemma ascending_in_order l : ascending (sm_timestamp <$> l) → in_order l = true.
Proof.
  induction l as [|s1 [|s2 l] IH]; [done.. |]. csimpl. intros Hs.
  apply StronglySorted_inv in Hs as [Hs H1]. apply Forall_cons_iff in H1 as [H1 _].
  simpl. apply andb_true_iff. split; [by apply Z.leb_le | by apply IH].
Qed.

Lemma ascending_drop n l : ascending l → ascending (drop n l).
Proof.
  intros Hs. revert n. induction Hs as [|x l Hs IH Hx]; intros [|n]; simpl; try constructor; auto.
Qed.

Section samples.
Context {X : Type} `{TokenInterface X} `{Peers X}.
Variables (MAX_FEE_TIERS MAX_IDENTITY_ORACLES_PER_FEED MAX_PRICE_SOURCES_PER_FEED : Z)
  (gen_range : Z → Z) (top : Z).
Abbreviation W := (world DataKey X Event).
Abbreviation IO := (M W ContractError).
Abbreviation exec :=
  (exec MAX_FEE_TIERS MAX_IDENTITY_ORACLES_PER_FEED MAX_PRICE_SOURCES_PER_FEED gen_range).
Abbreviation step :=
  (step MAX_FEE_TIERS MAX_IDENTITY_ORACLES_PER_FEED MAX_PRICE_SOURCES_PER_FEED gen_range top).
Implicit Types w : W.

Definition samples_at w (f : OracleFeedType) (t : Address) : list TwapSample :=
  default [] (store w (Key.TwapSamples f t)).

(** In time order, none from the future, at positive prices, within the cap. *)
Definition recorded (n : Z) (l : list TwapSample) : Prop :=
  ascending (sm_timestamp <$> l) ∧ Forall (λ s, sm_timestamp s ≤ n ∧ 0 < sm_price s) l ∧
  vlen l ≤ MAX_TWAP_SAMPLES.
Definition samples_ok w : Prop := ∀ f t, recorded (now (ctx w)) (samples_at w f t).

Lemma recorded_later n m l : n ≤ m → recorded n l → recorded m l.
Proof.
  intros Hn (Hs & Hf & Hl). split; [done |]. split; [| done].
  eapply Forall_impl; [| exact Hf]. intros x Hx. simpl in *. lia.
Qed.

Lemma recorded_push n l p :
  recorded n l → 0 < p → recorded n (push_sample l (mkSample n p) MAX_TWAP_SAMPLES).
Proof.
  intros (Hs & Hf & Hl) Hp. unfold push_sample. simpl. set (l' := l ++ [mkSample n p]).
  assert (Forall (λ s, sm_timestamp s ≤ n ∧ 0 < sm_price s) l') as Hf'.
  { apply Forall_app. split; [done |]. repeat constructor; simpl; lia. }
  split; [| split].
  - rewrite fmap_drop. apply ascending_drop. unfold l'. rewrite fmap_app.
    apply ascending_snoc; [done |]. apply Forall_fmap. eapply Forall_impl; [| exact Hf].
    intros x Hx. simpl in *. lia.
  - by apply Forall_drop.
  - unfold vlen in *. rewrite length_drop. lia.
Qed.

Lemma batch_outside_samples auths l :
  keeps (touches outside_samples) (submit_batch_loop auths l : IO (list Z)).
Proof.
  revert auths. induction l as [|p l IH]; intros auths; simpl; [frame |].
  unfold require_submitter, store_submission. frame.
Qed.
Hint Resolve batch_outside_samples : keeps.

Definition records (c : Call) : bool :=
  match c with RecordTwapSample _ _ _ => true | _ => false end.
Lemma samples_frame c :
  records c = false → keeps (touches outside_samples) (exec c).
Proof. intros Hc. destruct c; try done; call_frame. Qed.

Lemma record_samples f t p w w' :
  exec (RecordTwapSample f t p) w = Done tt w' → samples_ok w → samples_ok w'.
Proof.
  simpl. intros Hx Hw. unfold record_twap_sample in Hx. minv Hx. bools.
  intros f' t'. unfold samples_at. simpl.
  destruct (decide (Key.TwapSamples f t = Key.TwapSamples f' t')) as [E | Hne].
  - injection E as <- <-. rewrite st_set_eq. simpl. apply recorded_push; [apply Hw | lia].
  - rewrite st_set_ne by done. apply Hw.
Qed.

Lemma samples_ok_same w w' :
  (∀ f t, store w' (Key.TwapSamples f t) = store w (Key.TwapSamples f t)) →
  now (ctx w) ≤ now (ctx w') → samples_ok w → samples_ok w'.
Proof.
  intros Hs Hn Hw f t. unfold samples_at. rewrite Hs. by eapply recorded_later, Hw.
Qed.

Lemma samples_step ok w w' : step ok w w' → samples_ok w → samples_ok w'.
Proof.
  intros [c _ _ Hx | (_ & Hs & Hn & _)] Hw.
  - destruct (records c) eqn:Hc.
    + destruct c; try done. by eapply record_samples.
    + destruct (samples_frame c Hc _ _ _ Hx) as (_ & Hctx & Hk).
      apply (samples_ok_same w); [intros; by apply Hk | by rewrite Hctx | done].
  - apply (samples_ok_same w); [intros; by rewrite Hs | done | done].
Qed.

(** The start of the window of a read at [w]. *)
Definition window_start w : Z :=
  sat_u64 (now (ctx w) - sat_u64 (default DEFAULT_TWAP_WINDOW_LEDGERS
    (store w Key.TwapWindowLedgers) * LEDGER_SECONDS)).

Lemma twap_price_answers f t w o :
  twap_average (samples_at w f t) (window_start w) (now (ctx w)) = Some o →
  ∃ o' w', (get_twap_price f t : IO (option Z)) w = Done o' w' ∧ (o' = None ∨ o' = o).
Proof.
  intros Eo. assert (∃ e, (price_feed_fault f t : IO _) w = Done e w) as [e He].
  { unfold price_feed_fault, is_oracle_circuit_tripped, get_oracle_health, get_or, get, reads.
    unfold mbind, M_bind. destruct (store w (Key.OracleCircuitTripped f t)) as [[]|]; by eexists. }
  unfold get_twap_price, get_min_twap_observations, get_twap_window_ledgers, get_or, reads,
    timestamp, reads, publish, modify.
  unfold mbind, M_bind. rewrite He. destruct e as [e|]; [eexists _, _; split; [reflexivity | auto] |].
  fold (samples_at w f t). destruct (_ <? _); [eexists _, _; split; [reflexivity | auto] |].
  exists o, w. split; [| auto].
  change (unwrap (twap_average (samples_at w f t) (window_start w) (now (ctx w))) w
    = (Done o w : outcome W ContractError _)).
  by rewrite Eo.
Qed.

(** The only trap of a windowed read is the sum of two neighbouring prices. *)
Lemma twap_average_total samples ws ct hi :
  2 * hi ≤ i128_max → Forall (λ s, 0 < sm_price s ≤ hi) samples →
  ∃ o, twap_average samples ws ct = Some o.
Proof.
  intros Hhi Hp. unfold twap_average. destruct (_ || _); [by eexists |].
  generalize (0, 0). induction Hp as [|s1 l Hs1 Hp IH]; intros acc; [by destruct acc; eexists |].
  destruct Hp as [|s2 l Hs2 Hp]; [by destruct acc; eexists |].
  simpl in *. unfold twap_segment. destruct (overlap _ _ _ _) as [[a e]|]; [| apply IH].
  assert (chk_i128 (sm_price s1 + sm_price s2) = Some (sm_price s1 + sm_price s2)) as ->; [| apply IH].
  unfold chk_i128, checked. rewrite (proj2 (in_i128_spec _)); [done |]. unfold i128_min. lia.
Qed.

(** C39: the windowed price.  In every reachable state the samples kept for a feed and token
    are at most a hundred, in time order, none from the future and all at positive prices.
    As long as the prices kept are at most half of [i128::MAX], [get_twap_price] never fails;
    and as long as they are below 2^63 ([hi * u64_max] fits [i128]), a price it returns lies
    between the lowest and the highest sample.  Recording checks neither bound. *)
Theorem twap_price_bounded ok w0 w f t :
  deployed w0 → rtc (step ok) w0 w →
  recorded (now (ctx w)) (samples_at w f t) ∧
  (Forall (λ s, 2 * sm_price s ≤ i128_max) (samples_at w f t) →
   ∃ o w', (get_twap_price f t : IO (option Z)) w = Done o w') ∧
  ∀ lo hi, 0 ≤ now (ctx w) ≤ u64_max → 0 ≤ lo → hi * u64_max ≤ i128_max →
   Forall (priced lo hi) (samples_at w f t) →
   ∃ o w', (get_twap_price f t : IO (option Z)) w = Done o w' ∧
     ∀ avg, o = Some avg → lo ≤ avg ≤ hi.
Proof.
  intros Hd Hr. assert (samples_ok w) as Hok.
  { assert (samples_ok w0) as Hi0.
    { intros f' t'. unfold samples_at. rewrite Hd. by repeat constructor. }
    clear Hd. induction Hr as [|w1 w2 w3 Hs _ IH]; [done |]. by eapply IH, samples_step. }
  split; [apply Hok |]. destruct (Hok f t) as (Ho & Hpos & _). split.
  { intros Hhalf. destruct (twap_average_total (samples_at w f t) (window_start w) (now (ctx w))
      (i128_max ÷ 2)) as [o Eo]; [by vm_compute | |].
    - apply Forall_forall. intros s Hs. rewrite Forall_forall in Hpos, Hhalf.
      specialize (Hpos _ Hs). specialize (Hhalf _ Hs). simpl in *.
      split; [lia |]. apply Z.quot_le_lower_bound; lia.
    - destruct (twap_price_answers f t w o Eo) as (o' & w' & Hx & _). eauto. }
  intros lo hi Hn Hlo Hhi Hp.
  apply ascending_in_order in Ho.
  set (ws := window_start w).
  assert (0 ≤ ws) as Hws by (apply (sat_range 0 u64_max); done).
  assert (∃ o, twap_average (samples_at w f t) ws (now (ctx w)) = Some o ∧
    ∀ avg, o = Some avg → lo ≤ avg ≤ hi) as (o & Eo & Hb).
  { destruct (Z.le_gt_cases (now (ctx w)) ws) as [Hle | Hgt].
    - exists None. unfold twap_average. rewrite (proj2 (Z.leb_le _ _)), orb_true_r by done. done.
    - assert (u64_max = 2 ^ 64 - 1) as Eu by done.
      destruct (samples_at w f t) as [|s l] eqn:El; [by exists None |].
      pose proof (Forall_inv Hp) as Hs. unfold priced in Hs.
      destruct (twap_within_range ws (now (ctx w)) lo hi) with (samples := s :: l) as [He Hb];
        [lia | done | nia | done | done |].
      eexists. split; [exact He |]. intros avg E. apply Hb. by rewrite He, E. }
  destruct (twap_price_answers f t w o Eo) as (o' & w' & Hx & [-> | ->]); eauto.
  by exists None, w'.
Qed.
End samples.

(** * Concrete feeds *)
Module PricingWitness.

(** Price sources as a table; the other peers are not called. *)
Definition Feeds : Type := Address → option Z.
#[export] Instance Feeds_peers : Peers Feeds := {|
  dist_accrue_lp := λ _ _ _ x, Some (tt, x);
  dist_accrue_settlement := λ _ _ _ _ x, Some (tt, x);
  pool_is_enrolled := λ _ _ x, Some (false, x);
  pool_claim := λ _ _ _ _, None;
  oracle_get_payer_data := λ _ _ _, None;
  oracle_interface_version := λ _ x, Some (1, x);
  oracle_get_price := λ o _ x, match x o with Some p => Some (p, x) | None => None end
|}.

Definition token : Address := 10%N.
(** Three sources, the third answering [p]; source 4 never answers. *)
Definition feeds (p : Z) : Feeds := λ o,
  if bool_decide (o = 1%N) then Some 10000
  else if bool_decide (o = 2%N) then Some 10100
  else if bool_decide (o = 3%N) then Some p
  else None.

Abbreviation WF := (world DataKey Feeds Event).
Definition listed : storage DataKey :=
  st_set st_empty (Key.PriceSources Price) (Some [1%N; 2%N; 3%N; 4%N]).
Definition market (p : Z) : WF :=
  mkWorld 100%N (mkCtx (λ _, false) 1000 200) listed (feeds p) [].

(** The third source reports zero: the price is the mean of the two others. *)
Lemma honest_majority_price_witness :
  result_of (get_verified_price Price token) (market 0) = Some 10050 ∧
  ∃ r w', (get_verified_price Price token : M WF ContractError Z) (market 0) = Done r w' ∧
    10000 ≤ r ≤ 10100.
Proof.
  split; [vm_compute; reflexivity |].
  apply (honest_majority_price Price token (market 0) [(1%N, 10000); (2%N, 10100); (3%N, 0)]
    (market 0)).
  - repeat split; vm_compute; congruence.
  - vm_compute. reflexivity.
  - lia.
  - vm_compute. congruence.
  - repeat constructor; vm_compute; congruence.
  - vm_compute. lia.
  - vm_compute. congruence.
  - vm_compute. congruence.
Defined.

(** One source answering the least [i128] traps every read of the feed: its distance to the
    median overflows before it can be rejected. *)
Example negative_answer_blocks_feed :
  fault_of (get_verified_price Price token) (market i128_min) = Some Panic.
Proof. vm_compute. reflexivity. Qed.

(** Two samples an hour apart on the deployment of [Scenario.v]. *)
Import Scenario.
Abbreviation step := (Invariants.step 10 5 8 (λ n, 0) i128_max any_call).
Definition w_first : W := commit (run (RecordTwapSample Price usdc 10000)) w_ready.
Definition w_hour : W := with_ctx (signed_by_all 4600) w_first.
Definition w_sampled : W := commit (run (RecordTwapSample Price usdc 20000)) w_hour.

Lemma first_run : run (RecordTwapSample Price usdc 10000) w_ready = Done tt w_first.
Proof. committed. Qed.
Lemma sampled_run : run (RecordTwapSample Price usdc 20000) w_hour = Done tt w_sampled.
Proof. committed. Qed.
Lemma sampled_steps : rtc step w0 w_sampled.
Proof.
  eapply rtc_l; [by eapply step_call, ready_run |].
  eapply rtc_l; [by eapply step_call, first_run |].
  eapply rtc_l; [eapply step_env with (w' := w_hour) |].
  - split_and!; [done | done | vm_compute; congruence | done].
  - eapply rtc_l; [by eapply step_call, sampled_run | constructor].
Qed.

Lemma twap_price_bounded_witness :
  result_of (get_twap_price Price usdc) w_sampled = Some (Some 15000) ∧
  ∃ o w', (get_twap_price Price usdc : M W ContractError (option Z)) w_sampled = Done o w' ∧
    ∀ avg, o = Some avg → 10000 ≤ avg ≤ 20000.
Proof.
  split; [vm_compute; reflexivity |].
  destruct (twap_price_bounded 10 5 8 (λ _, 0) i128_max any_call w0 w_sampled Price usdc)
    as (_ & _ & Hb).
  - intros k. reflexivity.
  - exact sampled_steps.
  - apply (Hb 10000 20000); [vm_compute; split; congruence | lia | vm_compute; congruence |].
    repeat constructor; vm_compute; congruence.
Defined.

(** The bound is needed.  Both samples of [i128::MAX] are accepted, and from then on every
    read of the feed inside the window traps. *)
Definition w_huge : W :=
  commit (run (RecordTwapSample Price usdc i128_max))
    (with_ctx (signed_by_all 4600) (commit (run (RecordTwapSample Price usdc i128_max)) w_ready)).
Theorem huge_samples_trap :
  sm_price <$> samples_at w_huge Price usdc = [i128_max; i128_max] ∧
  fault_of (get_twap_price Price usdc) w_huge = Some Panic.
Proof. vm_compute. split; reflexivity. Qed.
End PricingWitness.
