(* ===== verification/Moves.v ===== *)
(** What a call of the escrow contract does to the rest of the chain: a sequence of token
    transfers, each out of the contract itself or out of an address that signed the call,
    and of the calls to its peers.  The composition with the modelled peers is built on it. *)
From S2P Require Import Prelude Host Peers CoreTypes TopPayers CoreStore Access TokenSafety Nft.
From S2P Require Import OracleRegistry Pricing ConfigRs Admin Lifecycle Frames CoreSpecs Edits Queue.
From S2P Require Import Multisig System Invariants Footprint.

Section moves.
Context {X : Type} `{TokenInterface X} `{Peers X}.
Abbreviation W := (world DataKey X Event).
Abbreviation IO := (M W ContractError).
Implicit Types (w : W) (x : X).

(** Which calls to the peers are among the moves: the reports to the distribution
    contract, the claims on the insurance pool. *)
Record reach : Type := { accruing : bool; claiming : bool }.
Definition everything : reach := {| accruing := true; claiming := true |}.
Definition no_report : reach := {| accruing := false; claiming := true |}.
Definition no_claim : reach := {| accruing := true; claiming := false |}.

Inductive move (r : reach) (me : Address) (c : Ctx) x x' : Prop :=
| mv_transfer t a b n :
    a = me ∨ auth c a = true → tok_transfer x t a b n = Some x' → move r me c x x'
| mv_accrue_lp d lp n u :
    accruing r = true → dist_accrue_lp d lp n x = Some (u, x') → move r me c x x'
| mv_accrue_settlement d f p b u :
    accruing r = true → dist_accrue_settlement d f p b x = Some (u, x') → move r me c x x'
| mv_enrolled p lp b : pool_is_enrolled p lp x = Some (b, x') → move r me c x x'
| mv_claim p i lp n :
    claiming r = true → pool_claim p i lp x = Some (n, x') → move r me c x x'
| mv_payer_data o p d : oracle_get_payer_data o p x = Some (d, x') → move r me c x x'
| mv_version o v : oracle_interface_version o x = Some (v, x') → move r me c x x'
| mv_price o t p : oracle_get_price o t x = Some (p, x') → move r me c x x'.

Variable r : reach.
(** [acts]: the world changes outside the contract only by such moves. *)
Definition acts : relation W := λ w w',
  self w' = self w ∧ ctx w' = ctx w ∧ rtc (move r (self w) (ctx w)) (ext w) (ext w').

#[export] Instance acts_preorder : PreOrder acts.
Proof.
  split; [by intros w |]. intros w1 w2 w3 (S12 & C12 & M12) (S23 & C23 & M23).
  split; [congruence |]. split; [congruence |]. rewrite S12, C12 in M23. by etrans.
Qed.

Lemma inner_acts {A} (m : IO A) : keeps (inner (λ _, true)) m → keeps acts m.
Proof. intros Hk w a w' [(Hs & Hc & _) Hq]%Hk. split; [done |]. split; [done |]. by rewrite Hq. Qed.

Lemma acts_put {E} k v : keeps acts (put k v : M W E unit).
Proof. by intros w [] w' ->%put_done. Qed.
Lemma acts_publish {E} e : keeps acts (publish e : M W E unit).
Proof. by intros w [] w' ->%publish_done. Qed.

Definition moving {A} (f : X → option (A * X)) : Prop :=
  ∀ me c x a x', f x = Some (a, x') → move r me c x x'.

Lemma acts_invoke {A} (f : X → option (A * X)) : moving f → keeps acts (invoke f : IO A).
Proof.
  intros Hf w a w' (x & Hx & ->)%invoke_done. split; [done |]. split; [done |].
  by eapply rtc_once, Hf.
Qed.
Lemma acts_try_invoke {A} (f : X → option (A * X)) :
  moving f → keeps acts (try_invoke f : IO (option A)).
Proof.
  intros Hf w o w' [(a & x & Hx & _ & ->) | (_ & _ & ->)]%try_invoke_done; [| done].
  split; [done |]. split; [done |]. by eapply rtc_once, Hf.
Qed.

Lemma moving_accrue_lp d lp n : accruing r = true → moving (dist_accrue_lp d lp n).
Proof. intros ??????. by apply mv_accrue_lp. Qed.
Lemma moving_accrue_settlement d f p b :
  accruing r = true → moving (dist_accrue_settlement d f p b).
Proof. intros ??????. by apply mv_accrue_settlement. Qed.
Lemma moving_enrolled p lp : moving (pool_is_enrolled p lp).
Proof. intros ?????. by apply mv_enrolled. Qed.
Lemma moving_claim p i lp : claiming r = true → moving (pool_claim p i lp).
Proof. intros ??????. by apply mv_claim. Qed.
Lemma moving_payer_data o p : moving (oracle_get_payer_data o p).
Proof. intros ?????. by apply mv_payer_data. Qed.
Lemma moving_version o : moving (oracle_interface_version o).
Proof. intros ?????. by apply mv_version. Qed.
Lemma moving_price o t : moving (oracle_get_price o t).
Proof. intros ?????. by apply mv_price. Qed.

Hint Extern 4 (keeps acts _) => apply inner_acts : keeps.
Hint Resolve acts_put acts_publish acts_invoke acts_try_invoke moving_accrue_lp moving_accrue_settlement
  moving_enrolled moving_claim moving_payer_data moving_version moving_price : keeps.

(** ** Transfers *)
Lemma transfer_acts t a b n w w' :
  a = self w ∨ auth (ctx w) a = true →
  (invoke (ext_transfer t a b n) : IO unit) w = Done tt w' → acts w w'.
Proof.
  intros Ha (x & Hx & ->)%invoke_done. split; [done |]. split; [done |].
  unfold ext_transfer in Hx. apply bind_Some in Hx as (y & Hy & [= ->]).
  eapply rtc_once, mv_transfer; [exact Ha | exact Hy].
Qed.

Lemma transfer_from_self_acts t b n : keeps acts (transfer_from_self t b n : IO unit).
Proof.
  intros w [] w' Hx. unfold transfer_from_self in Hx.
  apply bind_done in Hx as (me & w1 & [-> ->]%current_contract_done & Hx).
  eapply transfer_acts; [| exact Hx]. by left.
Qed.
Hint Resolve transfer_from_self_acts : keeps.

Lemma transfer_out_strict_acts t b n : keeps acts (transfer_out_strict t b n : IO unit).
Proof. unfold transfer_out_strict, pending_payout_total. frame. Qed.
Lemma pay_or_escrow_acts t b n i : keeps acts (pay_or_escrow t b n i : IO bool).
Proof. unfold pay_or_escrow, pending_payout_total, pending_payout, is_authorized, query_authorized. frame. Qed.
Lemma claim_pending_acts a t : keeps acts (claim_pending a t : IO Z).
Proof. unfold claim_pending, pending_payout, pending_payout_total. frame. Qed.
Hint Resolve transfer_out_strict_acts pay_or_escrow_acts claim_pending_acts : keeps.

Lemma refund_funders_acts id i fs : keeps acts (refund_funders id i fs : IO unit).
Proof. unfold refund_funders. frame. Qed.
Lemma distribute_shares_acts id i n fs : keeps acts (distribute_shares id i n fs : IO unit).
Proof. unfold distribute_shares. frame. Qed.
Hint Resolve refund_funders_acts distribute_shares_acts : keeps.

(** ** Peers *)
Lemma classify_feeders_acts os p l m : keeps acts (classify_feeders os p l m : IO _).
Proof. induction os as [|o os IH]; simpl; [frame |]. unfold classify_identity_feeder. frame. Qed.
Lemma query_sources_acts os t : keeps acts (query_sources os t : IO _).
Proof. apply query_sources_keeps; [apply _ |]. intros. unfold query_price. frame. Qed.
Lemma keep_survivors_acts f t m d l : keeps acts (keep_survivors f t m d l : IO _).
Proof. apply keep_survivors_keeps; [apply _ |]. intros. frame. Qed.
Hint Resolve classify_feeders_acts query_sources_acts keep_survivors_acts : keeps.
Lemma evaluate_identity_acts f t p m :
  keeps acts (evaluate_identity_verification f t p m : IO _).
Proof.
  unfold evaluate_identity_verification, check_identity_quorum,
    get_identity_oracles, get_identity_quorum, resolve_oracle_for_verification,
    is_oracle_circuit_tripped, get_oracle_health, legacy_oracle, get_config,
    is_oracle_data_timestamp_regression, is_oracle_data_duplicate_update, get_oracle_health.
  frame.
Qed.
Hint Resolve evaluate_identity_acts : keeps.
Lemma fund_checks_acts f id n b : keeps acts (fund_checks f id n b : IO _).
Proof.
  unfold fund_checks, require_lp, get_queue_resolution, get_min_payer_reputation,
    get_token_volume_cap, get_token_volume, require_identity, max_oracle_age, get_config.
  frame.
Qed.
Lemma fund_apply_acts f id i n p : keeps acts (fund_apply f id i n p : IO _).
Proof. unfold fund_apply, get_invoice_funders, get_lp_score. frame. Qed.
Lemma fund_finish_acts f id i n :
  accruing r = true → keeps acts (fund_finish f id i n : IO _).
Proof. intros Ha. unfold fund_finish, notify_distribution_funding. frame. Qed.
Lemma settle_acts id i p fs :
  accruing r = true → keeps acts (settle_in_full id i p fs : IO unit).
Proof. intros Ha. unfold settle_in_full, effective_fee_rate, notify_distribution_settlement. frame. Qed.
Lemma attempt_insurance_acts id i f :
  claiming r = true → keeps acts (attempt_insurance id i f : IO _).
Proof. intros Hc. unfold attempt_insurance, get_insurance_pool. frame. Qed.
Hint Resolve fund_checks_acts fund_apply_acts fund_finish_acts settle_acts
  attempt_insurance_acts : keeps.

(** ** The three calls that take somebody's tokens *)
Lemma acts_local w w' : self w' = self w → ctx w' = ctx w → ext w' = ext w → acts w w'.
Proof. intros Hs Hc He. split; [done |]. split; [done |]. by rewrite He. Qed.

Lemma fund_collect_acts f i n p w w' :
  fund_collect f i n p w = Done tt w' → auth (ctx w) f = true → acts w w'.
Proof.
  intros Hx Hf. unfold fund_collect in Hx.
  apply bind_done in Hx as (a & w1 & [-> ->]%current_contract_done & Hx).
  apply bind_done in Hx as ([] & w1 & [_ ->]%require_authorized_done & Hx).
  apply bind_done in Hx as ([] & w1 & Hr & Hx).
  assert (w1 = w) as -> by by minv Hr.
  eapply transfer_acts; [| exact Hx]. by right.
Qed.

Lemma fund_invoice_acts f id n b :
  accruing r = true → keeps acts (fund_invoice f id n b : IO unit).
Proof.
  intros Hacc w [] w' Hx. unfold fund_invoice in Hx.
  apply bind_done in Hx as ([] & w1 & [_ ->]%lock_reentrancy_done & Hx).
  apply bind_done in Hx as ([] & w1 & [_ ->]%require_not_paused_done & Hx).
  apply bind_done in Hx as ([i1 p] & w1 & Hc & Hx).
  pose proof (fund_checks_acts _ _ _ _ _ _ _ Hc) as H1.
  apply fund_checks_spec in Hc as (_ & Ha & _).
  apply bind_done in Hx as ([] & w2 & Hcol & Hx).
  apply bind_done in Hx as (i' & w3 & Hap%fund_apply_acts & Hx).
  apply bind_done in Hx as ([] & w4 & Hfin & ->%unlock_reentrancy_done).
  apply fund_finish_acts in Hfin; [| exact Hacc].
  apply fund_collect_acts in Hcol; [| by rewrite (proj1 (proj2 H1))].
  etrans; [by apply (acts_local w (lock_world w)) |]. etrans; [exact H1 |].
  etrans; [exact Hcol |]. etrans; [exact Hap |]. etrans; [exact Hfin |]. by apply acts_local.
Qed.

Lemma mark_paid_acts id n w w' :
  accruing r = true → wf w → mark_paid id n w = Done tt w' → acts w w'.
Proof.
  intros Hacc Hw Hx. unfold mark_paid in Hx.
  apply bind_done in Hx as ([] & w1 & [_ ->]%lock_reentrancy_done & Hx).
  apply bind_done in Hx as ([] & w1 & [_ ->]%require_not_paused_done & Hx).
  apply bind_done in Hx as ([] & w1 & [_ ->]%reject_if_done & Hx).
  apply bind_done in Hx as (o & w1 & [-> ->]%try_load_invoice_done & Hx).
  apply bind_done in Hx as (i1 & w1 & [Hl ->]%ok_or_done & Hx).
  apply bind_done in Hx as ([] & w1 & (i2 & Hi2 & Ha & ->)%require_payer_by_id_done & Hx).
  autorewrite with view in *. rewrite wf_lookup in Hl by done.
  assert (i1 = i2) as -> by congruence.
  apply bind_done in Hx as ([] & w2 & [_ ->]%require_funded_done & Hx).
  apply bind_done in Hx as ([] & w2 & [_ ->]%reject_if_done & Hx).
  apply bind_done in Hx as (fs & w2 & [-> ->]%get_invoice_funders_done & Hx).
  apply bind_done in Hx as (p & w2 & [_ ->]%ok_or_done & Hx).
  apply bind_done in Hx as (paid & w2 & [_ ->]%ok_or_done & Hx).
  apply bind_done in Hx as ([] & w2 & [_ ->]%require_authorized_done & Hx).
  apply bind_done in Hx as (me & w2 & [-> ->]%current_contract_done & Hx).
  apply bind_done in Hx as ([] & w2 & Htr & Hx).
  apply bind_done in Hx as ([] & w3 & Hset & ->%unlock_reentrancy_done).
  apply transfer_acts in Htr; [| by right].
  assert (acts w2 w3) as Hs.
  { match type of Hset with ?m _ = _ => assert (keeps acts m) as K by frame end. by apply K in Hset. }
  etrans; [by apply (acts_local w (lock_world w)) |]. etrans; [exact Htr |].
  etrans; [exact Hs |]. by apply acts_local.
Qed.

Lemma add_token_acts t d : keeps acts (add_token t d : IO unit).
Proof.
  intros w [] w' Hx. unfold add_token in Hx.
  apply bind_done in Hx as ([] & w1 & (b & Hb & Hauth & ->)%require_admin_done & Hx).
  apply bind_done in Hx as ([] & w1 & Hr & Hx).
  apply bind_done in Hx as ([] & w2 & Hrec & Hx).
  assert (acts w w2 ∧ store w2 Key.Admin = Some b) as [H2 Hb2].
  { assert (keeps (touches (λ k, negb (bool_decide (k = Key.Admin))))
      (check_rate_limit "add_token" DEFAULT_RATE_LIMIT_LEDGERS;; record_admin_action "add_token" : IO unit))
      as K by frame.
    assert (keeps acts (check_rate_limit "add_token" DEFAULT_RATE_LIMIT_LEDGERS;;
      record_admin_action "add_token" : IO unit)) as K' by frame.
    assert ((check_rate_limit "add_token" DEFAULT_RATE_LIMIT_LEDGERS;;
      record_admin_action "add_token" : IO unit) w = Done tt w2) as Hm
      by (eapply done_bind; [exact Hr | exact Hrec]).
    split; [by apply K' in Hm |]. apply K in Hm as (_ & _ & Hm). by rewrite Hm. }
  clear Hr Hrec. etrans; [exact H2 |].
  apply bind_done in Hx as (adm & w3 & Hadm & Hx).
  assert (w3 = w2 ∧ adm = b) as [-> ->] by (clear Hx; minv Hadm; by simplify_eq). clear Hadm.
  apply bind_done in Hx as ([] & w3 & Hv & Hx).
  assert (w3 = w2) as -> by (clear Hx; unfold validate_token_decimals in Hv; by minv Hv).
  clear Hv. apply bind_done in Hx as ([] & w3 & Hv & Hx).
  assert (w3 = w2) as ->.
  { clear Hx. unfold validate_sac_authorization, query_authorized in Hv. by minv Hv. }
  clear Hv.
  apply bind_done in Hx as (s & w3 & [-> ->]%current_contract_done & Hx).
  apply bind_done in Hx as (before & w3 & [-> ->]%reads_done & Hx).
  apply bind_done in Hx as ([] & w3 & Hin & Hx).
  apply transfer_acts in Hin; [| right; by rewrite (proj1 (proj2 H2))].
  etrans; [exact Hin |]. destruct Hin as (Hself & _ & _). rewrite <- Hself in Hx.
  apply bind_done in Hx as (after & w4 & [-> ->]%reads_done & Hx). cbv zeta in Hx.
  assert (∀ n w1 w2, invoke (ext_transfer t (self w1) b n) w1 = @Done W ContractError unit tt w2 → acts w1 w2) as K.
  { intros n v1 v2. apply transfer_acts. by left. }
  apply bind_done in Hx as ([] & w4 & Hb4 & Hx).
  assert (acts w3 w4 ∧ self w4 = self w3) as [H4 Hs4].
  { clear Hx. destruct (default 0 _ =? _); [by apply ret_done in Hb4 as [_ ->] |].
    apply bind_done in Hb4 as ([] & w5 & _ & []%throw_done). }
  etrans; [exact H4 |]. rewrite <- Hs4 in Hx.
  apply bind_done in Hx as ([] & w5 & H5%K & Hx). etrans; [exact H5 |].
  match type of Hx with ?m _ = _ => assert (keeps acts m) as K' by frame end. by apply K' in Hx.
Qed.
Hint Resolve fund_invoice_acts add_token_acts : keeps.

(** ** Every call *)
Variables (MAX_FEE_TIERS MAX_IDENTITY_ORACLES_PER_FEED MAX_PRICE_SOURCES_PER_FEED : Z)
  (gen_range : Z → Z).
Abbreviation exec :=
  (exec MAX_FEE_TIERS MAX_IDENTITY_ORACLES_PER_FEED MAX_PRICE_SOURCES_PER_FEED gen_range).

Lemma submit_batch_loop_acts auths l : keeps acts (submit_batch_loop auths l : IO (list Z)).
Proof.
  revert auths. induction l as [|p l IH]; intros auths; simpl; [frame |].
  unfold require_submitter, store_submission. frame.
Qed.
Hint Resolve submit_batch_loop_acts : keeps.

Lemma administrative_acts c : administrative c = true → keeps acts (exec c).
Proof.
  intros Ha. destruct c; try done; simpl; unfold ignore;
    [unfold initialize; frame | ..]; try (solve [frame]); open_admin; frame.
Qed.

(** The calls that report to the distribution contract. *)
Definition accrues (c : Call) : bool :=
  match c with FundInvoice _ _ _ _ | MarkPaid _ _ => true | _ => false end.
(** The call that claims on the insurance pool. *)
Definition claims_cover (c : Call) : bool :=
  match c with ClaimDefault _ _ => true | _ => false end.

Lemma lifecycle_acts c :
  administrative c = false → (∀ id n, c ≠ MarkPaid id n) →
  (accrues c = true → accruing r = true) → (claims_cover c = true → claiming r = true) →
  keeps acts (exec c).
Proof.
  intros Ha Hm Hacc Hcl. destruct c; try done; simpl; unfold ignore; try (solve [frame]);
    try (exfalso; by eapply Hm); open_lifecycle; frame.
Qed.

Lemma exec_acts c w w' :
  wf w → (accrues c = true → accruing r = true) → (claims_cover c = true → claiming r = true) →
  exec c w = Done tt w' → acts w w'.
Proof.
  intros Hw Hacc Hcl Hx. destruct (administrative c) eqn:Ha; [by eapply administrative_acts |].
  destruct c; try (eapply lifecycle_acts; [exact Ha | discriminate | exact Hacc | exact Hcl | exact Hx]).
  eapply mark_paid_acts; [by apply Hacc | done..].
Qed.

End moves.
#[export] Hint Extern 4 (keeps (acts _) _) => apply inner_acts : keeps.
#[export] Hint Resolve acts_put acts_publish acts_invoke acts_try_invoke moving_accrue_lp
  moving_accrue_settlement moving_enrolled moving_claim moving_payer_data moving_version
  moving_price transfer_from_self_acts transfer_out_strict_acts pay_or_escrow_acts
  claim_pending_acts refund_funders_acts distribute_shares_acts classify_feeders_acts
  query_sources_acts keep_survivors_acts evaluate_identity_acts fund_checks_acts
  fund_apply_acts attempt_insurance_acts : keeps.

Section spares.
Context {X : Type} `{TokenLaws X} `{Peers X}.
Implicit Types (w : world DataKey X Event) (x : X).

(** A move leaves alone the tokens of whoever neither made nor signed it, when the peers
    do. *)
Lemma move_spares r me c a t x x' `{!PeerLaws X a} :
  a ≠ me → auth c a = false → move r me c x x' → tok_balance x t a ≤ tok_balance x' t a.
Proof.
  intros Hne Hs Hm. destruct Hm as [t' b d n Hb Hx | | | | | | |].
  2: by eapply accrue_lp_spares.
  2: by eapply accrue_settlement_spares.
  2: by eapply is_enrolled_spares.
  2: by eapply pool_claim_spares.
  2: by eapply payer_data_spares.
  2: by eapply interface_version_spares.
  2: by eapply get_price_spares.
  pose proof (transfer_covered _ _ _ _ _ _ Hx).
  rewrite (transfer_balance _ _ _ _ _ _ t a Hx).
  assert (a ≠ b) by (destruct Hb; congruence).
  repeat case_bool_decide; try lia; naive_solver.
Qed.

Lemma acts_spares r w w' a t `{!PeerLaws X a} :
  a ≠ self w → auth (ctx w) a = false → acts r w w' →
  tok_balance (ext w) t a ≤ tok_balance (ext w') t a.
Proof.
  intros Hne Hs (_ & _ & Hr). induction Hr as [|x y z Hm _ IH]; [done |].
  etrans; [by eapply move_spares | exact IH].
Qed.
End spares.
