(* ===== verification/Chain.v ===== *)
(** One chain: the escrow contract with the pool of [Insurance.v] and the distribution
    contract of [Distribution.v] as its peers.  A cross-contract call of the escrow
    contract to the address of either runs that contract's own code on its own storage
    and on the shared token balances; a fault of the callee is the failed call the host
    reports, with nothing of it kept.  Oracles and contracts at other addresses stay
    parameters. *)
From S2P Require Import Prelude Host Peers Distribution Insurance InsuranceProps.
#[export] Existing Instance Distribution.schema.

(** The addresses of the deployment. *)
Class Deployment : Type := {
  escrow_at : Address;
  insurance_at : Address;
  distribution_at : Address;
  insurance_not_escrow : insurance_at ≠ escrow_at
}.

(** What the escrow contract's calls can reach: the tokens, the storage and the event
    log of the two contracts, and the context their code runs in. *)
Record Chain (T : Type) : Type := mkChain {
  bank : T;
  dist_store : storage Distribution.StorageKey;
  dist_log : list Distribution.Event;
  pool_store : storage Pool.PoolKey.DataKey;
  pool_log : list Pool.PoolEvent;
  callee : Ctx
}.
Arguments mkChain {T} bank dist_store dist_log pool_store pool_log callee.
Arguments bank {T} c.
Arguments dist_store {T} c k.
Arguments dist_log {T} c.
Arguments pool_store {T} c k.
Arguments pool_log {T} c.
Arguments callee {T} c.

Section chain.
Context {T : Type} `{TokenInterface T} `{Deployment}.
Implicit Types x : Chain T.

Definition with_bank (b : T) x : Chain T :=
  mkChain b (dist_store x) (dist_log x) (pool_store x) (pool_log x) (callee x).
Definition with_callee (c : Ctx) x : Chain T :=
  mkChain (bank x) (dist_store x) (dist_log x) (pool_store x) (pool_log x) c.

(** A call on the tokens, or to a contract known only by its effect on them. *)
Definition on_bank {A} (f : T → option (A * T)) x : option (A * Chain T) :=
  match f (bank x) with Some (a, b) => Some (a, with_bank b x) | None => None end.

#[export] Instance chain_tokens : TokenInterface (Chain T) := {|
  tok_balance := λ x, tok_balance (bank x);
  tok_transfer := λ x t a b n,
    match tok_transfer (bank x) t a b n with Some y => Some (with_bank y x) | None => None end;
  tok_decimals := λ x, tok_decimals (bank x);
  tok_authorized := λ x, tok_authorized (bank x);
  tok_admin := λ x, tok_admin (bank x);
  tok_mint := λ x t a n,
    match tok_mint (bank x) t a n with Some y => Some (with_bank y x) | None => None end
|}.

#[export] Instance chain_token_laws `{!TokenLaws T} : TokenLaws (Chain T).
Proof.
  split; simpl.
  - intros * Hx. case_match; [| done]. by eapply transfer_covered.
  - intros * Hx. case_match eqn:E; [| done]. simplify_eq. by apply transfer_balance.
  - intros * Hx. case_match eqn:E; [| done]. simplify_eq. by eapply transfer_authorized.
  - intros * Hx. case_match eqn:E; [| done]. simplify_eq. by apply mint_balance.
  - intros * Hx. case_match eqn:E; [| done]. by eapply mint_nonneg.
Qed.

(** The two contracts as worlds of their own. *)
Definition dist_world (c : Ctx) x : world Distribution.StorageKey T Distribution.Event :=
  mkWorld distribution_at c (dist_store x) (bank x) (dist_log x).
Definition after_dist (w : world Distribution.StorageKey T Distribution.Event) x : Chain T :=
  mkChain (ext w) (store w) (events w) (pool_store x) (pool_log x) (callee x).
Definition in_dist {A} (m : M (world Distribution.StorageKey T Distribution.Event)
    Distribution.DistributionError A) x : option (A * Chain T) :=
  match m (dist_world (callee x) x) with
  | Done a w => Some (a, after_dist w x)
  | Fault _ => None
  end.

Definition pool_world (c : Ctx) x : world Pool.PoolKey.DataKey T Pool.PoolEvent :=
  mkWorld insurance_at c (pool_store x) (bank x) (pool_log x).
Definition after_pool (w : world Pool.PoolKey.DataKey T Pool.PoolEvent) x : Chain T :=
  mkChain (ext w) (dist_store x) (dist_log x) (store w) (events w) (callee x).
Definition in_pool {A} (m : M (world Pool.PoolKey.DataKey T Pool.PoolEvent)
    Pool.PoolErr.InsuranceError A) x : option (A * Chain T) :=
  match m (pool_world (callee x) x) with
  | Done a w => Some (a, after_pool w x)
  | Fault _ => None
  end.

(** The peers of the escrow contract. *)
Context `{Peers T}.
#[export] Instance chain_peers : Peers (Chain T) := {|
  dist_accrue_lp := λ d lp n,
    if decide (d = distribution_at) then in_dist (Distribution.accrue_lp lp n)
    else on_bank (dist_accrue_lp d lp n);
  dist_accrue_settlement := λ d f p b,
    if decide (d = distribution_at) then in_dist (Distribution.accrue_settlement f p b)
    else on_bank (dist_accrue_settlement d f p b);
  pool_is_enrolled := λ p lp,
    if decide (p = insurance_at) then in_pool (Pool.is_enrolled lp)
    else on_bank (pool_is_enrolled p lp);
  pool_claim := λ p i lp,
    if decide (p = insurance_at) then in_pool (Pool.claim i lp)
    else on_bank (pool_claim p i lp);
  oracle_get_payer_data := λ o p, on_bank (oracle_get_payer_data o p);
  oracle_interface_version := λ o, on_bank (oracle_interface_version o);
  oracle_get_price := λ o t, on_bank (oracle_get_price o t)
|}.
End chain.

(** * What the two contracts do to the tokens *)
Section effects.
Context {T : Type} `{TokenInterface T}.

(** One transfer out of [me] or of a signer, or none. *)
Definition transferred (me : Address) (c : Ctx) (b b' : T) : Prop :=
  b' = b ∨ ∃ t a d n, (a = me ∨ auth c a = true) ∧ tok_transfer b t a d n = Some b'.

Lemma ext_transfer_done t a d n (b : T) u b' :
  ext_transfer t a d n b = Some (u, b') → tok_transfer b t a d n = Some b'.
Proof. unfold ext_transfer. intros (y & Hy & [= <- <-])%bind_Some. done. Qed.

Definition outside_money (c : PoolCall) : bool :=
  match c with PTopUp _ _ | PDeposit _ _ | PClaim _ _ => false | _ => true end.
Lemma outside_money_quiet c :
  outside_money c = true →
  keeps (inner (λ _, true)) (pool_exec c : M (world Pool.PoolKey.DataKey T Pool.PoolEvent) _ Z).
Proof. intros Hc. destruct c; try done; simpl; unfold quietly; open_pool; frame. Qed.

(** A claim pays out of the pool. *)
Lemma claim_transfers id lp n (w w' : world Pool.PoolKey.DataKey T Pool.PoolEvent) :
  Pool.claim id lp w = Done n w' →
  ∃ t d m, tok_transfer (ext w) t (self w) d m = Some (ext w').
Proof.
  intros (_ & _ & _ & _ & _ & _ & w1 & Hp & Ht)%claim_gates.
  apply trip_spec in Ht as [[_ Ht] _]. unfold quiet in Ht. rewrite Ht. clear Ht.
  open_in Hp. minv Hp; (eexists _, _, _; by eapply ext_transfer_done).
Qed.

Lemma pool_call_transfers c n (w w' : world Pool.PoolKey.DataKey T Pool.PoolEvent) :
  pool_exec c w = Done n w' →
  self w' = self w ∧ ctx w' = ctx w ∧ transferred (self w) (ctx w) (ext w) (ext w').
Proof.
  intros Hx. pose proof (any_frame _ _ _ _ Hx) as (Hs & Hc & _).
  split; [exact Hs |]. split; [exact Hc |]. clear Hs Hc.
  destruct (outside_money c) eqn:Hm.
  { left. by apply (outside_money_quiet c Hm) in Hx as [_ Hq]. }
  destruct c as [| | | | | | | | | | | | | | | | | | | |a m | | | | |a m |id a]; try done;
    simpl in Hx.
  - apply quietly_done in Hx as (_ & [] & Hx). open_in Hx. minv Hx.
    right. eexists _, _, _, _. split; [by right | by eapply ext_transfer_done].
  - apply quietly_done in Hx as (_ & [] & Hx). open_in Hx. minv Hx;
      (right; eexists _, _, _, _; split; [by right | by eapply ext_transfer_done]).
  - apply claim_transfers in Hx as (t & d & m & Hx). right. eauto 8.
Qed.

Lemma dist_call_transfers c (w w' : world Distribution.StorageKey T Distribution.Event) :
  Distribution.exec c w = Done tt w' →
  self w' = self w ∧ ctx w' = ctx w ∧
  (ext w' = ext w ∨ ∃ t a n, tok_mint (ext w) t a n = Some (ext w')).
Proof.
  intros Hx. destruct c; simpl in Hx;
    unfold Distribution.initialize, Distribution.accrue_lp, Distribution.accrue_settlement,
      Distribution.claim_tokens, Distribution.set_lp_reward_rate,
      Distribution.set_freelancer_reward_rate, Distribution.set_payer_reward_rate,
      Distribution.require_iln_invoker, Distribution.require_governance_invoker,
      Distribution.require_gov_token_mint_authority in Hx;
    minv Hx; try (by auto).
  split; [done |]. split; [done |]. right. unfold mbind, option_bind in *. case_match; simplify_eq.
  eauto.
Qed.
End effects.

(** * The laws of the composed peers

    What the escrow contract assumes of its peers holds of the two contracts of the
    repository: their code never takes the escrow contract's tokens. *)
Section laws.
Context {T : Type} `{TokenLaws T} `{Peers T} `{Deployment}.
Implicit Types x : Chain T.

Lemma on_bank_spares {A} (me : Address) (f : T → option (A * T)) :
  spares me f → spares me (on_bank f).
Proof.
  intros Hf x a x' t Hx. unfold on_bank in Hx. case_match eqn:E; [| done].
  case_match. simplify_eq. simpl. by eapply Hf.
Qed.

Lemma accrual_spares {A} me c (m : M (world Distribution.StorageKey T Distribution.Event) _ A) :
  (∀ w a w', m w = Done a w' → Distribution.exec c w = Done tt w') →
  Distribution.is_claim c = false → spares me (in_dist m).
Proof.
  intros Hm Hc x a x' t Hx. unfold in_dist in Hx. case_match eqn:E; [| done]. simplify_eq.
  apply Hm, Distribution.exec_non_claim in E as (Hb & _); [| done]. simpl in *. by rewrite Hb.
Qed.

#[export] Instance chain_peer_laws me `{!PeerLaws T me} (Hne : insurance_at ≠ me) :
  PeerLaws (Chain T) me.
Proof.
  split; intros; simpl; try case_decide.
  - apply (accrual_spares _ (Distribution.AccrueLp lp n)); [by intros ? [] ? | done].
  - apply on_bank_spares, accrue_lp_spares.
  - apply (accrual_spares _ (Distribution.AccrueSettlement f p b)); [by intros ? [] ? | done].
  - apply on_bank_spares, accrue_settlement_spares.
  - intros x e x' t Hx. unfold in_pool in Hx. case_match eqn:E; [| done]. simplify_eq.
    by apply reads_done in E as [-> ->].
  - apply on_bank_spares, is_enrolled_spares.
  - intros x e x' t Hx. unfold in_pool in Hx. case_match eqn:E; [| done]. simplify_eq.
    apply claim_transfers in E as (t' & d & m & Hx). simpl in *.
    pose proof (transfer_covered _ _ _ _ _ _ Hx). rewrite (transfer_balance _ _ _ _ _ _ t me Hx).
    repeat case_bool_decide; try lia; naive_solver.
  - apply on_bank_spares, pool_claim_spares.
  - apply on_bank_spares, payer_data_spares.
  - apply on_bank_spares, interface_version_spares.
  - apply on_bank_spares, get_price_spares.
Qed.
End laws.
