(* ===== verification/Composition.v ===== *)
(** The contracts together: runs of the chain of [Chain.v], in which users call the three
    contracts in any order, the escrow contract calls the other two, tokens move
    elsewhere and ledgers close.  Each contract's own model is an exact account of its
    part in such a run. *)
From S2P Require Import Prelude Host Peers CoreTypes TopPayers CoreStore Access TokenSafety Nft.
From S2P Require Import OracleRegistry Pricing ConfigRs Admin Lifecycle Frames CoreSpecs Edits Queue.
From S2P Require Import Multisig System Invariants Distribution Insurance InsuranceProps Chain Moves.

Section composition.
Context {T : Type} `{TokenLaws T} `{Peers T} `{Deployment}.
Context `{!PeerLaws T escrow_at} `{!PeerLaws T insurance_at}.
Variables (MAX_FEE_TIERS MAX_IDENTITY_ORACLES_PER_FEED MAX_PRICE_SOURCES_PER_FEED : Z)
  (gen_range : Z → Z) (top : Z).
Abbreviation W := (world DataKey (Chain T) Event).
Abbreviation exec :=
  (exec MAX_FEE_TIERS MAX_IDENTITY_ORACLES_PER_FEED MAX_PRICE_SOURCES_PER_FEED gen_range).
Abbreviation step :=
  (step MAX_FEE_TIERS MAX_IDENTITY_ORACLES_PER_FEED MAX_PRICE_SOURCES_PER_FEED gen_range top).
Implicit Types (w : W) (x : Chain T) (c : Ctx).

(** ** The chain *)

(** Users sign; the contracts have no keys. *)
Definition silent c : Prop := auth c escrow_at = false ∧ auth c insurance_at = false.

(** The context of a contract the escrow contract calls: the escrow contract, being the
    direct caller, passes [require_auth] there. *)
Definition invoked c : Ctx :=
  mkCtx (λ a, auth c a || bool_decide (a = escrow_at)) (now c) (ledger_seq c).

Definition at_ledger c w : W := with_ctx c (with_ext (with_callee (invoked c) (ext w)) w).

(** One committed transaction or the close of a ledger: a call of one of the three
    contracts, a change of balances elsewhere that takes nothing from the escrow contract
    or the pool, or a new ledger with the signatures collected for it. *)
Inductive sys (ok : Call → W → Prop) w : W → Prop :=
| sys_escrow call w' :
    typed top call = true → ok call w → exec call w = Done tt w' → sys ok w w'
| sys_pool call n p :
    pool_typed call = true → pool_exec call (pool_world (ctx w) (ext w)) = Done n p →
    sys ok w (with_ext (after_pool p (ext w)) w)
| sys_dist call d :
    Distribution.exec call (dist_world (ctx w) (ext w)) = Done tt d →
    sys ok w (with_ext (after_dist d (ext w)) w)
| sys_bank b :
    (∀ t a, a = escrow_at ∨ a = insurance_at →
       tok_balance (bank (ext w)) t a ≤ tok_balance b t a) →
    sys ok w (with_ext (with_bank b (ext w)) w)
| sys_ledger c :
    silent c → now (ctx w) ≤ now c → now c + Pool.TIMELOCK_DELAY_SECONDS ≤ u64_max →
    sys ok w (at_ledger c w).

(** Deployment: no contract has storage yet. *)
Definition launched w : Prop :=
  deployed w ∧ self w = escrow_at ∧ silent (ctx w) ∧ callee (ext w) = invoked (ctx w) ∧
  now (ctx w) + Pool.TIMELOCK_DELAY_SECONDS ≤ u64_max ∧
  (∀ k, pool_store (ext w) k = None) ∧ (∀ k, dist_store (ext w) k = None) ∧
  ∀ t a, 0 ≤ tok_balance (bank (ext w)) t a.

(** What holds between transactions. *)
Definition settled w : Prop :=
  self w = escrow_at ∧ silent (ctx w) ∧ callee (ext w) = invoked (ctx w) ∧
  now (ctx w) + Pool.TIMELOCK_DELAY_SECONDS ≤ u64_max.

Lemma on_bank_done {A} (f : T → option (A * T)) x a x' :
  on_bank f x = Some (a, x') → ∃ b, f (bank x) = Some (a, b) ∧ x' = with_bank b x.
Proof. unfold on_bank. intros Hx. repeat case_match; simplify_eq. eauto. Qed.
Lemma in_pool_done {A} (m : M _ _ A) x a x' :
  in_pool m x = Some (a, x') →
  ∃ p, m (pool_world (callee x) x) = Done a p ∧ x' = after_pool p x.
Proof. unfold in_pool. intros Hx. case_match; simplify_eq. eauto. Qed.
Lemma in_dist_done {A} (m : M _ _ A) x a x' :
  in_dist m x = Some (a, x') →
  ∃ d, m (dist_world (callee x) x) = Done a d ∧ x' = after_dist d x.
Proof. unfold in_dist. intros Hx. case_match; simplify_eq. eauto. Qed.

(** *** What one move is on this chain *)
Inductive chain_move (r : reach) c x : Chain T → Prop :=
| cm_bank b :
    (∀ t, tok_balance (bank x) t insurance_at ≤ tok_balance b t insurance_at) →
    chain_move r c x (with_bank b x)
| cm_dist call d :
    accruing r = true → Distribution.is_claim call = false →
    Distribution.exec call (dist_world (callee x) x) = Done tt d →
    chain_move r c x (after_dist d x)
| cm_pool id lp n p :
    claiming r = true → Pool.claim id lp (pool_world (callee x) x) = Done n p → chain_move r c x (after_pool p x)
| cm_none : chain_move r c x x.

Lemma move_chain k c x x' :
  silent c → move k escrow_at c x x' → chain_move k c x x'.
Proof.
  intros [_ Hs] Hm. destruct Hm as [t a b n Ha Hx|? ? ? ? Hk Hx|? ? ? ? ? Hk Hx|? ? ? Hx|? ? ? ? Hk Hx
    |? ? ? Hx|? ? Hx|? ? ? Hx]; simpl in Hx; try case_decide;
    try (apply on_bank_done in Hx as (y & Hy & ->); apply cm_bank; intros t0).
  - case_match eqn:Ht; [| done]. simplify_eq. apply cm_bank. intros t'.
    pose proof (transfer_covered _ _ _ _ _ _ Ht).
    rewrite (transfer_balance _ _ _ _ _ _ t' _ Ht).
    assert (a ≠ insurance_at).
    { pose proof insurance_not_escrow. destruct Ha; congruence. }
    repeat case_bool_decide; try lia; naive_solver.
  - apply in_dist_done in Hx as (d' & Hd & ->). destruct u.
    by apply (cm_dist _ _ _ (Distribution.AccrueLp lp n)).
  - by eapply accrue_lp_spares.
  - apply in_dist_done in Hx as (d' & Hd & ->). destruct u.
    by apply (cm_dist _ _ _ (Distribution.AccrueSettlement f p b)).
  - by eapply accrue_settlement_spares.
  - apply in_pool_done in Hx as (p' & Hp & ->). apply reads_done in Hp as [_ ->].
    destruct x. apply cm_none.
  - by eapply is_enrolled_spares.
  - apply in_pool_done in Hx as (p' & Hp & ->). by eapply cm_pool.
  - by eapply pool_claim_spares.
  - by eapply payer_data_spares.
  - by eapply interface_version_spares.
  - by eapply get_price_spares.
Qed.

Lemma chain_move_callee k c x x' : chain_move k c x x' → callee x' = callee x.
Proof. by destruct 1. Qed.

Lemma acts_moves k w w' :
  settled w → acts k w w' →
  rtc (chain_move k (ctx w)) (ext w) (ext w') ∧ callee (ext w') = callee (ext w) ∧
  self w' = self w ∧ ctx w' = ctx w.
Proof.
  intros (Hs & Hq & _) (Hs' & Hc' & Hr). rewrite Hs in Hr.
  assert (rtc (chain_move k (ctx w)) (ext w) (ext w')) as Hr'.
  { clear Hs' Hc'. induction Hr as [|x y z Hm _ IH]; [done |].
    eapply rtc_l; [by apply move_chain | exact IH]. }
  split_and!; try done. clear -Hr'. induction Hr' as [|x y z Hm _ IH]; [done |].
  rewrite IH. by eapply chain_move_callee.
Qed.

Lemma acts_settled k w w' : settled w → acts k w w' → settled w'.
Proof.
  intros Hs Ha. destruct (acts_moves _ _ _ Hs Ha) as (_ & Hk & Hself & Hctx).
  unfold settled. by rewrite Hk, Hself, Hctx.
Qed.

Lemma sys_settled ok w w' : wf w → settled w → sys ok w w' → settled w'.
Proof.
  intros Hw Hs Hx. destruct Hx as [call w' _ _ Hx | | | | c Hc Hle Hmax]; try exact Hs.
  - eapply acts_settled; [exact Hs |]. by eapply (exec_acts everything).
  - destruct Hs as (Hself & _). by split_and!.
Qed.

(** ** The escrow contract's part

    Every transaction of the chain is a call of the escrow contract or a step of the
    environment its own model allows. *)
Lemma sys_quiet x x' w :
  settled w → (∀ t, tok_balance (bank x) t escrow_at ≤ tok_balance (bank x') t escrow_at) →
  ext w = x → environment w (with_ext x' w).
Proof.
  intros (Hs & _) Hb Hx. split_and!; try done. intros t. rewrite Hs. simpl. rewrite Hx. apply Hb.
Qed.

Lemma transferred_spares me c (b b' : T) a t :
  transferred me c b b' → a ≠ me → auth c a = false → tok_balance b t a ≤ tok_balance b' t a.
Proof.
  intros [-> | (t' & e & d & n & He & Hx)] Hne Hs; [done |].
  pose proof (transfer_covered _ _ _ _ _ _ Hx). rewrite (transfer_balance _ _ _ _ _ _ t a Hx).
  assert (a ≠ e) by (destruct He; congruence).
  repeat case_bool_decide; try lia; naive_solver.
Qed.

Lemma dist_spares call d x c a t :
  Distribution.exec call (dist_world c x) = Done tt d →
  tok_balance (bank x) t a ≤ tok_balance (ext d) t a.
Proof.
  intros (_ & _ & [-> | (t' & a' & n & Hx)])%dist_call_transfers; [done |].
  pose proof (mint_nonneg _ _ _ _ _ Hx). rewrite (mint_balance _ _ _ _ _ t a Hx). simpl.
  case_bool_decide; lia.
Qed.

Lemma sys_escrow_step ok w w' : settled w → sys ok w w' → step ok w w'.
Proof.
  intros Hs Hx. destruct Hx as [call w' | call n p Ht Hx | call d Hx | b Hb | c Hc Hle Hmax].
  - by eapply step_call.
  - apply step_env, (sys_quiet (ext w)); [done | | done]. intros t.
    apply pool_call_transfers in Hx as (_ & _ & Hx). simpl.
    eapply transferred_spares; [exact Hx | | apply Hs]. apply not_eq_sym, insurance_not_escrow.
  - apply step_env, (sys_quiet (ext w)); [done | | done]. intros t. by eapply dist_spares.
  - apply step_env, (sys_quiet (ext w)); [done | | done]. intros t. apply Hb. by left.
  - apply step_env. unfold environment. simpl. by split_and!.
Qed.

(** ** The pool's part *)
Definition pool_part (w0 : W) : world Pool.PoolKey.DataKey T Pool.PoolEvent :=
  pool_world (ctx w0) (ext w0).

(** The pool's state at [x] is the end of a history that happened up to time [t]. *)
Definition pool_reaches (p0 : world Pool.PoolKey.DataKey T Pool.PoolEvent)
    (tr : list entry) x (t : Z) : Prop :=
  ∃ c, pool_run p0 tr (pool_world c x) ∧ now c ≤ t.

Lemma pool_elsewhere p0 tr x x' t :
  pool_reaches p0 tr x t → pool_store x' = pool_store x →
  (∀ t, tok_balance (bank x) t insurance_at ≤ tok_balance (bank x') t insurance_at) →
  pool_reaches p0 tr x' t.
Proof.
  intros (c & Hr & Hle) Hs Hb. exists c. split; [| done].
  eapply run_elsewhere; [exact Hr |]. split_and!; simpl; try done. intros k. by rewrite Hs.
Qed.

Lemma pool_calls p0 tr x t c call n p :
  pool_reaches p0 tr x t → t ≤ now c → auth c insurance_at = false →
  now c + Pool.TIMELOCK_DELAY_SECONDS ≤ u64_max → pool_typed call = true →
  pool_exec call (pool_world c x) = Done n p →
  pool_reaches p0 ((c, call, n) :: tr) (after_pool p x) (now c).
Proof.
  intros (c0 & Hr & Hle) Ht Ha Hmax Hty Hx. exists c. split; [| done].
  pose proof (pool_call_transfers _ _ _ _ Hx) as (Hs & Hc & _). simpl in *.
  replace (pool_world c (after_pool p x)) with p
    by (destruct p; simpl in *; by subst).
  eapply run_call; [exact Hr | | exact Hx]. split_and!; simpl; try done. lia.
Qed.

Lemma move_pool k p0 tr c x x' :
  silent c → callee x = invoked c → now c + Pool.TIMELOCK_DELAY_SECONDS ≤ u64_max →
  pool_reaches p0 tr x (now c) → chain_move k c x x' →
  ∃ tr', pool_reaches p0 (tr' ++ tr) x' (now c).
Proof.
  intros [_ Hq] Hk Hmax Hr Hm. destruct Hm as [b Hb | call d _ _ Hx | id lp n p _ Hx |].
  - exists []. eapply pool_elsewhere; [exact Hr | done | done].
  - exists []. eapply pool_elsewhere; [exact Hr | done |]. intros t. by eapply dist_spares.
  - exists [(callee x, PClaim id lp, n)]. simpl. rewrite Hk in *.
    change (now c) with (now (invoked c)).
    eapply (pool_calls _ _ _ (now c)); try done. simpl. rewrite Hq.
    apply bool_decide_eq_false_2, insurance_not_escrow.
  - by exists [].
Qed.

Lemma acts_pool k p0 tr w w' :
  settled w → acts k w w' → pool_reaches p0 tr (ext w) (now (ctx w)) →
  ∃ tr', pool_reaches p0 (tr' ++ tr) (ext w') (now (ctx w')).
Proof.
  intros Hs Ha Hr. destruct (acts_moves _ _ _ Hs Ha) as (Hm & _ & _ & Hc). rewrite Hc.
  destruct Hs as (_ & Hq & Hk & Hmax). clear Ha Hc. revert tr Hk Hr.
  induction Hm as [x|x y z Hm _ IH]; intros tr Hk Hr; [by exists [] |].
  destruct (move_pool _ _ _ _ _ _ Hq Hk Hmax Hr Hm) as [tr1 Hr1].
  pose proof (chain_move_callee _ _ _ _ Hm) as Hk'.
  destruct (IH (tr1 ++ tr)) as [tr2 Hr2]; [congruence | done |].
  exists (tr2 ++ tr1). by rewrite <- (assoc_L (++)).
Qed.

Lemma sys_pool_step ok p0 tr w w' :
  wf w → settled w → sys ok w w' → pool_reaches p0 tr (ext w) (now (ctx w)) →
  ∃ tr', pool_reaches p0 (tr' ++ tr) (ext w') (now (ctx w')).
Proof.
  intros Hw Hs Hx Hr. pose proof Hs as (_ & Hq & _ & Hmax).
  destruct Hx as [call w' _ _ Hx | call n p Ht Hx | call d Hx | b Hb | c Hc Hle _].
  - eapply acts_pool; [exact Hs | | exact Hr]. by eapply (exec_acts everything).
  - exists [(ctx w, call, n)]. eapply pool_calls; [exact Hr | done | apply Hq | done..].
  - exists []. eapply pool_elsewhere; [exact Hr | done |]. intros t. by eapply dist_spares.
  - exists []. eapply pool_elsewhere; [exact Hr | done |]. intros t. apply Hb. by right.
  - exists []. destruct Hr as (c0 & Hr & Ht). exists c0. simpl. split; [| lia].
    eapply run_elsewhere; [exact Hr |]. by split_and!.
Qed.

(** Both parts of a run. *)
Lemma sys_run ok p0 tr w w' :
  wf w → settled w → pool_reaches p0 tr (ext w) (now (ctx w)) → rtc (sys ok) w w' →
  rtc (step ok) w w' ∧ wf w' ∧ settled w' ∧
  ∃ tr', pool_reaches p0 (tr' ++ tr) (ext w') (now (ctx w')).
Proof.
  intros Hw Hs Hp Hr. revert tr Hw Hs Hp.
  induction Hr as [|w1 w2 w3 Hx _ IH]; intros tr Hw Hs Hp; [by split_and!; try exists [] |].
  pose proof (sys_escrow_step _ _ _ Hs Hx) as Hx'.
  destruct (sys_pool_step _ _ _ _ _ Hw Hs Hx Hp) as [tr1 Hp1].
  destruct (IH (tr1 ++ tr)) as (Hst & Hw3 & Hs3 & tr2 & Hp2);
    [by eapply step_wf | by eapply sys_settled | done |].
  split_and!; [by eapply rtc_l | done | done |]. exists (tr2 ++ tr1).
  by rewrite <- (assoc_L (++)).
Qed.

Lemma launched_start w0 :
  launched w0 → wf w0 ∧ settled w0 ∧ pool_reaches (pool_part w0) [] (ext w0) (now (ctx w0)).
Proof.
  intros (Hd & Hs & Hq & Hk & Hmax & _). split; [by apply deployed_wf |].
  split; [by split_and! |]. exists (ctx w0). split; [apply run_start | done].
Qed.

Lemma sys_parts ok w0 w :
  launched w0 → rtc (sys ok) w0 w →
  rtc (step ok) w0 w ∧ wf w ∧ settled w ∧
  ∃ tr, pool_reaches (pool_part w0) tr (ext w) (now (ctx w)).
Proof.
  intros (Hw & Hs & Hp)%launched_start Hr.
  destruct (sys_run _ _ _ _ _ Hw Hs Hp Hr) as (? & ? & ? & tr & Htr). eauto.
Qed.

Lemma launched_fresh w0 : launched w0 → fresh (pool_part w0).
Proof. intros (_ & _ & _ & _ & _ & Hp & _ & Hb). split; [exact Hp |]. intros t. apply Hb. Qed.
End composition.
