(* ===== verification/Accruals.v ===== *)
(** What the escrow contract reports to the distribution contract: every financing and
    every settlement of an invoice, and nothing else, enters the counters rewards are
    computed from. *)
From S2P Require Import Prelude Host Peers CoreTypes TopPayers CoreStore Access TokenSafety Nft.
From S2P Require Import OracleRegistry Pricing ConfigRs Admin Lifecycle Frames CoreSpecs Edits Queue.
From S2P Require Import Multisig System Invariants Footprint Distribution Insurance InsuranceProps.
From S2P Require Import Moves Chain Composition.

(** The counters and the rates of the distribution contract. *)
Definition earning_key (k : Distribution.StorageKey) : bool :=
  match k with
  | Distribution.LpFundedVolume _ | Distribution.FreelancerSettled _
  | Distribution.PayerOnTimeSettled _ | Distribution.LpRewardRate
  | Distribution.FreelancerRewardRate | Distribution.PayerRewardRate => true
  | _ => false
  end.

Abbreviation dist_storage := (storage Distribution.StorageKey).

Definition volume_accrued (lp : Address) (n : Z) (s : dist_storage) : dist_storage :=
  if (n <=? 0) || (Distribution.MAX_LP_ACCRUAL_PER_CALL <? n) then s
  else st_set s (Distribution.LpFundedVolume lp)
         (Some (sat_i128 (Distribution.entry_or s (Distribution.LpFundedVolume lp) 0 + n))).

Definition settlement_accrued (freelancer payer : Address) (on_time : bool)
    (s : dist_storage) : dist_storage :=
  let s := st_set s (Distribution.FreelancerSettled freelancer)
    (Some (sat_u64 (Distribution.entry_or s (Distribution.FreelancerSettled freelancer) 0 + 1))) in
  if on_time then
    st_set s (Distribution.PayerOnTimeSettled payer)
      (Some (sat_u64 (Distribution.entry_or s (Distribution.PayerOnTimeSettled payer) 0 + 1)))
  else s.

Section accruals.
Context {T : Type} `{TokenLaws T} `{Peers T} `{Deployment}.
Context `{!PeerLaws T escrow_at} `{!PeerLaws T insurance_at}.
Variables (MAX_FEE_TIERS MAX_IDENTITY_ORACLES_PER_FEED MAX_PRICE_SOURCES_PER_FEED : Z)
  (gen_range : Z → Z) (top : Z).
Abbreviation W := (world DataKey (Chain T) Event).
Abbreviation IO := (M W ContractError).
Abbreviation exec :=
  (exec MAX_FEE_TIERS MAX_IDENTITY_ORACLES_PER_FEED MAX_PRICE_SOURCES_PER_FEED gen_range).
Abbreviation sys :=
  (sys MAX_FEE_TIERS MAX_IDENTITY_ORACLES_PER_FEED MAX_PRICE_SOURCES_PER_FEED gen_range top).
Implicit Types (w : W) (x : Chain T).

(** What one call reports. *)
Definition reported (call : Call) w (s : dist_storage) : dist_storage :=
  if bool_decide (store w Key.DistributionContract = Some distribution_at) then
    match call with
    | FundInvoice lp _ n _ => volume_accrued lp n s
    | MarkPaid id n =>
        match invoice_at w id with
        | Some i =>
            if i_amount_paid i + n <? i_amount i then s
            else settlement_accrued (i_freelancer i) (i_payer i) (now (ctx w) <=? i_due_date i) s
        | None => s
        end
    | _ => s
    end
  else s.

(** Without a report the contract's storage stays as it is. *)
Lemma acts_dist w w' :
  settled w → acts no_report w w' → dist_store (ext w') = dist_store (ext w).
Proof.
  intros Hs Ha. destruct (acts_moves _ _ _ Hs Ha) as (Hm & _). clear -Hm.
  induction Hm as [|x y z Hm _ IH]; [done |]. rewrite IH. by destruct Hm.
Qed.

(** The stretches of a call between reports: the rest of the chain changes without one
    and the address of the distribution contract stays. *)
Definition not_distribution (k : DataKey) : bool :=
  negb (bool_decide (k = Key.DistributionContract)).
Definition stretch w w' : Prop := acts no_report w w' ∧ touches not_distribution w w'.
#[local] Instance stretch_preorder : PreOrder stretch.
Proof. split; [done |]. intros w1 w2 w3 [??] [??]. split; by etrans. Qed.
Lemma keeps_stretch {A} (m : IO A) :
  keeps (acts no_report) m → keeps (touches not_distribution) m → keeps stretch m.
Proof. intros Ha Ht w a w' Hx. split; [by eapply Ha | by eapply Ht]. Qed.
Hint Resolve keeps_stretch : keeps.

Lemma stretch_facts w w' :
  settled w → stretch w w' →
  settled w' ∧ dist_store (ext w') = dist_store (ext w) ∧ ctx w' = ctx w ∧
  store w' Key.DistributionContract = store w Key.DistributionContract.
Proof.
  intros Hs [Ha (_ & Hc & Hk)]. split; [by eapply acts_settled |].
  split; [by apply acts_dist |]. split; [done |]. by apply Hk.
Qed.

(** *** The two reports *)
Lemma accrue_lp_store lp n x a x' :
  in_dist (Distribution.accrue_lp lp n) x = Some (a, x') →
  dist_store x' = volume_accrued lp n (dist_store x).
Proof.
  intros (d & Hd & ->)%in_dist_done. unfold Distribution.accrue_lp,
    Distribution.require_iln_invoker in Hd. unfold volume_accrued. by minv Hd.
Qed.
Lemma accrue_settlement_store f p b x a x' :
  in_dist (Distribution.accrue_settlement f p b) x = Some (a, x') →
  dist_store x' = settlement_accrued f p b (dist_store x).
Proof.
  intros (d & Hd & ->)%in_dist_done. unfold Distribution.accrue_settlement,
    Distribution.require_iln_invoker in Hd. unfold settlement_accrued. by minv Hd.
Qed.

Lemma on_bank_store {A} (f : T → option (A * T)) x a x' :
  on_bank f x = Some (a, x') → dist_store x' = dist_store x.
Proof. by intros (b & _ & ->)%on_bank_done. Qed.

Lemma notify_funding_store lp n w w' :
  (notify_distribution_funding lp n : IO unit) w = Done tt w' →
  dist_store (ext w') =
    (if bool_decide (store w Key.DistributionContract = Some distribution_at)
     then volume_accrued lp n (dist_store (ext w)) else dist_store (ext w)).
Proof.
  intros Hx. unfold notify_distribution_funding in Hx. minv Hx; case_bool_decide; simplify_eq.
  - case_decide; [| done]. by eapply accrue_lp_store.
  - case_decide; [congruence |]. by eapply on_bank_store.
Qed.
Lemma notify_settlement_store f p b w w' :
  (notify_distribution_settlement f p b : IO unit) w = Done tt w' →
  dist_store (ext w') =
    (if bool_decide (store w Key.DistributionContract = Some distribution_at)
     then settlement_accrued f p b (dist_store (ext w)) else dist_store (ext w)).
Proof.
  intros Hx. unfold notify_distribution_settlement in Hx. minv Hx; case_bool_decide; simplify_eq.
  - case_decide; [| done]. by eapply accrue_settlement_store.
  - case_decide; [congruence |]. by eapply on_bank_store.
Qed.

Lemma report_after w w1 w' (g : dist_storage → dist_storage) :
  settled w → stretch w w1 →
  dist_store (ext w') =
    (if bool_decide (store w1 Key.DistributionContract = Some distribution_at)
     then g (dist_store (ext w1)) else dist_store (ext w1)) →
  dist_store (ext w') =
    (if bool_decide (store w Key.DistributionContract = Some distribution_at)
     then g (dist_store (ext w)) else dist_store (ext w)).
Proof. intros Hs Hst ->. by destruct (stretch_facts _ _ Hs Hst) as (_ & -> & _ & ->). Qed.

Lemma fund_stretch f id n b i p w w1 w2 :
  fund_checks f id n b w = Done (i, p) w1 → fund_collect f i n p w1 = Done tt w2 →
  stretch w w2.
Proof.
  intros Hc Hcol. pose proof Hc as (_ & Ha & _)%fund_checks_spec.
  assert (stretch w w1) as S1.
  { split; [by apply (fund_checks_acts no_report) in Hc |].
    by apply (fund_checks_touches not_distribution) in Hc. }
  etrans; [exact S1 |]. split.
  - eapply (fund_collect_acts no_report); [exact Hcol |].
    by rewrite (proj1 (proj2 (proj2 S1))).
  - assert (keeps (touches not_distribution) (fund_collect f i n p : IO unit)) as K
      by (unfold fund_collect; frame).
    by apply K in Hcol.
Qed.

Lemma fund_invoice_reports f id n b w w' :
  settled w → fund_invoice f id n b w = Done tt w' →
  dist_store (ext w') = reported (FundInvoice f id n b) w (dist_store (ext w)).
Proof.
  intros Hs Hx. assert (stretch w w) as S by done. unfold fund_invoice in Hx.
  through S Hx. through S Hx.
  apply bind_done in Hx as ([i p] & w2 & Hc & Hx).
  apply bind_done in Hx as ([] & w3 & Hcol & Hx).
  pose proof (fund_stretch _ _ _ _ _ _ _ _ _ Hc Hcol) as S3. clear Hc Hcol.
  assert (stretch w w3) as S' by (by etrans). clear S S3. rename S' into S.
  apply bind_done in Hx as (i' & w4 & Hap & Hx). unfold fund_apply in Hap.
  match type of Hap with ?m _ = _ => stretched S m Hap end.
  apply bind_done in Hx as ([] & w5 & Hfin & ->%unlock_reentrancy_done). simpl.
  unfold fund_finish in Hfin. through S Hfin. through S Hfin. through S Hfin.
  apply bind_done in Hfin as ([] & wn & Hn%notify_funding_store & Hfin).
  assert (dist_store (ext w5) = dist_store (ext wn)) as -> by (by minv Hfin).
  by eapply report_after.
Qed.

Lemma settle_reports id i p fs w w' :
  settled w → settle_in_full id i p fs w = Done tt w' →
  dist_store (ext w') =
    (if bool_decide (store w Key.DistributionContract = Some distribution_at)
     then settlement_accrued (i_freelancer i) (i_payer i) (now (ctx w) <=? i_due_date i)
            (dist_store (ext w))
     else dist_store (ext w)).
Proof.
  intros Hs Hx. assert (stretch w w) as S by done. unfold settle_in_full, effective_fee_rate in Hx.
  do 7 through S Hx.
  apply bind_done in Hx as (t & w8 & [-> ->]%timestamp_done & Hx). cbv zeta in Hx.
  apply bind_done in Hx as ([] & wn & Hn%notify_settlement_store & Hx).
  assert (dist_store (ext w') = dist_store (ext wn)) as ->.
  { match type of Hx with ?m _ = _ =>
      assert (keeps (inner (λ _, true)) m) as K by frame end.
    apply K in Hx as [_ Hx]. unfold quiet in Hx. by rewrite Hx. }
  destruct (stretch_facts _ _ Hs S) as (_ & _ & Hc & _). rewrite Hc in Hn.
  by eapply report_after.
Qed.

Lemma payment_stretch t a b n w w' :
  auth (ctx w) a = true → (invoke (ext_transfer t a b n) : IO unit) w = Done tt w' → stretch w w'.
Proof.
  intros Ha Hx. split; [by eapply (transfer_acts no_report); [right | exact Hx] |].
  assert (keeps (touches not_distribution) (invoke (ext_transfer t a b n) : IO unit)) as K
    by frame. by apply K in Hx.
Qed.

Lemma mark_paid_reports id n w w' :
  wf w → settled w → mark_paid id n w = Done tt w' →
  dist_store (ext w') = reported (MarkPaid id n) w (dist_store (ext w)).
Proof.
  intros Hw Hs Hx. unfold mark_paid in Hx.
  apply bind_done in Hx as ([] & w1 & [_ ->]%lock_reentrancy_done & Hx).
  apply bind_done in Hx as ([] & w1 & [_ ->]%require_not_paused_done & Hx).
  apply bind_done in Hx as ([] & w1 & [_ ->]%reject_if_done & Hx).
  apply bind_done in Hx as (o & w1 & [-> ->]%try_load_invoice_done & Hx).
  apply bind_done in Hx as (i & w1 & [Hl ->]%ok_or_done & Hx).
  apply bind_done in Hx as ([] & w1 & (j & Hj & Ha & ->)%require_payer_by_id_done & Hx).
  autorewrite with view in *. rewrite wf_lookup in Hl by done.
  assert (i = j) as <- by congruence.
  apply bind_done in Hx as ([] & w2 & [_ ->]%require_funded_done & Hx).
  apply bind_done in Hx as ([] & w2 & [_ ->]%reject_if_done & Hx).
  apply bind_done in Hx as (fs & w2 & [-> ->]%get_invoice_funders_done & Hx).
  apply bind_done in Hx as (p & w2 & [_ ->]%ok_or_done & Hx).
  apply bind_done in Hx as (paid & w2 & [Hp ->]%ok_or_done & Hx).
  apply bind_done in Hx as ([] & w2 & [_ ->]%require_authorized_done & Hx).
  apply bind_done in Hx as (me & w2 & [-> ->]%current_contract_done & Hx).
  apply bind_done in Hx as ([] & w2 & Htr & Hx).
  apply bind_done in Hx as ([] & w3 & Hset & ->%unlock_reentrancy_done).
  apply payment_stretch in Htr; [| done]. simpl.
  apply checked_Some in Hp as [_ ->]. unfold reported. rewrite Hj. simpl in Hset.
  assert (settled (lock_world w)) as Hs1 by done.
  destruct (stretch_facts _ _ Hs1 Htr) as (Hs2 & Hd & Hc & Hk). simpl in Hd, Hc, Hk.
  destruct (_ <? _).
  - assert (dist_store (ext w3) = dist_store (ext w2)) as ->.
    { match type of Hset with ?m _ = _ =>
        assert (keeps (inner (λ _, true)) m) as K by frame end.
      apply K in Hset as [_ Hset]. unfold quiet in Hset. by rewrite Hset. }
    rewrite Hd. by case_bool_decide.
  - apply settle_reports in Hset; [| done]. simpl in Hset. by rewrite Hset, Hk, Hc, Hd.
Qed.

Lemma exec_reports call w w' :
  wf w → settled w → exec call w = Done tt w' →
  dist_store (ext w') = reported call w (dist_store (ext w)).
Proof.
  intros Hw Hs Hx. destruct (accrues call) eqn:Ha.
  - destruct call; try done; [by eapply fund_invoice_reports | by apply mark_paid_reports].
  - rewrite (acts_dist w w'); [| done | by eapply (exec_acts no_report); [| rewrite Ha | | exact Hx]].
    unfold reported. destruct call; try done; by case_bool_decide.
Qed.

(** The distribution contract, deployed for this escrow contract. *)
Definition dist_ready x : Prop :=
  is_Some (dist_store x Distribution.Initialized) ∧
  dist_store x Distribution.IlnContract = Some escrow_at.

(** Users cannot write the counters themselves. *)
Lemma user_call_earns_nothing call c x d :
  dist_ready x → auth c escrow_at = false →
  Distribution.exec call (dist_world c x) = Done tt d →
  ∀ k, earning_key k = true → store d k = dist_store x k.
Proof.
  intros [Hi He] Hs Hx k Hk.
  destruct call; simpl in Hx;
    unfold Distribution.initialize, Distribution.accrue_lp, Distribution.accrue_settlement,
      Distribution.claim_tokens, Distribution.set_lp_reward_rate,
      Distribution.set_freelancer_reward_rate, Distribution.set_payer_reward_rate,
      Distribution.require_iln_invoker, Distribution.require_governance_invoker in Hx;
    minv Hx; simplify_eq; try congruence; bools; try done; by sto.
Qed.

(** C10: rewards follow invoices.  In a transaction of the chain, by whomever and to
    whichever contract, the counters and rates that rewards are computed from change in
    one way only: a successful call of the escrow contract leaves the distribution
    contract with exactly what that call reports (a financing adds its amount to the
    volume of the LP, a closing payment adds one settlement for the freelancer and, when on time,
    for the payer), and everything else leaves them alone. *)
Theorem rewards_follow_invoices ok w w' :
  wf w → settled w → dist_ready (ext w) → sys ok w w' →
  (∃ call, exec call w = Done tt w' ∧
     dist_store (ext w') = reported call w (dist_store (ext w))) ∨
  (∀ k, earning_key k = true → dist_store (ext w') k = dist_store (ext w) k).
Proof.
  intros Hw Hs Hr Hx. destruct Hx as [call w' _ _ Hx | | call d Hx | |]; try (by right).
  - left. exists call. split; [exact Hx |]. by apply exec_reports.
  - right. eapply user_call_earns_nothing; [exact Hr | apply Hs | exact Hx].
Qed.

(** ** Claims over a run *)
Definition claimed_by w (p : Address) : Z := Distribution.claimed (dist_store (ext w)) p.
Definition earned_by w (p : Address) : Z := Distribution.total_earned (dist_store (ext w)) p.

Lemma reported_claimed call w s p : Distribution.claimed (reported call w s) p = Distribution.claimed s p.
Proof.
  unfold reported, volume_accrued, settlement_accrued, Distribution.claimed, Distribution.entry_or.
  repeat case_match; by sto.
Qed.

(** One transaction leaves a participant's claim ledger alone or sets it to what the
    participant had earned. *)
Lemma sys_claimed ok w w' p :
  wf w → settled w → 0 ≤ claimed_by w p → sys ok w w' →
  claimed_by w' p = claimed_by w p ∨
  claimed_by w p ≤ claimed_by w' p ∧ claimed_by w' p = earned_by w p.
Proof.
  intros Hw Hs Hpos Hx. unfold claimed_by, earned_by in *.
  destruct Hx as [call w' _ _ Hx | | call d Hx | |]; try (by left).
  - left. rewrite (exec_reports call w w') by done. apply reported_claimed.
  - destruct (Distribution.is_claim call) eqn:Hc.
    2: { left. apply Distribution.exec_non_claim in Hx as (_ & _ & Hx); [apply Hx | done]. }
    destruct call as [| | |a| | |]; try done. simpl in Hx.
    apply bind_done in Hx as (n & w1 & Hx & [_ ->]%ret_done). simpl.
    destruct (decide (a = p)) as [-> | Hne].
    + apply Distribution.claim_tokens_spec in Hx as [(_ & -> & _) | (gov & y & _ & En & Hn & _ & _ & _ & Est)];
        [by left | | done]. right. unfold Distribution.claimed, Distribution.entry_or in *.
      rewrite Est. simpl in *. sto. simpl. split; [lia | done].
    + left. unfold Distribution.claim_tokens in Hx. unfold Distribution.claimed, Distribution.entry_or.
      minv Hx; by sto.
Qed.

Lemma claims_earned ok w0 w p :
  launched w0 → rtc (sys ok) w0 w →
  ∃ w1, rtc (sys ok) w0 w1 ∧ rtc (sys ok) w1 w ∧
    0 ≤ claimed_by w p ≤ Z.max 0 (earned_by w1 p).
Proof.
  intros Hl Hr. revert w Hr. apply rtc_ind_r; [| intros w w' Hr Hx (w1 & R1 & R2 & Hc)].
  - exists w0. split; [done |]. split; [done |].
    destruct Hl as (_ & _ & _ & _ & _ & _ & Hd & _). unfold claimed_by, Distribution.claimed,
      Distribution.entry_or. rewrite Hd. simpl. lia.
  - destruct (sys_parts _ _ _ _ _ _ _ _ Hl Hr) as (_ & Hw & Hs & _).
    destruct (sys_claimed _ _ _ p Hw Hs (proj1 Hc) Hx) as [E | [Hle E]].
    + exists w1. rewrite E. split; [done |]. split; [by eapply rtc_r | done].
    + exists w. split; [done |]. split; [by apply rtc_once |]. lia.
Qed.
End accruals.
