(* ===== verification/CompositionProps.v ===== *)
(** What the three contracts guarantee together. *)
From S2P Require Import Prelude Host Peers CoreTypes TopPayers CoreStore Access TokenSafety Nft.
From S2P Require Import OracleRegistry Pricing ConfigRs Admin Lifecycle Frames CoreSpecs Edits Queue.
From S2P Require Import Multisig System Invariants Scenario Escrow Solvency SolvencyProps.
From S2P Require Import Distribution Insurance InsuranceProps Moves Chain Composition Accruals.

Section props.
Context {T : Type} `{TokenLaws T} `{Peers T} `{Deployment}.
Context `{!PeerLaws T escrow_at} `{!PeerLaws T insurance_at}.
Variables (MAX_FEE_TIERS MAX_IDENTITY_ORACLES_PER_FEED MAX_PRICE_SOURCES_PER_FEED : Z)
  (gen_range : Z → Z).
Abbreviation W := (world DataKey (Chain T) Event).
Abbreviation IO := (M W ContractError).
Abbreviation exec :=
  (exec MAX_FEE_TIERS MAX_IDENTITY_ORACLES_PER_FEED MAX_PRICE_SOURCES_PER_FEED gen_range).
Abbreviation step :=
  (step MAX_FEE_TIERS MAX_IDENTITY_ORACLES_PER_FEED MAX_PRICE_SOURCES_PER_FEED gen_range).
Abbreviation sys :=
  (sys MAX_FEE_TIERS MAX_IDENTITY_ORACLES_PER_FEED MAX_PRICE_SOURCES_PER_FEED gen_range).
Implicit Types (w : W) (x : Chain T).

(** C3: the contracts compose.  Every run of the chain, with users calling the escrow
    contract, the pool and the distribution contract in any order, is at once a run of
    the escrow contract in the environment its own theorems assume and a history of the
    pool in the sense of its own theorems, the claims the escrow contract makes on it
    included, so what is proved of each alone holds of it in the system; and what a
    participant has claimed of the distribution contract, it had earned at some
    moment of the run. *)
Theorem composition ok top w0 w :
  launched w0 → rtc (sys top ok) w0 w →
  rtc (step top ok) w0 w ∧
  (∃ tr c, pool_run (pool_part w0) tr (pool_world c (ext w)) ∧ now c ≤ now (ctx w)) ∧
  ∀ p, ∃ w1, rtc (sys top ok) w0 w1 ∧ rtc (sys top ok) w1 w ∧
    0 ≤ claimed_by w p ≤ Z.max 0 (earned_by w1 p).
Proof.
  intros Hl Hr. destruct (sys_parts _ _ _ _ _ _ _ _ Hl Hr) as (Hst & _ & _ & tr & c & Hp).
  split; [exact Hst |]. split; [eauto |]. intros p. by apply claims_earned.
Qed.

(** C7: the system is solvent.  After any run of prudent calls, the escrow contract's
    balance of every token covers its escrowed payouts and open obligations, and the
    pool's balance of its own token covers its two books, which are the premiums and top-ups
    received less the compensation paid: two claims on one set of balances, neither ever
    met from the other's. *)
Theorem system_solvent w0 w t :
  launched w0 → rtc (sys modest (prudent escrow_at)) w0 w →
  pending_total w t + owed w t ≤ tok_balance (bank (ext w)) t escrow_at ∧
  ∃ tr c, let p := pool_world c (ext w) in
    pool_run (pool_part w0) tr p ∧ 0 ≤ liquid p ∧ 0 ≤ backstop p ∧
    liquid p + backstop p = received tr - paid tr ∧
    (pool_store (ext w) Pool.PoolKey.TokenAddress = Some t →
     liquid p + backstop p ≤ tok_balance (bank (ext w)) t insurance_at).
Proof.
  intros Hl Hr. pose proof (launched_fresh _ Hl) as Hf. pose proof Hl as (Hd & Hs & _).
  destruct (sys_parts _ _ _ _ _ _ _ _ Hl Hr) as (Hst & _ & _ & tr & c & Hp & _). split.
  - pose proof (chain_peer_laws escrow_at insurance_not_escrow).
    eapply (run_backed escrow_at) in Hst as (Hme & _ & _ & Hfree);
      [| by apply deployed_backed; [.. | intros t'; apply Hl]].
    specialize (Hfree t). unfold free in Hfree. rewrite Hme in Hfree. simpl in Hfree. lia.
  - exists tr, c. destruct (run_books _ _ _ Hf Hp) as [(_ & Hlq & Hb & _ & _ & Hc) Ht].
    split; [exact Hp |]. split; [exact Hlq |]. split; [exact Hb |]. split; [exact Ht |].
    intros Htok. simpl in Hc. rewrite Htok in Hc. exact Hc.
Qed.

(** ** Compensation of a default *)

(** Everything a call does but the claim itself leaves the pool's storage. *)
Definition pool_still w w' : Prop :=
  ctx w' = ctx w ∧ pool_store (ext w') = pool_store (ext w) ∧ callee (ext w') = callee (ext w).
#[local] Instance pool_still_preorder : PreOrder pool_still.
Proof. split; [done |]. intros w1 w2 w3 (?&?&?) (?&?&?). split_and!; congruence. Qed.
Lemma still_inner {A} (m : IO A) : keeps (inner (λ _, true)) m → keeps pool_still m.
Proof. intros Hk w a w' [(_ & Hc & _) Hq]%Hk. unfold pool_still. by rewrite Hq. Qed.
Hint Extern 4 (keeps pool_still _) => apply still_inner : keeps.

Lemma still_transfer t a b n : keeps pool_still (invoke (ext_transfer t a b n) : IO unit).
Proof.
  intros w [] w' (x & Hx & ->)%invoke_done. apply ext_transfer_done in Hx. simpl in Hx.
  case_match; simplify_eq. done.
Qed.
Hint Resolve still_transfer : keeps.
Lemma still_refunds id i fs : keeps pool_still (refund_funders id i fs : IO unit).
Proof.
  unfold refund_funders, pay_or_escrow, transfer_from_self, pending_payout_total,
    pending_payout, is_authorized, query_authorized. frame.
Qed.
Hint Resolve still_refunds : keeps.

(** [claim_default] up to and from the attempt on the pool. *)
Definition aside w w' : Prop :=
  pool_still w w' ∧ touches (λ k, negb (bool_decide (k = Key.InsurancePool))) w w'.
#[local] Instance aside_preorder : PreOrder aside.
Proof. split; [done |]. intros w1 w2 w3 [??] [??]. split; by etrans. Qed.
Lemma keeps_aside {A} (m : IO A) :
  keeps pool_still m → keeps (touches (λ k, negb (bool_decide (k = Key.InsurancePool)))) m →
  keeps aside m.
Proof. intros Ha Ht w a w' Hx. split; [by eapply Ha | by eapply Ht]. Qed.
Hint Resolve keeps_aside : keeps.

Lemma claim_default_attempt f id w w' :
  claim_default f id w = Done tt w' →
  ∃ i w1 w2, aside w w1 ∧ (attempt_insurance id i f : IO unit) w1 = Done tt w2 ∧ pool_still w2 w'.
Proof.
  intros Hx. assert (aside w w) as S by done. unfold claim_default, require_lp,
    get_invoice_funders, save_pre_default_payer_score in Hx. do 12 through S Hx.
  apply bind_done in Hx as ([] & wn & Ha & Hx). eexists _, _, wn.
  split; [exact S |]. split; [exact Ha |]. clear S Ha.
  assert (pool_still wn wn) as S by done. do 5 through S Hx.
  match type of Hx with ?m _ = _ => by stretched S m Hx end.
Qed.

(** What the escrow contract saw of the pool when it defaulted the invoice. *)
Definition enrolled x (lp : Address) : bool :=
  default false (pool_store x (Pool.PoolKey.Enrolled lp)).

Lemma attempt_outcome id i f w w' :
  store w Key.InsurancePool = Some insurance_at →
  (attempt_insurance id i f : IO unit) w = Done tt w' →
  pool_store (ext w') = pool_store (ext w) ∨
  enrolled (ext w) f = true ∧
  ∃ n p, Pool.claim id f (pool_world (callee (ext w)) (ext w)) = Done n p ∧
    pool_store (ext w') = store p.
Proof.
  intros Hk Hx. unfold attempt_insurance, get_insurance_pool in Hx.
  apply bind_done in Hx as (o & w1 & [-> ->]%reads_done & Hx). rewrite Hk in Hx.
  apply bind_done in Hx as (e & w1 & He & Hx).
  assert (ext w1 = ext w ∧ (e = Some true → enrolled (ext w) f = true)) as [E1 Ee].
  { clear Hx. apply try_invoke_done in He as [(b & x & Hx & -> & ->) | (_ & -> & ->)]; [| done].
    simpl in Hx. rewrite decide_True in Hx by done.
    apply in_pool_done in Hx as (p & Hp & ->). apply reads_done in Hp as [-> ->].
    simpl. destruct (ext w). split; [done |]. by intros [= ?]. }
  case_bool_decide as Ht; [| left; apply ret_done in Hx as [_ ->]; by rewrite E1].
  apply bind_done in Hx as (r & w2 & Hr & ->%publish_done). simpl.
  apply try_invoke_done in Hr as [(n & x & Hx & -> & ->) | (_ & -> & ->)]; [| left; by rewrite E1].
  simpl in Hx. rewrite decide_True in Hx by done.
  apply in_pool_done in Hx as (p & Hp & ->). rewrite E1 in Hp. right. split; [by apply Ee |].
  exists n, p. split; [exact Hp | done].
Qed.

(** C9: compensation of a default.  When [claim_default] succeeds on a wired pool, either
    the pool keeps its books and records, or it paid the claimant: an
    enrolled LP, on an invoice never compensated before, with the breaker closed and the
    review done, exactly its coverage capped by the reserves, and the books
    fall by that amount (obligation X3). *)
Theorem default_compensation f id w w' :
  settled w → store w Key.InsurancePool = Some insurance_at →
  0 ≤ liquid (pool_part w) → 0 ≤ backstop (pool_part w) →
  exec (ClaimDefault f id) w = Done tt w' →
  let p := pool_part w in let p' := pool_part w' in
  store p' = store p ∨
  ∃ n, enrolled (ext w) f = true ∧ claimed p id = false ∧ circuit_open p = false ∧
    reviewed p id ∧ 0 ≤ n ∧
    n = Z.min (coverage_for p f) (sat_i128 (liquid p + backstop p)) ∧
    liquid p' = liquid p - Z.min n (liquid p) ∧
    liquid p' + backstop p' = liquid p + backstop p - n ∧
    ∀ j, claimed p' j = bool_decide (j = id) || claimed p j.
Proof.
  intros (_ & _ & Hk & _) Hi Hl Hb Hx p p'. simpl in Hx.
  apply claim_default_attempt in Hx as (i & w1 & w2 & [S1 (_ & _ & K1)] & Ha & S2).
  destruct S1 as (C1 & P1 & L1), S2 as (C2 & P2 & _).
  apply attempt_outcome in Ha; [| rewrite K1; [done | by rewrite bool_decide_eq_true_2]].
  destruct Ha as [Ha | (He & n & q & Hc & Hq)]; [left; subst p p'; simpl; congruence |].
  right. exists n. unfold enrolled in He. rewrite P1 in He. split; [exact He |].
  rewrite L1, Hk in Hc.
  assert (store p' = store q) as Eq by (subst p'; simpl; congruence).
  set (pw := pool_world (invoked (ctx w)) (ext w1)) in *.
  assert (liquid pw = liquid p ∧ backstop pw = backstop p ∧ coverage_for pw f = coverage_for p f ∧
    circuit_open pw = circuit_open p ∧ (reviewed pw id ↔ reviewed p id) ∧
    ∀ j, claimed pw j = claimed p j) as (Q1 & Q2 & Q3 & Q4 & Q5 & Q6).
  { unfold liquid, backstop, coverage_for, circuit_open, reviewed, claimed.
    subst pw p. simpl. rewrite P1. by split_and!. }
  apply claim_spec in Hc as [_ Hf Ho Hr _ Hn H0n Hm Hj _]; [| by rewrite ?Q1, ?Q2..].
  destruct Hm as (_ & _ & _ & _ & _ & _ & Hlq & Hbq & _).
  rewrite Q1, Q2, ?Q3 in *. rewrite Q6 in Hf. rewrite Q4 in Ho. apply Q5 in Hr.
  assert (liquid p' = liquid q ∧ backstop p' = backstop q ∧ ∀ j, claimed p' j = claimed q j)
    as (-> & -> & Ec) by (unfold liquid, backstop, claimed; by rewrite Eq).
  split_and!; try done; try lia. intros j. by rewrite Ec, Hj, Q6.
Qed.

(** A default is for good: the payer may appeal it, nothing reopens the invoice. *)
Definition in_default (s : InvoiceStatus) : bool :=
  match s with Status.Defaulted | Status.Appealed => true | _ => false end.
Lemma stays_in_default top ok w w' id i :
  wf w → rtc (step top ok) w w' → invoice_at w id = Some i → in_default (i_status i) = true →
  wf w' ∧ ∃ i', invoice_at w' id = Some i' ∧ in_default (i_status i') = true.
Proof.
  intros Hw Hr. revert i Hw. induction Hr as [|w w1 w2 Hs _ IH]; intros i Hw Hi Hd; [by eauto |].
  destruct (step_evolves _ _ _ _ _ _ _ _ Hw Hs) as [Hev _].
  destruct (evolves_status _ _ _ _ _ Hw Hev Hi) as (i' & Hi' & [Hst | Hst] & _).
  - eapply IH; [by eapply step_wf | exact Hi' | by rewrite Hst].
  - eapply IH; [by eapply step_wf | exact Hi' |]. by destruct (i_status i), (i_status i').
Qed.

(** C8: an invoice is compensated once, across the contracts.  After a successful
    [claim_default], in every continuation of the run, no [claim_default] of that invoice
    succeeds again, by anyone; and no invoice ever appears twice among the payouts of
    the pool, whether claimed through the escrow contract or by the pool's own admin
    (obligation X5). *)
Theorem compensated_once ok top w0 w f id w1 w2 :
  launched w0 → rtc (sys top ok) w0 w → exec (ClaimDefault f id) w = Done tt w1 →
  rtc (sys top ok) w1 w2 →
  (∀ f' w3, exec (ClaimDefault f' id) w2 ≠ Done tt w3) ∧
  ∃ tr c, pool_run (pool_part w0) tr (pool_world c (ext w2)) ∧ NoDup (claim_ids tr).
Proof.
  intros Hl Hr Hx Hr'. pose proof (launched_fresh _ Hl) as Hf.
  destruct (sys_parts _ _ _ _ _ _ _ _ Hl Hr) as (_ & Hw & Hs & tr & Hp).
  assert (acts everything w w1) as Ha by (by eapply (exec_acts everything)).
  destruct (acts_pool _ _ _ _ _ Hs Ha Hp) as [tr1 Hp1].
  pose proof (acts_settled _ _ _ Hs Ha) as Hs1.
  assert (wf w1) as Hw1.
  { apply (evolves_wf top w); [| exact Hw]. eapply exec_evolves; [apply _ | exact Hw | | exact Hx]. done. }
  apply claim_default_edits in Hx as (i & _ & _ & _ & _ & He); [| done].
  destruct (sys_run _ _ _ _ _ _ _ _ _ _ Hw1 Hs1 Hp1 Hr') as (Hst & _ & _ & tr2 & c & Hp2 & _).
  pose proof He as (_ & Hi & _).
  destruct (stays_in_default _ _ _ _ _ _ Hw1 Hst Hi eq_refl) as (Hw2 & i2 & Hi2 & Hd). split.
  - intros f' w3 Hx3. simpl in Hx3.
    apply claim_default_edits in Hx3 as (i3 & Hf3 & _ & _ & _ & Hi3 & _); [| done].
    rewrite Hi2 in Hi3. simplify_eq. by rewrite Hf3 in Hd.
  - eexists _, c. split; [exact Hp2 |]. by eapply pool_run_claimed.
Qed.
(** ** Whose tokens a call takes *)

(** What the pool holds of [t] beyond its books. *)
Definition surplus x (t : Address) : Z :=
  let p := pool_world (callee x) x in
  holds p t - (if bool_decide (store p Pool.PoolKey.TokenAddress = Some t) then total p else 0).
Definition pool_books x : Prop := books_ok (pool_world (callee x) x).

Lemma books_elsewhere x x' :
  pool_store x' = pool_store x →
  (∀ t, tok_balance (bank x) t insurance_at ≤ tok_balance (bank x') t insurance_at) →
  pool_books x → pool_books x' ∧ ∀ t, surplus x t ≤ surplus x' t.
Proof.
  intros Es Hb (Ha & Hl & Hbk & Hf & Hh & Hc).
  unfold pool_books, surplus, books_ok, total, liquid, backstop, funding_bps, holds in *.
  simpl in *. rewrite !Es. split; [| intros t; specialize (Hb t); lia].
  refine (conj Ha (conj Hl (conj Hbk (conj Hf (conj _ _))))).
  - intros t. specialize (Hh t). specialize (Hb t). lia.
  - destruct (pool_store x Pool.PoolKey.TokenAddress) as [t|]; [| done]. specialize (Hb t). lia.
Qed.

Lemma claim_books id lp n p x :
  Pool.claim id lp (pool_world (callee x) x) = Done n p → pool_books x →
  pool_books (after_pool p x) ∧ ∀ t, surplus x t ≤ surplus (after_pool p x) t.
Proof.
  intros Hx Hbk. pose proof Hbk as (_ & Hl & Hb & _). apply claim_spec in Hx; [| done..].
  destruct Hx as [_ _ _ _ _ Hn Hn0 Hm _ _]. cbv zeta in Hm.
  pose proof (sat_range i128_min i128_max (liquid (pool_world (callee x) x)
    + backstop (pool_world (callee x) x)) ltac:(by vm_compute)) as Hsr.
  assert (n ≤ liquid (pool_world (callee x) x) + backstop (pool_world (callee x) x)) as Hle.
  { assert (i128_min ≤ 0) by (by vm_compute). unfold sat in *. lia. }
  pose proof (books_move_ok _ _ _ _ Hbk Hm ltac:(lia) ltac:(lia)) as Hbk'.
  destruct Hm as (Hs & Hc & _ & Et & _ & _ & El & Eb & Eh).
  assert (pool_world (callee x) (after_pool p x) = p) as Ep
    by (destruct p; simpl in *; by subst).
  unfold pool_books, surplus. change (callee (after_pool p x)) with (callee x). rewrite Ep.
  split; [exact Hbk' |]. intros t. specialize (Eh t). unfold total. rewrite Et, El, Eb.
  case_bool_decide; lia.
Qed.

Lemma chain_move_books r c x x' :
  chain_move r c x x' → pool_books x → pool_books x' ∧ ∀ t, surplus x t ≤ surplus x' t.
Proof.
  intros [b Hb | call d _ _ Hx | id lp n p _ Hx |] Hk; [.. | by split].
  - by apply books_elsewhere.
  - apply books_elsewhere; [done | | done]. intros t. by eapply dist_spares.
  - by eapply claim_books.
Qed.

Lemma acts_books r w w' :
  settled w → acts r w w' → pool_books (ext w) → ∀ t, surplus (ext w) t ≤ surplus (ext w') t.
Proof.
  intros Hs Ha. destruct (acts_moves _ _ _ Hs Ha) as (Hm & _). clear Hs Ha.
  induction Hm as [x|x y z Hm _ IH]; [done |]. intros Hk t.
  destruct (chain_move_books _ _ _ _ Hm Hk) as [Hk' Ht]. etrans; [apply Ht | by apply IH].
Qed.

Lemma acts_pool_store w w' :
  settled w → acts no_claim w w' → pool_store (ext w') = pool_store (ext w).
Proof.
  intros Hs Ha. destruct (acts_moves _ _ _ Hs Ha) as (Hm & _). clear Hs Ha.
  induction Hm as [|x y z Hm _ IH]; [done |]. rewrite IH. by destruct Hm.
Qed.

(** C11: nobody's tokens move without a signature.  A successful call of the escrow
    contract, on any branch, leaves every address that did not sign it at least what it had
    of every token, the escrow contract and the insurance pool apart; contracts outside the
    repository are taken to spare that address.  The pool loses tokens only to
    [claim_default], and then never more than its books record as paid: what it holds
    beyond them does not fall. *)
Theorem unsigned_keeps_tokens ok top w0 w call w' :
  launched w0 → rtc (sys top ok) w0 w → exec call w = Done tt w' →
  (∀ a t, PeerLaws T a → a ≠ escrow_at → a ≠ insurance_at → auth (ctx w) a = false →
     tok_balance (bank (ext w)) t a ≤ tok_balance (bank (ext w')) t a) ∧
  (claims_cover call = false → ∀ t,
     tok_balance (bank (ext w)) t insurance_at ≤ tok_balance (bank (ext w')) t insurance_at) ∧
  ∀ t, surplus (ext w) t ≤ surplus (ext w') t.
Proof.
  intros Hl Hr Hx. pose proof (launched_fresh _ Hl) as Hf.
  destruct (sys_parts _ _ _ _ _ _ _ _ Hl Hr) as (_ & Hw & Hs & tr & c & Hp & _).
  apply (run_books _ _ _ Hf) in Hp as [Hbk _].
  assert (acts everything w w') as Ha by (by eapply (exec_acts everything)).
  pose proof (acts_books _ _ _ Hs Ha Hbk) as Hsur. split; [| split; [| exact Hsur]].
  - intros a t Hpa Hne Hni Hsig.
    pose proof (chain_peer_laws a (not_eq_sym Hni)) as Hlaws.
    change (tok_balance (ext w) t a ≤ tok_balance (ext w') t a).
    eapply acts_spares; [exact Hlaws | | exact Hsig | exact Ha].
    destruct Hs as [Hme _]. by rewrite Hme.
  - intros Hc t. assert (acts no_claim w w') as Hn.
    { eapply (exec_acts no_claim); [exact Hw | done | by rewrite Hc | exact Hx]. }
    apply acts_pool_store in Hn; [| exact Hs]. specialize (Hsur t).
    unfold surplus, total, liquid, backstop, holds in Hsur. simpl in Hsur.
    rewrite Hn in Hsur. lia.
Qed.
End props.
