(* ===== verification/ChainScenario.v ===== *)
(** A deployment of the three contracts on the reference SAC and a run of it, shared by
    the witnesses of the system's theorems: the pool is handed over to the escrow
    contract through its own timelock, an invoice is financed, accrues rewards, defaults
    and is compensated. *)
From S2P Require Import Prelude Host Peers CoreTypes TopPayers CoreStore Access TokenSafety Nft.
From S2P Require Import OracleRegistry Pricing ConfigRs Admin Lifecycle Frames CoreSpecs Edits Queue.
From S2P Require Import Multisig System Invariants Scenario Escrow Solvency SolvencyProps.
From S2P Require Import Distribution Insurance InsuranceProps Moves Chain Composition.

Module ChainScenario.
Import Scenario.

#[export] Instance site : Deployment := {|
  escrow_at := escrow; insurance_at := 101%N; distribution_at := 102%N;
  insurance_not_escrow := ltac:(discriminate)
|}.
Definition gov : Address := 60%N.
Definition boss : Address := 61%N.

Abbreviation W := (world DataKey (Chain Sac.t) Event).
Abbreviation exec c := (exec 10 5 8 (λ n, 0) c).
Abbreviation sys := (sys 10 5 8 (λ n, 0) modest).

(** Every user signs, no contract does. *)
Definition users (t : Z) : Ctx :=
  mkCtx (λ a, negb (bool_decide (a ∈ [escrow; 101%N; 102%N]))) t (t ÷ 5).

Definition chain_bank : Sac.t :=
  Sac.mk (Sac.balances bank) ∅ (<[gov := 102%N]> (Sac.admins bank)) (Sac.decimals bank).
Definition genesis : W :=
  mkWorld escrow (users 1000) st_empty
    (mkChain chain_bank st_empty [] st_empty [] (invoked (users 1000))) [].

(** ** Playing a script *)
Inductive Act :=
| AEscrow (c : Call) | APool (c : PoolCall) | ADist (c : Distribution.Call) | ALedger (t : Z).

Section play.
Variable (okb : Call → W → bool).
Definition perform (a : Act) (w : W) : option W :=
  match a with
  | AEscrow c =>
      if typed modest c && okb c w then
        match exec c w with Done _ w' => Some w' | Fault _ => None end
      else None
  | APool c =>
      if pool_typed c then
        match pool_exec c (pool_world (ctx w) (ext w)) with
        | Done _ p => Some (with_ext (after_pool p (ext w)) w)
        | Fault _ => None
        end
      else None
  | ADist c =>
      match Distribution.exec c (dist_world (ctx w) (ext w)) with
      | Done _ d => Some (with_ext (after_dist d (ext w)) w)
      | Fault _ => None
      end
  | ALedger t =>
      if (now (ctx w) <=? t) && (t + Pool.TIMELOCK_DELAY_SECONDS <=? u64_max)
      then Some (at_ledger (users t) w) else None
  end.
Fixpoint play (s : list Act) (w : W) : option W :=
  match s with [] => Some w | a :: s => w' ← perform a w; play s w' end.
Definition played (s : list Act) (w : W) : W := default w (play s w).
Definition plays (s : list Act) (w : W) : bool := bool_decide (is_Some (play s w)).

Lemma play_sys (ok : Call → W → Prop) s w w' :
  (∀ c w, okb c w = true → ok c w) → play s w = Some w' → rtc (sys ok) w w'.
Proof.
  intros Hok. revert w. induction s as [|a s IH]; intros w Hp; simpl in Hp; [by simplify_eq |].
  apply bind_Some in Hp as (w1 & Ha & Hp). eapply rtc_l; [| by apply IH]. clear IH Hp.
  destruct a as [c | c | c | t]; simpl in Ha.
  - destruct (_ && _) eqn:Hc; [| done]. apply andb_true_iff in Hc as [Ht Ho].
    destruct (exec c w) as [[] w2|] eqn:Hx; simplify_eq.
    eapply sys_escrow; [exact Ht | by apply Hok | exact Hx].
  - destruct (pool_typed c) eqn:Ht; [| done].
    destruct (pool_exec c _) as [n p|] eqn:Hx; simplify_eq. by eapply sys_pool.
  - destruct (Distribution.exec c _) as [[] d|] eqn:Hx; simplify_eq. by eapply sys_dist.
  - destruct (_ && _) eqn:Hc; [| done]. apply andb_true_iff in Hc as [H1 H2].
    simplify_eq. apply sys_ledger; [by split | by apply Z.leb_le..].
Qed.

Lemma played_sys (ok : Call → W → Prop) s w :
  (∀ c w, okb c w = true → ok c w) → plays s w = true → rtc (sys ok) w (played s w).
Proof.
  intros Hok Hp%bool_decide_eq_true. unfold played. destruct Hp as [w' Hp]. rewrite Hp.
  by eapply play_sys.
Qed.
End play.

(** The calls the solvency theorem is about, with no fees set. *)
Definition prudentb (c : Call) (w : W) : bool :=
  (max_discount w <? 10000) && match store w Key.FeeTiers with None => true | Some _ => false end &&
  (default 0 (store w Key.FeeRate) =? 0) && negb (auth (ctx w) escrow) &&
  negb (SolvencyExamples.refunds_paid_out c).
Lemma prudentb_prudent c w : prudentb c w = true → prudent escrow_at c w.
Proof.
  unfold prudentb. rewrite !andb_true_iff, !negb_true_iff, Z.ltb_lt, Z.eqb_eq.
  intros ((((Hm & Ht) & Hf) & Ha) & Hc). split_and!; try done; [| by destruct c].
  intros a. unfold fee_rate_at. case_match; [done |]. simpl. by rewrite Hf.
Qed.

(** ** The script *)
Definition deployment : list Act :=
  [ ADist (Distribution.Initialize escrow gov);
    APool (PInitialize boss 400000000 usdc); APool (PDeposit lp1 300000000);
    APool (PProposeAdmin escrow);
    AEscrow (Initialize admin usdc eurc xlm);
    AEscrow (SetDistributionContract 102%N); AEscrow (SetInsurancePool 101%N);
    ALedger 270000; APool PExecuteAdmin; AEscrow submit1 ].
Definition financing : Call := FundInvoice lp1 1 1000000000 false.
(** Money of others in the escrow contract, then the due date passes. *)
Definition later : list Act :=
  [ AEscrow submit2; AEscrow (FundInvoice lp2 2 1500000000 false); ALedger (due + day) ].

Definition w_open : W := played prudentb deployment genesis.
Definition w_financed : W := commit (exec financing) w_open.
Definition w_due : W := played prudentb later w_financed.
Definition w_claimed : W := commit (exec (ClaimDefault lp1 1)) w_due.

Lemma open_plays : plays prudentb deployment genesis = true.
Proof. vm_compute. reflexivity. Qed.
Lemma financed_run : exec financing w_open = Done tt w_financed.
Proof. committed. Qed.
Lemma financing_prudent : prudentb financing w_open = true.
Proof. vm_compute. reflexivity. Qed.
Lemma due_plays : plays prudentb later w_financed = true.
Proof. vm_compute. reflexivity. Qed.
Lemma claimed_run : exec (ClaimDefault lp1 1) w_due = Done tt w_claimed.
Proof. committed. Qed.
End ChainScenario.
