(* ===== verification/ChainWitness.v ===== *)
(** The theorems on the system at the deployment of [ChainScenario.v]. *)
From S2P Require Import Prelude Host Peers CoreTypes TopPayers CoreStore Access TokenSafety Nft.
From S2P Require Import OracleRegistry Pricing ConfigRs Admin Lifecycle Frames CoreSpecs Edits Queue.
From S2P Require Import Multisig System Invariants Scenario Escrow Solvency SolvencyProps.
From S2P Require Import Distribution Insurance InsuranceProps Moves Chain Composition ChainScenario.
From S2P Require Import Accruals CompositionProps.

Module ChainWitness.
Import Scenario ChainScenario.

Lemma genesis_nonneg t a : 0 ≤ tok_balance chain_bank t a.
Proof.
  assert (map_Forall (λ _ n, 0 ≤ n) (Sac.balances chain_bank)) as Hall
    by (apply (bool_decide_unpack _); vm_compute; exact I).
  change (0 ≤ default 0 (Sac.balances chain_bank !! (t, a))).
  destruct (Sac.balances chain_bank !! (t, a)) as [n |] eqn:E; simpl; [| reflexivity].
  exact (Hall _ _ E).
Qed.

Lemma genesis_launched : launched genesis.
Proof.
  split; [intros k; reflexivity |]. split; [reflexivity |]. split; [by split |].
  split; [reflexivity |]. split; [by apply Z.leb_le |].
  split; [intros k; reflexivity |]. split; [intros k; reflexivity |]. exact genesis_nonneg.
Qed.

Lemma prudent_run :
  rtc (sys (prudent escrow_at)) genesis w_open ∧ rtc (sys (prudent escrow_at)) w_open w_financed ∧
  rtc (sys (prudent escrow_at)) w_financed w_due.
Proof.
  split; [eapply played_sys; [exact prudentb_prudent | exact open_plays] |].
  split; [| eapply played_sys; [exact prudentb_prudent | exact due_plays]].
  apply rtc_once. eapply sys_escrow; [| | exact financed_run]; [reflexivity |].
  apply prudentb_prudent, financing_prudent.
Qed.
Lemma due_run : rtc (sys (prudent escrow_at)) genesis w_due.
Proof. destruct prudent_run as (R1 & R2 & R3). etrans; [exact R1 |]. by etrans. Qed.

Lemma open_parts : wf w_open ∧ settled w_open.
Proof.
  destruct (sys_parts _ _ _ _ _ _ _ _ genesis_launched (proj1 prudent_run)) as (_ & ? & ? & _).
  done.
Qed.
Lemma due_settled : settled w_due.
Proof. by destruct (sys_parts _ _ _ _ _ _ _ _ genesis_launched due_run) as (_ & _ & ? & _). Qed.

Lemma composition_witness :
  rtc (Invariants.step 10 5 8 (λ n, 0) modest (prudent escrow_at)) genesis w_due ∧
  (∃ tr c, pool_run (pool_part genesis) tr (pool_world c (ext w_due)) ∧ now c ≤ now (ctx w_due)) ∧
  ∀ p, ∃ w1, rtc (sys (prudent escrow_at)) genesis w1 ∧ rtc (sys (prudent escrow_at)) w1 w_due ∧
    0 ≤ claimed_by w_due p ≤ Z.max 0 (earned_by w1 p).
Proof.
  exact (composition 10 5 8 (λ n, 0) (prudent escrow_at) modest genesis w_due
           genesis_launched due_run).
Defined.

Lemma system_solvent_witness :
  owed w_due usdc = 1455000000 ∧
  pending_total w_due usdc + owed w_due usdc ≤ tok_balance (Chain.bank (ext w_due)) usdc escrow.
Proof.
  split; [vm_compute; reflexivity |].
  exact (proj1 (system_solvent 10 5 8 (λ n, 0) genesis w_due usdc genesis_launched due_run)).
Defined.

(** Invoice 1 reports a volume of 10^9 units for its LP, one unit of the reward. *)
Lemma rewards_follow_invoices_witness :
  Distribution.total_earned (dist_store (ext w_financed)) lp1 = Distribution.DEFAULT_LP_REWARD_RATE ∧
  ((∃ call, exec call w_open = Done tt w_financed ∧
      dist_store (ext w_financed) = reported call w_open (dist_store (ext w_open))) ∨
   (∀ k, earning_key k = true → dist_store (ext w_financed) k = dist_store (ext w_open) k)).
Proof.
  split; [vm_compute; reflexivity |].
  apply (rewards_follow_invoices 10 5 8 (λ n, 0) modest (λ _ _, True) w_open w_financed
           (proj1 open_parts) (proj2 open_parts)).
  - split; [eexists |]; vm_compute; reflexivity.
  - exact (sys_escrow _ _ _ _ _ (λ _ _, True) _ financing w_financed eq_refl I financed_run).
Defined.

Lemma default_compensation_witness :
  liquid (pool_part w_claimed) = 0 ∧
  (store (pool_part w_claimed) = store (pool_part w_due) ∨
   ∃ n, 0 ≤ n ∧ liquid (pool_part w_claimed) + backstop (pool_part w_claimed)
              = liquid (pool_part w_due) + backstop (pool_part w_due) - n).
Proof.
  split; [vm_compute; reflexivity |].
  destruct (default_compensation 10 5 8 (λ n, 0) lp1 1 w_due w_claimed due_settled)
    as [Hs | (n & _ & _ & _ & _ & Hn & _ & _ & Ht & _)].
  - vm_compute. reflexivity.
  - apply Z.leb_le. vm_compute. reflexivity.
  - apply Z.leb_le. vm_compute. reflexivity.
  - exact claimed_run.
  - left. exact Hs.
  - right. exact (ex_intro _ n (conj Hn Ht)).
Defined.

Lemma compensated_once_witness :
  (∀ f' w3, exec (ClaimDefault f' 1) w_claimed ≠ Done tt w3) ∧
  ∃ tr c, pool_run (pool_part genesis) tr (pool_world c (ext w_claimed)) ∧ NoDup (claim_ids tr).
Proof.
  exact (compensated_once 10 5 8 (λ n, 0) (prudent escrow_at) modest genesis w_due lp1 1
           w_claimed w_claimed genesis_launched due_run claimed_run (rtc_refl _ _)).
Defined.
(** Only the payer signs half of invoice 1; its lp, who did not, is not touched. *)
Definition by_payer : Ctx := mkCtx (λ a, bool_decide (a = payer)) 280000 56000.
Definition w_asked : W := at_ledger by_payer w_financed.
Definition w_answered : W := commit (exec (MarkPaid 1 500000000)) w_asked.

Lemma asked_run : rtc (sys (λ _ _, True)) genesis w_asked.
Proof.
  refine (rtc_r genesis w_financed w_asked (rtc_r genesis w_open w_financed _ _) _).
  - eapply played_sys; [by intros | exact open_plays].
  - eapply sys_escrow; [| | exact financed_run]; [reflexivity | exact I].
  - apply sys_ledger; [by split | apply Z.leb_le; vm_compute; reflexivity | by apply Z.leb_le].
Qed.
Lemma answered_run : exec (MarkPaid 1 500000000) w_asked = Done tt w_answered.
Proof. committed. Qed.

Lemma unsigned_keeps_tokens_witness :
  tok_balance (Chain.bank (ext w_asked)) usdc lp1 = 3730000000 ∧
  tok_balance (Chain.bank (ext w_asked)) usdc lp1 ≤ tok_balance (Chain.bank (ext w_answered)) usdc lp1 ∧
  tok_balance (Chain.bank (ext w_asked)) usdc 101%N
    ≤ tok_balance (Chain.bank (ext w_answered)) usdc 101%N.
Proof.
  split; [vm_compute; reflexivity |].
  destruct (unsigned_keeps_tokens 10 5 8 (λ n, 0) (λ _ _, True) modest genesis w_asked
    (MarkPaid 1 500000000) w_answered genesis_launched asked_run answered_run) as (Ha & Hp & _).
  split; [| exact (Hp eq_refl usdc)].
  apply (Ha lp1 usdc (Sac_peer_laws lp1)); [discriminate | discriminate | reflexivity].
Defined.
End ChainWitness.
