(* ===== verification/SplitProps.v ===== *)
(** The two storage layouts of an invoice: what is saved in either is read back, by the
    readers of both modules, and when the two disagree the split entries win. *)
From S2P Require Import Prelude Host CoreTypes TopPayers CoreStore Access TokenSafety Nft Peers.
From S2P Require Import OracleRegistry Pricing ConfigRs Admin Lifecycle Frames CoreSpecs SplitStore.
From S2P Require Import Scenario.

Section layouts.
Context {X : Type}.
Abbreviation W := (world DataKey X Event).
Abbreviation IO := (M W ContractError).
Implicit Types (w : W) (i j : Invoice).

(** The worlds the two writers leave. *)
Definition split_world i w : W :=
  with_store (st_set (st_set (store w) (Key.InvoiceCore (i_id i)) (Some (to_core i)))
                (Key.InvoiceMetadata (i_id i)) (Some (to_metadata i))) w.

Lemma split_save_done i w : (split_save_invoice i : IO unit) w = Done tt (split_world i w).
Proof. reflexivity. Qed.

(** Both readers see the same invoice. *)
Lemma try_load_lookup id w : (try_load_invoice id : IO _) w = Done (lookup_invoice w id) w.
Proof.
  unfold try_load_invoice, lookup_invoice. go. go. repeat case_match; done.
Qed.
Lemma split_load_lookup id w :
  (split_load_invoice id : IO _) w =
    match lookup_invoice w id with Some i => Done i w | None => Fault Panic end.
Proof.
  unfold split_load_invoice, lookup_invoice, mbind, M_bind, get, reads. simpl.
  destruct (store w (Key.InvoiceCore id)), (store w (Key.InvoiceMetadata id)); try done;
    by destruct (store w (Key.Invoice id)).
Qed.

Lemma lookup_split i w id :
  lookup_invoice (split_world i w) id =
    if decide (id = i_id i) then Some i else lookup_invoice w id.
Proof.
  unfold lookup_invoice, split_world. simpl. case_decide as Hid.
  - subst. sto. by rewrite with_metadata_split.
  - by sto.
Qed.
Lemma lookup_save i w id :
  lookup_invoice (save_world i w) id =
    match store w (Key.InvoiceCore id), store w (Key.InvoiceMetadata id) with
    | Some core, Some metadata => Some (with_metadata core metadata)
    | _, _ => if decide (id = i_id i) then Some i else lookup_invoice w id
    end.
Proof.
  unfold lookup_invoice, save_world. simpl. sto.
  repeat case_match; try done; subst; by sto.
Qed.

(** C40: the layouts round trip.  An invoice saved in the split layout is read back
    field for field by both readers, and its core by the core reader; no other
    invoice changes; an invoice saved as one entry is read back by both readers unless
    split entries exist, and then both readers return the split one, however
    often the whole invoice is saved again. *)
Theorem split_layout_roundtrip i j w :
  let w' := split_world i w in
  (split_save_invoice i : IO unit) w = Done tt w' ∧
  (split_load_invoice (i_id i) : IO _) w' = Done i w' ∧
  (try_load_invoice (i_id i) : IO _) w' = Done (Some i) w' ∧
  (try_load_invoice_core (i_id i) : IO _) w' = Done (Some (to_core i)) w' ∧
  (∀ id, id ≠ i_id i → lookup_invoice w' id = lookup_invoice w id) ∧
  (store w (Key.InvoiceCore (i_id i)) = None →
   (try_load_invoice (i_id i) : IO _) (save_world i w) = Done (Some i) (save_world i w) ∧
   (split_load_invoice (i_id i) : IO _) (save_world i w) = Done i (save_world i w)) ∧
  (i_id j = i_id i →
   (try_load_invoice (i_id i) : IO _) (save_world j w') = Done (Some i) (save_world j w') ∧
   (load_invoice (i_id i) : IO _) (save_world j w') = Done j (save_world j w')).
Proof.
  simpl. rewrite !try_load_lookup, !split_load_lookup, !lookup_split, decide_True by done.
  split; [done |]. split; [done |]. split; [done |].
  split; [unfold try_load_invoice_core; go; unfold split_world; simpl; by sto |].
  split; [intros id Hid; by rewrite lookup_split, decide_False |]. split.
  - intros Hc. rewrite lookup_save, Hc, decide_True by done. done.
  - intros Hj. rewrite lookup_save. unfold split_world at 1 2. simpl. sto.
    rewrite with_metadata_split. split; [done |].
    unfold load_invoice, save_world. go. rewrite Hj. simpl. by sto.
Qed.

(** ** The rollback rehearsal *)

(** An invoice that only the split reader could have found: part of the split layout
    without the monolithic entry or the other part. *)
Definition orphaned w (id : Z) : bool :=
  bool_decide (store w (Key.Invoice id) = None) &&
  xorb (bool_decide (is_Some (store w (Key.InvoiceCore id))))
       (bool_decide (is_Some (store w (Key.InvoiceMetadata id)))).

Definition classified w (r : RollbackRehearsalReport) (id : Z) : RollbackRehearsalReport :=
  classify_layout (bool_decide (is_Some (store w (Key.Invoice id))))
    (bool_decide (is_Some (store w (Key.InvoiceCore id))))
    (bool_decide (is_Some (store w (Key.InvoiceMetadata id)))) r.

Lemma classified_orphans w r id :
  0 ≤ orphaned_count r →
  0 ≤ orphaned_count (classified w r id) ∧
  (orphaned_count (classified w r id) =? 0) = (orphaned_count r =? 0) && negb (orphaned w id).
Proof.
  intros Hr. unfold classified, classify_layout, orphaned.
  assert (bool_decide (store w (Key.Invoice id) = None) =
          negb (bool_decide (is_Some (store w (Key.Invoice id))))) as ->.
  { destruct (store w (Key.Invoice id)); done. }
  assert (0 < sat_u32 (orphaned_count r + 1)) by (unfold sat, u32_max; lia).
  destruct (bool_decide (is_Some (store w (Key.Invoice id)))),
    (bool_decide (is_Some (store w (Key.InvoiceCore id)))),
    (bool_decide (is_Some (store w (Key.InvoiceMetadata id)))); simpl;
    rewrite ?andb_true_r, ?andb_false_r, ?Z.eqb_neq; split; lia || done.
Qed.

Lemma scan_orphans w ids r :
  0 ≤ orphaned_count r →
  (orphaned_count (foldl (classified w) r ids) =? 0) =
    (orphaned_count r =? 0) && forallb (λ id, negb (orphaned w id)) ids.
Proof.
  revert r. induction ids as [|id ids IH]; intros r Hr; simpl; [by rewrite andb_true_r |].
  destruct (classified_orphans w r id Hr) as [Hr' E]. rewrite IH, E by done.
  by rewrite <- andb_assoc.
Qed.

Lemma elem_of_sample a b id : a ≤ b + 1 → id ∈ sample_ids b a ↔ a ≤ id ≤ b.
Proof.
  intros Hab. unfold sample_ids. rewrite list_elem_of_fmap. split.
  - intros (n & -> & Hn%elem_of_seq). lia.
  - intros Hid. exists (Z.to_nat (b - id)). split; [lia |]. apply elem_of_seq. lia.
Qed.

(** The rehearsal passes exactly when no sampled invoice is orphaned, and changes
    nothing. *)
Theorem rollback_check_exact (size : Z) w :
  let last := default 1 (store w Key.NextInvoiceId) - 1 in
  let first := sat_u64 (last - sat_u64 (size - 1)) in
  last ≤ u64_max → 1 ≤ last →
  (∃ r, (check_rollback_safety size : IO _) w = Done r w) ∧ (∀ id, first ≤ id ≤ last → orphaned w id = false) ∨
  (check_rollback_safety size : IO _) w = Fault (Code Err.RollbackUnsafe) ∧
  ∃ id, first ≤ id ≤ last ∧ orphaned w id = true.
Proof.
  intros last first Hmax Hlast.
  assert (first ≤ last + 1) as Hf by (unfold first, sat; unfold u64_max in *; lia).
  assert ((check_rollback_safety size : IO _) w =
    (if orphaned_count (foldl (classified w) (mkRollbackReport 0 0 0 0 true) (sample_ids last first)) =? 0
     then Done (foldl (classified w) (mkRollbackReport 0 0 0 0 true) (sample_ids last first)) w
     else Fault (Code Err.RollbackUnsafe))) as ->.
  { unfold check_rollback_safety, mbind, M_bind, get_or, reads. simpl.
    fold last. replace (default 1 (store w Key.NextInvoiceId) <=? 1) with false
      by (symmetry; apply Z.leb_gt; lia).
    fold first. unfold classified. by destruct (_ =? 0). }
  rewrite scan_orphans by done. simpl.
  destruct (forallb _ _) eqn:Hall; [left | right]; (split; [eauto |]).
  - intros id Hid. rewrite forallb_forall in Hall.
    apply negb_true_iff, Hall. apply list_elem_of_In. by apply elem_of_sample.
  - apply not_true_iff_false in Hall. rewrite forallb_forall in Hall.
    destruct (existsb (orphaned w) (sample_ids last first)) eqn:He.
    + apply existsb_exists in He as (id & Hin & Ho). exists id. split; [| done].
      apply elem_of_sample; [done |]. by apply list_elem_of_In.
    + exfalso. apply Hall. intros id Hin. destruct (orphaned w id) eqn:Ho; [| done].
      assert (existsb (orphaned w) (sample_ids last first) = true); [| congruence].
      apply existsb_exists. eauto.
Qed.
End layouts.

Module SplitWitness.
Import Scenario.
(** Invoice 1 of the running example, migrated after its second contribution. *)
Definition funded1 : Invoice :=
  default (mkInvoice 0 0%N 0%N 0%N 0 0 0 Status.Pending None None 0 0 NoReferral 0)
    (invoice_at w_funded 1).
Definition repriced : Invoice := set_status Status.Paid funded1.

Lemma split_layout_roundtrip_witness :
  i_status funded1 = Status.Funded ∧
  (try_load_invoice (i_id funded1) : M W ContractError _) (save_world repriced (split_world funded1 w_funded))
    = Done (Some funded1) (save_world repriced (split_world funded1 w_funded)).
Proof.
  split; [vm_compute; reflexivity |].
  destruct (split_layout_roundtrip funded1 repriced w_funded) as (_ & _ & _ & _ & _ & _ & Hs).
  refine (proj1 (Hs _)). vm_compute. reflexivity.
Defined.
End SplitWitness.
