(* ===== verification/Views.v ===== *)
(** The read-only reports of [lib.rs] and [invoice.rs]: contract statistics with their
    price normalization, the protocol status page and the oracle status view; what they
    report and that they neither write nor fail. *)
From S2P Require Import Prelude Host Peers CoreTypes TopPayers CoreStore Access TokenSafety Nft.
From S2P Require Import OracleRegistry Pricing Lifecycle.

(** [ContractStats] of [invoice.rs]. *)
Record ContractStats := mkContractStats {
  total_invoices : Z;
  total_funded : Z;
  total_paid : Z;
  total_volume_usdc : Z;
  total_volume_eurc : Z;
  total_volume_xlm : Z;
  token_volumes : list (Address * Z);
  total_volume_usd_normalized : Z
}.

(** [ProtocolStatus] of [invoice.rs]. *)
Record ProtocolStatus := mkProtocolStatus {
  ps_paused : bool;
  ps_last_pause_timestamp : Z;
  ps_admin : Address;
  ps_multisig_configured : bool;
  ps_multisig_threshold : Z;
  ps_multisig_signer_count : Z;
  ps_oracle_circuit_tripped : bool;
  ps_oracle_circuits_tripped : Z
}.

(** [OracleStatusView] of [oracle_registry.rs]. *)
Record OracleStatusView := mkOracleStatusView {
  ov_feed_type : OracleFeedType;
  ov_token : Address;
  ov_resolved_oracle : option Address;
  ov_health : option OracleHealthStatus;
  ov_circuit_tripped : bool;
  ov_recovery : option CircuitRecoveryState;
  ov_identity_oracles : list Address;
  ov_identity_quorum : Z;
  ov_price_sources : list Address
}.

(** [volume.checked_mul(price).unwrap_or(0) / 10_000], added unless it overflows. *)
Definition add_normalized (total volume price : Z) : Z :=
  default total (chk_i128 (total + default 0 (chk_i128 (volume * price)) ÷ 10000)).

Definition feed_types : list OracleFeedType := [Price; Identity; Credit].

Section views.
Context {X : Type} `{TokenInterface X} `{Peers X}.
Abbreviation W := (world DataKey X Event).
Abbreviation IO := (M W ContractError).
Implicit Types w : W.

Definition get_oracle_for_token (f : OracleFeedType) (t : Address) : IO (option Address) :=
  resolve_oracle f t.

Definition get_price_from_oracle (token : Address) : IO (option Z) :=
  fault ← price_feed_fault Price token;
  match fault with
  | Some _ => mret None
  | None =>
      resolved ← resolve_oracle Price token;
      config ← get_config;
      match (match resolved with Some o => Some o | None => config ≫= price_oracle end) with
      | None => mret None
      | Some oracle => query_price oracle token
      end
  end.

Fixpoint stats_loop (tokens : list Address) (total : Z) : IO (list (Address * Z) * Z) :=
  match tokens with
  | [] => mret ([], total)
  | token :: tokens =>
      volume ← get_or (Key.TokenVolume token) 0;
      price ← get_price_from_oracle token;
      r ← stats_loop tokens
            (match price with Some p => add_normalized total volume p | None => total end);
      mret ((token, volume) :: r.1, r.2)
  end.

Definition get_contract_stats : IO ContractStats :=
  tokens ← get_or Key.TokenList [];
  r ← stats_loop tokens 0;
  invoices ← get_or Key.TotalInvoices 0;
  funded ← get_or Key.TotalFunded 0;
  paid ← get_or Key.TotalPaid 0;
  usdc ← get_or Key.TotalVolumeUsdc 0;
  eurc ← get_or Key.TotalVolumeEurc 0;
  xlm ← get_or Key.TotalVolumeXlm 0;
  mret (mkContractStats invoices funded paid usdc eurc xlm r.1 r.2).

(** The inner loop over the tokens, then the outer one over the feeds; [+= 1] traps on
    overflow. *)
Fixpoint count_tripped (pairs : list (OracleFeedType * Address)) (n : Z) : IO Z :=
  match pairs with
  | [] => mret n
  | (f, t) :: pairs =>
      tripped ← is_oracle_circuit_tripped f t;
      n ← (if (tripped : bool) then unwrap (chk_u32 (n + 1)) else mret n);
      count_tripped pairs n
  end.

Definition channels (tokens : list Address) : list (OracleFeedType * Address) :=
  f ← feed_types; pair f <$> tokens.

Definition get_protocol_status : IO ProtocolStatus :=
  a ← get_admin;
  me ← current_contract;
  multisig ← get Key.MultisigAdmin;
  tokens ← get_or Key.TokenList [];
  tripped ← count_tripped (channels tokens) 0;
  paused ← is_paused;
  last ← get_last_pause_timestamp;
  mret (mkProtocolStatus paused last (default me a)
    (match multisig with Some _ => true | None => false end)
    (match multisig with Some m => ms_threshold m | None => 0 end)
    (match multisig with Some m => vlen (ms_signers m) | None => 0 end)
    (0 <? tripped) tripped).

Definition get_oracle_status (f : OracleFeedType) (t : Address) : IO OracleStatusView :=
  resolved ← resolve_oracle f t;
  health ← get_oracle_health f t;
  tripped ← is_oracle_circuit_tripped f t;
  recovery ← get_circuit_recovery_state f t;
  feeders ← get_identity_oracles f;
  quorum ← get_identity_quorum;
  sources ← get_price_sources f;
  mret (mkOracleStatusView f t resolved health tripped recovery feeders quorum sources).

(** ** What they report *)
Definition volume_of w (t : Address) : Z := default 0 (store w (Key.TokenVolume t)).
Definition circuit_tripped_at w (p : OracleFeedType * Address) : bool :=
  default false (store w (Key.OracleCircuitTripped p.1 p.2)).
(** The price feed of a token is out of use: its breaker is open or its last snapshot
    stale. *)
Definition unhealthy w (t : Address) : Prop :=
  circuit_tripped_at w (Price, t) = true ∨
  ∃ h, store w (Key.OracleHealth Price t) = Some h ∧ oh_is_stale h = true.

Lemma price_read w t :
  ∃ o x, (get_price_from_oracle t : IO _) w = Done o (with_ext x w) ∧
    (unhealthy w t → o = None ∧ x = ext w).
Proof.
  unfold get_price_from_oracle, price_feed_fault, is_oracle_circuit_tripped, get_oracle_health,
    resolve_oracle, legacy_oracle, get_config, query_price, unhealthy, circuit_tripped_at,
    mbind, M_bind, get, get_or, reads, try_invoke, mret, M_ret. simpl.
  destruct w as [me c st x ev]; simpl. unfold with_ext; simpl.
  repeat case_match; simplify_eq; eexists _, _; (split; [reflexivity |]); intros Hu; try done;
    exfalso; destruct Hu as [Hu | (h & Hh & Hs)].
  all: simpl in *; congruence.
Qed.

Lemma stats_loop_read l total w :
  ∃ n x, (stats_loop l total : IO _) w = Done ((λ t, (t, volume_of w t)) <$> l, n) (with_ext x w) ∧
    ((∀ t, t ∈ l → unhealthy w t) → n = total ∧ x = ext w).
Proof.
  revert total w. induction l as [|t l IH]; intros total w; simpl.
  { exists total, (ext w). split; [by destruct w | done]. }
  destruct (price_read w t) as (o & x & Hp & Hu).
  destruct (IH (match o with Some p => add_normalized total (volume_of w t) p | None => total end)
              (with_ext x w)) as (n & y & Hl & Hn).
  exists n, y. split.
  - go. eapply done_bind; [exact Hp |]. eapply done_bind; [exact Hl |]. reflexivity.
  - intros Hall. destruct (Hu (Hall t (list_elem_of_here _ _))) as [-> ->].
    destruct Hn as [-> ->]; [| done]. intros t' Ht'. apply (Hall t'). by right.
Qed.

(** The statistics never fail and never write: whatever the oracles do, every listed
    token is reported with its volume, and the normalized total is built from
    healthy feeds only. *)
Theorem contract_stats_read w :
  ∃ s x, get_contract_stats w = Done s (with_ext x w) ∧
    token_volumes s = (λ t, (t, volume_of w t)) <$> default [] (store w Key.TokenList) ∧
    ((∀ t, t ∈ default [] (store w Key.TokenList) → unhealthy w t) →
     total_volume_usd_normalized s = 0 ∧ x = ext w).
Proof.
  destruct (stats_loop_read (default [] (store w Key.TokenList)) 0 w) as (n & x & Hl & Hn).
  eexists _, x. split; [| split].
  - unfold get_contract_stats. go. eapply done_bind; [exact Hl |]. reflexivity.
  - reflexivity.
  - exact Hn.
Qed.

Definition tripped_count w (l : list (OracleFeedType * Address)) : Z :=
  vlen (filter (λ p, circuit_tripped_at w p = true) l).

Lemma count_tripped_done w l n :
  0 ≤ n → n + vlen l ≤ u32_max →
  (count_tripped l n : IO Z) w = Done (n + tripped_count w l) w.
Proof.
  revert n. induction l as [|[f t] l IH]; intros n Hn Hmax.
  - unfold tripped_count. simpl. by rewrite Z.add_0_r.
  - unfold vlen in Hmax. simpl in Hmax. simpl. unfold tripped_count. rewrite filter_cons.
    go. change (default false (store w (Key.OracleCircuitTripped f t)))
      with (circuit_tripped_at w (f, t)).
    destruct (circuit_tripped_at w (f, t)) eqn:Ht.
    + rewrite decide_True by done. unfold checked.
      replace (in_u32 (n + 1)) with true
        by (symmetry; apply in_u32_spec; unfold u32_max in *; lia).
      go. rewrite IH by (unfold vlen; lia). unfold tripped_count, vlen. simpl. f_equal. lia.
    + rewrite decide_False by done. go. apply IH; unfold vlen; lia.
Qed.

Lemma tripped_positive w l :
  0 < tripped_count w l ↔ ∃ p, p ∈ l ∧ circuit_tripped_at w p = true.
Proof.
  unfold tripped_count, vlen. induction l as [|p l IH].
  - split; [simpl; lia |]. by intros (p & Hp%elem_of_nil & _).
  - rewrite filter_cons. case_decide as Hp.
    + split; [intros _; exists p; split; [left | done] | simpl; lia].
    + rewrite IH. split; intros (q & Hq & Ht); exists q; (split; [| done]); [by right |].
      by apply elem_of_cons in Hq as [-> | Hq].
Qed.

(** The status page counts exactly the tripped (feed, token) channels of the listed
    tokens, and raises its flag when there is one; it never fails on a token list a
    third of the [u32] range long. *)
Theorem protocol_status_exact w :
  let tokens := default [] (store w Key.TokenList) in
  3 * vlen tokens ≤ u32_max →
  ∃ s, get_protocol_status w = Done s w ∧
    ps_oracle_circuits_tripped s = tripped_count w (channels tokens) ∧
    (ps_oracle_circuit_tripped s = true ↔
       ∃ f t, t ∈ tokens ∧ circuit_tripped_at w (f, t) = true) ∧
    ps_paused s = default false (store w Key.Paused) ∧
    ps_admin s = default (self w) (store w Key.Admin).
Proof.
  intros tokens Hmax.
  assert (vlen (channels tokens) = 3 * vlen tokens) as Hlen.
  { unfold vlen, channels. simpl. rewrite !length_app, !length_fmap. simpl. lia. }
  eexists. split; [| split; [| split; [| split]]].
  - unfold get_protocol_status. go. go. go. go.
    eapply done_bind; [apply count_tripped_done; [done |] |].
    { change (0 + vlen (channels tokens) ≤ u32_max). lia. }
    reflexivity.
  - simpl. by rewrite Z.add_0_l.
  - cbn [ps_oracle_circuit_tripped]. rewrite Z.ltb_lt, Z.add_0_l, tripped_positive. split.
    + intros ([f t] & Hin & Ht). exists f, t. split; [| done].
      revert Hin. unfold channels. fold tokens. set_solver.
    + intros (f & t & Hin & Ht). exists (f, t). split; [| done].
      unfold channels, feed_types. fold tokens. destruct f; set_solver.
  - reflexivity.
  - reflexivity.
Qed.
End views.
